(* ===== verification/_CoqProject ===== *)
-Q . S2P
Prelude.v
Serial.v
LabGob.v
LabRPC.v
RaftState.v
RaftNode.v
RaftInv.v
RaftIndex.v
RaftApply.v
RaftSteps.v
RaftLeader.v
RaftReplicate.v
RaftElection.v
RaftView.v
RaftAbstract.v
RaftNet.v
RaftSafety.v
KVSrv.v
Service.v
Replicated.v
Sessions.v
KVRaft.v
KvModel.v
Bitset.v
Checker.v
CheckerList.v
CheckerSearch.v
CheckerParallel.v
CheckerSpec.v
CheckerEvents.v
KVLinearize.v
Rebalance.v
ShardCtrler.v
ShardKV.v
ShardKVSpec.v
ShardMove.v
Agreement.v
KVClients.v
MapReduce.v
Apps.v
Coordinator.v
Worker.v
WorkerSafety.v
