(* ===== verification/Prelude.v ===== *)
(** * A verification library for the 6.5840 distributed-systems labs (Go)

    The repository implements the labs of a distributed-systems course: a
    MapReduce coordinator and worker ([src/mr]), a single-machine key/value
    server ([src/kvsrv]), Raft ([src/raft]), a key/value service replicated with
    Raft ([src/kvraft]), a shard controller ([src/shardctrler]) and a sharded
    key/value service ([src/shardkv]).  This library models these programs and
    proves what makes them correct.  (Paths are relative to the Go module, the
    directory [src] of the repository.)

    ** How the parts interact

    A Raft peer ([raft.go]) elects leaders, replicates a log and sends the
    committed commands, numbered without gaps, on a channel.  The three services
    above it start an operation at their peer ([Start]), read the channel in
    [handleApplyMsg], keep a session per client so that a repeated request is
    executed once, and hand snapshots back to the peer.  [shardctrler] decides
    which replica group serves which shard; [shardkv] groups poll it and move
    shards between them.  The MapReduce coordinator hands out jobs as strings,
    takes back the work of workers that are late, and its workers exchange data
    through files.

    ** Files

    - [Prelude]: outcomes of Go code, slices and maps, shared tactics, record
      update, codecs.  [Serial]: concrete codecs that satisfy the codec laws.
    - [LabRPC]: the network that carries the calls between clients and servers.
      [LabGob]: the checks of the encoder wrapper on types and on variables; the
      search through types returns although types may refer to themselves.
    - [RaftState]: types, index conversions, apply queue, persister
      ([raft.go], [enum.go], [util.go], [persister.go]).  [RaftNode]: one
      definition per critical section of [raft.go].
    - [RaftInv]: well-formed peers, kept by every section.  [RaftIndex]: internal
      and external indices.  [RaftApply]: the apply loop and the stream it
      produces.  [RaftSteps]: a peer over time, with crashes; durability.
      [RaftLeader], [RaftReplicate]: the tasks of a leader, what a success reply
      means, no section of a reachable peer crashes.  [RaftElection]: a cluster,
      and at most one leader per term.
    - [RaftView]: the log of a peer as the tail of the whole log, of which
      snapshots hide a prefix.  [RaftAbstract]: Raft over whole logs, with the
      history of elections as ghost state, and its safety argument.  [RaftNet]:
      the peers of [RaftNode] over a network that loses, delays, repeats and
      reorders messages, as a step relation and as an executable interpreter.
      [RaftSafety]: a simulation of the latter by the former.
    - [Replicated]: the servers of a service on a cluster of peers; one history.
      [Agreement]: the three services as instances of it.  [KVClients]: clerks and
      servers of [kvraft] on a cluster, and what the clients see; [KVLinearize]: a
      linearization from the order of the log.
    - [KVSrv]: server, clerks and an unreliable network; refinement of an atomic
      store in which a pending put may repeat.
    - [Service]: the interface between a peer and the service on top of it.
      [Sessions]: the session table that [kvraft] and [shardctrler] share.
    - [KVRaft]: server and clerk of [kvraft].  [KvModel]: the model with which the
      tests check histories of [kvsrv] and [kvraft].  [Checker] (definitions),
      [CheckerList], [CheckerSearch], [CheckerParallel], [CheckerSpec],
      [CheckerEvents] (theorems), with [Bitset]: the checker ([porcupine]), which searches a history for a
      linearization.  [Rebalance], [ShardCtrler]: the
      shard controller.  [ShardKV] (definitions), [ShardKVSpec] (theorems): the
      sharded service.  [ShardMove]: [pollConfig] and [MoveShards], the driver of
      a change of configuration.
    - [MapReduce]: the data path of a worker against [main/mrsequential.go].
      [Apps]: the plugins of [mrapps] that compute something.
      [Coordinator]: the coordinator and the jobs of its workers.  [Worker]: the
      processes of the workers, beside the coordinator, on one directory.
      [WorkerSafety]: the invariant of such a world, and what a finished job has
      computed.

    ** How code is modelled

    A struct is a record with the source's field names; a handler or a critical
    section is a function from the old state to an [outcome] of the new state and
    the reply, where [Panic] and [Fatal] are the ways in which Go code does not
    return.  Everything between [mu.Lock()] and [mu.Unlock()] is one definition:
    interleavings are sequences of such sections, given by the inductive step
    relations [node_step] (a peer), [cstep] (elections in a cluster), [nstep] (a
    cluster and its network), [rstep] (the servers on such a cluster), [wstep]
    (these and their clients),
    [service_reachable] (a service on a peer), [dstep] (a change of
    configuration), [sys_step] (kvsrv) and [step] (MapReduce), or by
    executable functions from an action to the next state ([LabRPC.exec],
    [Worker.exec], [Checker.exec]), of which a schedule is a list.  [int] is [Z]: the
    programs count log entries, requests and configurations, far below
    2^63; where the width matters ([ihash]) the wrap-around is written out.  The
    order in which Go iterates over a map is an argument or arbitrary, and the
    theorems hold for all of them.  Time is an argument ([now], [elapsed]), random
    numbers are arguments, [DPrintf] is left out except where an argument of it
    could panic.

    Outside the repository: [encoding/gob], behind [labgob], is an abstract [Codec]
    with the law that decoding inverts encoding; a call of [net/rpc] is executed or
    not, and answered or not; [sort.Sort] is any function that sorts ([ByKeySort], [ByTimeSort]); the MapReduce plugins
    are parameters.

    ** What is shown

    - Raft: peers that deliver a command at the same index deliver the same
      command ([state_machine_safety]); logs that agree on the term of an index
      agree up to it ([log_matching_property]); at most one leader per term
      ([election_safety]); the service reads a
      gapless stream ([stream_in_order]); restart recovers the persistent state;
      index conversions are inverse and survive snapshots; [commitCheck] and
      [applyEntries] equal reference definitions; a success reply means that the
      follower holds the entries; a follower that is far behind catches up with a
      snapshot ([snapshot_catches_up]); no section of a reachable peer crashes.
    - What clients of [kvraft] see is linearizable under the assumptions below
      ([kvraft_linearizable]); the history is a part of the operations that were
      started, in that order ([history_in_start_order]).
    - Services: the servers of a cluster execute one history
      ([kvraft_one_history], [shardctrler_one_history], [shardkv_replicas_agree]),
      and each request once if the requests of each client are in order in it;
      snapshots that replace the log, answers of waiting handlers, progress of the
      clerk's retry loop; for the controller, an assignment that is balanced,
      takes the fewest shards away from groups that stay ([rebalance_correct]) and
      does not depend on the order of maps ([rebalance_deterministic]), and the
      history of configurations; for [shardkv], movement of shards with
      data and sessions, exact deletion, what becomes of client operations on
      served and foreign shards; the order
      in which a change of configuration fetches, installs and drops shards
      ([config_change_order], [server_requests_in_order]), its end when one server
      of every group answers ([config_change_ends]) and the group that it waits
      for in vain ([absent_group_blocks]).
    - Tests: a history is linearizable exactly when its parts are, one per key, by
      the model of the tests ([partition_linearizable]), and they accept the
      histories of [kvsrv] ([kvsrv_history_accepted]).  The checker decides whether
      a history is linearizable ([checkSingle_correct] for a part and any model,
      [checkOperations_correct] for all parts, searched beside one another,
      [checkEvents_correct] for histories of events), and it ends ([checkOperations_ends]).
    - Network: the handler of a call runs at most once, and exactly once, on the
      client's arguments, when the call returns true ([call_at_most_once]); no
      positive reply from a server that was deleted ([deleted_server_silent]).
    - MapReduce: when the coordinator is done, the output files hold the lines of
      the sequential program, in calm runs ([mapreduce_correct]); every work is
      finished by the worker that has it; a phase ends exactly when all is done;
      word count counts words ([wordcount_correct]).
    - Lemmas named after a defect ([stale_promotion], [last_reply_dropped],
      [put_retry_not_linearizable], [session_regresses],
      [killed_server_claims_success], [group_zero_is_asked],
      [stale_movement_reopens], [reduce_before_rename], [straggler_truncates],
      [lost_nReduce], [crashed_worker_blocks_exit], [first_noop_unchecked],
      [executed_after_failure], [late_request_appends_twice],
      [empty_history_blocks]) show behaviours that the code does not guard
      against.

    ** Bounds

    Loops that are not structural take fuel, and a theorem shows that it
    suffices: [externalIndex_loop] and [applyEntries_loop] run at most once per
    log entry ([applyEntries_reference]), [commitCheck_loop] at most once per index
    ([commitCheck_reference]), [balance] at most [balanceFuel] = 111 times (10
    orphans, then moves that lower a sum of squares below 100;
    [rebalance_correct]), [reduceLoop] once per pair ([distributed_sequential]); a
    change of configuration takes at most six steps, 2k + 6 for every group that
    gives shards and whose server at position k answers, and one for every local
    request that is repeated ([config_change_ends]); [lengthLoop] runs once per node ([lengthLoop_spec]), and
    the search of the checker ends for every history ([checkSingle_correct]).

    ** Assumptions

    - An election goroutine takes the lock for its first section before the next
      election of that peer starts, and nothing comes between its last test of
      [cancelToken] and its lock ([RaftElection]; [stale_promotion] shows the
      case that this excludes).
    - In [RaftNet] the tasks of a leader run only while its leadership of that
      term lasts.  A follower accepts a fix package without comparing the term of
      the entry before it, which has been applied; a new peer, however, starts
      with [lastApplied = 1] and has applied nothing.  The safety theorems assume
      that entry 1 agrees in this case ([firstChecked]); [first_noop_unchecked]
      is a run without this assumption in which two peers deliver different
      commands at the same index.
    - A service snapshots an index that is still in the log ([ns_snapshot]).
    - Clients of [kvraft] have distinct identifiers and [nrand] never gives a number
      twice.  The handler of a call runs at most once, and not after the call has
      failed; a crash ends the handlers of the server.  [call_at_most_once] is the
      first part; the network does not keep to the second when it cuts off a client
      ([executed_after_failure]), and then the service is not linearizable
      ([late_request_appends_twice]).
    - Workers of MapReduce have distinct positive process ids, run the same map
      and reduce functions, and start in a directory without files of an earlier
      run; names of input files have no space.  The result of the reduce function
      does not depend on the order of the values.  The runs are
      calm ([calm]): a worker finishes its renames before a reduce task lists the
      directory and does not stop in the middle of them ([reduce_before_rename]
      shows what happens otherwise), the call [GetNReduce] is answered
      ([lost_nReduce]), and a worker that was declared dead does not stop while it
      writes an output file ([straggler_truncates]).

    ** Not modelled

    The goroutines that only signal condition variables ([heartBeat]), logging,
    the RPC server of [mr], a failure of the JSON encoder in the middle of a file.
    The test set-up and the visualisation of histories ([porcupine/visualization.go])
    are not part of the programs; of the plugins in [mrapps], those that measure time and parallelism ([mtiming], [rtiming], [jobcount]) are
    left out. *)

From stdpp Require Export base gmap strings list fin_maps sorting.
From Stdlib Require Export ZArith Lia.

(** Projections written in the statements of this library never unfold record
    updates by accident. *)
Set Default Proof Using "Type".

(** ** Outcomes of Go code

    A Go function that indexes a slice, converts an interface or calls
    [log.Fatal] may not return.  [Ret a] is a normal return, [Panic] a run-time
    panic (index out of range, nil dereference, failed type assertion) and
    [Fatal] a call to [log.Fatal] or [log.Fatalf], which exits the process.
    [OutOfFuel] is not a behaviour of the code: a loop of the model that is
    not structural runs with a bound, and the theorems on each such loop show
    that its bound is never reached. *)

Inductive outcome (A : Type) : Type :=
| Ret (a : A)
| Panic
| Fatal
| OutOfFuel.
Arguments Ret {A} a.
Arguments Panic {A}.
Arguments Fatal {A}.
Arguments OutOfFuel {A}.

#[export] Instance outcome_mret : MRet outcome := λ A a, Ret a.
#[export] Instance outcome_mbind : MBind outcome := λ A B f m,
  match m with
  | Ret a => f a
  | Panic => Panic
  | Fatal => Fatal
  | OutOfFuel => OutOfFuel
  end.

(** [returns m]: the code does return a value. *)
Definition returns {A} (m : outcome A) : Prop := ∃ a, m = Ret a.

Lemma bind_Ret_inv {A B} (f : A → outcome B) (m : outcome A) (b : B) :
  m ≫= f = Ret b ↔ ∃ a, m = Ret a ∧ f a = Ret b.
Proof. destruct m; split; naive_solver. Qed.

Lemma bind_Ret {A B} (f : A → outcome B) (a : A) : Ret a ≫= f = f a.
Proof. done. Qed.

Lemma bind_mret {A B} (f : A → outcome B) (a : A) : mret a ≫= f = f a.
Proof. done. Qed.

Lemma returns_Ret {A} (a : A) : returns (Ret a).
Proof. by exists a. Qed.

Lemma returns_bind {A B} (f : A → outcome B) (m : outcome A) :
  returns m → (∀ a, m = Ret a → returns (f a)) → returns (m ≫= f).
Proof. intros [a ->] H. by apply H. Qed.

(** The value of a computation that is known to return. *)
Definition valueOf {A} (d : A) (m : outcome A) : A := match m with Ret a => a | _ => d end.

(** [for x in range l { acc = f(acc, x) }] where the body may not return. *)
Fixpoint for_range {A B} (f : B → A → outcome B) (acc : B) (l : list A) : outcome B :=
  match l with
  | [] => mret acc
  | x :: l => acc ← f acc x; for_range f acc l
  end.

(** An invariant of the loop body is an invariant of the loop, which returns
    if the body does under the invariant. *)
Lemma for_range_inv {A B} (P : B → Prop) (f : B → A → outcome B) l acc :
  (∀ acc x, x ∈ l → P acc → ∃ acc', f acc x = Ret acc' ∧ P acc') →
  P acc → ∃ acc', for_range f acc l = Ret acc' ∧ P acc'.
Proof.
  revert acc. induction l as [|x l IH]; intros acc Hf Hacc; simpl; [by exists acc|].
  destruct (Hf acc x) as (acc' & -> & ?); [set_solver|done|]. simpl.
  apply IH; [|done]. intros ????; apply Hf; set_solver.
Qed.

(** What the body keeps holds of what the loop returns. *)
Lemma for_range_post {A B} (P : B → Prop) (f : B → A → outcome B) l acc res :
  for_range f acc l = Ret res →
  (∀ acc acc' x, x ∈ l → f acc x = Ret acc' → P acc → P acc') → P acc → P res.
Proof.
  revert acc. induction l as [|x l IH]; intros acc Hr Hf Hacc; simpl in Hr.
  { unfold mret, outcome_mret in Hr. by simplify_eq. }
  apply bind_Ret_inv in Hr as (acc' & Hx & Hr). apply (IH acc' Hr).
  - intros a a' y Hy. apply Hf. by right.
  - by apply (Hf acc acc' x (list_elem_of_here _ _) Hx).
Qed.

(** A property of every element that the loop collects. *)
Lemma for_range_all {A B} (P : B → Prop) (f : list B → A → outcome (list B)) l acc res :
  for_range f acc l = Ret res →
  (∀ acc acc' x, x ∈ l → f acc x = Ret acc' → (∀ b, b ∈ acc → P b) → ∀ b, b ∈ acc' → P b) →
  (∀ b, b ∈ acc → P b) → ∀ b, b ∈ res → P b.
Proof. exact (for_range_post (λ acc, ∀ b, b ∈ acc → P b) f l acc res). Qed.

(** ** Go slices and maps

    A slice is a list; positions are Go [int]s, so they are integers that may
    be negative.  Every access out of range panics.  [slice_upto] panics past
    the length, where Go would only panic past the capacity: the callers are
    shown never to reach that case. *)

Definition len {A} (l : list A) : Z := Z.of_nat (length l).

Definition slice_get {A} (l : list A) (i : Z) : outcome A :=
  if decide (i < 0)%Z then Panic
  else match l !! Z.to_nat i with Some x => Ret x | None => Panic end.

Definition slice_set {A} (l : list A) (i : Z) (x : A) : outcome (list A) :=
  if decide (0 ≤ i < len l)%Z then Ret (<[Z.to_nat i := x]> l) else Panic.

Definition slice_from {A} (l : list A) (i : Z) : outcome (list A) :=
  if decide (0 ≤ i ≤ len l)%Z then Ret (drop (Z.to_nat i) l) else Panic.

Definition slice_upto {A} (l : list A) (i : Z) : outcome (list A) :=
  if decide (0 ≤ i ≤ len l)%Z then Ret (take (Z.to_nat i) l) else Panic.

(** [m[k]] on a Go map gives the zero value of the element type when [k] is
    absent. *)
Definition map_get {K V} `{Countable K} (zero : V) (m : gmap K V) (k : K) : V :=
  default zero (m !! k).

Lemma map_get_insert_eq {K V} `{Countable K} (z : V) (m : gmap K V) k v :
  map_get z (<[k := v]> m) k = v.
Proof. unfold map_get. by rewrite lookup_insert_eq. Qed.

Lemma map_get_insert_ne {K V} `{Countable K} (z : V) (m : gmap K V) k k' v : k ≠ k' →
  map_get z (<[k := v]> m) k' = map_get z m k'.
Proof. intros ?. unfold map_get. by rewrite lookup_insert_ne. Qed.

Section slices.
Context {A : Type}.
Implicit Types (l : list A) (i : Z).

Lemma len_nonneg l : (0 ≤ len l)%Z.
Proof. unfold len; lia. Qed.

Lemma len_nil : len (@nil A) = 0%Z.
Proof. done. Qed.

Lemma len_cons x l : len (x :: l) = (len l + 1)%Z.
Proof. unfold len; simpl; lia. Qed.

Lemma len_app l1 l2 : len (l1 ++ l2) = (len l1 + len l2)%Z.
Proof. unfold len; rewrite length_app; lia. Qed.

Lemma len_drop l n : len (drop n l) = Z.max 0 (len l - Z.of_nat n).
Proof. unfold len; rewrite length_drop; lia. Qed.

Lemma len_take l n : len (take n l) = Z.min (Z.of_nat n) (len l).
Proof. unfold len; rewrite length_take; lia. Qed.

Lemma len_insert l n x : len (<[n := x]> l) = len l.
Proof. unfold len; by rewrite length_insert. Qed.

Lemma slice_get_Ret l i x :
  slice_get l i = Ret x ↔ (0 ≤ i)%Z ∧ l !! Z.to_nat i = Some x.
Proof. unfold slice_get. case_decide; [|destruct (l !! _) eqn:?]; naive_solver lia. Qed.

Lemma slice_get_returns l i : returns (slice_get l i) ↔ (0 ≤ i < len l)%Z.
Proof.
  unfold returns, len. setoid_rewrite slice_get_Ret. split.
  - intros (x & ? & ?%lookup_lt_Some). lia.
  - intros ?. destruct (lookup_lt_is_Some_2 l (Z.to_nat i)) as [x ?]; [lia|].
    exists x; split; [lia|done].
Qed.

Lemma slice_get_in l i : (0 ≤ i < len l)%Z → ∃ e, slice_get l i = Ret e ∧ l !! Z.to_nat i = Some e.
Proof.
  intros (e & He)%slice_get_returns. exists e. split; [done|].
  by apply slice_get_Ret in He as [_ ?].
Qed.

Lemma slice_get_nat l (n : nat) x : l !! n = Some x → slice_get l (Z.of_nat n) = Ret x.
Proof. intros. apply slice_get_Ret. rewrite Nat2Z.id. split; [lia|done]. Qed.

Lemma slice_set_Ret l i x l' :
  slice_set l i x = Ret l' ↔ (0 ≤ i < len l)%Z ∧ l' = <[Z.to_nat i := x]> l.
Proof. unfold slice_set. case_decide; naive_solver. Qed.

Lemma slice_set_in l i x : (0 ≤ i < len l)%Z → slice_set l i x = Ret (<[Z.to_nat i := x]> l).
Proof. intros ?. unfold slice_set. by rewrite decide_True. Qed.

Lemma slice_from_Ret l i l' :
  slice_from l i = Ret l' ↔ (0 ≤ i ≤ len l)%Z ∧ l' = drop (Z.to_nat i) l.
Proof. unfold slice_from. case_decide; naive_solver. Qed.

Lemma slice_upto_Ret l i l' :
  slice_upto l i = Ret l' ↔ (0 ≤ i ≤ len l)%Z ∧ l' = take (Z.to_nat i) l.
Proof. unfold slice_upto. case_decide; naive_solver. Qed.

End slices.

(** ** Automation

    [gol] holds the side conditions of slice accesses and [gol_len] the
    rewriting rules for lengths; [inv_ret] opens the
    sequential composition of a returned computation; [case_bool] splits on
    the tests of the code. *)

Create HintDb gol discriminated.
Create Rewrite HintDb gol_len.
#[export] Hint Rewrite @len_nil @len_cons @len_app @len_drop @len_take @len_insert : gol_len.
#[export] Hint Resolve len_nonneg returns_Ret : gol.

Ltac inv_ret_step :=
  match goal with
  | H : Ret _ = Ret _ |- _ => injection H; clear H; intros; subst
  | H : Panic = Ret _ |- _ => discriminate H
  | H : Fatal = Ret _ |- _ => discriminate H
  | H : OutOfFuel = Ret _ |- _ => discriminate H
  | H : _ ≫= _ = Ret _ |- _ => apply bind_Ret_inv in H as (? & ? & H)
  | H : mret _ = Ret _ |- _ => unfold mret, outcome_mret in H
  | H : (_, _) = (_, _) |- _ => injection H; clear H; intros; subst
  end.
Ltac inv_ret := cbv beta zeta in *; repeat (inv_ret_step; cbv beta zeta in *).

Ltac case_bool :=
  match goal with
  | |- context [if decide ?P then _ else _] => destruct (decide P)
  | |- context [if bool_decide ?P then _ else _] => case_bool_decide
  | H : context [if decide ?P then _ else _] |- _ => destruct (decide P)
  | H : context [if bool_decide ?P then _ else _] |- _ => destruct (bool_decide_reflect P)
  end.

(** ** Record update

    [r <| f := v |>] is the record [r] with field [f] replaced; the instances
    of [Setter] for a record are declared beside it. *)

Class Setter {R E : Type} (getter : R → E) := set : (E → E) → R → R.
Arguments set {R E} getter {_} f r : simpl never.

Declare Scope record_scope.
Delimit Scope record_scope with rec.
Notation "r <| proj := v |>" := (set proj (λ _, v) r)
  (at level 1, proj at level 200,
   format "r  <|  proj  :=  v  |>") : record_scope.
Open Scope record_scope.

(** ** Serialisation

    [labgob] wraps [encoding/gob].  A codec for a type of values is an encoder
    to bytes and a partial decoder; the documented behaviour of gob that the
    programs rely on is that decoding an encoded value gives it back, and that
    an encoding is never empty. *)

Abbreviation bytes := (list Byte.byte).

Class Codec (A : Type) := {
  enc : A → bytes;
  dec : bytes → option A;
}.

Class CodecLaws (A : Type) `{Codec A} : Prop := {
  dec_enc : ∀ x : A, dec (enc x) = Some x;
  enc_nonempty : ∀ x : A, enc x ≠ [];
}.

(** ** Parts of a list *)

Lemma concat_map_perm {A B} (f g : A → list B) l :
  (∀ x, x ∈ l → f x ≡ₚ g x) → concat (map f l) ≡ₚ concat (map g l).
Proof.
  induction l as [|x l IH]; intros Hl; [done|]. simpl. rewrite (Hl x) by set_solver.
  f_equiv. apply IH. set_solver.
Qed.

(** Splitting a list by the value of [h] loses nothing. *)
Lemma partition_perm {A B} `{EqDecision B} (h : A → B) (rs : list B) (l : list A) : NoDup rs →
  (∀ x, x ∈ l → h x ∈ rs) → concat (map (λ r, filter (λ x, h x = r) l) rs) ≡ₚ l.
Proof.
  intros Hnd. revert l. induction Hnd as [|r rs Hr _ IH]; intros l Hl; simpl.
  { destruct l as [|x l]; [done|]. specialize (Hl x). set_solver. }
  etransitivity; [|apply (filter_app_complement (λ x, h x = r) l)]. f_equiv.
  rewrite <- (IH (filter (λ x, ¬ h x = r) l)).
  - apply concat_map_perm. intros r' Hr'. rewrite list_filter_filter. apply reflexive_eq.
    apply list_filter_iff. intros x. split; [|tauto]. intros Hx. split; [done|]. intros Hx'. congruence.
  - intros x [Hx Hin]%list_elem_of_filter. specialize (Hl x Hin). set_solver.
Qed.

(** Parts of a list, in order. *)
Lemma sublist_fmap_inv {A B} (f : A → B) (l : list B) (k : list A) : l `sublist_of` f <$> k →
  ∃ l', l = f <$> l' ∧ l' `sublist_of` k.
Proof.
  revert l. induction k as [|x k IH]; intros l; simpl.
  - intros ->%sublist_nil_r. by exists [].
  - intros [Hl|(l2 & -> & Hl)]%sublist_cons_r; destruct (IH _ Hl) as (l' & -> & ?).
    + exists l'. split; [done|by constructor].
    + exists (x :: l'). split; [done|by constructor].
Qed.

(** [sort.Strings] *)
Definition sortStrings (l : list string) : list string := merge_sort String.le l.

Lemma sortStrings_perm l l' : l ≡ₚ l' → sortStrings l = sortStrings l'.
Proof.
  intros Hl. unfold sortStrings. apply (StronglySorted_unique String.le).
  - apply (StronglySorted_merge_sort String.le).
  - apply (StronglySorted_merge_sort String.le).
  - by rewrite !merge_sort_Permutation.
Qed.

(** ** Quorums *)

Local Open Scope Z_scope.

(** Two majorities of [n] peers share a peer. *)
Lemma quorums_meet (n : nat) (V W : list nat) : NoDup V → NoDup W →
  (∀ v, v ∈ V → (v < n)%nat) → (∀ v, v ∈ W → (v < n)%nat) →
  Z.of_nat n / 2 + 1 ≤ len V → Z.of_nat n / 2 + 1 ≤ len W → ∃ v, v ∈ V ∧ v ∈ W.
Proof.
  intros HV HW Hv Hw Hlv Hlw.
  destruct (decide (Exists (λ v, v ∈ W) V)) as [He|Hne].
  { by apply Exists_exists in He. }
  exfalso. assert (length (V ++ W) ≤ length (seq 0 n))%nat as Hle.
  { apply submseteq_length, NoDup_submseteq.
    - apply NoDup_app. split; [done|]. split; [|done]. intros x Hx Hxw. apply Hne, Exists_exists. eauto.
    - intros x [?|?]%elem_of_app; apply elem_of_seq; [pose proof (Hv x)|pose proof (Hw x)];
        naive_solver lia. }
  rewrite length_app, length_seq in Hle. unfold len in *.
  pose proof (Z.div_mod (Z.of_nat n) 2). pose proof (Z.mod_pos_bound (Z.of_nat n) 2). lia.
Qed.
