(* ===== verification/Serial.v ===== *)
(** * A concrete serialisation

    [labgob] is outside the repository's own code: the development uses it
    through [Codec] and [CodecLaws].  This file builds codecs that satisfy the
    laws for all the types that the programs persist or send, so that the
    theorems that assume the laws can be applied to concrete states.

    A [Serial] type has a printer to bytes and a parser that returns the rest of
    the input; sizes are linear in the value. *)

From S2P Require Import Prelude.

Class Serial (A : Type) := {
  ser : A → bytes;
  des : bytes → option (A * bytes);
}.

Class SerialLaws (A : Type) `{Serial A} : Prop :=
  des_ser : ∀ (x : A) (r : bytes), des (ser x ++ r) = Some (x, r).

Definition serial_codec (A : Type) `{Serial A} : Codec A := {|
  enc x := ser x ++ [Byte.x03];
  dec b := fst <$> des b;
|}.

Lemma serial_codec_laws (A : Type) `{SerialLaws A} : @CodecLaws A (serial_codec A).
Proof.
  split; simpl.
  - intros x. by rewrite des_ser.
  - intros x Hx. apply (f_equal length) in Hx. rewrite length_app in Hx. simpl in Hx. lia.
Qed.

(** ** Positive numbers, and through them all small data *)

Fixpoint ser_pos (p : positive) : bytes :=
  match p with
  | xH => [Byte.x02]
  | xO p => Byte.x00 :: ser_pos p
  | xI p => Byte.x01 :: ser_pos p
  end.

Fixpoint des_pos (b : bytes) : option (positive * bytes) :=
  match b with
  | Byte.x02 :: b => Some (xH, b)
  | Byte.x00 :: b => '(p, r) ← des_pos b; Some (xO p, r)
  | Byte.x01 :: b => '(p, r) ← des_pos b; Some (xI p, r)
  | _ => None
  end.

Lemma des_ser_pos p r : des_pos (ser_pos p ++ r) = Some (p, r).
Proof. induction p as [p IH|p IH|]; simpl; by rewrite ?IH. Qed.

(** For types with few values or short codes. *)
Definition serial_countable (A : Type) `{Countable A} : Serial A := {|
  ser x := ser_pos (encode x);
  des b := '(p, r) ← des_pos b; x ← decode p; Some (x, r);
|}.

Lemma serial_countable_laws (A : Type) `{Countable A} : @SerialLaws A (serial_countable A).
Proof. intros x r. simpl. rewrite des_ser_pos. simpl. by rewrite decode_encode. Qed.

#[export] Instance serial_Z : Serial Z := serial_countable Z.
#[export] Instance serial_Z_laws : SerialLaws Z := serial_countable_laws Z.
#[export] Instance serial_bool : Serial bool := serial_countable bool.
#[export] Instance serial_bool_laws : SerialLaws bool := serial_countable_laws bool.
#[export] Instance serial_ascii : Serial Ascii.ascii := serial_countable Ascii.ascii.
#[export] Instance serial_ascii_laws : SerialLaws Ascii.ascii := serial_countable_laws Ascii.ascii.

(** ** Structures *)

Section structures.
Context {A B : Type} `{SA : Serial A} `{SB : Serial B} `{!SerialLaws A} `{!SerialLaws B}.

#[export] Instance serial_prod : Serial (A * B) := {|
  ser x := ser x.1 ++ ser x.2;
  des b := '(x, r) ← des b; '(y, r) ← des r; Some ((x, y), r);
|}.

#[export] Instance serial_prod_laws : SerialLaws (A * B).
Proof.
  intros [x y] r. simpl. rewrite <- app_assoc, des_ser. simpl. by rewrite des_ser.
Qed.

#[export] Instance serial_option : Serial (option A) := {|
  ser x := match x with None => [Byte.x00] | Some x => Byte.x01 :: ser x end;
  des b := match b with
           | Byte.x00 :: r => Some (None, r)
           | Byte.x01 :: b => '(x, r) ← des b; Some (Some x, r)
           | _ => None
           end;
|}.

#[export] Instance serial_option_laws : SerialLaws (option A).
Proof. intros [x|] r; simpl; [|done]. by rewrite des_ser. Qed.

#[export] Instance serial_sum : Serial (A + B) := {|
  ser x := match x with inl x => Byte.x00 :: ser x | inr y => Byte.x01 :: ser y end;
  des b := match b with
           | Byte.x00 :: b => '(x, r) ← des b; Some (inl x, r)
           | Byte.x01 :: b => '(y, r) ← des b; Some (inr y, r)
           | _ => None
           end;
|}.

#[export] Instance serial_sum_laws : SerialLaws (A + B).
Proof. intros [x|y] r; simpl; by rewrite des_ser. Qed.

(** A list: each element after a mark, and an end mark.  The length of the input
    bounds the number of elements. *)
Fixpoint ser_list (l : list A) : bytes :=
  match l with [] => [Byte.x00] | x :: l => Byte.x01 :: ser x ++ ser_list l end.

Fixpoint des_list (fuel : nat) (b : bytes) : option (list A * bytes) :=
  match fuel, b with
  | S fuel, Byte.x01 :: b =>
      '(x, r) ← des b; '(l, r) ← des_list fuel r; Some (x :: l, r)
  | _, Byte.x00 :: r => Some ([], r)
  | _, _ => None
  end.

Lemma des_ser_list l r fuel : (length l < fuel)%nat → des_list fuel (ser_list l ++ r) = Some (l, r).
Proof.
  revert fuel. induction l as [|x l IH]; intros [|fuel] Hf; simpl in *; try lia; [done|].
  rewrite <- app_assoc, des_ser. simpl. by rewrite IH by lia.
Qed.

#[export] Instance serial_list : Serial (list A) := {|
  ser := ser_list;
  des b := des_list (length b) b;
|}.

Lemma length_ser_list l : (length l < length (ser_list l))%nat.
Proof. induction l as [|x l IH]; simpl; [lia|]. rewrite length_app. lia. Qed.

#[export] Instance serial_list_laws : SerialLaws (list A).
Proof.
  intros l r. simpl. apply des_ser_list. rewrite length_app.
  pose proof (length_ser_list l). lia.
Qed.

(** A type that is in bijection with a serialisable one. *)
Definition serial_via {C : Type} (f : C → A) (g : A → C) : Serial C := {|
  ser x := ser (f x);
  des b := '(x, r) ← des b; Some (g x, r);
|}.

Lemma serial_via_laws {C : Type} (f : C → A) (g : A → C) :
  (∀ x, g (f x) = x) → @SerialLaws C (serial_via f g).
Proof. intros Hgf x r. simpl. rewrite des_ser. simpl. by rewrite Hgf. Qed.

End structures.

#[export] Instance serial_string : Serial string :=
  serial_via String.list_ascii_of_string String.string_of_list_ascii.
#[export] Instance serial_string_laws : SerialLaws string.
Proof. apply serial_via_laws, String.string_of_list_ascii_of_string. Qed.

#[export] Instance serial_gmap {K V} `{Countable K} `{Serial K} `{Serial V} : Serial (gmap K V) :=
  serial_via (A := list (K * V)) (λ m : gmap K V, map_to_list m) (λ l, list_to_map l).
#[export] Instance serial_gmap_laws {K V} `{Countable K} `{SerialLaws K} `{SerialLaws V} :
  SerialLaws (gmap K V).
Proof. apply serial_via_laws. intros m. apply list_to_map_to_list. Qed.
