(* ===== verification/LabGob.v ===== *)
(** * The checks of the encoder wrapper ([src/labgob/labgob.go])

    [labgob] wraps [encoding/gob] and warns about two mistakes: a field whose name
    is not capitalized, which gob does not encode, and a variable that already has
    a value, which gob does not reset.  Types may refer to themselves: a type is a
    number, and a table says what it is. *)

From S2P Require Import Prelude.
Local Open Scope Z_scope.

(** ** Types and values, as far as reflection looks at them *)

Inductive rkind :=
| KStruct (fields : list (string * nat))   (* names and types *)
| KElem (elem : nat)                       (* slice, array, pointer *)
| KMap (elem key : nat)
| KBasic.

Record checkState := mkCheckState { checked : gset nat; errorCount : Z }.

Definition set_checked (st : checkState) (x : gset nat) : checkState := mkCheckState x (errorCount st).
Definition add_error (st : checkState) : checkState := mkCheckState (checked st) (errorCount st + 1).

(** [unicode.IsUpper] of the first rune, for names in ASCII. *)
Definition upper (name : string) : bool :=
  match name with
  | EmptyString => false
  | String c _ => let n := Z.of_N (Ascii.N_of_ascii c) in bool_decide (65 ≤ n ≤ 90)
  end.

Section types.
  Context (types : gmap nat rkind).

(** [checkType]; a type is looked at only once. *)
Fixpoint checkType (fuel : nat) (t : nat) (st : checkState) : outcome checkState :=
  match fuel with
  | O => OutOfFuel
  | S fuel =>
      if decide (t ∈ checked st) then mret st
      else
        let st := set_checked st ({[t]} ∪ checked st) in
        match types !! t with
        | Some (KStruct fields) =>
            for_range (λ st '(name, ft), checkType fuel ft (if upper name then st else add_error st)) st fields
        | Some (KElem e) => checkType fuel e st
        | Some (KMap e k) => st ← checkType fuel e st; checkType fuel k st
        | Some KBasic => mret st
        | None => Panic
        end
  end.

(** The types that a type refers to, in the order in which they are visited. *)
Definition refs (k : rkind) : list nat :=
  match k with
  | KStruct fields => snd <$> fields
  | KElem e => [e]
  | KMap e k => [e; k]
  | KBasic => []
  end.

(** The fields of a type that gob does not encode. *)
Definition lowerFields (t : nat) : Z :=
  match types !! t with
  | Some (KStruct fields) => len (filter (λ f, upper f.1 = false) fields)
  | _ => 0
  end.

(** ** Every type is visited once *)

(** Every type that is referred to is in the table. *)
Definition closedTypes : Prop := ∀ t k u, types !! t = Some k → u ∈ refs k → is_Some (types !! u).

Definition sumOf (l : list nat) : Z := foldr (λ t n, lowerFields t + n) 0 l.

Lemma sumOf_app l l' : sumOf (l ++ l') = sumOf l + sumOf l'.
Proof. induction l as [|t l IH]; [done|]. simpl. unfold sumOf in *. simpl. lia. Qed.

#[local] Instance sumOf_proper : Proper ((≡ₚ) ==> (=)) sumOf.
Proof. induction 1; unfold sumOf in *; simpl in *; lia. Qed.

(** The lower-case fields of a set of types. *)
Definition total (X : gset nat) : Z := sumOf (elements X).

Lemma total_union X Y : X ## Y → total (X ∪ Y) = total X + total Y.
Proof. intros Hd. unfold total. by rewrite elements_disj_union, sumOf_app. Qed.

Lemma total_empty : total ∅ = 0.
Proof. unfold total. by rewrite elements_empty. Qed.

Lemma total_singleton t : total {[t]} = lowerFields t.
Proof. unfold total. rewrite elements_singleton. unfold sumOf. simpl. lia. Qed.

(** What visiting some types does: [e] errors are counted beside those of the
    types that are new, and everything these refer to has been visited. *)
Record visits (e : Z) (st st' : checkState) : Prop := {
  vi_sub : checked st ⊆ checked st';
  vi_dom : checked st' ⊆ dom types;
  vi_refs t k u : t ∈ checked st' → t ∉ checked st → types !! t = Some k → u ∈ refs k → u ∈ checked st';
  vi_errors : errorCount st' = errorCount st + e + total (checked st' ∖ checked st);
}.

Lemma visits_refl st : checked st ⊆ dom types → visits 0 st st.
Proof. intros Hd. split; [done|done|set_solver|]. rewrite difference_diag_L, total_empty. lia. Qed.

Lemma visits_trans e1 e2 st1 st2 st3 : visits e1 st1 st2 → visits e2 st2 st3 → visits (e1 + e2) st1 st3.
Proof.
  intros H1 H2. pose proof (vi_sub _ _ _ H1) as S1. pose proof (vi_sub _ _ _ H2) as S2. split.
  - set_solver.
  - apply (vi_dom _ _ _ H2).
  - intros t k u Ht Hn Hk Hu. destruct (decide (t ∈ checked st2)) as [Ht2|Ht2].
    + apply S2. by eapply (vi_refs _ _ _ H1).
    + by eapply (vi_refs _ _ _ H2).
  - rewrite (vi_errors _ _ _ H2), (vi_errors _ _ _ H1).
    assert (checked st3 ∖ checked st1 = (checked st2 ∖ checked st1) ∪ (checked st3 ∖ checked st2)) as ->.
    { apply set_eq. intros x. destruct (decide (x ∈ checked st2)); set_solver. }
    rewrite total_union by set_solver. lia.
Qed.

Lemma visits_add_error e st st' : visits e (add_error st) st' → visits (1 + e) st st'.
Proof. intros []. split; try done. simpl in *. lia. Qed.

(** How many types are still to be visited. *)
Definition remaining (st : checkState) : nat := size (dom types ∖ checked st).

Lemma remaining_visits e st st' : visits e st st' → (remaining st' ≤ remaining st)%nat.
Proof.
  intros Hv. pose proof (vi_sub _ _ _ Hv). unfold remaining.
  apply (subseteq_size (C := gset nat)). set_solver.
Qed.

Section loop.
  Context (Hclosed : closedTypes) (fuel : nat).
  Context (IH : ∀ t st, (remaining st < fuel)%nat → t ∈ dom types → checked st ⊆ dom types →
    ∃ st', checkType fuel t st = Ret st' ∧ visits 0 st st' ∧ t ∈ checked st').

(** The fields of a struct. *)
Lemma checkFields fields st : (remaining st < fuel)%nat → checked st ⊆ dom types →
  Forall (λ f, f.2 ∈ dom types) fields →
  ∃ st', for_range (λ st '(name, ft), checkType fuel ft (if upper name then st else add_error st)) st fields = Ret st' ∧
    visits (len (filter (λ f, upper f.1 = false) fields)) st st' ∧ ∀ f, f ∈ fields → f.2 ∈ checked st'.
Proof using IH.
  revert st. induction fields as [|[name ft] fields IHf]; intros st Hr Hc Hd; cbn [for_range].
  { exists st. split; [done|]. split; [by apply visits_refl|]. by intros f ?%elem_of_nil. }
  apply Forall_cons in Hd as [Hft Hd]. simpl in Hft.
  destruct (IH ft (if upper name then st else add_error st)) as (st1 & H1 & Hv1 & Hin1); [by destruct (upper name)|done|by destruct (upper name)|].
  rewrite H1, bind_Ret.
  assert (visits (if upper name then 0 else 1) st st1) as Hv1'.
  { destruct (upper name); [done|]. by apply (visits_add_error 0). }
  destruct (IHf st1) as (st2 & H2 & Hv2 & Hin2); [pose proof (remaining_visits _ _ _ Hv1'); lia|apply (vi_dom _ _ _ Hv1)|done|].
  exists st2. split; [done|]. split.
  - pose proof (visits_trans _ _ _ _ _ Hv1' Hv2) as Hv. rewrite filter_cons. simpl.
    destruct (upper name); [done|]. simpl. unfold len in *. simpl.
    replace (Z.of_nat (S (length (filter (λ f, upper f.1 = false) fields))))
      with (1 + Z.of_nat (length (filter (λ f, upper f.1 = false) fields))) by lia. done.
  - intros f [->|Hf]%elem_of_cons; [|by apply Hin2]. apply (vi_sub _ _ _ Hv2). done.
Qed.
End loop.

(** Marking a type as checked. *)
Lemma remaining_mark t st : t ∈ dom types → t ∉ checked st →
  (remaining (set_checked st ({[t]} ∪ checked st)) < remaining st)%nat.
Proof.
  intros Hd Hn. unfold remaining. simpl. apply (subset_size (C := gset nat)). set_solver.
Qed.

(** A new type [t] is marked, and then what it refers to is visited. *)
Lemma visits_mark t k st st' : types !! t = Some k → t ∉ checked st →
  visits (lowerFields t) (set_checked st ({[t]} ∪ checked st)) st' → (∀ u, u ∈ refs k → u ∈ checked st') →
  visits 0 st st' ∧ t ∈ checked st'.
Proof.
  intros Hk Hn Hv Hu. pose proof (vi_sub _ _ _ Hv) as Hs. simpl in Hs.
  split; [split|set_solver].
  - set_solver.
  - apply (vi_dom _ _ _ Hv).
  - intros x kx u Hx Hnx Hkx Hux. destruct (decide (x = t)) as [->|Hne]; [simplify_eq; by apply Hu|].
    eapply (vi_refs _ _ _ Hv); [done| |done|done]. simpl. set_solver.
  - rewrite (vi_errors _ _ _ Hv). simpl.
    assert (checked st' ∖ checked st = {[t]} ∪ checked st' ∖ ({[t]} ∪ checked st)) as ->.
    { apply set_eq. intros x. destruct (decide (x = t)); set_solver. }
    rewrite total_union, total_singleton by set_solver. lia.
Qed.

(** [checkType] returns when the fuel exceeds the number of types not seen yet. *)
Lemma checkType_visits (Hclosed : closedTypes) fuel t st :
  (remaining st < fuel)%nat → t ∈ dom types → checked st ⊆ dom types →
  ∃ st', checkType fuel t st = Ret st' ∧ visits 0 st st' ∧ t ∈ checked st'.
Proof.
  revert t st. induction fuel as [|fuel IH]; intros t st Hr Ht Hc; [lia|]. cbn [checkType].
  destruct (decide _) as [Hin|Hn]; [exists st; eauto using visits_refl|].
  pose proof (remaining_mark t st Ht Hn) as Hlt.
  set (st0 := set_checked st _) in *.
  assert (checked st0 ⊆ dom types) as Hc0 by (simpl; set_solver).
  assert (∀ u k, types !! t = Some k → u ∈ refs k → u ∈ dom types) as Hd.
  { intros u k Hk Hu. apply elem_of_dom. eauto. }
  destruct (types !! t) as [k|] eqn:Hk; [|by apply elem_of_dom in Ht as [? ?]; simplify_eq].
  pose proof (visits_mark t k st) as Hmark. fold st0 in Hmark.
  assert (lowerFields t = match k with KStruct f => len (filter (λ f, upper f.1 = false) f) | _ => 0 end) as Hl
    by (unfold lowerFields; by rewrite Hk).
  rewrite Hl in Hmark. assert (∀ u, u ∈ refs k → u ∈ dom types) as Hd' by (intros u; by apply Hd). clear Hd Hl.
  destruct k as [fields|e|e k|].
  - destruct (checkFields fuel IH fields st0) as (st' & H1 & Hv & Hin); [lia|done| |].
    { apply Forall_forall. intros f Hf. apply Hd'. simpl. apply list_elem_of_fmap. eauto. }
    exists st'. split; [done|]. apply Hmark; [done|done|done|].
    intros u (f & -> & Hf)%list_elem_of_fmap. by apply Hin.
  - destruct (IH e st0) as (st' & H1 & Hv & Hin); [lia|apply Hd'; simpl; set_solver|done|].
    exists st'. split; [done|]. apply Hmark; [done|done|done|]. simpl. set_solver.
  - destruct (IH e st0) as (st1 & H1 & Hv1 & Hin1); [lia|apply Hd'; simpl; set_solver|done|].
    destruct (IH k st1) as (st' & H2 & Hv2 & Hin2);
      [pose proof (remaining_visits _ _ _ Hv1); lia|apply Hd'; simpl; set_solver|apply (vi_dom _ _ _ Hv1)|].
    exists st'. rewrite H1, bind_Ret. split; [done|]. pose proof (vi_sub _ _ _ Hv2).
    apply Hmark; [done|done|by apply (visits_trans 0 0 _ st1)|]. simpl. set_solver.
  - exists st0. split; [done|]. apply Hmark; [done|done|by apply visits_refl|]. simpl. set_solver.
Qed.

(** The types that [t] refers to, directly or not, and [t] itself. *)
Inductive reach (t : nat) : nat → Prop :=
| reach_refl : reach t t
| reach_step u k v : reach t u → types !! u = Some k → v ∈ refs k → reach t v.

Lemma reach_ref t k u v : types !! t = Some k → u ∈ refs k → reach u v → reach t v.
Proof. intros Hk Hu. induction 1; eauto using reach. Qed.

(** Only types that are reachable are looked at. *)
Lemma checkType_reach fuel t st st' u :
  checkType fuel t st = Ret st' → u ∈ checked st' → u ∈ checked st ∨ reach t u.
Proof.
  revert t st st'. induction fuel as [|fuel IH]; intros t st st'; [done|]. cbn [checkType].
  destruct (decide _) as [Hin|Hn]; [by intros [= <-]; left|].
  set (st0 := set_checked st _). set (P a := u ∈ checked a → u ∈ checked st ∨ reach t u).
  assert (P st0) as H0.
  { intros [->%elem_of_singleton|?]%elem_of_union; [right; constructor|by left]. }
  assert (∀ k e a b, types !! t = Some k → e ∈ refs k → checkType fuel e a = Ret b → P a → P b) as Hrec.
  { intros k e a b Hk He Hb Ha Hub. destruct (IH _ _ _ Hb Hub) as [?|?]; [auto|right; by eapply reach_ref]. }
  intros H. change (P st'). revert H.
  destruct (types !! t) as [[fields|e|e k|]|] eqn:Hk; intros H; [| | |by injection H as <-|done].
  - eapply for_range_post; [exact H| |done]. intros a b [name ft] Hf Hb Ha.
    eapply Hrec; [done| |exact Hb|destruct (upper name); exact Ha].
    change ft with (name, ft).2. by apply list_elem_of_fmap_2.
  - eapply Hrec; [done| |done..]. simpl. set_solver.
  - apply bind_Ret_inv in H as (a & Ha & Hb).
    eapply Hrec; [done| |exact Hb|eapply Hrec; [done| |done..]]; simpl; set_solver.
Qed.

(** What has been looked at is closed under what it refers to. *)
Record checkInv (st : checkState) : Prop := {
  ci_dom : checked st ⊆ dom types;
  ci_refs t k u : t ∈ checked st → types !! t = Some k → u ∈ refs k → u ∈ checked st;
}.

(** [checkType] returns on every type, however types refer to each other: it adds
    exactly the types that are reachable, and counts the lower-case fields of
    those that are new, each once. *)
Theorem checkType_correct fuel t st : closedTypes → checkInv st → t ∈ dom types →
  (size (dom types) < fuel)%nat →
  ∃ st', checkType fuel t st = Ret st' ∧ checkInv st' ∧
    (∀ u, u ∈ checked st' ↔ u ∈ checked st ∨ reach t u) ∧
    errorCount st' = errorCount st + total (checked st' ∖ checked st).
Proof.
  intros Hcl [Hd Hr] Ht Hf. destruct (checkType_visits Hcl fuel t st) as (st' & H & Hv & Hin); [|done|done|].
  { assert (remaining st ≤ size (dom types))%nat; [|lia]. unfold remaining. apply (subseteq_size (C := gset nat)). set_solver. }
  pose proof (vi_sub _ _ _ Hv) as Hs.
  assert (∀ x k u, x ∈ checked st' → types !! x = Some k → u ∈ refs k → u ∈ checked st') as Hr'.
  { intros x k u Hx Hk Hu. destruct (decide (x ∈ checked st)) as [Hx'|Hx'].
    - apply Hs. by eapply Hr.
    - by eapply (vi_refs _ _ _ Hv). }
  exists st'. split; [done|]. split; [split; [apply (vi_dom _ _ _ Hv)|done]|]. split.
  - intros u. split; [by eapply checkType_reach|]. intros [Hu|Hu]; [by apply Hs|].
    induction Hu; [done|by eapply Hr'].
  - rewrite (vi_errors _ _ _ Hv). lia.
Qed.
End types.

(** ** Variables that already have a value *)

(** The kinds whose value is compared with the zero value.  Of a float the model
    keeps whether it equals zero. *)
Inductive basic :=
| BBool (b : bool)
| BInt (n : Z)
| BFloat (zero : bool)
| BString (s : string).

Definition isZero (v : basic) : bool :=
  match v with
  | BBool b => negb b
  | BInt n => bool_decide (n = 0)
  | BFloat z => z
  | BString s => bool_decide (s = EmptyString)
  end.

Inductive rvalue :=
| VStruct (fields : list (string * rvalue))
| VPtr (elem : option rvalue)
| VBasic (tname : string) (v : basic)
| VOther.                              (* slice, map, interface, ... *)

(** [errorCount] and what is printed: the names in the warnings. *)
Record defState := mkDefState { defErrors : Z; printed : list string }.

Definition fieldName (name field : string) : string :=
  if bool_decide (name = EmptyString) then field else (name +:+ "." +:+ field)%string.

(** [checkDefault1] *)
Fixpoint checkDefault1 (value : rvalue) (depth : Z) (name : string) (st : defState) : defState :=
  if bool_decide (depth > 3) then st
  else
    match value with
    | VStruct fields => foldl (λ st '(f, vv), checkDefault1 vv (depth + 1) (fieldName name f) st) st fields
    | VPtr None => st
    | VPtr (Some v) => checkDefault1 v (depth + 1) name st
    | VBasic tname v =>
        if isZero v then st
        else
          let what := if bool_decide (name = EmptyString) then tname else name in
          mkDefState (defErrors st + 1)
            (if bool_decide (defErrors st < 1) then printed st ++ [what] else printed st)
    | VOther => st
    end.

(** [checkDefault]; [None] is the nil interface. *)
Definition checkDefault (value : option rvalue) (st : defState) : defState :=
  match value with None => st | Some v => checkDefault1 v 1 EmptyString st end.

(** The variables and fields down to depth 3 that have a value, by name. *)
Fixpoint nonDefault (value : rvalue) (depth : Z) (name : string) : list string :=
  if bool_decide (depth > 3) then []
  else
    match value with
    | VStruct fields => concat (map (λ '(f, vv), nonDefault vv (depth + 1) (fieldName name f)) fields)
    | VPtr None => []
    | VPtr (Some v) => nonDefault v (depth + 1) name
    | VBasic tname v =>
        if isZero v then [] else [if bool_decide (name = EmptyString) then tname else name]
    | VOther => []
    end.

(** A checked variable adds its name to the warnings only if there was no error before. *)
Definition warned (st : defState) (names : list string) : defState :=
  mkDefState (defErrors st + len names)
    (printed st ++ if bool_decide (defErrors st < 1) then take 1 names else []).

Lemma warned_nil st : warned st [] = st.
Proof. destruct st. unfold warned. simpl. rewrite len_nil, Z.add_0_r. by case_bool_decide; rewrite app_nil_r. Qed.

Lemma warned_app st l l' : 0 ≤ defErrors st → warned (warned st l) l' = warned st (l ++ l').
Proof.
  intros H. destruct l as [|x l]; [by rewrite warned_nil|]. unfold warned. simpl. f_equal.
  - unfold len. simpl. rewrite length_app. lia.
  - rewrite <- app_assoc. f_equal. rewrite (bool_decide_eq_false_2 (defErrors st + _ < 1)) by (unfold len; simpl; lia).
    by rewrite app_nil_r.
Qed.

(** [checkDefault1] counts every non-default variable down to depth 3, and prints
    a warning for the first of them when nothing was counted before. *)
Theorem checkDefault1_correct value depth name st : 0 ≤ defErrors st →
  checkDefault1 value depth name st = warned st (nonDefault value depth name).
Proof.
  revert value depth name st. fix IH 1. intros value depth name st Hst.
  destruct value as [fields|[v|]|tname v|]; simpl; case_bool_decide as Hd; try by rewrite warned_nil.
  - revert st Hst. induction fields as [|[f vv] fields IHf]; intros st Hst; simpl; [by rewrite warned_nil|].
    rewrite IH by done. rewrite IHf, warned_app by (simpl; try unfold len; lia). done.
  - by apply IH.
  - destruct (isZero v); [by rewrite warned_nil|]. unfold warned, len. simpl.
    f_equal. case_bool_decide; [done|by rewrite app_nil_r].
Qed.

(** ** The wrapped calls

    [gob] itself is not modelled here: an interface value is its type, in the
    table of types, and what reflection sees of it; the two counters of the
    functions above are the same variable [errorCount]. *)
Section wrapped.
  Context (types : gmap nat rkind) (fuel : nat).

Definition interface : Type := option (nat * rvalue).

(** [checkValue]; the type of a nil interface has no kind. *)
Definition checkValue (e : interface) (st : checkState) : outcome checkState :=
  match e with None => Panic | Some (t, _) => checkType types fuel t st end.

(** [Encode] and [Register] before they call [gob] *)
Definition Encode (e : interface) (st : checkState) : outcome checkState := checkValue e st.

(** [Decode] before it calls [gob]: the state and the warnings *)
Definition Decode (e : interface) (st : checkState) : outcome (checkState * list string) :=
  st ← checkValue e st;
  let ds := checkDefault (snd <$> e) (mkDefState (errorCount st) []) in
  mret (mkCheckState (checked st) (defErrors ds), printed ds).

(** The second check of a type finds nothing. *)
Theorem checked_once t v st st' : closedTypes types → checkInv types st → t ∈ dom types →
  (size (dom types) < fuel)%nat →
  checkValue (Some (t, v)) st = Ret st' → Encode (Some (t, v)) st' = Ret st'.
Proof.
  intros Hcl Hi Ht Hf H. destruct (checkType_correct types fuel t st) as (st1 & H1 & _ & Hu & _); [done..|].
  simpl in H. rewrite H1 in H. injection H as <-. unfold Encode. simpl. destruct fuel as [|n]; [lia|].
  simpl. rewrite decide_True; [done|]. apply Hu. right. constructor.
Qed.

(** Decoding into a fresh variable of a type without lower-case fields warns
    about nothing. *)
Theorem Decode_silent t v st : closedTypes types → checkInv types st → t ∈ dom types →
  (size (dom types) < fuel)%nat → 0 ≤ errorCount st →
  nonDefault v 1 EmptyString = [] → (∀ u, reach types t u → lowerFields types u = 0) →
  ∃ st', Decode (Some (t, v)) st = Ret (st', []) ∧ errorCount st' = errorCount st.
Proof.
  intros Hcl Hi Ht Hf H0 Hv Hl.
  destruct (checkType_correct types fuel t st) as (st1 & H1 & _ & Hu & He); [done..|].
  assert (total types (checked st1 ∖ checked st) = 0) as Hz.
  { unfold total. assert (∀ u, u ∈ elements (checked st1 ∖ checked st) → lowerFields types u = 0) as Hall.
    { intros u Hin. apply elem_of_elements in Hin. apply Hl. set_solver. }
    induction (elements _) as [|u l IH]; [done|]. unfold sumOf in *. simpl. rewrite Hall, IH by set_solver. done. }
  unfold Decode, checkDefault. simpl. rewrite H1, bind_Ret, checkDefault1_correct by (simpl; lia).
  rewrite Hv, warned_nil. eexists. split; [done|]. simpl. lia.
Qed.
End wrapped.

(** A list node, [struct { Next *node; val int }], and its pointer type. *)
Definition nodeTypes : gmap nat rkind :=
  {[ 0%nat := KElem 1%nat; 1%nat := KStruct [("Next"%string, 0%nat); ("val"%string, 2%nat)]; 2%nat := KBasic ]}.

Example node_checked :
  checkType nodeTypes 4 0 (mkCheckState ∅ 0) = Ret (mkCheckState {[0%nat; 1%nat; 2%nat]} 1).
Proof. by vm_compute. Qed.

Example node_warned :
  Decode nodeTypes 4 (Some (0%nat, VPtr (Some (VStruct [("Next"%string, VPtr None); ("val"%string, VBasic "int"%string (BInt 7))]))))
    (mkCheckState {[0%nat; 1%nat; 2%nat]} 0) = Ret (mkCheckState {[0%nat; 1%nat; 2%nat]} 1, ["val"%string]).
Proof. by vm_compute. Qed.
