(* ===== verification/LabRPC.v ===== *)
(** * The network between clients and servers ([src/labrpc/labrpc.go])

    Client ends, servers with their services, and the network that carries the
    calls: it may drop a request or a reply, delay a reply, and it gives up on a
    server that has been deleted.  A call is a small state machine
    ([processReq]); the goroutine that runs the handler is a part of its own,
    since it goes on when [processReq] has given up.  The arguments and results
    go through [labgob], an abstract codec.  The theorems are what the services
    above rely on. *)

From S2P Require Import Prelude Serial.
Local Open Scope Z_scope.

(** ** Names of methods *)

Definition dot : Ascii.ascii := Ascii.ascii_of_nat 46.

(** [strings.LastIndex(s, ".")] and the two slices around it; [None] when there
    is no dot. *)
Fixpoint splitLastDot (s : string) : option (string * string) :=
  match s with
  | EmptyString => None
  | String c s' =>
      match splitLastDot s' with
      | Some (svc, meth) => Some (String c svc, meth)
      | None => if decide (c = dot) then Some ("", s') else None
      end
  end.

Fixpoint noDot (s : string) : bool :=
  match s with EmptyString => true | String c s => bool_decide (c ≠ dot) && noDot s end.

Section labrpc.
  (** The arguments, the results, and the state of the objects whose methods are
      called. *)
  Context {Args Reply Obj : Type} `{Codec Args} `{Codec Reply}.

(** ** Servers and services *)

Record replyMsg := mkReplyMsg { ok : bool; reply : bytes }.

Record reqMsg := mkReqMsg { endname : Z; svcMeth : string; args : bytes }.

(** What reflection tells of a method. *)
Record method := mkMethod {
  m_name : string; PkgPath : string; NumIn : Z; In2IsPtr : bool; NumOut : Z; Func : Args → Obj → Obj * Reply;
}.

Record Service := mkService { name : string; methods : gmap string (Args → Obj → Obj * Reply) }.

(** A handler is exported, has a receiver, an argument and a pointer for the
    result, and returns nothing. *)
Definition suitable (m : method) : bool :=
  bool_decide (PkgPath m = "") && bool_decide (NumIn m = 3) && In2IsPtr m && bool_decide (NumOut m = 0).

Definition MakeService (typeName : string) (typ : list method) : Service :=
  mkService typeName
    (foldl (λ ms m, if suitable m then <[m_name m := Func m]> ms else ms) ∅ typ).

Record Server := mkServer { services : gmap string Service; count : Z; obj : Obj }.

Definition MakeServer (o : Obj) : Server := mkServer ∅ 0 o.

Definition AddService (svc : Service) (rs : Server) : Server :=
  mkServer (<[name svc := svc]> (services rs)) (count rs) (obj rs).

(** [Service.dispatch]: an unknown method is fatal.  The error of [Decode] is not
    looked at: arguments that cannot be decoded are the zero value [zero]. *)
Definition Service_dispatch (zero : Args) (methname : string) (req : reqMsg) (svc : Service) (o : Obj)
  : outcome (Obj * replyMsg) :=
  match methods svc !! methname with
  | Some f => let '(o', r) := f (default zero (dec (args req))) o in mret (o', mkReplyMsg true (enc r))
  | None => Fatal
  end.

(** [Server.dispatch]: a name without a dot is an index out of range. *)
Definition Server_dispatch (zero : Args) (req : reqMsg) (rs : Server) : outcome (Server * replyMsg) :=
  match splitLastDot (svcMeth req) with
  | None => Panic
  | Some (serviceName, methodName) =>
      match services rs !! serviceName with
      | Some svc =>
          '(o', r) ← Service_dispatch zero methodName req svc (obj rs);
          mret (mkServer (services rs) (count rs + 1) o', r)
      | None => Fatal
      end
  end.

(** ** The network

    A name is a number; a pointer to a server is a number too, [heap] is what it
    points to. *)
Record Network := mkNetwork {
  reliable : bool;
  longDelays : bool;
  longReordering : bool;
  ends : gset Z;
  enabled : gmap Z bool;
  servers : gmap Z (option Z);
  connections : gmap Z (option Z);
  done : bool;
  totalCount : Z;
  totalBytes : Z;
}.

Definition MakeNetwork : Network := mkNetwork true false false ∅ ∅ ∅ ∅ false 0 0.

Definition set_reliable (yes : bool) (rn : Network) : Network :=
  mkNetwork yes (longDelays rn) (longReordering rn) (ends rn) (enabled rn) (servers rn) (connections rn)
    (done rn) (totalCount rn) (totalBytes rn).
Definition set_longDelays (yes : bool) (rn : Network) : Network :=
  mkNetwork (reliable rn) yes (longReordering rn) (ends rn) (enabled rn) (servers rn) (connections rn)
    (done rn) (totalCount rn) (totalBytes rn).
Definition set_longReordering (yes : bool) (rn : Network) : Network :=
  mkNetwork (reliable rn) (longDelays rn) yes (ends rn) (enabled rn) (servers rn) (connections rn)
    (done rn) (totalCount rn) (totalBytes rn).
Definition set_ends (e : gset Z) (en : gmap Z bool) (co : gmap Z (option Z)) (rn : Network) : Network :=
  mkNetwork (reliable rn) (longDelays rn) (longReordering rn) e en (servers rn) co
    (done rn) (totalCount rn) (totalBytes rn).
Definition set_servers (s : gmap Z (option Z)) (rn : Network) : Network :=
  mkNetwork (reliable rn) (longDelays rn) (longReordering rn) (ends rn) (enabled rn) s (connections rn)
    (done rn) (totalCount rn) (totalBytes rn).
Definition set_done (rn : Network) : Network :=
  mkNetwork (reliable rn) (longDelays rn) (longReordering rn) (ends rn) (enabled rn) (servers rn) (connections rn)
    true (totalCount rn) (totalBytes rn).
Definition add_traffic (n b : Z) (rn : Network) : Network :=
  mkNetwork (reliable rn) (longDelays rn) (longReordering rn) (ends rn) (enabled rn) (servers rn) (connections rn)
    (done rn) (totalCount rn + n) (totalBytes rn + b).

Definition MakeEnd (endname : Z) (rn : Network) : outcome Network :=
  if decide (endname ∈ ends rn) then Fatal
  else mret (set_ends ({[endname]} ∪ ends rn) (<[endname := false]> (enabled rn))
               (<[endname := None]> (connections rn)) rn).

Definition DeleteEnd (endname : Z) (rn : Network) : outcome Network :=
  if decide (endname ∈ ends rn)
  then mret (set_ends (ends rn ∖ {[endname]}) (delete endname (enabled rn)) (delete endname (connections rn)) rn)
  else Fatal.

Definition AddServer (servername rs : Z) (rn : Network) : Network :=
  set_servers (<[servername := Some rs]> (servers rn)) rn.
Definition DeleteServer (servername : Z) (rn : Network) : Network :=
  set_servers (<[servername := None]> (servers rn)) rn.
Definition Connect (endname servername : Z) (rn : Network) : Network :=
  set_ends (ends rn) (enabled rn) (<[endname := Some servername]> (connections rn)) rn.
Definition Enable (endname : Z) (yes : bool) (rn : Network) : Network :=
  set_ends (ends rn) (<[endname := yes]> (enabled rn)) (connections rn) rn.

(** The first three results of [readEndnameInfo], when the request can be
    delivered: [enabled && servername != nil && server != nil]. *)
Definition readEndnameInfo (endname : Z) (rn : Network) : option (Z * Z) :=
  if map_get false (enabled rn) endname then
    servername ← map_get None (connections rn) endname;
    server ← map_get None (servers rn) servername;
    Some (servername, server)
  else None.

Definition isServerDead (endname servername server : Z) (rn : Network) : bool :=
  negb (map_get false (enabled rn) endname) ||
  bool_decide (map_get None (servers rn) servername ≠ Some server).

(** ** A call *)

(** What [processReq] has read at its start. *)
Record route := mkRoute { r_name : Z; r_server : Z; r_reliable : bool; r_reordering : bool }.

Inductive callPc :=
| Sent (req : reqMsg)                                  (* on [endCh] *)
| Accepted (req : reqMsg)                              (* [processReq] starts *)
| Unreachable                                          (* the timer of the failure reply runs *)
| Routed (req : reqMsg) (r : route)                    (* before the request may be dropped *)
| Waiting (req : reqMsg) (r : route)                   (* for the handler *)
| Decided (req : reqMsg) (r : route) (rep : option replyMsg)   (* the loop is left *)
| Delayed (rep : replyMsg)                             (* the timer of the reply runs *)
| Replied (rep : replyMsg).                            (* what was sent on [replyCh] *)

(** The goroutine that runs the handler of a call. *)
Record goroutine := mkGo { g_server : Z; g_req : reqMsg; g_reply : option replyMsg }.

(** A handler that has run: for which call, on which server and object. *)
Record execution := mkExec {
  x_call : nat; x_server : Z; x_req : reqMsg; x_before : Obj; x_after : Obj; x_reply : replyMsg;
}.

(** [issued] and [execs] are history: the calls that clients have made and the
    handlers that have run. *)
Record state := mkState {
  net : Network;
  heap : gmap Z Server;
  calls : gmap nat callPc;
  handlers : gmap nat goroutine;
  issued : gmap nat (Z * string * Args);
  execs : list execution;
}.

Definition set_net (s : state) (x : Network) : state :=
  mkState x (heap s) (calls s) (handlers s) (issued s) (execs s).
Definition set_call (s : state) (id : nat) (x : callPc) : state :=
  mkState (net s) (heap s) (<[id := x]> (calls s)) (handlers s) (issued s) (execs s).
Definition set_handlers (s : state) (x : gmap nat goroutine) : state :=
  mkState (net s) (heap s) (calls s) x (issued s) (execs s).
Definition set_issued (s : state) (x : gmap nat (Z * string * Args)) : state :=
  mkState (net s) (heap s) (calls s) (handlers s) x (execs s).

Definition GetCount (servername : Z) (s : state) : outcome Z :=
  match map_get None (servers (net s)) servername with
  | Some p => match heap s !! p with Some rs => mret (count rs) | None => Panic end
  | None => Panic
  end.

(** What the test program does to the network. *)
Inductive admin :=
| A_Reliable (yes : bool) | A_LongDelays (yes : bool) | A_LongReordering (yes : bool) | A_Cleanup
| A_MakeEnd (e : Z) | A_DeleteEnd (e : Z) | A_AddServer (sn p : Z) | A_DeleteServer (sn : Z)
| A_Connect (e sn : Z) | A_Enable (e : Z) (yes : bool).

Definition administer (a : admin) (rn : Network) : outcome Network :=
  match a with
  | A_Reliable yes => mret (set_reliable yes rn)
  | A_LongDelays yes => mret (set_longDelays yes rn)
  | A_LongReordering yes => mret (set_longReordering yes rn)
  | A_Cleanup => mret (set_done rn)
  | A_MakeEnd e => MakeEnd e rn
  | A_DeleteEnd e => DeleteEnd e rn
  | A_AddServer sn p => mret (AddServer sn p rn)
  | A_DeleteServer sn => mret (DeleteServer sn rn)
  | A_Connect e sn => mret (Connect e sn rn)
  | A_Enable e yes => mret (Enable e yes rn)
  end.

(** How the random numbers fall at the end of [processReq]. *)
Inductive luck := DropReply | DelayReply | SendReply.

Inductive action :=
| Admin (a : admin)
| NewServer (p : Z) (rs : Server)
| Call (id : nat) (e : Z) (svcMeth : string) (a : Args)
| CallDone (id : nat)
| Accept (id : nat)
| Process (id : nat)
| Drop (id : nat)
| Dispatch (id : nat)
| Handle (id : nat)
| Receive (id : nat)
| Tick (id : nat)
| Conclude (id : nat) (l : luck)
| Fire (id : nat).

Definition failure : replyMsg := mkReplyMsg false [].

(** [ClientEnd.Call], up to the send on [endCh]; [id] is a new call. *)
Definition sendCall (id : nat) (e : Z) (m : string) (a : Args) (s : state) : option state :=
  match calls s !! id with
  | Some _ => None
  | None => Some (set_call (set_issued s (<[id := (e, m, a)]> (issued s))) id (Sent (mkReqMsg e m (enc a))))
  end.

(** The other case of its [select]. *)
Definition callDone (id : nat) (s : state) : option state :=
  match calls s !! id with
  | Some _ => None
  | None => if done (net s) then Some (set_call s id (Replied failure)) else None
  end.

(** The goroutine of [MakeNetwork]. *)
Definition acceptReq (id : nat) (s : state) : option state :=
  match calls s !! id with
  | Some (Sent req) => Some (set_call (set_net s (add_traffic 1 (len (args req)) (net s))) id (Accepted req))
  | _ => None
  end.

(** One step: the operations on the network, and the sections of [processReq]. *)
Definition exec (zero : Args) (a : action) (s : state) : option state :=
  match a with
  | Admin a => match administer a (net s) with Ret rn => Some (set_net s rn) | _ => None end
  | NewServer p rs =>
      match heap s !! p with
      | Some _ => None
      | None => Some (mkState (net s) (<[p := rs]> (heap s)) (calls s) (handlers s) (issued s) (execs s))
      end
  | Call id e m a => sendCall id e m a s
  | CallDone id => callDone id s
  | Accept id => acceptReq id s
  | Process id =>
      match calls s !! id with
      | Some (Accepted req) =>
          Some (set_call s id
            match readEndnameInfo (endname req) (net s) with
            | Some (sn, p) => Routed req (mkRoute sn p (reliable (net s)) (longReordering (net s)))
            | None => Unreachable
            end)
      | _ => None
      end
  | Drop id =>
      match calls s !! id with
      | Some (Routed req r) => if r_reliable r then None else Some (set_call s id (Replied failure))
      | _ => None
      end
  | Dispatch id =>
      match calls s !! id with
      | Some (Routed req r) =>
          Some (set_call (set_handlers s (<[id := mkGo (r_server r) req None]> (handlers s))) id (Waiting req r))
      | _ => None
      end
  | Handle id =>
      match handlers s !! id with
      | Some (mkGo p req None) =>
          match heap s !! p with
          | Some rs =>
              match Server_dispatch zero req rs with
              | Ret (rs', rep) =>
                  Some (mkState (net s) (<[p := rs']> (heap s)) (calls s)
                          (<[id := mkGo p req (Some rep)]> (handlers s)) (issued s)
                          (execs s ++ [mkExec id p req (obj rs) (obj rs') rep]))
              | _ => None
              end
          | None => None
          end
      | _ => None
      end
  | Receive id =>
      match calls s !! id, handlers s !! id with
      | Some (Waiting req r), Some (mkGo _ _ (Some rep)) =>
          Some (set_call (set_handlers s (delete id (handlers s))) id (Decided req r (Some rep)))
      | _, _ => None
      end
  | Tick id =>
      match calls s !! id with
      | Some (Waiting req r) =>
          Some (if isServerDead (endname req) (r_name r) (r_server r) (net s)
                then set_call s id (Decided req r None) else s)
      | _ => None
      end
  | Conclude id l =>
      match calls s !! id with
      | Some (Decided req r rep) =>
          let serverDead := isServerDead (endname req) (r_name r) (r_server r) (net s) in
          match rep with
          | Some rep =>
              if serverDead then Some (set_call s id (Replied failure))
              else match l with
                   | DropReply => if r_reliable r then None else Some (set_call s id (Replied failure))
                   | DelayReply => if r_reordering r then Some (set_call s id (Delayed rep)) else None
                   | SendReply => Some (set_call (set_net s (add_traffic 0 (len (reply rep)) (net s))) id (Replied rep))
                   end
          | None => Some (set_call s id (Replied failure))
          end
      | _ => None
      end
  | Fire id =>
      match calls s !! id with
      | Some Unreachable => Some (set_call s id (Replied failure))
      | Some (Delayed rep) => Some (set_call (set_net s (add_traffic 0 (len (reply rep)) (net s))) id (Replied rep))
      | _ => None
      end
  end.

(** What [Call] returns: the decoded reply, or false; a reply that cannot be
    decoded is fatal. *)
Definition CallResult (rep : replyMsg) : outcome (option Reply) :=
  if ok rep then match dec (reply rep) with Some r => mret (Some r) | None => Fatal end else mret None.

Definition initState : state := mkState MakeNetwork ∅ ∅ ∅ ∅ [].

Inductive reachable (zero : Args) : state → Prop :=
| reach_init : reachable zero initState
| reach_step s a s' : reachable zero s → exec zero a s = Some s' → reachable zero s'.

Fixpoint runs (zero : Args) (acts : list action) (s : state) : option state :=
  match acts with
  | [] => Some s
  | a :: acts => s' ← exec zero a s; runs zero acts s'
  end.

Lemma runs_reachable zero acts s s' : reachable zero s → runs zero acts s = Some s' → reachable zero s'.
Proof.
  revert s. induction acts as [|a acts IH]; intros s Hr Hs; simpl in Hs; [by simplify_eq|].
  apply bind_Some in Hs as (s1 & H1 & Hs). apply (IH s1); [by eapply reach_step|done].
Qed.

(** ** Names *)

Lemma splitLastDot_none s : noDot s = true → splitLastDot s = None.
Proof.
  induction s as [|c s IH]; [done|]. simpl. intros [Hc Hs]%andb_true_iff. apply bool_decide_eq_true in Hc.
  by rewrite IH, decide_False.
Qed.

Lemma splitLastDot_join svc meth : noDot meth = true →
  splitLastDot (svc +:+ String dot meth) = Some (svc, meth).
Proof.
  intros Hm. induction svc as [|c svc IH]; simpl; [by rewrite splitLastDot_none|].
  change (String.append svc (String dot meth)) with (svc +:+ String dot meth). by rewrite IH.
Qed.

(** ** What a run of a handler is *)

(** The method that [m] names, called on [a] and object [o], gives [o'] and [r]. *)
Definition calledMethod (rs : Server) (m : string) (a : Args) (o o' : Obj) (r : Reply) : Prop :=
  ∃ serviceName methodName svc f, splitLastDot m = Some (serviceName, methodName) ∧
    services rs !! serviceName = Some svc ∧ methods svc !! methodName = Some f ∧ f a o = (o', r).

Lemma Server_dispatch_spec zero req rs rs' rep : Server_dispatch zero req rs = Ret (rs', rep) →
  ∃ r, calledMethod rs (svcMeth req) (default zero (dec (args req))) (obj rs) (obj rs') r ∧
    rep = mkReplyMsg true (enc r) ∧ services rs' = services rs ∧ count rs' = count rs + 1.
Proof.
  unfold Server_dispatch. destruct (splitLastDot (svcMeth req)) as [[sn mn]|] eqn:Hd; [|done].
  destruct (services rs !! sn) as [svc|] eqn:Hs; [|done]. intros Hr.
  apply bind_Ret_inv in Hr as ([o' rep'] & Hr & [= <- <-]). unfold Service_dispatch in Hr.
  destruct (methods svc !! mn) as [f|] eqn:Hf; [|done].
  destruct (f (default zero (dec (args req))) (obj rs)) as [o1 r] eqn:Hcall. injection Hr as <- <-.
  exists r. split; [|done]. by exists sn, mn, svc, f.
Qed.

(** ** The invariant *)

Definition isRequest (s : state) (id : nat) (req : reqMsg) : Prop :=
  ∃ e m a, issued s !! id = Some (e, m, a) ∧ req = mkReqMsg e m (enc a).

Definition ran (s : state) (id : nat) : Prop := id ∈ x_call <$> execs s.

Definition ranWith (s : state) (id : nat) (p : Z) (rep : replyMsg) : Prop :=
  ∃ x, x ∈ execs s ∧ x_call x = id ∧ x_server x = p ∧ x_reply x = rep.

(** Handler started. *)
Definition started (pc : callPc) : Prop :=
  match pc with Waiting _ _ | Decided _ _ _ | Delayed _ | Replied _ => True | _ => False end.

Definition callOk (s : state) (id : nat) (pc : callPc) : Prop :=
  match pc with
  | Sent req | Accepted req | Routed req _ => isRequest s id req ∧ ¬ ran s id ∧ handlers s !! id = None
  | Unreachable => ¬ ran s id ∧ handlers s !! id = None
  | Waiting req r => ∃ g, handlers s !! id = Some g ∧ g_server g = r_server r
  | Decided _ r (Some rep) => ranWith s id (r_server r) rep
  | Decided _ _ None => True
  | Delayed rep => ∃ p, ranWith s id p rep
  | Replied rep => ok rep = true → ∃ p, ranWith s id p rep
  end.

Record linv (zero : Args) (s : state) : Prop := {
  li_execs x : x ∈ execs s → isRequest s (x_call x) (x_req x) ∧
    ∃ rs r, heap s !! x_server x = Some rs ∧
      calledMethod rs (svcMeth (x_req x)) (default zero (dec (args (x_req x)))) (x_before x) (x_after x) r ∧
      x_reply x = mkReplyMsg true (enc r);
  li_nodup : NoDup (x_call <$> execs s);
  li_call id pc : calls s !! id = Some pc → callOk s id pc;
  li_go id g : handlers s !! id = Some g → isRequest s id (g_req g) ∧
    (∃ pc, calls s !! id = Some pc ∧ started pc) ∧
    match g_reply g with None => ¬ ran s id | Some rep => ranWith s id (g_server g) rep end;
  li_fresh id : calls s !! id = None → ¬ ran s id ∧ handlers s !! id = None;
}.

Lemma linv_set_net zero s rn : linv zero s → linv zero (set_net s rn).
Proof. intros []. by split. Qed.

Lemma linv_set_call zero s id pc : linv zero s → callOk s id pc →
  (is_Some (handlers s !! id) → started pc) → linv zero (set_call s id pc).
Proof.
  intros Hl Hok Hst. split; try apply Hl.
  - intros id' pc'. simpl. intros [[<- <-]|[_ Hc]]%lookup_insert_Some; [done|by apply (li_call _ _ Hl)].
  - intros id' g Hg. destruct (li_go _ _ Hl _ _ Hg) as (Hr & (pc' & Hc & Hs) & Hrep). split; [done|]. split; [|done].
    simpl. destruct (decide (id = id')) as [<-|Hne].
    + exists pc. rewrite lookup_insert_eq. split; [done|]. apply Hst. by exists g.
    + exists pc'. by rewrite lookup_insert_ne.
  - intros id'. simpl. intros [Hc _]%lookup_insert_None. by apply (li_fresh _ _ Hl).
Qed.

Lemma isRequest_issued s id v id' req : id' ≠ id → isRequest s id' req →
  isRequest (set_issued s (<[id := v]> (issued s))) id' req.
Proof. intros Hne (e & m & a & Hi & ->). exists e, m, a. simpl. by rewrite lookup_insert_ne. Qed.

Lemma linv_issue zero s id v : linv zero s → calls s !! id = None →
  linv zero (set_issued s (<[id := v]> (issued s))).
Proof.
  intros Hl Hnew. destruct (li_fresh _ _ Hl id Hnew) as [Hran Hgo].
  assert (∀ id' req, id' ≠ id → isRequest s id' req → isRequest (set_issued s (<[id := v]> (issued s))) id' req)
    as Hreq by (intros; by apply isRequest_issued).
  split; try apply Hl.
  - intros x Hx. destruct (li_execs _ _ Hl x Hx) as [Hr He]. split; [|done]. apply Hreq; [|done].
    intros <-. apply Hran. by apply list_elem_of_fmap_2.
  - intros id' pc Hc. pose proof (li_call _ _ Hl id' pc Hc) as Hok. assert (id' ≠ id) as Hne by naive_solver.
    destruct pc; simpl in *; try done; destruct Hok as [? Hx]; (split; [by apply Hreq|exact Hx]).
  - intros id' g Hg. destruct (li_go _ _ Hl _ _ Hg) as [Hr Hrest]. split; [|done]. apply Hreq; [|done]. naive_solver.
Qed.

Lemma linv_call zero s id e m a : linv zero s → calls s !! id = None →
  linv zero (set_call (set_issued s (<[id := (e, m, a)]> (issued s))) id (Sent (mkReqMsg e m (enc a)))).
Proof.
  intros Hl Hnew. destruct (li_fresh _ _ Hl id Hnew) as [Hran Hgo]. apply linv_set_call; [by apply linv_issue| |].
  - split; [|done]. exists e, m, a. split; [apply lookup_insert_eq|done].
  - intros [g Hg]. simpl in Hg. congruence.
Qed.

Lemma linv_dispatch zero s id req r : linv zero s → calls s !! id = Some (Routed req r) →
  linv zero (set_call (set_handlers s (<[id := mkGo (r_server r) req None]> (handlers s))) id (Waiting req r)).
Proof.
  intros Hl Hc. destruct (li_call _ _ Hl _ _ Hc) as (Hreq & Hran & _). split; simpl; try apply Hl.
  - intros id' pc [[<- <-]|[Hne Hc']]%lookup_insert_Some.
    + eexists. simpl. by rewrite lookup_insert_eq.
    + pose proof (li_call _ _ Hl id' pc Hc') as Hok. destruct pc; simpl in *; try done; by rewrite lookup_insert_ne.
  - intros id' g [[<- <-]|[Hne Hg]]%lookup_insert_Some.
    + split; [done|]. split; [|done]. eexists. by rewrite lookup_insert_eq.
    + rewrite lookup_insert_ne by done. by apply (li_go _ _ Hl).
  - intros id' [Hc' Hne]%lookup_insert_None. rewrite lookup_insert_ne by done. by apply (li_fresh _ _ Hl).
Qed.

Lemma linv_receive zero s id req r p q rep : linv zero s → calls s !! id = Some (Waiting req r) →
  handlers s !! id = Some (mkGo p q (Some rep)) →
  linv zero (set_call (set_handlers s (delete id (handlers s))) id (Decided req r (Some rep))).
Proof.
  intros Hl Hc Hg. destruct (li_go _ _ Hl _ _ Hg) as (_ & _ & Hrep). destruct (li_call _ _ Hl _ _ Hc) as (g & Hg' & Hsrv).
  rewrite Hg in Hg'. injection Hg' as <-. simpl in Hsrv, Hrep. subst p. split; simpl; try apply Hl.
  - intros id' pc [[<- <-]|[Hne Hc']]%lookup_insert_Some; [done|].
    pose proof (li_call _ _ Hl id' pc Hc') as Hok. destruct pc; simpl in *; try done; by rewrite lookup_delete_ne.
  - intros id' g [Hne Hg']%lookup_delete_Some. rewrite lookup_insert_ne by done. by apply (li_go _ _ Hl).
  - intros id' [Hc' Hne]%lookup_insert_None. rewrite lookup_delete_ne by done. by apply (li_fresh _ _ Hl).
Qed.

(** A handler runs. *)
Section handle.
  Context (zero : Args) (s : state) (id : nat) (p : Z) (req : reqMsg) (rs rs' : Server) (rep : replyMsg).
  Context (Hl : linv zero s) (Hg : handlers s !! id = Some (mkGo p req None)) (Hp : heap s !! p = Some rs).
  Context (Hd : Server_dispatch zero req rs = Ret (rs', rep)).

Let x : execution := mkExec id p req (obj rs) (obj rs') rep.
Let s' : state := mkState (net s) (<[p := rs']> (heap s)) (calls s)
                    (<[id := mkGo p req (Some rep)]> (handlers s)) (issued s) (execs s ++ [x]).

Lemma ran_handle id' : ran s' id' ↔ ran s id' ∨ id' = id.
Proof using. unfold ran, s'. simpl. rewrite fmap_app, elem_of_app. simpl. by rewrite list_elem_of_singleton. Qed.

Lemma ranWith_handle id' q rep' : ranWith s id' q rep' → ranWith s' id' q rep'.
Proof using. intros (y & Hy & Hrest). exists y. split; [|done]. apply elem_of_app. by left. Qed.

Lemma execs_handle y : y ∈ execs s' → isRequest s' (x_call y) (x_req y) ∧
  ∃ rs1 r, heap s' !! x_server y = Some rs1 ∧
    calledMethod rs1 (svcMeth (x_req y)) (default zero (dec (args (x_req y)))) (x_before y) (x_after y) r ∧
    x_reply y = mkReplyMsg true (enc r).
Proof using Hl Hg Hp Hd.
  destruct (Server_dispatch_spec _ _ _ _ _ Hd) as (r & Hm & Hrep & Hsvc & _).
  assert (∀ m a o o' r1, calledMethod rs m a o o' r1 → calledMethod rs' m a o o' r1) as Hcm
    by (intros m a o o' r1; unfold calledMethod; by rewrite Hsvc).
  unfold s'. simpl. rewrite elem_of_app, elem_of_cons, elem_of_nil. intros [Hy|[->|[]]].
  - destruct (li_execs _ _ Hl y Hy) as (Hr & rs1 & r1 & Hh & Hm1 & Hrep1). split; [done|].
    destruct (decide (x_server y = p)) as [Heq|Hne].
    + rewrite Heq in Hh. rewrite Hp in Hh. injection Hh as <-. exists rs', r1. rewrite Heq, lookup_insert_eq. auto.
    + exists rs1, r1. rewrite lookup_insert_ne by done. auto.
  - destruct (li_go _ _ Hl _ _ Hg) as [Hr _]. split; [done|]. exists rs', r. simpl. rewrite lookup_insert_eq. auto.
Qed.

Lemma linv_handle : linv zero s'.
Proof using Hl Hg Hp Hd.
  destruct (li_go _ _ Hl _ _ Hg) as (Hreq & (pc & Hpc & Hst) & Hnr). simpl in Hnr.
  split; [exact execs_handle| | | |].
  - unfold s'. simpl. rewrite fmap_app. apply NoDup_app. split; [apply (li_nodup _ _ Hl)|]. split.
    + intros id' Hin Hx. apply Hnr. unfold ran. simpl in Hx. apply list_elem_of_singleton in Hx. by subst id'.
    + apply NoDup_singleton.
  - intros id' pc' Hc. simpl in Hc. pose proof (li_call _ _ Hl _ _ Hc) as Hok.
    destruct (decide (id' = id)) as [->|Hne].
    + rewrite Hpc in Hc. injection Hc as <-. destruct pc as [| | | | |req1 r1 [|]| |]; try done; simpl in *.
      * destruct Hok as (g & Hg' & Hs). rewrite Hg in Hg'. injection Hg' as <-. rewrite lookup_insert_eq. by eexists.
      * by apply ranWith_handle.
      * destruct Hok as [q ?]. exists q. by apply ranWith_handle.
      * intros Ho. destruct (Hok Ho) as [q ?]. exists q. by apply ranWith_handle.
    + destruct pc' as [| | | | |req1 r1 [|]| |]; simpl in *;
        rewrite ?ran_handle, ?lookup_insert_ne by done; try naive_solver.
      * by apply ranWith_handle.
      * destruct Hok as [q ?]. exists q. by apply ranWith_handle.
      * intros Ho. destruct (Hok Ho) as [q ?]. exists q. by apply ranWith_handle.
  - intros id' g. simpl. intros [[<- <-]|[Hne Hg']]%lookup_insert_Some.
    + split; [done|]. split; [by exists pc|]. exists x. split; [|done]. apply elem_of_app. right. by apply list_elem_of_singleton.
    + destruct (li_go _ _ Hl _ _ Hg') as (Hr & Hc & Hrep). split; [done|]. split; [done|].
      destruct (g_reply g); [by apply ranWith_handle|]. rewrite ran_handle. naive_solver.
  - intros id' Hc. simpl in *. destruct (li_fresh _ _ Hl id' Hc) as [Hn Hh]. assert (id' ≠ id) as Hne by congruence.
    rewrite lookup_insert_ne by done. split; [|done]. rewrite ran_handle. naive_solver.
Qed.
End handle.

Lemma linv_new_server zero s p rs : linv zero s → heap s !! p = None →
  linv zero (mkState (net s) (<[p := rs]> (heap s)) (calls s) (handlers s) (issued s) (execs s)).
Proof.
  intros Hl Hp. split; try apply Hl. intros x Hx. destruct (li_execs _ _ Hl x Hx) as (Hr & rs1 & r & Hh & Hrest).
  split; [done|]. exists rs1, r. simpl. rewrite lookup_insert_ne by congruence. done.
Qed.

(** The moves of [processReq] that do not concern the handler. *)
Lemma linv_exec zero a s s' : linv zero s → exec zero a s = Some s' → linv zero s'.
Proof.
  intros Hl He. destruct a as [a|p rs|id e m a|id|id|id|id|id|id|id|id|id l|id];
    unfold exec, sendCall, callDone, acceptReq in He; simpl in He.
  - destruct (administer a (net s)); simplify_eq. by apply linv_set_net.
  - destruct (heap s !! p) eqn:Hp; simplify_eq. by apply linv_new_server.
  - destruct (calls s !! id) eqn:Hc; simplify_eq. by apply linv_call.
  - destruct (calls s !! id) eqn:Hc; [done|]. destruct (done (net s)); simplify_eq. by apply linv_set_call.
  - destruct (calls s !! id) as [[]|] eqn:Hc; simplify_eq. pose proof (li_call _ _ Hl _ _ Hc) as Hok.
    apply linv_set_call; [by apply linv_set_net|done|]. destruct Hok as (_ & _ & Hn). simpl. rewrite Hn. by intros [].
  - destruct (calls s !! id) as [[]|] eqn:Hc; simplify_eq. pose proof (li_call _ _ Hl _ _ Hc) as (Hr & Hran & Hn).
    apply linv_set_call; [done| |rewrite Hn; by intros []].
    by destruct (readEndnameInfo _ _) as [[]|].
  - destruct (calls s !! id) as [[]|] eqn:Hc; try done. destruct (r_reliable r); simplify_eq. by apply linv_set_call.
  - destruct (calls s !! id) as [[]|] eqn:Hc; simplify_eq. by apply linv_dispatch.
  - destruct (handlers s !! id) as [[p req [|]]|] eqn:Hg; try done. destruct (heap s !! p) as [rs|] eqn:Hp; [|done].
    destruct (Server_dispatch zero req rs) as [[rs' rep]| | |] eqn:Hd; simplify_eq. by apply linv_handle.
  - destruct (calls s !! id) as [[]|] eqn:Hc; try done. destruct (handlers s !! id) as [[p q [rep|]]|] eqn:Hg; simplify_eq.
    by eapply linv_receive.
  - destruct (calls s !! id) as [[]|] eqn:Hc; simplify_eq. destruct (isServerDead _ _ _ _); [|done]. by apply linv_set_call.
  - destruct (calls s !! id) as [[| | | | |req r rep| |]|] eqn:Hc; try done. pose proof (li_call _ _ Hl _ _ Hc) as Hok.
    assert (linv zero (set_call s id (Replied failure))) as Hfail by by apply linv_set_call.
    destruct rep as [rep|]; [|by simplify_eq]. destruct (isServerDead _ _ _ _); [by simplify_eq|]. destruct l.
    + destruct (r_reliable r); by simplify_eq.
    + destruct (r_reordering r); simplify_eq. apply linv_set_call; [done|by eexists|done].
    + simplify_eq. apply linv_set_call; [by apply linv_set_net|by eexists|done].
  - destruct (calls s !! id) as [[]|] eqn:Hc; simplify_eq; pose proof (li_call _ _ Hl _ _ Hc) as Hok.
    + by apply linv_set_call.
    + apply linv_set_call; [by apply linv_set_net|by intros _|done].
Qed.

Lemma reachable_linv zero s : reachable zero s → linv zero s.
Proof.
  induction 1 as [|s a s' _ IH He]; [|by eapply linv_exec].
  split; try done.
  - intros x Hx. by apply elem_of_nil in Hx.
  - constructor.
  - intros id _. split; [|done]. apply not_elem_of_nil.
Qed.

(** C22: a call is executed at most once, and a call that returns true was
    executed exactly once: the method that it names ran on the arguments that the
    client passed, on the object of some server, and what [Call] decodes is the
    result of this run.  No reply that arrives fails to decode. *)
Theorem call_at_most_once `{!CodecLaws Args, !CodecLaws Reply} zero s : reachable zero s →
  NoDup (x_call <$> execs s) ∧
  ∀ id rep, calls s !! id = Some (Replied rep) →
    (ok rep = false ∧ CallResult rep = Ret None) ∨
    ∃ e m a x rs r, issued s !! id = Some (e, m, a) ∧ x ∈ execs s ∧ x_call x = id ∧
      heap s !! x_server x = Some rs ∧ calledMethod rs m a (x_before x) (x_after x) r ∧
      CallResult rep = Ret (Some r).
Proof.
  intros Hl%reachable_linv. split; [apply (li_nodup _ _ Hl)|]. intros id rep Hc.
  pose proof (li_call _ _ Hl _ _ Hc) as Hok. unfold CallResult. simpl in Hok.
  destruct (ok rep); [right|by left].
  destruct (Hok eq_refl) as (p & x & Hx & <- & _ & Hrep).
  destruct (li_execs _ _ Hl x Hx) as ((e & m & a & Hi & Hreq) & rs & r & Hh & Hm & Hrep').
  rewrite Hreq in Hm. simpl in Hm. rewrite dec_enc in Hm. simpl in Hm.
  exists e, m, a, x, rs, r. do 5 (split; [done|]). rewrite <- Hrep, Hrep'. simpl. by rewrite dec_enc.
Qed.

(** ** A server that has been deleted *)

(** Call [id] is on its way to server [p] under the name [sn]. *)
Definition onRoute (s : state) (id : nat) (sn p : Z) : Prop :=
  ∃ req r, r_name r = sn ∧ r_server r = p ∧
    (calls s !! id = Some (Routed req r) ∨ calls s !! id = Some (Waiting req r) ∨
     ∃ rep, calls s !! id = Some (Decided req r rep)).

(** It has failed or will fail. *)
Definition lost (s : state) (id : nat) (sn p : Z) : Prop :=
  map_get None (servers (net s)) sn ≠ Some p ∧ (onRoute s id sn p ∨ calls s !! id = Some (Replied failure)).

Lemma dead_if_gone s e sn p : map_get None (servers (net s)) sn ≠ Some p → isServerDead e sn p (net s) = true.
Proof. intros Hne. unfold isServerDead. rewrite (bool_decide_eq_true_2 _ Hne). apply orb_true_r. Qed.

Lemma administer_servers a rn rn' sn p : administer a rn = Ret rn' → a ≠ A_AddServer sn p →
  map_get None (servers rn) sn ≠ Some p → map_get None (servers rn') sn ≠ Some p.
Proof.
  intros Ha Hne Hs. destruct a as [| | | | | |sn' p'|sn'| |]; simpl in Ha; unfold MakeEnd, DeleteEnd in Ha;
    try (by injection Ha as <-); try (case_decide; [done|by injection Ha as <-]);
    try (case_decide; [by injection Ha as <-|done]); injection Ha as <-; simpl; unfold map_get in *.
  - destruct (decide (sn' = sn)) as [->|]; [rewrite lookup_insert_eq; simpl; congruence|by rewrite lookup_insert_ne].
  - destruct (decide (sn' = sn)) as [->|]; [by rewrite lookup_insert_eq|by rewrite lookup_insert_ne].
Qed.

(** What an action does to the servers and to a call that it is not about. *)
Definition about (a : action) : option nat :=
  match a with
  | Admin _ | NewServer _ _ => None
  | Call id _ _ _ | CallDone id | Accept id | Process id | Drop id | Dispatch id | Handle id | Receive id
  | Tick id | Conclude id _ | Fire id => Some id
  end.

Lemma exec_other zero a s s' id : exec zero a s = Some s' → about a ≠ Some id → calls s' !! id = calls s !! id.
Proof.
  intros He Hne. destruct a; unfold exec, sendCall, callDone, acceptReq in He; simpl in He, Hne; repeat case_match; simplify_eq/=; try done;
    rewrite lookup_insert_ne; naive_solver.
Qed.

Lemma exec_servers zero a s s' : exec zero a s = Some s' → (∀ b, a ≠ Admin b) → servers (net s') = servers (net s).
Proof. intros He Hne. destruct a; unfold exec, sendCall, callDone, acceptReq in He; simpl in He; repeat case_match; simplify_eq/=; try done; by destruct (Hne a). Qed.

(** The call itself: the next check finds the server gone. *)
Lemma lost_self zero a s s' id sn p : lost s id sn p → about a = Some id → exec zero a s = Some s' →
  onRoute s' id sn p ∨ calls s' !! id = Some (Replied failure).
Proof.
  intros [Hg Hl] Ha He.
  assert (∀ req r, r_name r = sn → r_server r = p → isServerDead (endname req) (r_name r) (r_server r) (net s) = true) as Hd.
  { intros req r <- <-. by apply dead_if_gone. }
  assert (∀ s0 pc, calls (set_call s0 id pc) !! id = Some pc) as Hset by (intros; apply lookup_insert_eq).
  destruct Hl as [(req & r & Hn & Hp & Hc)|Hc].
  2: { right. destruct a; simpl in Ha; simplify_eq; unfold exec, sendCall, callDone, acceptReq in He; simpl in He; rewrite ?Hc in He; try done.
       repeat case_match; by simplify_eq/=. }
  destruct Hc as [Hc|[Hc|[rep Hc]]]; destruct a; simpl in Ha; simplify_eq; unfold exec, sendCall, callDone, acceptReq in He; simpl in He; rewrite ?Hc in He; try done.
  - destruct (r_reliable r); simplify_eq. right. apply Hset.
  - simplify_eq. left. exists req, r. split; [done|]. split; [done|]. right; left. apply Hset.
  - repeat case_match; simplify_eq/=. left. exists req, r. auto.
  - repeat case_match; simplify_eq/=. left. exists req, r. auto.
  - repeat case_match; simplify_eq/=. left. exists req, r. split; [done|]. split; [done|].
    right; right. eexists. apply lookup_insert_eq.
  - rewrite Hd in He by done. simplify_eq. left. exists req, r. split; [done|]. split; [done|].
    right; right. eexists. apply Hset.
  - repeat case_match; simplify_eq/=. left. exists req, r. split; [done|]. split; [done|]. right; right. by eexists.
  - rewrite Hd in He by done. destruct rep; simplify_eq; right; apply Hset.
Qed.

Lemma lost_step zero a s s' id sn p : lost s id sn p → a ≠ Admin (A_AddServer sn p) →
  exec zero a s = Some s' → lost s' id sn p.
Proof.
  intros Hl Hne He. split.
  - destruct Hl as [Hg _]. destruct (decide (about a = None)) as [Ha|Ha].
    + destruct a as [a|p' rs| | | | | | | | | | |]; unfold exec, sendCall, callDone, acceptReq in He; simpl in Ha, He; try done.
      * destruct (administer a (net s)) as [rn| | |] eqn:Hadm; simplify_eq. simpl.
        eapply administer_servers; [done|naive_solver|done].
      * by repeat case_match; simplify_eq/=.
    + rewrite (exec_servers _ _ _ _ He); [done|]. by intros b ->.
  - destruct (decide (about a = Some id)) as [Ha|Ha]; [by eapply lost_self|].
    destruct Hl as [_ Hl]. pose proof (exec_other _ _ _ _ _ He Ha) as Hc. unfold onRoute. by rewrite Hc.
Qed.

(** C23: no positive reply from a server that has been deleted.  A request is on
    its way to server [p], perhaps already executed, when [p] is no longer the
    server of this name; unless the same server is added again, the call returns
    false, whatever else happens. *)
Theorem deleted_server_silent zero acts s s' id sn p rep :
  onRoute s id sn p → map_get None (servers (net s)) sn ≠ Some p →
  Forall (λ a, a ≠ Admin (A_AddServer sn p)) acts → runs zero acts s = Some s' →
  calls s' !! id = Some (Replied rep) → CallResult rep = Ret None.
Proof.
  intros Hr Hg Hno Hruns Hc.
  assert (lost s' id sn p) as [_ [(req & r & _ & _ & Hr')|Hf]].
  { assert (lost s id sn p) as Hl by (split; [done|by left]). clear Hr Hg Hc. revert s Hl Hruns.
    induction Hno as [|a acts Ha _ IH]; intros s Hl Hruns; simpl in Hruns; [by simplify_eq|].
    apply bind_Some in Hruns as (s1 & H1 & Hruns). apply (IH s1); [|done]. by eapply lost_step. }
  - destruct Hr' as [?|[?|[? ?]]]; congruence.
  - rewrite Hf in Hc. by injection Hc as <-.
Qed.

End labrpc.

(** ** A counter behind the network *)

Definition counterAdd (a : Z) (o : Z) : Z * Z := (o + a, o + a).
Definition counter : Service :=
  MakeService "Counter"
    [mkMethod "Add" "" 3 true 0 counterAdd; mkMethod "kill" "main" 1 false 0 counterAdd].

#[local] Instance Z_codec : Codec Z := serial_codec Z.
#[local] Instance Z_codec_laws : CodecLaws Z := serial_codec_laws Z.

Abbreviation zAction := (action (Args := Z) (Reply := Z) (Obj := Z)).
Abbreviation zState := (state (Args := Z) (Reply := Z) (Obj := Z)).

(** End 1 is connected to server 5, at address 100. *)
Definition setUp : list zAction :=
  [NewServer 100 (AddService counter (MakeServer 0)); Admin (A_AddServer 5 100); Admin (A_MakeEnd 1);
   Admin (A_Connect 1 5); Admin (A_Enable 1 true)].

(** Up to the execution of the handler. *)
Definition upToHandle (id : nat) (a : Z) : list zAction :=
  [Call id 1 "Counter.Add" a; Accept id; Process id; Dispatch id; Handle id].

Definition after (acts : list zAction) : state :=
  default initState (runs 0 acts initState).

(** The answer to call 0, and the value of the counter. *)
Definition observed (s : zState) : option (outcome (option Z)) * option Z :=
  (match calls s !! 0%nat with Some (Replied rep) => Some (CallResult rep) | _ => None end, obj <$> heap s !! 100).

Definition answered : list zAction :=
  setUp ++ upToHandle 0 7 ++ [Receive 0; Conclude 0 SendReply].

Example answered_call : observed (after answered) = (Some (Ret (Some 7)), Some 7).
Proof. vm_compute. reflexivity. Qed.

(** An unreliable network executes the call and loses the reply. *)
Example lost_reply :
  observed (after (Admin (A_Reliable false) :: setUp ++ upToHandle 0 7 ++ [Receive 0; Conclude 0 DropReply]))
  = (Some (Ret None), Some 7).
Proof. vm_compute. reflexivity. Qed.

(** A call that has returned false may still be executed afterwards: the client
    is told that the server is gone while the goroutine of the handler goes on. *)
Definition givenUp : list zAction :=
  setUp ++ take 4 (upToHandle 0 7) ++ [Admin (A_Enable 1 false); Tick 0; Conclude 0 SendReply].

Example executed_after_failure :
  observed (after givenUp) = (Some (Ret None), Some 0) ∧
  observed (after (givenUp ++ [Handle 0])) = (Some (Ret None), Some 7).
Proof. split; vm_compute; reflexivity. Qed.

Lemma after_runs acts : (λ _, tt) <$> runs (0 : Z) acts initState = Some tt →
  runs (0 : Z) acts initState = Some (after acts).
Proof. unfold after. by destruct (runs 0 acts initState). Qed.

Lemma call_at_most_once_witness : ∃ e m a x rs r,
  issued (after answered) !! 0%nat = Some (e, m, a) ∧ x ∈ execs (after answered) ∧
  calledMethod rs m a (x_before x) (x_after x) r ∧ r = 7.
Proof.
  destruct (call_at_most_once (0 : Z) (after answered)) as [_ Hcalls].
  - eapply runs_reachable; [apply reach_init|]. apply after_runs. vm_compute. reflexivity.
  - destruct (Hcalls 0%nat (mkReplyMsg true (enc 7))) as [[Hf _]|(e & m & a & x & rs & r & Hi & Hx & _ & _ & Hm & Hr)].
    + vm_compute. reflexivity.
    + discriminate Hf.
    + exists e, m, a, x, rs, r. split; [exact Hi|]. split; [exact Hx|]. split; [exact Hm|].
      unfold CallResult in Hr. cbn [ok reply] in Hr. rewrite dec_enc in Hr. injection Hr as Hr. symmetry. exact Hr.
Defined.

(** The server is deleted when the handler has run. *)
Definition deleted : zState := after (setUp ++ upToHandle 0 7 ++ [Admin (A_DeleteServer 5)]).

Lemma deleted_server_silent_witness : ∃ s' rep,
  runs 0 [Receive 0; Conclude 0 SendReply] deleted = Some s' ∧ calls s' !! 0%nat = Some (Replied rep) ∧
  CallResult rep = Ret (None : option Z).
Proof.
  eexists _, failure. split; [vm_compute; reflexivity|]. split; [vm_compute; reflexivity|].
  apply (deleted_server_silent (0 : Z) [Receive 0; Conclude 0 SendReply] deleted
           (after (setUp ++ upToHandle 0 7 ++ [Admin (A_DeleteServer 5); Receive 0; Conclude 0 SendReply])) 0 5 100).
  - exists (mkReqMsg 1 "Counter.Add" (enc 7)), (mkRoute 5 100 true false). split; [reflexivity|]. split; [reflexivity|].
    right; left. vm_compute. reflexivity.
  - vm_compute. discriminate.
  - repeat constructor; discriminate.
  - vm_compute. reflexivity.
  - vm_compute. reflexivity.
Defined.
