(* ===== verification/RaftState.v ===== *)
(** * Raft: the data of a peer

    The types of [src/raft/raft.go], [enum.go], [util.go] and [persister.go]:
    log entries, the apply queue, the persister, the peer itself, the messages,
    and the two index spaces.  Raft numbers every entry ([internal] index),
    while the service above only sees the entries it submitted ([external]
    index): the no-op entry that each new leader appends is not counted. *)

From S2P Require Import Prelude Serial.
Local Open Scope Z_scope.

(** ** [enum.go] *)

Inductive raftState := RS_Follower | RS_Candiate | RS_Leader.
Inductive logType := LT_Normal | LT_Noop.

#[export] Instance raftState_eq_dec : EqDecision raftState.
Proof. solve_decision. Defined.
#[export] Instance logType_eq_dec : EqDecision logType.
Proof. solve_decision. Defined.

Definition raftState_code (s : raftState) : Z :=
  match s with RS_Follower => 0 | RS_Candiate => 1 | RS_Leader => 2 end.

Definition raftState_of (z : Z) : option raftState :=
  if decide (z = 0) then Some RS_Follower
  else if decide (z = 1) then Some RS_Candiate
  else if decide (z = 2) then Some RS_Leader else None.

Definition logType_code (t : logType) : Z :=
  match t with LT_Normal => 0 | LT_Noop => 1 end.

Definition logType_of (z : Z) : option logType :=
  if decide (z = 0) then Some LT_Normal
  else if decide (z = 1) then Some LT_Noop else None.

#[export] Instance raftState_countable : Countable raftState.
Proof.
  refine (inj_countable raftState_code raftState_of _). by intros [].
Defined.
#[export] Instance logType_countable : Countable logType.
Proof. refine (inj_countable logType_code logType_of _). by intros []. Defined.

(** ** [timming.go]: nanoseconds of a [time.Duration] *)

Definition TM_ElectionTimeout : Z := 200 * 1000000.
Definition MAX_RETRY_TIMES : Z := 3.

(** ** Log entries and the messages to the service

    A command is an arbitrary Go value; [None] stands for [nil]. *)

Record logEntry (Cmd : Type) := mkEntry {
  Term : Z;
  Type_ : logType;
  Index : Z;
  Command : option Cmd;
}.
Arguments mkEntry {Cmd}.
Arguments Term {Cmd} _.
Arguments Type_ {Cmd} _.
Arguments Index {Cmd} _.
Arguments Command {Cmd} _.

#[export] Instance logEntry_eq_dec {Cmd} `{EqDecision Cmd} : EqDecision (logEntry Cmd).
Proof. solve_decision. Defined.

#[export] Instance raftState_serial : Serial raftState := serial_countable raftState.
#[export] Instance raftState_serial_laws : SerialLaws raftState := serial_countable_laws raftState.
#[export] Instance logType_serial : Serial logType := serial_countable logType.
#[export] Instance logType_serial_laws : SerialLaws logType := serial_countable_laws logType.

#[export] Instance logEntry_serial {Cmd} `{Serial Cmd} : Serial (logEntry Cmd) :=
  serial_via (λ e, (Term e, Type_ e, Index e, Command e)) (λ '(t, ty, i, c), mkEntry t ty i c).
#[export] Instance logEntry_serial_laws {Cmd} `{SerialLaws Cmd} : SerialLaws (logEntry Cmd).
Proof. apply serial_via_laws. by intros []. Qed.

Record ApplyMsg (Cmd : Type) := mkMsg {
  CommandValid : bool;
  msgCommand : option Cmd;
  CommandIndex : Z;
  SnapshotValid : bool;
  msgSnapshot : bytes;
  msgSnapshotTerm : Z;
  msgSnapshotIndex : Z;
}.
Arguments mkMsg {Cmd}.
Arguments CommandValid {Cmd} _.
Arguments msgCommand {Cmd} _.
Arguments CommandIndex {Cmd} _.
Arguments SnapshotValid {Cmd} _.
Arguments msgSnapshot {Cmd} _.
Arguments msgSnapshotTerm {Cmd} _.
Arguments msgSnapshotIndex {Cmd} _.

(** The two messages that Raft builds, with the other fields at zero. *)
Definition commandMsg {Cmd} (c : option Cmd) (i : Z) : ApplyMsg Cmd :=
  mkMsg true c i false [] 0 0.
Definition snapshotMsg {Cmd} (data : bytes) (i t : Z) : ApplyMsg Cmd :=
  mkMsg false None 0 true data t i.

(** ** [util.go]: the queue between the log and the service *)

Module ApplyQueue.
Section queue.
Context {Cmd : Type}.

Definition Enqueue (q : list (ApplyMsg Cmd)) (val : ApplyMsg Cmd) : list (ApplyMsg Cmd) :=
  q ++ [val].

Definition Dequeue (q : list (ApplyMsg Cmd)) : (ApplyMsg Cmd * bool) * list (ApplyMsg Cmd) :=
  match q with
  | [] => ((mkMsg false None 0 false [] 0 0, false), [])
  | m :: q => ((m, true), q)
  end.

Definition Front (q : list (ApplyMsg Cmd)) : outcome (ApplyMsg Cmd) := slice_get q 0.

Definition Size (q : list (ApplyMsg Cmd)) : Z := len q.

Definition Clean (q : list (ApplyMsg Cmd)) : list (ApplyMsg Cmd) := [].
End queue.
End ApplyQueue.

(** ** [persister.go]

    [clone] copies a byte slice: on values it is the identity. *)

Record Persister := mkPersister {
  raftstate : bytes;
  ps_snapshot : bytes;
}.

Definition MakePersister : Persister := mkPersister [] [].
Definition clone (orig : bytes) : bytes := orig.
Definition Copy (ps : Persister) : Persister :=
  mkPersister (raftstate ps) (ps_snapshot ps).
Definition ReadRaftState (ps : Persister) : bytes := clone (raftstate ps).
Definition RaftStateSize (ps : Persister) : Z := len (raftstate ps).
Definition Save (ps : Persister) (raftstate snapshot : bytes) : Persister :=
  mkPersister (clone raftstate) (clone snapshot).
Definition ReadSnapshot (ps : Persister) : bytes := clone (ps_snapshot ps).
Definition SnapshotSize (ps : Persister) : Z := len (ps_snapshot ps).

(** ** The peer

    [peers] is [len(rf.peers)]; [votedFor] is the pointer, [None] for [nil];
    [lastHeartBeat] is a reading of the clock in nanoseconds.  The mutex, the
    condition variables and the channel are not state of the model: each
    definition below is one critical section, and any of them may run next. *)

Record Raft (Cmd : Type) := mkRaft {
  peers : nat;
  persister : Persister;
  me : Z;
  dead : bool;
  state : raftState;
  currentTerm : Z;
  log : list (logEntry Cmd);
  votedFor : option Z;
  snapshot : bytes;
  snapshotIndex : Z;
  snapshotTerm : Z;
  commitIndex : Z;
  lastApplied : Z;
  nextIndex : list Z;
  matchIndex : list Z;
  lastHeartBeat : Z;
  applyQueue : list (ApplyMsg Cmd);
}.
Arguments mkRaft {Cmd}.
Arguments peers {Cmd} _.
Arguments persister {Cmd} _.
Arguments me {Cmd} _.
Arguments dead {Cmd} _.
Arguments state {Cmd} _.
Arguments currentTerm {Cmd} _.
Arguments log {Cmd} _.
Arguments votedFor {Cmd} _.
Arguments snapshot {Cmd} _.
Arguments snapshotIndex {Cmd} _.
Arguments snapshotTerm {Cmd} _.
Arguments commitIndex {Cmd} _.
Arguments lastApplied {Cmd} _.
Arguments nextIndex {Cmd} _.
Arguments matchIndex {Cmd} _.
Arguments lastHeartBeat {Cmd} _.
Arguments applyQueue {Cmd} _.
Section setters.
Context {Cmd : Type}.
#[export] Instance set_peers : Setter (@peers Cmd) := λ f r,
  mkRaft (f (peers r)) (persister r) (me r) (dead r) (state r) (currentTerm r) (log r) (votedFor r) (snapshot r) (snapshotIndex r) (snapshotTerm r) (commitIndex r) (lastApplied r) (nextIndex r) (matchIndex r) (lastHeartBeat r) (applyQueue r).
#[export] Instance set_persister : Setter (@persister Cmd) := λ f r,
  mkRaft (peers r) (f (persister r)) (me r) (dead r) (state r) (currentTerm r) (log r) (votedFor r) (snapshot r) (snapshotIndex r) (snapshotTerm r) (commitIndex r) (lastApplied r) (nextIndex r) (matchIndex r) (lastHeartBeat r) (applyQueue r).
#[export] Instance set_me : Setter (@me Cmd) := λ f r,
  mkRaft (peers r) (persister r) (f (me r)) (dead r) (state r) (currentTerm r) (log r) (votedFor r) (snapshot r) (snapshotIndex r) (snapshotTerm r) (commitIndex r) (lastApplied r) (nextIndex r) (matchIndex r) (lastHeartBeat r) (applyQueue r).
#[export] Instance set_dead : Setter (@dead Cmd) := λ f r,
  mkRaft (peers r) (persister r) (me r) (f (dead r)) (state r) (currentTerm r) (log r) (votedFor r) (snapshot r) (snapshotIndex r) (snapshotTerm r) (commitIndex r) (lastApplied r) (nextIndex r) (matchIndex r) (lastHeartBeat r) (applyQueue r).
#[export] Instance set_state : Setter (@state Cmd) := λ f r,
  mkRaft (peers r) (persister r) (me r) (dead r) (f (state r)) (currentTerm r) (log r) (votedFor r) (snapshot r) (snapshotIndex r) (snapshotTerm r) (commitIndex r) (lastApplied r) (nextIndex r) (matchIndex r) (lastHeartBeat r) (applyQueue r).
#[export] Instance set_currentTerm : Setter (@currentTerm Cmd) := λ f r,
  mkRaft (peers r) (persister r) (me r) (dead r) (state r) (f (currentTerm r)) (log r) (votedFor r) (snapshot r) (snapshotIndex r) (snapshotTerm r) (commitIndex r) (lastApplied r) (nextIndex r) (matchIndex r) (lastHeartBeat r) (applyQueue r).
#[export] Instance set_log : Setter (@log Cmd) := λ f r,
  mkRaft (peers r) (persister r) (me r) (dead r) (state r) (currentTerm r) (f (log r)) (votedFor r) (snapshot r) (snapshotIndex r) (snapshotTerm r) (commitIndex r) (lastApplied r) (nextIndex r) (matchIndex r) (lastHeartBeat r) (applyQueue r).
#[export] Instance set_votedFor : Setter (@votedFor Cmd) := λ f r,
  mkRaft (peers r) (persister r) (me r) (dead r) (state r) (currentTerm r) (log r) (f (votedFor r)) (snapshot r) (snapshotIndex r) (snapshotTerm r) (commitIndex r) (lastApplied r) (nextIndex r) (matchIndex r) (lastHeartBeat r) (applyQueue r).
#[export] Instance set_snapshot : Setter (@snapshot Cmd) := λ f r,
  mkRaft (peers r) (persister r) (me r) (dead r) (state r) (currentTerm r) (log r) (votedFor r) (f (snapshot r)) (snapshotIndex r) (snapshotTerm r) (commitIndex r) (lastApplied r) (nextIndex r) (matchIndex r) (lastHeartBeat r) (applyQueue r).
#[export] Instance set_snapshotIndex : Setter (@snapshotIndex Cmd) := λ f r,
  mkRaft (peers r) (persister r) (me r) (dead r) (state r) (currentTerm r) (log r) (votedFor r) (snapshot r) (f (snapshotIndex r)) (snapshotTerm r) (commitIndex r) (lastApplied r) (nextIndex r) (matchIndex r) (lastHeartBeat r) (applyQueue r).
#[export] Instance set_snapshotTerm : Setter (@snapshotTerm Cmd) := λ f r,
  mkRaft (peers r) (persister r) (me r) (dead r) (state r) (currentTerm r) (log r) (votedFor r) (snapshot r) (snapshotIndex r) (f (snapshotTerm r)) (commitIndex r) (lastApplied r) (nextIndex r) (matchIndex r) (lastHeartBeat r) (applyQueue r).
#[export] Instance set_commitIndex : Setter (@commitIndex Cmd) := λ f r,
  mkRaft (peers r) (persister r) (me r) (dead r) (state r) (currentTerm r) (log r) (votedFor r) (snapshot r) (snapshotIndex r) (snapshotTerm r) (f (commitIndex r)) (lastApplied r) (nextIndex r) (matchIndex r) (lastHeartBeat r) (applyQueue r).
#[export] Instance set_lastApplied : Setter (@lastApplied Cmd) := λ f r,
  mkRaft (peers r) (persister r) (me r) (dead r) (state r) (currentTerm r) (log r) (votedFor r) (snapshot r) (snapshotIndex r) (snapshotTerm r) (commitIndex r) (f (lastApplied r)) (nextIndex r) (matchIndex r) (lastHeartBeat r) (applyQueue r).
#[export] Instance set_nextIndex : Setter (@nextIndex Cmd) := λ f r,
  mkRaft (peers r) (persister r) (me r) (dead r) (state r) (currentTerm r) (log r) (votedFor r) (snapshot r) (snapshotIndex r) (snapshotTerm r) (commitIndex r) (lastApplied r) (f (nextIndex r)) (matchIndex r) (lastHeartBeat r) (applyQueue r).
#[export] Instance set_matchIndex : Setter (@matchIndex Cmd) := λ f r,
  mkRaft (peers r) (persister r) (me r) (dead r) (state r) (currentTerm r) (log r) (votedFor r) (snapshot r) (snapshotIndex r) (snapshotTerm r) (commitIndex r) (lastApplied r) (nextIndex r) (f (matchIndex r)) (lastHeartBeat r) (applyQueue r).
#[export] Instance set_lastHeartBeat : Setter (@lastHeartBeat Cmd) := λ f r,
  mkRaft (peers r) (persister r) (me r) (dead r) (state r) (currentTerm r) (log r) (votedFor r) (snapshot r) (snapshotIndex r) (snapshotTerm r) (commitIndex r) (lastApplied r) (nextIndex r) (matchIndex r) (f (lastHeartBeat r)) (applyQueue r).
#[export] Instance set_applyQueue : Setter (@applyQueue Cmd) := λ f r,
  mkRaft (peers r) (persister r) (me r) (dead r) (state r) (currentTerm r) (log r) (votedFor r) (snapshot r) (snapshotIndex r) (snapshotTerm r) (commitIndex r) (lastApplied r) (nextIndex r) (matchIndex r) (lastHeartBeat r) (f (applyQueue r)).
End setters.

(** ** RPC arguments and replies *)

Record RequestVoteArgs := mkRVArgs {
  rv_Term : Z;
  rv_CandiateId : Z;
  rv_LastLogIndex : Z;
  rv_LastLogTerm : Z;
}.

Record RequestVoteReply := mkRVReply {
  rvr_Term : Z;
  rvr_VoteGranted : bool;
}.

Record AppendEntriesArgs (Cmd : Type) := mkAEArgs {
  ae_Term : Z;
  ae_LeaderId : Z;
  ae_PrevLogIndex : Z;
  ae_PrevLogTerm : Z;
  ae_Entries : list (logEntry Cmd);
  ae_LeaderCommit : Z;
}.
Arguments mkAEArgs {Cmd}.
Arguments ae_Term {Cmd} _.
Arguments ae_LeaderId {Cmd} _.
Arguments ae_PrevLogIndex {Cmd} _.
Arguments ae_PrevLogTerm {Cmd} _.
Arguments ae_Entries {Cmd} _.
Arguments ae_LeaderCommit {Cmd} _.

Record AppendEntriesReply := mkAEReply {
  aer_Term : Z;
  aer_Success : bool;
  aer_PrevLogIndex : Z;
  aer_PrevLogTerm : Z;
  aer_LastApplied : Z;
}.

Record InstallSnapshotArgs := mkISArgs {
  is_Term : Z;
  is_LeaderId : Z;
  is_LastIncludedInternal : Z;
  is_LastIncludedIndex : Z;
  is_LastIncludedTerm : Z;
  is_Data : bytes;
}.

Record InstallSnapshotReply := mkISReply { isr_Term : Z }.

(** ** Index conversions *)

Section indices.
Context {Cmd : Type}.
Implicit Types (rf : Raft Cmd).

(** [globalIndex], [localIndex] and [globalLogLen] read [rf.log[0]]. *)
Definition localIndex rf (global : Z) : outcome Z :=
  e ← slice_get (log rf) 0; mret (global - Index e).

Definition globalIndex rf (local : Z) : outcome Z :=
  e ← slice_get (log rf) 0; mret (local + Index e).

Definition globalLogLen rf : outcome Z :=
  e ← slice_get (log rf) 0; mret (len (log rf) + Index e).

(** The loop of [internalIndex]: [index] is the last position visited. *)
Fixpoint internalIndex_loop (l : list (logEntry Cmd)) (i index cnt target : Z) : Z :=
  match l with
  | [] => index
  | e :: l =>
      let cnt := if decide (Type_ e ≠ LT_Noop) then cnt + 1 else cnt in
      if decide (cnt = target) then i
      else internalIndex_loop l (i + 1) i cnt target
  end.

Definition internalIndex rf (external : Z) : outcome Z :=
  let target := external - snapshotIndex rf in
  globalIndex rf (internalIndex_loop (log rf) 0 0 0 target).

(** The loop of [externalIndex], [n] iterations from position [i]. *)
Fixpoint externalIndex_loop (l : list (logEntry Cmd)) (i : Z) (n : nat) (index : Z) : outcome Z :=
  match n with
  | O => mret index
  | S n =>
      e ← slice_get l i;
      externalIndex_loop l (i + 1) n
        (if decide (Type_ e ≠ LT_Noop) then index + 1 else index)
  end.

Definition externalIndex rf (internal : Z) : outcome Z :=
  target ← localIndex rf internal;
  index ← externalIndex_loop (log rf) 1 (Z.to_nat target) 0;
  mret (index + snapshotIndex rf).

End indices.
