(* ===== verification/RaftNode.v ===== *)
(** * Raft: what one peer does

    Every function of [src/raft/raft.go] that reads or changes the state of a
    peer, one definition per critical section: persistence, the three RPC
    handlers, the client interface, elections, the apply loop and the tasks of
    a leader.  A handler takes the peer and the arguments and returns the peer
    and the reply. *)

From S2P Require Import Prelude Serial RaftState.
Local Open Scope Z_scope.

Section node.
Context {Cmd : Type}.
Implicit Types (rf : Raft Cmd).

(** ** Persistent state

    The six values [persist] encodes, in its order; the vote is written as
    [-1] when there is none. *)
Definition persistent : Type :=
  (raftState * Z * list (logEntry Cmd) * Z * Z * Z)%type.

Context `{Codec persistent}.

Definition voteCode (v : option Z) : Z :=
  match v with None => -1 | Some i => i end.

Definition persist rf : Raft Cmd :=
  let raftstate := enc (state rf, currentTerm rf, log rf,
                        snapshotIndex rf, snapshotTerm rf, voteCode (votedFor rf)) in
  rf <| persister := Save (persister rf) raftstate (snapshot rf) |>.

Definition readPersist (data : bytes) rf : outcome (Raft Cmd) :=
  if decide (length data < 1)%nat then mret rf
  else
    match dec data with
    | None => mret rf
    | Some (_state, _currentTerm, _log, _snapshotIndex, _snapshotTerm, tmp) =>
        let _votedFor := if decide (tmp = -1) then None else Some tmp in
        let rf := rf <| state := _state |> <| currentTerm := _currentTerm |>
                     <| log := _log |> <| votedFor := _votedFor |>
                     <| snapshot := ReadSnapshot (persister rf) |>
                     <| snapshotIndex := _snapshotIndex |>
                     <| snapshotTerm := _snapshotTerm |> in
        e ← slice_get (log rf) 0;
        mret (rf <| lastApplied := Index e |>)
    end.

Definition GetState rf : Z * bool :=
  (currentTerm rf, bool_decide (state rf = RS_Leader)).

(** ** [Snapshot]: the service has a snapshot up to external index [index] *)
Definition Snapshot (index : Z) (snap : bytes) rf : outcome (Raft Cmd) :=
  let prevSnapshotIndex := snapshotIndex rf in
  prevIndex ← internalIndex rf index;
  if decide (prevSnapshotIndex >= index) then mret rf
  else if decide (lastApplied rf < prevIndex) then mret rf
  else
    k ← localIndex rf prevIndex;
    l ← slice_from (log rf) k;
    e ← slice_get l 0;
    let rf := rf <| log := l |> <| snapshot := snap |>
                 <| snapshotIndex := index |> <| snapshotTerm := Term e |> in
    l ← slice_set (log rf) 0 (mkEntry (Term e) LT_Noop (Index e) (Command e));
    mret (persist (rf <| log := l |>)).

(** ** [RequestVote] *)
Definition RequestVote (now : Z) (args : RequestVoteArgs) rf
  : outcome (Raft Cmd * RequestVoteReply) :=
  let reply := mkRVReply (currentTerm rf) false in
  lastLogIndex ← globalLogLen rf;
  last ← slice_get (log rf) (len (log rf) - 1);
  let lastLogTerm := Term last in
  if decide (rv_Term args < currentTerm rf) then mret (rf, reply)
  else
    let rf :=
      if decide (rv_Term args > currentTerm rf) then
        persist (rf <| currentTerm := rv_Term args |>
                    <| votedFor := None |> <| state := RS_Follower |>)
      else rf in
    let isUpToDate :=
      (rv_LastLogTerm args > lastLogTerm) ∨
      (rv_LastLogTerm args = lastLogTerm ∧ rv_LastLogIndex args >= lastLogIndex) in
    if decide (¬ isUpToDate) then mret (rf, reply)
    else if decide (votedFor rf ≠ None ∧ votedFor rf ≠ Some (rv_CandiateId args))
    then mret (rf, reply)
    else if decide ((votedFor rf = None ∨ votedFor rf = Some (rv_CandiateId args))
                    ∧ isUpToDate)
    then
      let rf := persist (rf <| currentTerm := rv_Term args |>
                            <| votedFor := Some (rv_CandiateId args) |>
                            <| lastHeartBeat := now |> <| state := RS_Follower |>) in
      mret (rf, mkRVReply (currentTerm rf) true)
    else Fatal.

(** ** [AppendEntries] *)

(** The loop that compares the entries of a fix package with the log; the
    result is the value of [i] after the loop. *)
Fixpoint prefixCheck rf (all es : list (logEntry Cmd)) (i : Z) : outcome Z :=
  match es with
  | [] => mret i
  | e :: es =>
      k ← localIndex rf (i + lastApplied rf + 1);
      if decide (k < len (log rf)) then
        if decide (k < 0) then mret (len all)
        else
          e' ← slice_get (log rf) k;
          if decide (Term e ≠ Term e') then mret i
          else prefixCheck rf all es (i + 1)
      else mret i
  end.

(** State synchronisation: the term, the role and the heartbeat clock. *)
Definition syncState (now : Z) (args : AppendEntriesArgs Cmd) rf : Raft Cmd :=
  let rf := if decide (ae_Term args > currentTerm rf)
            then rf <| votedFor := None |> else rf in
  (persist (rf <| currentTerm := ae_Term args |> <| state := RS_Follower |>))
    <| lastHeartBeat := now |>.

Definition AppendEntries (now : Z) (args : AppendEntriesArgs Cmd) rf
  : outcome (Raft Cmd * AppendEntriesReply) :=
  if decide (ae_Term args < currentTerm rf)
  then mret (rf, mkAEReply (currentTerm rf) false 0 0 0)
  else
    let rf := syncState now args rf in
    gll ← globalLogLen rf;
    let prevLogIndex := gll - 1 in
    last ← slice_get (log rf) (len (log rf) - 1);
    let prevLogTerm := Term last in
    let reply success :=
      mkAEReply (currentTerm rf) success prevLogIndex prevLogTerm (lastApplied rf) in
    if decide (prevLogIndex = ae_PrevLogIndex args ∧ prevLogTerm = ae_PrevLogTerm args) then
      let rf := persist (rf <| log := log rf ++ ae_Entries args |>) in
      mret (rf <| commitIndex := ae_LeaderCommit args |>, reply true)
    else if decide (prevLogIndex > ae_PrevLogIndex args
                    ∧ ae_PrevLogIndex args = lastApplied rf) then
      i ← prefixCheck rf (ae_Entries args) (ae_Entries args) 0;
      if decide (i = len (ae_Entries args)) then mret (rf, reply true)
      else
        k ← localIndex rf (lastApplied rf + 1);
        l ← slice_upto (log rf) k;
        let rf := persist (rf <| log := l ++ ae_Entries args |>) in
        mret (rf <| commitIndex := ae_LeaderCommit args |>, reply true)
    else if decide (prevLogIndex ≠ ae_PrevLogIndex args ∨ prevLogTerm ≠ ae_PrevLogTerm args)
    then mret (rf, reply false)
    else Fatal.

(** ** [InstallSnapshot] *)

(** Figure 13, step 6: keep the entries after the snapshot when the log has
    the last included entry, drop the whole log otherwise. *)
Definition snapshotLog (args : InstallSnapshotArgs) rf : outcome (list (logEntry Cmd)) :=
  k ← localIndex rf (is_LastIncludedInternal args);
  keep ← (if decide (k >= 0 ∧ k < len (log rf)) then
            e ← slice_get (log rf) k;
            mret (bool_decide (is_LastIncludedTerm args = Term e))
          else mret false);
  let first := mkEntry (is_LastIncludedTerm args) LT_Noop
                 (is_LastIncludedInternal args) None in
  if keep : bool then
    l ← slice_from (log rf) k;
    slice_set l 0 first
  else mret [first].

Definition InstallSnapshot (args : InstallSnapshotArgs) rf
  : outcome (Raft Cmd * InstallSnapshotReply) :=
  let reply := mkISReply (currentTerm rf) in
  if decide (is_Term args < currentTerm rf) then mret (rf, reply)
  else if decide (is_LastIncludedIndex args < snapshotIndex rf) then mret (rf, reply)
  else if decide (is_LastIncludedIndex args = snapshotIndex rf) then mret (rf, reply)
  else
    l ← snapshotLog args rf;
    let rf := persist (rf <| log := l |> <| state := RS_Follower |>
                          <| snapshot := is_Data args |>
                          <| snapshotIndex := is_LastIncludedIndex args |>
                          <| snapshotTerm := is_LastIncludedTerm args |>) in
    e ← slice_get (log rf) 0;
    let q := ApplyQueue.Enqueue (ApplyQueue.Clean (applyQueue rf))
               (snapshotMsg (is_Data args) (is_LastIncludedIndex args)
                  (is_LastIncludedTerm args)) in
    mret (rf <| lastApplied := Index e |> <| commitIndex := Index e |>
             <| applyQueue := q |>, reply).

(** ** [Start]: the service submits a command *)
Definition Start (command : option Cmd) rf : outcome (Raft Cmd * (Z * Z * bool)) :=
  if decide (state rf ≠ RS_Leader) then mret (rf, (-1, -1, false))
  else
    gll ← globalLogLen rf;
    let newLog := mkEntry (currentTerm rf) LT_Normal gll command in
    let rf := persist (rf <| log := log rf ++ [newLog] |>) in
    gll ← globalLogLen rf;
    next ← slice_set (nextIndex rf) (me rf) gll;
    mtch ← slice_set (matchIndex rf) (me rf) (gll - 1);
    let rf := rf <| nextIndex := next |> <| matchIndex := mtch |> in
    externIndex ← externalIndex rf (gll - 1);
    mret (rf, (externIndex, currentTerm rf, true)).

Definition Kill rf : Raft Cmd := rf <| dead := true |>.
Definition killed rf : bool := dead rf.

(** ** Elections *)

(** The first critical section of [ticker]: on a timeout the peer becomes a
    candidate; the clock is then reset.  [None]: nothing to do. *)
Definition ticker_timeout (now : Z) rf : option (Raft Cmd) :=
  if decide (state rf ≠ RS_Leader ∧ now - lastHeartBeat rf > TM_ElectionTimeout)
  then Some ((persist (rf <| state := RS_Candiate |>)) <| lastHeartBeat := now |>)
  else None.

(** The inner loop of [ticker]: whether the running election is cancelled. *)
Definition ticker_cancels (now : Z) (cancelToken : bool) rf : bool :=
  bool_decide (now - lastHeartBeat rf > TM_ElectionTimeout) || cancelToken
  || bool_decide (state rf ≠ RS_Candiate) || killed rf.

(** The variables that the goroutines of one election share. *)
Record Election := mkElection {
  votedForTerm : Z;
  voteArgs : RequestVoteArgs;
  ballotCount : Z;
  isCancel : bool;
  cancelToken : bool;
}.

Definition election_start rf : outcome (Raft Cmd * Election) :=
  let rf := persist (rf <| votedFor := Some (me rf) |>
                        <| currentTerm := currentTerm rf + 1 |>) in
  gll ← globalLogLen rf;
  last ← slice_get (log rf) (len (log rf) - 1);
  let args := mkRVArgs (currentTerm rf) (me rf) gll (Term last) in
  mret (rf, mkElection (currentTerm rf) args 1 false false).

(** What the goroutine of one server does with the reply to its request. *)
Definition election_reply (reply : RequestVoteReply) (el : Election) : Election :=
  if cancelToken el then el
  else if negb (rvr_VoteGranted reply) && bool_decide (rvr_Term reply > votedForTerm el)
  then mkElection (votedForTerm el) (voteArgs el) (ballotCount el) true
         (if isCancel el then cancelToken el else true)
  else if rvr_VoteGranted reply
  then mkElection (votedForTerm el) (voteArgs el) (ballotCount el + 1)
         (isCancel el) (cancelToken el)
  else el.

(** [nextIndex] and [matchIndex] of every other peer, after an election. *)
Definition reinitPeers (gll : Z) (meId : Z) (n : nat) (next mtch : list Z)
  : outcome (list Z * list Z) :=
  for_range (λ '(next, mtch) (i : nat),
      if decide (Z.of_nat i = meId) then mret (next, mtch)
      else
        next ← slice_set next (Z.of_nat i) gll;
        mtch ← slice_set mtch (Z.of_nat i) 0;
        mret (next, mtch))
    (next, mtch) (seq 0 n).

Definition majority rf : Z := Z.of_nat (peers rf) / 2 + 1.

(** The last critical section of [election], with the number of ballots read
    before the lock: [true] when the peer has become the leader. *)
Definition election_promote (ballot : Z) rf : outcome (Raft Cmd * bool) :=
  if decide (state rf = RS_Candiate ∧ ballot >= majority rf) then
    let rf := persist (rf <| state := RS_Leader |>) in
    gll ← globalLogLen rf;
    nm ← reinitPeers gll (me rf) (peers rf) (nextIndex rf) (matchIndex rf);
    let rf := rf <| nextIndex := nm.1 |> <| matchIndex := nm.2 |> in
    let newLog := mkEntry (currentTerm rf) LT_Noop gll None in
    let rf := persist (rf <| log := log rf ++ [newLog] |>) in
    gll ← globalLogLen rf;
    next ← slice_set (nextIndex rf) (me rf) gll;
    mtch ← slice_set (matchIndex rf) (me rf) (gll - 1);
    mret (rf <| nextIndex := next |> <| matchIndex := mtch |>, true)
  else mret (rf, false).

(** ** The apply loop

    One pass of the loop of [applyEntries] over the committed entries; every
    iteration moves [lastApplied] by one, so the length of the log bounds it. *)
Fixpoint applyEntries_loop (fuel : nat) rf : outcome (Raft Cmd) :=
  match fuel with
  | O => OutOfFuel
  | S fuel =>
      let i := lastApplied rf + 1 in
      gll ← globalLogLen rf;
      k ← localIndex rf i;
      if decide (i <= commitIndex rf ∧ i < gll ∧ k > 0) then
        e ← slice_get (log rf) k;
        if decide (Type_ e = LT_Normal) then
          ext ← externalIndex rf i;
          let q := ApplyQueue.Enqueue (applyQueue rf) (commandMsg (Command e) ext) in
          applyEntries_loop fuel (rf <| applyQueue := q |> <| lastApplied := i |>)
        else if decide (Type_ e = LT_Noop) then
          applyEntries_loop fuel (rf <| lastApplied := i |>)
        else mret rf
      else mret rf
  end.

Definition applyEntries rf : outcome (Raft Cmd) :=
  gll ← globalLogLen rf;
  applyEntries_loop (S (Z.to_nat (gll - lastApplied rf))) rf.

(** The sender goroutine takes one message off the queue. *)
Definition applySend rf : option (ApplyMsg Cmd) * Raft Cmd :=
  let '((m, ok), q) := ApplyQueue.Dequeue (applyQueue rf) in
  if ok : bool then (Some m, rf <| applyQueue := q |>) else (None, rf).

(** ** The tasks of a leader *)

(** [syncEntries] for one follower: the request, and the value of [nextIndex]
    that a successful reply installs. *)
Definition realNextIndex rf (server : Z) : outcome Z :=
  next ← slice_get (nextIndex rf) server;
  g1 ← globalIndex rf 1;
  gll ← globalLogLen rf;
  mret (if decide (next < g1) then g1 else if decide (next > gll) then gll else next).

Definition syncArgs rf (server : Z) : outcome (AppendEntriesArgs Cmd * Z) :=
  next ← realNextIndex rf server;
  k ← localIndex rf (next - 1);
  prev ← slice_get (log rf) k;
  k' ← localIndex rf next;
  entries ← slice_from (log rf) k';
  gll ← globalLogLen rf;
  mret (mkAEArgs (currentTerm rf) (me rf) (next - 1) (Term prev) entries (commitIndex rf),
        gll).

Definition syncEntries (cancelToken : bool) rf
  : outcome (list (Z * (AppendEntriesArgs Cmd * Z))) :=
  if cancelToken then mret []
  else
    for_range (λ reqs (i : nat),
        if decide (Z.of_nat i = me rf) then mret reqs
        else
          a ← syncArgs rf (Z.of_nat i);
          mret (reqs ++ [(Z.of_nat i, a)]))
      [] (seq 0 (peers rf)).

(** A reply with [Success]. *)
Definition syncSuccess (server newNextIndex : Z) rf : outcome (Raft Cmd) :=
  next ← slice_set (nextIndex rf) server newNextIndex;
  let rf := rf <| nextIndex := next |> in
  m ← slice_get (matchIndex rf) server;
  if decide (m <= newNextIndex - 1) then
    mtch ← slice_set (matchIndex rf) server (newNextIndex - 1);
    mret (rf <| matchIndex := mtch |>)
  else mret rf.

(** The disjunction of [handleFailedReply], cases 1 and 2. *)
Definition fail_case12 (args : AppendEntriesArgs Cmd) (reply : AppendEntriesReply) rf
  : outcome bool :=
  k ← localIndex rf (aer_PrevLogIndex reply + 1);
  gll ← globalLogLen rf;
  if decide (k > 0) then
    if decide (aer_PrevLogTerm reply = ae_PrevLogTerm args
               ∧ aer_PrevLogIndex reply < ae_PrevLogIndex args) then mret true
    else if decide (aer_PrevLogIndex reply ≠ ae_PrevLogIndex args
                    ∧ aer_PrevLogIndex reply < gll) then
      k' ← localIndex rf (aer_PrevLogIndex reply);
      e ← slice_get (log rf) k';
      mret (bool_decide (aer_PrevLogTerm reply = Term e))
    else mret false
  else mret false.

(** Cases 3 and 4. *)
Definition fail_case34 (args : AppendEntriesArgs Cmd) (reply : AppendEntriesReply) rf
  : outcome bool :=
  ka ← localIndex rf (aer_LastApplied reply + 1);
  k ← localIndex rf (aer_PrevLogIndex reply);
  gll ← globalLogLen rf;
  if decide (ka >= 0 ∧ k >= 0) then
    if decide (aer_PrevLogIndex reply >= ae_PrevLogIndex args) then mret true
    else if decide (aer_PrevLogIndex reply >= gll) then mret true
    else if decide (aer_PrevLogIndex reply < ae_PrevLogIndex args) then
      e ← slice_get (log rf) k;
      mret (bool_decide (aer_PrevLogTerm reply ≠ Term e))
    else mret false
  else mret false.

(** What [handleFailedReply] decides in its first critical section. *)
Inductive failAction :=
| FA_Cancel                            (* a higher term: stop leading *)
| FA_Next                              (* nextIndex was moved *)
| FA_Install (args : InstallSnapshotArgs).  (* send the snapshot *)

Definition handleFailedReply (server : Z) (args : AppendEntriesArgs Cmd)
    (reply : AppendEntriesReply) rf : outcome (Raft Cmd * failAction) :=
  if decide (currentTerm rf < aer_Term reply) then mret (rf, FA_Cancel)
  else
    c12 ← fail_case12 args reply rf;
    if c12 : bool then
      next ← slice_set (nextIndex rf) server (aer_PrevLogIndex reply + 1);
      mret (rf <| nextIndex := next |>, FA_Next)
    else
      c34 ← fail_case34 args reply rf;
      if c34 : bool then
        next ← slice_set (nextIndex rf) server (aer_LastApplied reply + 1);
        mret (rf <| nextIndex := next |>, FA_Next)
      else
        k1 ← localIndex rf (aer_PrevLogIndex reply + 1);
        k2 ← localIndex rf (aer_LastApplied reply + 1);
        k3 ← localIndex rf (aer_PrevLogIndex reply);
        if decide (k1 < 0 ∨ k2 < 0 ∨ k3 < 0) then
          e ← slice_get (log rf) 0;
          mret (rf, FA_Install (mkISArgs (currentTerm rf) (me rf) (Index e)
                                  (snapshotIndex rf) (Term e) (snapshot rf)))
        else Fatal.

(** Its second critical section, when the follower has answered the snapshot;
    [true] when the leader must stop. *)
Definition snapshotReplied (server : Z) (args : InstallSnapshotArgs)
    (reply : InstallSnapshotReply) rf : outcome (Raft Cmd * bool) :=
  if decide (currentTerm rf < isr_Term reply) then mret (rf, true)
  else
    next ← slice_set (nextIndex rf) server (is_LastIncludedIndex args + 1);
    mret (rf <| nextIndex := next |>, false).

(** [commitCheck]: the number of peers known to hold index [N]. *)
Definition matchCount (mtch : list Z) (N : Z) : Z :=
  len (filter (λ index, index >= N) mtch).

Fixpoint commitCheck_loop (fuel : nat) rf (gll N newCommitIndex : Z) (changed : bool)
  : outcome (Z * bool) :=
  match fuel with
  | O => OutOfFuel
  | S fuel =>
      if decide (newCommitIndex < gll) then
        if decide (matchCount (matchIndex rf) N >= majority rf)
        then commitCheck_loop fuel rf gll (N + 1) N true
        else mret (newCommitIndex, changed)
      else mret (newCommitIndex, changed)
  end.

Definition commitCheck rf : outcome (Raft Cmd) :=
  let N := commitIndex rf + 1 in
  gll ← globalLogLen rf;
  r ← commitCheck_loop (S (S (Z.to_nat (gll - N)))) rf gll N N false;
  let '(newCommitIndex, changed) := r in
  if changed : bool then
    k ← localIndex rf newCommitIndex;
    commits ← (if decide (k < 0) then mret true
               else if decide (newCommitIndex < gll) then
                 e ← slice_get (log rf) k;
                 mret (bool_decide (Term e = currentTerm rf))
               else mret false);
    if commits : bool then
      (* an argument of the debugging print *)
      _ ← externalIndex rf newCommitIndex;
      mret (rf <| commitIndex := newCommitIndex |>)
    else mret rf
  else mret rf.

(** The test of the loop of [serveAsLeader]: stop when the term has moved on. *)
Definition serveAsLeader_stops (term : Z) (cancelToken : bool) rf : bool :=
  cancelToken || killed rf || bool_decide (state rf ≠ RS_Leader)
  || bool_decide (currentTerm rf ≠ term).

(** The loop around a remote call in [election], [syncEntries] and
    [handleFailedReply], while the task is not cancelled: the answers of the
    successive calls ([None]: the call failed), and the reply that is used.
    [None] when the goroutine gives up or is still trying. *)
Fixpoint sendRetry {R} (calls : list (option R)) (retryCount : Z) : option R :=
  match calls with
  | [] => None
  | reply :: calls =>
      if decide (retryCount + 1 >= MAX_RETRY_TIMES) then None
      else match reply with
           | Some r => Some r
           | None => sendRetry calls (retryCount + 1)
           end
  end.

(** ** [Make]: create a peer, or restart it from its persister *)
Definition initRaft (n : nat) (meId : Z) (ps : Persister) (now : Z) : Raft Cmd :=
  mkRaft n ps meId false RS_Follower 1 [mkEntry 1 LT_Noop 0 None] None
    [] 0 0 0 1 [] [] now [].

Definition Make (n : nat) (meId : Z) (ps : Persister) (now : Z) : outcome (Raft Cmd) :=
  rf ← readPersist (ReadRaftState ps) (initRaft n meId ps now);
  rf ← (if decide (length (snapshot rf) ≠ 0%nat) then
          e ← slice_get (log rf) 0;
          let q := ApplyQueue.Enqueue (ApplyQueue.Clean (applyQueue rf))
                     (snapshotMsg (snapshot rf) (snapshotIndex rf) (snapshotTerm rf)) in
          mret (rf <| applyQueue := q |> <| lastApplied := Index e |>)
        else mret rf);
  gll ← globalLogLen rf;
  mret (rf <| nextIndex := replicate n gll |> <| matchIndex := replicate n 0 |>).

End node.

(** A concrete codec for peers whose commands are integers, used by the
    examples of the next files. *)
Definition Zcodec : Codec (@persistent Z) := serial_codec persistent.

Lemma Zcodec_laws : @CodecLaws _ Zcodec.
Proof. apply serial_codec_laws; apply _. Qed.
