(* ===== verification/RaftInv.v ===== *)
(** * Raft: the invariant of a peer

    [wf] is the well-formedness of a peer: the log is never empty, its entries
    are numbered consecutively from the snapshot entry, which is a no-op, and
    [lastApplied] lies inside it.  Every critical section of [RaftNode] returns
    on a well-formed peer (no panic, none of the [log.Fatalf] calls marked
    unreachable) and keeps it well formed. *)

From S2P Require Import Prelude RaftState RaftNode.
Local Open Scope Z_scope.

Section inv.
Context {Cmd : Type} `{Codec (@persistent Cmd)}.
Implicit Types (rf : Raft Cmd) (l : list (logEntry Cmd)).

(** ** Logs *)

(** The entries of [l] are numbered [b], [b+1], ... *)
Definition contiguous (b : Z) l : Prop :=
  ∀ i e, l !! i = Some e → Index e = b + Z.of_nat i.

(** The index of the first entry of a log, and the index after its last. *)
Definition baseL l : Z := match l with [] => 0 | e :: _ => Index e end.
Definition gendL l : Z := baseL l + len l.
Abbreviation base rf := (baseL (log rf)).
Abbreviation gend rf := (gendL (log rf)).

Lemma contiguous_nil b : contiguous b [].
Proof. intros i e. by rewrite lookup_nil. Qed.

Lemma contiguous_app b l1 l2 :
  contiguous b (l1 ++ l2) ↔ contiguous b l1 ∧ contiguous (b + len l1) l2.
Proof.
  unfold contiguous, len. split.
  - intros Hc. split; intros i e Hi.
    + apply Hc. by apply lookup_app_l_Some.
    + rewrite (Hc (length l1 + i)%nat); [lia|].
      rewrite lookup_app_r by lia. by replace (length l1 + i - length l1)%nat with i by lia.
  - intros [H1 H2] i e [Hi|[? Hi]]%lookup_app_Some; [by apply H1|].
    rewrite (H2 _ _ Hi). lia.
Qed.

Lemma contiguous_drop b l n :
  contiguous b l → contiguous (b + Z.of_nat n) (drop n l).
Proof. intros Hc i e Hi. rewrite lookup_drop in Hi. rewrite (Hc _ _ Hi). lia. Qed.

Lemma contiguous_take b l n : contiguous b l → contiguous b (take n l).
Proof. intros Hc i e [Hi _]%lookup_take_Some. by apply Hc. Qed.

Lemma contiguous_insert b l n e :
  contiguous b l → Index e = b + Z.of_nat n → contiguous b (<[n:=e]> l).
Proof.
  intros Hc He i e' Hi.
  apply list_lookup_insert_Some in Hi as [(-> & <- & _)|[_ Hi]]; [done|by apply Hc].
Qed.

Lemma contiguous_single b e : Index e = b → contiguous b [e].
Proof. intros He [|i] e' Hi; simplify_eq/=. lia. Qed.

(** ** The invariant *)

Record wf rf : Prop := {
  wf_ne : log rf ≠ [];
  wf_contig : contiguous (base rf) (log rf);
  wf_base : 0 ≤ base rf;
  wf_first : ∀ e, log rf !! 0%nat = Some e → Type_ e = LT_Noop;
  wf_one : ∀ e, e ∈ log rf → Index e = 1 → Type_ e = LT_Noop;
  wf_applied : base rf ≤ lastApplied rf ≤ Z.max 1 (gend rf - 1);
  wf_leader : state rf = RS_Leader → 2 ≤ gend rf;
  wf_next : length (nextIndex rf) = peers rf;
  wf_match : length (matchIndex rf) = peers rf;
  wf_me : 0 ≤ me rf < Z.of_nat (peers rf);
}.

(** What a follower may assume of the messages it gets: entries numbered from
    the previous index on, the first entry of the cluster a no-op. *)
Record aeOk (args : AppendEntriesArgs Cmd) : Prop := {
  ao_contig : contiguous (ae_PrevLogIndex args + 1) (ae_Entries args);
  ao_one : ∀ e, e ∈ ae_Entries args → Index e = 1 → Type_ e = LT_Noop;
}.

Definition isOk (args : InstallSnapshotArgs) : Prop := 0 ≤ is_LastIncludedInternal args.

Lemma log_first rf : log rf ≠ [] → ∃ e, log rf !! 0%nat = Some e ∧ Index e = base rf.
Proof. unfold baseL. destruct (log rf) as [|e l]; [done|]. intros _. by exists e. Qed.

Lemma len_log_pos rf : log rf ≠ [] → 1 ≤ len (log rf).
Proof. destruct (log rf) as [|e l]; [done|]. rewrite len_cons. pose proof (len_nonneg l). lia. Qed.

Lemma localIndex_eq rf g : log rf ≠ [] → localIndex rf g = Ret (g - base rf).
Proof. unfold localIndex. by destruct (log rf). Qed.

Lemma globalIndex_eq rf g : log rf ≠ [] → globalIndex rf g = Ret (g + base rf).
Proof. unfold globalIndex. by destruct (log rf). Qed.

Lemma globalLogLen_eq rf : log rf ≠ [] → globalLogLen rf = Ret (gend rf).
Proof.
  unfold globalLogLen, gendL. destruct (log rf); [done|]. intros _.
  simpl. f_equal. lia.
Qed.

Lemma log_last rf : log rf ≠ [] →
  ∃ e, slice_get (log rf) (len (log rf) - 1) = Ret e ∧ last (log rf) = Some e.
Proof.
  intros Hne. pose proof (len_log_pos rf Hne).
  destruct (slice_get_in (log rf) (len (log rf) - 1)) as (e & ? & He); [lia|].
  exists e. split; [done|]. rewrite last_lookup. rewrite <- He. f_equal. unfold len. lia.
Qed.

Lemma wf_lookup rf i e : wf rf → log rf !! i = Some e → Index e = base rf + Z.of_nat i.
Proof. intros Hwf. apply (wf_contig _ Hwf). Qed.

End inv.
Abbreviation base rf := (baseL (log rf)).
Abbreviation gend rf := (gendL (log rf)).

(** [gostep Hne] evaluates the reads of [rf.log[0]] under a hypothesis
    [Hne : log rf ≠ []]. *)
Ltac gostep Hne :=
  repeat first
    [ rewrite (localIndex_eq _ _ Hne) | rewrite (globalIndex_eq _ _ Hne)
    | rewrite (globalLogLen_eq _ Hne) | rewrite bind_Ret ].

Section preserve.
Context {Cmd : Type} `{Codec (@persistent Cmd)}.
Implicit Types (rf : Raft Cmd) (l : list (logEntry Cmd)).

(** ** Preservation *)

(** A step that leaves the log and the leader arrays alone and does not make a
    leader. *)
Lemma wf_same rf rf' :
  wf rf → log rf' = log rf → lastApplied rf' = lastApplied rf →
  (state rf' = RS_Leader → state rf = RS_Leader) →
  nextIndex rf' = nextIndex rf → matchIndex rf' = matchIndex rf →
  peers rf' = peers rf → me rf' = me rf → wf rf'.
Proof.
  intros [] Hl Ha Hs Hn Hm Hp Hme.
  split; rewrite ?Hl, ?Ha, ?Hn, ?Hm, ?Hp, ?Hme; auto.
Qed.

Lemma RequestVote_wf now args rf : wf rf →
  ∃ rf' reply, RequestVote now args rf = Ret (rf', reply) ∧ wf rf'.
Proof.
  intros Hwf. pose proof (wf_ne _ Hwf) as Hne. unfold RequestVote. gostep Hne.
  destruct (log_last rf Hne) as (e & -> & _). rewrite bind_Ret.
  repeat case_decide; (eexists _, _; split; [done|]) || tauto;
    eapply wf_same; eauto; done.
Qed.

(** Steps that keep the first [n] entries of the log and append others. *)
Lemma base_extend rf n es : (1 ≤ n)%nat → log rf ≠ [] →
  baseL (take n (log rf) ++ es) = base rf.
Proof. destruct n; [lia|]. by destruct (log rf). Qed.

Lemma gend_extend rf n es : (1 ≤ n ≤ length (log rf))%nat →
  gendL (take n (log rf) ++ es) = base rf + Z.of_nat n + len es.
Proof.
  intros Hn. unfold gendL. rewrite base_extend by (destruct (log rf); naive_solver lia).
  rewrite len_app, len_take. unfold len. lia.
Qed.

Lemma wf_extend rf rf' n es :
  wf rf → (1 ≤ n ≤ length (log rf))%nat →
  contiguous (base rf + Z.of_nat n) es →
  (∀ e, e ∈ es → Index e = 1 → Type_ e = LT_Noop) →
  log rf' = take n (log rf) ++ es → lastApplied rf' = lastApplied rf →
  lastApplied rf ≤ Z.max 1 (base rf + Z.of_nat n + len es - 1) →
  (state rf' = RS_Leader → 2 ≤ base rf + Z.of_nat n + len es) →
  length (nextIndex rf') = peers rf → length (matchIndex rf') = peers rf →
  peers rf' = peers rf → me rf' = me rf → wf rf'.
Proof.
  intros [Hne Hc Hb Hf Ho Ha Hld Hnx Hmt Hme] Hn Hes Hes1 Hl Hla Hle Hs Hn' Hm' Hp Hme'.
  split; rewrite ?Hl, ?Hla, ?Hp, ?Hme', ?(base_extend rf), ?(gend_extend rf); auto; try lia.
  - destruct (log rf); [done|]. destruct n; [lia|done].
  - apply contiguous_app. split; [by apply contiguous_take|].
    rewrite len_take. unfold len. by replace (Z.min _ _) with (Z.of_nat n) by lia.
  - intros e He. apply Hf. destruct (log rf); [done|]. destruct n; [lia|done].
  - intros e [He|He]%elem_of_app; [|by apply Hes1]. apply Ho.
    by eapply subseteq_take.
Qed.

Lemma prefixCheck_returns rf all es i : log rf ≠ [] → returns (prefixCheck rf all es i).
Proof.
  intros Hne. revert i. induction es as [|e es IH]; intros i; simpl; [by exists i|].
  gostep Hne. repeat case_decide; try by eexists.
  - destruct (slice_get_in (log rf) (i + lastApplied rf + 1 - base rf)) as (e' & -> & _); [lia|].
    rewrite bind_Ret. case_decide; [by eexists|]. apply IH.
Qed.

Lemma syncState_wf now args rf : wf rf → wf (syncState now args rf).
Proof. intros Hwf. unfold syncState. case_decide; eapply wf_same; eauto; done. Qed.

Lemma AppendEntries_wf now args rf : wf rf → aeOk args →
  ∃ rf' reply, AppendEntries now args rf = Ret (rf', reply) ∧ wf rf'.
Proof.
  intros Hwf0 [Hac Ha1]. unfold AppendEntries. case_decide; [by eexists _, _|].
  pose proof (syncState_wf now args rf Hwf0) as Hwf.
  assert (state (syncState now args rf) = RS_Follower) as Hfol
    by (unfold syncState; by case_decide).
  set (r := syncState now args rf) in *. clearbody r.
  pose proof (wf_ne _ Hwf) as Hne. pose proof (len_log_pos r Hne) as Hlen.
  gostep Hne. destruct (log_last r Hne) as (e & -> & _). rewrite bind_Ret.
  case_decide as Hgood; [|case_decide as Hfix].
  - eexists _, _; split; [done|].
    eapply (wf_extend r _ (length (log r))); eauto; simpl; rewrite ?firstn_all; auto;
      try (rewrite Hfol; done).
    + unfold len in *; lia.
    + destruct Hgood as [Hg _]. revert Hac. rewrite <- Hg. unfold gendL, len.
      by replace (base r + Z.of_nat (length (log r)) - 1 + 1)
        with (base r + Z.of_nat (length (log r))) by lia.
    + pose proof (wf_applied _ Hwf). pose proof (len_nonneg (ae_Entries args)).
      unfold gendL, len in *. lia.
    + by rewrite (wf_next _ Hwf).
    + by rewrite (wf_match _ Hwf).
  - destruct (prefixCheck_returns r (ae_Entries args) (ae_Entries args) 0 Hne) as [i ->].
    rewrite bind_Ret. case_decide; [by eexists _, _|]. gostep Hne.
    destruct Hfix as [Hf1 Hf2]. pose proof (wf_applied _ Hwf) as Happ.
    unfold slice_upto. rewrite decide_True by (unfold gendL in *; lia). rewrite bind_Ret.
    eexists _, _; split; [done|].
    eapply (wf_extend r _ (Z.to_nat (lastApplied r + 1 - base r))); eauto; simpl;
      try (rewrite Hfol; done).
    + unfold gendL, len in *. lia.
    + rewrite <- Hf2. by replace (base r + _) with (ae_PrevLogIndex args + 1) by lia.
    + pose proof (len_nonneg (ae_Entries args)). lia.
    + by rewrite (wf_next _ Hwf).
    + by rewrite (wf_match _ Hwf).
  - case_decide; [by eexists _, _|]. exfalso. lia.
Qed.

(** Steps that cut the front of the log and rewrite its first entry as the
    no-op of the snapshot. *)
Lemma wf_cut rf rf' k first :
  wf rf → (k < length (log rf))%nat → Type_ first = LT_Noop →
  Index first = base rf + Z.of_nat k →
  log rf' = <[0%nat := first]> (drop k (log rf)) →
  base rf + Z.of_nat k ≤ lastApplied rf' ≤ Z.max 1 (gend rf - 1) →
  (state rf' = RS_Leader → state rf = RS_Leader) →
  nextIndex rf' = nextIndex rf → matchIndex rf' = matchIndex rf →
  peers rf' = peers rf → me rf' = me rf → wf rf'.
Proof.
  intros [Hne Hc Hb Hf Ho Ha Hld Hnx Hmt Hme] Hk Ht Hi Hl Hla Hs Hn Hm Hp Hme'.
  destruct (drop k (log rf)) as [|e0 l0] eqn:Hd.
  { apply (f_equal length) in Hd. rewrite length_drop in Hd. simpl in Hd. lia. }
  pose proof (contiguous_drop _ _ k Hc) as Hcd. rewrite Hd in Hcd.
  assert (gend rf' = gend rf) as Hgend.
  { rewrite Hl. unfold gendL. simpl. rewrite Hi, len_cons.
    apply (f_equal len) in Hd. rewrite len_drop, len_cons in Hd. unfold len in *. lia. }
  assert (base rf' = base rf + Z.of_nat k) as Hbase by (by rewrite Hl; simpl).
  split; rewrite ?Hgend, ?Hbase, ?Hn, ?Hm, ?Hp, ?Hme'; auto; try lia.
  - by rewrite Hl.
  - rewrite Hl. apply contiguous_insert; [done|lia].
  - rewrite Hl. intros e He. by simplify_eq/=.
  - rewrite Hl. intros e [->|He]%elem_of_cons He1; [done|]. apply Ho; [|done].
    apply (subseteq_drop k). rewrite Hd. by right.
Qed.

Lemma wf_fresh rf rf' first :
  wf rf → Type_ first = LT_Noop → 0 ≤ Index first → log rf' = [first] →
  lastApplied rf' = Index first → state rf' ≠ RS_Leader →
  nextIndex rf' = nextIndex rf → matchIndex rf' = matchIndex rf →
  peers rf' = peers rf → me rf' = me rf → wf rf'.
Proof.
  intros [Hne Hc Hb Hf Ho Ha Hld Hnx Hmt Hme] Ht Hi Hl Hla Hs Hn Hm Hp Hme'.
  split; rewrite ?Hl, ?Hla, ?Hn, ?Hm, ?Hp, ?Hme'; auto.
  - by apply contiguous_single.
  - intros e He. by simplify_eq/=.
  - intros e ->%list_elem_of_singleton. done.
  - unfold gendL, len. simpl. lia.
  - intros ?; contradiction.
Qed.

(** The entry that stands for the snapshot, and the two shapes of the log after
    [InstallSnapshot]. *)
Definition snapshotEntry (args : InstallSnapshotArgs) : logEntry Cmd :=
  mkEntry (is_LastIncludedTerm args) LT_Noop (is_LastIncludedInternal args) None.

Lemma insert_drop_cons l k e : (k < length l)%nat →
  <[0%nat := e]> (drop k l) = e :: drop (S k) l.
Proof.
  intros Hk. destruct (drop k l) as [|e0 l0] eqn:Hd.
  { apply (f_equal length) in Hd. rewrite length_drop in Hd. simpl in Hd. lia. }
  simpl. f_equal. rewrite <- Nat.add_1_r, <- drop_drop, Hd. done.
Qed.

Lemma snapshotLog_cases args rf : log rf ≠ [] →
  snapshotLog args rf = Ret [snapshotEntry args] ∨
  ∃ k e, log rf !! k = Some e ∧ is_LastIncludedInternal args = base rf + Z.of_nat k ∧
    Term e = is_LastIncludedTerm args ∧
    snapshotLog args rf = Ret (snapshotEntry args :: drop (S k) (log rf)).
Proof.
  intros Hne. unfold snapshotLog. gostep Hne. case_decide as Hk; [|by left].
  destruct (slice_get_in (log rf) (is_LastIncludedInternal args - base rf)) as (e & -> & He); [lia|].
  rewrite !bind_Ret. case_bool_decide as Ht; [|by left]. right.
  exists (Z.to_nat (is_LastIncludedInternal args - base rf)), e.
  split; [done|]. split; [lia|]. split; [done|]. simpl. unfold slice_from, slice_set.
  rewrite decide_True by lia. simpl. rewrite decide_True by (rewrite len_drop; lia).
  rewrite insert_drop_cons; [done|]. unfold len in *; lia.
Qed.

Lemma InstallSnapshot_wf args rf : wf rf → isOk args →
  ∃ rf' reply, InstallSnapshot args rf = Ret (rf', reply) ∧ wf rf'.
Proof.
  intros Hwf Hok. pose proof (wf_ne _ Hwf) as Hne. unfold InstallSnapshot.
  repeat (case_decide; [by eexists _, _|]).
  destruct (snapshotLog_cases args rf Hne) as [->|(k & e & Hk & Hi & _ & ->)]; simpl;
    eexists _, _; (split; [done|]).
  - eapply wf_fresh; eauto; done.
  - apply lookup_lt_Some in Hk.
    eapply (wf_cut rf _ k (snapshotEntry args)); eauto; simpl; try done.
    + by rewrite insert_drop_cons.
    + unfold gendL, len. lia.
Qed.

Lemma internalIndex_loop_bound l i index cnt target :
  l ≠ [] → i ≤ internalIndex_loop l i index cnt target < i + len l.
Proof.
  revert i index cnt. induction l as [|e l IH]; intros i index cnt Hne; [done|].
  simpl. rewrite len_cons. pose proof (len_nonneg l). repeat case_decide; try lia;
    (destruct l as [|e' l]; [simpl; lia|]);
    match goal with |- context [internalIndex_loop _ _ _ ?c _] =>
      specialize (IH (i + 1) i c ltac:(done)) end; lia.
Qed.

Lemma Snapshot_wf index snap rf : wf rf → ∃ rf', Snapshot index snap rf = Ret rf' ∧ wf rf'.
Proof.
  intros Hwf. pose proof (wf_ne _ Hwf) as Hne. unfold Snapshot, internalIndex. gostep Hne.
  set (k := internalIndex_loop _ _ _ _ _).
  assert (0 ≤ k < len (log rf)) as Hk by (by apply internalIndex_loop_bound).
  repeat (case_decide; [by eexists|]).
  replace (k + base rf - base rf) with k by lia.
  unfold slice_from. rewrite decide_True by lia. rewrite bind_Ret.
  destruct (slice_get_in (log rf) k Hk) as (e0 & _ & He0).
  pose proof (wf_lookup _ _ _ Hwf He0) as Hi0. pose proof (lookup_lt_Some _ _ _ He0) as Hlt.
  rewrite (drop_S _ _ _ He0). simpl. eexists; split; [done|].
  eapply (wf_cut rf _ (Z.to_nat k) (mkEntry (Term e0) LT_Noop (Index e0) (Command e0)));
    eauto; simpl; try done.
  - by rewrite insert_drop_cons.
  - pose proof (wf_applied _ Hwf). lia.
Qed.

(** Appending one entry, by [Start] or by a new leader. *)
Lemma wf_append rf rf' e :
  wf rf → Index e = gend rf → (Index e = 1 → Type_ e = LT_Noop) → 1 ≤ gend rf →
  log rf' = log rf ++ [e] → lastApplied rf' = lastApplied rf →
  length (nextIndex rf') = peers rf → length (matchIndex rf') = peers rf →
  peers rf' = peers rf → me rf' = me rf → wf rf'.
Proof.
  intros Hwf Hi H1 Hg Hl Hla Hn Hm Hp Hme. pose proof (len_log_pos rf (wf_ne _ Hwf)).
  unfold gendL, len in *.
  eapply (wf_extend rf _ (length (log rf)) [e]); eauto.
  - lia.
  - by apply contiguous_single.
  - intros e' ->%list_elem_of_singleton. done.
  - by rewrite firstn_all.
  - pose proof (wf_applied _ Hwf). unfold gendL, len in *. simpl. lia.
  - unfold len. simpl. lia.
Qed.

Lemma gend_pos rf : wf rf → 1 ≤ gend rf.
Proof.
  intros Hwf. pose proof (wf_base _ Hwf). pose proof (len_log_pos rf (wf_ne _ Hwf)).
  unfold gendL. lia.
Qed.

Lemma gend_append rf e : log rf ≠ [] → gendL (log rf ++ [e]) = gend rf + 1.
Proof.
  intros Hne. unfold gendL. rewrite len_app. destruct (log rf); [done|]. unfold len; simpl. lia.
Qed.

Lemma election_start_wf rf : wf rf → ∃ rf' el, election_start rf = Ret (rf', el) ∧ wf rf'.
Proof.
  intros Hwf. pose proof (wf_ne _ Hwf) as Hne. unfold election_start.
  set (r := persist _). assert (wf r) as Hr by (eapply wf_same; eauto; done).
  pose proof (wf_ne _ Hr) as Hner. gostep Hner.
  destruct (log_last r Hner) as (e & -> & _). simpl. by eexists _, _.
Qed.

Lemma ticker_timeout_wf now rf rf' : wf rf → ticker_timeout now rf = Some rf' → wf rf'.
Proof.
  intros Hwf. unfold ticker_timeout. case_decide; intros; simplify_eq.
  eapply wf_same; eauto; done.
Qed.

Lemma reinitPeers_returns gll meId n next mtch : length next = n → length mtch = n →
  ∃ nm, reinitPeers gll meId n next mtch = Ret nm ∧ length nm.1 = n ∧ length nm.2 = n.
Proof.
  intros Hn Hm. unfold reinitPeers.
  apply (for_range_inv (λ nm, length nm.1 = n ∧ length nm.2 = n)); [|done].
  intros [next' mtch'] i Hi%elem_of_seq [Hn' Hm']. simpl in *. case_decide; [by eexists|].
  rewrite !slice_set_in by (unfold len; lia). simpl. eexists; split; [done|].
  simpl. rewrite !length_insert. done.
Qed.

Lemma election_promote_wf ballot rf : wf rf →
  ∃ rf' b, election_promote ballot rf = Ret (rf', b) ∧ wf rf'.
Proof.
  intros Hwf. unfold election_promote. case_decide; [|by eexists _, _].
  pose proof (wf_ne _ Hwf) as Hne. pose proof (wf_me _ Hwf) as Hme.
  rewrite globalLogLen_eq by done. rewrite bind_Ret. simpl.
  destruct (reinitPeers_returns (gend rf) (me rf) (peers rf) (nextIndex rf) (matchIndex rf))
    as ([next mtch] & -> & Hn & Hm); [apply Hwf|apply Hwf|]. simpl in *.
  rewrite globalLogLen_eq by (simpl; by destruct (log rf)). rewrite bind_Ret. simpl.
  rewrite !slice_set_in by (unfold len; lia). simpl. eexists _, _; split; [done|].
  eapply (wf_append rf); simpl; eauto; rewrite ?length_insert; try done.
  by apply gend_pos.
Qed.

End preserve.

(** A peer in the middle of its work: four commands and two no-ops after the
    initial entry, committed up to 5 and applied up to 3. *)
Definition samplePeer : Raft Z :=
  mkRaft 3 MakePersister 1 false RS_Follower 3
    [mkEntry 1 LT_Noop 0 None; mkEntry 2 LT_Noop 1 None; mkEntry 2 LT_Normal 2 (Some 7);
     mkEntry 2 LT_Normal 3 (Some 8); mkEntry 3 LT_Noop 4 None; mkEntry 3 LT_Normal 5 (Some 9);
     mkEntry 3 LT_Normal 6 (Some 10)]
    None [] 0 0 5 3 [0; 0; 0] [0; 0; 0] 0 [].

Lemma samplePeer_wf : wf samplePeer.
Proof.
  split; simpl; try done; try lia.
  - intros i e Hi. do 7 (destruct i as [|i]; [by simplify_eq/=|]). done.
  - intros e He. by simplify_eq.
  - intros e He Hi. repeat (apply elem_of_cons in He as [->|He]; [done|]).
    by apply not_elem_of_nil in He.
Qed.
