(* ===== verification/RaftIndex.v ===== *)
(** * Raft: internal and external indices

    The service counts only its own commands, Raft counts every entry.
    [extOf] is the reference definition of the conversion: the number of
    commands up to an entry, plus the ones in the snapshot.  The two loops of
    the code compute it and its inverse, and taking a snapshot changes neither
    the numbering nor the entries that remain. *)

From S2P Require Import Prelude RaftState RaftNode RaftInv.
Local Open Scope Z_scope.

Section index.
Context {Cmd : Type} `{Codec (@persistent Cmd)}.
Implicit Types (rf : Raft Cmd) (l : list (logEntry Cmd)).

(** The number of commands of a log. *)
Definition normals l : Z := len (filter (λ e, Type_ e ≠ LT_Noop) l).

Definition extOf rf (i : Z) : Z :=
  snapshotIndex rf + normals (take (Z.to_nat (i - base rf + 1)) (log rf)).

Lemma normals_nil : normals [] = 0.
Proof. done. Qed.

Lemma normals_cons e l :
  normals (e :: l) = (if decide (Type_ e ≠ LT_Noop) then 1 else 0) + normals l.
Proof.
  unfold normals. rewrite filter_cons. case_decide; rewrite ?len_cons; lia.
Qed.

Lemma normals_app l1 l2 : normals (l1 ++ l2) = normals l1 + normals l2.
Proof. unfold normals. by rewrite filter_app, len_app. Qed.

Lemma normals_nonneg l : 0 ≤ normals l.
Proof. apply len_nonneg. Qed.

Lemma normals_take_le l n : normals (take n l) ≤ normals l.
Proof.
  rewrite <- (take_drop n l) at 2. rewrite normals_app.
  pose proof (normals_nonneg (drop n l)). lia.
Qed.

Lemma normals_take_mono l n m : (n ≤ m)%nat → normals (take n l) ≤ normals (take m l).
Proof.
  intros Hnm. replace (take n l) with (take n (take m l)) by (rewrite take_take; f_equal; lia).
  apply normals_take_le.
Qed.

Lemma normals_take_S l k e : l !! k = Some e →
  normals (take (S k) l) = normals (take k l) + (if decide (Type_ e ≠ LT_Noop) then 1 else 0).
Proof.
  intros Hk. rewrite (take_S_r _ _ _ Hk), normals_app, normals_cons, normals_nil. lia.
Qed.

(** Two commands at the same external index are the same entry. *)
Lemma normals_take_inj l k k' e e' :
  l !! k = Some e → l !! k' = Some e' → Type_ e ≠ LT_Noop → Type_ e' ≠ LT_Noop →
  normals (take (S k) l) = normals (take (S k') l) → k = k'.
Proof.
  intros Hk Hk' He He' Heq.
  rewrite (normals_take_S _ _ _ Hk), (normals_take_S _ _ _ Hk'), !decide_True in Heq by done.
  destruct (lt_eq_lt_dec k k') as [[?|?]|?]; [|done|].
  - pose proof (normals_take_mono l (S k) k' ltac:(lia)).
    rewrite (normals_take_S _ _ _ Hk), decide_True in * by done. lia.
  - pose proof (normals_take_mono l (S k') k ltac:(lia)).
    rewrite (normals_take_S _ _ _ Hk'), decide_True in * by done. lia.
Qed.

(** ** [externalIndex] computes [extOf] *)

Lemma externalIndex_loop_eq l (i n : nat) index :
  (i + n ≤ length l)%nat →
  externalIndex_loop l (Z.of_nat i) n index = Ret (index + normals (take n (drop i l))).
Proof.
  revert i index. induction n as [|n IH]; intros i index Hn; simpl.
  { unfold mret, outcome_mret. rewrite take_0, normals_nil. f_equal. lia. }
  destruct (lookup_lt_is_Some_2 l i) as [e He]; [lia|].
  rewrite (slice_get_nat _ _ _ He). simpl.
  replace (Z.of_nat i + 1) with (Z.of_nat (S i)) by lia.
  rewrite IH by lia. rewrite (drop_S _ _ _ He). simpl. rewrite normals_cons.
  f_equal. case_decide; lia.
Qed.

Lemma normals_first rf n : wf rf → normals (take (S n) (log rf)) = normals (take n (drop 1 (log rf))).
Proof.
  intros Hwf. pose proof (wf_first _ Hwf) as Hf. destruct (log rf) as [|e l] eqn:Hl.
  { by destruct n. }
  simpl. rewrite normals_cons, drop_0, decide_False; [lia|]. intros Hn. by apply Hn, Hf.
Qed.

Lemma externalIndex_eq rf i : wf rf → i < gend rf → externalIndex rf i = Ret (extOf rf i).
Proof.
  intros Hwf Hi. pose proof (wf_ne _ Hwf) as Hne. unfold externalIndex, extOf. gostep Hne.
  pose proof (len_log_pos rf Hne). unfold gendL, len in *.
  change 1 with (Z.of_nat 1) at 1. rewrite externalIndex_loop_eq by lia. simpl.
  unfold mret, outcome_mret. f_equal.
  destruct (decide (i - base rf < 0)).
  - replace (Z.to_nat (i - base rf)) with 0%nat by lia.
    replace (Z.to_nat (i - base rf + 1)) with 0%nat by lia. rewrite !take_0, normals_nil. lia.
  - replace (Z.to_nat (i - base rf + 1)) with (S (Z.to_nat (i - base rf))) by lia.
    rewrite normals_first by done. lia.
Qed.

Lemma extOf_base rf : wf rf → extOf rf (base rf) = snapshotIndex rf.
Proof.
  intros Hwf. unfold extOf. replace (Z.to_nat _) with 1%nat by lia.
  rewrite normals_first by done. rewrite take_0, normals_nil. lia.
Qed.

(** The external index of entry [i + 1], from the one of [i]. *)
Lemma extOf_step rf i e : base rf ≤ i → log rf !! Z.to_nat (i + 1 - base rf) = Some e →
  extOf rf (i + 1) = extOf rf i + (if decide (Type_ e ≠ LT_Noop) then 1 else 0).
Proof.
  intros Hi He. unfold extOf.
  replace (Z.to_nat (i + 1 - base rf + 1)) with (S (Z.to_nat (i + 1 - base rf))) by lia.
  rewrite (normals_take_S _ _ _ He).
  replace (Z.to_nat (i - base rf + 1)) with (Z.to_nat (i + 1 - base rf)) by lia. lia.
Qed.

Lemma extOf_mono rf i j : i ≤ j → extOf rf i ≤ extOf rf j.
Proof.
  intros Hij. unfold extOf.
  pose proof (normals_take_mono (log rf) (Z.to_nat (i - base rf + 1)) (Z.to_nat (j - base rf + 1))
    ltac:(lia)). lia.
Qed.

(** ** [internalIndex] is the inverse *)

Lemma internalIndex_loop_hit l i index cnt target :
  cnt < target ≤ cnt + normals l →
  ∃ k e, l !! k = Some e ∧ Type_ e ≠ LT_Noop ∧ normals (take (S k) l) = target - cnt ∧
         internalIndex_loop l i index cnt target = i + Z.of_nat k.
Proof.
  revert i index cnt. induction l as [|e l IH]; intros i index cnt Ht.
  { rewrite normals_nil in Ht. lia. }
  simpl. rewrite normals_cons in Ht.
  destruct (decide (Type_ e ≠ LT_Noop)) as [He|He]; simpl.
  - case_decide as Hc.
    + exists 0%nat, e. rewrite normals_cons, decide_True, take_0, normals_nil by done.
      repeat split; try done; lia.
    + destruct (IH (i + 1) i (cnt + 1)) as (k & e' & ? & ? & Hn & ->); [lia|].
      exists (S k), e'. rewrite normals_cons, decide_True by done.
      repeat split; try done; lia.
  - rewrite decide_False by lia.
    destruct (IH (i + 1) i cnt) as (k & e' & ? & ? & Hn & ->); [lia|].
    exists (S k), e'. rewrite normals_cons, decide_False by done.
    repeat split; try done; lia.
Qed.

Lemma extOf_end rf : log rf ≠ [] → extOf rf (gend rf - 1) = snapshotIndex rf + normals (log rf).
Proof.
  intros Hne. unfold extOf, gendL, len. rewrite take_ge; [done|lia].
Qed.

(** An external index in the log is the one of exactly one command, which
    [internalIndex] finds. *)
Lemma internalIndex_hit rf x : wf rf →
  snapshotIndex rf < x ≤ extOf rf (gend rf - 1) →
  ∃ k e, log rf !! k = Some e ∧ Type_ e ≠ LT_Noop ∧
    internalIndex rf x = Ret (base rf + Z.of_nat k) ∧ extOf rf (base rf + Z.of_nat k) = x.
Proof.
  intros Hwf Hx. pose proof (wf_ne _ Hwf) as Hne. rewrite extOf_end in Hx by done.
  destruct (internalIndex_loop_hit (log rf) 0 0 0 (x - snapshotIndex rf))
    as (k & e & Hk & He & Hn & Heq); [lia|].
  exists k, e. split; [done|]. split; [done|]. unfold internalIndex. rewrite Heq. gostep Hne.
  split; [f_equal; lia|]. unfold extOf.
  replace (Z.to_nat (base rf + Z.of_nat k - base rf + 1)) with (S k) by lia. lia.
Qed.

Lemma internalIndex_extOf rf k e : wf rf →
  log rf !! k = Some e → Type_ e ≠ LT_Noop → internalIndex rf (extOf rf (Index e)) = Ret (Index e).
Proof.
  intros Hwf Hk He. pose proof (wf_lookup _ _ _ Hwf Hk) as Hi.
  pose proof (lookup_lt_Some _ _ _ Hk) as Hlt.
  assert (extOf rf (Index e) = snapshotIndex rf + normals (take (S k) (log rf))) as Hx.
  { unfold extOf. rewrite Hi. by replace (Z.to_nat _) with (S k) by lia. }
  assert (1 ≤ normals (take (S k) (log rf))).
  { rewrite (normals_take_S _ _ _ Hk), decide_True by done.
    pose proof (normals_nonneg (take k (log rf))). lia. }
  destruct (internalIndex_hit rf (extOf rf (Index e))) as (k' & e' & Hk' & He' & -> & Hx');
    [done| |].
  - split; [lia|]. apply extOf_mono. rewrite Hi. unfold gendL, len. lia.
  - rewrite Hi. do 3 f_equal. symmetry. eapply (normals_take_inj (log rf)); eauto.
    revert Hx'. rewrite Hx. unfold extOf.
    replace (Z.to_nat (base rf + Z.of_nat k' - base rf + 1)) with (S k') by lia. lia.
Qed.

(** ** Snapshots keep the numbering *)

Lemma normals_take_split l n m :
  normals (take (n + m) l) = normals (take n l) + normals (take m (drop n l)).
Proof. by rewrite <- take_take_drop, normals_app. Qed.

(** The log that [Snapshot] leaves: the snapshotted entry becomes the no-op at
    the front. *)
Definition noopOf (e : logEntry Cmd) : logEntry Cmd :=
  mkEntry (Term e) LT_Noop (Index e) (Command e).

Lemma Snapshot_spec index snap rf : wf rf →
  snapshotIndex rf < index ≤ extOf rf (lastApplied rf) → lastApplied rf < gend rf →
  ∃ k e, log rf !! k = Some e ∧ Type_ e ≠ LT_Noop ∧ extOf rf (base rf + Z.of_nat k) = index ∧
    base rf + Z.of_nat k ≤ lastApplied rf ∧
    Snapshot index snap rf =
      Ret (persist (rf <| log := noopOf e :: drop (S k) (log rf) |> <| snapshot := snap |>
                       <| snapshotIndex := index |> <| snapshotTerm := Term e |>)).
Proof.
  intros Hwf Hx Hla. pose proof (wf_ne _ Hwf) as Hne.
  pose proof (extOf_mono rf (lastApplied rf) (gend rf - 1) ltac:(lia)).
  destruct (internalIndex_hit rf index Hwf) as (k & e & Hk & He & Hint & Hext); [lia|].
  pose proof (lookup_lt_Some _ _ _ Hk) as Hlt.
  assert (base rf + Z.of_nat k ≤ lastApplied rf) as Hle.
  { destruct (decide (base rf + Z.of_nat k ≤ lastApplied rf)) as [|Hn]; [done|]. exfalso.
    pose proof (extOf_mono rf (lastApplied rf) (base rf + Z.of_nat k - 1) ltac:(lia)) as Hm.
    revert Hext Hm. unfold extOf.
    replace (Z.to_nat (base rf + Z.of_nat k - base rf + 1)) with (S k) by lia.
    replace (Z.to_nat (base rf + Z.of_nat k - 1 - base rf + 1)) with k by lia.
    rewrite (normals_take_S _ _ _ Hk), decide_True by done. unfold extOf in Hx. lia. }
  exists k, e. do 4 (split; [done|]). unfold Snapshot. rewrite Hint, bind_Ret.
  rewrite !decide_False by lia. gostep Hne.
  replace (base rf + Z.of_nat k - base rf) with (Z.of_nat k) by lia.
  unfold slice_from. rewrite decide_True by (unfold len; lia). rewrite Nat2Z.id, bind_Ret.
  by rewrite (drop_S _ _ _ Hk).
Qed.

Lemma extOf_cut rf rf' k e i : log rf !! k = Some e →
  contiguous (base rf) (log rf) → log rf' = noopOf e :: drop (S k) (log rf) →
  snapshotIndex rf' = extOf rf (base rf + Z.of_nat k) →
  base rf + Z.of_nat k ≤ i → extOf rf' i = extOf rf i.
Proof.
  intros Hk Hc Hl Hs Hi. pose proof (Hc _ _ Hk) as He. unfold extOf.
  assert (base rf' = base rf + Z.of_nat k) as -> by (by rewrite Hl, <- He).
  rewrite Hl, Hs. unfold extOf.
  replace (Z.to_nat (base rf + Z.of_nat k - base rf + 1)) with (S k) by lia.
  replace (Z.to_nat (i - (base rf + Z.of_nat k) + 1))
    with (S (Z.to_nat (i - base rf - Z.of_nat k))) by lia.
  replace (Z.to_nat (i - base rf + 1)) with (S k + Z.to_nat (i - base rf - Z.of_nat k))%nat by lia.
  rewrite normals_take_split. rewrite firstn_cons, normals_cons, decide_False by (simpl; tauto).
  lia.
Qed.

(** C31: the two index spaces are inverse to each other on the commands of the
    log: converting the internal index of a command to the external one and
    back gives the index again. *)
Theorem internal_external_roundtrip rf k e :
  wf rf → log rf !! k = Some e → Type_ e = LT_Normal →
  ∃ x, externalIndex rf (Index e) = Ret x ∧ internalIndex rf x = Ret (Index e).
Proof.
  intros Hwf Hk He. exists (extOf rf (Index e)). split.
  - apply externalIndex_eq; [done|]. rewrite (wf_lookup _ _ _ Hwf Hk).
    apply lookup_lt_Some in Hk. unfold gendL, len. lia.
  - eapply internalIndex_extOf; eauto. by rewrite He.
Qed.

(** When the service snapshots an index it has applied, the log is cut right
    after that command, and every later entry keeps its external index. *)
Theorem Snapshot_keeps_numbering index snap rf :
  wf rf → snapshotIndex rf < index ≤ extOf rf (lastApplied rf) → lastApplied rf < gend rf →
  ∃ i rf', internalIndex rf index = Ret i ∧ Snapshot index snap rf = Ret rf' ∧
    base rf' = i ∧ gend rf' = gend rf ∧ snapshotIndex rf' = index ∧ snapshot rf' = snap ∧
    (∀ j e, i < j → log rf' !! Z.to_nat (j - i) = Some e ↔
            log rf !! Z.to_nat (j - base rf) = Some e) ∧
    ∀ j, i ≤ j < gend rf → externalIndex rf' j = externalIndex rf j.
Proof.
  intros Hwf Hx Hla.
  destruct (Snapshot_spec index snap rf) as (k & e & Hk & He & Hext & Hle & HS); [done..|].
  destruct (Snapshot_wf index snap rf Hwf) as (rf' & HS' & Hwf').
  rewrite HS in HS'. injection HS' as <-. set (rf' := persist _) in *.
  pose proof (wf_lookup _ _ _ Hwf Hk) as Hidx. pose proof (lookup_lt_Some _ _ _ Hk) as Hlt.
  assert (log rf' = noopOf e :: drop (S k) (log rf)) as Hl by done.
  assert (gend rf' = gend rf) as Hg.
  { rewrite Hl. unfold gendL. simpl. rewrite Hidx, len_cons, len_drop. unfold len. lia. }
  exists (base rf + Z.of_nat k), rf'. split; [|split; [done|]].
  { rewrite <- Hext, <- Hidx. by eapply internalIndex_extOf. }
  split; [done|]. do 3 (split; [done|]). split.
  - intros j e' Hj. rewrite Hl.
    replace (Z.to_nat (j - (base rf + Z.of_nat k)))
      with (S (Z.to_nat (j - base rf) - S k)) by lia. simpl. rewrite lookup_drop.
    by replace (S k + (Z.to_nat (j - base rf) - S k))%nat with (Z.to_nat (j - base rf)) by lia.
  - intros j Hj. rewrite !externalIndex_eq by (done || lia). f_equal.
    eapply extOf_cut; eauto; [apply Hwf|]. lia.
Qed.

End index.

Section examples.
#[local] Existing Instance Zcodec.

Lemma internal_external_roundtrip_witness : wf samplePeer ∧
  ∃ x, externalIndex samplePeer 5 = Ret x ∧ internalIndex samplePeer x = Ret 5.
Proof.
  split; [apply samplePeer_wf|].
  apply (internal_external_roundtrip samplePeer 5 (mkEntry 3 LT_Normal 5 (Some 9)));
    [apply samplePeer_wf|reflexivity|reflexivity].
Defined.

Lemma Snapshot_keeps_numbering_witness : wf samplePeer ∧
  ∃ i rf', internalIndex samplePeer 2 = Ret i ∧ Snapshot 2 [Byte.x01] samplePeer = Ret rf' ∧
    base rf' = i ∧ gend rf' = gend samplePeer ∧ snapshotIndex rf' = 2 ∧ snapshot rf' = [Byte.x01] ∧
    (∀ j e, i < j → log rf' !! Z.to_nat (j - i) = Some e ↔
            log samplePeer !! Z.to_nat (j - base samplePeer) = Some e) ∧
    ∀ j, i ≤ j < gend samplePeer → externalIndex rf' j = externalIndex samplePeer j.
Proof.
  split; [apply samplePeer_wf|].
  apply (Snapshot_keeps_numbering 2 [Byte.x01] samplePeer);
    [apply samplePeer_wf|split; vm_compute; [reflexivity|discriminate]|vm_compute; reflexivity].
Defined.

End examples.
