(* ===== verification/RaftApply.v ===== *)
(** * Raft: what the service is told

    The apply loop enqueues exactly the committed commands, numbered without a
    gap; with the snapshots that [InstallSnapshot] and a restart enqueue, the
    service always reads a stream in which each command carries the next
    external index.  This is the contract that the services of [KVRaft],
    [ShardCtrler] and [ShardKV] rely on. *)

From S2P Require Import Prelude RaftState RaftNode RaftInv RaftIndex.
Local Open Scope Z_scope.

(** ** The contract with the service *)

Section stream.
Context {Cmd : Type}.

(** [stream_end last q]: reading [q], a service that has applied everything up
    to [last] sees every command at the index it expects and ends at the
    returned index; [None] if some command is out of order. *)
Fixpoint stream_end (last : Z) (q : list (ApplyMsg Cmd)) : option Z :=
  match q with
  | [] => Some last
  | m :: q =>
      if CommandValid m then
        if decide (CommandIndex m = last + 1) then stream_end (last + 1) q else None
      else if SnapshotValid m then stream_end (msgSnapshotIndex m) q
      else stream_end last q
  end.

Lemma stream_end_app last q1 q2 :
  stream_end last (q1 ++ q2) = stream_end last q1 ≫= λ last', stream_end last' q2.
Proof.
  revert last. induction q1 as [|m q1 IH]; intros last; simpl; [done|].
  repeat case_match; auto.
Qed.

End stream.

Section apply.
Context {Cmd : Type} `{Codec (@persistent Cmd)}.
Implicit Types (rf : Raft Cmd) (l : list (logEntry Cmd)).

(** ** Reference definition of the apply loop *)

(** The index the loop reaches. *)
Definition due rf : Z :=
  Z.max (lastApplied rf) (Z.min (commitIndex rf) (gend rf - 1)).

(** The entries after [lo] and up to [hi]. *)
Definition batch rf (lo hi : Z) : list (logEntry Cmd) :=
  take (Z.to_nat (hi - lo)) (drop (Z.to_nat (lo + 1 - base rf)) (log rf)).

(** The messages for a run of entries, from external index [x] on. *)
Fixpoint number (x : Z) l : list (ApplyMsg Cmd) :=
  match l with
  | [] => []
  | e :: l =>
      if decide (Type_ e = LT_Normal)
      then commandMsg (Command e) (x + 1) :: number (x + 1) l
      else number x l
  end.

Lemma stream_end_number x l : stream_end x (number x l) = Some (x + normals l).
Proof.
  revert x. induction l as [|e l IH]; intros x; simpl.
  { rewrite normals_nil. f_equal. lia. }
  rewrite normals_cons. case_decide as He; simpl; rewrite He || idtac.
  - rewrite decide_True by done. rewrite IH, decide_True by done. f_equal. lia.
  - rewrite IH. rewrite decide_False by (destruct (Type_ e); naive_solver). f_equal.
Qed.

(** The commands of the run are all there, with their index. *)
Lemma number_elem x l k e : l !! k = Some e → Type_ e = LT_Normal →
  commandMsg (Command e) (x + normals (take (S k) l)) ∈ number x l.
Proof.
  revert x k. induction l as [|e' l IH]; intros x k Hk He; [done|].
  destruct k as [|k]; simplify_eq/=; rewrite normals_cons.
  - rewrite He. simpl. rewrite take_0, normals_nil, Z.add_0_r. left.
  - specialize (IH (if decide (Type_ e' = LT_Normal) then x + 1 else x) k Hk He).
    destruct (Type_ e'); simpl in *.
    + right. by rewrite Z.add_assoc.
    + done.
Qed.

(** The peer after the loop has enqueued [q] and reached [la]. *)
Definition applied rf (q : list (ApplyMsg Cmd)) (la : Z) : Raft Cmd :=
  rf <| applyQueue := applyQueue rf ++ q |> <| lastApplied := la |>.

Lemma applied_id rf : applied rf [] (lastApplied rf) = rf.
Proof. destruct rf; unfold applied, set; simpl. unfold set_applyQueue, set_lastApplied; simpl.
  by rewrite app_nil_r. Qed.

Lemma applied_applied rf q1 la1 q2 la2 :
  applied (applied rf q1 la1) q2 la2 = applied rf (q1 ++ q2) la2.
Proof.
  destruct rf; unfold applied, set; simpl. unfold set_applyQueue, set_lastApplied; simpl.
  by rewrite app_assoc.
Qed.

Lemma applied_wf rf q : wf rf → lastApplied rf + 1 < gend rf → wf (applied rf q (lastApplied rf + 1)).
Proof.
  intros [] Hla. split; simpl; auto. lia.
Qed.

Lemma batch_step rf hi e : base rf ≤ lastApplied rf → lastApplied rf < hi →
  log rf !! Z.to_nat (lastApplied rf + 1 - base rf) = Some e →
  batch rf (lastApplied rf) hi = e :: batch rf (lastApplied rf + 1) hi.
Proof.
  intros Hb Hhi He. unfold batch. rewrite (drop_S _ _ _ He).
  replace (Z.to_nat (hi - lastApplied rf)) with (S (Z.to_nat (hi - (lastApplied rf + 1)))) by lia.
  simpl. do 2 f_equal. f_equal. lia.
Qed.

Lemma applyEntries_loop_spec fuel rf : wf rf → (Z.to_nat (due rf - lastApplied rf) < fuel)%nat →
  applyEntries_loop fuel rf =
    Ret (applied rf (number (extOf rf (lastApplied rf)) (batch rf (lastApplied rf) (due rf))) (due rf)).
Proof.
  revert rf. induction fuel as [|fuel IH]; intros rf Hwf Hfuel; [lia|]. simpl.
  pose proof (wf_ne _ Hwf) as Hne. pose proof (wf_applied _ Hwf) as Ha. gostep Hne.
  case_decide as Hc.
  - destruct (slice_get_in (log rf) (lastApplied rf + 1 - base rf)) as (e & -> & He);
      [unfold gendL in *; lia|]. rewrite bind_Ret.
    assert (due rf = Z.min (commitIndex rf) (gend rf - 1)) as Hdue by (unfold due; lia).
    rewrite (batch_step rf (due rf) e) by (done || lia).
    assert (∀ q, let r := applied rf q (lastApplied rf + 1) in
      applyEntries_loop fuel r = Ret (applied r (number (extOf rf (lastApplied rf + 1))
        (batch rf (lastApplied rf + 1) (due rf))) (due rf))) as Hrec.
    { intros q r. assert (due r = due rf) as Hd by (unfold due, r; simpl; unfold due in Hdue; lia).
      rewrite IH; [by rewrite Hd|apply applied_wf; [done|lia]|]. rewrite Hd. unfold r; simpl. lia. }
    rewrite (extOf_step rf _ e) in Hrec by (done || lia). simpl in Hrec.
    destruct (Type_ e) eqn:Ht; simpl.
    + rewrite externalIndex_eq by (done || lia). rewrite bind_Ret.
      rewrite (extOf_step rf _ e), Ht by (done || lia). rewrite decide_True in Hrec by done.
      rewrite !decide_True by done.
      etrans; [apply (Hrec [commandMsg (Command e) (extOf rf (lastApplied rf) + 1)])|].
      by rewrite applied_applied.
    + specialize (Hrec []). rewrite decide_False in Hrec by tauto. rewrite Z.add_0_r in Hrec.
      replace (rf <| lastApplied := lastApplied rf + 1 |>) with (applied rf [] (lastApplied rf + 1)).
      * rewrite Hrec, applied_applied. by rewrite Ht.
      * destruct rf; unfold applied, set; simpl. unfold set_applyQueue, set_lastApplied; simpl.
        by rewrite app_nil_r.
  - assert (due rf = lastApplied rf) as -> by (unfold due; lia).
    unfold batch. rewrite Z.sub_diag. simpl. by rewrite applied_id.
Qed.

Lemma applyEntries_spec rf : wf rf →
  applyEntries rf =
    Ret (applied rf (number (extOf rf (lastApplied rf)) (batch rf (lastApplied rf) (due rf))) (due rf)).
Proof.
  intros Hwf. pose proof (wf_ne _ Hwf) as Hne. unfold applyEntries. gostep Hne.
  apply applyEntries_loop_spec; [done|]. pose proof (wf_applied _ Hwf). unfold due. lia.
Qed.

(** ** The external index of [lastApplied] *)

Lemma extOf_same rf rf' i :
  log rf' = log rf → snapshotIndex rf' = snapshotIndex rf → extOf rf' i = extOf rf i.
Proof. unfold extOf. by intros -> ->. Qed.

(** Before anything is applied, [lastApplied] is 1 and the entry 1, if there is
    one, is the no-op of the first leader. *)
Lemma extOf_one rf : wf rf → base rf = 0 → extOf rf 1 = snapshotIndex rf.
Proof.
  intros Hwf Hb. unfold extOf. rewrite Hb. change (Z.to_nat (1 - 0 + 1)) with 2%nat.
  rewrite normals_first by done. destruct (drop 1 (log rf)) as [|e l] eqn:Hd.
  { rewrite take_nil, normals_nil. lia. }
  assert (log rf !! 1%nat = Some e) as He.
  { rewrite <- (Nat.add_0_r 1), <- lookup_drop, Hd. done. }
  pose proof (wf_lookup _ _ _ Hwf He) as Hi.
  assert (Type_ e = LT_Noop) as Ht
    by (apply (wf_one _ Hwf); [by eapply list_elem_of_lookup_2|lia]).
  change (take 1 (e :: l)) with [e].
  rewrite normals_cons, Ht. unfold normals, len. simpl. lia.
Qed.

Lemma extOf_extend rf rf' n es : wf rf → wf rf' →
  (1 ≤ n ≤ length (log rf))%nat → log rf' = take n (log rf) ++ es →
  lastApplied rf ≤ Z.max 1 (base rf + Z.of_nat n - 1) →
  snapshotIndex rf' = snapshotIndex rf → extOf rf' (lastApplied rf) = extOf rf (lastApplied rf).
Proof.
  intros Hwf Hwf' Hn Hl Hla Hs. pose proof (wf_applied _ Hwf). pose proof (wf_base _ Hwf).
  pose proof (base_extend rf n es ltac:(lia) (wf_ne _ Hwf)) as Hb. rewrite <- Hl in Hb.
  destruct (decide (lastApplied rf ≤ base rf + Z.of_nat n - 1)).
  - unfold extOf. rewrite Hb, Hl, Hs. do 2 f_equal. rewrite take_app_le by (rewrite length_take; lia).
    rewrite take_take. f_equal. lia.
  - replace (lastApplied rf) with 1 by lia. rewrite !extOf_one; auto; lia.
Qed.

(** ** What [AppendEntries] does to the log *)

Lemma AppendEntries_log now args rf rf' reply : wf rf →
  AppendEntries now args rf = Ret (rf', reply) →
  lastApplied rf' = lastApplied rf ∧ applyQueue rf' = applyQueue rf ∧
  snapshotIndex rf' = snapshotIndex rf ∧ snapshot rf' = snapshot rf ∧
  (log rf' = log rf ∨
   ∃ n, (1 ≤ n ≤ length (log rf))%nat ∧ log rf' = take n (log rf) ++ ae_Entries args ∧
        lastApplied rf ≤ Z.max 1 (base rf + Z.of_nat n - 1)).
Proof.
  intros Hwf. unfold AppendEntries. case_decide.
  { intros [= <- <-]. naive_solver. }
  assert (log (syncState now args rf) = log rf ∧ lastApplied (syncState now args rf) = lastApplied rf
    ∧ applyQueue (syncState now args rf) = applyQueue rf
    ∧ snapshotIndex (syncState now args rf) = snapshotIndex rf
    ∧ snapshot (syncState now args rf) = snapshot rf) as (Hl & Ha & Hq & Hs & Hsn)
    by (unfold syncState; by case_decide).
  set (r := syncState now args rf) in *. clearbody r.
  pose proof (wf_ne _ Hwf) as Hne. pose proof (len_log_pos rf Hne). pose proof (wf_applied _ Hwf).
  assert (log r ≠ []) as Hner by (by rewrite Hl). gostep Hner.
  destruct (log_last r Hner) as (e & -> & _). rewrite bind_Ret.
  case_decide as Hgood; [|case_decide as Hfix].
  - intros [= <- <-]. simpl. do 4 (split; [congruence|]). right. exists (length (log rf)).
    rewrite Hl, firstn_all. unfold gendL, len in *. split; [lia|]. split; [done|]. lia.
  - destruct (prefixCheck_returns r (ae_Entries args) (ae_Entries args) 0 Hner) as [i ->].
    rewrite bind_Ret. case_decide.
    { intros [= <- <-]. do 4 (split; [congruence|]). by left. }
    gostep Hner. intros (l & [Hk ->]%slice_upto_Ret & [= <- <-])%bind_Ret_inv. simpl.
    do 4 (split; [congruence|]). right. exists (Z.to_nat (lastApplied r + 1 - base r)).
    rewrite Hl, Ha in *. destruct Hfix as [Hf1 Hf2]. unfold gendL, len in *.
    split; [lia|]. split; [done|]. lia.
  - case_decide; [|done]. intros [= <- <-]. do 4 (split; [congruence|]). by left.
Qed.

(** C30: the apply loop.  On a well-formed peer it terminates, reaches the last
    committed entry of the log, and enqueues exactly the commands in between,
    in log order and each with its external index; no-ops are skipped. *)
Theorem applyEntries_reference rf : wf rf →
  applyEntries rf = Ret (applied rf (number (extOf rf (lastApplied rf))
                           (batch rf (lastApplied rf) (due rf))) (due rf)) ∧
  ∀ i e, lastApplied rf < i ≤ due rf → log rf !! Z.to_nat (i - base rf) = Some e →
    Type_ e = LT_Normal →
    commandMsg (Command e) (extOf rf i) ∈ number (extOf rf (lastApplied rf))
                                           (batch rf (lastApplied rf) (due rf)).
Proof.
  intros Hwf. split; [by apply applyEntries_spec|]. intros i e Hi He Ht.
  pose proof (wf_applied _ Hwf) as Ha.
  assert (∃ k, i = lastApplied rf + 1 + Z.of_nat k) as [k Hk]
    by (exists (Z.to_nat (i - lastApplied rf - 1)); lia).
  assert (batch rf (lastApplied rf) (due rf) !! k = Some e) as Hb.
  { unfold batch. apply lookup_take_Some. split; [|lia]. rewrite lookup_drop, <- He. f_equal. lia. }
  assert (extOf rf i = extOf rf (lastApplied rf) +
    normals (take (S k) (batch rf (lastApplied rf) (due rf)))) as ->.
  { unfold extOf at 1, extOf, batch. rewrite take_take.
    replace (Z.to_nat (i - base rf + 1))
      with (Z.to_nat (lastApplied rf - base rf + 1) + S k)%nat by lia.
    rewrite normals_take_split.
    replace (S k `min` _)%nat with (S k) by lia.
    replace (Z.to_nat (lastApplied rf + 1 - base rf))
      with (Z.to_nat (lastApplied rf - base rf + 1)) by lia. lia. }
  by apply number_elem.
Qed.

End apply.

Section examples.
#[local] Existing Instance Zcodec.

Lemma applyEntries_reference_witness : wf samplePeer ∧ due samplePeer = 5 ∧
  number (extOf samplePeer (lastApplied samplePeer))
    (batch samplePeer (lastApplied samplePeer) (due samplePeer)) = [commandMsg (Some 9) 3] ∧
  applyEntries samplePeer = Ret (applied samplePeer [commandMsg (Some 9) 3] 5).
Proof.
  split; [apply samplePeer_wf|]. split; [reflexivity|]. split; [reflexivity|].
  exact (proj1 (applyEntries_reference samplePeer samplePeer_wf)).
Defined.

End examples.
