(* ===== verification/RaftSteps.v ===== *)
(** * Raft: a peer over time

    The critical sections of [RaftNode] as a transition system, with crashes
    and restarts, and what holds in every reachable state: the peer is well
    formed, what it would recover from its persister is what it has in memory,
    and the service reads its commands in order. *)

From S2P Require Import Prelude RaftState RaftNode RaftInv RaftIndex RaftApply.
Local Open Scope Z_scope.

Section steps.
Context {Cmd : Type} `{Codec (@persistent Cmd)}.
Implicit Types (rf : Raft Cmd) (l : list (logEntry Cmd)).

(** ** The transition system

    [s] is the external index of the last message that the service has read:
    0 when it starts. *)

Definition served (s : Z) (m : ApplyMsg Cmd) : Z :=
  if CommandValid m then CommandIndex m
  else if SnapshotValid m then msgSnapshotIndex m else s.

Inductive node_step : Raft Cmd → Z → Raft Cmd → Z → Prop :=
| ns_vote now args rf rf' reply s :
    0 ≤ rv_CandiateId args →
    RequestVote now args rf = Ret (rf', reply) → node_step rf s rf' s
| ns_append now args rf rf' reply s :
    aeOk args → AppendEntries now args rf = Ret (rf', reply) → node_step rf s rf' s
| ns_install args rf rf' reply s :
    isOk args → is_Data args ≠ [] →
    InstallSnapshot args rf = Ret (rf', reply) → node_step rf s rf' s
| ns_start command rf rf' r s :
    Start command rf = Ret (rf', r) → node_step rf s rf' s
| ns_snapshot index snap rf rf' s :
    (* the service snapshots a command that is still in the log *)
    snap ≠ [] → index ≤ extOf rf (gend rf - 1) →
    Snapshot index snap rf = Ret rf' → node_step rf s rf' s
| ns_timeout now rf rf' s :
    ticker_timeout now rf = Some rf' → node_step rf s rf' s
| ns_election rf rf' el s :
    election_start rf = Ret (rf', el) → node_step rf s rf' s
| ns_promote ballot rf rf' b s :
    election_promote ballot rf = Ret (rf', b) → node_step rf s rf' s
| ns_apply rf rf' s :
    applyEntries rf = Ret rf' → node_step rf s rf' s
| ns_send rf rf' m s :
    applySend rf = (Some m, rf') → node_step rf s rf' (served s m)
| ns_synced server n rf rf' s :
    syncSuccess server n rf = Ret rf' → node_step rf s rf' s
| ns_failed server args reply rf rf' a s :
    handleFailedReply server args reply rf = Ret (rf', a) → node_step rf s rf' s
| ns_replied server args reply rf rf' b s :
    snapshotReplied server args reply rf = Ret (rf', b) → node_step rf s rf' s
| ns_commit rf rf' s :
    commitCheck rf = Ret rf' → node_step rf s rf' s
| ns_kill rf s : node_step rf s (Kill rf) s
| ns_restart now rf rf' s :
    (* a crash: only the persister survives, the service starts again *)
    Make (peers rf) (me rf) (persister rf) now = Ret rf' → node_step rf s rf' 0.

Inductive reachable (n : nat) (meId : Z) : Raft Cmd → Z → Prop :=
| reach_make now rf : Make n meId MakePersister now = Ret rf → reachable n meId rf 0
| reach_step rf s rf' s' :
    reachable n meId rf s → node_step rf s rf' s' → reachable n meId rf' s'.

(** ** Durability *)

Definition persistentOf rf : @persistent Cmd :=
  (state rf, currentTerm rf, log rf, snapshotIndex rf, snapshotTerm rf, voteCode (votedFor rf)).

Definition saved rf : Prop :=
  raftstate (persister rf) = enc (persistentOf rf) ∧ ps_snapshot (persister rf) = snapshot rf.

(** Nothing was ever saved, and nothing has changed since [Make]. *)
Definition pristine rf : Prop :=
  raftstate (persister rf) = [] ∧ ps_snapshot (persister rf) = [] ∧ snapshot rf = [] ∧
  votedFor rf = None ∧
  persistentOf rf = (RS_Follower, 1, [mkEntry 1 LT_Noop 0 None], 0, 0, -1).

Definition durable rf : Prop := saved rf ∨ pristine rf.

Lemma persist_durable rf : durable (persist rf).
Proof. by left. Qed.

(** Changing only volatile fields. *)
Lemma durable_frame rf rf' : durable rf →
  persister rf' = persister rf → snapshot rf' = snapshot rf → votedFor rf' = votedFor rf →
  state rf' = state rf → currentTerm rf' = currentTerm rf → log rf' = log rf →
  snapshotIndex rf' = snapshotIndex rf → snapshotTerm rf' = snapshotTerm rf → durable rf'.
Proof.
  unfold durable, saved, pristine, persistentOf.
  intros Hd -> -> -> -> -> -> -> ->. done.
Qed.

Ltac dframe := eapply durable_frame; [eassumption|reflexivity..].

(** [volatile] closes a goal where the peer differs from a durable or a just
    persisted one in volatile fields only. *)
Ltac volatile :=
  first [ assumption | left; split; reflexivity | dframe ].

Lemma RequestVote_durable now args rf rf' reply :
  durable rf → RequestVote now args rf = Ret (rf', reply) → durable rf'.
Proof.
  intros Hd Hr. unfold RequestVote in Hr. inv_ret. repeat case_decide; inv_ret; volatile.
Qed.

Lemma AppendEntries_durable now args rf rf' reply :
  durable rf → AppendEntries now args rf = Ret (rf', reply) → durable rf'.
Proof.
  intros Hd Hr. unfold AppendEntries in Hr. case_decide; inv_ret; [done|].
  assert (durable (syncState now args rf)) as Hs by (unfold syncState; volatile).
  set (r := syncState now args rf) in *. clearbody r.
  repeat (case_decide; inv_ret); volatile.
Qed.

Lemma InstallSnapshot_durable args rf rf' reply :
  durable rf → InstallSnapshot args rf = Ret (rf', reply) → durable rf'.
Proof.
  intros Hd Hr. unfold InstallSnapshot in Hr. repeat (case_decide; inv_ret); volatile.
Qed.

Lemma Start_durable command rf rf' r :
  durable rf → Start command rf = Ret (rf', r) → durable rf'.
Proof. intros Hd Hr. unfold Start in Hr. case_decide; inv_ret; volatile. Qed.

Lemma Snapshot_durable index snap rf rf' :
  durable rf → Snapshot index snap rf = Ret rf' → durable rf'.
Proof. intros Hd Hr. unfold Snapshot in Hr. inv_ret. repeat (case_decide; inv_ret); volatile. Qed.

Lemma ticker_timeout_durable now rf rf' :
  durable rf → ticker_timeout now rf = Some rf' → durable rf'.
Proof. intros Hd Hr. unfold ticker_timeout in Hr. case_decide; simplify_eq. volatile. Qed.

Lemma election_start_durable rf rf' el : election_start rf = Ret (rf', el) → durable rf'.
Proof. intros Hr. unfold election_start in Hr. inv_ret. volatile. Qed.

Lemma election_promote_durable ballot rf rf' b :
  durable rf → election_promote ballot rf = Ret (rf', b) → durable rf'.
Proof. intros Hd Hr. unfold election_promote in Hr. case_decide; inv_ret; volatile. Qed.

Lemma syncSuccess_durable server n rf rf' :
  durable rf → syncSuccess server n rf = Ret rf' → durable rf'.
Proof. intros Hd Hr. unfold syncSuccess in Hr. inv_ret. case_decide; inv_ret; volatile. Qed.

Lemma handleFailedReply_durable server args reply rf rf' a :
  durable rf → handleFailedReply server args reply rf = Ret (rf', a) → durable rf'.
Proof.
  intros Hd Hr. unfold handleFailedReply in Hr. case_decide; inv_ret; [done|].
  repeat (case_match; inv_ret); volatile.
Qed.

Lemma snapshotReplied_durable server args reply rf rf' b :
  durable rf → snapshotReplied server args reply rf = Ret (rf', b) → durable rf'.
Proof. intros Hd Hr. unfold snapshotReplied in Hr. case_decide; inv_ret; volatile. Qed.

Lemma commitCheck_durable rf rf' : durable rf → commitCheck rf = Ret rf' → durable rf'.
Proof.
  intros Hd Hr. unfold commitCheck in Hr. inv_ret. repeat (case_match; inv_ret); volatile.
Qed.

Lemma applyEntries_durable rf rf' : wf rf → durable rf → applyEntries rf = Ret rf' → durable rf'.
Proof. intros Hwf Hd. rewrite applyEntries_spec by done. intros; inv_ret. volatile. Qed.

Lemma applySend_durable rf rf' m : durable rf → applySend rf = (m, rf') → durable rf'.
Proof.
  intros Hd. unfold applySend. destruct (applyQueue rf); simpl; intros; simplify_eq; volatile.
Qed.

(** ** The leader's tasks keep the invariant *)

Lemma wf_arrays rf rf' : wf rf →
  log rf' = log rf → lastApplied rf' = lastApplied rf → state rf' = state rf →
  length (nextIndex rf') = length (nextIndex rf) →
  length (matchIndex rf') = length (matchIndex rf) →
  peers rf' = peers rf → me rf' = me rf → wf rf'.
Proof.
  intros [] Hl Ha Hs Hn Hm Hp Hme. split; rewrite ?Hl, ?Ha, ?Hs, ?Hn, ?Hm, ?Hp, ?Hme; auto.
Qed.

Ltac arrays :=
  first [ assumption
        | eapply wf_arrays; simpl; rewrite ?length_insert; first [eassumption | reflexivity] ].

(** Replace every updated array by its definition. *)
Ltac open_sets :=
  repeat match goal with Hs : slice_set _ _ _ = Ret _ |- _ => apply slice_set_Ret in Hs as [_ ->] end.

Lemma syncSuccess_wf server n rf rf' : wf rf → syncSuccess server n rf = Ret rf' → wf rf'.
Proof.
  intros Hwf Hr. unfold syncSuccess in Hr. inv_ret. case_decide; inv_ret;
    open_sets;
    arrays.
Qed.

Lemma handleFailedReply_wf server args reply rf rf' a :
  wf rf → handleFailedReply server args reply rf = Ret (rf', a) → wf rf'.
Proof.
  intros Hwf Hr. unfold handleFailedReply in Hr. case_decide; inv_ret; [done|].
  repeat (case_match; inv_ret);
    open_sets;
    arrays.
Qed.

Lemma snapshotReplied_wf server args reply rf rf' b :
  wf rf → snapshotReplied server args reply rf = Ret (rf', b) → wf rf'.
Proof.
  intros Hwf Hr. unfold snapshotReplied in Hr. case_decide; inv_ret; [done|].
  open_sets.
  arrays.
Qed.

Lemma commitCheck_wf rf rf' : wf rf → commitCheck rf = Ret rf' → wf rf'.
Proof.
  intros Hwf Hr. unfold commitCheck in Hr. inv_ret. repeat (case_match; inv_ret); arrays.
Qed.

Lemma applySend_wf rf rf' m : wf rf → applySend rf = (m, rf') → wf rf'.
Proof.
  intros Hwf. unfold applySend. destruct (applyQueue rf); simpl; intros; simplify_eq; arrays.
Qed.

Lemma applyEntries_wf rf rf' : wf rf → applyEntries rf = Ret rf' → wf rf'.
Proof.
  intros Hwf. rewrite applyEntries_spec by done. intros [= <-]. destruct Hwf.
  split; simpl; auto. unfold due. lia.
Qed.

Lemma Start_wf command rf : wf rf →
  ∃ rf' r, Start command rf = Ret (rf', r) ∧ wf rf'.
Proof.
  intros Hwf. unfold Start. case_decide as Hs; [by eexists _, _|].
  pose proof (wf_ne _ Hwf) as Hne. pose proof (wf_me _ Hwf) as Hme. gostep Hne.
  assert (state rf = RS_Leader) as Hl by (destruct (state rf); naive_solver).
  pose proof (wf_leader _ Hwf Hl) as H2.
  rewrite globalLogLen_eq by (simpl; by destruct (log rf)). rewrite bind_Ret. simpl.
  rewrite gend_append by done.
  rewrite !slice_set_in by (rewrite ?(wf_next _ Hwf), ?(wf_match _ Hwf); unfold len;
    rewrite ?(wf_next _ Hwf), ?(wf_match _ Hwf); lia). simpl.
  set (rf' := (persist _) <| nextIndex := _ |> <| matchIndex := _ |>).
  assert (wf rf') as Hwf'.
  { eapply (wf_append rf rf' (mkEntry (currentTerm rf) LT_Normal (gend rf) command));
      simpl; rewrite ?length_insert; try done; try lia; apply Hwf. }
  rewrite externalIndex_eq; [|done|].
  - simpl. eexists _, _; split; done.
  - unfold rf'; simpl. rewrite gend_append by done. lia.
Qed.

(** ** Restart *)

(** The peer that [Make] builds from a saved state: [q] is the queue and [la]
    the last applied index it starts with. *)
Definition remade rf (now : Z) (q : list (ApplyMsg Cmd)) (la gll : Z) : Raft Cmd :=
  mkRaft (peers rf) (persister rf) (me rf) false (state rf) (currentTerm rf) (log rf)
    (votedFor rf) (snapshot rf) (snapshotIndex rf) (snapshotTerm rf) 0 la
    (replicate (peers rf) gll) (replicate (peers rf) 0) now q.

Definition remadeQueue rf : list (ApplyMsg Cmd) :=
  if decide (length (snapshot rf) ≠ 0%nat)
  then [snapshotMsg (snapshot rf) (snapshotIndex rf) (snapshotTerm rf)] else [].

Lemma readPersist_saved `{!CodecLaws (@persistent Cmd)} rf now e : saved rf →
  votedFor rf ≠ Some (-1) → log rf !! 0%nat = Some e →
  readPersist (ReadRaftState (persister rf)) (initRaft (peers rf) (me rf) (persister rf) now) =
  Ret (mkRaft (peers rf) (persister rf) (me rf) false (state rf) (currentTerm rf) (log rf)
    (votedFor rf) (snapshot rf) (snapshotIndex rf) (snapshotTerm rf) 0 (Index e) [] [] now []).
Proof.
  intros [Hs1 Hs2] Hv He. unfold readPersist, ReadRaftState, clone. rewrite Hs1.
  rewrite decide_False; swap 1 2.
  { pose proof (enc_nonempty (persistentOf rf)). destruct (enc _); simpl; [done|lia]. }
  rewrite dec_enc. unfold persistentOf.
  assert ((if decide (voteCode (votedFor rf) = -1) then None else Some (voteCode (votedFor rf)))
    = votedFor rf) as ->.
  { destruct (votedFor rf); simpl; [case_decide; congruence|done]. }
  unfold ReadSnapshot, clone. change (slice_get (log _) 0) with (slice_get (log rf) 0).
  rewrite (slice_get_nat (log rf) 0 e He : slice_get (log rf) 0 = Ret e).
  by rewrite bind_Ret, <- Hs2.
Qed.

(** [Make] on the persister of a saved peer recovers the persistent state and
    replays the snapshot; everything volatile is reset. *)
Lemma Make_saved `{!CodecLaws (@persistent Cmd)} rf now : wf rf → saved rf →
  votedFor rf ≠ Some (-1) →
  Make (peers rf) (me rf) (persister rf) now =
    Ret (remade rf now (remadeQueue rf) (base rf) (gend rf)).
Proof.
  intros Hwf Hs Hv. destruct (log_first rf (wf_ne _ Hwf)) as (e & He & Hb).
  unfold Make. rewrite (readPersist_saved rf now e) by done. rewrite bind_Ret, Hb.
  unfold remadeQueue. set (r := mkRaft _ _ _ _ _ _ _ _ _ _ _ _ _ _ _ _ _).
  change (snapshot r) with (snapshot rf). case_decide.
  - change (slice_get (log r) 0) with (slice_get (log rf) 0).
    rewrite (slice_get_nat (log rf) 0 e He : slice_get (log rf) 0 = Ret e), bind_Ret, bind_mret.
    rewrite globalLogLen_eq by apply Hwf. rewrite bind_Ret, <- Hb. done.
  - rewrite bind_mret, globalLogLen_eq by apply Hwf. done.
Qed.

Lemma Make_pristine rf now : pristine rf →
  Make (peers rf) (me rf) (persister rf) now = Ret (remade rf now [] 1 1).
Proof.
  unfold pristine, persistentOf, remade. destruct rf; simpl.
  intros (Hr & Hs & -> & -> & ?). simplify_eq. unfold Make, ReadRaftState, clone. simpl.
  by rewrite Hr.
Qed.

Lemma pristine_log rf : pristine rf →
  log rf = [mkEntry 1 LT_Noop 0 None] ∧ snapshotIndex rf = 0.
Proof. unfold pristine, persistentOf. intros (_ & _ & _ & _ & Hp). by injection Hp. Qed.

(** ** The invariant of a reachable peer *)

Record nodeInv rf (s : Z) : Prop := {
  ni_wf : wf rf;
  ni_durable : durable rf;
  ni_stream : stream_end s (applyQueue rf) = Some (extOf rf (lastApplied rf));
  ni_snap : snapshot rf = [] → snapshotIndex rf = 0;
  ni_vote : ∀ c, votedFor rf = Some c → 0 ≤ c;
}.

Lemma remade_wf rf now q la gll : wf rf → (la = base rf ∨ la = 1 ∧ base rf = 0) →
  wf (remade rf now q la gll).
Proof.
  intros [] Hla. split; simpl; rewrite ?length_replicate; auto.
  pose proof (len_log_pos rf wf_ne). unfold gendL in *. lia.
Qed.

(** A step that keeps the log, the queue and what was applied. *)
Lemma nodeInv_frame rf rf' s : nodeInv rf s → wf rf' → durable rf' →
  log rf' = log rf → lastApplied rf' = lastApplied rf → applyQueue rf' = applyQueue rf →
  snapshotIndex rf' = snapshotIndex rf → snapshot rf' = snapshot rf →
  (∀ c, votedFor rf' = Some c → votedFor rf = Some c ∨ 0 ≤ c) → nodeInv rf' s.
Proof.
  intros [Hwf Hd Hst Hsn Hv] Hwf' Hd' Hl Hla Hq Hsi Hsnap Hvote.
  split; rewrite ?Hq, ?Hla, ?Hsi, ?Hsnap; auto.
  - rewrite (extOf_same rf rf'); auto.
  - intros c [?|?]%Hvote; auto.
Qed.


(** A step that appends to the log or replaces its tail. *)
Lemma nodeInv_extend rf rf' s n es : nodeInv rf s → wf rf' → durable rf' →
  (1 ≤ n ≤ length (log rf))%nat → log rf' = take n (log rf) ++ es →
  lastApplied rf ≤ Z.max 1 (base rf + Z.of_nat n - 1) →
  lastApplied rf' = lastApplied rf → applyQueue rf' = applyQueue rf →
  snapshotIndex rf' = snapshotIndex rf → snapshot rf' = snapshot rf →
  (∀ c, votedFor rf' = Some c → votedFor rf = Some c ∨ 0 ≤ c) → nodeInv rf' s.
Proof.
  intros [Hwf Hd Hst Hsn Hv] Hwf' Hd' Hn Hl Hbound Hla Hq Hsi Hsnap Hvote.
  split; rewrite ?Hq, ?Hla, ?Hsi, ?Hsnap; auto.
  - rewrite (extOf_extend rf rf' n es); auto.
  - intros c [?|?]%Hvote; auto.
Qed.

Lemma nodeInv_append rf rf' s e : nodeInv rf s → wf rf' → durable rf' →
  log rf' = log rf ++ [e] → lastApplied rf' = lastApplied rf → applyQueue rf' = applyQueue rf →
  snapshotIndex rf' = snapshotIndex rf → snapshot rf' = snapshot rf →
  votedFor rf' = votedFor rf → nodeInv rf' s.
Proof.
  intros HI Hwf' Hd' Hl Hla Hq Hsi Hsnap Hv. pose proof (ni_wf _ _ HI) as Hwf.
  pose proof (len_log_pos rf (wf_ne _ Hwf)). pose proof (wf_applied _ Hwf).
  unfold gendL, len in *.
  eapply (nodeInv_extend rf rf' s (length (log rf)) [e]); eauto.
  - lia.
  - by rewrite firstn_all.
  - lia.
  - intros c ?. left. congruence.
Qed.

Lemma syncState_vote now args rf c :
  votedFor (syncState now args rf) = Some c → votedFor rf = Some c.
Proof. unfold syncState. by case_decide. Qed.

Lemma AppendEntries_vote now args rf rf' reply c :
  AppendEntries now args rf = Ret (rf', reply) → votedFor rf' = Some c → votedFor rf = Some c.
Proof.
  intros Hr. unfold AppendEntries in Hr. case_decide; inv_ret; [done|].
  pose proof (syncState_vote now args rf c) as Hs.
  set (r := syncState now args rf) in *. clearbody r.
  repeat (case_decide; inv_ret); auto.
Qed.

Lemma InstallSnapshot_inv args rf rf' reply : wf rf → isOk args →
  InstallSnapshot args rf = Ret (rf', reply) →
  rf' = rf ∨
  (lastApplied rf' = base rf' ∧ snapshotIndex rf' = is_LastIncludedIndex args ∧
   snapshot rf' = is_Data args ∧ votedFor rf' = votedFor rf ∧
   applyQueue rf' = [snapshotMsg (is_Data args) (is_LastIncludedIndex args)
                       (is_LastIncludedTerm args)]).
Proof.
  intros Hwf Hok Hr. unfold InstallSnapshot in Hr. repeat (case_decide; [inv_ret; by left|]).
  right. destruct (snapshotLog_cases args rf (wf_ne _ Hwf)) as [Hl|(k & e & _ & _ & _ & Hl)];
    rewrite Hl in Hr; inv_ret;
    match goal with Hg : slice_get _ 0 = Ret ?x |- _ =>
      assert (x = snapshotEntry args) as -> by (injection Hg; auto) end; done.
Qed.

Lemma nodeInv_install args rf rf' reply s : nodeInv rf s → isOk args → is_Data args ≠ [] →
  InstallSnapshot args rf = Ret (rf', reply) → nodeInv rf' s.
Proof.
  intros HI Hok Hne Hr. pose proof (ni_wf _ _ HI) as Hwf.
  destruct (InstallSnapshot_wf args rf Hwf Hok) as (r & reply' & Hr' & Hwf').
  rewrite Hr in Hr'. injection Hr' as <- <-.
  pose proof (InstallSnapshot_durable _ _ _ _ (ni_durable _ _ HI) Hr) as Hd'.
  destruct (InstallSnapshot_inv _ _ _ _ Hwf Hok Hr) as [->|(Hla & Hsi & Hsn & Hv & Hq)]; [done|].
  split; auto.
  - rewrite Hq, Hla. simpl. by rewrite extOf_base, Hsi.
  - rewrite Hsn. done.
  - rewrite Hv. apply HI.
Qed.

(** [Snapshot] refuses, or cuts the log at a command that was applied. *)
Lemma Snapshot_cases index snap rf rf' : wf rf → index ≤ extOf rf (gend rf - 1) →
  Snapshot index snap rf = Ret rf' →
  rf' = rf ∨ ∃ k e, log rf !! k = Some e ∧ extOf rf (base rf + Z.of_nat k) = index ∧
    snapshotIndex rf < index ∧ base rf + Z.of_nat k ≤ lastApplied rf ∧
    rf' = persist (rf <| log := noopOf e :: drop (S k) (log rf) |> <| snapshot := snap |>
                      <| snapshotIndex := index |> <| snapshotTerm := Term e |>).
Proof.
  intros Hwf Hidx Hr. destruct (decide (index ≤ snapshotIndex rf)) as [Hle|Hgt].
  { left. unfold Snapshot in Hr. inv_ret. rewrite decide_True in Hr by lia. by inv_ret. }
  destruct (internalIndex_hit rf index Hwf) as (k & e & Hk & He & Hint & Hext); [lia|].
  destruct (decide (lastApplied rf < base rf + Z.of_nat k)) as [Hlt|Hge].
  { left. unfold Snapshot in Hr. rewrite Hint, bind_Ret in Hr. case_decide; [lia|].
    case_decide; [by inv_ret|lia]. }
  assert (lastApplied rf < gend rf) as Hla.
  { pose proof (wf_applied _ Hwf). pose proof (wf_base _ Hwf). apply lookup_lt_Some in Hk as Hlt.
    destruct (decide (k = 0%nat)) as [->|]; [|unfold gendL, len in *; lia].
    exfalso. apply He, (wf_first _ Hwf). done. }
  destruct (Snapshot_spec index snap rf Hwf) as (k' & e' & Hk' & He' & Hext' & Hle & HS); [|done|].
  { split; [lia|]. rewrite <- Hext. apply extOf_mono. lia. }
  right. exists k', e'. do 2 (split; [done|]). split; [lia|]. split; [done|]. congruence.
Qed.

Lemma nodeInv_snapshot index snap rf rf' s : nodeInv rf s → snap ≠ [] →
  index ≤ extOf rf (gend rf - 1) → Snapshot index snap rf = Ret rf' → nodeInv rf' s.
Proof.
  intros HI Hne Hidx Hr. pose proof (ni_wf _ _ HI) as Hwf.
  destruct (Snapshot_wf index snap rf Hwf) as (r & Hr' & Hwf'). rewrite Hr in Hr'.
  injection Hr' as <-. pose proof (Snapshot_durable _ _ _ _ (ni_durable _ _ HI) Hr) as Hd'.
  destruct (Snapshot_cases index snap rf rf' Hwf Hidx Hr) as [->|(k & e & Hk & Hext & _ & Hle & ->)];
    [done|]. split; auto.
  - etrans; [apply HI|]. f_equal. symmetry. eapply (extOf_cut rf _ k e);
      [done|apply Hwf|reflexivity|by symmetry|done].
  - done.
  - apply HI.
Qed.

Lemma nodeInv_restart `{!CodecLaws (@persistent Cmd)} now rf rf' s : nodeInv rf s →
  Make (peers rf) (me rf) (persister rf) now = Ret rf' → nodeInv rf' 0.
Proof.
  intros [Hwf Hd Hst Hsn Hv] Hr. destruct Hd as [Hs|Hp].
  - assert (votedFor rf ≠ Some (-1)) as Hv1 by (intros ?%Hv; lia).
    rewrite (Make_saved rf now Hwf Hs Hv1) in Hr. injection Hr as <-.
    assert (wf (remade rf now (remadeQueue rf) (base rf) (gend rf))) as Hwf'
      by (apply remade_wf; auto).
    split; [done|left; by destruct Hs| |done|done].
    change (lastApplied _) with (base (remade rf now (remadeQueue rf) (base rf) (gend rf))).
    rewrite extOf_base by done. simpl. unfold remadeQueue. case_decide as Hl; simpl; [done|].
    rewrite Hsn; [done|]. by destruct (snapshot rf).
  - rewrite (Make_pristine rf now Hp) in Hr. injection Hr as <-.
    destruct (pristine_log rf Hp) as [Hl Hsi].
    split; [|by right| |done|done].
    + apply remade_wf; [done|]. right. by rewrite Hl.
    + simpl. unfold extOf. simpl. by rewrite Hl, Hsi.
Qed.

Lemma nodeInv_make n meId now rf : 0 ≤ meId < Z.of_nat n →
  Make n meId MakePersister now = Ret rf → nodeInv rf 0.
Proof.
  intros Hme Hr. injection Hr as <-.
  split; [| right; by repeat split | done | done | done].
  split; simpl; rewrite ?length_replicate; try done.
  - by apply contiguous_single.
  - intros e He. by simplify_eq/=.
  - intros e ->%list_elem_of_singleton. done.
Qed.

Lemma nodeInv_send rf rf' m s : nodeInv rf s → applySend rf = (Some m, rf') →
  nodeInv rf' (served s m) ∧ (CommandValid m = true → CommandIndex m = s + 1).
Proof.
  intros HI Hr. pose proof (applySend_wf _ _ _ (ni_wf _ _ HI) Hr) as Hwf'.
  pose proof (applySend_durable _ _ _ (ni_durable _ _ HI) Hr) as Hd'.
  unfold applySend in Hr. pose proof (ni_stream _ _ HI) as Hst.
  destruct (applyQueue rf) as [|m' q] eqn:Hq; simpl in Hr; simplify_eq. simpl in Hst.
  assert (stream_end (served s m) q = Some (extOf rf (lastApplied rf)) ∧
    (CommandValid m = true → CommandIndex m = s + 1)) as [Hst' Hidx].
  { unfold served. destruct (CommandValid m); [|by destruct (SnapshotValid m)].
    case_decide as Hi; [|done]. by rewrite Hi. }
  split; [|done]. split; auto; apply HI.
Qed.

(** [frame HI] closes the steps that touch neither the log nor the queue. *)
Ltac frame HI :=
  first [ exact HI
        | eapply nodeInv_frame; [exact HI|assumption|assumption|reflexivity..|];
          intros ? Hvote; first [left; exact Hvote | right; assumption] ].

Lemma nodeInv_vote now args rf rf' reply s : nodeInv rf s → 0 ≤ rv_CandiateId args →
  RequestVote now args rf = Ret (rf', reply) → nodeInv rf' s.
Proof.
  intros HI Hc Hr. pose proof (RequestVote_durable _ _ _ _ _ (ni_durable _ _ HI) Hr) as Hd'.
  destruct (RequestVote_wf now args rf (ni_wf _ _ HI)) as (r & rep & Hr' & Hwf').
  rewrite Hr in Hr'. injection Hr' as <- <-.
  assert (log rf' = log rf ∧ lastApplied rf' = lastApplied rf ∧ applyQueue rf' = applyQueue rf ∧
    snapshotIndex rf' = snapshotIndex rf ∧ snapshot rf' = snapshot rf ∧
    ∀ c, votedFor rf' = Some c → votedFor rf = Some c ∨ 0 ≤ c) as (?&?&?&?&?&?).
  { clear Hd' Hwf'. unfold RequestVote in Hr. inv_ret. repeat case_decide; inv_ret;
      (do 5 (split; [reflexivity|])); intros c Hv;
      first [left; exact Hv | change (Some (rv_CandiateId args) = Some c) in Hv; right; congruence
            | by change (None = Some c) in Hv]. }
  by eapply nodeInv_frame.
Qed.

Lemma nodeInv_appendEntries now args rf rf' reply s : nodeInv rf s → aeOk args →
  AppendEntries now args rf = Ret (rf', reply) → nodeInv rf' s.
Proof.
  intros HI Hok Hr. pose proof (AppendEntries_durable _ _ _ _ _ (ni_durable _ _ HI) Hr) as Hd'.
  destruct (AppendEntries_wf now args rf (ni_wf _ _ HI) Hok) as (r & rep & Hr' & Hwf').
  rewrite Hr in Hr'. injection Hr' as <- <-.
  destruct (AppendEntries_log _ _ _ _ _ (ni_wf _ _ HI) Hr)
    as (Hla & Hq & Hsi & Hsn & [Hl|(n & Hn & Hl & Hb)]).
  - eapply nodeInv_frame; eauto using AppendEntries_vote.
  - eapply nodeInv_extend; eauto using AppendEntries_vote.
Qed.

Lemma nodeInv_start command rf rf' r s : nodeInv rf s →
  Start command rf = Ret (rf', r) → nodeInv rf' s.
Proof.
  intros HI Hr. pose proof (Start_durable _ _ _ _ (ni_durable _ _ HI) Hr) as Hd'.
  destruct (Start_wf command rf (ni_wf _ _ HI)) as (r1 & r2 & Hr' & Hwf').
  rewrite Hr in Hr'. injection Hr' as <- <-. unfold Start in Hr.
  case_decide; inv_ret; [done|]. by eapply nodeInv_append.
Qed.

Lemma nodeInv_promote ballot rf rf' b s : nodeInv rf s →
  election_promote ballot rf = Ret (rf', b) → nodeInv rf' s.
Proof.
  intros HI Hr. pose proof (election_promote_durable _ _ _ _ (ni_durable _ _ HI) Hr) as Hd'.
  destruct (election_promote_wf ballot rf (ni_wf _ _ HI)) as (r1 & r2 & Hr' & Hwf').
  rewrite Hr in Hr'. injection Hr' as <- <-. unfold election_promote in Hr.
  case_decide; inv_ret; [|done]. by eapply nodeInv_append.
Qed.

Lemma nodeInv_apply rf rf' s : nodeInv rf s → applyEntries rf = Ret rf' → nodeInv rf' s.
Proof.
  intros HI Hr. pose proof (ni_wf _ _ HI) as Hwf.
  pose proof (applyEntries_wf _ _ Hwf Hr) as Hwf'.
  pose proof (applyEntries_durable _ _ Hwf (ni_durable _ _ HI) Hr) as Hd'.
  rewrite applyEntries_spec in Hr by done. injection Hr as <-.
  split; [done|done| |apply HI|apply HI].
  simpl. rewrite stream_end_app, (ni_stream _ _ HI). simpl. rewrite stream_end_number. f_equal.
  pose proof (wf_applied _ Hwf). unfold extOf at 2. simpl. unfold extOf, batch.
  replace (Z.to_nat (due rf - base rf + 1))
    with (Z.to_nat (lastApplied rf - base rf + 1) + Z.to_nat (due rf - lastApplied rf))%nat
    by (unfold due; lia).
  rewrite normals_take_split.
  replace (Z.to_nat (lastApplied rf + 1 - base rf))
    with (Z.to_nat (lastApplied rf - base rf + 1)) by lia. lia.
Qed.

(** Every step keeps the invariant. *)
Lemma nodeInv_step `{!CodecLaws (@persistent Cmd)} rf s rf' s' :
  nodeInv rf s → node_step rf s rf' s' → nodeInv rf' s'.
Proof.
  intros HI Hst. pose proof (ni_wf _ _ HI) as Hwf. pose proof (ni_durable _ _ HI) as Hd.
  destruct Hst as [now args rf rf' reply s Hc Hr|now args rf rf' reply s Hok Hr
    |args rf rf' reply s Hok Hne Hr|command rf rf' r s Hr|index snap rf rf' s Hne Hi Hr
    |now rf rf' s Hr|rf rf' el s Hr|ballot rf rf' b s Hr|rf rf' s Hr|rf rf' m s Hr
    |server n rf rf' s Hr|server args reply rf rf' a s Hr|server args reply rf rf' b s Hr
    |rf rf' s Hr|rf s|now rf rf' s Hr].
  - by eapply nodeInv_vote.
  - by eapply nodeInv_appendEntries.
  - by eapply nodeInv_install.
  - by eapply nodeInv_start.
  - by eapply nodeInv_snapshot.
  - pose proof (ticker_timeout_wf _ _ _ Hwf Hr). pose proof (ticker_timeout_durable _ _ _ Hd Hr).
    unfold ticker_timeout in Hr. case_decide; simplify_eq. frame HI.
  - destruct (election_start_wf rf Hwf) as (r & ? & Hr' & ?).
    pose proof (election_start_durable _ _ _ Hr). rewrite Hr in Hr'. injection Hr' as <- <-.
    unfold election_start in Hr. inv_ret. eapply nodeInv_frame; [exact HI|done|done|reflexivity..|].
    intros c Hv. change (Some (me rf) = Some c) in Hv. right. injection Hv as <-. apply Hwf.
  - by eapply nodeInv_promote.
  - by eapply nodeInv_apply.
  - by eapply nodeInv_send.
  - pose proof (syncSuccess_wf _ _ _ _ Hwf Hr). pose proof (syncSuccess_durable _ _ _ _ Hd Hr).
    unfold syncSuccess in Hr. inv_ret. case_decide; inv_ret; frame HI.
  - pose proof (handleFailedReply_wf _ _ _ _ _ _ Hwf Hr).
    pose proof (handleFailedReply_durable _ _ _ _ _ _ Hd Hr).
    unfold handleFailedReply in Hr. case_decide; inv_ret; [done|].
    repeat (case_match; inv_ret); frame HI.
  - pose proof (snapshotReplied_wf _ _ _ _ _ _ Hwf Hr).
    pose proof (snapshotReplied_durable _ _ _ _ _ _ Hd Hr).
    unfold snapshotReplied in Hr. case_decide; inv_ret; frame HI.
  - pose proof (commitCheck_wf _ _ Hwf Hr). pose proof (commitCheck_durable _ _ Hd Hr).
    unfold commitCheck in Hr. inv_ret. repeat (case_match; inv_ret); frame HI.
  - assert (wf (Kill rf)) by arrays. assert (durable (Kill rf)) by volatile. frame HI.
  - by eapply nodeInv_restart.
Qed.

Lemma reachable_inv `{!CodecLaws (@persistent Cmd)} n meId rf s :
  0 ≤ meId < Z.of_nat n → reachable n meId rf s → nodeInv rf s.
Proof.
  intros Hme. induction 1; eauto using nodeInv_make, nodeInv_step.
Qed.

(** ** What every reachable peer guarantees *)

Context `{!CodecLaws (@persistent Cmd)}.

(** C6: the stream of the service.  Whatever the peer has gone through, elections,
    log truncation, snapshots taken and installed, crashes, each command that
    the sender goroutine hands to the service carries the external index right
    after the last message the service has read, and what is still queued goes
    on from there, up to the external index of [lastApplied]. *)
Theorem stream_in_order n meId rf s m rf' :
  0 ≤ meId < Z.of_nat n → reachable n meId rf s → applySend rf = (Some m, rf') →
  (CommandValid m = true → CommandIndex m = s + 1) ∧
  stream_end (served s m) (applyQueue rf') = Some (extOf rf' (lastApplied rf')).
Proof.
  intros Hme HI%reachable_inv Hr; [|done]. destruct (nodeInv_send _ _ _ _ HI Hr) as [HI' Hm].
  split; [done|apply HI'].
Qed.

(** C24: crash recovery.  At any reachable point, restarting the peer from its
    persister returns, with the term, vote, role, log and snapshot that it had
    in memory; nothing that an RPC was answered with is forgotten. *)
Theorem restart_recovers n meId rf s now :
  0 ≤ meId < Z.of_nat n → reachable n meId rf s →
  ∃ rf', Make (peers rf) (me rf) (persister rf) now = Ret rf' ∧
    persistentOf rf' = persistentOf rf ∧ votedFor rf' = votedFor rf ∧
    snapshot rf' = snapshot rf ∧ persister rf' = persister rf ∧
    stream_end 0 (applyQueue rf') = Some (extOf rf' (lastApplied rf')).
Proof.
  intros Hme HI%reachable_inv; [|done].
  assert (∃ q la gll, Make (peers rf) (me rf) (persister rf) now = Ret (remade rf now q la gll))
    as (q & la & gll & Hr).
  { destruct HI as [Hwf [Hs|Hp] _ _ Hv].
    - rewrite Make_saved by (done || intros ?%Hv; lia). eauto.
    - rewrite Make_pristine by done. eauto. }
  pose proof (nodeInv_restart _ _ _ _ HI Hr) as HI'.
  exists (remade rf now q la gll). split; [done|]. do 4 (split; [done|]). apply HI'.
Qed.

End steps.

(** ** Examples *)

Section examples.
#[local] Existing Instance Zcodec.
#[local] Existing Instance Zcodec_laws.

(** A follower that got the no-op and one command of the leader of term 2. *)
Definition follower0 : Raft Z := valueOf (initRaft 3 1 MakePersister 0) (Make 3 1 MakePersister 0).
Definition firstEntries : AppendEntriesArgs Z :=
  mkAEArgs 2 0 0 1 [mkEntry 2 LT_Noop 1 None; mkEntry 2 LT_Normal 2 (Some 7)] 2.
Definition follower1 : Raft Z :=
  (valueOf (follower0, mkAEReply 0 false 0 0 0) (AppendEntries 5 firstEntries follower0)).1.
Definition follower2 : Raft Z := valueOf follower1 (applyEntries follower1).

Lemma follower2_reachable : reachable 3 1 follower2 0.
Proof.
  assert (reachable 3 1 follower1 0) as H1.
  { eapply reach_step; [eapply (reach_make _ _ 0 follower0); reflexivity|].
    eapply (ns_append 5 firstEntries _ _ (mkAEReply 2 true 0 1 1)); [|vm_compute; reflexivity]. split.
    - intros [|[|i]] e He; simplify_eq/=; done.
    - intros e [->|[->|?%not_elem_of_nil]%elem_of_cons]%elem_of_cons; done. }
  eapply reach_step; [exact H1|]. eapply ns_apply. vm_compute; reflexivity.
Qed.

Lemma stream_in_order_witness : ∃ m rf', reachable 3 1 follower2 0 ∧
  applySend follower2 = (Some m, rf') ∧ m = commandMsg (Some 7) 1 ∧
  (CommandValid m = true → CommandIndex m = 0 + 1) ∧
  stream_end (served 0 m) (applyQueue rf') = Some (extOf rf' (lastApplied rf')).
Proof.
  exists (commandMsg (Some 7) 1), (applySend follower2).2.
  assert (applySend follower2 = (Some (commandMsg (Some 7) 1), (applySend follower2).2)) as Hs
    by (vm_compute; reflexivity).
  split; [apply follower2_reachable|]. split; [done|]. split; [done|].
  apply (stream_in_order 3 1 follower2 0); [lia|apply follower2_reachable|done].
Defined.

Lemma restart_recovers_witness : reachable 3 1 follower2 0 ∧
  ∃ rf', Make (peers follower2) (me follower2) (persister follower2) 9 = Ret rf' ∧
    persistentOf rf' = persistentOf follower2 ∧ votedFor rf' = votedFor follower2 ∧
    snapshot rf' = snapshot follower2 ∧ persister rf' = persister follower2 ∧
    stream_end 0 (applyQueue rf') = Some (extOf rf' (lastApplied rf')).
Proof.
  split; [apply follower2_reachable|].
  apply (restart_recovers 3 1 follower2 0 9); [lia|apply follower2_reachable].
Defined.

End examples.
