(* ===== verification/RaftLeader.v ===== *)
(** * Raft: the tasks of a leader

    [commitCheck] against a reference definition (the index that a majority
    holds is an order statistic of [matchIndex]), the requests that
    [syncEntries] builds, and the totality of [handleFailedReply], whose last
    line the source marks unreachable. *)

From S2P Require Import Prelude RaftState RaftNode RaftInv RaftIndex RaftApply.
Local Open Scope Z_scope.

Section commit.

(** ** The index a majority holds *)

#[export] Instance Zge_total : Total Z.ge.
Proof. intros x y. lia. Qed.
#[export] Instance Zge_trans : Transitive Z.ge.
Proof. intros x y z. lia. Qed.

(** The [k]-th largest element, counting from 1. *)
Definition kthLargest (k : nat) (l : list Z) : option Z := merge_sort Z.ge l !! (k - 1)%nat.

Lemma matchCount_perm l1 l2 N : l1 ≡ₚ l2 → matchCount l1 N = matchCount l2 N.
Proof. intros Hp. unfold matchCount, len. by rewrite Hp. Qed.

Lemma matchCount_cons x l N :
  matchCount (x :: l) N = (if decide (x >= N) then 1 else 0) + matchCount l N.
Proof. unfold matchCount. rewrite filter_cons. case_decide; rewrite ?len_cons; lia. Qed.

Lemma matchCount_nonneg l N : 0 ≤ matchCount l N.
Proof. apply len_nonneg. Qed.

Lemma matchCount_none l N : Forall (λ x, ¬ x >= N) l → matchCount l N = 0.
Proof.
  induction 1 as [|x l Hx _ IH]; [done|]. rewrite matchCount_cons, decide_False by done. lia.
Qed.

(** In a descending list, [k] elements reach [N] exactly when the [k]-th does. *)
Lemma matchCount_sorted l N k x : StronglySorted Z.ge l → l !! k = Some x →
  matchCount l N >= Z.of_nat k + 1 ↔ x >= N.
Proof.
  intros Hs. revert k. induction Hs as [|y l Hs IH Hy]; intros k Hk; [done|].
  rewrite matchCount_cons. destruct k as [|k]; simplify_eq/=.
  - case_decide as Hc; [pose proof (matchCount_nonneg l N); lia|].
    rewrite matchCount_none; [lia|]. eapply Forall_impl; [done|]. simpl. lia.
  - specialize (IH k Hk). assert (y >= x) as Hyx.
    { rewrite Forall_lookup in Hy. by eapply Hy. }
    case_decide as Hc; [lia|]. split; [|lia]. intros ?. exfalso.
    assert (matchCount l N = 0); [|lia]. apply matchCount_none.
    eapply Forall_impl; [done|]. simpl. lia.
Qed.

Lemma kthLargest_spec k l N : (1 ≤ k ≤ length l)%nat →
  ∃ q, kthLargest k l = Some q ∧ (matchCount l N >= Z.of_nat k ↔ N ≤ q).
Proof.
  intros Hk. unfold kthLargest. pose proof (merge_sort_Permutation Z.ge l) as Hp.
  destruct (lookup_lt_is_Some_2 (merge_sort Z.ge l) (k - 1)) as [q Hq].
  { rewrite (Permutation_length Hp). lia. }
  exists q. split; [done|]. rewrite <- (matchCount_perm _ _ N Hp).
  assert (StronglySorted Z.ge (merge_sort Z.ge l)) as Hs by (apply StronglySorted_merge_sort; apply _).
  pose proof (matchCount_sorted _ N _ _ Hs Hq) as Hm.
  replace (Z.of_nat (k - 1) + 1) with (Z.of_nat k) in Hm by lia. rewrite Hm. lia.
Qed.

End commit.

Section leader.
Context {Cmd : Type} `{Codec (@persistent Cmd)}.
Implicit Types (rf : Raft Cmd) (l : list (logEntry Cmd)).

(** The largest index that a majority of the peers is known to hold. *)
Definition quorumIndex rf : Z :=
  default 0 (kthLargest (Z.to_nat (majority rf)) (matchIndex rf)).

Lemma quorumIndex_spec rf N : wf rf →
  matchCount (matchIndex rf) N >= majority rf ↔ N ≤ quorumIndex rf.
Proof.
  intros Hwf. pose proof (wf_me _ Hwf). pose proof (wf_match _ Hwf). unfold quorumIndex.
  assert (1 ≤ majority rf ≤ Z.of_nat (peers rf)) as Hm.
  { unfold majority. pose proof (Z.div_pos (Z.of_nat (peers rf)) 2).
    pose proof (Z.div_lt (Z.of_nat (peers rf)) 2). lia. }
  destruct (kthLargest_spec (Z.to_nat (majority rf)) (matchIndex rf) N) as (q & -> & Hq); [lia|].
  simpl. by rewrite <- Hq, Z2Nat.id by lia.
Qed.

(** ** [commitCheck] *)

Lemma commitCheck_loop_spec fuel rf gll N new : wf rf →
  new = N ∨ new = N - 1 → (Z.to_nat (gll - N + 1) < fuel)%nat →
  N - 1 ≤ quorumIndex rf ∨ new = N →
  commitCheck_loop fuel rf gll N new (bool_decide (new ≠ N)) =
    Ret (if decide (new < gll ∧ N ≤ quorumIndex rf) then Z.min gll (quorumIndex rf) else new,
         bool_decide (new ≠ N) || bool_decide (new < gll ∧ N ≤ quorumIndex rf)).
Proof.
  intros Hwf. revert N new. induction fuel as [|fuel IH]; intros N new Hnew Hf Hq; [lia|].
  simpl. case_decide as Hg.
  - destruct (decide (N ≤ quorumIndex rf)) as [HN|HN].
    + rewrite decide_True by (by apply quorumIndex_spec).
      specialize (IH (N + 1) N). rewrite (bool_decide_eq_true_2 (N ≠ N + 1)) in IH by lia.
      rewrite IH; [|lia|lia|lia].
      rewrite (decide_True (P := new < gll ∧ N ≤ quorumIndex rf)) by done.
      rewrite (bool_decide_eq_true_2 (new < gll ∧ N ≤ quorumIndex rf)) by done.
      rewrite orb_true_r. simpl. do 2 f_equal. case_decide; lia.
    + rewrite decide_False by (rewrite quorumIndex_spec; done).
      rewrite decide_False by lia. rewrite (bool_decide_eq_false_2 (new < gll ∧ _)) by lia.
      by rewrite orb_false_r.
  - rewrite decide_False by lia. rewrite (bool_decide_eq_false_2 (new < gll ∧ _)) by lia.
    by rewrite orb_false_r.
Qed.

(** Whether the leader may commit index [q]: the entry is of its own term, or
    has already gone into the snapshot. *)
Definition committable rf (q : Z) : Prop :=
  q < base rf ∨ ∃ e, log rf !! Z.to_nat (q - base rf) = Some e ∧ Term e = currentTerm rf.

#[export] Instance committable_dec rf q : Decision (committable rf q).
Proof.
  unfold committable. destruct (log rf !! Z.to_nat (q - base rf)) as [e|].
  - destruct (decide (q < base rf ∨ Term e = currentTerm rf)); [left|right]; naive_solver.
  - destruct (decide (q < base rf)); [left|right]; naive_solver.
Defined.

(** The reference definition of the new commit index. *)
Definition commitSpec rf : Z :=
  let q := quorumIndex rf in
  if decide (commitIndex rf < q < gend rf ∧ committable rf q) then q else commitIndex rf.

Lemma commitIndex_id rf : rf <| commitIndex := commitIndex rf |> = rf.
Proof. by destruct rf. Qed.

Lemma commitCheck_spec rf : wf rf →
  commitCheck rf = Ret (rf <| commitIndex := commitSpec rf |>).
Proof.
  intros Hwf. pose proof (wf_ne _ Hwf) as Hne. unfold commitCheck, commitSpec. gostep Hne.
  set (q := quorumIndex rf). set (c := commitIndex rf).
  pose proof (commitCheck_loop_spec (S (S (Z.to_nat (gend rf - (c + 1))))) rf (gend rf)
    (c + 1) (c + 1) Hwf) as Hloop.
  rewrite bool_decide_eq_false_2 in Hloop by lia. rewrite Hloop by lia. fold q. clear Hloop.
  rewrite bind_Ret. simpl orb. case_bool_decide as Hch; swap 1 2.
  { rewrite (decide_False (P := c < q < _ ∧ _)) by (unfold c, q in *; lia).
    unfold c. by rewrite commitIndex_id. }
  rewrite decide_True by done. gostep Hne.
  destruct (decide (q < gend rf)) as [Hq|Hq].
  - replace (gend rf `min` q) with q by lia.
    destruct (decide (committable rf q)) as [Hc|Hc].
    + rewrite (decide_True (P := c < q < _ ∧ _)) by (split; [lia|done]).
      assert ((if decide (q - base rf < 0) then mret true
               else if decide (q < gend rf) then
                 e ← slice_get (log rf) (q - base rf);
                 mret (bool_decide (Term e = currentTerm rf))
               else mret false) = Ret true) as ->.
      { destruct Hc as [Hc|(e & He & Ht)]; [by rewrite decide_True by lia|].
        case_decide; [done|]. rewrite decide_True by done. unfold slice_get.
        rewrite decide_False, He by lia. simpl. by rewrite bool_decide_eq_true_2. }
      rewrite bind_Ret, externalIndex_eq by done. done.
    + rewrite (decide_False (P := c < q < _ ∧ _)) by tauto. unfold c. rewrite commitIndex_id.
      rewrite decide_False by (unfold committable in Hc; lia). rewrite decide_True by done.
      destruct (slice_get_in (log rf) (q - base rf)) as (e & -> & He).
      { unfold committable, gendL in *. lia. }
      rewrite bind_Ret, bool_decide_eq_false_2; [done|].
      intros Ht. apply Hc. right. by exists e.
  - rewrite (decide_False (P := c < q < _ ∧ _)) by lia. unfold c. rewrite commitIndex_id.
    pose proof (len_log_pos rf Hne).
    rewrite !decide_False by (unfold gendL in *; lia). done.
Qed.

(** ** [syncEntries] *)

Lemma realNextIndex_eq rf server next : log rf ≠ [] → slice_get (nextIndex rf) server = Ret next →
  realNextIndex rf server = Ret (Z.max (base rf + 1) (Z.min next (gend rf))).
Proof.
  intros Hne Hn. pose proof (len_log_pos rf Hne). unfold realNextIndex. rewrite Hn, bind_Ret.
  gostep Hne. unfold mret, outcome_mret. f_equal. unfold gendL in *. repeat case_decide; lia.
Qed.

Lemma syncArgs_spec rf server next : wf rf → slice_get (nextIndex rf) server = Ret next →
  ∃ k e, let i := Z.max (base rf + 1) (Z.min next (gend rf)) in
    k = Z.to_nat (i - 1 - base rf) ∧ log rf !! k = Some e ∧
    syncArgs rf server =
      Ret (mkAEArgs (currentTerm rf) (me rf) (i - 1) (Term e) (drop (S k) (log rf))
             (commitIndex rf), gend rf).
Proof.
  intros Hwf Hn. pose proof (wf_ne _ Hwf) as Hne. pose proof (len_log_pos rf Hne).
  set (i := Z.max (base rf + 1) (Z.min next (gend rf))).
  destruct (slice_get_in (log rf) (i - 1 - base rf)) as (e & He & Hl).
  { unfold i, gendL in *. lia. }
  exists (Z.to_nat (i - 1 - base rf)), e. split; [done|]. split; [done|].
  unfold syncArgs. rewrite (realNextIndex_eq _ _ _ Hne Hn). fold i. gostep Hne.
  rewrite He, bind_Ret. gostep Hne. unfold slice_from.
  rewrite decide_True by (unfold i, gendL in *; lia). gostep Hne.
  replace (Z.to_nat (i - base rf)) with (S (Z.to_nat (i - 1 - base rf))); [done|]. lia.
Qed.

(** ** [handleFailedReply] *)

Lemma fail_case12_returns args reply rf : log rf ≠ [] → returns (fail_case12 args reply rf).
Proof.
  intros Hne. unfold fail_case12. gostep Hne. repeat (case_decide; try by eexists).
  gostep Hne. destruct (slice_get_in (log rf) (aer_PrevLogIndex reply - base rf)) as (e & -> & _).
  { unfold gendL in *. lia. }
  by eexists.
Qed.

Lemma fail_case34_returns args reply rf : log rf ≠ [] → returns (fail_case34 args reply rf).
Proof.
  intros Hne. unfold fail_case34. gostep Hne. repeat (case_decide; try by eexists).
  destruct (slice_get_in (log rf) (aer_PrevLogIndex reply - base rf)) as (e & -> & _).
  { unfold gendL in *. lia. }
  by eexists.
Qed.

(** When neither cases 1 and 2 nor 3 and 4 apply, what the follower needs is in
    the snapshot: the last line of the function is not reached. *)
Lemma fail_cases_complete args reply rf : log rf ≠ [] →
  fail_case12 args reply rf = Ret false → fail_case34 args reply rf = Ret false →
  aer_LastApplied reply + 1 - base rf < 0 ∨ aer_PrevLogIndex reply - base rf < 0.
Proof.
  intros Hne. unfold fail_case12, fail_case34. gostep Hne. intros H12 H34.
  destruct (decide (aer_LastApplied reply + 1 - base rf >= 0
                    ∧ aer_PrevLogIndex reply - base rf >= 0)) as [Hk|]; [|lia]. exfalso.
  destruct (decide (aer_PrevLogIndex reply >= ae_PrevLogIndex args)); [done|].
  destruct (decide (aer_PrevLogIndex reply >= gend rf)); [done|].
  rewrite decide_True in H34 by lia.
  destruct (slice_get_in (log rf) (aer_PrevLogIndex reply - base rf)) as (e & He & _).
  { unfold gendL in *. lia. }
  rewrite He, bind_Ret in H34. injection H34 as H34.
  rewrite (decide_True (P := _ > 0)) in H12 by lia.
  destruct (decide (aer_PrevLogTerm reply = ae_PrevLogTerm args ∧ _)); [done|].
  rewrite decide_True in H12 by lia.
  rewrite He, bind_Ret in H12.
  injection H12 as H12. apply bool_decide_eq_false in H12, H34. tauto.
Qed.

Lemma handleFailedReply_returns server args reply rf : wf rf → 0 ≤ server < Z.of_nat (peers rf) →
  returns (handleFailedReply server args reply rf).
Proof.
  intros Hwf Hs. pose proof (wf_ne _ Hwf) as Hne. unfold handleFailedReply.
  case_decide; [by eexists|].
  assert (∀ x, slice_set (nextIndex rf) server x = Ret (<[Z.to_nat server := x]> (nextIndex rf)))
    as Hset by (intros x; apply slice_set_in; unfold len; rewrite (wf_next _ Hwf); lia).
  destruct (fail_case12_returns args reply rf Hne) as [b12 H12]. rewrite H12, bind_Ret.
  destruct b12; [rewrite Hset; by eexists|].
  destruct (fail_case34_returns args reply rf Hne) as [b34 H34]. rewrite H34, bind_Ret.
  destruct b34; [rewrite Hset; by eexists|]. gostep Hne.
  rewrite decide_True by (pose proof (fail_cases_complete _ _ _ Hne H12 H34); lia).
  destruct (log rf); [done|]. by eexists.
Qed.

(** A successful reply: the follower's entries are recorded. *)
Lemma syncSuccess_spec server new rf : wf rf → 0 ≤ server < Z.of_nat (peers rf) →
  ∃ rf', syncSuccess server new rf = Ret rf' ∧
    nextIndex rf' !! Z.to_nat server = Some new ∧
    ∃ m, matchIndex rf' !! Z.to_nat server = Some m ∧ new - 1 ≤ m.
Proof.
  intros Hwf Hs. unfold syncSuccess.
  rewrite slice_set_in by (unfold len; rewrite (wf_next _ Hwf); lia). rewrite bind_Ret.
  destruct (slice_get_in (matchIndex rf) server) as (m & Hm & Hl).
  { unfold len; rewrite (wf_match _ Hwf); lia. }
  simpl. rewrite Hm, bind_Ret. case_decide as Hle.
  - simpl. rewrite slice_set_in by (unfold len; rewrite (wf_match _ Hwf); lia).
    eexists. split; [done|]. simpl. rewrite !list_lookup_insert_eq
      by (rewrite ?(wf_next _ Hwf), ?(wf_match _ Hwf); lia). eauto with lia.
  - eexists. split; [done|]. simpl.
    rewrite list_lookup_insert_eq by (rewrite (wf_next _ Hwf); lia). eauto with lia.
Qed.

(** C29: [commitCheck] against its reference.  The loop terminates, and the new
    commit index is the largest index that a majority of [matchIndex] reaches,
    when that is past the old one, inside the log, and an entry of the current
    term (or already in the snapshot); otherwise nothing changes. *)
Theorem commitCheck_reference rf : wf rf →
  commitCheck rf = Ret (rf <| commitIndex := commitSpec rf |>) ∧
  (∀ N, majority rf ≤ matchCount (matchIndex rf) N ↔ N ≤ quorumIndex rf) ∧
  commitIndex rf ≤ commitSpec rf ∧
  (commitSpec rf ≠ commitIndex rf →
     majority rf ≤ matchCount (matchIndex rf) (commitSpec rf) ∧
     commitSpec rf < gend rf ∧ committable rf (commitSpec rf)).
Proof.
  intros Hwf. split; [by apply commitCheck_spec|].
  assert (∀ N, majority rf ≤ matchCount (matchIndex rf) N ↔ N ≤ quorumIndex rf) as HQ.
  { intros N. rewrite <- (quorumIndex_spec rf N Hwf). lia. }
  split; [done|]. unfold commitSpec. case_decide as Hc.
  - split; [lia|]. intros _. rewrite HQ. split; [lia|]. split; [lia|tauto].
  - split; [lia|done].
Qed.

End leader.

Section examples.
#[local] Existing Instance Zcodec.

(** The sample peer as a leader that has two of three peers up to date. *)
Definition sampleLeader : Raft Z :=
  samplePeer <| state := RS_Leader |> <| nextIndex := [7; 7; 4] |>
             <| matchIndex := [6; 6; 3] |> <| commitIndex := 4 |>.

Lemma sampleLeader_wf : wf sampleLeader.
Proof. destruct samplePeer_wf. by split. Qed.

Lemma commitCheck_reference_witness : wf sampleLeader ∧
  commitSpec sampleLeader = 6 ∧ commitCheck sampleLeader = Ret (sampleLeader <| commitIndex := 6 |>).
Proof.
  split; [apply sampleLeader_wf|]. split; [vm_compute; reflexivity|].
  exact (proj1 (commitCheck_reference sampleLeader sampleLeader_wf)).
Defined.

End examples.
