(* ===== verification/RaftReplicate.v ===== *)
(** * Raft: replication

    What the leader learns from a follower.  A reply with [Success] means that
    the follower's log holds every entry of the request (by index and term), so
    that [matchIndex] counts only peers that do; a follower that ends where the
    request starts gets exactly the leader's suffix; one that has fallen behind the
    leader's log catches up with a snapshot; and no critical section of a
    reachable peer panics or reaches a [log.Fatalf]. *)

From S2P Require Import Prelude RaftState RaftNode RaftInv RaftIndex RaftApply RaftSteps RaftLeader.
Local Open Scope Z_scope.

Section replicate.
Context {Cmd : Type} `{Codec (@persistent Cmd)}.
Implicit Types (rf : Raft Cmd) (l : list (logEntry Cmd)).

(** The log holds an entry with this index and term. *)
Definition holds l (i t : Z) : Prop := ∃ e, e ∈ l ∧ Index e = i ∧ Term e = t.

Lemma prefixCheck_full rf all es i :
  log rf ≠ [] → base rf ≤ lastApplied rf → 0 ≤ i → i + len es = len all →
  prefixCheck rf all es i = Ret (len all) →
  ∀ j e, es !! j = Some e → ∃ e',
    log rf !! Z.to_nat (i + Z.of_nat j + lastApplied rf + 1 - base rf) = Some e' ∧ Term e' = Term e.
Proof.
  intros Hne Hb. revert i. induction es as [|e0 es IH]; intros i Hi Hl Hp j e Hj; [done|].
  simpl in Hp. rewrite len_cons in Hl. pose proof (len_nonneg es).
  rewrite localIndex_eq, bind_Ret in Hp by done.
  destruct (decide (i + lastApplied rf + 1 - base rf < len (log rf))); [|inv_ret; lia].
  rewrite decide_False in Hp by lia.
  destruct (slice_get_in (log rf) (i + lastApplied rf + 1 - base rf)) as (e' & Hg & He'); [lia|].
  rewrite Hg, bind_Ret in Hp. case_decide as Ht; [inv_ret; lia|].
  destruct j as [|j]; simplify_eq/=.
  - exists e'. rewrite <- He'. split; [f_equal; lia|done].
  - destruct (IH (i + 1) ltac:(lia) ltac:(lia) Hp j e Hj) as (e1 & He1 & Ht1).
    exists e1. rewrite <- He1. split; [f_equal; lia|done].
Qed.

Lemma syncState_log now args rf : log (syncState now args rf) = log rf ∧
  lastApplied (syncState now args rf) = lastApplied rf.
Proof. unfold syncState. by case_decide. Qed.

(** C27: what a success means.  When [AppendEntries] answers [Success], on the
    fast path, after a fix package that was already there, or after one that
    replaced the tail, the log of the follower holds an entry with the index
    and the term of every entry of the request. *)
Theorem AppendEntries_success_holds now args rf rf' reply :
  wf rf → aeOk args → AppendEntries now args rf = Ret (rf', reply) → aer_Success reply = true →
  ∀ e, e ∈ ae_Entries args → holds (log rf') (Index e) (Term e).
Proof.
  intros Hwf0 [Hac _] Hr Hs e He. unfold AppendEntries in Hr.
  case_decide as Ht; [by inv_ret|]. pose proof (syncState_wf now args rf Hwf0) as Hwf.
  set (r := syncState now args rf) in *. clearbody r. pose proof (wf_ne _ Hwf) as Hne.
  pose proof (wf_applied _ Hwf) as Ha. rewrite globalLogLen_eq, bind_Ret in Hr by done.
  destruct (log_last r Hne) as (el & Hlast & _). rewrite Hlast, bind_Ret in Hr.
  case_decide as Hgood; [|case_decide as Hfix].
  - inv_ret. exists e. split; [|done]. apply elem_of_app. by right.
  - destruct (prefixCheck_returns r (ae_Entries args) (ae_Entries args) 0 Hne) as [i Hp].
    rewrite Hp, bind_Ret in Hr. case_decide as Hi; [injection Hr as <- <-; subst i|inv_ret].
    + apply list_elem_of_lookup in He as [j Hj].
      destruct (prefixCheck_full r (ae_Entries args) (ae_Entries args) 0 Hne
        ltac:(lia) ltac:(lia) ltac:(lia) Hp j e Hj)
        as (e' & He' & Ht'). exists e'. split; [by eapply list_elem_of_lookup_2|].
      rewrite (wf_lookup _ _ _ Hwf He'), (Hac _ _ Hj). split; [lia|done].
    + exists e. split; [|done]. apply elem_of_app. by right.
  - case_decide; inv_ret; done.
Qed.

Lemma AppendEntries_fast now args ff el : wf ff → currentTerm ff ≤ ae_Term args →
  gend ff - 1 = ae_PrevLogIndex args → last (log ff) = Some el → Term el = ae_PrevLogTerm args →
  ∃ ff' reply, AppendEntries now args ff = Ret (ff', reply) ∧ aer_Success reply = true ∧
    log ff' = log ff ++ ae_Entries args ∧ commitIndex ff' = ae_LeaderCommit args ∧
    currentTerm ff' = ae_Term args ∧ state ff' = RS_Follower.
Proof.
  intros Hwf Hterm Hend Hel Hlast. pose proof (wf_ne _ Hwf) as Hne.
  destruct (syncState_log now args ff) as [Hlog _].
  assert (state (syncState now args ff) = RS_Follower ∧
          currentTerm (syncState now args ff) = ae_Term args) as [Hst Htm]
    by (unfold syncState; case_decide; done).
  unfold AppendEntries. rewrite decide_False by lia.
  set (r := syncState now args ff) in *. clearbody r. eexists _, _.
  rewrite globalLogLen_eq, bind_Ret by (by rewrite Hlog). rewrite Hlog.
  destruct (log_last ff Hne) as (el' & -> & Hel'). rewrite bind_Ret.
  assert (el' = el) as -> by congruence. rewrite decide_True by done.
  split; [reflexivity|]. split; [done|]. by repeat split.
Qed.

(** The fast path end to end.  A follower whose log ends where the leader's
    request for it starts (same index and term) appends the whole suffix of the
    leader's log: its log then ends where the leader's does, it knows the
    leader's commit index, and the reply makes the leader record that. *)
Theorem replication_fast_path now rf ff server next args newNext :
  wf rf → wf ff → 0 ≤ server < Z.of_nat (peers rf) → slice_get (nextIndex rf) server = Ret next →
  syncArgs rf server = Ret (args, newNext) → currentTerm ff ≤ currentTerm rf →
  gend ff - 1 = ae_PrevLogIndex args →
  option_map Term (last (log ff)) = Some (ae_PrevLogTerm args) →
  ∃ ff' reply rf' k, AppendEntries now args ff = Ret (ff', reply) ∧ aer_Success reply = true ∧
    base rf + Z.of_nat k = gend ff ∧ log ff' = log ff ++ drop k (log rf) ∧
    gend ff' = gend rf ∧ commitIndex ff' = commitIndex rf ∧
    currentTerm ff' = currentTerm rf ∧ state ff' = RS_Follower ∧
    syncSuccess server newNext rf = Ret rf' ∧
    nextIndex rf' !! Z.to_nat server = Some (gend rf) ∧
    ∃ m, matchIndex rf' !! Z.to_nat server = Some m ∧ gend rf - 1 ≤ m.
Proof.
  intros Hwf Hwff Hsv Hn Hargs Hterm Hend Hlast.
  destruct (syncArgs_spec rf server next Hwf Hn) as (k & e & Hk & He & Hspec).
  set (i := Z.max (base rf + 1) (Z.min next (gend rf))) in *. rewrite Hspec in Hargs.
  injection Hargs as <- <-. simpl in Hend, Hlast.
  pose proof (wf_ne _ Hwff) as Hne. pose proof (len_log_pos rf (wf_ne _ Hwf)) as Hl.
  set (args := mkAEArgs _ _ _ _ _ _).
  destruct (log_last ff Hne) as (el & _ & Hel). rewrite Hel in Hlast. injection Hlast as Hlast.
  destruct (AppendEntries_fast now args ff el) as (ff' & reply & Hr & Hs & Hlog & Hc & Ht & Hst);
    [done..|].
  destruct (syncSuccess_spec server (gend rf) rf Hwf Hsv) as (rf' & Hss & Hnx & Hm).
  exists ff', reply, rf', (S k). do 2 (split; [done|]). split; [lia|]. split; [done|].
  split; [|by auto].
  rewrite Hlog. unfold gendL at 1. rewrite len_app. simpl ae_Entries. rewrite len_drop.
  unfold baseL at 1. destruct (log ff) as [|e0 l0] eqn:Hff; [done|]. simpl.
  unfold gendL, baseL in Hend. unfold gendL in *.
  apply lookup_lt_Some in He. unfold len in *. lia.
Qed.

(** ** A follower that needs the snapshot *)

Lemma handleFailedReply_install server args0 reply rf rf1 args : wf rf →
  handleFailedReply server args0 reply rf = Ret (rf1, FA_Install args) →
  ∃ e, log rf !! 0%nat = Some e ∧ Index e = base rf ∧
    args = mkISArgs (currentTerm rf) (me rf) (base rf) (snapshotIndex rf) (Term e) (snapshot rf).
Proof.
  intros Hwf Hr. pose proof (wf_ne _ Hwf) as Hne. destruct (log_first rf Hne) as (e & He & Hi). exists e.
  split; [done|]. split; [done|]. unfold handleFailedReply in Hr. case_decide; [by inv_ret|].
  apply bind_Ret_inv in Hr as (c12 & _ & Hr). destruct c12; [by inv_ret|].
  apply bind_Ret_inv in Hr as (c34 & _ & Hr). destruct c34; [by inv_ret|].
  do 3 (apply bind_Ret_inv in Hr as (? & _ & Hr)). case_decide; [|done].
  apply bind_Ret_inv in Hr as (e' & He' & Hr). apply slice_get_Ret in He' as [_ He'].
  change (Z.to_nat 0) with 0%nat in He'. inv_ret. simplify_eq. by rewrite Hi.
Qed.

(** The whole log of a follower that ends before the snapshot is replaced. *)
Lemma InstallSnapshot_replaces args f : wf f → isOk args → currentTerm f ≤ is_Term args →
  snapshotIndex f < is_LastIncludedIndex args → gend f ≤ is_LastIncludedInternal args →
  ∃ f1, InstallSnapshot args f = Ret (f1, mkISReply (currentTerm f)) ∧ wf f1 ∧
    log f1 = [mkEntry (is_LastIncludedTerm args) LT_Noop (is_LastIncludedInternal args) None] ∧
    snapshotIndex f1 = is_LastIncludedIndex args ∧ snapshot f1 = is_Data args ∧
    lastApplied f1 = is_LastIncludedInternal args ∧ currentTerm f1 = currentTerm f.
Proof.
  intros Hwf Hok Ht Hi Hend. destruct (InstallSnapshot_wf args f Hwf Hok) as (f1 & r & Hr & Hwf1).
  pose proof (wf_ne _ Hwf) as Hne. exists f1. assert (snapshotLog args f = Ret
    [mkEntry (is_LastIncludedTerm args) LT_Noop (is_LastIncludedInternal args) None]) as Hl.
  { unfold snapshotLog. gostep Hne. rewrite decide_False by (unfold gendL in Hend; lia). done. }
  unfold InstallSnapshot in *. rewrite !decide_False in Hr by lia. rewrite !decide_False by lia.
  rewrite Hl, bind_Ret in *. simpl in Hr. injection Hr as <- <-. split_and!; [reflexivity|exact Hwf1|done..].
Qed.

(** The next request after the answer. *)
Lemma snapshotReplied_sync server args reply rf : wf rf → 0 ≤ server < Z.of_nat (peers rf) →
  isr_Term reply ≤ currentTerm rf → is_LastIncludedIndex args ≤ base rf →
  let rf2 := rf <| nextIndex := <[Z.to_nat server := is_LastIncludedIndex args + 1]> (nextIndex rf) |> in
  ∃ e, log rf !! 0%nat = Some e ∧ snapshotReplied server args reply rf = Ret (rf2, false) ∧
    realNextIndex rf2 server = Ret (base rf + 1) ∧
    syncArgs rf2 server = Ret (mkAEArgs (currentTerm rf) (me rf) (base rf) (Term e) (drop 1 (log rf))
                                 (commitIndex rf), gend rf).
Proof.
  intros Hwf Hs Ht Hi rf2. pose proof (wf_ne _ Hwf) as Hne. pose proof (len_log_pos rf Hne) as Hpos.
  assert (wf rf2) as Hwf2 by (destruct Hwf; split; simpl; rewrite ?length_insert; done).
  assert (slice_get (nextIndex rf2) server = Ret (is_LastIncludedIndex args + 1)) as Hn.
  { apply slice_get_Ret. split; [lia|]. apply list_lookup_insert_eq. rewrite (wf_next _ Hwf). lia. }
  assert (Z.max (base rf + 1) (Z.min (is_LastIncludedIndex args + 1) (gend rf)) = base rf + 1) as Ei
    by (unfold gendL; lia).
  destruct (syncArgs_spec rf2 server _ Hwf2 Hn) as (k & e & Hk & He & Hargs).
  change (log rf2) with (log rf) in *. rewrite Ei in Hk, Hargs.
  replace k with 0%nat in * by lia. exists e. split; [done|]. split; [|split].
  - unfold snapshotReplied. rewrite decide_False by lia.
    by rewrite slice_set_in by (unfold len; rewrite (wf_next _ Hwf); lia).
  - rewrite (realNextIndex_eq rf2 _ _ Hne Hn). change (log rf2) with (log rf). by rewrite Ei.
  - rewrite Hargs. by replace (base rf + 1 - 1) with (base rf) by lia.
Qed.

(** C32: a follower that has fallen behind the log of the leader catches up with a
    snapshot and one request.  When [handleFailedReply] decides to send the
    snapshot, it sends the first entry of its log, under its internal and its
    external index.  A follower whose log ends before that entry, with an older
    snapshot and no higher term, takes it as its whole log; the leader's log may
    grow meanwhile.  With the answer the leader records one more than the external
    index of the snapshot as the next index to send, changing nothing else; that
    is an external index where an internal one belongs, but never larger
    ([RaftView.view_external]), so [realNextIndex] brings it back to the first
    entry after the snapshot.  The next request therefore starts at the snapshot
    and carries the rest of the leader's log, the follower accepts it, and its log
    ends where the leader's does.  An answer with a higher term makes the leader
    stop and changes nothing. *)
Theorem snapshot_catches_up now rf0 rf1 rf f server args0 reply0 args es :
  wf rf0 → wf rf → wf f → 0 ≤ server < Z.of_nat (peers rf) →
  handleFailedReply server args0 reply0 rf0 = Ret (rf1, FA_Install args) →
  log rf = log rf0 ++ es → currentTerm rf = currentTerm rf0 → snapshotIndex rf0 ≤ base rf0 →
  currentTerm f ≤ currentTerm rf0 → snapshotIndex f < snapshotIndex rf0 → gend f ≤ base rf0 →
  ∃ e f1 r1 rf2 sargs f2 r2,
    log rf0 !! 0%nat = Some e ∧ is_LastIncludedInternal args = base rf0 ∧
    is_LastIncludedIndex args = extOf rf0 (base rf0) ∧
    InstallSnapshot args f = Ret (f1, r1) ∧ log f1 = [mkEntry (Term e) LT_Noop (base rf0) None] ∧
    snapshotIndex f1 = snapshotIndex rf0 ∧ snapshot f1 = snapshot rf0 ∧
    snapshotReplied server args r1 rf = Ret (rf2, false) ∧
    rf2 = rf <| nextIndex := <[Z.to_nat server := extOf rf0 (base rf0) + 1]> (nextIndex rf) |> ∧
    realNextIndex rf2 server = Ret (base rf0 + 1) ∧ syncArgs rf2 server = Ret (sargs, gend rf) ∧
    ae_PrevLogIndex sargs = base rf0 ∧ ae_Entries sargs = drop 1 (log rf) ∧
    AppendEntries now sargs f1 = Ret (f2, r2) ∧ aer_Success r2 = true ∧
    log f2 = log f1 ++ drop 1 (log rf) ∧ gend f2 = gend rf ∧ commitIndex f2 = commitIndex rf ∧
    ∀ r, currentTerm rf < isr_Term r → snapshotReplied server args r rf = Ret (rf, true).
Proof.
  intros Hwf0 Hwf Hwff Hs Hfail Hlog Hterm Hext Hft Hfs Hfe.
  destruct (handleFailedReply_install _ _ _ _ _ _ Hwf0 Hfail) as (e & He & Hei & ->). rewrite (extOf_base rf0 Hwf0).
  assert (base rf = base rf0) as Hb.
  { rewrite Hlog. pose proof (wf_ne _ Hwf0). by destruct (log rf0). }
  set (args := mkISArgs _ _ _ _ _ _).
  destruct (InstallSnapshot_replaces args f Hwff) as (f1 & Hinst & Hwf1 & Hl1 & Hsi & Hsn & _ & Ht1);
    [apply Hwf0|done|done|done|].
  destruct (snapshotReplied_sync server args (mkISReply (currentTerm f)) rf Hwf Hs) as (e' & He' & Hsr & Hrn & Hsa);
    [simpl; lia|simpl; lia|].
  assert (e' = e) as ->.
  { rewrite Hlog in He'. rewrite (lookup_app_l_Some _ _ _ _ He) in He'. congruence. }
  set (sargs := mkAEArgs _ _ _ _ _ _) in Hsa.
  assert (gend f1 = base rf0 + 1) as Hg1 by (by rewrite Hl1).
  destruct (AppendEntries_fast now sargs f1 (mkEntry (Term e) LT_Noop (base rf0) None))
    as (f2 & r2 & Hae & Hok & Hl2 & Hc2 & _); [done|simpl; lia|simpl; lia|by rewrite Hl1|done|].
  eexists e, f1, _, _, sargs, f2, r2. do 3 (split; [done|]). split; [exact Hinst|].
  do 3 (split; [done|]). split; [exact Hsr|]. split; [done|]. rewrite Hb in Hrn. split; [exact Hrn|].
  split; [exact Hsa|]. split; [done|]. split; [done|]. split; [exact Hae|]. do 2 (split; [done|]).
  split; [|split; [done|]].
  - rewrite Hl2, Hl1. unfold gendL. simpl. rewrite Hb. pose proof (len_log_pos rf (wf_ne _ Hwf)).
    rewrite len_cons, len_drop. lia.
  - intros r Hr. unfold snapshotReplied. by rewrite decide_True.
Qed.

(** ** No crash *)

Lemma syncEntries_returns token rf : wf rf → returns (syncEntries token rf).
Proof.
  intros Hwf. unfold syncEntries. destruct token; [by eexists|].
  destruct (for_range_inv (λ _, True) (λ reqs (i : nat),
        if decide (Z.of_nat i = me rf) then mret reqs
        else
          a ← syncArgs rf (Z.of_nat i);
          mret (reqs ++ [(Z.of_nat i, a)])) (seq 0 (peers rf)) []) as (r & Hr & _); [|done|by exists r].
  intros acc i Hi%elem_of_seq _. case_decide; [by eexists|].
  destruct (slice_get_in (nextIndex rf) (Z.of_nat i)) as (x & Hx & _).
  { unfold len. rewrite (wf_next _ Hwf). lia. }
  destruct (syncArgs_spec rf (Z.of_nat i) x Hwf Hx) as (k & e & _ & _ & ->). by eexists.
Qed.

(** C28: no reachable peer crashes.  Every critical section returns: no index
    out of range, and none of the [log.Fatalf] calls that the code marks as
    unreachable.  The two RPCs that carry entries assume what their senders
    guarantee. *)
Theorem critical_sections_return `{!CodecLaws (@persistent Cmd)} n meId rf s :
  0 ≤ meId < Z.of_nat n → reachable n meId rf s →
  (∀ now args, returns (RequestVote now args rf)) ∧
  (∀ now args, aeOk args → returns (AppendEntries now args rf)) ∧
  (∀ args, isOk args → returns (InstallSnapshot args rf)) ∧
  (∀ command, returns (Start command rf)) ∧
  (∀ index snap, returns (Snapshot index snap rf)) ∧
  returns (election_start rf) ∧ (∀ ballot, returns (election_promote ballot rf)) ∧
  returns (applyEntries rf) ∧ returns (commitCheck rf) ∧ (∀ t, returns (syncEntries t rf)) ∧
  (∀ server args reply, 0 ≤ server < Z.of_nat (peers rf) →
     returns (handleFailedReply server args reply rf) ∧
     ∀ new, returns (syncSuccess server new rf)).
Proof.
  intros Hme HI%reachable_inv; [|done]. pose proof (ni_wf _ _ HI) as Hwf.
  repeat apply conj.
  - intros now args. destruct (RequestVote_wf now args rf Hwf) as (? & ? & -> & _). by eexists.
  - intros now args Hok. destruct (AppendEntries_wf now args rf Hwf Hok) as (? & ? & -> & _). by eexists.
  - intros args Hok. destruct (InstallSnapshot_wf args rf Hwf Hok) as (? & ? & -> & _). by eexists.
  - intros c. destruct (Start_wf c rf Hwf) as (? & ? & -> & _). by eexists.
  - intros i sn. destruct (Snapshot_wf i sn rf Hwf) as (? & -> & _). by eexists.
  - destruct (election_start_wf rf Hwf) as (? & ? & -> & _). by eexists.
  - intros b. destruct (election_promote_wf b rf Hwf) as (? & ? & -> & _). by eexists.
  - rewrite applyEntries_spec by done. by eexists.
  - rewrite commitCheck_spec by done. by eexists.
  - intros t. by apply syncEntries_returns.
  - intros server args reply Hs. split; [by apply handleFailedReply_returns|].
    intros new. destruct (syncSuccess_spec server new rf Hwf Hs) as (? & -> & _). by eexists.
Qed.

End replicate.

(** The limit on the number of calls is tested before the result of the call:
    the reply of the last permitted call is thrown away. *)
Lemma last_reply_dropped {R} (r : R) : sendRetry [None; None; Some r] 0 = None.
Proof. reflexivity. Qed.

Section examples.
#[local] Existing Instance Zcodec.
#[local] Existing Instance Zcodec_laws.

Lemma critical_sections_return_witness : reachable 3 1 follower2 0 ∧
  returns (applyEntries follower2) ∧ returns (commitCheck follower2) ∧
  ∀ command, returns (Start command follower2).
Proof.
  split; [apply follower2_reachable|].
  destruct (critical_sections_return 3 1 follower2 0) as (_ & _ & _ & HS & _ & _ & _ & HA & HC & _);
    [lia|apply follower2_reachable|done].
Defined.

(** A follower that has applied the first command and holds a stale entry of
    term 2, and the fix package of the leader of term 3 for it. *)
Definition staleFollower : Raft Z :=
  samplePeer <| log := [mkEntry 1 LT_Noop 0 None; mkEntry 2 LT_Noop 1 None;
                        mkEntry 2 LT_Normal 2 (Some 7); mkEntry 2 LT_Normal 3 (Some 8);
                        mkEntry 2 LT_Normal 4 (Some 5)] |>.
Definition fixPackage : AppendEntriesArgs Z :=
  mkAEArgs 3 0 3 2 [mkEntry 3 LT_Noop 4 None; mkEntry 3 LT_Normal 5 (Some 9)] 3.

Lemma staleFollower_wf : wf staleFollower.
Proof.
  split; simpl; try done; try lia.
  - intros i e Hi. do 5 (destruct i as [|i]; [by simplify_eq/=|]). done.
  - intros e He. by simplify_eq.
  - intros e He Hi. repeat (apply elem_of_cons in He as [->|He]; [done|]).
    by apply not_elem_of_nil in He.
Qed.

Lemma fixPackage_ok : aeOk fixPackage.
Proof.
  split.
  - intros [|[|i]] e He; simplify_eq/=; done.
  - intros e [->|[->|?%not_elem_of_nil]%elem_of_cons]%elem_of_cons; done.
Qed.

Lemma AppendEntries_success_holds_witness : ∃ rf' reply,
  AppendEntries 0 fixPackage staleFollower = Ret (rf', reply) ∧
  holds (log rf') 4 3 ∧ holds (log rf') 5 3.
Proof.
  set (r := valueOf (staleFollower, mkAEReply 0 false 0 0 0) (AppendEntries 0 fixPackage staleFollower)).
  assert (AppendEntries 0 fixPackage staleFollower = Ret (r.1, r.2)) as Hr
    by (vm_compute; reflexivity).
  assert (aer_Success r.2 = true) as Hs by (vm_compute; reflexivity).
  exists r.1, r.2. split; [done|]. split.
  - apply (AppendEntries_success_holds 0 fixPackage staleFollower r.1 r.2 staleFollower_wf
      fixPackage_ok Hr Hs (mkEntry 3 LT_Noop 4 None)). left.
  - apply (AppendEntries_success_holds 0 fixPackage staleFollower r.1 r.2 staleFollower_wf
      fixPackage_ok Hr Hs (mkEntry 3 LT_Normal 5 (Some 9))). right; left.
Defined.

(** The sample leader sends peer 2 what comes after its four entries. *)
Definition shortFollower : Raft Z :=
  samplePeer <| me := 2 |> <| log := take 4 (log samplePeer) |>.

Lemma shortFollower_wf : wf shortFollower.
Proof.
  split; simpl; try done; try lia.
  - intros i e Hi. do 4 (destruct i as [|i]; [by simplify_eq/=|]). done.
  - intros e He. by simplify_eq.
  - intros e He Hi. repeat (apply elem_of_cons in He as [->|He]; [done|]).
    by apply not_elem_of_nil in He.
Qed.

Lemma replication_fast_path_witness : ∃ args, syncArgs sampleLeader 2 = Ret (args, 7) ∧
  ∃ ff' reply rf' k, AppendEntries 0 args shortFollower = Ret (ff', reply) ∧
    aer_Success reply = true ∧ base sampleLeader + Z.of_nat k = gend shortFollower ∧
    log ff' = log shortFollower ++ drop k (log sampleLeader) ∧
    gend ff' = gend sampleLeader ∧ commitIndex ff' = commitIndex sampleLeader ∧
    currentTerm ff' = currentTerm sampleLeader ∧ state ff' = RS_Follower ∧
    syncSuccess 2 7 sampleLeader = Ret rf' ∧
    nextIndex rf' !! Z.to_nat 2 = Some (gend sampleLeader) ∧
    ∃ m, matchIndex rf' !! Z.to_nat 2 = Some m ∧ gend sampleLeader - 1 ≤ m.
Proof.
  eexists. split; [vm_compute; reflexivity|].
  apply (replication_fast_path 0 sampleLeader shortFollower 2 4);
    [apply sampleLeader_wf|apply shortFollower_wf|simpl; lia|reflexivity|vm_compute; reflexivity
    |vm_compute; discriminate|reflexivity|reflexivity].
Defined.

(** A leader whose log begins with a snapshot up to its second command, and a
    follower that has only three entries. *)
Definition snapLeader : Raft Z :=
  samplePeer <| log := mkEntry 2 LT_Noop 3 None :: drop 4 (log samplePeer) |> <| snapshot := [Byte.x01] |>
             <| snapshotIndex := 2 |> <| snapshotTerm := 2 |> <| state := RS_Leader |>
             <| nextIndex := [7; 7; 7] |>.
Definition farFollower : Raft Z :=
  samplePeer <| me := 2 |> <| log := take 3 (log samplePeer) |> <| lastApplied := 1 |>.

Lemma snapLeader_wf : wf snapLeader.
Proof.
  split; simpl; try done; try lia.
  - intros i e Hi. do 4 (destruct i as [|i]; [by simplify_eq/=|]). done.
  - intros e He. by simplify_eq.
  - intros e He Hi. repeat (apply elem_of_cons in He as [->|He]; [done|]).
    by apply not_elem_of_nil in He.
Qed.

Lemma farFollower_wf : wf farFollower.
Proof.
  split; simpl; try done; try lia.
  - intros i e Hi. do 3 (destruct i as [|i]; [by simplify_eq/=|]). done.
  - intros e He. by simplify_eq.
  - intros e He Hi. repeat (apply elem_of_cons in He as [->|He]; [done|]).
    by apply not_elem_of_nil in He.
Qed.

Lemma snapshot_catches_up_witness :
  let args0 := mkAEArgs 3 1 6 3 [] 5 in let args := mkISArgs 3 1 3 2 2 [Byte.x01] in
  handleFailedReply 2 args0 (mkAEReply 3 false 2 2 1) snapLeader = Ret (snapLeader, FA_Install args) ∧
  ∃ f1 r1 rf2 sargs f2 r2, InstallSnapshot args farFollower = Ret (f1, r1) ∧
    snapshotReplied 2 args r1 snapLeader = Ret (rf2, false) ∧ realNextIndex rf2 2 = Ret 4 ∧
    syncArgs rf2 2 = Ret (sargs, 7) ∧ AppendEntries 0 sargs f1 = Ret (f2, r2) ∧ aer_Success r2 = true ∧
    gend f2 = 7.
Proof.
  intros args0 args.
  assert (handleFailedReply 2 args0 (mkAEReply 3 false 2 2 1) snapLeader = Ret (snapLeader, FA_Install args)) as Hf
    by (vm_compute; reflexivity).
  split; [exact Hf|].
  destruct (snapshot_catches_up 0 snapLeader snapLeader snapLeader farFollower 2 args0 (mkAEReply 3 false 2 2 1) args [])
    as (e & f1 & r1 & rf2 & sargs & f2 & r2 & _ & _ & _ & H1 & _ & _ & _ & H2 & _ & H3 & H4 & _ & _ & H5 & H6 & _ & H7 & _);
    [apply snapLeader_wf|apply snapLeader_wf|apply farFollower_wf|simpl; lia|exact Hf|by rewrite app_nil_r
    |reflexivity|vm_compute; discriminate|vm_compute; discriminate|vm_compute; reflexivity|vm_compute; discriminate|].
  exists f1, r1, rf2, sargs, f2, r2. split; [exact H1|]. split; [exact H2|]. split; [exact H3|].
  split; [exact H4|]. split; [exact H5|]. split; [exact H6|exact H7].
Defined.

End examples.
