(* ===== verification/RaftElection.v ===== *)
(** * Raft: at most one leader per term

    A cluster of the peers of [RaftNode] over a network that may lose, repeat,
    delay and reorder messages, with crashes and restarts.  The election code
    is run as it is: [ticker_timeout], [election_start], [RequestVote] at the
    other peers, [election_reply] and [election_promote].

    One thing is taken as atomic that is not quite so in the code: the loop of
    [election] reads [cancelToken] and then takes the lock, and here no other
    step comes in between.  [stale_promotion] below shows what the lock section
    does without that: it does not compare the term it was elected for with
    the current one. *)

From S2P Require Import Prelude RaftState RaftNode RaftInv RaftIndex RaftApply RaftSteps.
Local Open Scope Z_scope.

(** ** What a step does to the term, the vote and the role *)

Section votes.
Context {Cmd : Type} `{Codec (@persistent Cmd)}.
Implicit Types (rf : Raft Cmd).

Record voteStep rf rf' : Prop := {
  vs_term : currentTerm rf ≤ currentTerm rf';
  vs_vote : currentTerm rf' = currentTerm rf →
            ∀ c, votedFor rf = Some c → votedFor rf' = Some c;
  vs_leader : state rf' = RS_Leader → state rf = RS_Leader ∧ currentTerm rf' = currentTerm rf;
  vs_candidate : state rf' = RS_Candiate →
                 state rf = RS_Candiate ∧ currentTerm rf' = currentTerm rf;
  vs_id : me rf' = me rf ∧ peers rf' = peers rf;
}.

Lemma voteStep_frame rf rf' : currentTerm rf' = currentTerm rf → votedFor rf' = votedFor rf →
  state rf' = state rf ∨ state rf' = RS_Follower →
  me rf' = me rf → peers rf' = peers rf → voteStep rf rf'.
Proof.
  intros Ht Hv Hs Hme Hp. split; rewrite ?Ht, ?Hv; auto; try lia; destruct Hs as [-> | ->]; done.
Qed.

Ltac vframe := apply voteStep_frame; [reflexivity|reflexivity|first [left; reflexivity | right; reflexivity]|reflexivity|reflexivity].

Lemma RequestVote_voteStep now args rf rf' reply :
  RequestVote now args rf = Ret (rf', reply) → voteStep rf rf'.
Proof.
  unfold RequestVote. intros Hr. inv_ret. repeat case_decide; inv_ret;
    first [ vframe
          | split; [change (currentTerm rf ≤ rv_Term args); lia | | by intros ? | by intros ? | done] ];
    intros Ht c Hc; change (rv_Term args = currentTerm rf) in Ht; try lia.
  change (Some (rv_CandiateId args) = Some c). naive_solver.
Qed.

(** What a granted vote means. *)
Lemma RequestVote_granted now args rf rf' reply :
  RequestVote now args rf = Ret (rf', reply) → rvr_VoteGranted reply = true →
  currentTerm rf ≤ rv_Term args ∧ currentTerm rf' = rv_Term args ∧
  votedFor rf' = Some (rv_CandiateId args) ∧
  (rv_Term args = currentTerm rf →
   votedFor rf = None ∨ votedFor rf = Some (rv_CandiateId args)).
Proof.
  unfold RequestVote. intros Hr Hg. inv_ret. repeat case_decide; inv_ret; try done.
  all: split; [lia|]; split; [done|]; split; [done|]; intros; try lia; tauto.
Qed.

Lemma AppendEntries_voteStep now args rf rf' reply :
  AppendEntries now args rf = Ret (rf', reply) → voteStep rf rf'.
Proof.
  unfold AppendEntries. intros Hr. case_decide as Ht; inv_ret; [vframe|].
  assert (voteStep rf (syncState now args rf)) as Hs.
  { clear Hr. unfold syncState. case_decide as Hgt.
    - split; [change (currentTerm rf ≤ ae_Term args); lia | | by intros ? | by intros ? | done].
      intros He. change (ae_Term args = currentTerm rf) in He. lia.
    - split; [change (currentTerm rf ≤ ae_Term args); lia | done | by intros ? | by intros ? | done]. }
  assert (∀ x, currentTerm x = currentTerm (syncState now args rf) →
    votedFor x = votedFor (syncState now args rf) → state x = state (syncState now args rf) →
    me x = me (syncState now args rf) → peers x = peers (syncState now args rf) →
    voteStep rf x) as Hx.
  { intros r' E1 E2 E3 E4 E5. destruct Hs. split; rewrite ?E1, ?E2, ?E3, ?E4, ?E5; auto. }
  set (r := syncState now args rf) in *. clearbody r.
  repeat (case_decide; inv_ret); by apply Hx.
Qed.

Lemma Make_voteStep `{!CodecLaws (@persistent Cmd)} now rf rf' s : nodeInv rf s →
  Make (peers rf) (me rf) (persister rf) now = Ret rf' → voteStep rf rf'.
Proof.
  intros [Hwf Hd _ _ Hv] Hr. assert (∃ q la gll, rf' = remade rf now q la gll) as (q & la & gll & ->).
  { destruct Hd as [Hs|Hp].
    - rewrite Make_saved in Hr by (done || intros ?%Hv; lia). injection Hr as <-. eauto.
    - rewrite (Make_pristine rf now Hp) in Hr. injection Hr as <-. eauto. }
  vframe.
Qed.

(** The steps of a peer other than voting, elections and restarts. *)
Inductive local_step : Raft Cmd → Z → Raft Cmd → Z → Prop :=
| ls_append now args rf rf' reply s :
    aeOk args → AppendEntries now args rf = Ret (rf', reply) → local_step rf s rf' s
| ls_install args rf rf' reply s :
    isOk args → is_Data args ≠ [] →
    InstallSnapshot args rf = Ret (rf', reply) → local_step rf s rf' s
| ls_start command rf rf' r s :
    Start command rf = Ret (rf', r) → local_step rf s rf' s
| ls_snapshot index snap rf rf' s :
    snap ≠ [] → index ≤ extOf rf (gend rf - 1) →
    Snapshot index snap rf = Ret rf' → local_step rf s rf' s
| ls_apply rf rf' s : applyEntries rf = Ret rf' → local_step rf s rf' s
| ls_send rf rf' m s : applySend rf = (Some m, rf') → local_step rf s rf' (served s m)
| ls_synced server n rf rf' s : syncSuccess server n rf = Ret rf' → local_step rf s rf' s
| ls_failed server args reply rf rf' a s :
    handleFailedReply server args reply rf = Ret (rf', a) → local_step rf s rf' s
| ls_replied server args reply rf rf' b s :
    snapshotReplied server args reply rf = Ret (rf', b) → local_step rf s rf' s
| ls_commit rf rf' s : commitCheck rf = Ret rf' → local_step rf s rf' s
| ls_kill rf s : local_step rf s (Kill rf) s.

Lemma local_step_node rf s rf' s' : local_step rf s rf' s' → node_step rf s rf' s'.
Proof. destruct 1; eauto using node_step. Qed.

Lemma local_step_voteStep rf s rf' s' : wf rf → local_step rf s rf' s' → voteStep rf rf'.
Proof.
  intros Hwf Hst.
  destruct Hst as [now args rf rf' reply s Hok Hr|args rf rf' reply s Hok Hne Hr
    |command rf rf' r s Hr|index snap rf rf' s Hne Hi Hr|rf rf' s Hr|rf rf' m s Hr
    |server n rf rf' s Hr|server args reply rf rf' a s Hr|server args reply rf rf' b s Hr
    |rf rf' s Hr|rf s].
  - by eapply AppendEntries_voteStep.
  - unfold InstallSnapshot in Hr. repeat (case_decide; inv_ret; try vframe).
  - unfold Start in Hr. case_decide; inv_ret; vframe.
  - unfold Snapshot in Hr. inv_ret. repeat (case_decide; inv_ret); vframe.
  - rewrite applyEntries_spec in Hr by done. injection Hr as <-. vframe.
  - unfold applySend in Hr. destruct (applyQueue rf); simpl in Hr; simplify_eq. vframe.
  - unfold syncSuccess in Hr. inv_ret. case_decide; inv_ret; vframe.
  - unfold handleFailedReply in Hr. case_decide; inv_ret; [vframe|].
    repeat (case_match; inv_ret); vframe.
  - unfold snapshotReplied in Hr. case_decide; inv_ret; vframe.
  - unfold commitCheck in Hr. inv_ret. repeat (case_match; inv_ret); vframe.
  - vframe.
Qed.

End votes.


(** ** The cluster *)

Section cluster.
Context {Cmd : Type} `{Codec (@persistent Cmd)} `{!CodecLaws (@persistent Cmd)}.
Implicit Types (rf : Raft Cmd).

(** Where the election goroutine of a peer is: there is none, [ticker] has
    started one that has not taken the lock yet, or it is counting ballots;
    [counted] are the servers whose reply it has seen. *)
Inductive phase :=
| Idle
| Pending
| Running (el : Election) (counted : list nat).

(** [ballots] is a ghost: who voted for whom, and in which term. *)
Record cluster := mkCluster {
  nodes : list (Raft Cmd * Z);
  phases : list phase;
  requests : list RequestVoteArgs;
  replies : list (nat * RequestVoteArgs * RequestVoteReply);
  ballots : list (nat * Z * Z);
}.

Definition granted (j : nat) (args : RequestVoteArgs) (reply : RequestVoteReply) :=
  if rvr_VoteGranted reply then [(j, rv_CandiateId args, rv_Term args)] else [].

(** The steps of elections. *)
Inductive estep : cluster → cluster → Prop :=
| cs_timeout i now rf rf' s ns ph rq rp bs :
    ns !! i = Some (rf, s) → ticker_timeout now rf = Some rf' →
    estep (mkCluster ns ph rq rp bs)
          (mkCluster (<[i := (rf', s)]> ns) (<[i := Pending]> ph) rq rp bs)
| cs_start i rf rf' s el ns ph rq rp bs :
    ns !! i = Some (rf, s) → ph !! i = Some Pending → election_start rf = Ret (rf', el) →
    estep (mkCluster ns ph rq rp bs)
          (mkCluster (<[i := (rf', s)]> ns) (<[i := Running el []]> ph)
             (voteArgs el :: rq) rp ((i, Z.of_nat i, votedForTerm el) :: bs))
| cs_request j now args rf rf' s reply ns ph rq rp bs :
    ns !! j = Some (rf, s) → args ∈ rq → rv_CandiateId args ≠ Z.of_nat j →
    RequestVote now args rf = Ret (rf', reply) →
    estep (mkCluster ns ph rq rp bs)
          (mkCluster (<[j := (rf', s)]> ns) ph rq ((j, args, reply) :: rp)
             (granted j args reply ++ bs))
| cs_reply i j el counted reply ns ph rq rp bs :
    ph !! i = Some (Running el counted) → (j, voteArgs el, reply) ∈ rp → j ∉ counted →
    estep (mkCluster ns ph rq rp bs)
          (mkCluster ns (<[i := Running (election_reply reply el) (j :: counted)]> ph) rq rp bs)
| cs_promote i ballot rf rf' s el counted b ns ph rq rp bs :
    ns !! i = Some (rf, s) → ph !! i = Some (Running el counted) →
    ballot ≤ ballotCount el → cancelToken el = false →
    election_promote ballot rf = Ret (rf', b) →
    estep (mkCluster ns ph rq rp bs)
          (mkCluster (<[i := (rf', s)]> ns)
             (if b : bool then <[i := Idle]> ph else ph) rq rp bs).

Inductive cstep : cluster → cluster → Prop :=
| cs_election c c' : estep c c' → cstep c c'
| cs_restart i now rf s rf' ns ph rq rp bs :
    ns !! i = Some (rf, s) → Make (peers rf) (me rf) (persister rf) now = Ret rf' →
    cstep (mkCluster ns ph rq rp bs)
          (mkCluster (<[i := (rf', 0)]> ns) (<[i := Idle]> ph) rq rp bs)
| cs_local i rf s rf' s' ns ph rq rp bs :
    ns !! i = Some (rf, s) → local_step rf s rf' s' →
    cstep (mkCluster ns ph rq rp bs) (mkCluster (<[i := (rf', s')]> ns) ph rq rp bs).

(** A cluster of [n] new peers. *)
Definition cluster_init (n : nat) (c : cluster) : Prop :=
  length (nodes c) = n ∧ phases c = replicate n Idle ∧ requests c = [] ∧ replies c = [] ∧
  ballots c = [] ∧
  ∀ i rf s, nodes c !! i = Some (rf, s) →
    s = 0 ∧ ∃ now, Make n (Z.of_nat i) MakePersister now = Ret rf.

Definition cluster_reachable (n : nat) (c : cluster) : Prop :=
  ∃ c0, cluster_init n c0 ∧ rtc cstep c0 c.

(** ** The invariant *)

(** [V] is a set of voters that voted for [c] in term [t]. *)
Definition voters (bs : list (nat * Z * Z)) (V : list nat) (c t : Z) : Prop :=
  NoDup V ∧ ∀ v, v ∈ V → (v, c, t) ∈ bs.

Lemma voters_mono bs bs' V c t : voters bs V c t → (∀ b, b ∈ bs → b ∈ bs') → voters bs' V c t.
Proof. intros [? Hv] Hs. split; auto. Qed.

(** The ballots against the peer that cast them. *)
Definition ballotsOk rf (v : nat) (bs : list (nat * Z * Z)) : Prop :=
  ∀ c t, (v, c, t) ∈ bs → t ≤ currentTerm rf ∧ (t = currentTerm rf → votedFor rf = Some c).

(** The peer against its own election. *)
Definition phaseOk rf (i : nat) (p : phase) (bs : list (nat * Z * Z)) : Prop :=
  match p with
  | Idle => True
  | Pending => state rf ≠ RS_Leader
  | Running el counted =>
      state rf ≠ RS_Leader ∧
      (state rf = RS_Candiate → currentTerm rf = votedForTerm el) ∧
      rv_Term (voteArgs el) = votedForTerm el ∧ rv_CandiateId (voteArgs el) = Z.of_nat i ∧
      ∃ V, voters bs V (Z.of_nat i) (votedForTerm el) ∧ ballotCount el = len V ∧
           ∀ v, v ∈ V → v = i ∨ v ∈ counted
  end.

Definition leaderOk n rf (i : nat) (bs : list (nat * Z * Z)) : Prop :=
  state rf = RS_Leader →
  ∃ V, voters bs V (Z.of_nat i) (currentTerm rf) ∧ Z.of_nat n / 2 + 1 ≤ len V.

Record nodeOk n rf s (i : nat) (p : phase) (bs : list (nat * Z * Z)) : Prop := {
  no_inv : nodeInv rf s;
  no_id : me rf = Z.of_nat i ∧ peers rf = n;
  no_ballots : ballotsOk rf i bs;
  no_phase : phaseOk rf i p bs;
  no_leader : leaderOk n rf i bs;
}.

Record clusterOk n (c : cluster) : Prop := {
  co_len : length (nodes c) = n ∧ length (phases c) = n;
  co_node : ∀ i rf s p, nodes c !! i = Some (rf, s) → phases c !! i = Some p →
    nodeOk n rf s i p (ballots c);
  co_range : ∀ v x t, (v, x, t) ∈ ballots c → (v < n)%nat;
  co_unique : ∀ v x y t, (v, x, t) ∈ ballots c → (v, y, t) ∈ ballots c → x = y;
  co_requests : ∀ args, args ∈ requests c → 0 ≤ rv_CandiateId args;
  co_replies : ∀ j args reply, (j, args, reply) ∈ replies c →
    rv_CandiateId args ≠ Z.of_nat j ∧
    (rvr_VoteGranted reply = true → (j, rv_CandiateId args, rv_Term args) ∈ ballots c);
}.

(** ** Steps of one peer *)

Lemma phaseOk_step rf rf' i p bs bs' : voteStep rf rf' → (∀ b, b ∈ bs → b ∈ bs') →
  phaseOk rf i p bs → phaseOk rf' i p bs'.
Proof.
  intros Hv Hbs. destruct p as [| |el counted]; simpl; [done|by intros Hl [? _]%(vs_leader _ _ Hv)|].
  intros (Hl & Hc & Ht & Hi & V & HV & Hn & Hin). split; [by intros [? _]%(vs_leader _ _ Hv)|].
  split; [intros [? ->]%(vs_candidate _ _ Hv); auto|]. eauto 10 using voters_mono.
Qed.

Lemma leaderOk_step n rf rf' i bs bs' : voteStep rf rf' → (∀ b, b ∈ bs → b ∈ bs') →
  leaderOk n rf i bs → leaderOk n rf' i bs'.
Proof.
  intros Hv Hbs HL [Hl ->]%(vs_leader _ _ Hv). destruct (HL Hl) as (V & HV & Hn).
  eauto using voters_mono.
Qed.

Lemma ballotsOk_step rf rf' v bs : voteStep rf rf' → ballotsOk rf v bs → ballotsOk rf' v bs.
Proof.
  intros [Ht Hv _ _ _] Hb c t Hin. destruct (Hb c t Hin) as [Hle Heq]. split; [lia|].
  intros Ht'. apply Hv; [lia|]. apply Heq. lia.
Qed.

Lemma nodeOk_step n rf s i p bs rf' s' : nodeOk n rf s i p bs → nodeInv rf' s' → voteStep rf rf' →
  nodeOk n rf' s' i p bs.
Proof.
  intros [HI [Hm Hp] Hb Hph HL] HI' Hv. destruct (vs_id _ _ Hv) as [Hm' Hp'].
  split; eauto using ballotsOk_step, phaseOk_step, leaderOk_step. by rewrite Hm', Hp'.
Qed.

(** Ballots that others cast do not concern a peer. *)
Lemma nodeOk_other n rf s i p bs bs' : nodeOk n rf s i p bs → (∀ b, b ∈ bs → b ∈ bs') →
  (∀ c t, (i, c, t) ∈ bs' → (i, c, t) ∈ bs) → nodeOk n rf s i p bs'.
Proof.
  intros [HI Hid Hb Hph HL] Hsub Hown.
  assert (voteStep rf rf) by (apply voteStep_frame; auto).
  split; eauto using phaseOk_step, leaderOk_step. intros c t Hin. by apply Hb, Hown.
Qed.

(** ** Steps of the cluster *)

(** The new ballots of a step: cast by peer [i], and its only ones in their
    term. *)
Definition fresh (i : nat) (new bs : list (nat * Z * Z)) : Prop :=
  ∀ v x t, (v, x, t) ∈ new → v = i ∧ ∀ y, (v, y, t) ∈ new ++ bs → x = y.

Lemma fresh_nil i bs : fresh i [] bs.
Proof. intros v x t Hin. by apply not_elem_of_nil in Hin. Qed.

Lemma clusterOk_update n ns ph rq rp bs i rf s p rf' s' p' rq' rp' new :
  clusterOk n (mkCluster ns ph rq rp bs) → ns !! i = Some (rf, s) → ph !! i = Some p →
  nodeOk n rf' s' i p' (new ++ bs) → fresh i new bs →
  (∀ args, args ∈ rq' → 0 ≤ rv_CandiateId args) →
  (∀ j args reply, (j, args, reply) ∈ rp' → rv_CandiateId args ≠ Z.of_nat j ∧
    (rvr_VoteGranted reply = true → (j, rv_CandiateId args, rv_Term args) ∈ new ++ bs)) →
  clusterOk n (mkCluster (<[i := (rf', s')]> ns) (<[i := p']> ph) rq' rp' (new ++ bs)).
Proof.
  intros [[Hn Hp] Hnode Hr Hu _ _] Hi Hpi Hok Hf Hrq Hrp. simpl in *.
  split; simpl; rewrite ?length_insert; auto.
  - intros j r sj pj Hj Hpj. apply list_lookup_insert_Some in Hj as [(-> & ? & Hlt)|[Hne Hj]].
    + rewrite list_lookup_insert_eq in Hpj by lia. by simplify_eq.
    + rewrite list_lookup_insert_ne in Hpj by done. eapply nodeOk_other; [by eapply Hnode|set_solver|].
      intros c t [[? _]%Hf|?]%elem_of_app; [congruence|done].
  - intros v x t [[-> _]%Hf|?]%elem_of_app; [|eauto]. apply lookup_lt_Some in Hi. lia.
  - intros v x y t Hx Hy. apply elem_of_app in Hx as [Hx|Hx].
    { destruct (Hf _ _ _ Hx) as [_ E]. by apply E. }
    pose proof Hy as Hy'. apply elem_of_app in Hy' as [Hy'|Hy']; [|eauto].
    symmetry. destruct (Hf _ _ _ Hy') as [_ E]. apply E. set_solver.
Qed.

Lemma ticker_timeout_voteOk n now rf rf' s i p bs : nodeOk n rf s i p bs →
  ticker_timeout now rf = Some rf' → nodeOk n rf' s i Pending bs.
Proof.
  intros [HI [Hm Hp] Hb Hph HL] Ht.
  assert (nodeInv rf' s) by (eapply nodeInv_step; [exact HI|by econstructor]).
  unfold ticker_timeout in Ht. case_decide as Hc; [|done]. injection Ht as <-.
  split; [done|done|exact Hb|done|]. intros Hl. by change (RS_Candiate = RS_Leader) in Hl.
Qed.

Lemma election_start_inv rf rf' el : election_start rf = Ret (rf', el) →
  currentTerm rf' = currentTerm rf + 1 ∧ votedFor rf' = Some (me rf) ∧ state rf' = state rf ∧
  me rf' = me rf ∧ peers rf' = peers rf ∧ votedForTerm el = currentTerm rf' ∧ ballotCount el = 1 ∧
  rv_Term (voteArgs el) = currentTerm rf' ∧ rv_CandiateId (voteArgs el) = me rf.
Proof. unfold election_start. intros Hr. inv_ret. by repeat split. Qed.

Lemma election_start_nodeOk n rf rf' s i el bs : nodeOk n rf s i Pending bs →
  election_start rf = Ret (rf', el) →
  nodeOk n rf' s i (Running el []) ([(i, Z.of_nat i, votedForTerm el)] ++ bs) ∧
  fresh i [(i, Z.of_nat i, votedForTerm el)] bs.
Proof.
  intros [HI [Hm Hp] Hb Hph HL] Hr.
  assert (nodeInv rf' s) by (eapply nodeInv_step; [exact HI|by econstructor]).
  apply election_start_inv in Hr as (Ht & Hv & Hs & Hm' & Hp' & Het & Hbc & Hat & Hac).
  simpl in Hph. split; [split; auto|].
  - by rewrite Hm', Hp'.
  - intros c t [?|Hin]%elem_of_cons; simplify_eq; [rewrite Hv, Hm, Het; split; [lia|done]|].
    destruct (Hb _ _ Hin). lia.
  - simpl. rewrite Hs. do 4 (split; [congruence|]). exists [i].
    rewrite Hbc. split; [|split; [done|set_solver]]. split; [apply NoDup_singleton|].
    intros v ->%list_elem_of_singleton. rewrite elem_of_cons. by left.
  - intros Hl. congruence.
  - intros v x t Hin%list_elem_of_singleton. simplify_eq. split; [done|].
    intros y [?|Hin]%elem_of_cons; [congruence|]. destruct (Hb _ _ Hin). lia.
Qed.

Lemma RequestVote_nodeOk n now args rf rf' s i p bs reply : nodeOk n rf s i p bs →
  0 ≤ rv_CandiateId args → RequestVote now args rf = Ret (rf', reply) →
  nodeOk n rf' s i p (granted i args reply ++ bs) ∧ fresh i (granted i args reply) bs.
Proof.
  intros Hok Hc Hr. pose proof (RequestVote_voteStep _ _ _ _ _ Hr) as Hv.
  assert (nodeInv rf' s) as HI'
    by (eapply nodeInv_step; [apply Hok|by eapply ns_vote]).
  pose proof (nodeOk_step _ _ _ _ _ _ _ _ Hok HI' Hv) as Hok'.
  unfold granted. destruct (rvr_VoteGranted reply) eqn:Hg; [|split; [done|apply fresh_nil]].
  destruct (RequestVote_granted _ _ _ _ _ Hr Hg) as (Hle & Ht & Hvf & Hold).
  pose proof (no_ballots _ _ _ _ _ _ Hok') as Hb'. destruct Hok' as [_ Hid _ Hph HL].
  split; [split; auto|].
  - intros c t [?|Hin]%elem_of_cons; [simplify_eq; rewrite Ht; split; [lia|done]|by apply Hb'].
  - eapply (phaseOk_step rf'); [by apply voteStep_frame; auto| |done]. set_solver.
  - eapply (leaderOk_step n rf'); [by apply voteStep_frame; auto| |done]. set_solver.
  - intros v x t Hin%list_elem_of_singleton. simplify_eq. split; [done|].
    intros y [?|Hin]%elem_of_cons; [congruence|]. destruct (Hb' _ _ Hin) as [_ E].
    rewrite Ht in E. specialize (E eq_refl). congruence.
Qed.

Lemma election_reply_nodeOk n rf s i j el counted reply bs :
  nodeOk n rf s i (Running el counted) bs → j ∉ counted →
  rv_CandiateId (voteArgs el) ≠ Z.of_nat j →
  (rvr_VoteGranted reply = true → (j, rv_CandiateId (voteArgs el), rv_Term (voteArgs el)) ∈ bs) →
  nodeOk n rf s i (Running (election_reply reply el) (j :: counted)) bs.
Proof.
  intros [HI Hid Hb (Hs & Hc & Ht & Hi & V & [HV1 HV2] & Hn & Hin) HL] Hj Hne Hg.
  split; auto. simpl. split; [done|].
  assert (∃ V', votedForTerm (election_reply reply el) = votedForTerm el ∧
    voteArgs (election_reply reply el) = voteArgs el ∧
    voters bs V' (Z.of_nat i) (votedForTerm el) ∧ ballotCount (election_reply reply el) = len V' ∧
    ∀ v, v ∈ V' → v = i ∨ v ∈ j :: counted) as (V' & -> & -> & HV' & -> & Hin');
    [|eauto 10].
  assert (∀ v, v ∈ V → v = i ∨ v ∈ j :: counted) as Hin' by (intros v [?|?]%Hin; set_solver).
  unfold election_reply. destruct (cancelToken el) eqn:Hct; [by exists V|].
  destruct (rvr_VoteGranted reply) eqn:Hgr; simpl; [|case_bool_decide; by exists V].
  exists (j :: V). split; [done|]. split; [done|]. split; [split|split; [by rewrite len_cons, Hn|]].
  - apply NoDup_cons. split; [|done]. intros [->|?]%Hin; congruence.
  - intros v [->|?]%elem_of_cons; [|by apply HV2]. rewrite <- Hi, <- Ht. by apply Hg.
  - intros v [->|?]%elem_of_cons; [|by apply Hin']. right. set_solver.
Qed.

Lemma election_promote_inv ballot rf rf' b : election_promote ballot rf = Ret (rf', b) →
  if b then state rf = RS_Candiate ∧ majority rf ≤ ballot ∧ currentTerm rf' = currentTerm rf ∧
            votedFor rf' = votedFor rf ∧ me rf' = me rf ∧ peers rf' = peers rf
  else rf' = rf.
Proof. unfold election_promote. intros Hr. case_decide; inv_ret; [|done]. repeat split; tauto || lia. Qed.

Lemma election_promote_nodeOk n ballot rf rf' s i el counted b bs :
  nodeOk n rf s i (Running el counted) bs → ballot ≤ ballotCount el →
  election_promote ballot rf = Ret (rf', b) →
  nodeOk n rf' s i (if b then Idle else Running el counted) bs.
Proof.
  intros Hok Hle Hr. assert (nodeInv rf' s) by (eapply nodeInv_promote; [apply Hok|done]).
  apply election_promote_inv in Hr. destruct b; [|by subst].
  destruct Hok as [HI [Hm Hp] Hb (Hs & Hc & Ht & Hi & V & HV & Hn & Hin) HL].
  destruct Hr as (Hst & Hmaj & Ht' & Hv' & Hm' & Hp'). split; auto.
  - by rewrite Hm', Hp'.
  - intros c t Hcin. rewrite Ht', Hv'. by apply Hb.
  - done.
  - intros _. exists V. rewrite Ht', (Hc Hst). split; [done|]. unfold majority in Hmaj.
    rewrite Hp in Hmaj. lia.
Qed.

(** [clusterStep new]: a step of one peer, with the ballots [new]. *)
Ltac clusterStep new :=
  eapply (clusterOk_update _ _ _ _ _ _ _ _ _ _ _ _ _ _ _ new); eauto using fresh_nil.

Lemma clusterOk_step n c c' : clusterOk n c → cstep c c' → clusterOk n c'.
Proof.
  intros Hok Hst.
  assert (∀ i rf s, nodes c !! i = Some (rf, s) → ∃ p, phases c !! i = Some p) as Hph.
  { intros i rf s Hi%lookup_lt_Some. destruct (co_len _ _ Hok). apply lookup_lt_is_Some. lia. }
  assert (∀ i p, phases c !! i = Some p → ∃ rf s, nodes c !! i = Some (rf, s)) as Hnd.
  { intros i p Hi%lookup_lt_Some. destruct (co_len _ _ Hok).
    destruct (lookup_lt_is_Some_2 (nodes c) i) as [[rf s] ?]; [lia|eauto]. }
  destruct Hst as [c c' [i now rf rf' s ns ph rq rp bs Hi Hr|i rf rf' s el ns ph rq rp bs Hi Hp Hr
    |j now args rf rf' s reply ns ph rq rp bs Hi Hin Hne Hr
    |i j el counted reply ns ph rq rp bs Hp Hin Hj
    |i ballot rf rf' s el counted b ns ph rq rp bs Hi Hp Hle Hct Hr]
    |i now rf s rf' ns ph rq rp bs Hi Hr|i rf s rf' s' ns ph rq rp bs Hi Hr];
    simpl in *; pose proof (co_requests _ _ Hok) as Hrq; pose proof (co_replies _ _ Hok) as Hrp;
    simpl in Hrq, Hrp.
  - destruct (Hph _ _ _ Hi) as [p Hp]. clusterStep (@nil (nat * Z * Z)).
    eapply ticker_timeout_voteOk; [by eapply (co_node _ _ Hok)|done].
  - destruct (election_start_nodeOk n rf rf' s i el bs) as [HN HF]; [by eapply (co_node _ _ Hok)|done|].
    apply election_start_inv in Hr as (_ & _ & _ & _ & _ & _ & _ & _ & Hac).
    clusterStep [(i, Z.of_nat i, votedForTerm el)].
    + intros a [->|?]%elem_of_cons; [|by apply Hrq].
      destruct (no_id _ _ _ _ _ _ (co_node _ _ Hok _ _ _ _ Hi Hp)). lia.
    + intros j a r [? Hg]%Hrp. split; [done|]. intros ?%Hg. set_solver.
  - destruct (Hph _ _ _ Hi) as [p Hp].
    destruct (RequestVote_nodeOk n now args rf rf' s j p bs reply) as [HN HF];
      [by eapply (co_node _ _ Hok)|by apply Hrq|done|].
    rewrite <- (list_insert_id ph j p) by done. clusterStep (granted j args reply).
    intros j' a r [?|[? Hg]%Hrp]%elem_of_cons.
    + simplify_eq. split; [done|]. intros Hg. unfold granted. rewrite Hg. set_solver.
    + split; [done|]. intros ?%Hg. set_solver.
  - destruct (Hnd _ _ Hp) as (rf & s & Hi). rewrite <- (list_insert_id ns i (rf, s)) by done.
    destruct (Hrp _ _ _ Hin). clusterStep (@nil (nat * Z * Z)).
    apply election_reply_nodeOk; auto. by eapply (co_node _ _ Hok).
  - rewrite <- (list_insert_id ph i (Running el counted)) at 2 by done.
    replace (if b then <[i:=Idle]> ph else <[i:=Running el counted]> ph)
      with (<[i := if b then Idle else Running el counted]> ph) by (by destruct b).
    clusterStep (@nil (nat * Z * Z)).
    eapply election_promote_nodeOk; [by eapply (co_node _ _ Hok)|done|done].
  - destruct (Hph _ _ _ Hi) as [p Hp]. pose proof (co_node _ _ Hok _ _ _ _ Hi Hp) as Hn.
    assert (nodeOk n rf' 0 i p bs) as [] by (eapply nodeOk_step;
      [done|by eapply nodeInv_restart, Hr; apply Hn|by eapply Make_voteStep, Hr; apply Hn]).
    clusterStep (@nil (nat * Z * Z)). by split.
  - destruct (Hph _ _ _ Hi) as [p Hp]. pose proof (co_node _ _ Hok _ _ _ _ Hi Hp) as Hn.
    rewrite <- (list_insert_id ph i p) by done. clusterStep (@nil (nat * Z * Z)).
    eapply nodeOk_step; [done|eapply nodeInv_step; [apply Hn|by apply local_step_node]|].
    eapply local_step_voteStep; [apply Hn|done].
Qed.

Lemma clusterOk_init n c : cluster_init n c → clusterOk n c.
Proof.
  intros (Hl & Hp & Hrq & Hrp & Hb & Hn). split; rewrite ?Hrq, ?Hrp, ?Hb.
  - by rewrite Hp, length_replicate.
  - intros i rf s p Hi Hpi. rewrite Hp in Hpi. apply lookup_replicate in Hpi as [-> _].
    pose proof (lookup_lt_Some _ _ _ Hi). destruct (Hn _ _ _ Hi) as (-> & now & Hr).
    assert (nodeInv rf 0) by (eapply nodeInv_make, Hr; lia). injection Hr as <-.
    split; [done|done|intros ???%not_elem_of_nil; done|done|]. intros ?; done.
  - by intros v x t ?%not_elem_of_nil.
  - by intros v x y t ?%not_elem_of_nil.
  - by intros a ?%not_elem_of_nil.
  - by intros j a r ?%not_elem_of_nil.
Qed.

Lemma cluster_reachable_ok n c : cluster_reachable n c → clusterOk n c.
Proof.
  intros (c0 & Hi & Hst). apply clusterOk_init in Hi.
  induction Hst; eauto using clusterOk_step.
Qed.

(** ** At most one leader *)

(** C4: election safety. In every reachable state of a cluster, whatever is lost,
    repeated, delayed or restarted, two peers that are leaders in the same term
    are the same peer. In these runs ([estep]) nothing comes between the last test
    of [cancelToken] of an election and its lock, and an old election has ended
    before the next one of the peer starts; [stale_promotion] shows a run without
    that. *)
Theorem election_safety n c i j rf rf' s s' :
  cluster_reachable n c → nodes c !! i = Some (rf, s) → nodes c !! j = Some (rf', s') →
  state rf = RS_Leader → state rf' = RS_Leader → currentTerm rf = currentTerm rf' → i = j.
Proof.
  intros Hc%cluster_reachable_ok Hi Hj Hl Hl' Ht.
  assert (∀ k r sk, nodes c !! k = Some (r, sk) → state r = RS_Leader →
    ∃ V, voters (ballots c) V (Z.of_nat k) (currentTerm r) ∧ Z.of_nat n / 2 + 1 ≤ len V) as HQ.
  { intros k r sk Hk. destruct (lookup_lt_is_Some_2 (phases c) k) as [p Hp].
    { apply lookup_lt_Some in Hk. destruct (co_len _ _ Hc). lia. }
    apply (no_leader _ _ _ _ _ _ (co_node _ _ Hc _ _ _ _ Hk Hp)). }
  destruct (HQ _ _ _ Hi Hl) as (V & [HV1 HV2] & HVn).
  destruct (HQ _ _ _ Hj Hl') as (W & [HW1 HW2] & HWn).
  destruct (quorums_meet n V W) as (v & Hv & Hw); eauto using co_range.
  specialize (HV2 _ Hv). specialize (HW2 _ Hw). rewrite <- Ht in HW2.
  pose proof (co_unique _ _ Hc _ _ _ _ HV2 HW2). lia.
Qed.

End cluster.

(** ** An election *)

Section example.
#[local] Existing Instance Zcodec.
#[local] Existing Instance Zcodec_laws.

(** Three peers; peer 0 times out after a second, is elected by peer 1. *)
Definition peer0 (i : Z) : Raft Z := valueOf (initRaft 3 i MakePersister 0) (Make 3 i MakePersister 0).
Definition candidate0 : Raft Z := default (peer0 0) (ticker_timeout (10 ^ 9) (peer0 0)).
Definition voting0 : Raft Z * Election :=
  valueOf (candidate0, mkElection 0 (mkRVArgs 0 0 0 0) 0 false false) (election_start candidate0).
Definition voter1 : Raft Z * RequestVoteReply :=
  valueOf (peer0 1, mkRVReply 0 false) (RequestVote (10 ^ 9) (voteArgs voting0.2) (peer0 1)).
Definition leader0 : Raft Z := (valueOf (voting0.1, false) (election_promote 2 voting0.1)).1.

Lemma election_safety_witness : ∃ c, cluster_reachable (Cmd := Z) 3 c ∧
  nodes c !! 0%nat = Some (leader0, 0) ∧ state leader0 = RS_Leader ∧
  ∀ j rf' s', nodes c !! j = Some (rf', s') → state rf' = RS_Leader →
    currentTerm rf' = currentTerm leader0 → j = 0%nat.
Proof.
  assert (∃ c, cluster_reachable 3 c ∧ nodes c !! 0%nat = Some (leader0, 0)) as (c & Hc & H0).
  { eexists. split; [|]. eexists (mkCluster [(peer0 0, 0); (peer0 1, 0); (peer0 2, 0)]
      (replicate 3 Idle) [] [] []). split.
    - do 5 (split; [done|]). intros [|[|[|i]]] rf s Hi; simplify_eq/=;
        (split; [done|]); exists 0; reflexivity.
    - eapply rtc_l; [eapply cs_election, (cs_timeout 0 (10 ^ 9) _ candidate0); reflexivity|].
      eapply rtc_l; [eapply cs_election, (cs_start 0 _ voting0.1 _ voting0.2); vm_compute; reflexivity|].
      eapply rtc_l; [eapply cs_election, (cs_request 1 (10 ^ 9) (voteArgs voting0.2) _ voter1.1 _ voter1.2);
        [reflexivity|by left|vm_compute; discriminate|vm_compute; reflexivity]|].
      eapply rtc_l; [eapply cs_election, (cs_reply 0 1 voting0.2 [] voter1.2);
        [reflexivity|by left|apply not_elem_of_nil]|].
      eapply rtc_l; [eapply cs_election, (cs_promote 0 2 voting0.1 leader0 _ _ _ true);
        [reflexivity|reflexivity|vm_compute; discriminate|vm_compute; reflexivity|
         vm_compute; reflexivity]|].
      apply rtc_refl.
    - reflexivity. }
  exists c. assert (state leader0 = RS_Leader) as Hl by (vm_compute; reflexivity).
  split; [done|]. split; [done|]. split; [done|]. intros j rf' s' Hj Hl' Ht.
  symmetry. by apply (election_safety 3 c 0 j leader0 rf' 0 s').
Defined.

(** The lock section that promotes a candidate does not look at the term of
    its election.  A peer that counts a majority for term 2, and before it
    takes the lock times out and starts an election for term 3, becomes the
    leader of term 3, for which only it has voted. *)
Theorem stale_promotion : ∃ (rf2 rf3 rf4 : Raft Z) el2 el3,
  election_start candidate0 = Ret (rf2, el2) ∧
  ballotCount (election_reply voter1.2 el2) = 2 ∧
  election_start (default rf2 (ticker_timeout (2 * 10 ^ 9) rf2)) = Ret (rf3, el3) ∧
  ballotCount el3 = 1 ∧
  election_promote (ballotCount (election_reply voter1.2 el2)) rf3 = Ret (rf4, true) ∧
  state rf4 = RS_Leader ∧ votedForTerm el2 = 2 ∧ currentTerm rf4 = 3.
Proof.
  set (rf3 := valueOf voting0
    (election_start (default voting0.1 (ticker_timeout (2 * 10 ^ 9) voting0.1)))).
  exists voting0.1, rf3.1, (valueOf (rf3.1, false) (election_promote 2 rf3.1)).1, voting0.2, rf3.2.
  do 7 (apply conj; [vm_compute; reflexivity|]). vm_compute; reflexivity.
Qed.

End example.
