(* ===== verification/RaftView.v ===== *)
(** * Raft: the log of a peer as a view of a whole log

    A peer keeps the tail of its log, behind an entry that stands for the
    snapshot.  [view rf F b] says that this tail belongs to the whole log [F]
    and that the snapshot covers it up to position [b].  The lemmas below say
    what each critical section that touches the log does in terms of [F]. *)

From S2P Require Import Prelude RaftState RaftNode RaftInv RaftIndex RaftApply RaftSteps RaftLeader RaftReplicate RaftElection.
Local Open Scope Z_scope.

Section view.
Context {Cmd : Type} `{Codec (@persistent Cmd)}.
Implicit Types (rf : Raft Cmd) (F : list (logEntry Cmd)).

(** The entry that every log starts with. *)
Definition rootEntry : logEntry Cmd := mkEntry 1 LT_Noop 0 None.

(** Whole logs: numbered from 0, and the entry 1 is the no-op of a leader. *)
Record goodLog F : Prop := {
  gl_index : contiguous 0 F;
  gl_zero : F !! 0%nat = Some rootEntry;
  gl_one : ∀ e, F !! 1%nat = Some e → Type_ e = LT_Noop;
}.

Record view rf F (b : nat) : Prop := {
  vw_log : ∃ first eb, log rf = first :: drop (S b) F ∧ F !! b = Some eb ∧
                       Index first = Z.of_nat b ∧ Term first = Term eb;
  vw_ext : snapshotIndex rf = normals (take (S b) F);
  vw_pos : b = 0%nat ∨ 0 < snapshotIndex rf;
}.

Lemma view_base rf F b : view rf F b → base rf = Z.of_nat b.
Proof. intros [(first & eb & Hl & _ & Hi & _) _ _]. by rewrite Hl. Qed.

(** External indices count commands only: they never exceed internal ones. *)
Lemma view_external rf F b : goodLog F → view rf F b → snapshotIndex rf ≤ base rf.
Proof.
  intros [_ Hz _] Hv. rewrite (vw_ext _ _ _ Hv), (view_base _ _ _ Hv).
  destruct F as [|e F]; [done|]. injection Hz as ->. simpl. rewrite normals_cons, decide_False by (intros Hn; by apply Hn).
  assert (∀ l : list (logEntry Cmd), normals l ≤ len l) as Hn.
  { intros l. induction l as [|x l IH]; [rewrite normals_nil; apply len_nonneg|]. rewrite normals_cons, len_cons.
    case_decide; lia. }
  specialize (Hn (take b F)). unfold len in Hn. rewrite length_take in Hn. lia.
Qed.

Lemma view_len rf F b : view rf F b → gend rf = len F.
Proof.
  intros [(first & eb & Hl & Hb & Hi & _) _ _]. apply lookup_lt_Some in Hb. unfold gendL.
  rewrite Hl. simpl. rewrite len_cons, len_drop, Hi. unfold len. lia.
Qed.

Lemma view_lt rf F b : view rf F b → (b < length F)%nat.
Proof. intros [(first & eb & _ & Hb & _) _ _]. by apply lookup_lt_Some in Hb. Qed.

Lemma view_lookup rf F b k : view rf F b → k ≠ 0%nat → log rf !! k = F !! (b + k)%nat.
Proof.
  intros [(first & eb & Hl & _) _ _] Hk. rewrite Hl. destruct k as [|k]; [done|]. simpl.
  rewrite lookup_drop. f_equal. lia.
Qed.

Lemma view_term rf F b k e : view rf F b → log rf !! k = Some e →
  ∃ e', F !! (b + k)%nat = Some e' ∧ Term e' = Term e.
Proof.
  intros Hv Hk. destruct k as [|k]; [|rewrite (view_lookup _ _ _ _ Hv) in Hk by done; eauto].
  destruct Hv as [(first & eb & Hl & Hb & _ & Ht) _ _]. rewrite Hl in Hk. simplify_eq/=.
  rewrite Nat.add_0_r. eauto.
Qed.

Lemma view_term_rev rf F b k e : view rf F b → F !! (b + k)%nat = Some e →
  ∃ e', log rf !! k = Some e' ∧ Term e' = Term e.
Proof.
  intros Hv Hk. destruct k as [|k]; [|rewrite <- (view_lookup _ _ _ _ Hv) in Hk by done; eauto].
  destruct Hv as [(first & eb & Hl & Hb & _ & Ht) _ _]. rewrite Nat.add_0_r in Hk.
  rewrite Hl. simplify_eq. by exists first.
Qed.

(** The entry at a global index, as the code reads it. *)
Lemma view_at rf F b i e : view rf F b → base rf ≤ i → F !! Z.to_nat i = Some e →
  ∃ e', log rf !! Z.to_nat (i - base rf) = Some e' ∧ Term e' = Term e.
Proof.
  intros Hv Hi He. pose proof (view_base _ _ _ Hv) as Hb. apply (view_term_rev rf F b); [done|].
  rewrite <- He. f_equal. lia.
Qed.

Lemma view_last rf F b e : view rf F b → last (log rf) = Some e →
  ∃ e', last F = Some e' ∧ Term e' = Term e.
Proof.
  intros Hv Hl. rewrite last_lookup in Hl. destruct (view_term _ _ _ _ _ Hv Hl) as (e' & He & Ht).
  exists e'. split; [|done]. rewrite last_lookup, <- He. f_equal.
  destruct Hv as [(first & eb & Hlog & Hb & _) _ _]. apply lookup_lt_Some in Hb.
  rewrite Hlog. simpl. rewrite length_drop. lia.
Qed.

Lemma view_extOf rf F b i : wf rf → view rf F b → Z.of_nat b ≤ i →
  extOf rf i = normals (take (Z.to_nat (i + 1)) F).
Proof.
  intros Hwf Hv Hi. unfold extOf. rewrite (view_base _ _ _ Hv), (vw_ext _ _ _ Hv).
  replace (Z.to_nat (i - Z.of_nat b + 1)) with (S (Z.to_nat (i - Z.of_nat b))) by lia.
  rewrite normals_first by done. destruct Hv as [(first & eb & -> & _) _ _]. simpl.
  replace (Z.to_nat (i + 1)) with (S b + Z.to_nat (i - Z.of_nat b))%nat by lia.
  rewrite normals_take_split, drop_0. done.
Qed.

Lemma view_frame rf rf' F b : view rf F b → log rf' = log rf → snapshotIndex rf' = snapshotIndex rf →
  view rf' F b.
Proof. intros [Hl He Hp] El Es. split; rewrite ?El, ?Es; done. Qed.

(** The log is cut after [k] entries and others are appended. *)
Lemma view_extend rf rf' F b k es : view rf F b → (1 ≤ k ≤ length (log rf))%nat →
  log rf' = take k (log rf) ++ es → snapshotIndex rf' = snapshotIndex rf →
  view rf' (take (b + k) F ++ es) b.
Proof.
  intros Hv Hk El Es. pose proof (view_lt _ _ _ Hv) as Hlt.
  destruct (Hv) as [(first & eb & Hl & Hb & Hi & Ht) He Hp].
  rewrite Hl in Hk. simpl in Hk. rewrite length_drop in Hk.
  assert (S b ≤ length (take (b + k) F))%nat by (rewrite length_take; lia).
  split.
  - exists first, eb. rewrite El, Hl. destruct k as [|k]; [lia|]. simpl. split; [|split; [|done]].
    + f_equal. rewrite drop_app_le by done. f_equal. rewrite skipn_firstn_comm. f_equal. lia.
    + rewrite lookup_app_l by lia. rewrite lookup_take_lt by lia. done.
  - rewrite Es, He, take_app_le by done. rewrite take_take. do 2 f_equal. lia.
  - by rewrite Es.
Qed.

(** A snapshot up to position [b + k]. *)
Lemma view_cut rf rf' F b k e : view rf F b → F !! (b + k)%nat = Some e →
  snapshotIndex rf' = normals (take (S (b + k)) F) → 0 < snapshotIndex rf' →
  (∃ first, log rf' = first :: drop (S k) (log rf) ∧ Index first = Z.of_nat (b + k) ∧
            Term first = Term e) →
  view rf' F (b + k).
Proof.
  intros Hv He Es Hpos (first & El & Hi & Ht). split; [|done|by right].
  exists first, e. rewrite El. split; [|done].
  destruct Hv as [(first0 & eb & Hl & _) _ _]. rewrite Hl. simpl. rewrite drop_drop. done.
Qed.

(** A peer that holds nothing but the snapshot. *)
Lemma view_fresh rf F b e : length F = S b → F !! b = Some e →
  snapshotIndex rf = normals F → 0 < snapshotIndex rf →
  (∃ first, log rf = [first] ∧ Index first = Z.of_nat b ∧ Term first = Term e) → view rf F b.
Proof.
  intros HF He Es Hpos (first & El & Hi & Ht). split; [|by rewrite take_ge by lia|by right].
  exists first, e. rewrite drop_ge by lia. done.
Qed.

Lemma goodLog_two F b rf : goodLog F → view rf F b → b ≠ 1%nat.
Proof.
  intros [_ Hz H1] [(first & eb & _ & Hb & _) He Hp] ->. destruct Hp as [|Hp]; [done|].
  rewrite He, (normals_take_S _ _ _ Hb), (normals_take_S _ _ _ Hz) in Hp.
  rewrite (H1 _ Hb), !decide_False in Hp by (simpl; tauto).
  change (normals (take 0 F)) with 0 in Hp. lia.
Qed.

Lemma goodLog_prefix F p : goodLog F → p `prefix_of` F → p ≠ [] → goodLog p.
Proof.
  intros [Hi Hz H1] Hp Hne. split.
  - intros k e Hk. apply Hi. by eapply prefix_lookup_Some.
  - destruct p as [|e p]; [done|]. destruct Hp as [q ->]. done.
  - intros e He. apply H1. by eapply prefix_lookup_Some.
Qed.

Lemma goodLog_snoc F e : goodLog F → Index e = len F → (length F = 1%nat → Type_ e = LT_Noop) →
  goodLog (F ++ [e]).
Proof.
  intros [Hi Hz H1] He Ht. split.
  - apply contiguous_app. split; [done|]. by apply contiguous_single.
  - by apply lookup_app_l_Some.
  - intros e' [?|[Hl Hk]]%lookup_app_Some; [auto|]. apply lookup_lt_Some in Hz.
    apply list_lookup_singleton_Some in Hk as [Hk <-]. apply Ht. lia.
Qed.

(** ** [AppendEntries] *)

(** From position [k] on, the log has entries with the terms of [es]. *)
Definition termsAgree F (k : Z) (es : list (logEntry Cmd)) : Prop :=
  ∀ j e, es !! j = Some e → ∃ e', F !! Z.to_nat (k + Z.of_nat j) = Some e' ∧ Term e' = Term e.

Lemma prefixCheck_complete rf F b all es i : wf rf → view rf F b → 0 ≤ i → i + len es = len all →
  termsAgree F (i + lastApplied rf + 1) es → prefixCheck rf all es i = Ret (len all).
Proof.
  intros Hwf Hv. revert i. induction es as [|e es IH]; intros i Hi Hlen Ha; simpl.
  { unfold len in Hlen. simpl in Hlen. unfold mret, outcome_mret. f_equal. unfold len. lia. }
  rewrite len_cons in Hlen. rewrite localIndex_eq by apply Hwf. rewrite bind_Ret.
  pose proof (wf_applied _ Hwf) as Hla.
  destruct (Ha 0%nat e eq_refl) as (e' & He' & Ht').
  destruct (view_at rf F b (i + lastApplied rf + 1) e') as (e1 & He1 & Ht1); [done|lia| |].
  { rewrite <- He'. f_equal. lia. }
  pose proof (lookup_lt_Some _ _ _ He1). rewrite decide_True by (unfold len; lia).
  rewrite decide_False by lia. unfold slice_get. rewrite decide_False, He1 by lia. rewrite bind_Ret.
  rewrite decide_False by congruence. apply IH; [lia|lia|]. intros j e2 Hj.
  destruct (Ha (S j) e2 Hj) as (e3 & ? & ?). exists e3. split; [|done].
  replace (i + 1 + lastApplied rf + 1 + Z.of_nat j) with (i + lastApplied rf + 1 + Z.of_nat (S j)) by lia.
  done.
Qed.

Lemma syncState_view now args rf F b : view rf F b → view (syncState now args rf) F b.
Proof. intros Hv. eapply view_frame; [done| |]; unfold syncState; by case_decide. Qed.

Lemma syncState_fields now args rf :
  lastApplied (syncState now args rf) = lastApplied rf ∧
  commitIndex (syncState now args rf) = commitIndex rf ∧
  applyQueue (syncState now args rf) = applyQueue rf ∧
  currentTerm (syncState now args rf) = ae_Term args ∧ state (syncState now args rf) = RS_Follower.
Proof. unfold syncState. by case_decide. Qed.

(** The four ways in which a follower that does not refuse the term answers. *)
Inductive appended (args : AppendEntriesArgs Cmd) rf F : Raft Cmd → bool → list (logEntry Cmd) → Prop :=
| ap_bad rf' :
    commitIndex rf' = commitIndex rf → appended args rf F rf' false F
| ap_good rf' e :
    last F = Some e → len F - 1 = ae_PrevLogIndex args → Term e = ae_PrevLogTerm args →
    commitIndex rf' = ae_LeaderCommit args →
    appended args rf F rf' true (F ++ ae_Entries args)
| ap_prefix rf' :
    ae_PrevLogIndex args = lastApplied rf → lastApplied rf < len F - 1 →
    termsAgree F (lastApplied rf + 1) (ae_Entries args) →
    commitIndex rf' = commitIndex rf → appended args rf F rf' true F
| ap_fix rf' :
    ae_PrevLogIndex args = lastApplied rf → lastApplied rf < len F - 1 →
    ¬ termsAgree F (lastApplied rf + 1) (ae_Entries args) →
    commitIndex rf' = ae_LeaderCommit args →
    appended args rf F rf' true (take (Z.to_nat (lastApplied rf + 1)) F ++ ae_Entries args).

Lemma AppendEntries_view now args rf rf' reply F b : wf rf → view rf F b →
  AppendEntries now args rf = Ret (rf', reply) →
  0 ≤ aer_PrevLogIndex reply ∧ 0 ≤ aer_LastApplied reply ∧
  (ae_Term args < currentTerm rf ∧ rf' = rf ∧ aer_Success reply = false ∨
   currentTerm rf ≤ ae_Term args ∧ currentTerm rf' = ae_Term args ∧ state rf' = RS_Follower ∧
   lastApplied rf' = lastApplied rf ∧ applyQueue rf' = applyQueue rf ∧
   ∃ F', view rf' F' b ∧ appended args rf F rf' (aer_Success reply) F').
Proof.
  intros Hwf0 Hv0 Hr. unfold AppendEntries in Hr. case_decide as Ht.
  { inv_ret. split; [done|]. split; [done|]. by left. }
  pose proof (syncState_wf now args rf Hwf0) as Hwf. pose proof (syncState_view now args rf F b Hv0) as Hv.
  destruct (syncState_fields now args rf) as (Ea & Ec & Eq & Et & Es).
  set (r := syncState now args rf) in *. clearbody r. clear Hwf0 Hv0.
  pose proof (wf_ne _ Hwf) as Hne. pose proof (wf_applied _ Hwf) as Hla. pose proof (wf_base _ Hwf).
  pose proof (view_len _ _ _ Hv) as Hlen. pose proof (view_base _ _ _ Hv) as Hbase.
  pose proof (view_lt _ _ _ Hv). pose proof (gend_pos _ Hwf).
  rewrite globalLogLen_eq, bind_Ret in Hr by done.
  destruct (log_last r Hne) as (e & Hg & Hlast). rewrite Hg, bind_Ret in Hr.
  destruct (view_last _ _ _ _ Hv Hlast) as (e' & HlF & Hte).
  assert (rf' = r ∧ aer_PrevLogIndex reply = gend r - 1 ∧ aer_LastApplied reply = lastApplied r ∨
    ∃ l, rf' = persist (r <| log := l ++ ae_Entries args |>) <| commitIndex := ae_LeaderCommit args |>
      ∧ aer_PrevLogIndex reply = gend r - 1 ∧ aer_LastApplied reply = lastApplied r) as Hshape.
  { repeat (case_decide; inv_ret; try (left; done)); right; eexists; done. }
  assert (lastApplied rf' = lastApplied r ∧ applyQueue rf' = applyQueue r ∧ state rf' = state r ∧
    currentTerm rf' = currentTerm r ∧ 0 ≤ aer_PrevLogIndex reply ∧ 0 ≤ aer_LastApplied reply)
    as (-> & -> & -> & -> & Hp1 & Hp2).
  { destruct Hshape as [(-> & -> & ->)|(l & -> & -> & ->)]; repeat split; lia. }
  split; [done|]. split; [done|]. right. split; [lia|]. do 4 (split; [congruence|]).
  clear Hshape Hp1 Hp2. case_decide as Hgood; [|case_decide as Hfix].
  - inv_ret. exists (take (b + length (log r)) F ++ ae_Entries args). split.
    + eapply view_extend; [done|split; [|done]| |done].
      * destruct (log r); [done|simpl; lia].
      * by rewrite firstn_all.
    + assert (length F ≤ b + length (log r))%nat by (unfold gendL, len in *; lia).
      rewrite take_ge by done. eapply ap_good; [done|lia| |done]. destruct Hgood. congruence.
  - destruct Hfix as [Hf1 Hf2]. rewrite Hlen in Hf1. rewrite Ea in Hf2, Hla.
    destruct (prefixCheck_returns r (ae_Entries args) (ae_Entries args) 0 Hne) as [i Hp].
    rewrite Hp, bind_Ret in Hr. case_decide as Hi; [injection Hr as <- <-; subst i|].
    + exists F. split; [done|]. apply ap_prefix; [done|lia| |done]. intros j x Hj.
      destruct (prefixCheck_full r (ae_Entries args) (ae_Entries args) 0 Hne
        ltac:(lia) ltac:(lia) ltac:(lia) Hp j x Hj) as (x' & Hx' & Htx).
      rewrite Ea in Hx'. destruct (view_term _ _ _ _ _ Hv Hx') as (x2 & Hx2 & Ht2).
      exists x2. split; [|congruence]. rewrite <- Hx2. f_equal. lia.
    + rewrite localIndex_eq, bind_Ret in Hr by done. rewrite Ea in Hr.
      apply bind_Ret_inv in Hr as (l & [Hk ->]%slice_upto_Ret & Hr). injection Hr as <- <-.
      exists (take (b + Z.to_nat (lastApplied rf + 1 - base r)) F ++ ae_Entries args). split.
      * eapply view_extend; [done| |reflexivity|done]. unfold len in *. lia.
      * replace (b + Z.to_nat (lastApplied rf + 1 - base r))%nat
          with (Z.to_nat (lastApplied rf + 1)) by lia.
        apply ap_fix; [done|lia| |done]. intros Hagree. apply Hi.
        rewrite (prefixCheck_complete r F b) in Hp by (rewrite ?Ea; auto with lia). congruence.
  - case_decide; [|done]. injection Hr as <- <-. exists F. split; [done|]. by apply ap_bad.
Qed.

(** ** Snapshots *)

Lemma snapshotLog_view args rf : log rf ≠ [] →
  (∃ k e, log rf !! k = Some e ∧ is_LastIncludedInternal args = base rf + Z.of_nat k ∧
     Term e = is_LastIncludedTerm args ∧
     snapshotLog args rf = Ret (snapshotEntry args :: drop (S k) (log rf))) ∨
  snapshotLog args rf = Ret [snapshotEntry args] ∧
  ∀ k e, log rf !! k = Some e → is_LastIncludedInternal args = base rf + Z.of_nat k →
         Term e ≠ is_LastIncludedTerm args.
Proof.
  intros Hne. destruct (snapshotLog_cases args rf Hne) as [Hs|?]; [|by left].
  destruct (decide (0 ≤ is_LastIncludedInternal args - base rf < len (log rf))) as [Hin|Hout].
  2:{ right. split; [done|]. intros k e Hk Hi. apply lookup_lt_Some in Hk. unfold len in *. lia. }
  destruct (slice_get_in _ _ Hin) as (e & Hg & He).
  destruct (decide (Term e = is_LastIncludedTerm args)) as [Ht|Ht].
  - left. exists (Z.to_nat (is_LastIncludedInternal args - base rf)), e.
    split; [done|]. split; [lia|]. split; [done|].
    unfold snapshotLog. rewrite localIndex_eq, bind_Ret, decide_True by (done || lia).
    rewrite Hg, !bind_Ret, bool_decide_eq_true_2 by done. simpl. unfold slice_from, slice_set.
    rewrite decide_True by lia. simpl. rewrite decide_True by (rewrite len_drop; lia).
    rewrite insert_drop_cons; [done|]. unfold len in *; lia.
  - right. split; [done|]. intros k e' Hk Hi. replace k with
      (Z.to_nat (is_LastIncludedInternal args - base rf)) in Hk by lia. congruence.
Qed.

Lemma InstallSnapshot_view args rf rf' reply : wf rf →
  InstallSnapshot args rf = Ret (rf', reply) →
  rf' = rf ∨
  currentTerm rf ≤ is_Term args ∧ snapshotIndex rf < is_LastIncludedIndex args ∧
  currentTerm rf' = currentTerm rf ∧ state rf' = RS_Follower ∧
  snapshotIndex rf' = is_LastIncludedIndex args ∧
  lastApplied rf' = is_LastIncludedInternal args ∧ commitIndex rf' = is_LastIncludedInternal args ∧
  applyQueue rf' = [snapshotMsg (is_Data args) (is_LastIncludedIndex args) (is_LastIncludedTerm args)] ∧
  snapshotLog args rf = Ret (log rf').
Proof.
  intros Hwf Hr. unfold InstallSnapshot in Hr. repeat (case_decide; [inv_ret; by left|]).
  right. destruct (snapshotLog_cases args rf (wf_ne _ Hwf)) as [Hl|(k & e & _ & _ & _ & Hl)];
    rewrite Hl in Hr |- *; inv_ret;
    match goal with Hg : slice_get _ 0 = Ret ?x |- _ =>
      assert (x = snapshotEntry args) as -> by (injection Hg; auto) end; repeat split; lia.
Qed.

Lemma Snapshot_view index snap rf rf' F b : wf rf → view rf F b → index ≤ extOf rf (gend rf - 1) →
  Snapshot index snap rf = Ret rf' →
  ∃ b', view rf' F b' ∧ Z.of_nat b' ≤ Z.max (Z.of_nat b) (lastApplied rf) ∧
    currentTerm rf' = currentTerm rf ∧ state rf' = state rf ∧ commitIndex rf' = commitIndex rf ∧
    lastApplied rf' = lastApplied rf ∧ matchIndex rf' = matchIndex rf ∧
    applyQueue rf' = applyQueue rf.
Proof.
  intros Hwf Hv Hidx Hr. pose proof (view_base _ _ _ Hv) as Hb.
  destruct (Snapshot_cases index snap rf rf' Hwf Hidx Hr) as [->|(k & e & Hk & Hext & Hgt & Hle & ->)].
  { exists b. repeat split; try done; try apply Hv. lia. }
  destruct (view_term _ _ _ _ _ Hv Hk) as (e' & He' & Ht'). exists (b + k)%nat. split; [|repeat split; lia].
  assert (0 ≤ snapshotIndex rf) by (rewrite (vw_ext _ _ _ Hv); apply normals_nonneg).
  eapply view_cut; [done|exact He'| | |exists (noopOf e); split; [reflexivity|]].
  - change (index = normals (take (S (b + k)) F)). rewrite <- Hext.
    rewrite (view_extOf rf F b) by (done || lia). do 2 f_equal. lia.
  - change (0 < index). lia.
  - simpl. rewrite (wf_lookup _ _ _ Hwf Hk). split; [lia|done].
Qed.

(** ** A leader's own log *)

Lemma view_snoc rf rf' F b e : view rf F b → log rf' = log rf ++ [e] →
  snapshotIndex rf' = snapshotIndex rf → view rf' (F ++ [e]) b.
Proof.
  intros Hv El Es. pose proof (view_lt _ _ _ Hv).
  assert (F = take (b + length (log rf)) F) as HF.
  { symmetry. apply take_ge. destruct Hv as [(f & eb & -> & _) _ _]. simpl. rewrite length_drop. lia. }
  rewrite HF. eapply view_extend; [done| |by rewrite firstn_all|done].
  destruct Hv as [(f & eb & -> & _) _ _]. simpl. lia.
Qed.

Lemma Start_view command rf rf' r F b : wf rf → view rf F b → Start command rf = Ret (rf', r) →
  rf' = rf ∨
  state rf = RS_Leader ∧ state rf' = RS_Leader ∧ currentTerm rf' = currentTerm rf ∧
  view rf' (F ++ [mkEntry (currentTerm rf) LT_Normal (len F) command]) b ∧
  commitIndex rf' = commitIndex rf ∧ lastApplied rf' = lastApplied rf ∧
  applyQueue rf' = applyQueue rf ∧ matchIndex rf' = <[Z.to_nat (me rf) := len F]> (matchIndex rf) ∧
  r.2 = true.
Proof.
  intros Hwf Hv Hr. pose proof (wf_ne _ Hwf) as Hne. unfold Start in Hr.
  case_decide as Hs; [inv_ret; by left|]. right. split; [by destruct (state rf)|].
  rewrite globalLogLen_eq, bind_Ret in Hr by done.
  rewrite globalLogLen_eq, bind_Ret in Hr by (simpl; by destruct (log rf)).
  simpl in Hr. rewrite gend_append in Hr by done. rewrite (view_len _ _ _ Hv) in Hr. inv_ret.
  repeat match goal with Hs : slice_set _ _ _ = Ret _ |- _ => apply slice_set_Ret in Hs as [_ ->] end.
  split; [change (state rf = RS_Leader); by destruct (state rf)|]. split; [done|]. split; [eapply view_snoc; done|].
  do 3 (split; [done|]). split; [simpl; f_equal; lia|done].
Qed.

Lemma reinitPeers_match gll meId n next mtch nm j m : reinitPeers gll meId n next mtch = Ret nm →
  (j < n)%nat → Z.of_nat j ≠ meId → nm.2 !! j = Some m → m = 0.
Proof.
  unfold reinitPeers. intros Hr Hj Hme. assert (j ∈ seq 0 n ∨ ∀ m, mtch !! j = Some m → m = 0) as Hin.
  { left. apply elem_of_seq. lia. }
  clear Hj. revert next mtch Hin Hr. generalize (seq 0 n) as l.
  induction l as [|i l IH]; intros next mtch Hin Hr Hm; simpl in Hr.
  { unfold mret, outcome_mret in Hr. simplify_eq. destruct Hin as [Hin|Hin]; [by apply not_elem_of_nil in Hin|].
    by apply Hin. }
  case_decide as Hi.
  - rewrite bind_mret in Hr. eapply IH; [|exact Hr|done].
    destruct Hin as [[->|?]%elem_of_cons|?]; [congruence|by left|by right].
  - inv_ret. repeat match goal with Hs : slice_set _ _ _ = Ret _ |- _ => apply slice_set_Ret in Hs as [? ->] end.
    eapply IH; [|exact Hr|done].
    rewrite Nat2Z.id. destruct (decide (i = j)) as [->|Hij].
    + right. intros m'. rewrite list_lookup_insert_eq by (unfold len in *; lia). by intros [= <-].
    + rewrite list_lookup_insert_ne by done.
      destruct Hin as [[->|?]%elem_of_cons|?]; [done|by left|by right].
Qed.

Lemma election_promote_view ballot rf rf' F b : wf rf → view rf F b →
  election_promote ballot rf = Ret (rf', true) →
  state rf' = RS_Leader ∧ currentTerm rf' = currentTerm rf ∧
  view rf' (F ++ [mkEntry (currentTerm rf) LT_Noop (len F) None]) b ∧
  commitIndex rf' = commitIndex rf ∧ lastApplied rf' = lastApplied rf ∧
  applyQueue rf' = applyQueue rf ∧
  ∀ j m, matchIndex rf' !! j = Some m → (j < peers rf)%nat → m = 0 ∨ Z.of_nat j = me rf ∧ m = len F.
Proof.
  intros Hwf Hv Hr. pose proof (wf_ne _ Hwf) as Hne. pose proof (wf_me _ Hwf). unfold election_promote in Hr.
  case_decide as Hs; [|by inv_ret]. rewrite globalLogLen_eq, bind_Ret in Hr by done. simpl in Hr.
  apply bind_Ret_inv in Hr as (nm & Hnm & Hr).
  rewrite globalLogLen_eq, bind_Ret in Hr by (simpl; by destruct (log rf)).
  simpl in Hr. rewrite gend_append in Hr by done. rewrite (view_len _ _ _ Hv) in Hr. inv_ret.
  repeat match goal with Hs : slice_set _ _ _ = Ret _ |- _ => apply slice_set_Ret in Hs as [? ->] end.
  split; [done|]. split; [done|]. split; [eapply view_snoc; done|]. do 3 (split; [done|]).
  simpl. intros j m Hj Hlt. apply list_lookup_insert_Some in Hj as [(<- & <- & _)|[Hnj Hj]].
  - right. lia.
  - left. eapply reinitPeers_match; [exact Hnm|done| |done]. lia.
Qed.

(** ** The requests of a leader *)

(** What [handleFailedReply] changes, and the snapshot it sends. *)
Lemma handleFailedReply_view server args reply rf rf' a : wf rf →
  0 ≤ aer_PrevLogIndex reply → 0 ≤ aer_LastApplied reply →
  handleFailedReply server args reply rf = Ret (rf', a) →
  (∃ next, rf' = rf <| nextIndex := next |>) ∧
  ∀ isargs, a = FA_Install isargs → 0 < base rf ∧
    ∃ e, log rf !! 0%nat = Some e ∧
      isargs = mkISArgs (currentTerm rf) (me rf) (base rf) (snapshotIndex rf) (Term e) (snapshot rf).
Proof.
  intros Hwf Hp Hl Hr. unfold handleFailedReply in Hr.
  assert (rf = rf <| nextIndex := nextIndex rf |>) as Hid by (by destruct rf).
  case_decide; [inv_ret; split; [eauto|done]|]. apply bind_Ret_inv in Hr as (c12 & _ & Hr).
  destruct c12; [inv_ret; split; [eauto|done]|]. apply bind_Ret_inv in Hr as (c34 & _ & Hr).
  destruct c34; [inv_ret; split; [eauto|done]|].
  rewrite !localIndex_eq, !bind_Ret in Hr by apply Hwf. case_decide as Hk; [|done].
  apply bind_Ret_inv in Hr as (e & [_ He]%slice_get_Ret & Hr). inv_ret.
  split; [eauto|]. intros isargs [= <-]. split; [lia|]. exists e.
  split; [done|]. f_equal. rewrite (wf_lookup _ _ _ Hwf He). simpl. lia.
Qed.

(** The entries of a request are the end of the leader's whole log. *)
Lemma syncArgs_view rf F b server args next : wf rf → view rf F b →
  (Z.to_nat server < peers rf)%nat → 0 ≤ server →
  syncArgs rf server = Ret (args, next) →
  ∃ k e, ae_Term args = currentTerm rf ∧ ae_LeaderId args = me rf ∧
    ae_PrevLogIndex args = Z.of_nat k ∧ F !! k = Some e ∧ ae_PrevLogTerm args = Term e ∧
    ae_Entries args = drop (S k) F ∧ ae_LeaderCommit args = commitIndex rf ∧ next = len F.
Proof.
  intros Hwf Hv Hs Hs0 Hr. pose proof (view_base _ _ _ Hv) as Hb. pose proof (view_len _ _ _ Hv) as Hlen.
  destruct (slice_get_in (nextIndex rf) server) as (nx & Hnx & _).
  { unfold len. rewrite (wf_next _ Hwf). lia. }
  destruct (syncArgs_spec rf server nx Hwf Hnx) as (k & e & Hk & He & HS).
  rewrite HS in Hr. injection Hr as <- <-. destruct (view_term _ _ _ _ _ Hv He) as (e' & He' & Ht').
  pose proof (wf_ne _ Hwf) as Hne. pose proof (len_log_pos rf Hne).
  exists (b + k)%nat, e'. simpl. split; [done|]. split; [done|]. split; [unfold gendL in *; lia|].
  split; [done|]. split; [done|]. split; [|done].
  destruct Hv as [(f & eb & -> & _) _ _]. simpl. by rewrite drop_drop.
Qed.

(** ** Committing and applying *)

Lemma matchCount_voters (mtch : list Z) N : ∃ V : list nat, NoDup V ∧ len V = matchCount mtch N ∧
  ∀ v, v ∈ V → ∃ m, mtch !! v = Some m ∧ N ≤ m.
Proof.
  induction mtch as [|m mtch (V & Hnd & Hlen & HV)].
  { exists []. split; [constructor|]. split; [done|]. by intros v ?%not_elem_of_nil. }
  assert (NoDup (S <$> V)) by (apply NoDup_fmap; [|done]; congruence).
  assert (∀ v, v ∈ S <$> V → v ≠ 0%nat ∧ ∃ m', (m :: mtch) !! v = Some m' ∧ N ≤ m') as HS.
  { intros v (w & -> & Hw)%list_elem_of_fmap. split; [done|]. by apply HV. }
  rewrite matchCount_cons. case_decide.
  - exists (0%nat :: (S <$> V)). split; [|split].
    + apply NoDup_cons. split; [|done]. by intros [? _]%HS.
    + rewrite len_cons, <- Hlen. unfold len. rewrite length_fmap. lia.
    + intros v [->|[_ ?]%HS]%elem_of_cons; [|done]. exists m. split; [done|lia].
  - exists (S <$> V). split; [done|]. split; [|by intros v [_ ?]%HS].
    rewrite <- Hlen. unfold len. rewrite length_fmap. lia.
Qed.

(** A leader that moves its commit index has a majority behind the new one. *)
Lemma commitCheck_view rf rf' F b : wf rf → view rf F b → commitCheck rf = Ret rf' →
  (∃ c, rf' = rf <| commitIndex := c |>) ∧
  (commitIndex rf' = commitIndex rf ∨
   commitIndex rf < commitIndex rf' < len F ∧
   (commitIndex rf' < Z.of_nat b ∨
    (∃ e, F !! Z.to_nat (commitIndex rf') = Some e ∧ Term e = currentTerm rf) ∧
    ∃ V, NoDup V ∧ majority rf ≤ len V ∧
      ∀ v, v ∈ V → ∃ m, matchIndex rf !! v = Some m ∧ commitIndex rf' ≤ m)).
Proof.
  intros Hwf Hv Hr. rewrite commitCheck_spec in Hr by done. injection Hr as <-. split; [by eexists|].
  simpl. unfold commitSpec. case_decide as Hc; [|by left]. destruct Hc as [Hq Hc]. right.
  change (commitIndex (rf <| commitIndex := quorumIndex rf |>)) with (quorumIndex rf).
  pose proof (view_base _ _ _ Hv) as Hb. pose proof (view_len _ _ _ Hv) as Hlen.
  split; [lia|]. destruct Hc as [Hc|(e & He & Ht)]; [left; lia|].
  destruct (decide (quorumIndex rf < Z.of_nat b)); [by left|]. right. split.
  - destruct (view_term _ _ _ _ _ Hv He) as (e' & He' & Ht'). exists e'. split; [|congruence].
    rewrite <- He'. f_equal. lia.
  - destruct (matchCount_voters (matchIndex rf) (quorumIndex rf)) as (V & Hnd & Hn & HV).
    exists V. split; [done|]. split; [|done].
    pose proof (proj2 (quorumIndex_spec rf (quorumIndex rf) Hwf)) as Hm. lia.
Qed.

Lemma number_inv x (l : list (logEntry Cmd)) m : m ∈ number x l →
  ∃ k e, l !! k = Some e ∧ Type_ e = LT_Normal ∧
    m = commandMsg (Command e) (x + normals (take (S k) l)).
Proof.
  revert x. induction l as [|e l IH]; intros x Hm; simpl in Hm; [by apply not_elem_of_nil in Hm|].
  assert (∀ x, m ∈ number x l → Type_ e = LT_Normal ∨ Type_ e ≠ LT_Normal → ∃ k e0,
    (e :: l) !! k = Some e0 ∧ Type_ e0 = LT_Normal ∧
    m = commandMsg (Command e0) (x - normals [e] + normals (take (S k) (e :: l)))) as Hrest.
  { intros y (k & e0 & Hk & Ht & ->)%IH _. exists (S k), e0. split; [done|]. split; [done|].
    f_equal. change (take (S (S k)) (e :: l)) with ([e] ++ take (S k) l). rewrite normals_app. lia. }
  assert (normals [e] = if decide (Type_ e ≠ LT_Noop) then 1 else 0) as Hone
    by (unfold normals; rewrite filter_cons; by destruct (decide (Type_ e ≠ LT_Noop))).
  rewrite Hone in Hrest. destruct (decide (Type_ e = LT_Normal)) as [Ht|Ht].
  - apply elem_of_cons in Hm as [->|Hm].
    + exists 0%nat, e. split; [done|]. split; [done|]. f_equal.
      change (take 1 (e :: l)) with [e]. rewrite Hone, decide_True by (by rewrite Ht). lia.
    + destruct (Hrest _ Hm) as (k & e0 & ? & ? & ->); [by left|]. exists k, e0.
      split; [done|]. split; [done|]. f_equal. rewrite decide_True by (by rewrite Ht). lia.
  - destruct (Hrest _ Hm) as (k & e0 & ? & ? & ->); [by right|]. exists k, e0.
    split; [done|]. split; [done|]. f_equal. rewrite decide_False; [lia|].
    destruct (Type_ e); naive_solver.
Qed.

(** What the apply loop enqueues: commands at committed positions, each with
    the number of commands up to it. *)
Lemma applyEntries_view rf rf' F b : wf rf → view rf F b → applyEntries rf = Ret rf' →
  ∃ q, rf' = applied rf q (due rf) ∧
    ∀ m, m ∈ q → ∃ i e, (Z.to_nat (lastApplied rf) < i ≤ Z.to_nat (due rf))%nat ∧
      F !! i = Some e ∧ Type_ e = LT_Normal ∧
      m = commandMsg (Command e) (normals (take (S i) F)).
Proof.
  intros Hwf Hv Hr. rewrite applyEntries_spec in Hr by done. injection Hr as <-.
  eexists; split; [done|]. intros m (k & e & Hk & Ht & ->)%number_inv.
  pose proof (view_base _ _ _ Hv) as Hb. pose proof (wf_applied _ Hwf) as Hla. pose proof (wf_base _ Hwf).
  unfold batch in Hk. apply lookup_take_Some in Hk as [Hk Hlt]. rewrite lookup_drop in Hk.
  rewrite (view_lookup _ _ _ _ Hv) in Hk by lia.
  exists (Z.to_nat (lastApplied rf + 1) + k)%nat, e.
  replace (b + (Z.to_nat (lastApplied rf + 1 - base rf) + k))%nat
    with (Z.to_nat (lastApplied rf + 1) + k)%nat in Hk by lia.
  split; [lia|]. split; [done|]. split; [done|]. f_equal.
  rewrite (view_extOf rf F b) by (done || lia).
  replace (S (Z.to_nat (lastApplied rf + 1) + k)) with (Z.to_nat (lastApplied rf + 1) + S k)%nat by lia.
  rewrite normals_take_split. do 2 f_equal. unfold batch. rewrite take_take.
  rewrite Nat.min_l by lia. f_equal.
  replace (Z.to_nat (lastApplied rf + 1 - base rf)) with (S (Z.to_nat (lastApplied rf) - b)) by lia.
  destruct Hv as [(f & eb & -> & _) _ _]. rewrite skipn_cons, drop_drop. f_equal. lia.
Qed.

End view.
