(* ===== verification/RaftAbstract.v ===== *)
(** * Raft: the argument for log safety

    An abstract Raft: every peer has a term and a whole log, never cut by a
    snapshot, and the history of the cluster is kept: who was a candidate with
    which log, who voted with which log, which peer led which term and with
    which log, and which peer acknowledged which prefix of a leader's log.
    [leader_complete] is the Leader Completeness property of the Raft paper,
    and [committed_comparable] the reason why two peers never apply different
    entries at an index.  [RaftSafety] shows that the peers of [RaftNode]
    implement this machine. *)

From stdpp Require Import functions.
From S2P Require Import Prelude.
Local Open Scope Z_scope.

(** ** Prefixes *)

Section prefixes.
Context {E : Type}.
Implicit Types (l p q : list E).

Lemma prefix_take l k : take k l `prefix_of` l.
Proof. exists (drop k l). by rewrite take_drop. Qed.

Lemma prefix_is_take p l : p `prefix_of` l → p = take (length p) l.
Proof. intros [q ->]. by rewrite take_app_length. Qed.

Lemma take_prefix_mono p l k : p `prefix_of` l → take k p `prefix_of` take k l.
Proof. intros [q ->]. rewrite take_app. by eexists. Qed.

Lemma prefix_take_le p l k : p `prefix_of` l → (length p ≤ k)%nat → p `prefix_of` take k l.
Proof. intros Hp Hk. apply (take_prefix_mono _ _ k) in Hp. by rewrite take_ge in Hp. Qed.

Lemma take_take_prefix l k m : (k ≤ m)%nat → take k l `prefix_of` take m l.
Proof. intros Hk. rewrite <- (Nat.min_l k m), <- take_take by lia. apply prefix_take. Qed.

Lemma take_grown p l k : p `prefix_of` l → (k ≤ length p)%nat → take k l = take k p.
Proof. intros [q ->] Hk. by rewrite take_app_le. Qed.

(** Of two prefixes of a list, the shorter is a prefix of the longer. *)
Lemma prefix_shorter p q l : p `prefix_of` l → q `prefix_of` l → (length p ≤ length q)%nat →
  p `prefix_of` q.
Proof.
  intros Hp Hq Hle. destruct (prefix_weak_total p q l Hp Hq) as [|Hqp]; [done|].
  pose proof (prefix_length _ _ Hqp). destruct Hqp as [r ->]. rewrite length_app in *.
  destruct r; [by rewrite app_nil_r|simpl in *; lia].
Qed.

Lemma prefix_snoc_inv p l e : p `prefix_of` l ++ [e] → p `prefix_of` l ∨ p = l ++ [e].
Proof.
  intros Hp. destruct (decide (length p ≤ length l)%nat).
  - left. eapply prefix_shorter; [done|by exists [e]|done].
  - right. etrans; [by apply prefix_is_take|]. apply take_ge. rewrite length_app. simpl. lia.
Qed.
End prefixes.

Section abstract.
Context {E : Type} (eterm : E → Z) (root : E) (n : nat).
Implicit Types (l p : list E).

(** ** States *)

(** A leadership: the peer, its log right after its election, its log now. *)
Record leadership := mkLead { l_who : nat; l_start : list E; l_log : list E }.

Record abs := mkAbs {
  terms : nat → Z;
  logs : nat → list E;
  leads : Z → option leadership;
  cands : list (nat * Z * list E);
  votes : list (nat * nat * Z * list E);
  acks : list (nat * Z * nat);
}.
Implicit Types (A : abs).

Definition quorum (V : list nat) : Prop :=
  NoDup V ∧ (∀ v, v ∈ V → (v < n)%nat) ∧ Z.of_nat n / 2 + 1 ≤ len V.

(** The voter's log is not more up to date than the candidate's. *)
Definition notNewer (vlog clog : list E) : Prop :=
  ∃ ev ec, last vlog = Some ev ∧ last clog = Some ec ∧
    (eterm ev < eterm ec ∨ eterm ev = eterm ec ∧ (length vlog ≤ length clog)%nat).

(** What a peer makes of its log [l] when it gets the prefix [m] of its
    leader's log. *)
Definition adopted (l m l' : list E) : Prop :=
  (m `prefix_of` l ∧ l' = l) ∨ (¬ m `prefix_of` l ∧ l' = m).

(** Nobody led term 1: its only entry is the one every log starts with. *)
Definition abs_init : abs := mkAbs (λ _, 1) (λ _, [root])
  (<[1 := Some (mkLead n [root] [root])]> (λ _, None)) [] [] ((λ v, (v, 1, 1%nat)) <$> seq 0 n).

(** [astep i A A']: a step of peer [i]. *)
Inductive astep : nat → abs → abs → Prop :=
| as_term A v T : terms A v ≤ T → (v < n)%nat →
    astep v A (mkAbs (<[v := T]> (terms A)) (logs A) (leads A) (cands A) (votes A) (acks A))
| as_cand A c T : T = terms A c + 1 → (c < n)%nat →
    astep c A (mkAbs (<[c := T]> (terms A)) (logs A) (leads A)
               ((c, T, logs A c) :: cands A) ((c, c, T, logs A c) :: votes A) (acks A))
| as_vote A v c T clog : (c, T, clog) ∈ cands A → terms A v ≤ T → leads A T = None →
    notNewer (logs A v) clog → (v < n)%nat →
    astep v A (mkAbs (<[v := T]> (terms A)) (logs A) (leads A) (cands A)
               ((v, c, T, logs A v) :: votes A) (acks A))
| as_elect A i T noop V : (i, T, logs A i) ∈ cands A → terms A i = T → leads A T = None →
    eterm noop = T → quorum V → (∀ v, v ∈ V → ∃ vlog, (v, i, T, vlog) ∈ votes A) → (i < n)%nat →
    let l := logs A i ++ [noop] in
    astep i A (mkAbs (terms A) (<[i := l]> (logs A)) (<[T := Some (mkLead i l l)]> (leads A))
               (cands A) (votes A) ((i, T, length l) :: acks A))
| as_append A i r e : leads A (terms A i) = Some r → l_who r = i → eterm e = terms A i → (i < n)%nat →
    let l := logs A i ++ [e] in
    astep i A (mkAbs (terms A) (<[i := l]> (logs A))
               (<[terms A i := Some (mkLead i (l_start r) l)]> (leads A))
               (cands A) (votes A) ((i, terms A i, length l) :: acks A))
| as_adopt A v t r m l' : leads A t = Some r → l_who r ≠ v → terms A v ≤ t →
    m `prefix_of` l_log r → adopted (logs A v) m l' → (v < n)%nat → m ≠ [] →
    astep v A (mkAbs (<[v := t]> (terms A)) (<[v := l']> (logs A)) (leads A) (cands A) (votes A)
               ((v, t, length m) :: acks A)).

(** ** The invariant *)

(** Log Matching: up to an entry of term [t], a log is the log of leader [t]. *)
Definition matched A l : Prop :=
  ∀ k e, l !! k = Some e → ∃ r, leads A (eterm e) = Some r ∧ take (S k) l `prefix_of` l_log r.

(** A prefix of the log of leader [t] that a peer acknowledged is still in its
    log [l], or a leader of a later term, up to [T], did not have it. *)
Definition backed A l (T t : Z) (m : nat) : Prop :=
  ∀ r m', leads A t = Some r → (m' ≤ m)%nat →
    take m' (l_log r) `prefix_of` l ∨
    ∃ t2 r2, t < t2 ≤ T ∧ leads A t2 = Some r2 ∧ ¬ take m' (l_log r) `prefix_of` l_start r2.

Record logOk A v : Prop := {
  lo_matched : matched A (logs A v);
  lo_terms : ∀ e, e ∈ logs A v → eterm e ≤ terms A v;
  lo_root : ∃ l, logs A v = root :: l;
}.

Record candOk A c T l : Prop := {
  ca_term : 1 < T ≤ terms A c;
  ca_matched : matched A l;
  ca_terms : ∀ e, e ∈ l → eterm e < T;
  ca_unique : ∀ l', (c, T, l') ∈ cands A → l' = l;
}.

Record voteOk A v c T vlog : Prop := {
  vo_term : T ≤ terms A v;
  vo_peer : (v < n)%nat;
  vo_matched : matched A vlog;
  vo_cand : ∃ clog, (c, T, clog) ∈ cands A ∧ notNewer vlog clog;
  vo_backed : ∀ t m, (v, t, m) ∈ acks A → t < T → backed A vlog (T - 1) t m;
}.

Record ackOk A v t m : Prop := {
  ak_term : t ≤ terms A v;
  ak_lead : ∃ r, leads A t = Some r ∧ (m ≤ length (l_log r))%nat;
  ak_backed : backed A (logs A v) (terms A v) t m;
}.

(** How a leader came to lead. *)
Definition elected A T r : Prop :=
  ∃ clog noop V, l_start r = clog ++ [noop] ∧ (l_who r, T, clog) ∈ cands A ∧ quorum V ∧
    ∀ v, v ∈ V → ∃ vlog, (v, l_who r, T, vlog) ∈ votes A.

Record leadOk A T r : Prop := {
  ld_start : l_start r `prefix_of` l_log r;
  ld_root : ∃ l, l_log r = root :: l;
  ld_matched : matched A (l_log r);
  ld_terms : ∀ k e, l_log r !! k = Some e →
    eterm e ≤ T ∧ (eterm e = T ↔ (length (l_start r) ≤ S k)%nat);
  ld_elected : T = 1 ∧ l_who r = n ∧ l_start r = [root] ∨ 1 < T ∧ (l_who r < n)%nat ∧ elected A T r;
  ld_holds : T ≤ terms A (l_who r) ∧ (terms A (l_who r) = T → logs A (l_who r) = l_log r);
}.

Record absInv A : Prop := {
  ai_log : ∀ v, logOk A v;
  ai_cand : ∀ c T l, (c, T, l) ∈ cands A → candOk A c T l;
  ai_vote : ∀ v c T l, (v, c, T, l) ∈ votes A → voteOk A v c T l;
  ai_ack : ∀ v t m, (v, t, m) ∈ acks A → ackOk A v t m;
  ai_lead : ∀ T r, leads A T = Some r → leadOk A T r;
  ai_terms : ∀ v, 1 ≤ terms A v;
}.

(** ** Growth

    The history only grows: leaderships are never forgotten, and the log of a
    leader is only extended. *)

Definition grows A A' : Prop :=
  ∀ t r, leads A t = Some r → ∃ r', leads A' t = Some r' ∧ l_who r' = l_who r ∧
    l_start r' = l_start r ∧ l_log r `prefix_of` l_log r'.

Lemma grows_same A A' : leads A' = leads A → grows A A'.
Proof. intros Hs t r Hr. exists r. rewrite Hs. by eauto. Qed.

Lemma grows_new A A' t r : leads A' = <[t := Some r]> (leads A) → leads A t = None → grows A A'.
Proof.
  intros Hs Hn t' r' Hr. exists r'. rewrite Hs, fn_lookup_insert_ne by congruence. auto.
Qed.

Lemma grows_longer A A' t r l : leads A t = Some r → l_log r `prefix_of` l →
  leads A' = <[t := Some (mkLead (l_who r) (l_start r) l)]> (leads A) → grows A A'.
Proof.
  intros Hr Hl Hs t' r' Hr'. rewrite Hs. destruct (decide (t = t')) as [<-|Hne].
  - rewrite fn_lookup_insert. simplify_eq. eexists; split; [done|]. done.
  - rewrite fn_lookup_insert_ne by done. exists r'. auto.
Qed.

Lemma matched_grows A A' l : grows A A' → matched A l → matched A' l.
Proof.
  intros Hg Hm k e Hk. destruct (Hm k e Hk) as (r & Hr & Hp).
  destruct (Hg _ _ Hr) as (r' & ? & _ & _ & ?). exists r'. split; [done|]. by etrans.
Qed.

Lemma matched_prefix A l p : p `prefix_of` l → matched A l → matched A p.
Proof.
  intros Hp Hm k e Hk. destruct (Hm k e) as (r & Hr & Hl).
  { by eapply prefix_lookup_Some. }
  exists r. split; [done|]. etrans; [|exact Hl]. by apply take_prefix_mono.
Qed.

Lemma matched_snoc A l e r : matched A l → leads A (eterm e) = Some r →
  l ++ [e] `prefix_of` l_log r → matched A (l ++ [e]).
Proof.
  intros Hm Hr Hp k e' [Hk|[? Hk]]%lookup_app_Some.
  - destruct (Hm k e' Hk) as (r' & ? & Hl). exists r'. split; [done|].
    apply lookup_lt_Some in Hk. by rewrite take_app_le by lia.
  - apply list_lookup_singleton_Some in Hk as [? <-]. exists r. split; [done|].
    rewrite take_ge; [done|]. rewrite length_app. simpl. lia.
Qed.

(** Two logs with the same term at an index are the same up to it. *)
Lemma log_matching A l l' k e e' : matched A l → matched A l' → l !! k = Some e → l' !! k = Some e' →
  eterm e = eterm e' → take (S k) l = take (S k) l'.
Proof.
  intros Hm Hm' Hk Hk' He. destruct (Hm _ _ Hk) as (r & Hr & Hp).
  destruct (Hm' _ _ Hk') as (r' & Hr' & Hp'). rewrite He, Hr' in Hr. simplify_eq.
  apply lookup_lt_Some in Hk, Hk'.
  rewrite (prefix_is_take _ _ Hp), (prefix_is_take _ _ Hp'), !length_take. f_equal. lia.
Qed.

Lemma prefix_decided A p l : matched A p → matched A l → p `prefix_of` l ∨ ¬ p `prefix_of` l.
Proof.
  intros Hp Hl. destruct (last p) as [e|] eqn:He.
  2:{ apply last_None in He as ->. left. apply prefix_nil. }
  rewrite last_lookup in He. pose proof (lookup_lt_Some _ _ _ He).
  destruct (l !! pred (length p)) as [e'|] eqn:He'.
  - destruct (decide (eterm e = eterm e')) as [Heq|Hne].
    + left. pose proof (log_matching _ _ _ _ _ _ Hp Hl He He' Heq) as Ht.
      rewrite take_ge in Ht by lia. rewrite Ht. apply prefix_take.
    + right. intros Hpl. pose proof (prefix_lookup_Some _ _ _ _ He Hpl). congruence.
  - right. intros Hpl. pose proof (prefix_lookup_Some _ _ _ _ He Hpl). congruence.
Qed.

Lemma backed_grows A A' l T t m : grows A A' →
  (∃ r, leads A t = Some r ∧ (m ≤ length (l_log r))%nat) → backed A l T t m → backed A' l T t m.
Proof.
  intros Hg (r & Hr & Hm) Hb r' m' Hr' Hm'. destruct (Hg _ _ Hr) as (r'' & ? & _ & _ & Hl).
  simplify_eq. rewrite (take_grown _ _ _ Hl) by lia. destruct (Hb r m' Hr Hm') as [|(t2 & r2 & ? & Hr2 & ?)]; [by left|].
  right. destruct (Hg _ _ Hr2) as (r2' & ? & _ & Hs & _). exists t2, r2'. by rewrite Hs.
Qed.

Lemma backed_mono A l T T' t m : T ≤ T' → backed A l T t m → backed A l T' t m.
Proof.
  intros HT Hb r m' Hr Hm. destruct (Hb r m' Hr Hm) as [|(t2 & r2 & ? & ? & ?)]; [by left|].
  right. exists t2, r2. repeat split; auto; lia.
Qed.

Lemma backed_prefix A l l' T t m : l `prefix_of` l' → backed A l T t m → backed A l' T t m.
Proof.
  intros Hl Hb r m' Hr Hm. destruct (Hb r m' Hr Hm) as [|?]; [left; by etrans|by right].
Qed.

(** Before the leader of a term is elected, its term does not count. *)
Lemma backed_before A l T t m : leads A T = None → backed A l T t m → backed A l (T - 1) t m.
Proof.
  intros Hn Hb r m' Hr Hm. destruct (Hb r m' Hr Hm) as [|(t2 & r2 & ? & ? & ?)]; [by left|].
  right. exists t2, r2. repeat split; auto; try lia. assert (t2 ≠ T) by congruence. lia.
Qed.

(** ** Leader Completeness *)

(** The first [m] entries of leader [t] are committed: a quorum holds them and
    the last of them is of the leader's own term. *)
Definition chosen A (t : Z) (m : nat) : Prop :=
  ∃ r V, leads A t = Some r ∧ (length (l_start r) ≤ m ≤ length (l_log r))%nat ∧ quorum V ∧
    ∀ v, v ∈ V → ∃ m', (m ≤ m')%nat ∧ (v, t, m') ∈ acks A.

Section safety.
Context (A : abs) (HA : absInv A).

Lemma lead_nonempty T r : leads A T = Some r → (1 ≤ length (l_start r))%nat.
Proof.
  intros Hr. destruct (ld_elected _ _ _ (ai_lead _ HA _ _ Hr)) as [(_ & _ & ->)|(_ & _ & c & e & V & -> & _)].
  - done.
  - rewrite length_app. simpl. lia.
Qed.

(** A log that ends with an entry of term [t] is the log of leader [t] up to
    there, from its first own entry on. *)
Lemma matched_last l e : matched A l → last l = Some e →
  ∃ r, leads A (eterm e) = Some r ∧ l `prefix_of` l_log r ∧ l_start r `prefix_of` l.
Proof.
  intros Hm Hl. rewrite last_lookup in Hl. destruct (Hm _ _ Hl) as (r & Hr & Hp).
  pose proof (lookup_lt_Some _ _ _ Hl) as Hlt. rewrite take_ge in Hp by lia.
  exists r. split; [done|]. split; [done|].
  destruct (ai_lead _ HA _ _ Hr) as [Hs _ _ Ht _ _].
  assert (l_log r !! pred (length l) = Some e) as Hk by (by eapply prefix_lookup_Some).
  apply Ht in Hk as [_ [Hk _]]. specialize (Hk eq_refl).
  eapply prefix_shorter; [done|done|lia].
Qed.

Lemma matched_last_term l e k e' : matched A l → last l = Some e → l !! k = Some e' →
  eterm e' ≤ eterm e.
Proof.
  intros Hm Hl Hk. destruct (matched_last _ _ Hm Hl) as (r & Hr & Hp & _).
  eapply (ld_terms _ _ _ (ai_lead _ HA _ _ Hr)). by eapply prefix_lookup_Some.
Qed.

(** A candidate whose log is not older than one that holds a committed prefix
    holds it too, when every leader before it does. *)
Lemma notNewer_holds t m T r vlog clog : leads A t = Some r →
  (length (l_start r) ≤ m ≤ length (l_log r))%nat →
  matched A vlog → matched A clog → (∀ e, e ∈ clog → eterm e < T) → notNewer vlog clog →
  take m (l_log r) `prefix_of` vlog →
  (∀ t' r', t < t' < T → leads A t' = Some r' → take m (l_log r) `prefix_of` l_start r') →
  take m (l_log r) `prefix_of` clog.
Proof.
  intros Hr Hm Hv Hc HT (ev & ec & Hev & Hec & Hn) Hp IH.
  pose proof (lead_nonempty _ _ Hr) as H1.
  assert (∃ e, vlog !! pred m = Some e ∧ eterm e = t) as (e & He & Het).
  { destruct (lookup_lt_is_Some_2 (l_log r) (pred m)) as [e He]; [lia|]. exists e. split.
    - eapply prefix_lookup_Some; [|exact Hp]. rewrite lookup_take_lt by lia. done.
    - apply (ld_terms _ _ _ (ai_lead _ HA _ _ Hr)) in He as [_ He]. apply He. lia. }
  pose proof (matched_last_term _ _ _ _ Hv Hev He) as Hle.
  destruct (matched_last _ _ Hv Hev) as (rv & Hrv & Hpv & _).
  destruct (matched_last _ _ Hc Hec) as (rc & Hrc & Hpc & Hsc).
  destruct Hn as [Hlt|[Heq Hlen]].
  - etrans; [|exact Hsc]. eapply IH; [|exact Hrc]. split; [lia|]. apply HT.
    rewrite last_lookup in Hec. by eapply list_elem_of_lookup_2.
  - rewrite Heq, Hrc in Hrv. simplify_eq. etrans; [exact Hp|].
    by eapply prefix_shorter.
Qed.

(** Leader Completeness: the leaders of all later terms start with every
    committed entry. *)
Lemma leader_complete t m r T rT : chosen A t m → leads A t = Some r → t < T →
  leads A T = Some rT → take m (l_log r) `prefix_of` l_start rT.
Proof.
  intros (r0 & V & Hr0 & Hm & (HV1 & HV2 & HV3) & HV) Hr.
  assert (r0 = r) as -> by congruence. revert rT.
  induction T as [T IH] using (well_founded_induction (Z.lt_wf t)). intros rT Ht HT.
  destruct (ld_elected _ _ _ (ai_lead _ HA _ _ HT))
    as [(-> & _ & _)|(_ & _ & clog & noop & W & Hs & Hc & (HW1 & HW2 & HW3) & HW)].
  { destruct (HV (default 0%nat (head V))) as (m' & _ & Ha).
    { destruct V; [|by left]. unfold len in HV3. simpl in HV3.
      pose proof (Z.div_pos (Z.of_nat n) 2). lia. }
    destruct (ld_elected _ _ _ (ai_lead _ HA _ _ Hr)) as [?|?]; lia. }
  destruct (quorums_meet n V W) as (v & Hv & Hw); [done..|].
  destruct (HV v Hv) as (m' & Hm' & Ha). destruct (HW v Hw) as (vlog & Hvote).
  destruct (ai_vote _ HA _ _ _ _ Hvote) as [_ _ Hvm (clog' & Hc' & Hnn) Hvb].
  pose proof (ca_unique _ _ _ _ (ai_cand _ HA _ _ _ Hc) _ Hc') as ->.
  destruct (ai_cand _ HA _ _ _ Hc) as [_ Hcm HcT _].
  assert (∀ t' r', t < t' < T → leads A t' = Some r' → take m (l_log r) `prefix_of` l_start r') as IH'.
  { intros t' r' Ht' Hr'. eapply (IH t'); [lia|lia|exact Hr']. }
  rewrite Hs. transitivity clog; [|by exists [noop]].
  apply (notNewer_holds t m T r vlog clog); auto.
  destruct (Hvb t m' Ha Ht r m Hr Hm') as [|(t2 & r2 & ? & Hr2 & Hno)]; [done|].
  exfalso. eapply Hno, IH'; [|done]. lia.
Qed.

(** A prefix that is committed by term [t]. *)
Definition committed (t : Z) p : Prop :=
  ∃ t0 m r, t0 ≤ t ∧ chosen A t0 m ∧ leads A t0 = Some r ∧ p `prefix_of` take m (l_log r).

Lemma committed_mono t t' p : t ≤ t' → committed t p → committed t' p.
Proof. intros Ht (t0 & m & r & ? & H). exists t0, m, r. split; [lia|done]. Qed.

Lemma committed_prefix t p q : q `prefix_of` p → committed t p → committed t q.
Proof. intros Hq (t0 & m & r & ? & ? & ? & ?). exists t0, m, r. repeat split; auto. by etrans. Qed.

(** Every leader from then on holds it. *)
Lemma committed_lead t p T r : committed t p → t ≤ T → leads A T = Some r → p `prefix_of` l_log r.
Proof.
  intros (t0 & m & r0 & Ht0 & Hc & Hr0 & Hp) Ht Hr. destruct (decide (t0 = T)) as [->|Hne].
  - simplify_eq. etrans; [exact Hp|apply prefix_take].
  - etrans; [exact Hp|]. etrans; [|apply (ld_start _ _ _ (ai_lead _ HA _ _ Hr))].
    eapply leader_complete; eauto. lia.
Qed.

(** State Machine Safety: committed prefixes never disagree. *)
Lemma committed_comparable t t' p q : committed t p → committed t' q →
  p `prefix_of` q ∨ q `prefix_of` p.
Proof.
  assert (∀ t0 m r t1 m1 r1 p q, t0 ≤ t1 → chosen A t0 m → leads A t0 = Some r →
    p `prefix_of` take m (l_log r) → leads A t1 = Some r1 → q `prefix_of` take m1 (l_log r1) →
    p `prefix_of` q ∨ q `prefix_of` p) as Hw.
  { intros t0 m r t1 m1 r1 p0 q0 Ht Hc Hr Hp Hr1 Hq.
    apply (prefix_weak_total _ _ (l_log r1)); [|etrans; [exact Hq|apply prefix_take]].
    eapply (committed_lead t0 p0 t1); [|lia|done]. exists t0, m, r. done. }
  intros (t0 & m & r & _ & Hc & Hr & Hp) (t1 & m1 & r1 & _ & Hc1 & Hr1 & Hq).
  destruct (decide (t0 ≤ t1)).
  - by apply (Hw t0 m r t1 m1 r1).
  - apply or_comm, (Hw t1 m1 r1 t0 m r); auto. lia.
Qed.

End safety.

Lemma chosen_grows A A' t m : grows A A' → (∀ a, a ∈ acks A → a ∈ acks A') →
  chosen A t m → chosen A' t m.
Proof.
  intros Hg Ha (r & V & Hr & Hm & HV & Hq). destruct (Hg _ _ Hr) as (r' & Hr' & _ & Hs & Hl).
  exists r', V. split; [done|]. split; [|split; [done|]].
  - rewrite Hs. apply prefix_length in Hl. lia.
  - intros v Hv. destruct (Hq v Hv) as (m' & ? & ?). eauto.
Qed.

Lemma committed_grows A A' t p : grows A A' → (∀ a, a ∈ acks A → a ∈ acks A') →
  committed A t p → committed A' t p.
Proof.
  intros Hg Ha (t0 & m & r & Ht & Hc & Hr & Hp). destruct (Hg _ _ Hr) as (r' & Hr' & _ & _ & Hl).
  exists t0, m, r'. split; [done|]. split; [by eapply chosen_grows|]. split; [done|].
  etrans; [exact Hp|]. by apply take_prefix_mono.
Qed.

(** What a peer knows to be committed survives when it adopts the log of a
    leader of its term or a later one. *)
Lemma adopted_keeps A v t r m l' p : absInv A → leads A t = Some r → m `prefix_of` l_log r →
  adopted (logs A v) m l' → terms A v ≤ t → committed A (terms A v) p →
  p `prefix_of` logs A v → p `prefix_of` l'.
Proof.
  intros HA Hr Hm Hl Ht Hc Hp. destruct Hl as [[_ ->]|[Hno ->]]; [done|].
  destruct (prefix_weak_total p m (l_log r)) as [|Hmp]; [by eapply committed_lead|done|done|].
  exfalso. apply Hno. by etrans.
Qed.

Lemma adopted_has l m l' : adopted l m l' → m `prefix_of` l'.
Proof. by intros [[? ->]|[_ ->]]. Qed.

(** ** Preservation *)

Lemma candOk_grows A A' c T l : candOk A c T l → grows A A' → terms A c ≤ terms A' c →
  (∀ l', (c, T, l') ∈ cands A' → (c, T, l') ∈ cands A) → candOk A' c T l.
Proof.
  intros [Ht Hm HT Hu] Hg Hle Hc. split; [lia|by eapply matched_grows|done|]. auto.
Qed.

Lemma voteOk_grows A A' v c T l : absInv A → voteOk A v c T l → grows A A' → terms A v ≤ terms A' v →
  (∀ x, x ∈ cands A → x ∈ cands A') →
  (∀ t m, (v, t, m) ∈ acks A' → t < T → (v, t, m) ∈ acks A) → voteOk A' v c T l.
Proof.
  intros HA [Ht Hv Hm (clog & Hc & Hn) Hb] Hg Hle Hcs Has.
  split; [lia|done|by eapply matched_grows|eauto|].
  intros t m Ha HtT. apply Has in Ha; [|done]. eapply backed_grows; eauto.
  apply (ak_lead _ _ _ _ (ai_ack _ HA _ _ _ Ha)).
Qed.

Lemma ackOk_grows A A' v t m : ackOk A v t m → grows A A' → terms A v ≤ terms A' v →
  logs A v `prefix_of` logs A' v → ackOk A' v t m.
Proof.
  intros [Ht (r & Hr & Hm) Hb] Hg Hle Hl. destruct (Hg _ _ Hr) as (r' & Hr' & _ & _ & Hp).
  split; [lia|exists r'; split; [done|apply prefix_length in Hp; lia]|].
  eapply backed_mono; [exact Hle|]. eapply backed_prefix; [exact Hl|].
  eapply backed_grows; eauto.
Qed.

Lemma elected_grows A A' T r : elected A T r → (∀ x, x ∈ cands A → x ∈ cands A') →
  (∀ x, x ∈ votes A → x ∈ votes A') → elected A' T r.
Proof.
  intros (clog & noop & V & Hs & Hc & HV & Hq) Hcs Hvs. exists clog, noop, V.
  split; [done|]. split; [auto|]. split; [done|]. intros v Hv. destruct (Hq v Hv). eauto.
Qed.

(** A leadership that the step does not touch. *)
Lemma leadOk_grows A A' T r : leadOk A T r → grows A A' →
  (∀ x, x ∈ cands A → x ∈ cands A') → (∀ x, x ∈ votes A → x ∈ votes A') →
  terms A (l_who r) ≤ terms A' (l_who r) →
  (terms A' (l_who r) = T → terms A (l_who r) = T → logs A' (l_who r) = logs A (l_who r)) →
  leadOk A' T r.
Proof.
  intros [Hs Hroot Hm Ht He [Hh1 Hh2]] Hg Hcs Hvs Hle Hsame.
  split; [done|done|by eapply matched_grows|done| |split; [lia|]].
  - destruct He as [?|(? & ? & ?)]; [by left|right]. eauto using elected_grows.
  - intros Hter. rewrite Hsame by (done || lia). apply Hh2. lia.
Qed.

Lemma logOk_same A A' v : logOk A v → grows A A' → terms A v ≤ terms A' v →
  logs A' v = logs A v → logOk A' v.
Proof.
  intros [Hm Ht Hr] Hg Hle Hl. split; rewrite Hl; [by eapply matched_grows| |done].
  intros e He. specialize (Ht e He). lia.
Qed.

(** [peer v w]: does the step concern peer [w]? *)
Ltac peer v w :=
  destruct (decide (v = w)) as [<-|?];
  rewrite ?fn_lookup_insert, ?fn_lookup_insert_ne by done.

Lemma insert_mono (f : nat → Z) v T w : f v ≤ T → f w ≤ (<[v := T]> f) w.
Proof. intros. peer v w; lia. Qed.

Lemma absInv_term A v T : absInv A → terms A v ≤ T →
  absInv (mkAbs (<[v := T]> (terms A)) (logs A) (leads A) (cands A) (votes A) (acks A)).
Proof.
  intros HA HT. set (A' := mkAbs _ _ _ _ _ _). assert (grows A A') as Hg by (by apply grows_same).
  assert (∀ w, terms A w ≤ terms A' w) as Hle by (intros w; by apply insert_mono).
  destruct (HA) as [HL HC HV HK HD H1]. split.
  - intros w. by eapply logOk_same.
  - intros c T' l Hc. eapply candOk_grows; eauto.
  - intros w c T' l Hv. eapply voteOk_grows; eauto.
  - intros w t m Ha. eapply ackOk_grows; eauto.
  - intros T' r Hr. eapply leadOk_grows; eauto.
  - intros w. specialize (H1 w). specialize (Hle w). lia.
Qed.

(** A vote of [v] in term [T], with the log it has. *)
Lemma absInv_vote A v c T cs : absInv A → terms A v ≤ T → (v < n)%nat → leads A T = None ∨ terms A v < T →
  (∀ x, x ∈ cands A → x ∈ cs) →
  (∀ c' T' l, (c', T', l) ∈ cs → (c', T', l) ∈ cands A ∨ (c', T', l) = (v, T, logs A v) ∧ terms A v < T) →
  (∃ clog, (c, T, clog) ∈ cs ∧ notNewer (logs A v) clog) →
  absInv (mkAbs (<[v := T]> (terms A)) (logs A) (leads A) cs
            ((v, c, T, logs A v) :: votes A) (acks A)).
Proof.
  intros HA HT Hv Hfresh Hsub Hcs Hc. set (A' := mkAbs _ _ _ _ _ _).
  assert (grows A A') as Hg by (by apply grows_same).
  assert (∀ w, terms A w ≤ terms A' w) as Hle by (intros w; by apply insert_mono).
  destruct (HA) as [HL HC HV HK HD H1].
  assert (∀ c' T' l', (c', T', l') ∈ cands A → (v, T) = (c', T') → ¬ terms A v < T) as Hold.
  { intros c' T' l' Hin Heq. injection Heq as <- <-. pose proof (ca_term _ _ _ _ (HC _ _ _ Hin)). lia. }
  split.
  - intros w. by eapply logOk_same.
  - intros c' T' l Hin. apply Hcs in Hin as [Hin|[Heq Hlt]].
    + eapply candOk_grows; eauto. intros l' [?|[Heq Hlt]]%Hcs; [done|]. simplify_eq.
      exfalso. by eapply Hold.
    + simplify_eq. split.
      * simpl. rewrite fn_lookup_insert. pose proof (H1 v). lia.
      * eapply matched_grows; [done|]. apply HL.
      * intros e He%(lo_terms _ _ (HL v)). lia.
      * intros l' [Hin|[Heq _]]%Hcs; [|congruence]. exfalso. by eapply Hold.
  - intros w c' T' l [Heq|Hin]%elem_of_cons; [|eapply voteOk_grows; eauto]. simplify_eq. split.
    + simpl. by rewrite fn_lookup_insert.
    + done.
    + eapply matched_grows; [done|]. apply HL.
    + done.
    + intros t m Ha HtT. eapply backed_grows; [done|apply (ak_lead _ _ _ _ (HK _ _ _ Ha))|].
      pose proof (ak_backed _ _ _ _ (HK _ _ _ Ha)) as Hb. destruct Hfresh as [Hn|Hlt].
      * apply backed_before; [done|]. by eapply backed_mono.
      * eapply backed_mono; [|exact Hb]. lia.
  - intros w t m Ha. eapply ackOk_grows; eauto.
  - intros T' r Hr. eapply leadOk_grows; eauto. intros x Hx. by right.
  - intros w. specialize (H1 w). specialize (Hle w). lia.
Qed.

Lemma notNewer_refl A v : logOk A v → notNewer (logs A v) (logs A v).
Proof.
  intros [_ _ [l Hl]]. destruct (last (logs A v)) as [e|] eqn:He.
  - exists e, e. rewrite He. auto.
  - apply last_None in He. congruence.
Qed.

Lemma lead_head A T r : leadOk A T r → ∀ m, m `prefix_of` l_log r → m ≠ [] → ∃ l, m = root :: l.
Proof.
  intros [_ [l Hl] _ _ _ _] m [q Hq] Hne. destruct m as [|e m]; [done|]. rewrite Hl in Hq.
  injection Hq as -> _. eauto.
Qed.

Lemma absInv_adopt A v t r m l' : absInv A → leads A t = Some r → l_who r ≠ v → terms A v ≤ t →
  m `prefix_of` l_log r → adopted (logs A v) m l' → m ≠ [] →
  absInv (mkAbs (<[v := t]> (terms A)) (<[v := l']> (logs A)) (leads A) (cands A) (votes A)
            ((v, t, length m) :: acks A)).
Proof.
  intros HA Hr Hwho Ht Hm Hl Hne. set (A' := mkAbs _ _ _ _ _ _).
  assert (grows A A') as Hg by (by apply grows_same).
  assert (∀ w, terms A w ≤ terms A' w) as Hle by (intros w; by apply insert_mono).
  destruct (HA) as [HL HC HV HK HD H1]. pose proof (HD _ _ Hr) as Hld. split.
  - intros w. destruct (decide (v = w)) as [<-|Hw].
    2:{ eapply logOk_same; eauto. simpl. by rewrite fn_lookup_insert_ne. }
    destruct (HL v) as [Hlm Hlt Hlr]. split; simpl; rewrite !fn_lookup_insert.
    + eapply matched_grows; [done|]. destruct Hl as [[_ ->]|[_ ->]]; [done|].
      eapply matched_prefix; [done|apply Hld].
    + intros e He. destruct Hl as [[_ ->]|[_ ->]]; [specialize (Hlt e He); lia|].
      apply list_elem_of_lookup_1 in He as [k Hk]. eapply (ld_terms _ _ _ Hld).
      by eapply prefix_lookup_Some.
    + destruct Hl as [[_ ->]|[_ ->]]; [done|]. by eapply lead_head.
  - intros c T l Hc. eapply candOk_grows; eauto.
  - intros w c T l Hv. eapply voteOk_grows; eauto. intros t' m' [Heq|?]%elem_of_cons; [|done].
    simplify_eq. pose proof (vo_term _ _ _ _ _ (HV _ _ _ _ Hv)). lia.
  - intros w t' m' Ha. destruct (decide (v = w)) as [<-|Hw].
    2:{ apply elem_of_cons in Ha as [?|Ha]; [congruence|]. eapply ackOk_grows; eauto. simpl.
        by rewrite fn_lookup_insert_ne. }
    apply elem_of_cons in Ha as [Heq|Ha].
    { simplify_eq. split; simpl; rewrite ?fn_lookup_insert; [lia|eauto using prefix_length|].
      intros r' m' Hr' Hm'. change (leads A t = Some r') in Hr'. simplify_eq. left.
      etrans; [|eapply adopted_has, Hl]. rewrite (prefix_is_take m (l_log r)) by done.
      by apply take_take_prefix. }
    destruct (HK _ _ _ Ha) as [Ht' Hex Hb]. split; simpl; rewrite ?fn_lookup_insert; [lia|done|].
    intros r' k Hr' Hk. change (leads A t' = Some r') in Hr'.
    destruct (Hb r' k Hr' Hk) as [Hp|(t2 & r2 & ? & ? & ?)];
      [|right; exists t2, r2; repeat split; auto; lia].
    destruct Hl as [[_ ->]|[Hno ->]]; [by left|].
    assert (take k (l_log r') `prefix_of` l_log r → take k (l_log r') `prefix_of` m) as Hcmp.
    { intros Hpr. destruct (prefix_weak_total _ _ _ Hm Hpr) as [Hmk|]; [|done].
      exfalso. apply Hno. by etrans. }
    destruct (decide (t' = t)) as [->|Hlt].
    { left. apply Hcmp. simplify_eq. apply prefix_take. }
    destruct (prefix_decided A (take k (l_log r')) (l_start r)) as [Hs|Hs].
    { eapply matched_prefix; [apply prefix_take|apply (HD _ _ Hr')]. }
    { eapply matched_prefix; apply Hld. }
    + left. apply Hcmp. etrans; [exact Hs|apply Hld].
    + right. exists t, r. repeat split; auto; lia.
  - intros T r' Hr'. eapply leadOk_grows; eauto. simpl. intros HT _.
    destruct (decide (v = l_who r')) as [Heq|]; [|by rewrite fn_lookup_insert_ne].
    rewrite <- Heq, fn_lookup_insert in HT. change (leads A T = Some r') in Hr'. congruence.
  - intros w. specialize (H1 w). specialize (Hle w). lia.
Qed.

(** A leader, new or not, appends an entry of its term. *)
Lemma absInv_own A i e start : absInv A → eterm e = terms A i → (i < n)%nat → 1 < terms A i →
  let l := logs A i ++ [e] in
  start `prefix_of` l →
  (∀ k e', logs A i !! k = Some e' → eterm e' = terms A i ↔ (length start ≤ S k)%nat) →
  (length start ≤ length l)%nat → elected A (terms A i) (mkLead i start l) →
  leads A (terms A i) = None ∨
    (∃ r, leads A (terms A i) = Some r ∧ l_who r = i ∧ l_start r = start ∧ l_log r = logs A i) →
  absInv (mkAbs (terms A) (<[i := l]> (logs A))
            (<[terms A i := Some (mkLead i start l)]> (leads A))
            (cands A) (votes A) ((i, terms A i, length l) :: acks A)).
Proof.
  intros HA He Hi H1T l Hs Hterms Hlen Hel Hlead. set (A' := mkAbs _ _ _ _ _ _).
  set (T := terms A i) in *.
  assert (grows A A') as Hg.
  { destruct Hlead as [Hn|(r & Hr & <- & <- & Hlog)].
    - eapply grows_new; [|exact Hn]. done.
    - eapply grows_longer; [exact Hr| |done]. rewrite Hlog. by exists [e]. }
  destruct (HA) as [HL HC HV HK HD H1].
  assert (leads A' T = Some (mkLead i start l)) as HT by (apply fn_lookup_insert).
  assert (matched A' l) as Hml.
  { eapply matched_snoc; [eapply matched_grows; [done|apply HL]|by rewrite He|done]. }
  assert (∀ e', e' ∈ l → eterm e' ≤ T) as HlT.
  { intros e' [Hin|Hin]%elem_of_app; [by apply (HL i)|].
    apply list_elem_of_singleton in Hin as ->. lia. }
  split.
  - intros w. destruct (decide (i = w)) as [<-|Hw].
    2:{ eapply logOk_same; [apply HL|done|done|]. simpl. by rewrite fn_lookup_insert_ne. }
    split; simpl; rewrite ?fn_lookup_insert; auto.
    destruct (HL i) as [_ _ [l0 Hl0]]. unfold l. rewrite Hl0. by eexists.
  - intros c T' l' Hc. eapply candOk_grows; eauto. done.
  - intros w c T' l' Hv. eapply voteOk_grows; eauto; [done|].
    intros t' m' [Heq|?]%elem_of_cons; [|done]. simplify_eq.
    pose proof (vo_term _ _ _ _ _ (HV _ _ _ _ Hv)). lia.
  - intros w t' m' [Heq|Ha]%elem_of_cons.
    + simplify_eq. split; [done|eexists; split; [exact HT|done]|].
      intros r' m' Hr' Hm'. rewrite HT in Hr'. simplify_eq. left. simpl.
      rewrite fn_lookup_insert. apply prefix_take.
    + eapply ackOk_grows; eauto; [done|]. simpl. destruct (decide (i = w)) as [<-|Hw].
      * rewrite fn_lookup_insert. by exists [e].
      * by rewrite fn_lookup_insert_ne.
  - intros T' r' Hr'. destruct (decide (T = T')) as [<-|HneT].
    + rewrite HT in Hr'. injection Hr' as <-. split; simpl; try done.
      * destruct (HL i) as [_ _ [l0 Hl0]]. unfold l. rewrite Hl0. by eexists.
      * intros k e' Hk. split; [eapply HlT, list_elem_of_lookup_2, Hk|].
        apply lookup_app_Some in Hk as [Hk|[Hge Hk]]; [by apply Hterms|].
        apply list_lookup_singleton_Some in Hk as [Hk <-]. split; [|by rewrite He].
        intros _. unfold l in Hlen. rewrite length_app in Hlen. simpl in Hlen. lia.
      * right. auto.
      * split; [done|]. intros _. apply fn_lookup_insert.
    + simpl in Hr'. rewrite fn_lookup_insert_ne in Hr' by done.
      eapply leadOk_grows; eauto; [done|]. simpl. intros Hw _.
      rewrite fn_lookup_insert_ne; [done|]. intros Hii. apply HneT. unfold T. congruence.
  - done.
Qed.

Lemma absInv_step i A A' : absInv A → astep i A A' → absInv A'.
Proof.
  intros HA Hst. destruct Hst as [A v T HT Hv|A c T HT Hc|A v c T clog Hc HT Hn Hnn Hv
    |A i T noop V Hc HT Hn He HV Hq Hi l|A i r e Hr Hw He Hi l|A v t r m l' Hr Hw Ht Hm Hl Hv Hne].
  - by apply absInv_term.
  - eapply absInv_vote; auto; try lia; [by right| |].
    + intros c' T' l [?|?]%elem_of_cons; [right; split; [done|lia]|by left].
    + exists (logs A c). split; [by left|]. eapply notNewer_refl, HA.
  - eapply absInv_vote; eauto.
  - subst T. pose proof (ca_terms _ _ _ _ (ai_cand _ HA _ _ _ Hc)) as HT.
    apply absInv_own; auto.
    + apply (ca_term _ _ _ _ (ai_cand _ HA _ _ _ Hc)).
    + intros k e' Hk. pose proof (lookup_lt_Some _ _ _ Hk).
      pose proof (HT _ (list_elem_of_lookup_2 _ _ _ Hk)). unfold l. rewrite length_app. simpl. lia.
    + exists (logs A i), noop, V. done.
  - destruct (ai_lead _ HA _ _ Hr) as [Hs Hroot Hm Ht Hel [_ Hh]]. rewrite Hw in *.
    specialize (Hh eq_refl). apply absInv_own; auto.
    + destruct Hel as [(_ & ? & _)|(? & _)]; [lia|done].
    + etrans; [exact Hs|]. rewrite <- Hh. by exists [e].
    + intros k e' Hk. rewrite Hh in Hk. by apply Ht.
    + apply prefix_length in Hs. rewrite <- Hh in Hs. unfold l. rewrite length_app. lia.
    + destruct Hel as [(_ & ? & _)|(_ & _ & Hel)]; [lia|].
      destruct Hel as (clog & noop & V & ? & ? & ? & ?). exists clog, noop, V. by rewrite Hw in *.
    + right. exists r. done.
  - by eapply absInv_adopt.
Qed.

Lemma absInv_init : eterm root = 1 → absInv abs_init.
Proof.
  intros Hroot. set (r0 := mkLead n [root] [root]).
  assert (leads abs_init 1 = Some r0) as H1 by apply fn_lookup_insert.
  assert (∀ T r, leads abs_init T = Some r → T = 1 ∧ r = r0) as Hinv.
  { intros T r Hr. destruct (decide (1 = T)) as [<-|HT]; [by simplify_eq|].
    simpl in Hr. by rewrite fn_lookup_insert_ne in Hr. }
  assert (matched abs_init [root]) as Hm.
  { intros k e Hk. apply list_lookup_singleton_Some in Hk as [-> <-]. exists r0.
    by rewrite Hroot. }
  split.
  - intros v. split; [done| |by eexists]. intros e ->%list_elem_of_singleton. simpl. lia.
  - by intros ????%not_elem_of_nil.
  - by intros ?????%not_elem_of_nil.
  - intros v t m Ha. apply list_elem_of_fmap in Ha as (v' & Heq & _). simplify_eq.
    split; [done|by exists r0|]. intros r m' Hr Hm'. rewrite H1 in Hr. simplify_eq.
    left. apply prefix_take.
  - intros T r [-> ->]%Hinv. split; simpl; auto.
    + by eexists.
    + intros k e Hk. apply list_lookup_singleton_Some in Hk as [-> <-]. simpl. lia.
    + done.
  - done.
Qed.

(** A step of peer [i] adds to the history, and leaves the others alone. *)
Record evolves (i : nat) A A' : Prop := {
  ev_grows : grows A A';
  ev_acks : ∀ a, a ∈ acks A → a ∈ acks A';
  ev_cands : ∀ x, x ∈ cands A → x ∈ cands A';
  ev_votes : ∀ x, x ∈ votes A → x ∈ votes A';
  ev_terms : ∀ v, terms A v ≤ terms A' v;
  ev_other : ∀ j, j ≠ i → terms A' j = terms A j ∧ logs A' j = logs A j;
  ev_leads : ∀ T r, leads A' T = Some r →
    l_who r = i ∨ ∃ r0, leads A T = Some r0 ∧ l_who r0 = l_who r;
}.

Lemma evolves_refl i A : evolves i A A.
Proof. split; eauto using grows_same. done. Qed.

Lemma evolves_committed i A A' t p : evolves i A A' → committed A t p → committed A' t p.
Proof. intros []. by apply committed_grows. Qed.

Lemma astep_evolves i A A' : absInv A → astep i A A' → evolves i A A'.
Proof.
  intros HA Hst. destruct Hst as [A v T HT Hv|A c T HT Hc|A v c T clog Hc HT Hn Hnn Hv
    |A i T noop V Hc HT Hn He HV Hq Hi l|A i r e Hr Hw He Hi l|A v t r m l' Hr Hw Ht Hm Hl Hv Hne];
    split; simpl; try (by intros x Hx; first [exact Hx|right]);
    try (by intros w; first [done|apply insert_mono; lia]);
    try (by intros j Hj; rewrite ?fn_lookup_insert_ne by done);
    try (by intros T' r' Hr'; right; eauto);
    try by apply grows_same.
  - by eapply grows_new.
  - intros T' r' Hr'. destruct (decide (T = T')) as [<-|].
    + rewrite fn_lookup_insert in Hr'. simplify_eq. by left.
    + rewrite fn_lookup_insert_ne in Hr' by done. eauto.
  - eapply (grows_longer _ _ (terms A i) r l); [done| |by subst].
    destruct (ai_lead _ HA _ _ Hr) as [_ _ _ _ _ [_ Hh]]. rewrite Hw in Hh.
    rewrite <- Hh by done. by exists [e].
  - intros T' r' Hr'. destruct (decide (terms A i = T')) as [<-|].
    + rewrite fn_lookup_insert in Hr'. simplify_eq. by left.
    + rewrite fn_lookup_insert_ne in Hr' by done. eauto.
Qed.

End abstract.
