(* ===== verification/RaftNet.v ===== *)
(** * Raft: a cluster that replicates

    The cluster of [RaftElection] with the rest of the traffic: the requests of
    [syncEntries] and of [handleFailedReply], what the peers answer, and what
    the services read from the apply channel.  The network keeps every message
    for ever and delivers any of them at any time: messages may be lost,
    delayed, repeated and reordered.

    The tasks of a leader ([syncEntries], the handling of replies,
    [commitCheck]) run while the leadership they belong to lasts.  In the code
    [cancelToken] is meant to ensure that, but it is only set when
    [serveAsLeader] next wakes up, and [syncEntries] looks at nothing else
    ([syncEntries_any_role]): a task may come a moment too late.

    [run] executes a schedule; it is how concrete runs are checked. *)

From S2P Require Import Prelude RaftState RaftNode RaftInv RaftIndex RaftApply RaftSteps RaftElection.
Local Open Scope Z_scope.

Section net.
Context {Cmd : Type} `{Codec (@persistent Cmd)}.
Implicit Types (rf : Raft Cmd).

(** ** States *)

(** A request of [syncEntries]: the server it is for, the arguments, and the
    value of [nextIndex] that a successful reply installs. *)
Definition request : Type := Z * (AppendEntriesArgs Cmd * Z).

Record net := mkNet {
  core : @cluster Cmd;
  sent : list request;
  answers : list (request * AppendEntriesReply);
  snaps : list (Z * InstallSnapshotArgs);
  snapAnswers : list (Z * InstallSnapshotArgs * InstallSnapshotReply);
  delivered : list (nat * ApplyMsg Cmd);
}.

(** Peer [i] in state [rf], the rest of the cluster unchanged. *)
Definition withPeer (i : nat) rf (s : Z) (c : @cluster Cmd) : cluster :=
  mkCluster (<[i := (rf, s)]> (nodes c)) (phases c) (requests c) (replies c) (ballots c).

(** The snapshot that [handleFailedReply] sends, if it sends one. *)
Definition installOf (server : Z) (a : failAction) : list (Z * InstallSnapshotArgs) :=
  match a with FA_Install args => [(server, args)] | _ => [] end.

(** A fix package is accepted without comparing the term of the entry before
    its first one, since that entry has been applied.  At a peer that has just
    been created this is not so: it starts with [lastApplied = 1], and its
    entry 1 may be the no-op of another leader. *)
Definition firstChecked (args : AppendEntriesArgs Cmd) rf : Prop :=
  ae_PrevLogIndex args = 1 → lastApplied rf = 1 →
  ∀ e, log rf !! 1%nat = Some e → Term e = ae_PrevLogTerm args.

#[export] Instance firstChecked_dec args rf : Decision (firstChecked args rf).
Proof.
  unfold firstChecked. destruct (decide (ae_PrevLogIndex args = 1)) as [H1|]; [|left; by intros ?].
  destruct (decide (lastApplied rf = 1)) as [H2|]; [|left; by intros ? ?].
  destruct (log rf !! 1%nat) as [e|]; [|left; by intros ? ? ? ?].
  destruct (decide (Term e = ae_PrevLogTerm args)); [left; intros; by simplify_eq|].
  right. intros Hc. by specialize (Hc H1 H2 e eq_refl).
Defined.

(** Peer [i] still is the leader that sent [args]. *)
Definition leads_for rf (i : nat) (leader term : Z) : Prop :=
  state rf = RS_Leader ∧ leader = Z.of_nat i ∧ currentTerm rf = term.

(** ** Steps

    What the service on top of a peer sees of a step. *)
Inductive event :=
| Quiet                                         (* nothing *)
| Reads (i : nat) (m : ApplyMsg Cmd)            (* it reads a message *)
| Starts (i : nat) (command : option Cmd) (isLeader : bool) (* it starts a command *)
| Snapshots (i : nat) (index : Z) (snap : bytes) (* it hands over a snapshot *)
| Restarts (i : nat).                           (* it is created again *)

(** [chk]: whether [firstChecked] is required. *)
Inductive nstep (chk : bool) : event → net → net → Prop :=
| nt_election c c' st an sn sa de :
    estep c c' → nstep chk Quiet (mkNet c st an sn sa de) (mkNet c' st an sn sa de)
| nt_restart i now rf s rf' ns ph rq rp bs st an sn sa de :
    ns !! i = Some (rf, s) → Make (peers rf) (me rf) (persister rf) now = Ret rf' →
    nstep chk (Restarts i) (mkNet (mkCluster ns ph rq rp bs) st an sn sa de)
      (mkNet (mkCluster (<[i := (rf', 0)]> ns) (<[i := Idle]> ph) rq rp bs) st an sn sa de)
| nt_sync i rf s reqs c st an sn sa de :
    nodes c !! i = Some (rf, s) → state rf = RS_Leader → syncEntries false rf = Ret reqs →
    nstep chk Quiet (mkNet c st an sn sa de) (mkNet c (reqs ++ st) an sn sa de)
| nt_append j now args next rf s rf' reply c st an sn sa de :
    nodes c !! j = Some (rf, s) → (Z.of_nat j, (args, next)) ∈ st →
    (chk = true → firstChecked args rf) → AppendEntries now args rf = Ret (rf', reply) →
    nstep chk Quiet (mkNet c st an sn sa de)
      (mkNet (withPeer j rf' s c) st ((Z.of_nat j, (args, next), reply) :: an) sn sa de)
| nt_success i server args next reply rf s rf' c st an sn sa de :
    nodes c !! i = Some (rf, s) → (server, (args, next), reply) ∈ an →
    leads_for rf i (ae_LeaderId args) (ae_Term args) → aer_Success reply = true →
    syncSuccess server next rf = Ret rf' →
    nstep chk Quiet (mkNet c st an sn sa de) (mkNet (withPeer i rf' s c) st an sn sa de)
| nt_failed i server args next reply rf s rf' a c st an sn sa de :
    nodes c !! i = Some (rf, s) → (server, (args, next), reply) ∈ an →
    leads_for rf i (ae_LeaderId args) (ae_Term args) → aer_Success reply = false →
    handleFailedReply server args reply rf = Ret (rf', a) →
    nstep chk Quiet (mkNet c st an sn sa de)
      (mkNet (withPeer i rf' s c) st an (installOf server a ++ sn) sa de)
| nt_install j args rf s rf' reply c st an sn sa de :
    nodes c !! j = Some (rf, s) → (Z.of_nat j, args) ∈ sn →
    InstallSnapshot args rf = Ret (rf', reply) →
    nstep chk Quiet (mkNet c st an sn sa de)
      (mkNet (withPeer j rf' s c) st an sn ((Z.of_nat j, args, reply) :: sa) de)
| nt_installed i server args reply rf s rf' b c st an sn sa de :
    nodes c !! i = Some (rf, s) → (server, args, reply) ∈ sa →
    leads_for rf i (is_LeaderId args) (is_Term args) →
    snapshotReplied server args reply rf = Ret (rf', b) →
    nstep chk Quiet (mkNet c st an sn sa de) (mkNet (withPeer i rf' s c) st an sn sa de)
| nt_start i command rf s rf' r c st an sn sa de :
    nodes c !! i = Some (rf, s) → Start command rf = Ret (rf', r) →
    nstep chk (Starts i command r.2) (mkNet c st an sn sa de) (mkNet (withPeer i rf' s c) st an sn sa de)
| nt_snapshot i index snap rf s rf' c st an sn sa de :
    nodes c !! i = Some (rf, s) → snap ≠ [] → index ≤ extOf rf (gend rf - 1) →
    Snapshot index snap rf = Ret rf' →
    nstep chk (Snapshots i index snap) (mkNet c st an sn sa de) (mkNet (withPeer i rf' s c) st an sn sa de)
| nt_commit i rf s rf' c st an sn sa de :
    nodes c !! i = Some (rf, s) → state rf = RS_Leader → commitCheck rf = Ret rf' →
    nstep chk Quiet (mkNet c st an sn sa de) (mkNet (withPeer i rf' s c) st an sn sa de)
| nt_apply i rf s rf' c st an sn sa de :
    nodes c !! i = Some (rf, s) → applyEntries rf = Ret rf' →
    nstep chk Quiet (mkNet c st an sn sa de) (mkNet (withPeer i rf' s c) st an sn sa de)
| nt_send i rf s rf' m c st an sn sa de :
    nodes c !! i = Some (rf, s) → applySend rf = (Some m, rf') →
    nstep chk (Reads i m) (mkNet c st an sn sa de)
      (mkNet (withPeer i rf' (served s m) c) st an sn sa ((i, m) :: de))
| nt_kill i rf s c st an sn sa de :
    nodes c !! i = Some (rf, s) →
    nstep chk Quiet (mkNet c st an sn sa de) (mkNet (withPeer i (Kill rf) s c) st an sn sa de).

(** A step, whatever the service sees of it. *)
Definition net_step (chk : bool) (c c' : net) : Prop := ∃ ev, nstep chk ev c c'.

Definition net_init (n : nat) (c : net) : Prop :=
  cluster_init n (core c) ∧ sent c = [] ∧ answers c = [] ∧ snaps c = [] ∧
  snapAnswers c = [] ∧ delivered c = [].

Definition net_reachable (chk : bool) (n : nat) (c : net) : Prop :=
  ∃ c0, net_init n c0 ∧ rtc (net_step chk) c0 c.

(** The command that a step adds to the log of a leader. *)
Definition startedBy (ev : event) : list (option Cmd) :=
  match ev with Starts _ command true => [command] | _ => [] end.

(** A run, and the commands that were started in it, in order. *)
Inductive net_runs (chk : bool) (n : nat) : list (option Cmd) → net → Prop :=
| nr_init c : net_init n c → net_runs chk n [] c
| nr_step cr ev c c' : net_runs chk n cr c → nstep chk ev c c' → net_runs chk n (cr ++ startedBy ev) c'.

Lemma net_reachable_runs chk n c : net_reachable chk n c ↔ ∃ cr, net_runs chk n cr c.
Proof.
  split.
  - intros (c0 & Hi & Hst). assert (∃ cr, net_runs chk n cr c0) as Hr by (exists []; by constructor).
    clear Hi. induction Hst as [|c c1 c2 [ev Hst] _ IH]; [done|]. apply IH.
    destruct Hr as [cr Hr]. eexists. by eapply nr_step.
  - intros [cr Hr]. induction Hr as [c Hi|cr ev c c' _ (c0 & Hi & Hr) Hst]; [by exists c|].
    exists c0. split; [done|]. eapply rtc_r; [exact Hr|by exists ev].
Qed.

(** [syncEntries] does not look at the role of the peer: when it gets the lock
    after the peer has become a follower in a later term, it sends requests of
    that term. *)
Lemma syncEntries_any_role r rf : syncEntries false (rf <| state := r |>) = syncEntries false rf.
Proof. done. Qed.

(** ** Schedules

    One action per step; messages are named by their position in the lists. *)
Inductive action :=
| A_Timeout (i : nat) (now : Z) | A_Campaign (i : nat) | A_Vote (j k : nat) (now : Z)
| A_Count (i k : nat) | A_Promote (i : nat) | A_Restart (i : nat) (now : Z)
| A_Sync (i : nat) | A_Append (j k : nat) (now : Z) | A_Success (i k : nat) | A_Failed (i k : nat)
| A_Install (j k : nat) | A_Start (i : nat) (command : option Cmd)
| A_Commit (i : nat) | A_Apply (i : nat) | A_Send (i : nat).

Definition result {A} (o : outcome A) : option A :=
  match o with Ret a => Some a | _ => None end.

Definition execElection (a : action) (c : @cluster Cmd) : option cluster :=
  let '(mkCluster ns ph rq rp bs) := c in
  match a with
  | A_Timeout i now =>
      '(rf, s) ← ns !! i; rf' ← ticker_timeout now rf;
      Some (mkCluster (<[i := (rf', s)]> ns) (<[i := Pending]> ph) rq rp bs)
  | A_Campaign i =>
      '(rf, s) ← ns !! i; p ← ph !! i;
      match p with
      | Pending =>
          '(rf', el) ← result (election_start rf);
          Some (mkCluster (<[i := (rf', s)]> ns) (<[i := Running el []]> ph)
                  (voteArgs el :: rq) rp ((i, Z.of_nat i, votedForTerm el) :: bs))
      | _ => None
      end
  | A_Vote j k now =>
      '(rf, s) ← ns !! j; args ← rq !! k;
      if decide (rv_CandiateId args ≠ Z.of_nat j) then
        '(rf', reply) ← result (RequestVote now args rf);
        Some (mkCluster (<[j := (rf', s)]> ns) ph rq ((j, args, reply) :: rp)
                (granted j args reply ++ bs))
      else None
  | A_Count i k =>
      p ← ph !! i; '(j, args, reply) ← rp !! k;
      match p with
      | Running el counted =>
          if decide (rv_Term args = rv_Term (voteArgs el) ∧
                     rv_CandiateId args = rv_CandiateId (voteArgs el) ∧
                     rv_LastLogIndex args = rv_LastLogIndex (voteArgs el) ∧
                     rv_LastLogTerm args = rv_LastLogTerm (voteArgs el) ∧ j ∉ counted)
          then Some (mkCluster ns (<[i := Running (election_reply reply el) (j :: counted)]> ph) rq rp bs)
          else None
      | _ => None
      end
  | A_Promote i =>
      '(rf, s) ← ns !! i; p ← ph !! i;
      match p with
      | Running el counted =>
          if cancelToken el then None
          else
            '(rf', b) ← result (election_promote (ballotCount el) rf);
            Some (mkCluster (<[i := (rf', s)]> ns) (if b : bool then <[i := Idle]> ph else ph) rq rp bs)
      | _ => None
      end
  | _ => None
  end.

#[export] Instance leads_for_dec rf i leader term : Decision (leads_for rf i leader term).
Proof. unfold leads_for. apply _. Defined.

Definition exec (chk : bool) (a : action) (c : net) : option net :=
  let '(mkNet c st an sn sa de) := c in
  match a with
  | A_Restart i now =>
      let '(mkCluster ns ph rq rp bs) := c in
      '(rf, s) ← ns !! i; rf' ← result (Make (peers rf) (me rf) (persister rf) now);
      Some (mkNet (mkCluster (<[i := (rf', 0)]> ns) (<[i := Idle]> ph) rq rp bs) st an sn sa de)
  | A_Sync i =>
      '(rf, s) ← nodes c !! i;
      if decide (state rf = RS_Leader) then
        reqs ← result (syncEntries false rf); Some (mkNet c (reqs ++ st) an sn sa de)
      else None
  | A_Append j k now =>
      '(rf, s) ← nodes c !! j; '(server, (args, next)) ← st !! k;
      if decide (server = Z.of_nat j ∧ (chk = true → firstChecked args rf)) then
        '(rf', reply) ← result (AppendEntries now args rf);
        Some (mkNet (withPeer j rf' s c) st ((server, (args, next), reply) :: an) sn sa de)
      else None
  | A_Success i k =>
      '(rf, s) ← nodes c !! i; '(server, (args, next), reply) ← an !! k;
      if decide (leads_for rf i (ae_LeaderId args) (ae_Term args) ∧ aer_Success reply = true) then
        rf' ← result (syncSuccess server next rf);
        Some (mkNet (withPeer i rf' s c) st an sn sa de)
      else None
  | A_Failed i k =>
      '(rf, s) ← nodes c !! i; '(server, (args, next), reply) ← an !! k;
      if decide (leads_for rf i (ae_LeaderId args) (ae_Term args) ∧ aer_Success reply = false) then
        '(rf', a) ← result (handleFailedReply server args reply rf);
        Some (mkNet (withPeer i rf' s c) st an (installOf server a ++ sn) sa de)
      else None
  | A_Install j k =>
      '(rf, s) ← nodes c !! j; '(server, args) ← sn !! k;
      if decide (server = Z.of_nat j) then
        '(rf', reply) ← result (InstallSnapshot args rf);
        Some (mkNet (withPeer j rf' s c) st an sn ((server, args, reply) :: sa) de)
      else None
  | A_Start i command =>
      '(rf, s) ← nodes c !! i; '(rf', r) ← result (Start command rf);
      Some (mkNet (withPeer i rf' s c) st an sn sa de)
  | A_Commit i =>
      '(rf, s) ← nodes c !! i;
      if decide (state rf = RS_Leader) then
        rf' ← result (commitCheck rf); Some (mkNet (withPeer i rf' s c) st an sn sa de)
      else None
  | A_Apply i =>
      '(rf, s) ← nodes c !! i; rf' ← result (applyEntries rf);
      Some (mkNet (withPeer i rf' s c) st an sn sa de)
  | A_Send i =>
      '(rf, s) ← nodes c !! i;
      match applySend rf with
      | (Some m, rf') => Some (mkNet (withPeer i rf' (served s m) c) st an sn sa ((i, m) :: de))
      | _ => None
      end
  | _ => c' ← execElection a c; Some (mkNet c' st an sn sa de)
  end.

Fixpoint run (chk : bool) (acts : list action) (c : net) : option net :=
  match acts with
  | [] => Some c
  | a :: acts => c' ← exec chk a c; run chk acts c'
  end.

Lemma result_Some {A} (o : outcome A) a : result o = Some a → o = Ret a.
Proof. destruct o; simpl; congruence. Qed.

Lemma execElection_estep a c c' : execElection a c = Some c' → estep c c'.
Proof.
  destruct c as [ns ph rq rp bs]. destruct a; simpl; intros He; 
    repeat (progress simplify_option_eq || case_match);
    repeat match goal with Hr : result _ = Some _ |- _ => apply result_Some in Hr end.
  - by eapply cs_timeout.
  - by eapply cs_start.
  - eapply cs_request; eauto. by eapply list_elem_of_lookup_2.
  - destruct_and!. eapply cs_reply; eauto. eapply list_elem_of_lookup_2.
    match goal with Hk : rp !! _ = Some (_, ?a, _) |- rp !! _ = Some (_, voteArgs ?el, _) =>
      assert (voteArgs el = a) as -> by (destruct a, (voteArgs el); simpl in *; congruence) end.
    done.
  - by eapply (cs_promote _ _ _ _ _ _ _ true).
  - by eapply (cs_promote _ _ _ _ _ _ _ false).
Qed.

#[local] Arguments execElection : simpl never.

(** What the service sees of an action. *)
Definition eventOf (a : action) (c : net) : event :=
  match a with
  | A_Send i =>
      match nodes (core c) !! i with
      | Some (rf, _) => match (applySend rf).1 with Some m => Reads i m | None => Quiet end
      | None => Quiet
      end
  | A_Restart i _ => Restarts i
  | A_Start i command =>
      match nodes (core c) !! i with
      | Some (rf, _) =>
          match Start command rf with Ret (_, r) => Starts i command r.2 | _ => Quiet end
      | None => Quiet
      end
  | _ => Quiet
  end.

Lemma exec_nstep chk a c c' : exec chk a c = Some c' → nstep chk (eventOf a c) c c'.
Proof.
  destruct c as [c st an sn sa de]. destruct a; simpl; intros He; 
    repeat (progress simplify_option_eq || case_match);
    repeat match goal with Hr : result _ = Some _ |- _ => apply result_Some in Hr end;
    destruct_and?; subst; first
    [ by eapply nt_restart | apply nt_election; eapply execElection_estep; eassumption
    | by eapply nt_sync
    | by eapply nt_append; eauto using list_elem_of_lookup_2
    | by eapply nt_success; eauto using list_elem_of_lookup_2
    | by eapply nt_failed; eauto using list_elem_of_lookup_2
    | by eapply nt_install; eauto using list_elem_of_lookup_2
    | by eapply nt_start | by eapply nt_commit | by eapply nt_apply | by eapply nt_send ].
Qed.

Lemma run_steps chk acts c c' : run chk acts c = Some c' → rtc (net_step chk) c c'.
Proof.
  revert c. induction acts as [|a acts IH]; intros c Hr; simplify_option_eq; [done|].
  eapply rtc_l; [eexists; by eapply exec_nstep|]. by apply IH.
Qed.

End net.
Arguments net : clear implicits.
Arguments action : clear implicits.
