(* ===== verification/RaftSafety.v ===== *)
(** * Raft: state machine safety

    The peers of [RaftNode], connected by the network of [RaftNet], implement
    the abstract machine of [RaftAbstract]: [netSim] relates a cluster to an
    abstract state, and every step of the cluster is a step of the abstract
    machine, or none.  Hence two services never read different commands at the
    same index. *)

From stdpp Require Import functions.
From S2P Require Import Prelude RaftState RaftNode RaftInv RaftIndex RaftApply RaftSteps RaftLeader RaftElection RaftView RaftAbstract RaftNet.
Local Open Scope Z_scope.

Section sim.
Context {Cmd : Type} `{Codec (@persistent Cmd)} `{!CodecLaws (@persistent Cmd)} (n : nat).
Implicit Types (rf : Raft Cmd) (A : abs (E := logEntry Cmd)).

(** ** The simulation relation *)

(** A command that was delivered, or will be, is committed at its index. *)
Definition msgOk A (m : ApplyMsg Cmd) : Prop :=
  CommandValid m = true → ∃ t p e, committed n A t (p ++ [e]) ∧ Type_ e = LT_Normal ∧
    CommandIndex m = normals (p ++ [e]) ∧ msgCommand m = Command e.

(** A prefix of the log that is known to be committed, and covers everything
    that the peer may apply, has applied or has put into its snapshot. *)
Definition safePrefix A (i : nat) rf (s : nat) : Prop :=
  (s ≤ length (logs A i))%nat ∧ committed n A (terms A i) (take s (logs A i)) ∧
  commitIndex rf < Z.of_nat s ∧ base rf < Z.of_nat s ∧
  (2 ≤ lastApplied rf → lastApplied rf < Z.of_nat s).

(** [matchIndex] only counts entries that were acknowledged. *)
Definition matchOk A (i : nat) rf : Prop :=
  ∀ j m, matchIndex rf !! j = Some m → 1 ≤ m → ∃ m', m < Z.of_nat m' ∧ (j, terms A i, m') ∈ acks A.

Record peerSim A (i : nat) rf : Prop := {
  ps_term : currentTerm rf = terms A i;
  ps_view : ∃ b, view rf (logs A i) b;
  ps_commit : 0 ≤ commitIndex rf;
  ps_safe : ∃ s, safePrefix A i rf s;
  ps_leader : state rf = RS_Leader →
    ∃ r, leads A (terms A i) = Some r ∧ l_who r = i ∧ matchOk A i rf;
  ps_queue : ∀ m, m ∈ applyQueue rf → msgOk A m;
}.

Definition phaseSim A (i : nat) rf (p : phase) : Prop :=
  match p with
  | Running el _ =>
      (state rf = RS_Candiate → (i, votedForTerm el, logs A i) ∈ cands A) ∧
      ∀ r, leads A (votedForTerm el) = Some r → l_who r ≠ i
  | _ => True
  end.

Definition requestSim A (args : RequestVoteArgs) : Prop :=
  ∃ c clog e, rv_CandiateId args = Z.of_nat c ∧ (c, rv_Term args, clog) ∈ cands A ∧
    last clog = Some e ∧ rv_LastLogTerm args = Term e ∧ rv_LastLogIndex args = len clog.

(** A request carries the end of a prefix [p] of its leader's log. *)
Record carries A (j : nat) (args : AppendEntriesArgs Cmd) (next : Z) r p (k : nat) e : Prop := {
  ca_to : (j < n)%nat ∧ l_who r ≠ j;
  ca_lead : leads A (ae_Term args) = Some r ∧ ae_LeaderId args = Z.of_nat (l_who r);
  ca_prefix : p `prefix_of` l_log r;
  ca_prev : ae_PrevLogIndex args = Z.of_nat k ∧ p !! k = Some e ∧ Term e = ae_PrevLogTerm args;
  ca_entries : ae_Entries args = drop (S k) p;
  ca_next : next = len p;
  ca_commit : 0 ≤ ae_LeaderCommit args < len p ∧
    committed n A (ae_Term args) (take (S (Z.to_nat (ae_LeaderCommit args))) p);
}.

Definition sentSim A (q : @request Cmd) : Prop :=
  ∃ j r p k e, q.1 = Z.of_nat j ∧ carries A j q.2.1 q.2.2 r p k e.

Definition answerSim A (q : @request Cmd) (reply : AppendEntriesReply) : Prop :=
  sentSim A q ∧ 0 ≤ aer_PrevLogIndex reply ∧ 0 ≤ aer_LastApplied reply ∧
  ae_Term q.2.1 ≤ terms A (Z.to_nat q.1) ∧
  (aer_Success reply = true → ∃ m', q.2.2 ≤ Z.of_nat m' ∧ (Z.to_nat q.1, ae_Term q.2.1, m') ∈ acks A).

(** A snapshot stands for a committed prefix of its leader's log. *)
Record covers A (j : nat) (args : InstallSnapshotArgs) r (p : list (logEntry Cmd)) e : Prop := {
  co_to : (j < n)%nat ∧ l_who r ≠ j ∧ is_Term args ≤ terms A j;
  co_lead : leads A (is_Term args) = Some r;
  co_prefix : p `prefix_of` l_log r;
  co_committed : committed n A (is_Term args) p;
  co_last : last p = Some e ∧ Term e = is_LastIncludedTerm args;
  co_index : is_LastIncludedInternal args = len p - 1 ∧ is_LastIncludedIndex args = normals p;
  co_data : 0 < is_LastIncludedIndex args ∧ is_Data args ≠ [];
}.

Definition snapSim A (q : Z * InstallSnapshotArgs) : Prop :=
  ∃ j r p e, q.1 = Z.of_nat j ∧ covers A j q.2 r p e.

Record netSim A (c : net Cmd) : Prop := {
  sm_inv : absInv Term rootEntry n A;
  sm_good : ∀ T r, leads A T = Some r → goodLog (l_log r);
  sm_peer : ∀ i rf s, nodes (core c) !! i = Some (rf, s) → peerSim A i rf;
  sm_phase : ∀ i rf s p, nodes (core c) !! i = Some (rf, s) → phases (core c) !! i = Some p →
    phaseSim A i rf p;
  sm_requests : ∀ args, args ∈ requests (core c) → requestSim A args;
  sm_ballots : ∀ v x T, (v, x, T) ∈ ballots (core c) → leads A T = None →
    ∃ vlog, (v, Z.to_nat x, T, vlog) ∈ votes A;
  sm_votes : ∀ v x T vlog, (v, x, T, vlog) ∈ votes A → (v, Z.of_nat x, T) ∈ ballots (core c);
  sm_sent : ∀ q, q ∈ sent c → sentSim A q;
  sm_answers : ∀ q reply, (q, reply) ∈ answers c → answerSim A q reply;
  sm_snaps : ∀ q, q ∈ snaps c → snapSim A q;
  sm_delivered : ∀ i m, (i, m) ∈ delivered c → msgOk A m;
}.

(** ** Commands in the order in which they were started *)

(** The commands of a log. *)
Definition commandsOf (l : list (logEntry Cmd)) : list (option Cmd) :=
  Command <$> filter (λ e, Type_ e ≠ LT_Noop) l.

Lemma commandsOf_app l l' : commandsOf (l ++ l') = commandsOf l ++ commandsOf l'.
Proof. unfold commandsOf. by rewrite filter_app, fmap_app. Qed.

Lemma commandsOf_len l : len (commandsOf l) = normals l.
Proof. unfold len, normals, commandsOf. by rewrite length_fmap. Qed.

(** The commands of every leader are among [cr], in this order. *)
Definition startedIn (cr : list (option Cmd)) A : Prop :=
  ∀ T r, leads A T = Some r → commandsOf (l_log r) `sublist_of` cr.

(** A step that starts the commands [cs]. *)
Definition adds A A' (cs : list (option Cmd)) : Prop := ∀ cr, startedIn cr A → startedIn (cr ++ cs) A'.

Lemma adds_same A A' cs : leads A' = leads A → adds A A' cs.
Proof. intros El cr Hcr T r. rewrite El. intros Hr. apply sublist_inserts_r. by eapply Hcr. Qed.

(** Every log is, up to its last entry, the log of a leader. *)
Lemma startedIn_log A cr v : absInv Term rootEntry n A → startedIn cr A →
  commandsOf (logs A v) `sublist_of` cr.
Proof.
  intros HA Hcr. destruct (ai_log _ _ _ _ HA v) as [Hm _ [l El]].
  destruct (last (logs A v)) as [e|] eqn:He; [|by rewrite El, last_cons in He; destruct (last l)].
  destruct (matched_last _ _ _ _ HA _ _ Hm He) as (r & Hr & [q Hq] & _).
  etrans; [|apply (Hcr _ _ Hr)]. rewrite Hq, commandsOf_app. by apply sublist_inserts_r.
Qed.

(** A leader, new or not, adds an entry to its log. *)
Lemma adds_own A A' i e ld : absInv Term rootEntry n A → l_log ld = logs A i ++ [e] →
  leads A' = <[terms A i := Some ld]> (leads A) → adds A A' (commandsOf [e]).
Proof.
  intros HA El Ea cr Hcr T r Hr. rewrite Ea in Hr. destruct (decide (terms A i = T)) as [<-|HT].
  - rewrite fn_lookup_insert in Hr. injection Hr as <-. rewrite El, commandsOf_app.
    apply sublist_app; [by apply startedIn_log|done].
  - rewrite fn_lookup_insert_ne in Hr by done. apply sublist_inserts_r. by eapply Hcr.
Qed.

(** ** What the history proves stays proved *)

Section evolves.
Context (i : nat) (A A' : abs (E := logEntry Cmd)) (Hev : evolves i A A').

Lemma msgOk_evolves m : msgOk A m → msgOk A' m.
Proof.
  intros Hm Hc. destruct (Hm Hc) as (t & p & e & ? & ?). exists t, p, e.
  split; [by eapply evolves_committed|done].
Qed.

Lemma peerSim_other j rf : j ≠ i → peerSim A j rf → peerSim A' j rf.
Proof.
  intros Hj [Ht Hv Hc0 (s & Hs1 & Hs2 & Hs3) Hl Hq]. destruct (ev_other _ _ _ Hev j Hj) as [Et El].
  split; rewrite ?Et, ?El; auto.
  - exists s. split; [by rewrite El|]. rewrite Et, El. split; [by eapply evolves_committed|done].
  - intros Hs. destruct (Hl Hs) as (r & Hr & Hw & Hm).
    destruct (ev_grows _ _ _ Hev _ _ Hr) as (r' & Hr' & Hw' & _ & _). exists r'.
    split; [done|]. split; [congruence|]. intros k m Hk Hm1. rewrite Et.
    destruct (Hm k m Hk Hm1) as (m' & ? & ?). exists m'. split; [done|]. by apply Hev.
  - intros m Hm. by apply msgOk_evolves, Hq.
Qed.

Lemma phaseSim_other j rf p : j ≠ i → phaseSim A j rf p → phaseSim A' j rf p.
Proof.
  intros Hj. destruct p as [| |el cnt]; [done..|]. intros [Hc Hl]. destruct (ev_other _ _ _ Hev j Hj) as [Et El].
  split.
  - intros Hs. rewrite El. by apply Hev, Hc.
  - intros r Hr. destruct (ev_leads _ _ _ Hev _ _ Hr) as [->|(r0 & Hr0 & <-)]; [done|]. by apply Hl.
Qed.

Lemma requestSim_evolves args : requestSim A args → requestSim A' args.
Proof.
  intros (c & clog & e & ? & ? & ?). exists c, clog, e. split; [done|]. split; [by apply Hev|done].
Qed.

Lemma sentSim_evolves q : sentSim A q → sentSim A' q.
Proof.
  intros (j & r & p & k & e & Hj & [[? Hto] [Hr Hld] Hp ? ? ? [? Hc]]).
  destruct (ev_grows _ _ _ Hev _ _ Hr) as (r' & Hr' & Hw & _ & Hl).
  exists j, r', p, k, e. split; [done|]. split; rewrite ?Hw; auto.
  - by etrans.
  - split; [done|]. by eapply evolves_committed.
Qed.

Lemma answerSim_evolves q reply : answerSim A q reply → answerSim A' q reply.
Proof.
  intros (Hs & ? & ? & ? & Hok). split; [by apply sentSim_evolves|]. split; [done|]. split; [done|].
  split; [etrans; [done|apply Hev]|]. intros Ht. destruct (Hok Ht) as (m' & ? & ?). exists m'.
  split; [done|]. by apply Hev.
Qed.

Lemma snapSim_evolves q : snapSim A q → snapSim A' q.
Proof.
  intros (j & r & p & e & Hj & [(? & ? & ?) Hr Hp Hc ? ? ?]).
  destruct (ev_grows _ _ _ Hev _ _ Hr) as (r' & Hr' & Hw & _ & Hl).
  exists j, r', p, e. split; [done|]. split; rewrite ?Hw; auto.
  - split; [done|]. split; [done|]. etrans; [done|apply Hev].
  - by etrans.
  - by eapply evolves_committed.
Qed.

End evolves.

(** ** A step of one peer *)

Lemma netSim_update A A' i c c' rf s rf' s' :
  netSim A c → evolves i A A' → absInv Term rootEntry n A' →
  (∀ T r, leads A' T = Some r → goodLog (l_log r)) →
  nodes (core c) !! i = Some (rf, s) → nodes (core c') = <[i := (rf', s')]> (nodes (core c)) →
  (∀ j p, j ≠ i → phases (core c') !! j = Some p → phases (core c) !! j = Some p) →
  peerSim A' i rf' → (∀ p, phases (core c') !! i = Some p → phaseSim A' i rf' p) →
  (∀ args, args ∈ requests (core c') → args ∈ requests (core c) ∨ requestSim A' args) →
  (∀ v x T, (v, x, T) ∈ ballots (core c') → leads A' T = None →
    ∃ vlog, (v, Z.to_nat x, T, vlog) ∈ votes A') →
  (∀ v x T vlog, (v, x, T, vlog) ∈ votes A' → (v, Z.of_nat x, T) ∈ ballots (core c')) →
  (∀ q, q ∈ sent c' → q ∈ sent c ∨ sentSim A' q) →
  (∀ q reply, (q, reply) ∈ answers c' → (q, reply) ∈ answers c ∨ answerSim A' q reply) →
  (∀ q, q ∈ snaps c' → q ∈ snaps c ∨ snapSim A' q) →
  (∀ j m, (j, m) ∈ delivered c' → (j, m) ∈ delivered c ∨ msgOk A' m) →
  netSim A' c'.
Proof.
  intros [HI HG HP HPh HR HB HV HS HA HSn HD] Hev HI' HG' Hi Hn Hph HP' HPh' HR' HB' HV' HS' HA' HSn' HD'.
  split; auto.
  - intros j r sj Hj. rewrite Hn in Hj. apply list_lookup_insert_Some in Hj as [(<- & ? & _)|[Hne Hj]];
      [by simplify_eq|]. eapply peerSim_other; eauto.
  - intros j r sj p Hj Hpj. rewrite Hn in Hj.
    apply list_lookup_insert_Some in Hj as [(<- & ? & _)|[Hne Hj]]; [simplify_eq; auto|].
    eapply phaseSim_other; eauto.
  - intros args [?|?]%HR'; [|done]. eapply requestSim_evolves; eauto.
  - intros q [?|?]%HS'; [|done]. eapply sentSim_evolves; eauto.
  - intros q reply [?|?]%HA'; [|done]. eapply answerSim_evolves; eauto.
  - intros q [?|?]%HSn'; [|done]. eapply snapSim_evolves; eauto.
  - intros j m [?|?]%HD'; [|done]. eapply msgOk_evolves; eauto.
Qed.

(** No leader is new. *)
Definition sameLeads A A' : Prop :=
  ∀ T r, leads A' T = Some r → ∃ r0, leads A T = Some r0 ∧ l_who r0 = l_who r.

(** A step of a peer that is not about elections; [st'], ... are the messages
    after it. *)
Lemma netSim_local A A' i c st an sn sa de rf s rf' s' st' an' sn' sa' de' :
  netSim A (mkNet c st an sn sa de) → evolves i A A' → absInv Term rootEntry n A' →
  (∀ T r, leads A' T = Some r → goodLog (l_log r)) → sameLeads A A' → votes A' = votes A →
  nodes c !! i = Some (rf, s) → peerSim A' i rf' →
  (state rf' = RS_Candiate → state rf = RS_Candiate ∧ logs A' i = logs A i) →
  (∀ q, q ∈ st' → q ∈ st ∨ sentSim A' q) →
  (∀ q reply, (q, reply) ∈ an' → (q, reply) ∈ an ∨ answerSim A' q reply) →
  (∀ q, q ∈ sn' → q ∈ sn ∨ snapSim A' q) →
  (∀ j m, (j, m) ∈ de' → (j, m) ∈ de ∨ msgOk A' m) →
  netSim A' (mkNet (withPeer i rf' s' c) st' an' sn' sa' de').
Proof.
  intros HN Hev HI' HG' Hsl Hv Hi HP' Hcand HS' HA' HSn' HD'.
  eapply (netSim_update A A' i); [exact HN|done|done|done|exact Hi|reflexivity|done|done|..|done|done|done|done];
    simpl; rewrite ?Hv.
  - intros p Hp. pose proof (sm_phase _ _ HN _ _ _ _ Hi Hp) as Hph.
    destruct p as [| |el cnt]; [done..|]. destruct Hph as [Hc Hl]. split.
    + intros [Hs ->]%Hcand. by apply Hev, Hc.
    + intros r (r0 & Hr0 & <-)%Hsl. by apply Hl.
  - intros args ?. by left.
  - intros v x T Hin Hnone. eapply (sm_ballots _ _ HN); [done|].
    destruct (leads A T) as [r|] eqn:Hr; [|done].
    destruct (ev_grows _ _ _ Hev _ _ Hr) as (r' & Hr' & _). congruence.
  - apply (sm_votes _ _ HN).
Qed.

Lemma sameLeads_refl A : sameLeads A A.
Proof. intros T r Hr. eauto. Qed.

(** A step that changes neither the whole log of the peer nor its term. *)
Lemma netSim_frame A i c st an sn sa de rf s rf' s' st' an' sn' sa' de' :
  netSim A (mkNet c st an sn sa de) → nodes c !! i = Some (rf, s) → peerSim A i rf' →
  (state rf' = RS_Candiate → state rf = RS_Candiate) →
  (∀ q, q ∈ st' → q ∈ st ∨ sentSim A q) →
  (∀ q reply, (q, reply) ∈ an' → (q, reply) ∈ an ∨ answerSim A q reply) →
  (∀ q, q ∈ sn' → q ∈ sn ∨ snapSim A q) →
  (∀ j m, (j, m) ∈ de' → (j, m) ∈ de ∨ msgOk A m) →
  netSim A (mkNet (withPeer i rf' s' c) st' an' sn' sa' de').
Proof.
  intros HN Hi HP' Hcand HS' HA' HSn' HD'.
  eapply netSim_local; eauto using evolves_refl, sameLeads_refl; apply HN.
Qed.

Lemma peerSim_frame A i rf rf' : peerSim A i rf →
  currentTerm rf' = currentTerm rf → log rf' = log rf → snapshotIndex rf' = snapshotIndex rf →
  commitIndex rf' = commitIndex rf → lastApplied rf' = lastApplied rf →
  (state rf' = RS_Leader → state rf = RS_Leader ∧ matchIndex rf' = matchIndex rf) →
  applyQueue rf' = applyQueue rf → peerSim A i rf'.
Proof.
  intros [Ht [b Hv] Hc0 (s & Hs) Hl Hq] Et El Es Ec Ea Hst Eq.
  split; rewrite ?Et, ?El, ?Ec, ?Ea, ?Eq; auto.
  - exists b. by eapply view_frame.
  - exists s. unfold safePrefix in *. by rewrite Ec, El, Ea.
  - intros [Hs' Em]%Hst. unfold matchOk. rewrite Em. by apply Hl.
Qed.

(** ** Steps that the abstract machine does not see *)

(** The whole log of a leader is the log of its leadership. *)
Lemma leader_log A c i rf s r : netSim A c → nodes (core c) !! i = Some (rf, s) →
  leads A (terms A i) = Some r → l_who r = i → l_log r = logs A i.
Proof.
  intros HN Hi Hr Hw. destruct (ai_lead _ _ _ _ (sm_inv _ _ HN) _ _ Hr) as [_ _ _ _ _ [_ Hh]].
  rewrite Hw in Hh. by rewrite Hh.
Qed.

Lemma committed_take A t F (k s : nat) : committed n A t (take s F) → (k ≤ s)%nat →
  committed n A t (take k F).
Proof. intros Hc Hk. eapply committed_prefix; [|exact Hc]. by apply take_take_prefix. Qed.

Lemma syncEntries_elem rf reqs q : syncEntries false rf = Ret reqs → q ∈ reqs →
  ∃ j : nat, q.1 = Z.of_nat j ∧ (j < peers rf)%nat ∧ Z.of_nat j ≠ me rf ∧ syncArgs rf q.1 = Ret q.2.
Proof.
  unfold syncEntries. intros Hr. revert q. eapply for_range_all; [exact Hr| |by intros ? ?%not_elem_of_nil].
  clear Hr.
  intros acc acc' i Hi%elem_of_seq Hf Hacc q' Hq'. cbv beta in Hf. case_decide; inv_ret; [by apply Hacc|].
  apply elem_of_app in Hq' as [?|Hq']; [by apply Hacc|]. apply list_elem_of_singleton in Hq' as ->.
  exists i. simpl. repeat split; auto; lia.
Qed.

Lemma sentSim_sync A c i rf s reqs q : netSim A c → clusterOk n (core c) →
  nodes (core c) !! i = Some (rf, s) → wf rf → me rf = Z.of_nat i → peers rf = n →
  state rf = RS_Leader → syncEntries false rf = Ret reqs → q ∈ reqs → sentSim A q.
Proof.
  intros HN Hok Hi Hwf Hme Hp Hs Hr Hq. destruct q as [server [args next]].
  destruct (syncEntries_elem rf reqs _ Hr Hq) as (j & Hj & Hlt & Hne & Ha). simpl in *. subst server.
  destruct (sm_peer _ _ HN _ _ _ Hi) as [Ht [b Hv] Hc0 (sf & Hs1 & Hs2 & Hs3 & _) Hl _].
  destruct (Hl Hs) as (r & Hr' & Hw & _).
  destruct (syncArgs_view rf (logs A i) b (Z.of_nat j) args next) as
    (k & e & E1 & E2 & E3 & E4 & E5 & E6 & E7 & E8); [done|done|lia|lia|done|].
  pose proof (leader_log _ _ _ _ _ _ HN Hi Hr' Hw) as Hlog.
  exists j, r, (logs A i), k, e. split; [done|]. split; simpl.
  - split; [lia|]. rewrite Hw. lia.
  - rewrite E1, Ht, E2, Hw. done.
  - by rewrite Hlog.
  - done.
  - done.
  - done.
  - rewrite E7, E1, Ht. split; [unfold len; lia|]. eapply committed_take; [done|]. lia.
Qed.

Lemma peerSim_success A i rf rf' server next m' : peerSim A i rf →
  syncSuccess server next rf = Ret rf' → next ≤ Z.of_nat m' →
  (Z.to_nat server, terms A i, m') ∈ acks A → peerSim A i rf'.
Proof.
  intros [Ht [b Hv] Hc0 Hsf Hl Hq] Hr Hm' Hack. unfold syncSuccess in Hr. inv_ret.
  case_decide; inv_ret;
    repeat match goal with Hs : slice_set _ _ _ = Ret _ |- _ => apply slice_set_Ret in Hs as [? ->] end;
    split; auto; try (by exists b; eapply view_frame).
  intros Hs. destruct (Hl Hs) as (r & Hr & Hw & Hm). exists r. split; [done|]. split; [done|].
  intros j m Hj Hm1. change (matchIndex _) with (<[Z.to_nat server := next - 1]> (matchIndex rf)) in Hj.
  apply list_lookup_insert_Some in Hj as [(<- & <- & _)|[_ Hj]]; [|by apply Hm].
  exists m'. split; [lia|done].
Qed.

(** The snapshot that a leader sends covers a committed prefix of its log. *)
Lemma snapSim_failed A c i rf s server args next reply rf' a : netSim A c →
  nodes (core c) !! i = Some (rf, s) → nodeInv rf s → answerSim A (server, (args, next)) reply →
  leads_for rf i (ae_LeaderId args) (ae_Term args) →
  handleFailedReply server args reply rf = Ret (rf', a) →
  ∀ q, q ∈ installOf server a → snapSim A q.
Proof.
  intros HN Hi HI Hans (Hs & Hid & Hterm) Hr q Hq. pose proof (ni_wf _ _ HI) as Hwf.
  destruct Hans as ((j & r & p & k & e & Hj & Hc) & Hp0 & Hl0 & Hle & _). simpl in *. subst server.
  destruct (handleFailedReply_view _ _ _ _ _ _ Hwf Hp0 Hl0 Hr) as [_ Hinst].
  destruct a as [| |isargs]; simpl in Hq; try by apply not_elem_of_nil in Hq.
  apply list_elem_of_singleton in Hq as ->.
  destruct (Hinst isargs eq_refl) as (Hb0 & first & Hfirst & ->).
  destruct (sm_peer _ _ HN _ _ _ Hi) as [Ht [b Hv] Hc0 (sf & Hs1 & Hs2 & Hs3 & Hs4 & _) Hl _].
  destruct (Hl Hs) as (r' & Hr' & Hw & _). pose proof (leader_log _ _ _ _ _ _ HN Hi Hr' Hw) as Hlog.
  destruct Hc as [[Hjn Hto] [Hlead _] _ _ _ _ _]. rewrite <- Hterm, Ht in Hlead.
  rewrite Hr' in Hlead. simplify_eq. pose proof (view_base _ _ _ Hv) as Hb.
  destruct (view_term _ _ _ _ _ Hv Hfirst) as (eb & Heb & Hteb). rewrite Nat.add_0_r in Heb.
  pose proof (lookup_lt_Some _ _ _ Heb).
  exists j, r, (take (S b) (logs A (l_who r))), eb. split; [done|]. split; simpl; rewrite ?Ht, ?Hb.
  - rewrite Nat2Z.id in Hle. split; [done|]. split; [done|]. lia.
  - done.
  - rewrite Hlog. apply prefix_take.
  - eapply committed_take; [done|]. lia.
  - rewrite (take_S_r _ _ _ Heb), last_snoc. done.
  - rewrite len_take, (vw_ext _ _ _ Hv). unfold len. split; [lia|done].
  - destruct (vw_pos _ _ _ Hv) as [->|Hpos]; [lia|]. split; [done|].
    intros Hnil. pose proof (ni_snap _ _ HI Hnil). lia.
Qed.

Lemma peerSim_snapshot A i rf rf' index snap : peerSim A i rf → wf rf → goodLog (logs A i) →
  index ≤ extOf rf (gend rf - 1) → Snapshot index snap rf = Ret rf' →
  peerSim A i rf' ∧ state rf' = state rf.
Proof.
  intros [Ht [b Hv] Hc0 (sf & Hs1 & Hs2 & Hs3 & Hs4 & Hs5) Hl Hq] Hwf HG Hidx Hr.
  destruct (Snapshot_view _ _ _ _ _ _ Hwf Hv Hidx Hr) as (b' & Hv' & Hle & Et & Est & Ec & Ea & Em & Eq).
  pose proof (goodLog_two _ _ _ HG Hv') as Hb1. pose proof (view_base _ _ _ Hv) as Hb.
  split; [|done]. split; rewrite ?Et, ?Ec, ?Eq, ?Est; eauto.
  - exists sf. split; [done|]. rewrite Ec, Ea, (view_base _ _ _ Hv'). repeat split; auto.
    destruct (decide (2 ≤ lastApplied rf)) as [H2|H2]; [specialize (Hs5 H2)|]; lia.
  - unfold matchOk. by rewrite Em.
Qed.

(** A leader commits what a majority has acknowledged. *)
Lemma peerSim_commit A i rf rf' : peerSim A i rf → absInv Term rootEntry n A → wf rf →
  peers rf = n → state rf = RS_Leader → commitCheck rf = Ret rf' → peerSim A i rf' ∧ state rf' = state rf.
Proof.
  intros [Ht [b Hv] Hc0 (sf & Hs1 & Hs2 & Hs3 & Hs4 & Hs5) Hl Hq] HA Hwf Hp Hst Hr.
  destruct (commitCheck_view _ _ _ _ Hwf Hv Hr) as [[c Hrf] Hc]. split; [|by rewrite Hrf].
  assert (log rf' = log rf ∧ lastApplied rf' = lastApplied rf) as [El Ea] by (by rewrite Hrf).
  split; try (by rewrite Hrf); [exists b; by rewrite Hrf; eapply view_frame|by destruct Hc; lia|].
  destruct (Hl Hst) as (r & Hr' & Hw & Hm).
  destruct Hc as [Ec|[Hc [Hlt|((e & He & Hte) & V & HV1 & HV2 & HV3)]]].
  - exists sf. unfold safePrefix. by rewrite Ec, El, Ea.
  - exists sf. unfold safePrefix. rewrite El, Ea. pose proof (view_base _ _ _ Hv). repeat split; auto; lia.
  - set (m := S (Z.to_nat (commitIndex rf'))). pose proof (lookup_lt_Some _ _ _ He) as Hlt.
    destruct (ai_lead _ _ _ _ HA _ _ Hr') as [_ _ _ Hterms _ [_ Hlog]]. rewrite Hw in Hlog.
    specialize (Hlog eq_refl).
    assert (chosen n A (terms A i) m) as Hch.
    { exists r, V. split; [done|]. split; [|split; [split; [done|split]|]].
      - rewrite <- Hlog. rewrite Hlog in He. apply Hterms in He as [_ [He _]]. unfold m. split; [|lia].
        apply He. congruence.
      - intros v Hv'. destruct (HV3 v Hv') as (mm & Hmm & _). apply lookup_lt_Some in Hmm.
        rewrite (wf_match _ Hwf), Hp in Hmm. done.
      - unfold majority in HV2. by rewrite Hp in HV2.
      - intros v Hv'. destruct (HV3 v Hv') as (mm & Hmm & Hge).
        destruct (Hm v mm Hmm) as (m' & Hlt' & Hack); [lia|]. exists m'. split; [|done]. unfold m. lia. }
    assert (committed n A (terms A i) (take m (logs A i))) as Hcm.
    { exists (terms A i), m, r. rewrite Hlog. done. }
    exists (Nat.max sf m). unfold safePrefix. rewrite El, Ea. split; [unfold m; lia|]. split.
    + destruct (decide (sf ≤ m)%nat); [by rewrite Nat.max_r|by rewrite Nat.max_l by lia].
    + unfold m. repeat split; try lia.
Qed.

Lemma msgOk_snapshot A data i t : msgOk A (snapshotMsg data i t).
Proof. by intros ?. Qed.

(** What the apply loop enqueues is committed. *)
Lemma peerSim_apply A i rf rf' : peerSim A i rf → wf rf → applyEntries rf = Ret rf' →
  peerSim A i rf' ∧ state rf' = state rf.
Proof.
  intros [Ht [b Hv] Hc0 (sf & Hs1 & Hs2 & Hs3 & Hs4 & Hs5) Hl Hq] Hwf Hr.
  destruct (applyEntries_view _ _ _ _ Hwf Hv Hr) as (q & -> & Hms). split; [|done].
  pose proof (wf_applied _ Hwf). pose proof (wf_base _ Hwf).
  split; auto.
  - exists b. by eapply view_frame.
  - exists sf. split; [done|]. change (commitIndex (applied rf q (due rf))) with (commitIndex rf).
    change (lastApplied (applied rf q (due rf))) with (due rf).
    change (log (applied rf q (due rf))) with (log rf). repeat split; auto.
    intros H2. unfold due in *. destruct (decide (2 ≤ lastApplied rf)) as [H3|H3]; [specialize (Hs5 H3)|]; lia.
  - intros m [Hm|Hm]%elem_of_app; [by apply Hq|]. destruct (Hms m Hm) as (k & e & Hk & He & Hte & ->).
    intros _. exists (terms A i), (take k (logs A i)), e. rewrite <- (take_S_r _ _ _ He).
    split; [|done]. eapply committed_take; [done|]. unfold due in Hk. lia.
Qed.

Lemma Make_cases now rf rf' s : nodeInv rf s → Make (peers rf) (me rf) (persister rf) now = Ret rf' →
  ∃ q la gll, rf' = remade rf now q la gll ∧ (la = base rf ∨ la = 1) ∧
    ∀ m, m ∈ q → CommandValid m = false.
Proof.
  intros [Hwf Hd _ _ Hv] Hr. destruct Hd as [Hs|Hp].
  - rewrite Make_saved in Hr by (done || intros ?%Hv; lia). injection Hr as <-.
    eexists _, _, _. split; [done|]. split; [by left|]. unfold remadeQueue.
    case_decide; [|by intros ? ?%not_elem_of_nil]. by intros m ->%list_elem_of_singleton.
  - rewrite (Make_pristine rf now Hp) in Hr. injection Hr as <-.
    eexists _, _, _. split; [done|]. split; [by right|]. by intros ? ?%not_elem_of_nil.
Qed.

Lemma peerSim_restart A i rf rf' s now : peerSim A i rf → nodeInv rf s →
  Make (peers rf) (me rf) (persister rf) now = Ret rf' → peerSim A i rf'.
Proof.
  intros [Ht [b Hv] Hc0 (sf & Hs1 & Hs2 & Hs3 & Hs4 & Hs5) Hl Hq] HI Hr.
  destruct (Make_cases _ _ _ _ HI Hr) as (q & la & gll & -> & Hla & Hqs). split; simpl; auto; [|done|..].
  - exists b. by eapply view_frame.
  - exists sf. split; [done|]. simpl. repeat split; auto; lia.
  - intros Hs. destruct (Hl Hs) as (r & Hr' & Hw & _). exists r. split; [done|]. split; [done|].
    intros j m Hj Hm. simpl in Hj. apply lookup_replicate in Hj as [-> _]. lia.
  - intros m Hm Hcv. rewrite (Hqs m Hm) in Hcv. done.
Qed.

Lemma goodLog_peer A v : absInv Term rootEntry n A →
  (∀ T r, leads A T = Some r → goodLog (l_log r)) → goodLog (logs A v).
Proof.
  intros HA HG. destruct (ai_log _ _ _ _ HA v) as [Hm _ [l Hl]].
  destruct (last (logs A v)) as [e|] eqn:He; [|apply last_None in He; congruence].
  destruct (matched_last _ _ _ _ HA _ _ Hm He) as (r & Hr & Hp & _).
  eapply goodLog_prefix; [by eapply HG|done|]. by rewrite Hl.
Qed.

(** The term rises and nothing else is touched. *)
Lemma safePrefix_evolves A A' i rf rf' s : safePrefix A i rf s → evolves i A A' →
  take s (logs A' i) = take s (logs A i) → (s ≤ length (logs A' i))%nat →
  commitIndex rf' = commitIndex rf → base rf' = base rf → lastApplied rf' = lastApplied rf →
  safePrefix A' i rf' s.
Proof.
  intros (H1 & H2 & H3 & H4 & H5) Hev Et Hlen Ec Eb Ea. split; [done|]. rewrite Et, Ec, Eb, Ea.
  split; [|done]. eapply committed_mono; [apply (ev_terms _ _ _ Hev i)|].
  by eapply evolves_committed.
Qed.

(** ** Elections *)

Lemma election_start_args rf rf' el : wf rf → election_start rf = Ret (rf', el) →
  log rf' = log rf ∧ snapshotIndex rf' = snapshotIndex rf ∧ commitIndex rf' = commitIndex rf ∧
  lastApplied rf' = lastApplied rf ∧ applyQueue rf' = applyQueue rf ∧
  ∃ e, last (log rf) = Some e ∧
    voteArgs el = mkRVArgs (currentTerm rf + 1) (me rf) (gend rf) (Term e).
Proof.
  intros Hwf Hr. unfold election_start in Hr. destruct (log_last rf (wf_ne _ Hwf)) as (e & Hg & He).
  rewrite globalLogLen_eq, bind_Ret in Hr by apply Hwf. simpl in Hr. rewrite Hg, bind_Ret in Hr.
  inv_ret. repeat split. by exists e.
Qed.

Lemma sim_start A i c rf rf' s el ns ph rq rp bs st an sn sa de :
  c = mkCluster ns ph rq rp bs → netSim A (mkNet c st an sn sa de) → clusterOk n c →
  ns !! i = Some (rf, s) → ph !! i = Some Pending → election_start rf = Ret (rf', el) →
  ∃ A', netSim A' (mkNet (mkCluster (<[i := (rf', s)]> ns) (<[i := Running el []]> ph)
    (voteArgs el :: rq) rp ((i, Z.of_nat i, votedForTerm el) :: bs)) st an sn sa de) ∧ adds A A' [].
Proof.
  intros -> HN Hok Hi Hp Hr. pose proof (co_node _ _ Hok _ _ _ _ Hi Hp) as [HI [Hme _] _ Hph _].
  simpl in Hph. pose proof (ni_wf _ _ HI) as Hwf. pose proof (lookup_lt_Some _ _ _ Hi) as Hin.
  destruct (co_len _ _ Hok) as [Hn _]. simpl in Hn.
  destruct (election_start_inv _ _ _ Hr) as (Et & _ & Es & _ & _ & Eet & _ & _ & _).
  destruct (election_start_args _ _ _ Hwf Hr) as (El & Esi & Ec & Ea & Eq & e & He & Hargs).
  pose proof (sm_inv _ _ HN) as HA. destruct (sm_peer _ _ HN _ _ _ Hi) as [Ht [b Hv] Hc0 [sf Hsf] Hl Hq].
  set (T := terms A i + 1). assert (votedForTerm el = T) as HT by (unfold T; lia).
  eassert (astep Term n i A _) as Hst by (by apply (as_cand _ _ A i T); [|lia]).
  set (A' := mkAbs _ _ _ _ _ _) in Hst.
  pose proof (absInv_step _ _ _ _ _ _ HA Hst) as HA'. pose proof (astep_evolves _ _ _ _ _ _ HA Hst) as Hev.
  exists A'. split; [|by apply adds_same].
  eapply (netSim_update A A' i); [exact HN|done|done|apply HN|exact Hi|reflexivity|..]; simpl.
  - intros j p Hj. by rewrite list_lookup_insert_ne.
  - split; simpl; rewrite ?fn_lookup_insert, ?Ec; auto; try lia.
    + exists b. by eapply view_frame.
    + exists sf. eapply safePrefix_evolves; eauto; [apply Hsf|by rewrite El].
    + rewrite Es. done.
    + rewrite Eq. intros m Hm. by eapply msgOk_evolves, Hq.
  - intros p Hpi. pose proof (lookup_lt_Some _ _ _ Hp). rewrite list_lookup_insert_eq in Hpi by done.
    injection Hpi as <-. simpl. rewrite HT. split; [intros _; by left|]. intros r Hr' Hw.
    destruct (ai_lead _ _ _ _ HA _ _ Hr') as [_ _ _ _ _ [Hle _]]. rewrite Hw in Hle. unfold T in Hle. lia.
  - intros args [->|?]%elem_of_cons; [right|by left].
    destruct (view_last _ _ _ _ Hv He) as (e' & He' & Hte). exists i, (logs A i), e'. rewrite Hargs. simpl.
    rewrite Hme, Ht, (view_len _ _ _ Hv). split; [done|]. split; [by left|]. done.
  - intros v x T' [Heq|Hb]%elem_of_cons Hnone.
    + injection Heq as -> -> ->. rewrite Nat2Z.id, HT. eexists. by left.
    + destruct (sm_ballots _ _ HN _ _ _ Hb Hnone) as [vlog ?]. exists vlog. by right.
  - intros v x T' vlog [Heq|Hb]%elem_of_cons.
    + injection Heq as -> -> -> ->. rewrite HT. by left.
    + right. by eapply (sm_votes _ _ HN).
  - by left.
  - by left.
  - by left.
  - by left.
Qed.

(** What a vote request changes: the term and the role, and a vote is only
    granted to a log that is not older. *)
Lemma RequestVote_cases now args rf rf' reply : wf rf → RequestVote now args rf = Ret (rf', reply) →
  log rf' = log rf ∧ snapshotIndex rf' = snapshotIndex rf ∧ commitIndex rf' = commitIndex rf ∧
  lastApplied rf' = lastApplied rf ∧ applyQueue rf' = applyQueue rf ∧ matchIndex rf' = matchIndex rf ∧
  currentTerm rf' = Z.max (currentTerm rf) (rv_Term args) ∧
  (state rf' = RS_Follower ∨ state rf' = state rf ∧ currentTerm rf' = currentTerm rf) ∧
  (rvr_VoteGranted reply = true → currentTerm rf ≤ rv_Term args ∧
   ∃ e, last (log rf) = Some e ∧
    (Term e < rv_LastLogTerm args ∨ Term e = rv_LastLogTerm args ∧ gend rf ≤ rv_LastLogIndex args)).
Proof.
  intros Hwf Hr. unfold RequestVote in Hr. destruct (log_last rf (wf_ne _ Hwf)) as (e & Hg & He).
  rewrite globalLogLen_eq, bind_Ret, Hg, bind_Ret in Hr by apply Hwf.
  case_decide as Hlt; [inv_ret; do 6 (split; [done|]); split; [lia|]; split; [auto|done]|].
  destruct (decide (rv_Term args > currentTerm rf)) as [Hgt|Hngt];
    repeat (case_decide; inv_ret; try done); do 6 (split; [done|]);
    (split; [first [lia|change (rv_Term args = Z.max (currentTerm rf) (rv_Term args)); lia]|]);
    (split; [first [left; reflexivity|right; split; reflexivity]|]); try done;
    intros _; (split; [lia|]); exists e; (split; [done|]); lia.
Qed.

Lemma sim_request A j c now args rf rf' s reply ns ph rq rp bs st an sn sa de :
  c = mkCluster ns ph rq rp bs → netSim A (mkNet c st an sn sa de) → clusterOk n c →
  ns !! j = Some (rf, s) → args ∈ rq → RequestVote now args rf = Ret (rf', reply) →
  ∃ A', netSim A' (mkNet (mkCluster (<[j := (rf', s)]> ns) ph rq ((j, args, reply) :: rp)
    (granted j args reply ++ bs)) st an sn sa de) ∧ adds A A' [].
Proof.
  intros -> HN Hok Hj Hargs Hr. pose proof (lookup_lt_Some _ _ _ Hj) as Hin.
  destruct (co_len _ _ Hok) as [Hn Hpn]. simpl in Hn, Hpn.
  destruct (lookup_lt_is_Some_2 ph j) as [p Hp]; [lia|].
  pose proof (ni_wf _ _ (no_inv _ _ _ _ _ _ (co_node _ _ Hok _ _ _ _ Hj Hp))) as Hwf.
  destruct (RequestVote_cases _ _ _ _ _ Hwf Hr) as (El & Esi & Ec & Ea & Eq & Em & Et & Hst & Hg).
  pose proof (sm_inv _ _ HN) as HA. destruct (sm_peer _ _ HN _ _ _ Hj) as [Ht [b Hv] Hc0 [sf Hsf] Hl Hq].
  destruct (sm_requests _ _ HN _ Hargs) as (cd & clog & ec & Hcd & Hcand & Hlast & Hlt & Hli).
  set (T := Z.max (currentTerm rf) (rv_Term args)) in *.
  assert (∃ A', evolves j A A' ∧ absInv Term rootEntry n A' ∧ leads A' = leads A ∧ logs A' = logs A ∧
    terms A' j = T ∧ cands A' = cands A ∧
    (∀ v x T' vlog, (v, x, T', vlog) ∈ votes A' →
       (v, x, T', vlog) ∈ votes A ∨ (v, Z.of_nat x, T') ∈ granted j args reply) ∧
    (rvr_VoteGranted reply = true → leads A T = None → ∃ vlog, (j, cd, T, vlog) ∈ votes A'))
    as (A' & Hev & HA' & Eld & Elg & Ett & Ecd & Hvs & Hvn).
  { assert (astep Term n j A (mkAbs (<[j := T]> (terms A)) (logs A) (leads A) (cands A) (votes A) (acks A)))
      as Hterm by (apply as_term; [unfold T; lia|lia]).
    destruct (decide (rvr_VoteGranted reply = true ∧ leads A T = None)) as [[Hgr Hnone]|Hno].
    - destruct (Hg Hgr) as (Hle & e & He & Hup). assert (T = rv_Term args) as ET by (unfold T; lia).
      eassert (astep Term n j A _) as Hst'.
      { eapply (as_vote _ _ A j cd T clog); [by rewrite ET|unfold T; lia|done| |lia].
        destruct (view_last _ _ _ _ Hv He) as (e' & He' & Hte). exists e', ec.
        split; [done|]. split; [done|]. rewrite (view_len _ _ _ Hv) in Hup. unfold len in *. lia. }
      eexists. split; [by eapply astep_evolves|]. split; [by eapply absInv_step|]. simpl.
      rewrite fn_lookup_insert. do 4 (split; [done|]). split.
      + intros v x T' vlog [Heq|?]%elem_of_cons; [right|by left]. injection Heq as -> -> -> ->.
        unfold granted. rewrite Hgr, Hcd, ET. by left.
      + intros _ _. eexists. by left.
    - eexists. split; [by eapply astep_evolves|]. split; [by eapply absInv_step|]. simpl.
      rewrite fn_lookup_insert. do 4 (split; [done|]). split; [by left|]. intros ? ?. exfalso. auto. }
  exists A'. split; [|by apply adds_same].
  eapply (netSim_update A A' j); [exact HN|done|done|rewrite Eld; apply HN|exact Hj|reflexivity|..]; simpl.
  - done.
  - split; rewrite ?Ett, ?Elg, ?Ec; auto; try lia.
    + exists b. by eapply view_frame.
    + exists sf. eapply safePrefix_evolves; eauto; rewrite ?Elg; try done; [apply Hsf|by rewrite El].
    + intros Hs. destruct Hst as [?|[Es EsT]]; [congruence|]. rewrite Es in Hs.
      assert (T = terms A j) as -> by congruence. rewrite Eld.
      destruct (Hl Hs) as (r & Hr' & Hw & Hm). exists r. split; [done|]. split; [done|].
      intros k m Hk Hm1. rewrite Em in Hk. destruct (Hm k m Hk Hm1) as (m' & ? & ?).
      exists m'. split; [done|]. rewrite Ett. by apply Hev.
    + rewrite Eq. intros m Hm. by eapply msgOk_evolves, Hq.
  - intros p' Hp'. pose proof (sm_phase _ _ HN _ _ _ _ Hj Hp') as Hph. destruct p' as [| |el cnt]; [done..|].
    simpl in *. rewrite Eld, Elg, Ecd. destruct Hph as [Hph1 Hph2]. split; [|done].
    intros Hs. apply Hph1. destruct Hst as [?|[Es _]]; congruence.
  - by left.
  - rewrite Eld. intros v x T' [Hb|Hb]%elem_of_app Hnone.
    + unfold granted in Hb. destruct (rvr_VoteGranted reply) eqn:Hgr; [|by apply not_elem_of_nil in Hb].
      apply list_elem_of_singleton in Hb. injection Hb as -> -> ->.
      destruct (Hg eq_refl) as [Hle _]. assert (T = rv_Term args) as ET by (unfold T; lia).
      rewrite <- ET in *. destruct (Hvn eq_refl Hnone) as [vlog ?]. exists vlog. by rewrite Hcd, Nat2Z.id.
    + destruct (sm_ballots _ _ HN _ _ _ Hb Hnone) as [vlog ?]. exists vlog. by apply Hev.
  - intros v x T' vlog [Hb|Hb]%Hvs; apply elem_of_app; [right|by left]. by eapply (sm_votes _ _ HN).
  - by left.
  - by left.
  - by left.
  - by left.
Qed.

(** The first leader of a term finds no other: the voters of two would share
    one. *)
Lemma promote_first A c i el cnt rf s T V : netSim A c → clusterOk n (core c) →
  nodes (core c) !! i = Some (rf, s) → phases (core c) !! i = Some (Running el cnt) →
  votedForTerm el = T → 1 < T → voters (ballots (core c)) V (Z.of_nat i) T →
  Z.of_nat n / 2 + 1 ≤ len V → leads A T = None.
Proof.
  intros HN Hok Hi Hp HT H1 [HV1 HV2] HV3. destruct (leads A T) as [r|] eqn:Hr; [|done]. exfalso.
  pose proof (sm_phase _ _ HN _ _ _ _ Hi Hp) as [_ Hno]. rewrite HT in Hno.
  destruct (ld_elected _ _ _ _ _ _ (ai_lead _ _ _ _ (sm_inv _ _ HN) _ _ Hr))
    as [(? & _)|(_ & _ & _ & _ & W & _ & _ & (HW1 & HW2 & HW3) & HW)]; [lia|].
  destruct (quorums_meet n V W) as (v & Hv & Hw); auto.
  { intros v Hv. eapply (co_range _ _ Hok), HV2, Hv. }
  destruct (HW v Hw) as (vlog & Hvote). apply (sm_votes _ _ HN) in Hvote.
  pose proof (co_unique _ _ Hok _ _ _ _ (HV2 v Hv) Hvote). apply (Hno r Hr). lia.
Qed.

Lemma take_snoc {B} (l : list B) x s : (s ≤ length l)%nat → take s (l ++ [x]) = take s l.
Proof. intros Hs. by apply take_app_le. Qed.

(** A leader's new entry, at its own peer. *)
Lemma peerSim_own A A' i rf rf' b e r : peerSim A i rf → evolves i A A' →
  terms A' i = terms A i → logs A' i = logs A i ++ [e] → view rf' (logs A i ++ [e]) b →
  base rf' = base rf → currentTerm rf' = currentTerm rf → commitIndex rf' = commitIndex rf →
  lastApplied rf' = lastApplied rf → applyQueue rf' = applyQueue rf →
  leads A' (terms A i) = Some r → l_who r = i → matchOk A' i rf' → peerSim A' i rf'.
Proof.
  intros [Ht _ Hc0 [sf Hsf] _ Hq] Hev Et El Hv Eb Ect Ec Ea Eq Hr Hw Hm. split; rewrite ?Et, ?El, ?Ec; eauto.
  - congruence.
  - exists sf. destruct (Hsf) as [Hle _]. eapply safePrefix_evolves; eauto; rewrite El.
    + by apply take_snoc.
    + rewrite length_app. lia.
  - rewrite Eq. intros m Hin. by eapply msgOk_evolves, Hq.
Qed.

Lemma sim_promote A i c ballot rf rf' s el cnt ns ph rq rp bs st an sn sa de :
  c = mkCluster ns ph rq rp bs → netSim A (mkNet c st an sn sa de) → clusterOk n c →
  ns !! i = Some (rf, s) → ph !! i = Some (Running el cnt) → ballot ≤ ballotCount el →
  election_promote ballot rf = Ret (rf', true) →
  ∃ A', netSim A' (mkNet (mkCluster (<[i := (rf', s)]> ns) (<[i := Idle]> ph) rq rp bs) st an sn sa de) ∧
    adds A A' [].
Proof.
  intros -> HN Hok Hi Hp Hle Hr. pose proof (lookup_lt_Some _ _ _ Hi) as Hin.
  pose proof (co_node _ _ Hok _ _ _ _ Hi Hp) as [HI [Hme Hpe] _ (_ & HcT & _ & _ & V & HV & Hcnt & _) _].
  pose proof (ni_wf _ _ HI) as Hwf. destruct (co_len _ _ Hok) as [Hn _]. simpl in Hn.
  pose proof (sm_inv _ _ HN) as HA. pose proof (sm_peer _ _ HN _ _ _ Hi) as HPi.
  destruct (HPi) as [Ht [b Hv] _ _ _ _].
  pose proof (election_promote_inv _ _ _ _ Hr) as (Hs & Hmaj & _ & _ & _ & _).
  destruct (election_promote_view _ _ _ _ _ Hwf Hv Hr) as (Es & Et & Hv' & Ec & Ea & Eq & Hm).
  set (e := mkEntry (currentTerm rf) LT_Noop (len (logs A i)) None) in *.
  specialize (HcT Hs). destruct (sm_phase _ _ HN _ _ _ _ Hi Hp) as [Hcand _]. specialize (Hcand Hs).
  rewrite <- HcT, Ht in Hcand. rewrite <- HcT, Ht in HV.
  assert (Z.of_nat n / 2 + 1 ≤ len V) as HVn by (unfold majority in Hmaj; rewrite Hpe in Hmaj; lia).
  pose proof (ca_term _ _ _ _ _ (ai_cand _ _ _ _ HA _ _ _ Hcand)) as [H1T _].
  assert (leads A (terms A i) = None) as Hnone.
  { eapply promote_first; eauto; simpl; congruence. }
  eassert (astep Term n i A _) as Hst.
  { apply (as_elect _ _ A i (terms A i) e V); [done|done|done|done| | |lia].
    - destruct HV as [HV1 HV2]. split; [done|]. split; [|done].
      intros v Hvin. eapply (co_range _ _ Hok), HV2, Hvin.
    - intros v Hvin. destruct (sm_ballots _ _ HN v (Z.of_nat i) (terms A i)) as [vlog Hvl]; [by apply HV|done|].
      rewrite Nat2Z.id in Hvl. eauto. }
  set (A' := mkAbs _ _ _ _ _ _) in Hst.
  pose proof (absInv_step _ _ _ _ _ _ HA Hst) as HA'. pose proof (astep_evolves _ _ _ _ _ _ HA Hst) as Hev.
  assert (leads A' (terms A i) = Some (mkLead i (logs A i ++ [e]) (logs A i ++ [e]))) as Hlead
    by apply fn_lookup_insert.
  exists A'. split; [|by apply (adds_own A A' i e (mkLead i (logs A i ++ [e]) (logs A i ++ [e])))].
  eapply (netSim_update A A' i); [exact HN|done|done| |exact Hi|reflexivity|..]; simpl.
  - intros T r Hr'. destruct (decide (terms A i = T)) as [<-|HT].
    + change (leads A' (terms A i) = Some r) in Hr'. rewrite Hlead in Hr'. injection Hr' as <-. apply goodLog_snoc; [|done..].
      apply goodLog_peer; [done|apply HN].
    + rewrite fn_lookup_insert_ne in Hr' by done. by eapply (sm_good _ _ HN).
  - intros j p Hj. by rewrite list_lookup_insert_ne.
  - eapply (peerSim_own A A' i rf rf' b e); eauto.
    + apply fn_lookup_insert.
    + by rewrite (view_base _ _ _ Hv), (view_base _ _ _ Hv').
    + intros j m Hj Hm1. destruct (Hm j m Hj) as [->|[Hjm ->]]; [|lia|].
      * apply lookup_lt_Some in Hj. destruct (election_promote_wf ballot rf Hwf) as (r0 & b0 & Hr0 & Hwf0).
        rewrite Hr in Hr0. injection Hr0 as <- <-. rewrite (wf_match _ Hwf0) in Hj.
        pose proof (election_promote_inv _ _ _ _ Hr) as (_ & _ & _ & _ & _ & Hpp). congruence.
      * exists (length (logs A i ++ [e])). assert (j = i) as -> by lia. split; [|by left].
        rewrite length_app. unfold len. simpl. lia.
  - intros p Hpi. pose proof (lookup_lt_Some _ _ _ Hp). rewrite list_lookup_insert_eq in Hpi by done.
    by injection Hpi as <-.
  - by left.
  - intros v x T Hb Hn'. eapply (sm_ballots _ _ HN); [done|].
    destruct (decide (terms A i = T)) as [<-|HT]; [done|]. by rewrite fn_lookup_insert_ne in Hn' by done.
  - apply (sm_votes _ _ HN).
  - by left.
  - by left.
  - by left.
  - by left.
Qed.

(** Steps of the election code that leave the logs and the terms alone. *)
Lemma sim_phase A i c rf s rf' s' p' ns ph rq rp bs st an sn sa de :
  c = mkCluster ns ph rq rp bs → netSim A (mkNet c st an sn sa de) →
  ns !! i = Some (rf, s) → peerSim A i rf' → phaseSim A i rf' p' → (i < length ph)%nat →
  netSim A (mkNet (mkCluster (<[i := (rf', s')]> ns) (<[i := p']> ph) rq rp bs) st an sn sa de).
Proof.
  intros -> HN Hi HP Hp Hlt.
  eapply (netSim_update A A i); [exact HN|apply evolves_refl|apply HN|apply HN|exact Hi|reflexivity
    |..|by left|by left|by left|by left]; simpl.
  - intros j p Hj. by rewrite list_lookup_insert_ne.
  - done.
  - intros p Hpi. rewrite list_lookup_insert_eq in Hpi by done. by injection Hpi as <-.
  - by left.
  - apply (sm_ballots _ _ HN).
  - apply (sm_votes _ _ HN).
Qed.

Lemma sim_election A c c' st an sn sa de : netSim A (mkNet c st an sn sa de) → clusterOk n c →
  estep c c' → ∃ A', netSim A' (mkNet c' st an sn sa de) ∧ adds A A' [].
Proof.
  intros HN Hok Hst. destruct (co_len _ _ Hok) as [Hn Hpn].
  destruct Hst as [i now rf rf' s ns ph rq rp bs Hi Hr|i rf rf' s el ns ph rq rp bs Hi Hp Hr
    |j now args rf rf' s reply ns ph rq rp bs Hi Hin Hne Hr
    |i j el counted reply ns ph rq rp bs Hp Hin Hj
    |i ballot rf rf' s el counted b ns ph rq rp bs Hi Hp Hle Hct Hr]; simpl in *.
  - exists A. split; [|by apply adds_same]. eapply sim_phase; eauto; [|done|apply lookup_lt_Some in Hi; lia].
    pose proof (sm_peer _ _ HN _ _ _ Hi) as HP. unfold ticker_timeout in Hr. case_decide; [|done].
    injection Hr as <-. eapply peerSim_frame; [exact HP|done..].
  - by eapply sim_start.
  - by eapply sim_request.
  - exists A. split; [|by apply adds_same].
    destruct (lookup_lt_is_Some_2 ns i) as [[rf s] Hi]; [apply lookup_lt_Some in Hp; lia|].
    rewrite <- (list_insert_id ns i (rf, s)) by done.
    eapply sim_phase; eauto; [by apply (sm_peer _ _ HN i rf s)| |by apply lookup_lt_Some in Hp].
    pose proof (sm_phase _ _ HN i rf s _ Hi Hp) as Hph. simpl in *. unfold election_reply.
    repeat case_match; done.
  - destruct b; [by eapply sim_promote|]. apply election_promote_inv in Hr as ->. exists A.
    rewrite list_insert_id by done. split; [done|by apply adds_same].
Qed.

Lemma sim_restart A i now rf s rf' ns ph rq rp bs st an sn sa de :
  netSim A (mkNet (mkCluster ns ph rq rp bs) st an sn sa de) → clusterOk n (mkCluster ns ph rq rp bs) →
  ns !! i = Some (rf, s) → Make (peers rf) (me rf) (persister rf) now = Ret rf' →
  netSim A (mkNet (mkCluster (<[i := (rf', 0)]> ns) (<[i := Idle]> ph) rq rp bs) st an sn sa de).
Proof.
  intros HN Hok Hi Hr. destruct (co_len _ _ Hok) as [Hn Hpn]. pose proof (lookup_lt_Some _ _ _ Hi).
  simpl in *. destruct (lookup_lt_is_Some_2 ph i) as [p Hp]; [lia|].
  eapply sim_phase; eauto; [|done|lia]. eapply peerSim_restart; [by apply (sm_peer _ _ HN i rf s)| |done].
  apply (no_inv _ _ _ _ _ _ (co_node _ _ Hok _ _ _ _ Hi Hp)).
Qed.

(** ** Replication *)

Lemma sim_start_command A i c command rf rf' s r st an sn sa de :
  netSim A (mkNet c st an sn sa de) → nodes c !! i = Some (rf, s) → (i < n)%nat → wf rf →
  me rf = Z.of_nat i → Start command rf = Ret (rf', r) →
  ∃ A', netSim A' (mkNet (withPeer i rf' s c) st an sn sa de) ∧ adds A A' (startedBy (Starts i command r.2)).
Proof.
  intros HN Hi Hin Hwf Hme Hr. pose proof (sm_inv _ _ HN) as HA. pose proof (sm_peer _ _ HN _ _ _ Hi) as HPi.
  destruct (HPi) as [Ht [b Hv] _ _ Hl _].
  destruct (Start_view _ _ _ _ _ _ Hwf Hv Hr) as [->|(Hs & Es & Et & Hv' & Ec & Ea & Eq & Em & Elead)].
  { exists A. split; [|by apply adds_same]. eapply netSim_frame; eauto. }
  set (e := mkEntry (currentTerm rf) LT_Normal (len (logs A i)) command) in *.
  destruct (Hl Hs) as (ld & Hld & Hw & Hm).
  assert (astep Term n i A _) as Hst by (apply (as_append _ _ A i ld e); done).
  set (A' := mkAbs _ _ _ _ _ _) in Hst.
  pose proof (absInv_step _ _ _ _ _ _ HA Hst) as HA'. pose proof (astep_evolves _ _ _ _ _ _ HA Hst) as Hev.
  pose proof (leader_log _ _ _ _ _ _ HN Hi Hld Hw) as Hlog.
  exists A'. split.
  2:{ rewrite Elead. by apply (adds_own A A' i e (mkLead i (l_start ld) (logs A i ++ [e]))). }
  eapply netSim_local; [exact HN|done|done| | |done|exact Hi| |congruence|by left..].
  - intros T r0 Hr0. simpl in Hr0. destruct (decide (terms A i = T)) as [<-|HT].
    + rewrite fn_lookup_insert in Hr0. injection Hr0 as <-. simpl.
      pose proof (goodLog_peer A i HA (sm_good _ _ HN)) as HG. apply goodLog_snoc; [done|done|].
      intros H1. exfalso. pose proof (wf_leader _ Hwf Hs). rewrite (view_len _ _ _ Hv) in *.
      unfold len in *. lia.
    + rewrite fn_lookup_insert_ne in Hr0 by done. by eapply (sm_good _ _ HN).
  - intros T r0 Hr0. simpl in Hr0. destruct (decide (terms A i = T)) as [<-|HT].
    + rewrite fn_lookup_insert in Hr0. injection Hr0 as <-. eauto.
    + rewrite fn_lookup_insert_ne in Hr0 by done. eauto.
  - eapply (peerSim_own A A' i rf rf' b e (mkLead i (l_start ld) (logs A i ++ [e]))); eauto.
    + apply fn_lookup_insert.
    + by rewrite (view_base _ _ _ Hv), (view_base _ _ _ Hv').
    + apply fn_lookup_insert.
    + intros j m Hj Hm1. rewrite Em in Hj. apply list_lookup_insert_Some in Hj as [(<- & <- & _)|[_ Hj]].
      * exists (length (logs A i ++ [e])). rewrite Hme, Nat2Z.id. split; [|by left].
        rewrite length_app. unfold len. simpl. lia.
      * destruct (Hm j m Hj Hm1) as (m' & ? & ?). exists m'. split; [done|]. by right.
Qed.

(** The follower and the request agree up to the last entry that the follower
    has applied. *)
Lemma prev_agrees A c j rf s args next r p k e : netSim A c → nodes (core c) !! j = Some (rf, s) →
  wf rf → carries A j args next r p k e → terms A j ≤ ae_Term args → firstChecked args rf →
  ae_PrevLogIndex args = lastApplied rf → lastApplied rf < len (logs A j) - 1 →
  take (S k) (logs A j) = take (S k) p.
Proof.
  intros HN Hj Hwf [_ [Hr _] Hp (Hk & He & Hte) _ _ _] Hle Hck Hpi Hlt.
  pose proof (sm_inv _ _ HN) as HA. pose proof (goodLog_peer A j HA (sm_good _ _ HN)) as HG.
  destruct (sm_peer _ _ HN _ _ _ Hj) as [_ [b Hv] _ (sf & Hs1 & Hs2 & _ & _ & Hs5) _ _].
  pose proof (lo_matched _ _ _ _ (ai_log _ _ _ _ HA j)) as Hm.
  assert (matched Term A p) as Hmp by (eapply matched_prefix; [done|apply (ai_lead _ _ _ _ HA _ _ Hr)]).
  pose proof (lookup_lt_Some _ _ _ He). rewrite Hk in Hpi.
  destruct (lookup_lt_is_Some_2 (logs A j) k) as [e1 He1]; [unfold len in *; lia|].
  destruct k as [|[|k]].
  - eapply (log_matching Term); eauto. rewrite (gl_zero _ HG) in He1. injection He1 as <-.
    assert (p ≠ []) as Hne by (intros ->; done).
    pose proof (gl_zero _ (goodLog_prefix _ _ (sm_good _ _ HN _ _ Hr) Hp Hne)). congruence.
  - eapply (log_matching Term); eauto. rewrite Hte. apply Hck; [lia|lia|].
    pose proof (goodLog_two _ _ _ HG Hv). pose proof (view_base _ _ _ Hv). pose proof (wf_applied _ Hwf).
    rewrite (view_lookup _ _ _ _ Hv) by done. by replace (b + 1)%nat with 1%nat by lia.
  - specialize (Hs5 ltac:(lia)).
    pose proof (committed_lead _ _ _ _ HA _ _ _ _ Hs2 Hle Hr) as Hc.
    assert (take (S (S (S k))) (logs A j) `prefix_of` l_log r) as HF.
    { etrans; [|exact Hc]. apply take_take_prefix. lia. }
    assert (take (S (S (S k))) p `prefix_of` l_log r) as HP by (etrans; [apply prefix_take|done]).
    rewrite (prefix_is_take _ _ HF), (prefix_is_take _ _ HP), !length_take. f_equal. lia.
Qed.

(** A follower that answers with success has adopted the leader's log. *)
Lemma appended_adopted A c j rf s rf' args next r p k e F' : netSim A c →
  nodes (core c) !! j = Some (rf, s) → wf rf → carries A j args next r p k e →
  terms A j ≤ ae_Term args → firstChecked args rf →
  appended args rf (logs A j) rf' true F' → adopted (logs A j) p F'.
Proof.
  intros HN Hj Hwf Hca Hle Hck Happ. pose proof (sm_inv _ _ HN) as HA.
  pose proof (prev_agrees _ _ _ _ _ _ _ _ _ _ _ HN Hj Hwf Hca Hle Hck) as Hagree.
  destruct (Hca) as [_ [Hr _] Hp (Hk & He & Hte) Hes _ _].
  pose proof (lo_matched _ _ _ _ (ai_log _ _ _ _ HA j)) as Hm.
  assert (matched Term A p) as Hmp by (eapply matched_prefix; [done|apply (ai_lead _ _ _ _ HA _ _ Hr)]).
  pose proof (lookup_lt_Some _ _ _ He) as Hkp. inversion Happ as
    [|rf0 e1 Hlast Hidx Ht1 _ E1 E2 E3|rf0 Hpi Hlt Hag _ E1 E2 E3|rf0 Hpi Hlt Hno _ E1 E2 E3]; subst.
  - assert (logs A j = take (S k) p) as HF.
    { rewrite last_lookup in Hlast. unfold len in Hidx. replace (pred (length (logs A j))) with k in Hlast by lia.
      rewrite <- (take_ge (logs A j) (S k)) by lia. eapply (log_matching Term); eauto. congruence. }
    rewrite Hes. assert (logs A j ++ drop (S k) p = p) as -> by (rewrite HF; apply take_drop).
    destruct (decide (length p ≤ S k)%nat) as [Hs|Hl].
    + left. assert (logs A j = p) as -> by (rewrite HF; by apply take_ge). done.
    + right. split; [|done]. intros Hpre%prefix_length. rewrite HF, length_take in Hpre. lia.
  - left. split; [|done]. specialize (Hagree Hpi Hlt). destruct (decide (length p ≤ S k)%nat) as [Hs|Hl].
    + rewrite <- (take_ge p (S k)), <- Hagree by done. apply prefix_take.
    + destruct (lookup_lt_is_Some_2 p (pred (length p))) as [x Hx]; [lia|].
      destruct (Hag (pred (length p) - S k)%nat x) as (x' & Hx' & Htx).
      { rewrite Hes, lookup_drop, <- Hx. f_equal. lia. }
      replace (Z.to_nat (lastApplied rf + 1 + Z.of_nat (pred (length p) - S k)))
        with (pred (length p)) in Hx' by lia.
      pose proof (log_matching Term _ _ _ _ _ _ Hmp Hm Hx Hx' (eq_sym Htx)) as Heq.
      rewrite take_ge in Heq by lia. rewrite Heq. apply prefix_take.
  - right. specialize (Hagree Hpi Hlt). rewrite Hes in *.
    replace (Z.to_nat (lastApplied rf + 1)) with (S k) by lia. rewrite Hagree. split; [|apply take_drop].
    intros Hpre. apply Hno. intros i x Hx. rewrite lookup_drop in Hx. exists x. split; [|done].
    replace (Z.to_nat (lastApplied rf + 1 + Z.of_nat i)) with (S k + i)%nat by lia.
    by eapply prefix_lookup_Some.
Qed.

(** A peer that adopts the prefix [p] of the log of leader [t], of which [q] is
    committed. *)
Lemma peerSim_adopt A j rf rf' t r p q F' b : peerSim A j rf → absInv Term rootEntry n A →
  leads A t = Some r → l_who r ≠ j → terms A j ≤ t → p `prefix_of` l_log r →
  adopted (logs A j) p F' → (j < n)%nat → p ≠ [] → q `prefix_of` p → committed n A t q →
  view rf' F' b → currentTerm rf' = t → state rf' = RS_Follower →
  (∀ m, m ∈ applyQueue rf' → msgOk A m) → 0 ≤ commitIndex rf' →
  (∀ s, safePrefix A j rf s → let s' := Z.max (Z.of_nat s) (len q) in
    commitIndex rf' < s' ∧ base rf' < s' ∧ (2 ≤ lastApplied rf' → lastApplied rf' < s')) →
  ∃ A', evolves j A A' ∧ absInv Term rootEntry n A' ∧ leads A' = leads A ∧ votes A' = votes A ∧
    (j, t, length p) ∈ acks A' ∧ terms A' j = t ∧ peerSim A' j rf'.
Proof.
  intros HP HA Hr Hw Hle Hp Had Hj Hne Hq Hcq Hv Et Es Hms Hc0 Hsafe.
  assert (astep Term n j A _) as Hst by (by apply (as_adopt _ _ A j t r p F')).
  set (A' := mkAbs _ _ _ _ _ _) in Hst. pose proof (astep_evolves _ _ _ _ _ _ HA Hst) as Hev.
  assert (logs A' j = F' ∧ terms A' j = t) as [EF ET] by (simpl; by rewrite !fn_lookup_insert).
  exists A'. split; [done|]. split; [by eapply absInv_step|]. do 2 (split; [done|]).
  split; [by left|]. split; [done|]. clearbody A'.
  destruct HP as [_ _ _ (s & Hsf) _ _]. destruct (Hsafe s Hsf) as (Hs1 & Hs2 & Hs3).
  destruct Hsf as (Hs4 & Hs5 & _).
  assert (take s (logs A j) `prefix_of` F') as Hold by (eapply adopted_keeps; eauto using prefix_take).
  assert (q `prefix_of` F') as Hqn by (etrans; [exact Hq|by eapply adopted_has]).
  split; rewrite ?ET, ?EF; auto.
  - eauto.
  - exists (Nat.max s (length q)). unfold safePrefix. rewrite EF, ET.
    apply prefix_length in Hold as Hl1. apply prefix_length in Hqn as Hl2. rewrite length_take in Hl1.
    split; [lia|]. split; [|unfold len in *; lia].
    assert (∀ x, x `prefix_of` F' → committed n A t x → length x = Nat.max s (length q) →
      committed n A' t (take (Nat.max s (length q)) F')) as Hx.
    { intros x Hx Hcx <-. rewrite <- (prefix_is_take _ _ Hx). by eapply evolves_committed. }
    destruct (decide (s ≤ length q)%nat).
    + apply (Hx q); [done|done|lia].
    + apply (Hx (take s (logs A j))); [done|by eapply committed_mono|rewrite length_take; lia].
  - congruence.
  - intros m Hm. by eapply msgOk_evolves, Hms.
Qed.

(** A peer that only moves to a later term. *)
Lemma peerSim_term A j rf rf' b T : peerSim A j rf → absInv Term rootEntry n A → (j < n)%nat →
  terms A j ≤ T → view rf' (logs A j) b → base rf' = base rf → currentTerm rf' = T →
  state rf' = RS_Follower → commitIndex rf' = commitIndex rf → lastApplied rf' = lastApplied rf →
  applyQueue rf' = applyQueue rf →
  ∃ A', evolves j A A' ∧ absInv Term rootEntry n A' ∧ leads A' = leads A ∧ votes A' = votes A ∧
    terms A' j = T ∧ peerSim A' j rf'.
Proof.
  intros [_ _ Hc0 (s & Hsf) _ Hq] HA Hj Hle Hv Eb Et Es Ec Ea Eq.
  assert (astep Term n j A _) as Hst by (by apply (as_term _ _ A j T)).
  set (A' := mkAbs _ _ _ _ _ _) in Hst. pose proof (astep_evolves _ _ _ _ _ _ HA Hst) as Hev.
  assert (terms A' j = T) as ET by (simpl; by rewrite fn_lookup_insert).
  exists A'. split; [done|]. split; [by eapply absInv_step|]. do 2 (split; [done|]). split; [done|].
  split; rewrite ?ET, ?Ec; auto.
  - eauto.
  - exists s. eapply safePrefix_evolves; eauto. apply Hsf.
  - congruence.
  - rewrite Eq. intros m Hm. by eapply msgOk_evolves, Hq.
Qed.

Lemma sim_append A j c now args next rf s rf' reply st an sn sa de :
  netSim A (mkNet c st an sn sa de) → nodes c !! j = Some (rf, s) → (j < n)%nat → wf rf →
  (Z.of_nat j, (args, next)) ∈ st → firstChecked args rf → AppendEntries now args rf = Ret (rf', reply) →
  ∃ A', netSim A' (mkNet (withPeer j rf' s c) st ((Z.of_nat j, (args, next), reply) :: an) sn sa de) ∧
    adds A A' [].
Proof.
  intros HN Hj Hjn Hwf Hin Hck Hr. pose proof (sm_inv _ _ HN) as HA.
  pose proof (sm_sent _ _ HN _ Hin) as Hsent. pose proof (sm_peer _ _ HN _ _ _ Hj) as HP.
  destruct (HP) as [Ht [b Hv] Hc0 _ _ Hq].
  destruct (AppendEntries_view _ _ _ _ _ _ _ Hwf Hv Hr) as (Hp0 & Hl0 & Hcase).
  assert (∃ A', evolves j A A' ∧ absInv Term rootEntry n A' ∧ leads A' = leads A ∧ votes A' = votes A ∧
    ae_Term args ≤ terms A' j ∧ peerSim A' j rf' ∧ (state rf' = RS_Candiate → A' = A ∧ rf' = rf) ∧
    (aer_Success reply = true → ∃ m', next ≤ Z.of_nat m' ∧ (j, ae_Term args, m') ∈ acks A'))
    as (A' & Hev & HA' & El & Ev & Hte & HP' & Hcd & Hack).
  { destruct Hcase as [(Hlt & -> & Hf)|(Hle & Et & Es & Ea & Eq & F' & Hv' & Happ)].
    { exists A. split; [apply evolves_refl|]. do 3 (split; [done|]). split; [lia|].
      split; [done|]. split; [done|]. congruence. }
    rewrite Ht in Hle. pose proof (view_base _ _ _ Hv) as Eb. pose proof (view_base _ _ _ Hv') as Eb'.
    destruct (aer_Success reply) eqn:Hsucc.
    - destruct Hsent as (j' & r & p & k & e & Hjj & Hca). simpl in Hjj, Hca. apply Nat2Z.inj in Hjj as <-.
      pose proof (appended_adopted _ _ _ _ _ _ _ _ _ _ _ _ _ HN Hj Hwf Hca Hle Hck Happ) as Had.
      destruct (Hca) as [[_ Hto] [Hld _] Hpre (_ & He & _) _ Hnx [Hlc Hcm]].
      assert (p ≠ []) as Hne by (intros ->; done).
      destruct (peerSim_adopt A j rf rf' (ae_Term args) r p
        (take (S (Z.to_nat (ae_LeaderCommit args))) p) F' b)
        as (A' & Hev & HA' & El & Ev & Hk & ET & HP'); auto using prefix_take.
      + rewrite Eq. done.
      + inversion Happ; lia.
      + intros sf (Hs1 & Hs2 & Hs3 & Hs4 & Hs5). simpl. rewrite Ea, Eb', <- Eb, len_take.
        assert (commitIndex rf' = commitIndex rf ∨ commitIndex rf' = ae_LeaderCommit args) as Hci
          by (inversion Happ; auto). repeat split; lia.
      + exists A'. do 4 (split; [done|]). split; [lia|]. split; [done|]. split; [congruence|].
        intros _. exists (length p). split; [|done]. unfold len in Hnx. lia.
    - inversion Happ; subst. destruct (peerSim_term A j rf rf' b (ae_Term args))
        as (A' & Hev & HA' & El & Ev & ET & HP'); auto; [congruence|].
      exists A'. do 4 (split; [done|]). split; [lia|]. split; [done|]. split; [congruence|done]. }
  exists A'. split; [|by apply adds_same].
  eapply netSim_local; [exact HN|done|done|rewrite El; apply HN| |done|exact Hj|done| | | | |].
  - intros T r. rewrite El. eauto.
  - intros Hs. destruct (Hcd Hs) as [-> ->]. done.
  - by left.
  - intros q rep [Heq|?]%elem_of_cons; [right|by left]. injection Heq as -> ->.
    split; [by eapply sentSim_evolves|]. split; [done|]. split; [done|]. simpl. by rewrite Nat2Z.id.
  - by left.
  - by left.
Qed.

Lemma normals_prefix (p q : list (logEntry Cmd)) : p `prefix_of` q → normals p ≤ normals q.
Proof. intros [r ->]. rewrite normals_app. pose proof (normals_nonneg r). lia. Qed.

(** A snapshot that is not refused covers more than the one of the peer. *)
Lemma snapshot_ahead A c j rf s args r p e b : netSim A c → nodes (core c) !! j = Some (rf, s) →
  covers A j args r p e → view rf (logs A j) b → snapshotIndex rf < is_LastIncludedIndex args →
  (S b < length p)%nat.
Proof.
  intros HN Hj [_ _ _ Hcp _ [_ Hn] _] Hv Hgt. rewrite (vw_ext _ _ _ Hv), Hn in Hgt.
  destruct (sm_peer _ _ HN _ _ _ Hj) as [_ _ _ (sf & Hs1 & Hs2 & _ & Hs4 & _) _ _].
  rewrite (view_base _ _ _ Hv) in Hs4.
  assert (committed n A (terms A j) (take (S b) (logs A j))) as Hcb by (eapply committed_take; [done|lia]).
  pose proof (view_lt _ _ _ Hv).
  destruct (committed_comparable _ _ _ _ (sm_inv _ _ HN) _ _ _ _ Hcp Hcb) as [Hpre|Hpre].
  { apply normals_prefix in Hpre. lia. }
  pose proof (prefix_length _ _ Hpre) as Hl. rewrite length_take in Hl.
  destruct (decide (length p = S b)) as [Heq|]; [|lia]. exfalso.
  assert (take (S b) (logs A j) = p) as Hsame; [|rewrite Hsame in Hgt; lia].
  apply prefix_is_take in Hpre. rewrite Hpre. apply take_ge. rewrite length_take. lia.
Qed.

(** What [InstallSnapshot] makes of the log is what the abstract peer adopts. *)
Lemma installed_adopted A c j rf s rf' args r p e b : netSim A c → nodes (core c) !! j = Some (rf, s) →
  wf rf → covers A j args r p e → view rf (logs A j) b →
  snapshotIndex rf < is_LastIncludedIndex args → snapshotIndex rf' = is_LastIncludedIndex args →
  snapshotLog args rf = Ret (log rf') →
  ∃ F' b', adopted (logs A j) p F' ∧ view rf' F' b' ∧ Z.of_nat b' = is_LastIncludedInternal args.
Proof.
  intros HN Hj Hwf Hco Hv Hgt Esi Hlog. pose proof (sm_inv _ _ HN) as HA.
  pose proof (snapshot_ahead _ _ _ _ _ _ _ _ _ _ HN Hj Hco Hv Hgt) as Hb.
  destruct Hco as [_ Hr Hp _ [Hlast Hte] [Hi Hn] [Hpos _]]. rewrite last_lookup in Hlast.
  pose proof (lo_matched _ _ _ _ (ai_log _ _ _ _ HA j)) as Hm. pose proof (view_base _ _ _ Hv) as Eb.
  assert (matched Term A p) as Hmp by (eapply matched_prefix; [done|apply (ai_lead _ _ _ _ HA _ _ Hr)]).
  destruct (snapshotLog_view args rf (wf_ne _ Hwf)) as [(k & e0 & Hk & Hidx & Ht0 & Hs)|[Hs Hno]];
    rewrite Hs in Hlog; injection Hlog as Elog.
  - destruct (view_term _ _ _ _ _ Hv Hk) as (e1 & He1 & Ht1). unfold len in Hi.
    replace (pred (length p)) with (b + k)%nat in Hlast by lia.
    pose proof (log_matching Term _ _ _ _ _ _ Hm Hmp He1 Hlast ltac:(congruence)) as Heq.
    rewrite (take_ge p) in Heq by lia.
    exists (logs A j), (b + k)%nat. split; [left; split; [|done]; rewrite <- Heq; apply prefix_take|].
    split; [|lia]. eapply view_cut; [done|exact He1|congruence|lia|].
    exists (snapshotEntry args). split; [done|]. simpl. split; [lia|congruence].
  - exists p, (pred (length p)). split; [right; split; [|done]|].
    + intros Hpre. pose proof (prefix_lookup_Some _ _ _ _ Hlast Hpre) as HF.
      replace (pred (length p)) with (b + (pred (length p) - b))%nat in HF by lia.
      destruct (view_term_rev _ _ _ _ _ Hv HF) as (e1 & He1 & Ht1).
      apply (Hno _ _ He1); [unfold len in *; lia|congruence].
    + unfold len in Hi. split; [|lia]. eapply view_fresh; [lia|exact Hlast|congruence|lia|].
      exists (snapshotEntry args). split; [done|]. simpl. split; [lia|done].
Qed.

Lemma sim_install A j c args rf s rf' reply st an sn sa sa' de :
  netSim A (mkNet c st an sn sa de) → nodes c !! j = Some (rf, s) → (j < n)%nat → wf rf →
  (Z.of_nat j, args) ∈ sn → InstallSnapshot args rf = Ret (rf', reply) →
  ∃ A', netSim A' (mkNet (withPeer j rf' s c) st an sn sa' de) ∧ adds A A' [].
Proof.
  intros HN Hj Hjn Hwf Hin Hr. pose proof (sm_inv _ _ HN) as HA. pose proof (sm_peer _ _ HN _ _ _ Hj) as HP.
  destruct (InstallSnapshot_view _ _ _ _ Hwf Hr)
    as [->|(Hle & Hgt & Et & Es & Esi & Ea & Ec & Eq & Hlog)].
  { exists A. split; [|by apply adds_same]. eapply netSim_frame; eauto. }
  destruct (HP) as [Ht [b Hv] _ _ _ _].
  destruct (sm_snaps _ _ HN _ Hin) as (j' & r & p & e & Hjj & Hco). simpl in Hjj, Hco.
  apply Nat2Z.inj in Hjj as <-.
  destruct (installed_adopted _ _ _ _ _ _ _ _ _ _ _ HN Hj Hwf Hco Hv Hgt Esi Hlog)
    as (F' & b' & Had & Hv' & Hb').
  destruct Hco as [(_ & Hw & Hterm) Hld Hp Hcp [Hlast _] [Hi _] _].
  assert (is_Term args = terms A j) as ET by lia. rewrite ET in *.
  assert (p ≠ []) as Hne by (intros ->; done).
  destruct (peerSim_adopt A j rf rf' (terms A j) r p p F' b')
    as (A' & Hev & HA' & El & Ev & _ & _ & HP'); auto; [congruence| | | |].
  - rewrite Eq. intros m ->%list_elem_of_singleton. apply msgOk_snapshot.
  - rewrite Ec. lia.
  - intros sf _. simpl. rewrite Ea, Ec, (view_base _ _ _ Hv'). repeat split; lia.
  - exists A'. split; [|by apply adds_same].
    eapply netSim_local; [exact HN|done|done|rewrite El; apply HN| |done|exact Hj|done
      |congruence|by left..].
    intros T r'. rewrite El. eauto.
Qed.

(** ** Every step is simulated *)

Lemma sentSim_aeOk A q : (∀ T r, leads A T = Some r → goodLog (l_log r)) → sentSim A q → aeOk q.2.1.
Proof.
  intros HG (j & r & p & k & e & _ & [_ [Hr _] Hp (Hk & He & _) Hes _ _]).
  assert (p ≠ []) as Hne by (intros ->; done).
  pose proof (goodLog_prefix _ _ (HG _ _ Hr) Hp Hne) as [Hi _ H1].
  assert (contiguous (ae_PrevLogIndex q.2.1 + 1) (ae_Entries q.2.1)) as Hc.
  { rewrite Hes, Hk. replace (Z.of_nat k + 1) with (0 + Z.of_nat (S k)) by lia. by apply contiguous_drop. }
  split; [done|]. intros x Hx Hx1. apply list_elem_of_lookup in Hx as [m Hm].
  pose proof (Hc _ _ Hm). rewrite Hes, lookup_drop in Hm. apply H1.
  rewrite <- Hm. f_equal. lia.
Qed.

Lemma clusterOk_local c i rf s rf' s' : clusterOk n c → nodes c !! i = Some (rf, s) →
  local_step rf s rf' s' → clusterOk n (withPeer i rf' s' c).
Proof.
  intros Hok Hi Hst. destruct c as [ns ph rq rp bs]. eapply clusterOk_step; [exact Hok|].
  by eapply cs_local.
Qed.

Lemma net_cluster_step A c c' : netSim A c → clusterOk n (core c) → net_step true c c' →
  clusterOk n (core c').
Proof.
  intros HN Hok [ev Hst]. destruct Hst; simpl in *;
    try (eapply clusterOk_local; [done|done|by eauto using local_step]).
  - eapply clusterOk_step; [done|by apply cs_election].
  - eapply clusterOk_step; [done|by eapply cs_restart].
  - done.
  - eapply clusterOk_local; [done|done|eapply ls_append; [|done]].
    eapply (sentSim_aeOk A (_, (args, next))); [apply HN|]. by apply (sm_sent _ _ HN).
  - eapply clusterOk_local; [done|done|].
    destruct (sm_snaps _ _ HN (Z.of_nat j, args)) as (j' & r & p & e & _ & Hco); [done|].
    destruct Hco as [_ _ _ _ [Hl _] [Hi _] [_ Hd]]. simpl in *.
    eapply ls_install; [|exact Hd|done]. unfold isOk. rewrite Hi. destruct p; [done|].
    rewrite len_cons. pose proof (len_nonneg p). lia.
Qed.

Lemma net_step_sim A ev c c' : netSim A c → clusterOk n (core c) → nstep true ev c c' →
  ∃ A', netSim A' c' ∧ adds A A' (startedBy ev).
Proof.
  intros HN Hok Hst.
  assert (∀ i rf s, nodes (core c) !! i = Some (rf, s) →
    (i < n)%nat ∧ nodeInv rf s ∧ me rf = Z.of_nat i ∧ peers rf = n ∧ peerSim A i rf) as Hnode.
  { intros i rf s Hi. destruct (co_len _ _ Hok) as [Hn Hp]. pose proof (lookup_lt_Some _ _ _ Hi).
    destruct (lookup_lt_is_Some_2 (phases (core c)) i) as [p Hpi]; [lia|].
    destruct (co_node _ _ Hok _ _ _ _ Hi Hpi) as [HI [? ?] _ _ _].
    split; [lia|]. do 3 (split; [done|]). apply (sm_peer _ _ HN _ _ _ Hi). }
  destruct Hst as [c c' st an sn sa de Hst|i now rf s rf' ns ph rq rp bs st an sn sa de Hi Hr
    |i rf s reqs c st an sn sa de Hi Hs Hr
    |j now args next rf s rf' reply c st an sn sa de Hi Hin Hck Hr
    |i server args next reply rf s rf' c st an sn sa de Hi Hin Hld Hok' Hr
    |i server args next reply rf s rf' a c st an sn sa de Hi Hin Hld Hno Hr
    |j args rf s rf' reply c st an sn sa de Hi Hin Hr
    |i server args reply rf s rf' b c st an sn sa de Hi Hin Hld Hr
    |i command rf s rf' r c st an sn sa de Hi Hr|i index snap rf s rf' c st an sn sa de Hi Hne Hidx Hr
    |i rf s rf' c st an sn sa de Hi Hs Hr|i rf s rf' c st an sn sa de Hi Hr
    |i rf s rf' m c st an sn sa de Hi Hr|i rf s c st an sn sa de Hi]; simpl in *;
    [by eapply sim_election|exists A; split; [by eapply sim_restart|by apply adds_same]| |..]; destruct (Hnode _ _ _ Hi) as (Hin' & HI & Hme & Hpe & HP);
    pose proof (ni_wf _ _ HI) as Hwf.
  - exists A. split; [|by apply adds_same]. destruct (HN) as [? ? ? ? ? ? ? HS ? ? ?]. split; auto. intros q [Hq|Hq]%elem_of_app; [|by apply HS].
    by eapply (sentSim_sync A _ i rf s reqs).
  - eapply sim_append; eauto.
  - exists A. split; [|by apply adds_same]. destruct (sm_answers _ _ HN _ _ Hin) as ((j & _ & _ & _ & _ & Hj & _) & _ & _ & _ & Hack).
    destruct (Hack Hok') as (m' & Hm' & Ha). simpl in *. destruct Hld as (Hs & _ & Hterm).
    rewrite <- Hterm, (ps_term _ _ _ HP) in Ha.
    eapply netSim_frame; [exact HN|exact Hi|by eapply peerSim_success| |by left..].
    unfold syncSuccess in Hr. inv_ret. case_decide; inv_ret; done.
  - exists A. split; [|by apply adds_same]. pose proof (sm_answers _ _ HN _ _ Hin) as Hans.
    destruct (Hans) as (_ & Hp0 & Hl0 & _).
    destruct (handleFailedReply_view _ _ _ _ _ _ Hwf Hp0 Hl0 Hr) as [[nx ->] _].
    eapply netSim_frame; [exact HN|exact Hi|by eapply peerSim_frame|done|by left|by left| |by left].
    intros q [Hq|?]%elem_of_app; [right|by left]. by eapply snapSim_failed.
  - eapply sim_install; eauto.
  - exists A. split; [|by apply adds_same]. unfold snapshotReplied in Hr. case_decide; inv_ret.
    + eapply netSim_frame; [exact HN|exact Hi|done|done|by left..].
    + eapply netSim_frame; [exact HN|exact Hi|by eapply peerSim_frame|done|by left..].
  - eapply sim_start_command; eauto.
  - exists A. split; [|by apply adds_same]. pose proof (goodLog_peer A i (sm_inv _ _ HN) (sm_good _ _ HN)) as HG.
    destruct (peerSim_snapshot _ _ _ _ _ _ HP Hwf HG Hidx Hr) as [HP' Es].
    eapply netSim_frame; [exact HN|exact Hi|done|by rewrite Es|by left..].
  - exists A. split; [|by apply adds_same]. destruct (peerSim_commit _ _ _ _ HP (sm_inv _ _ HN) Hwf Hpe Hs Hr) as [HP' Es].
    eapply netSim_frame; [exact HN|exact Hi|done|by rewrite Es|by left..].
  - exists A. split; [|by apply adds_same]. destruct (peerSim_apply _ _ _ _ HP Hwf Hr) as [HP' Es].
    eapply netSim_frame; [exact HN|exact Hi|done|by rewrite Es|by left..].
  - exists A. split; [|by apply adds_same]. unfold applySend in Hr. destruct (applyQueue rf) as [|m0 q0] eqn:Hq; simpl in Hr; [done|].
    injection Hr as -> <-. destruct HP as [Ht [b Hv] Hc0 Hs Hl Hqs].
    eapply netSim_frame; [exact HN|exact Hi| |done|by left|by left|by left|].
    + split; auto; [exists b; by eapply view_frame|]. intros x Hx. apply Hqs. rewrite Hq. by right.
    + intros k x [Heq|?]%elem_of_cons; [right|by left]. injection Heq as -> ->. apply Hqs. rewrite Hq. by left.
  - exists A. split; [|by apply adds_same]. eapply netSim_frame; [exact HN|exact Hi|by eapply peerSim_frame|done|by left..].
Qed.

(** ** The beginning *)

Lemma abs_init_committed : (0 < n)%nat → committed n (abs_init (rootEntry (Cmd := Cmd)) n) 1 [rootEntry].
Proof.
  intros Hn. set (r := mkLead n [rootEntry (Cmd := Cmd)] [rootEntry]).
  assert (leads (abs_init (rootEntry (Cmd := Cmd)) n) 1 = Some r) as Hr by apply fn_lookup_insert.
  exists 1, 1%nat, r. split; [done|]. split; [|done]. exists r, (seq 0 n). split; [done|].
  split; [done|]. split.
  - split; [apply NoDup_seq|]. split; [intros v ?%elem_of_seq; lia|]. unfold len. rewrite length_seq.
    pose proof (Z.div_lt (Z.of_nat n) 2). lia.
  - intros v Hv. exists 1%nat. split; [done|]. simpl. apply list_elem_of_fmap. eauto.
Qed.

Lemma netSim_init c : net_init n c → netSim (abs_init (rootEntry (Cmd := Cmd)) n) c.
Proof.
  intros [(Hl & Hp & Hrq & Hrp & Hb & Hnodes) (Hst & Han & Hsn & _ & Hde)].
  assert (goodLog (Cmd := Cmd) [rootEntry]) as HG.
  { split; [by apply contiguous_single|done|done]. }
  split; rewrite ?Hrq, ?Hb, ?Hst, ?Han, ?Hsn, ?Hde; try (by intros; exfalso; eapply not_elem_of_nil);
    try (by intros ??%not_elem_of_nil).
  - by apply absInv_init.
  - intros T r Hr. simpl in Hr. destruct (decide (1 = T)) as [<-|HT].
    + rewrite fn_lookup_insert in Hr. by injection Hr as <-.
    + by rewrite fn_lookup_insert_ne in Hr.
  - intros i rf s Hi. pose proof (lookup_lt_Some _ _ _ Hi) as Hin. destruct (Hnodes _ _ _ Hi) as (-> & now & Hr).
    injection Hr as <-. split; simpl; try done.
    + exists 0%nat. split; [by exists rootEntry, rootEntry|done|by left].
    + exists 1%nat. split; [done|]. split; [apply abs_init_committed; lia|done].
    + by intros m ?%not_elem_of_nil.
  - intros i rf s p _ Hpi. rewrite Hp in Hpi. by apply lookup_replicate in Hpi as [-> _].
  - intros v x T vlog Hv. by apply not_elem_of_nil in Hv.
Qed.

Lemma net_runs_sim cr c : net_runs true n cr c → clusterOk n (core c) ∧ ∃ A, netSim A c ∧ startedIn cr A.
Proof.
  induction 1 as [c Hi|cr ev c c' _ (Hok & A & HN & Hcr) Hst].
  - split; [apply clusterOk_init, Hi|]. eexists. split; [by apply netSim_init|].
    intros T r Hr. simpl in Hr. destruct (decide (1 = T)) as [<-|HT].
    + rewrite fn_lookup_insert in Hr. by injection Hr as <-.
    + by rewrite fn_lookup_insert_ne in Hr.
  - destruct (net_step_sim _ _ _ _ HN Hok Hst) as (A' & HN' & Ha).
    split; [eapply net_cluster_step; [exact HN|exact Hok|by exists ev]|]. exists A'. split; [done|by apply Ha].
Qed.

Lemma net_reachable_sim c : net_reachable true n c → clusterOk n (core c) ∧ ∃ A, netSim A c.
Proof.
  intros [cr Hr]%net_reachable_runs. destruct (net_runs_sim _ _ Hr) as (Hok & A & HN & _). eauto.
Qed.

(** Two committed commands with the same number are the same command. *)
Lemma committed_command A t t' p p' (e e' : logEntry Cmd) : absInv Term rootEntry n A →
  committed n A t (p ++ [e]) → committed n A t' (p' ++ [e']) →
  Type_ e = LT_Normal → Type_ e' = LT_Normal → normals (p ++ [e]) = normals (p' ++ [e']) → e = e'.
Proof.
  intros HA Hc Hc' Ht Ht' Hn.
  assert (∀ q q' (x x' : logEntry Cmd), q ++ [x] `prefix_of` q' ++ [x'] → Type_ x = LT_Normal →
    Type_ x' = LT_Normal → normals (q ++ [x]) = normals (q' ++ [x']) → x = x') as Hw.
  { intros q q' x x' Hpre Hx Hx' Hnn.
    assert ((q' ++ [x']) !! length q = Some x) as H1.
    { eapply prefix_lookup_Some; [|exact Hpre]. by rewrite list_lookup_middle. }
    assert ((q' ++ [x']) !! length q' = Some x') as H2 by (by rewrite list_lookup_middle).
    assert (length q = length q') as Hlen.
    { eapply (normals_take_inj (q' ++ [x'])); eauto; [by rewrite Hx|by rewrite Hx'|].
      apply prefix_is_take in Hpre. rewrite length_app, Nat.add_1_r in Hpre.
      rewrite <- Hpre, Hnn, take_ge; [done|]. rewrite length_app. simpl. lia. }
    congruence. }
  destruct (committed_comparable _ _ _ _ HA _ _ _ _ Hc Hc') as [Hpre|Hpre]; [by eapply Hw|].
  symmetry. eapply Hw; eauto.
Qed.

(** Commands that were read at the same index. *)
Lemma delivered_command A c i j m m' : netSim A c → (i, m) ∈ delivered c → (j, m') ∈ delivered c →
  CommandValid m = true → CommandValid m' = true → CommandIndex m = CommandIndex m' →
  msgCommand m = msgCommand m'.
Proof.
  intros HN Hm Hm' Hv Hv' Hi.
  destruct (sm_delivered _ _ HN _ _ Hm Hv) as (t & p & e & Hc & Ht & En & Ec).
  destruct (sm_delivered _ _ HN _ _ Hm' Hv') as (t' & p' & e' & Hc' & Ht' & En' & Ec').
  rewrite Ec, Ec'. f_equal. eapply committed_command; eauto; [apply HN|congruence].
Qed.

(** The commands up to an entry of a committed log. *)
Lemma commandsOf_prefix p e (l : list (logEntry Cmd)) k : p ++ [e] `prefix_of` l → Type_ e = LT_Normal →
  normals (p ++ [e]) = Z.of_nat k + 1 → commandsOf l !! k = Some (Command e).
Proof.
  intros [q ->] Ht En. rewrite commandsOf_app, commandsOf_app.
  assert (commandsOf [e] = [Command e]) as E.
  { unfold commandsOf. by rewrite filter_cons_True by (by rewrite Ht). }
  rewrite E. assert (length (commandsOf p) = k) as <-.
  { rewrite (normals_app p [e]), <- (commandsOf_len p), <- (commandsOf_len [e]), E in En. unfold len in En.
    simpl in En. lia. }
  rewrite <- app_assoc. by apply list_lookup_middle.
Qed.

(** What services read is what was started: a history of commands that were read
    at the indices 1, 2, ... is a part of the commands that were started, in the
    order in which they were started. *)
Theorem history_in_start_order cr c hist : net_runs true n cr c →
  (∀ k x, hist !! k = Some x → ∃ i m, (i, m) ∈ delivered c ∧ CommandValid m = true ∧
     CommandIndex m = Z.of_nat k + 1 ∧ msgCommand m = x) →
  hist `sublist_of` cr.
Proof.
  intros (_ & A & HN & Hcr)%net_runs_sim Hread. pose proof (sm_inv _ _ HN) as HA.
  assert (∀ k x, hist !! k = Some x → ∃ t p e, committed n A t (p ++ [e]) ∧ Type_ e = LT_Normal ∧
    normals (p ++ [e]) = Z.of_nat k + 1 ∧ x = Command e) as Hcom.
  { intros k x Hk. destruct (Hread k x Hk) as (i & m & Hm & Hv & <- & <-).
    destruct (sm_delivered _ _ HN _ _ Hm Hv) as (t & p & e & ? & ? & ? & ?). exists t, p, e. auto. }
  destruct (last hist) as [y|] eqn:Hy; [|apply last_None in Hy as ->; apply sublist_nil_l].
  rewrite last_lookup in Hy. pose proof (lookup_lt_Some _ _ _ Hy) as Hlt.
  destruct (Hcom _ _ Hy) as (t & p & e & Hc & Ht & En & ->).
  assert (hist = commandsOf (p ++ [e])) as ->.
  { apply (list_eq_same_length _ _ (length hist)); [|done|].
    { pose proof (commandsOf_len (p ++ [e])). unfold len in *. lia. }
    intros k x x' _ Hk Hk'. destruct (Hcom _ _ Hk) as (t' & p' & e' & Hc' & Ht' & En' & ->).
    destruct (committed_comparable _ _ _ _ HA _ _ _ _ Hc' Hc) as [Hpre|Hpre].
    - pose proof (commandsOf_prefix _ _ _ _ Hpre Ht' En'). congruence.
    - assert (k = pred (length hist)) as ->.
      { apply lookup_lt_Some in Hk. pose proof (normals_prefix _ _ Hpre). lia. }
      rewrite (commandsOf_prefix p e (p ++ [e]) _ ltac:(done) Ht En) in Hk'. congruence. }
  destruct Hc as (t0 & m & r & _ & _ & Hr & [q Hq]).
  etrans; [|apply (Hcr _ _ Hr)]. rewrite <- (take_drop m (l_log r)), Hq, !commandsOf_app.
  by do 2 apply sublist_inserts_r.
Qed.

(** C1: state machine safety. In every run of a cluster, with messages lost,
    delayed, repeated and reordered, peers that crash and restart, snapshots taken
    and installed, two services never read different commands at the same index.
    The run may not use the shortcut that [firstChecked] excludes;
    [first_noop_unchecked] shows why. The runs are those of [nstep]: nothing comes
    between the last test of [cancelToken] of an election and its lock, an old
    election has ended before the next one of the peer starts, and the tasks of a
    leader act on answers of followers only while it still leads in their term. *)
Theorem state_machine_safety c i j m m' :
  net_reachable true n c → (i, m) ∈ delivered c → (j, m') ∈ delivered c →
  CommandValid m = true → CommandValid m' = true → CommandIndex m = CommandIndex m' →
  msgCommand m = msgCommand m'.
Proof. intros [_ [A HN]]%net_reachable_sim. by apply (delivered_command A). Qed.

(** C5: Log Matching. When the logs of two peers have an entry with the same index
    and term, they agree on that entry and on every entry before it, down to the
    snapshots of the two peers. The runs are those of [state_machine_safety], with
    [firstChecked] and the guards of [nstep]. *)
Theorem log_matching_property c i j rf rf' s s' e e' :
  net_reachable true n c → nodes (core c) !! i = Some (rf, s) → nodes (core c) !! j = Some (rf', s') →
  e ∈ log rf → e' ∈ log rf' → Index e = Index e' → Term e = Term e' →
  ∀ x x', x ∈ log rf → x' ∈ log rf' → Index x = Index x' → Index x ≤ Index e →
    base rf < Index x → base rf' < Index x → x = x'.
Proof.
  intros [Hok [A HN]]%net_reachable_sim Hi Hj He He' Eidx Et x x' Hx Hx' Eix Hle Hb Hb'.
  assert (∀ k r sk, nodes (core c) !! k = Some (r, sk) → wf r) as Hwfs.
  { intros k r sk Hk. destruct (co_len _ _ Hok). pose proof (lookup_lt_Some _ _ _ Hk).
    destruct (lookup_lt_is_Some_2 (phases (core c)) k) as [p Hp]; [lia|].
    apply (no_inv _ _ _ _ _ _ (co_node _ _ Hok _ _ _ _ Hk Hp)). }
  assert (∀ k r sk y, nodes (core c) !! k = Some (r, sk) → y ∈ log r →
    ∃ y0, logs A k !! Z.to_nat (Index y) = Some y0 ∧ Term y0 = Term y ∧ (base r < Index y → y0 = y)) as Hlog.
  { intros k r sk y Hk [m Hm]%list_elem_of_lookup. destruct (sm_peer _ _ HN _ _ _ Hk) as [_ [b Hv] _ _ _ _].
    pose proof (wf_lookup _ _ _ (Hwfs _ _ _ Hk) Hm) as Hidx. pose proof (view_base _ _ _ Hv) as Eb.
    destruct (view_term _ _ _ _ _ Hv Hm) as (y0 & Hy0 & Ht). exists y0.
    replace (Z.to_nat (Index y)) with (b + m)%nat by lia. split; [done|]. split; [done|].
    intros Hlt. rewrite (view_lookup _ _ _ _ Hv) in Hm by lia. congruence. }
  destruct (Hlog _ _ _ _ Hi He) as (e0 & He0 & Ht0 & _).
  destruct (Hlog _ _ _ _ Hj He') as (e1 & He1 & Ht1 & _).
  destruct (Hlog _ _ _ _ Hi Hx) as (x0 & Hx0 & _ & Ex0). destruct (Hlog _ _ _ _ Hj Hx') as (x1 & Hx1 & _ & Ex1).
  rewrite <- Ex0, <- Ex1 by lia. rewrite <- Eidx in He1. rewrite <- Eix in Hx1.
  pose proof (sm_inv _ _ HN) as HA.
  pose proof (log_matching Term A _ _ _ _ _ (lo_matched _ _ _ _ (ai_log _ _ _ _ HA i))
    (lo_matched _ _ _ _ (ai_log _ _ _ _ HA j)) He0 He1 ltac:(congruence)) as Hsame.
  apply (f_equal (lookup (Z.to_nat (Index x)))) in Hsame.
  rewrite !lookup_take_lt in Hsame by lia. congruence.
Qed.

End sim.

(** ** Two runs *)

Section runs.
#[local] Existing Instance Zcodec.
#[local] Existing Instance Zcodec_laws.

Definition net0 : net Z :=
  mkNet (mkCluster [(peer0 0, 0); (peer0 1, 0); (peer0 2, 0)] (replicate 3 Idle) [] [] []) [] [] [] [] [].

Lemma run_reachable chk acts c : run chk acts net0 = Some c → net_reachable chk 3 c.
Proof.
  intros Hr. exists net0. split; [|by eapply run_steps]. split; [|done]. do 5 (split; [done|]).
  intros [|[|[|i]]] rf s Hi; simplify_eq/=; (split; [done|]); exists 0; reflexivity.
Qed.

Definition sec : Z := 10 ^ 9.

(** Peer 0 is elected, replicates a command on peer 1, and both apply it. *)
Definition safeRun : list (action Z) :=
  [A_Timeout 0 sec; A_Campaign 0; A_Vote 1 0 sec; A_Count 0 0; A_Promote 0; A_Start 0 (Some 7);
   A_Sync 0; A_Append 1 0 sec; A_Success 0 0; A_Commit 0; A_Apply 0; A_Send 0;
   A_Sync 0; A_Append 1 0 sec; A_Apply 1; A_Send 1].

Definition safeNet : net Z := default net0 (run true safeRun net0).

Lemma safeNet_reachable : net_reachable true 3 safeNet.
Proof. apply (run_reachable true safeRun). vm_compute. reflexivity. Qed.

Lemma safeNet_delivered :
  delivered safeNet = [(1%nat, commandMsg (Some 7) 1); (0%nat, commandMsg (Some 7) 1)].
Proof. vm_compute. reflexivity. Qed.

Lemma state_machine_safety_witness : ∃ m m', net_reachable true 3 safeNet ∧
  (0%nat, m) ∈ delivered safeNet ∧ (1%nat, m') ∈ delivered safeNet ∧
  CommandIndex m = 1 ∧ CommandIndex m' = 1 ∧ msgCommand m = msgCommand m'.
Proof.
  assert ((0%nat, commandMsg (Some 7) 1) ∈ delivered safeNet) as H0
    by (rewrite safeNet_delivered; right; left).
  assert ((1%nat, commandMsg (Some 7) 1) ∈ delivered safeNet) as H1
    by (rewrite safeNet_delivered; left).
  exists (commandMsg (Some 7) 1), (commandMsg (Some 7) 1).
  split; [exact safeNet_reachable|]. split; [exact H0|]. split; [exact H1|]. do 2 (split; [reflexivity|]).
  apply (state_machine_safety 3 safeNet 0 1);
    [exact safeNet_reachable|exact H0|exact H1|reflexivity|reflexivity|reflexivity].
Defined.

Definition peerOf (i : nat) (c : net Z) : Raft Z := default (peer0 0) (fst <$> nodes (core c) !! i).

Lemma log_matching_property_witness :
  let e := mkEntry 2 LT_Noop 1 None in
  net_reachable true 3 safeNet ∧ e ∈ log (peerOf 0 safeNet) ∧ e ∈ log (peerOf 1 safeNet) ∧
  ∀ x x', x ∈ log (peerOf 0 safeNet) → x' ∈ log (peerOf 1 safeNet) → Index x = Index x' →
    Index x ≤ Index e → baseL (log (peerOf 0 safeNet)) < Index x →
    baseL (log (peerOf 1 safeNet)) < Index x → x = x'.
Proof.
  intros e.
  assert (log (peerOf 0 safeNet) = [mkEntry 1 LT_Noop 0 None; e; mkEntry 2 LT_Normal 2 (Some 7)]) as H0
    by (vm_compute; reflexivity).
  assert (log (peerOf 1 safeNet) = [mkEntry 1 LT_Noop 0 None; e; mkEntry 2 LT_Normal 2 (Some 7)]) as H1
    by (vm_compute; reflexivity).
  assert (e ∈ log (peerOf 0 safeNet)) as He0 by (rewrite H0; right; left).
  assert (e ∈ log (peerOf 1 safeNet)) as He1 by (rewrite H1; right; left).
  split; [exact safeNet_reachable|]. split; [exact He0|]. split; [exact He1|].
  assert (nodes (core safeNet) !! 0%nat = Some (peerOf 0 safeNet, 1)) as N0 by (vm_compute; reflexivity).
  assert (nodes (core safeNet) !! 1%nat = Some (peerOf 1 safeNet, 1)) as N1 by (vm_compute; reflexivity).
  apply (log_matching_property 3 safeNet 0 1 _ _ 1 1 e e);
    [exact safeNet_reachable|exact N0|exact N1|exact He0|exact He1|reflexivity|reflexivity].
Defined.

(** Peer 0 leads term 2 and appends a command that nobody gets; peer 1 leads
    term 3.  Peer 0, created with [lastApplied = 1], takes the fix package of
    peer 1 after entry 1 although its own entry 1 is the no-op of term 2; with
    its answer the command 7 is committed, and peer 1 applies it.  Then peer 0
    restarts, with [lastApplied = 0], and gets the very first request of peer 1
    again: the terms at index 1 differ, so it drops the committed entry.
    Elected by peer 2, it commits and applies the command 8. *)
Definition unsafeRun : list (action Z) :=
  [A_Timeout 0 sec; A_Campaign 0; A_Vote 2 0 sec; A_Count 0 0; A_Promote 0; A_Start 0 (Some 1);
   A_Timeout 1 sec; A_Campaign 1; A_Timeout 1 (2 * sec); A_Campaign 1; A_Vote 2 0 (3 * sec);
   A_Count 1 0; A_Promote 1;
   A_Sync 1; A_Start 1 (Some 7); A_Append 0 0 (3 * sec); A_Failed 1 0; A_Sync 1;
   A_Append 0 0 (3 * sec); A_Success 1 0; A_Commit 1; A_Apply 1; A_Send 1;
   A_Restart 0 (4 * sec); A_Append 0 2 (4 * sec);
   A_Timeout 0 (5 * sec); A_Campaign 0; A_Vote 2 0 (5 * sec); A_Count 0 0; A_Promote 0;
   A_Start 0 (Some 8); A_Sync 0; A_Append 2 1 (5 * sec); A_Failed 0 0; A_Sync 0;
   A_Append 2 1 (6 * sec); A_Success 0 0; A_Commit 0; A_Apply 0; A_Send 0].

Definition unsafeNet : net Z := default net0 (run false unsafeRun net0).

(** C25: what the missing check of entry 1 costs.  There is a run in which the
    services of two peers read different commands at index 1.  The only step of
    it that [state_machine_safety] excludes is the fix package that a new peer
    accepts after an entry 1 of another leader. *)
Theorem first_noop_unchecked : ∃ m m', net_reachable false 3 unsafeNet ∧
  (1%nat, m) ∈ delivered unsafeNet ∧ (0%nat, m') ∈ delivered unsafeNet ∧
  CommandValid m = true ∧ CommandValid m' = true ∧ CommandIndex m = CommandIndex m' ∧
  msgCommand m ≠ msgCommand m'.
Proof.
  assert (delivered unsafeNet = [(0%nat, commandMsg (Some 8) 1); (1%nat, commandMsg (Some 7) 1)]) as Hd
    by (vm_compute; reflexivity).
  exists (commandMsg (Some 7) 1), (commandMsg (Some 8) 1). rewrite Hd.
  split; [apply (run_reachable false unsafeRun); vm_compute; reflexivity|].
  clear Hd. split; [right; left|]. split; [left|]. do 3 (split; [reflexivity|]). discriminate.
Qed.

End runs.
