(* ===== verification/KVSrv.v ===== *)
(** * The single-machine key/value server ([src/kvsrv])

    The server, its clerks, and a network in which a call may be lost before it
    is executed or after: the clerk then calls again with the same arguments.
    An [Append] carries one bit, [Opstate], that the clerk flips for each new
    [Append]; the server uses it to recognise a repeated one.

    [exactly_once] is the refinement: every history of the system is one of an
    atomic key/value store in which each [Append] and each [Get] takes effect
    exactly once between its call and its return.  A [Put] has no such bit, and
    the store it refines may repeat a pending [Put]; [put_retry_not_linearizable]
    shows that this is visible. *)

From S2P Require Import Prelude.
Local Open Scope Z_scope.

(** ** [common.go] *)

Record PutAppendArgs := mkPutAppendArgs {
  pa_Key : string;
  pa_Value : string;
  pa_Id : Z;
  pa_Opstate : bool;
}.

Record GetArgs := mkGetArgs { ga_Key : string; ga_Id : Z }.

(** ** [server.go] *)

Record KVServer := mkKVServer {
  mp : gmap string string;
  cliMap : gmap Z bool;
  dupMap : gmap Z string;
}.

Definition StartKVServer : KVServer := mkKVServer ∅ ∅ ∅.

Definition Get (args : GetArgs) (kv : KVServer) : KVServer * string :=
  (kv, map_get "" (mp kv) (ga_Key args)).

Definition Put (args : PutAppendArgs) (kv : KVServer) : KVServer * string :=
  (mkKVServer (<[pa_Key args := pa_Value args]> (mp kv)) (cliMap kv) (dupMap kv), "").

Definition Append (args : PutAppendArgs) (kv : KVServer) : KVServer * string :=
  let num := map_get false (cliMap kv) (pa_Id args) in
  if decide (num ≠ pa_Opstate args) then (kv, map_get "" (dupMap kv) (pa_Id args))
  else
    let old := map_get "" (mp kv) (pa_Key args) in
    (mkKVServer (<[pa_Key args := String.append old (pa_Value args)]> (mp kv))
       (<[pa_Id args := negb (map_get false (cliMap kv) (pa_Id args))]> (cliMap kv))
       (<[pa_Id args := old]> (dupMap kv)), old).

(** ** [client.go] *)

Record Clerk := mkClerk { id : Z; opstate : bool }.

Definition MakeClerk (nrand : Z) : Clerk := mkClerk nrand false.

(** The operation that a caller asks for, and the RPC that the clerk repeats
    until it succeeds. *)
Inductive op :=
| OpGet (key : string)
| OpPut (key value : string)
| OpAppend (key value : string).

Inductive call :=
| CallGet (args : GetArgs)
| CallPut (args : PutAppendArgs)
| CallAppend (args : PutAppendArgs).

(** The beginning of [Get] and [PutAppend], up to the retry loop. *)
Definition clerk_begin (o : op) (ck : Clerk) : Clerk * call :=
  match o with
  | OpGet key => (ck, CallGet (mkGetArgs key (id ck)))
  | OpPut key value => (ck, CallPut (mkPutAppendArgs key value (id ck) (opstate ck)))
  | OpAppend key value =>
      (mkClerk (id ck) (negb (opstate ck)),
       CallAppend (mkPutAppendArgs key value (id ck) (opstate ck)))
  end.

Definition serve (c : call) (kv : KVServer) : KVServer * string :=
  match c with
  | CallGet args => Get args kv
  | CallPut args => Put args kv
  | CallAppend args => Append args kv
  end.

(** ** The system: one server, any number of clerks

    A step of the retry loop either executes the call or loses it, and then
    either delivers the reply ([ok]) or not.  A call that was neither executed
    nor answered leaves the system as it is. *)

Record sys := mkSys {
  server : KVServer;
  clerks : gmap Z (Clerk * option call);
}.

Inductive label := Invoke (c : Z) (o : op) | Return (c : Z) (v : string).

(** [puts]: whether the clerks call [Put] at all. *)
Definition mayInvoke (puts : bool) (o : op) : Prop :=
  match o with OpPut _ _ => puts = true | _ => True end.

Inductive sys_step (puts : bool) : sys → option label → sys → Prop :=
| st_invoke c o ck ck' cl kv m :
    m !! c = Some (ck, None) → mayInvoke puts o → clerk_begin o ck = (ck', cl) →
    sys_step puts (mkSys kv m) (Some (Invoke c o)) (mkSys kv (<[c := (ck', Some cl)]> m))
| st_noreply c ck cl kv kv' v m :
    m !! c = Some (ck, Some cl) → serve cl kv = (kv', v) →
    sys_step puts (mkSys kv m) None (mkSys kv' m)
| st_reply c ck cl kv kv' v m :
    m !! c = Some (ck, Some cl) → serve cl kv = (kv', v) →
    sys_step puts (mkSys kv m) (Some (Return c v)) (mkSys kv' (<[c := (ck, None)]> m)).

(** Clerks with distinct ids, none of which has done anything. *)
Definition sys_init (ids : gset Z) : sys :=
  mkSys StartKVServer (set_to_map (λ i, (i, (MakeClerk i, None))) ids).

(** The observable history of a run. *)
Inductive run {S : Type} (step : S → option label → S → Prop) : S → list label → S → Prop :=
| run_nil s : run step s [] s
| run_cons s l s' tr s'' :
    step s l s' → run step s' tr s'' →
    run step s (match l with Some x => x :: tr | None => tr end) s''.

(** ** The specification: an atomic store *)

Inductive client := Idle | Todo (o : op) | Done (o : op) (v : string).

Record spec := mkSpec { store : gmap string string; clients : gmap Z client }.

Definition atomic (o : op) (s : gmap string string) : gmap string string * string :=
  match o with
  | OpGet k => (s, map_get "" s k)
  | OpPut k v => (<[k := v]> s, "")
  | OpAppend k v => (<[k := String.append (map_get "" s k) v]> s, map_get "" s k)
  end.

Inductive spec_step (puts : bool) : spec → option label → spec → Prop :=
| sp_invoke c o s m :
    m !! c = Some Idle → spec_step puts (mkSpec s m) (Some (Invoke c o)) (mkSpec s (<[c := Todo o]> m))
| sp_effect c o s s' v m :
    m !! c = Some (Todo o) → atomic o s = (s', v) →
    spec_step puts (mkSpec s m) None (mkSpec s' (<[c := Done o v]> m))
| sp_again c k v r s m :
    puts = true → m !! c = Some (Done (OpPut k v) r) →
    spec_step puts (mkSpec s m) None (mkSpec (<[k := v]> s) m)
| sp_return c o v s m :
    m !! c = Some (Done o v) →
    spec_step puts (mkSpec s m) (Some (Return c v)) (mkSpec s (<[c := Idle]> m)).

Definition spec_init (ids : gset Z) : spec :=
  mkSpec ∅ (set_to_map (λ i, (i, Idle)) ids).

(** ** The simulation *)

(** One client: where its clerk is, what the server remembers of it, and where
    the specification is. *)
Definition clientRel (puts : bool) (kv : KVServer) (c : Z) (conc : Clerk * option call) (abs : client) : Prop :=
  id conc.1 = c ∧
  match conc.2, abs with
  | None, Idle => map_get false (cliMap kv) c = opstate conc.1
  | Some (CallGet a), Todo (OpGet k) =>
      map_get false (cliMap kv) c = opstate conc.1 ∧ ga_Key a = k
  | Some (CallPut a), Todo (OpPut k v) =>
      puts = true ∧ map_get false (cliMap kv) c = opstate conc.1 ∧ pa_Key a = k ∧ pa_Value a = v
  | Some (CallPut a), Done (OpPut k v) r =>
      puts = true ∧ map_get false (cliMap kv) c = opstate conc.1 ∧ pa_Key a = k ∧ pa_Value a = v ∧ r = ""
  | Some (CallAppend a), Todo (OpAppend k v) =>
      map_get false (cliMap kv) c = negb (opstate conc.1) ∧ pa_Id a = c ∧
      pa_Opstate a = negb (opstate conc.1) ∧ pa_Key a = k ∧ pa_Value a = v
  | Some (CallAppend a), Done (OpAppend k v) r =>
      map_get false (cliMap kv) c = opstate conc.1 ∧ pa_Id a = c ∧
      pa_Opstate a = negb (opstate conc.1) ∧ map_get "" (dupMap kv) c = r
  | _, _ => False
  end.

Record simulates (puts : bool) (s : sys) (a : spec) : Prop := {
  sim_store : store a = mp (server s);
  sim_dom : ∀ c, is_Some (clerks s !! c) ↔ is_Some (clients a !! c);
  sim_client : ∀ c x y, clerks s !! c = Some x → clients a !! c = Some y →
    clientRel puts (server s) c x y;
}.

(** What the server remembers of client [c] is the same in both states. *)
Definition sameMemory (kv kv' : KVServer) (c : Z) : Prop :=
  map_get false (cliMap kv') c = map_get false (cliMap kv) c ∧
  map_get "" (dupMap kv') c = map_get "" (dupMap kv) c.

Lemma clientRel_frame puts kv kv' c x y :
  sameMemory kv kv' c → clientRel puts kv c x y → clientRel puts kv' c x y.
Proof. unfold clientRel. by intros [-> ->]. Qed.

Lemma simulates_update puts kv m s cs kv' c x y x' y' :
  simulates puts (mkSys kv m) (mkSpec s cs) → m !! c = Some x → cs !! c = Some y →
  (∀ c', c' ≠ c → sameMemory kv kv' c') → clientRel puts kv' c x' y' →
  simulates puts (mkSys kv' (<[c := x']> m)) (mkSpec (mp kv') (<[c := y']> cs)).
Proof.
  intros [_ Hd Hc] Hx Hy Hsame Hrel. simpl in *. split; simpl; [done| |].
  - intros c'. destruct (decide (c' = c)) as [->|]; [by rewrite !lookup_insert_eq|].
    by rewrite !lookup_insert_ne.
  - intros c' x0 y0. destruct (decide (c' = c)) as [->|Hne].
    + rewrite !lookup_insert_eq. intros. by simplify_eq.
    + rewrite !lookup_insert_ne by done. intros. eapply clientRel_frame; eauto.
Qed.

Section sim.
Context (puts : bool).

Abbreviation silent a a' := (run (spec_step puts) a [] a').

Lemma silent_refl a : silent a a.
Proof. apply run_nil. Qed.

Lemma silent_one a a' : spec_step puts a None a' → silent a a'.
Proof. intros Hs. apply (run_cons _ a None a' [] a' Hs), run_nil. Qed.

Lemma silent_then a a' tr a'' : silent a a' → run (spec_step puts) a' tr a'' → run (spec_step puts) a tr a''.
Proof.
  intros Hr. remember [] as e eqn:He. revert He. induction Hr as [|s l s' tr' s'' Hs _ IH]; [done|].
  intros He Hr. destruct l; [done|]. apply (run_cons _ s None s'); auto.
Qed.

Lemma run_app a l tr a1 a2 :
  run (spec_step puts) a (match l with Some x => [x] | None => [] end) a1 →
  run (spec_step puts) a1 tr a2 →
  run (spec_step puts) a (match l with Some x => x :: tr | None => tr end) a2.
Proof.
  destruct l as [x|]; [|apply silent_then]. remember [x] as tr1 eqn:He. intros Hr. revert He.
  induction Hr as [|s l s' tr' s'' Hs Hr IH]; [done|]. intros He H2.
  destruct l as [y|]; [|apply (run_cons _ s None s'); auto]. injection He as -> ->.
  apply (run_cons _ s (Some x) s'); [done|]. by eapply silent_then.
Qed.

(** Executing a call once more: what the specification does when the reply is
    lost, and when it arrives. *)
Lemma serve_sim kv c ck cl y kv' v cs :
  clientRel puts kv c (ck, Some cl) y → cs !! c = Some y → serve cl kv = (kv', v) →
  (∀ c', c' ≠ c → sameMemory kv kv' c') ∧
  (∃ y', silent (mkSpec (mp kv) cs) (mkSpec (mp kv') (<[c := y']> cs)) ∧
         clientRel puts kv' c (ck, Some cl) y') ∧
  (∃ o, silent (mkSpec (mp kv) cs) (mkSpec (mp kv') (<[c := Done o v]> cs)) ∧
        clientRel puts kv' c (ck, None) Idle).
Proof.
  intros [Hid Hrel] Hy Hs. simpl in *.
  destruct cl as [a|a|a]; destruct y as [|[k|k w|k w]|[k|k w|k w] r]; try done; simpl in Hs.
  - destruct Hrel as [Hc <-]. injection Hs as <- <-. split; [done|]. split.
    + exists (Todo (OpGet (ga_Key a))). rewrite insert_id by done.
      split; [apply silent_refl|]. by repeat split.
    + exists (OpGet (ga_Key a)). split; [|done].
      by apply silent_one, sp_effect with (o := OpGet (ga_Key a)).
  - destruct Hrel as (Hp & Hc & <- & <-). injection Hs as <- <-. split; [done|].
    assert (silent (mkSpec (mp kv) cs) (mkSpec (<[pa_Key a := pa_Value a]> (mp kv))
      (<[c := Done (OpPut (pa_Key a) (pa_Value a)) ""]> cs))) as Heff
      by (by apply silent_one, sp_effect with (o := OpPut (pa_Key a) (pa_Value a))).
    split; eexists; (split; [exact Heff|]); split; simpl; auto.
  - destruct Hrel as (Hp & Hc & <- & <- & ->). injection Hs as <- <-. split; [done|].
    assert (silent (mkSpec (mp kv) cs) (mkSpec (<[pa_Key a := pa_Value a]> (mp kv))
      (<[c := Done (OpPut (pa_Key a) (pa_Value a)) ""]> cs))) as Hag.
    { rewrite (insert_id cs) by done. apply silent_one. by eapply sp_again. }
    split; eexists; (split; [exact Hag|]); split; simpl; auto.
  - destruct Hrel as (Hc & Hi & Ho & <- & <-). unfold Append in Hs.
    rewrite Hi, Hc, Ho, decide_False in Hs by tauto. injection Hs as <- <-. split.
    { intros c' ?. split; simpl; by rewrite map_get_insert_ne. }
    assert (silent (mkSpec (mp kv) cs)
      (mkSpec (<[pa_Key a := String.append (map_get "" (mp kv) (pa_Key a)) (pa_Value a)]> (mp kv))
        (<[c := Done (OpAppend (pa_Key a) (pa_Value a)) (map_get "" (mp kv) (pa_Key a))]> cs)))
      as Heff by (by apply silent_one, sp_effect with (o := OpAppend (pa_Key a) (pa_Value a))).
    split; eexists; (split; [exact Heff|]); (split; [done|]); simpl; rewrite ?map_get_insert_eq;
      by destruct (opstate ck).
  - destruct Hrel as (Hc & Hi & Ho & <-). unfold Append in Hs.
    rewrite Hi, Hc, Ho, decide_True in Hs by (by destruct (opstate ck)). injection Hs as <- <-.
    assert (silent (mkSpec (mp kv) cs) (mkSpec (mp kv) (<[c := Done (OpAppend k w)
      (map_get "" (dupMap kv) c)]> cs))) as Hst
      by (rewrite (insert_id cs) by done; apply silent_refl).
    split; [done|]. split; eexists; (split; [exact Hst|]); split; simpl; auto.
Qed.

(** Every step of the system is matched by the specification, with the same
    label. *)
Lemma step_sim s l s' a : simulates puts s a → sys_step puts s l s' →
  ∃ a', run (spec_step puts) a (match l with Some x => [x] | None => [] end) a' ∧
        simulates puts s' a'.
Proof.
  intros Hsim Hst. destruct a as [st cs]. pose proof (sim_store _ _ _ Hsim) as Hstore.
  assert (∀ c x, clerks s !! c = Some x → ∃ y, cs !! c = Some y ∧ clientRel puts (server s) c x y) as Hy.
  { intros c x Hx. destruct (proj1 (sim_dom _ _ _ Hsim c)) as [y Hy]; [by exists x|].
    exists y. split; [done|]. by eapply (sim_client _ _ _ Hsim). }
  destruct Hst as [c o ck ck' cl kv m Hc Hmay Hb|c ck cl kv kv' v m Hc Hs|c ck cl kv kv' v m Hc Hs];
    simpl in *; subst st; destruct (Hy _ _ Hc) as (y & Hcs & Hrel).
  - destruct y as [| |]; try (by destruct Hrel). destruct Hrel as [Hid Hrel]. simpl in Hid, Hrel.
    exists (mkSpec (mp kv) (<[c := Todo o]> cs)). split.
    { apply (run_cons _ _ (Some (Invoke c o)) _ [] _ (sp_invoke _ _ _ _ _ Hcs)), run_nil. }
    eapply simulates_update; [done..|].
    destruct o; simpl in Hb; injection Hb as <- <-; split; simpl; rewrite ?negb_involutive; by auto.
  - destruct (serve_sim _ _ _ _ _ _ _ _ Hrel Hcs Hs) as (Hsame & (y' & Hsil & Hrel') & _).
    exists (mkSpec (mp kv') (<[c := y']> cs)). split; [done|].
    rewrite <- (insert_id m c (ck, Some cl)) by done. by eapply simulates_update.
  - destruct (serve_sim _ _ _ _ _ _ _ _ Hrel Hcs Hs) as (Hsame & _ & (o & Hsil & Hrel')).
    exists (mkSpec (mp kv') (<[c := Idle]> cs)). split; [|by eapply simulates_update].
    eapply silent_then; [exact Hsil|].
    eapply (run_cons _ _ (Some (Return c v)) (mkSpec (mp kv') (<[c := Idle]> cs)) []); [|apply run_nil].
    rewrite <- (insert_insert_eq cs c Idle (Done o v)). eapply sp_return. apply lookup_insert_eq.
Qed.

Lemma run_sim s tr s' a : run (sys_step puts) s tr s' → simulates puts s a →
  ∃ a', run (spec_step puts) a tr a' ∧ simulates puts s' a'.
Proof.
  intros Hr. revert a. induction Hr as [s|s l s1 tr s2 Hst _ IH]; intros a Hsim.
  { exists a. split; [apply run_nil|done]. }
  destruct (step_sim _ _ _ _ Hsim Hst) as (a1 & Hr1 & Hs1).
  destruct (IH _ Hs1) as (a2 & Hr2 & Hs2). exists a2. split; [|done].
  by eapply run_app.
Qed.

Lemma simulates_init ids : simulates puts (sys_init ids) (spec_init ids).
Proof.
  assert (∀ {A} (f : Z → A) c x, (set_to_map (λ i, (i, f i)) ids : gmap Z A) !! c = Some x ↔
    c ∈ ids ∧ x = f c) as Hlk.
  { intros A f c x. rewrite lookup_set_to_map by done. naive_solver. }
  split; simpl; [done| |].
  - intros c. split; intros [x [Hin _]%Hlk]; eexists; apply Hlk; done.
  - intros c x y [_ ->]%Hlk [_ ->]%Hlk. done.
Qed.

End sim.

(** ** The theorems *)

(** C7: exactly once, but for [Put]. Every history of calls and returns of the
    clerks, with any calls and replies lost and repeated and any interleaving, is
    a history of the specification: each [Get] and each [Append] takes effect
    exactly once between its call and its return, and returns what the store
    gives. Without puts ([puts] is false) that is the atomic store. A pending
    [Put] of the specification may take effect more than once, as it may in the
    code ([put_retry_not_linearizable]). The final maps agree. *)
Theorem exactly_once puts ids tr s :
  run (sys_step puts) (sys_init ids) tr s →
  ∃ a, run (spec_step puts) (spec_init ids) tr a ∧ store a = mp (server s).
Proof.
  intros Hr. destruct (run_sim puts _ _ _ _ Hr (simulates_init puts ids)) as (a & Ha & Hsim).
  exists a. split; [done|]. apply Hsim.
Qed.

(** Two clerks; the first answer of the [Append] of clerk 1 is lost, clerk 2
    appends in between. *)
Definition twoAppends : list label :=
  [Invoke 1 (OpAppend "x" "a"); Invoke 2 (OpAppend "x" "b"); Return 2 "a"; Return 1 ""].

Lemma twoAppends_run : ∃ s, run (sys_step false) (sys_init {[1; 2]}) twoAppends s ∧
  mp (server s) = {["x" := "ab"]}.
Proof.
  eexists. split; [|].
  eapply (run_cons _ _ (Some _)); [eapply (st_invoke _ 1); [reflexivity|done|reflexivity]|].
  eapply (run_cons _ _ None); [eapply (st_noreply _ 1); vm_compute; reflexivity|].
  eapply (run_cons _ _ (Some _)); [eapply (st_invoke _ 2); [vm_compute; reflexivity|done|reflexivity]|].
  eapply (run_cons _ _ (Some _)); [eapply (st_reply _ 2); vm_compute; reflexivity|].
  eapply (run_cons _ _ (Some _)); [eapply (st_reply _ 1); vm_compute; reflexivity|].
  apply run_nil. vm_compute. reflexivity.
Qed.

Lemma exactly_once_witness : ∃ s a,
  run (sys_step false) (sys_init {[1; 2]}) twoAppends s ∧ mp (server s) = {["x" := "ab"]} ∧
  run (spec_step false) (spec_init {[1; 2]}) twoAppends a ∧ store a = {["x" := "ab"]}.
Proof.
  destruct twoAppends_run as (s & Hr & Hm).
  destruct (exactly_once false {[1; 2]} _ s Hr) as (a & Ha & Hst).
  exists s, a. by rewrite Hst.
Defined.

(** Without [sp_again] the specification is atomic. *)
Abbreviation linearizable ids tr := (∃ a, run (spec_step false) (spec_init ids) tr a).

(** A repeated [Put] can undo an [Append] that has already returned: clerk 1's
    [Put] is executed and its answer lost, clerk 2 appends and sees the new
    value, then the [Put] is executed again, and a [Get] misses the append. *)
Definition lostAppend : list label :=
  [Invoke 1 (OpPut "x" "a"); Invoke 2 (OpAppend "x" "b"); Return 2 "a"; Return 1 "";
   Invoke 2 (OpGet "x"); Return 2 "a"].

(** The specification with the two clients 1 and 2. *)
Definition two (s : gmap string string) (y1 y2 : client) : spec :=
  mkSpec s (<[1 := y1]> (<[2 := y2]> ∅)).

Lemma two_step s y1 y2 l a : spec_step false (two s y1 y2) l a →
  ∃ s' y1' y2', a = two s' y1' y2' ∧
  match l with
  | Some (Invoke c o) => s' = s ∧ (c = 1 ∧ y1 = Idle ∧ y1' = Todo o ∧ y2' = y2 ∨
                                   c = 2 ∧ y2 = Idle ∧ y2' = Todo o ∧ y1' = y1)
  | Some (Return c v) => s' = s ∧ (c = 1 ∧ (∃ o, y1 = Done o v) ∧ y1' = Idle ∧ y2' = y2 ∨
                                   c = 2 ∧ (∃ o, y2 = Done o v) ∧ y2' = Idle ∧ y1' = y1)
  | None => (∃ o v, y1 = Todo o ∧ atomic o s = (s', v) ∧ y1' = Done o v ∧ y2' = y2) ∨
            (∃ o v, y2 = Todo o ∧ atomic o s = (s', v) ∧ y2' = Done o v ∧ y1' = y1)
  end.
Proof.
  assert (∀ c y, (<[1 := y1]> (<[2 := y2]> ∅) : gmap Z client) !! c = Some y →
    c = 1 ∧ y = y1 ∨ c = 2 ∧ y = y2) as Hlk.
  { intros c y. rewrite !lookup_insert_Some, lookup_empty. naive_solver. }
  assert (∀ y, (<[1 := y]> (<[1 := y1]> (<[2 := y2]> ∅)) : gmap Z client) = <[1 := y]> (<[2 := y2]> ∅))
    as H1 by (intros y; apply insert_insert_eq).
  assert (∀ y, (<[2 := y]> (<[1 := y1]> (<[2 := y2]> ∅)) : gmap Z client) = <[1 := y1]> (<[2 := y]> ∅))
    as H2 by (intros y; rewrite insert_insert_ne by done; by rewrite insert_insert_eq).
  unfold two. intros Hs. inversion Hs; subst;
    match goal with H : _ !! _ = Some _ |- _ => apply Hlk in H as [[-> Hy]|[-> Hy]] end;
    subst; rewrite ?H1, ?H2; eauto 15; done.
Qed.

Lemma run_two s y1 y2 tr a : run (spec_step false) (two s y1 y2) tr a →
  tr = [] ∨ (∃ x tr' a1, tr = x :: tr' ∧ spec_step false (two s y1 y2) (Some x) a1 ∧
                        run (spec_step false) a1 tr' a) ∨
  ∃ a1, spec_step false (two s y1 y2) None a1 ∧ run (spec_step false) a1 tr a.
Proof. intros Hr. inversion Hr as [|? l a1 tr' ? Hs Hr']; subst; [by left|]. destruct l; eauto 10. Qed.

(** [explore] follows every run of the specification along a given history. *)
Ltac explore :=
  match goal with
  | H : run _ (two _ _ _) _ _ |- _ =>
      apply run_two in H as [H|[(? & ? & ? & ? & Hs & H)|(? & Hs & H)]]; simplify_eq;
      apply two_step in Hs as (? & ? & ? & -> & Hs); simpl in Hs; destruct_and?; destruct_or?;
      destruct_and?; repeat match goal with H : ∃ _, _ |- _ => destruct H end; destruct_and?;
      simplify_eq/=
  end.

(** Retrying a [Put] is visible: the code has a history that no atomic store
    has. *)
Theorem put_retry_not_linearizable :
  (∃ s, run (sys_step true) (sys_init {[1; 2]}) lostAppend s) ∧ ¬ linearizable {[1; 2]} lostAppend.
Proof.
  split.
  - eexists. unfold lostAppend.
    eapply (run_cons _ _ (Some _)); [eapply (st_invoke _ 1); [reflexivity|done|reflexivity]|].
    eapply (run_cons _ _ None); [eapply (st_noreply _ 1); vm_compute; reflexivity|].
    eapply (run_cons _ _ (Some _)); [eapply (st_invoke _ 2); [vm_compute; reflexivity|done|reflexivity]|].
    eapply (run_cons _ _ (Some _)); [eapply (st_reply _ 2); vm_compute; reflexivity|].
    eapply (run_cons _ _ (Some _)); [eapply (st_reply _ 1); vm_compute; reflexivity|].
    eapply (run_cons _ _ (Some _)); [eapply (st_invoke _ 2); [vm_compute; reflexivity|done|reflexivity]|].
    eapply (run_cons _ _ (Some _)); [eapply (st_reply _ 2); vm_compute; reflexivity|].
    apply run_nil.
  - intros [a Hr]. change (spec_init {[1; 2]}) with (two ∅ Idle Idle) in Hr. unfold lostAppend in Hr.
    repeat explore.
Qed.
