(* ===== verification/Service.v ===== *)
(** * A replicated service above Raft

    What [kvraft], [shardctrler] and [shardkv] have in common: a goroutine
    [handleApplyMsg] that reads the messages of its Raft peer and applies them
    to a state machine, and that ends the process with [log.Fatalf] when a
    command does not carry the next index.

    [Service] is the interface and [ServiceLaws] what a service must promise;
    [KVRaft] has an instance.  [service_reachable] is a
    service running on top of a peer, with crashes of both.  The contract of
    the peer ([RaftSteps]) then discharges the check of the service. *)

From S2P Require Import Prelude RaftState RaftNode RaftInv RaftIndex RaftApply RaftSteps.
Local Open Scope Z_scope.

(** [svc_apply size m st] is one iteration of [handleApplyMsg], where [size] is
    the size of the persisted state; it may ask for a snapshot up to an index. *)
Class Service (Cmd St : Type) := {
  svc_init : St;
  svc_last : St → Z;
  svc_apply : Z → ApplyMsg Cmd → St → outcome (St * option (Z * bytes));
  svc_msgOk : ApplyMsg Cmd → St → Prop;
}.

Class ServiceLaws (Cmd St : Type) `{Service Cmd St} : Prop := {
  svc_init_last : svc_last svc_init = 0;
  svc_command : ∀ size m st, svc_msgOk m st → CommandValid m = true →
    CommandIndex m = svc_last st + 1 →
    ∃ st' r, svc_apply size m st = Ret (st', r) ∧ (∀ i b, r = Some (i, b) → i = CommandIndex m);
  svc_served : ∀ size m st st' r, svc_apply size m st = Ret (st', r) →
    svc_last st' = served (svc_last st) m;
}.

Section service.
Context {Cmd St : Type} `{Codec (@persistent Cmd)} `{!CodecLaws (@persistent Cmd)}.
Context `{!Service Cmd St} `{!ServiceLaws Cmd St}.
Implicit Types (rf : Raft Cmd) (st : St).

(** A step of the peer that the service does not see. *)
Definition quiet rf rf' : Prop := ∀ s, node_step rf s rf' s.

Inductive service_reachable (n : nat) (meId : Z) : Raft Cmd → St → Prop :=
| sr_start now rf :
    Make n meId MakePersister now = Ret rf → service_reachable n meId rf svc_init
| sr_quiet rf rf' st :
    service_reachable n meId rf st → quiet rf rf' → service_reachable n meId rf' st
| sr_deliver rf rf' m size st st' r :
    service_reachable n meId rf st → applySend rf = (Some m, rf') →
    svc_apply size m st = Ret (st', r) → service_reachable n meId rf' st'
| sr_restart rf rf' now st :
    service_reachable n meId rf st → Make (peers rf) (me rf) (persister rf) now = Ret rf' →
    service_reachable n meId rf' svc_init.

(** The service is always where the peer thinks it is. *)
Lemma service_peer n meId rf st : service_reachable n meId rf st → reachable n meId rf (svc_last st).
Proof.
  induction 1 as [now rf Hm|rf rf' st _ IH Hq|rf rf' m size st st' r _ IH Hs Ha|rf rf' now st _ IH Hm].
  - rewrite svc_init_last. by eapply reach_make.
  - eapply reach_step; [exact IH|apply Hq].
  - rewrite (svc_served _ _ _ _ _ Ha). eapply reach_step; [exact IH|by apply ns_send].
  - rewrite svc_init_last. eapply reach_step; [exact IH|by eapply ns_restart].
Qed.

(** The next command is always the one the service expects: it is applied. *)
Lemma service_applies n meId rf st m rf' size : 0 ≤ meId < Z.of_nat n →
  service_reachable n meId rf st → applySend rf = (Some m, rf') →
  CommandValid m = true → svc_msgOk m st →
  ∃ st' r, svc_apply size m st = Ret (st', r) ∧ svc_last st' = svc_last st + 1 ∧
           service_reachable n meId rf' st'.
Proof.
  intros Hme Hr Hs Hc Hok. pose proof (reachable_inv _ _ _ _ Hme (service_peer _ _ _ _ Hr)) as HI.
  destruct (nodeInv_send _ _ _ _ HI Hs) as [_ Hidx]. specialize (Hidx Hc).
  destruct (svc_command size m st Hok Hc Hidx) as (st' & r & Ha & _).
  exists st', r. split; [done|]. split; [|by eapply sr_deliver].
  rewrite (svc_served _ _ _ _ _ Ha). unfold served. by rewrite Hc.
Qed.

End service.
