(* ===== verification/Replicated.v ===== *)
(** * A replicated service

    The services of a cluster: one server per Raft peer, each reading the
    messages of its own peer ([handleApplyMsg]), handing snapshots back to it
    and starting again from nothing when it is restarted.

    [Machine] is what a service promises to its clients: a deterministic state
    machine over the commands of the log, and a way to load a snapshot.
    [Replica] is what the code of a service owes to that machine.  With the
    safety of Raft ([RaftSafety]) this is enough for the replicas to agree, at
    any moment and through any failures: the history of the commands that any
    server has executed is one sequence, and the state of a server is the result
    of a prefix of it. *)

From S2P Require Import Prelude RaftState RaftNode RaftInv RaftIndex RaftApply RaftSteps.
From S2P Require Import RaftElection RaftView RaftAbstract RaftNet RaftSafety Service.
Local Open Scope Z_scope.

(** ** Where snapshots come from *)

Section snapshots.
Context {Cmd : Type} `{Codec (@persistent Cmd)} `{!CodecLaws (@persistent Cmd)}.
Implicit Types (rf : Raft Cmd).

(** [m] is the message of a snapshot [d] up to index [k]. *)
Definition isSnapshot (m : ApplyMsg Cmd) (k : Z) (d : bytes) : Prop :=
  CommandValid m = false ∧ SnapshotValid m = true ∧ msgSnapshotIndex m = k ∧ msgSnapshot m = d.

(** A peer keeps snapshots in its state and in the apply queue. *)
Definition heldSnap rf (k : Z) (d : bytes) : Prop :=
  (snapshot rf = d ∧ snapshotIndex rf = k ∧ d ≠ []) ∨ ∃ m, m ∈ applyQueue rf ∧ isSnapshot m k d.

(** A step that brings no new snapshot. *)
Definition snapFrame rf rf' : Prop :=
  snapshot rf' = snapshot rf ∧ snapshotIndex rf' = snapshotIndex rf ∧
  ∀ m, m ∈ applyQueue rf' → m ∈ applyQueue rf ∨ CommandValid m = true.

Lemma heldSnap_frame rf rf' k d : snapFrame rf rf' → heldSnap rf' k d → heldSnap rf k d.
Proof.
  intros (Hs & Hi & Hq) [(E1 & E2 & E3)|(m & [Hm|Hv]%Hq & Hk)].
  - left. rewrite <- Hs, <- Hi. done.
  - right. eauto.
  - destruct Hk as [Hc _]. congruence.
Qed.

Lemma snapFrame_eq rf rf' : snapshot rf' = snapshot rf → snapshotIndex rf' = snapshotIndex rf →
  applyQueue rf' = applyQueue rf → snapFrame rf rf'.
Proof. intros ? ? E. split_and!; auto. rewrite E. auto. Qed.

Lemma snapFrame_refl rf : snapFrame rf rf.
Proof. by apply snapFrame_eq. Qed.

#[local] Ltac frame_snap := by apply snapFrame_eq.

Lemma RequestVote_snap now args rf rf' reply :
  RequestVote now args rf = Ret (rf', reply) → snapFrame rf rf'.
Proof. intros Hr. unfold RequestVote in Hr. inv_ret. repeat case_decide; inv_ret; frame_snap. Qed.

Lemma AppendEntries_snap now args rf rf' reply : wf rf →
  AppendEntries now args rf = Ret (rf', reply) → snapFrame rf rf'.
Proof. intros Hwf Hr. destruct (AppendEntries_log _ _ _ _ _ Hwf Hr) as (_ & Hq & Hsi & Hsn & _). frame_snap. Qed.

Lemma Start_snap command rf rf' r : Start command rf = Ret (rf', r) → snapFrame rf rf'.
Proof. intros Hr. unfold Start in Hr. case_decide; inv_ret; frame_snap. Qed.

Lemma election_promote_snap ballot rf rf' b : election_promote ballot rf = Ret (rf', b) → snapFrame rf rf'.
Proof. intros Hr. unfold election_promote in Hr. case_decide; inv_ret; frame_snap. Qed.

Lemma syncSuccess_snap server k rf rf' : syncSuccess server k rf = Ret rf' → snapFrame rf rf'.
Proof. intros Hr. unfold syncSuccess in Hr. inv_ret. case_decide; inv_ret; frame_snap. Qed.

Lemma handleFailedReply_snap server args reply rf rf' a :
  handleFailedReply server args reply rf = Ret (rf', a) →
  snapFrame rf rf' ∧
  ∀ ia, a = FA_Install ia → is_Data ia = snapshot rf ∧ is_LastIncludedIndex ia = snapshotIndex rf.
Proof.
  intros Hr. unfold handleFailedReply in Hr. case_decide; inv_ret; [split; [frame_snap|done]|].
  repeat (case_match; inv_ret); (split; [frame_snap|]); intros; by simplify_eq.
Qed.

Lemma snapshotReplied_snap server args reply rf rf' b :
  snapshotReplied server args reply rf = Ret (rf', b) → snapFrame rf rf'.
Proof. intros Hr. unfold snapshotReplied in Hr. case_decide; inv_ret; frame_snap. Qed.

Lemma commitCheck_snap rf rf' : commitCheck rf = Ret rf' → snapFrame rf rf'.
Proof. intros Hr. unfold commitCheck in Hr. inv_ret. repeat (case_match; inv_ret); frame_snap. Qed.

Lemma ticker_timeout_snap now rf rf' : ticker_timeout now rf = Some rf' → snapFrame rf rf'.
Proof. intros Hr. unfold ticker_timeout in Hr. case_decide; simplify_eq. frame_snap. Qed.

Lemma election_start_snap rf rf' el : election_start rf = Ret (rf', el) → snapFrame rf rf'.
Proof. intros Hr. unfold election_start in Hr. inv_ret. frame_snap. Qed.

Lemma number_commands x (l : list (logEntry Cmd)) m : m ∈ number x l → CommandValid m = true.
Proof.
  revert x. induction l as [|e l IH]; intros x; simpl; [by intros ?%not_elem_of_nil|].
  case_decide; [|apply IH]. intros [->|?]%elem_of_cons; [done|by eapply IH].
Qed.

Lemma applyEntries_snap rf rf' : wf rf → applyEntries rf = Ret rf' → snapFrame rf rf'.
Proof.
  intros Hwf. rewrite applyEntries_spec by done. intros [= <-]. split_and!; [done|done|].
  intros m [?|?%number_commands]%elem_of_app; auto.
Qed.

Lemma applySend_snap rf m rf' : applySend rf = (Some m, rf') → snapFrame rf rf' ∧ m ∈ applyQueue rf.
Proof.
  unfold applySend. destruct (applyQueue rf) as [|m0 q] eqn:Hq; simpl; intros; simplify_eq.
  split; [|by left]. split_and!; [done|done|]. rewrite Hq. simpl. intros; left. by right.
Qed.

Lemma InstallSnapshot_snap args rf rf' reply k d : InstallSnapshot args rf = Ret (rf', reply) →
  heldSnap rf' k d → heldSnap rf k d ∨ (k = is_LastIncludedIndex args ∧ d = is_Data args).
Proof.
  intros Hr Hh. unfold InstallSnapshot in Hr. do 3 (case_decide; inv_ret; [by left|]).
  destruct Hh as [(<- & <- & _)|(m & [->|?%not_elem_of_nil]%elem_of_cons & Hm)]; [by right| |done].
  destruct Hm as (_ & _ & <- & <-). by right.
Qed.

Lemma Snapshot_snap index snap rf rf' k d : Snapshot index snap rf = Ret rf' →
  heldSnap rf' k d → heldSnap rf k d ∨ (k = index ∧ d = snap).
Proof.
  intros Hr Hh. unfold Snapshot in Hr. inv_ret. do 2 (case_decide; inv_ret; [by left|]).
  destruct Hh as [(<- & <- & _)|?]; [by right|left; by right].
Qed.

Lemma Make_snap rf s now rf' k d : nodeInv rf s →
  Make (peers rf) (me rf) (persister rf) now = Ret rf' → heldSnap rf' k d → heldSnap rf k d.
Proof.
  intros [Hwf Hd Hst Hsn Hv] Hr. destruct Hd as [Hs|Hp].
  - rewrite (Make_saved rf now Hwf Hs) in Hr by (intros ?%Hv; lia). injection Hr as <-.
    unfold remade, remadeQueue, heldSnap. simpl. intros [?|(m & Hm & Hk)]; [by left|left].
    case_decide as Hl; [|by apply not_elem_of_nil in Hm]. apply list_elem_of_singleton in Hm as ->.
    destruct Hk as (_ & _ & <- & <-). simpl in *. split_and!; [done|done|]. intros E. by rewrite E in Hl.
  - rewrite (Make_pristine rf now Hp) in Hr. injection Hr as <-.
    intros [?|(m & ?%not_elem_of_nil & _)]; [by left|done].
Qed.

(** The snapshots of a cluster: those of its peers and those on their way. *)
Definition netSnap (c : net Cmd) (k : Z) (d : bytes) : Prop :=
  (∃ i rf s, nodes (core c) !! i = Some (rf, s) ∧ heldSnap rf k d) ∨
  ∃ j args, (j, args) ∈ snaps c ∧ is_LastIncludedIndex args = k ∧ is_Data args = d.

Lemma netSnap_update (P : Z → bytes → Prop) c c' i rf s rf' s' k d :
  netSnap c' k d → nodes (core c) !! i = Some (rf, s) → nodes (core c') = <[i := (rf', s')]> (nodes (core c)) →
  snaps c' = snaps c → (heldSnap rf' k d → heldSnap rf k d ∨ P k d) →
  netSnap c k d ∨ P k d.
Proof.
  intros [(j & r & t & Hj & Hh)|Hin] Hi Hn Hs Hp; [|left; right; by rewrite <- Hs].
  rewrite Hn in Hj. apply list_lookup_insert_Some in Hj as [(_ & ? & _)|[_ Hj]]; simplify_eq.
  - destruct (Hp Hh); [left; left; eauto|by right].
  - left; left; eauto.
Qed.

Lemma netSnap_same c c' i rf s rf' s' k d :
  netSnap c' k d → nodes (core c) !! i = Some (rf, s) → nodes (core c') = <[i := (rf', s')]> (nodes (core c)) →
  snaps c' = snaps c → snapFrame rf rf' → netSnap c k d.
Proof.
  intros Hk Hi Hn Hs Hf. destruct (netSnap_update (λ _ _, False) c c' i rf s rf' s' k d); auto; [|done].
  intros Hh. left. by eapply heldSnap_frame.
Qed.

#[local] Ltac peer_only :=
  let Hk := fresh in
  intros Hk; left; eapply netSnap_same; [exact Hk|eassumption|reflexivity|reflexivity|].

(** A step creates no snapshot but the one that the service hands over. *)
Lemma net_snap_origin chk ev c c' k d :
  (∀ i rf s, nodes (core c) !! i = Some (rf, s) → nodeInv rf s) →
  (∀ q, q ∈ snaps c' → is_Data q.2 ≠ []) →
  nstep chk ev c c' → netSnap c' k d → netSnap c k d ∨ ∃ i, ev = Snapshots i k d.
Proof.
  intros Hinv Hne Hst. destruct Hst as [c c' st an sn sa de Hst
    |i now rf s rf' ns ph rq rp bs st an sn sa de Hi Hr|i rf s reqs c st an sn sa de Hi Hs Hr
    |j now args next rf s rf' reply c st an sn sa de Hi Hin Hck Hr
    |i server args next reply rf s rf' c st an sn sa de Hi Hin Hld Hok' Hr
    |i server args next reply rf s rf' a c st an sn sa de Hi Hin Hld Hno Hr
    |j args rf s rf' reply c st an sn sa de Hi Hin Hr
    |i server args reply rf s rf' b c st an sn sa de Hi Hin Hld Hr
    |i command rf s rf' r c st an sn sa de Hi Hr|i index snap rf s rf' c st an sn sa de Hi Hsn Hidx Hr
    |i rf s rf' c st an sn sa de Hi Hs Hr|i rf s rf' c st an sn sa de Hi Hr
    |i rf s rf' m c st an sn sa de Hi Hr|i rf s c st an sn sa de Hi]; simpl in *;
    [|pose proof (ni_wf _ _ (Hinv _ _ _ Hi)) as Hwf..].
  - intros Hk. left. destruct Hst as [i now rf rf' s ns ph rq rp bs Hi Hr|i rf rf' s el ns ph rq rp bs Hi Hp Hr
      |j now args rf rf' s reply ns ph rq rp bs Hi Hin Hnj Hr|i j el counted reply ns ph rq rp bs Hp Hin Hj
      |i ballot rf rf' s el counted b ns ph rq rp bs Hi Hp Hle Hct Hr]; [| | |exact Hk|];
      (eapply netSnap_same; [exact Hk|exact Hi|reflexivity|reflexivity|]).
    + by eapply ticker_timeout_snap.
    + by eapply election_start_snap.
    + by eapply RequestVote_snap.
    + by eapply election_promote_snap.
  - intros Hk. eapply (netSnap_update (λ k d, ∃ j, Restarts i = Snapshots j k d));
      [exact Hk|exact Hi|reflexivity|reflexivity|].
    intros Hh. left. eapply Make_snap, Hh; [|done]. by apply (Hinv i rf s).
  - by intros; left.
  - peer_only. by eapply AppendEntries_snap.
  - peer_only. by eapply syncSuccess_snap.
  - destruct (handleFailedReply_snap _ _ _ _ _ _ Hr) as [Hf Hia]. intros [Hk|(j & ia & Hj & Ek & Ed)]; left.
    + eapply (netSnap_same _ (mkNet (withPeer i rf' s c) st an sn sa de)); [by left|exact Hi|done|done|exact Hf].
    + pose proof (Hne _ Hj) as Hd. apply elem_of_app in Hj as [Hj|Hj]; [|right; eauto].
      destruct a as [| |ia']; try by apply not_elem_of_nil in Hj.
      apply list_elem_of_singleton in Hj. simplify_eq. destruct (Hia ia' eq_refl) as [E1 E2].
      left. exists i, rf, s. split; [done|]. left. rewrite <- E1, <- E2. done.
  - intros Hk. destruct (netSnap_update (λ k d, k = is_LastIncludedIndex args ∧ d = is_Data args)
      (mkNet c st an sn sa de) (mkNet (withPeer j rf' s c) st an sn ((Z.of_nat j, args, reply) :: sa) de)
      j rf s rf' s k d) as [?|[-> ->]]; auto; [by eapply InstallSnapshot_snap|]. left. right. eauto.
  - peer_only. by eapply snapshotReplied_snap.
  - peer_only. by eapply Start_snap.
  - intros Hk. eapply (netSnap_update (λ k d, ∃ j, Snapshots i index snap = Snapshots j k d));
      [exact Hk|exact Hi|reflexivity|reflexivity|].
    intros Hh. destruct (Snapshot_snap _ _ _ _ _ _ Hr Hh) as [?|[-> ->]]; eauto.
  - peer_only. by eapply commitCheck_snap.
  - peer_only. by eapply applyEntries_snap.
  - peer_only. by eapply applySend_snap.
  - peer_only. by apply snapFrame_eq.
Qed.

End snapshots.

(** ** What a step of the cluster does to the services *)

Section seen.
Context {Cmd : Type} `{Codec (@persistent Cmd)}.
Implicit Types (rf : Raft Cmd) (c : net Cmd).

(** The index up to which the service of peer [j] has read. *)
Definition seen (ev : @event Cmd) (j : nat) (s : Z) : Z :=
  match ev with
  | Reads i m => if decide (i = j) then served s m else s
  | Restarts i => if decide (i = j) then 0 else s
  | _ => s
  end.

Lemma seen_insert ev i rf s rf' s' (ns : list (Raft Cmd * Z)) :
  ns !! i = Some (rf, s) → s' = seen ev i s → (∀ k t, k ≠ i → seen ev k t = t) →
  length (<[i := (rf', s')]> ns) = length ns ∧
  ∀ j r t, <[i := (rf', s')]> ns !! j = Some (r, t) →
    ∃ r0 t0, ns !! j = Some (r0, t0) ∧ t = seen ev j t0.
Proof.
  intros Hi -> Hne. rewrite length_insert. split; [done|]. intros j r t Hj.
  apply list_lookup_insert_Some in Hj as [(<- & ? & _)|[Hij Hj]]; simplify_eq; [eauto|].
  exists r, t. rewrite Hne; auto.
Qed.

Lemma nstep_seen chk ev c c' : nstep chk ev c c' →
  length (nodes (core c')) = length (nodes (core c)) ∧
  ∀ j rf' s', nodes (core c') !! j = Some (rf', s') →
    ∃ rf s, nodes (core c) !! j = Some (rf, s) ∧ s' = seen ev j s.
Proof.
  destruct 1 as [c c' st an sn sa de Hst|i now rf s rf' ns ph rq rp bs st an sn sa de Hi Hr
    | | | | | | | | | | |i rf s rf' m c st an sn sa de Hi Hr|]; simpl;
    try (by eapply (seen_insert Quiet)); try (by eapply (seen_insert (Snapshots _ _ _))); try by eauto.
  - destruct Hst; simpl; try (by eapply (seen_insert Quiet)). by eauto.
  - eapply (seen_insert (Restarts i)); [exact Hi|simpl; by rewrite decide_True|].
    intros. simpl. by rewrite decide_False.
  - eapply (seen_insert (Reads i m)); [exact Hi|simpl; by rewrite decide_True|].
    intros. simpl. by rewrite decide_False.
Qed.

(** Only a read changes what was delivered. *)
Lemma nstep_delivered chk ev c c' : nstep chk ev c c' →
  delivered c' = match ev with Reads i m => (i, m) :: delivered c | _ => delivered c end.
Proof. by destruct 1. Qed.

Lemma nstep_reads chk i m c c' : nstep chk (Reads i m) c c' →
  ∃ rf s rf', nodes (core c) !! i = Some (rf, s) ∧ applySend rf = (Some m, rf').
Proof. inversion 1; subst; eauto. Qed.

End seen.

(** ** Machines and replicas *)

(** The state machine of a service: its first state, the effect of the command
    at an index, and the state that a snapshot stands for. *)
Class Machine (Cmd Core : Type) := {
  mc_init : Core;
  mc_exec : option Cmd → Z → Core → outcome Core;
  mc_load : bytes → Core;
}.

(** What a service owes to its machine.  [stateOf] is the part of a server that
    the machine determines; [ok] is an invariant of the server. *)
Class Replica {Cmd St Core : Type} {M : Machine Cmd Core} (S : Service Cmd St)
    (stateOf : St → Core) (ok : St → Prop) : Prop := {
  rp_init : ok svc_init ∧ stateOf svc_init = mc_init ∧ svc_last svc_init = 0;
  rp_ok : ∀ size m st st' r, ok st → svc_apply size m st = Ret (st', r) →
    ok st' ∧ svc_last st' = served (svc_last st) m;
  rp_command : ∀ size m st st' r, ok st → svc_apply size m st = Ret (st', r) →
    CommandValid m = true → mc_exec (msgCommand m) (CommandIndex m) (stateOf st) = Ret (stateOf st');
  rp_snapshot : ∀ size m st st' r, ok st → svc_apply size m st = Ret (st', r) →
    CommandValid m = false → SnapshotValid m = true → stateOf st' = mc_load (msgSnapshot m);
  rp_other : ∀ size m st st' r, ok st → svc_apply size m st = Ret (st', r) →
    CommandValid m = false → SnapshotValid m = false → stateOf st' = stateOf st;
  rp_taken : ∀ size m st st' k d, ok st → svc_apply size m st = Ret (st', Some (k, d)) →
    k = svc_last st' ∧ mc_load d = stateOf st';
}.

Section histories.
Context {Cmd Core : Type} {M : Machine Cmd Core}.

(** The machine runs the commands of [H], the first of them at index [i]. *)
Fixpoint runMachine (i : Z) (H : list (option Cmd)) (q : Core) : outcome Core :=
  match H with
  | [] => mret q
  | x :: H => q ← mc_exec x i q; runMachine (i + 1) H q
  end.

(** [q] is the state of the machine after [k] commands of the history. *)
Definition upTo (H : list (option Cmd)) (k : Z) (q : Core) : Prop :=
  0 ≤ k ≤ len H ∧ runMachine 1 (take (Z.to_nat k) H) mc_init = Ret q.

Lemma runMachine_snoc i H x q :
  runMachine i (H ++ [x]) q = runMachine i H q ≫= mc_exec x (i + len H).
Proof.
  revert i q. induction H as [|y H IH]; intros i q; simpl.
  - rewrite Z.add_0_r. by destruct (mc_exec x i q).
  - destruct (mc_exec y i q) as [q'| | |]; try done. simpl. rewrite IH, len_cons.
    by replace (i + 1 + len H) with (i + (len H + 1)) by lia.
Qed.

Lemma upTo_prefix H H' k q : H `prefix_of` H' → upTo H k q → upTo H' k q.
Proof.
  intros [l ->] [Hk Hr]. split; [rewrite len_app; pose proof (len_nonneg l); lia|].
  rewrite take_app_le; [done|]. unfold len in Hk. lia.
Qed.

Lemma upTo_next H k q q' x : upTo H k q → H !! Z.to_nat k = Some x → mc_exec x (k + 1) q = Ret q' →
  upTo H (k + 1) q'.
Proof.
  intros [Hk Hr] Hx Hq. pose proof (lookup_lt_Some _ _ _ Hx). split; [unfold len; lia|].
  replace (Z.to_nat (k + 1)) with (S (Z.to_nat k)) by lia. rewrite (take_S_r _ _ x) by done.
  rewrite runMachine_snoc, Hr. simpl. rewrite <- Hq. f_equal. unfold len. rewrite length_take. lia.
Qed.

Lemma upTo_same H k q q' : upTo H k q → upTo H k q' → q = q'.
Proof. intros [_ Hq] [_ Hq']. congruence. Qed.

Lemma upTo_0 H : upTo H 0 mc_init.
Proof. split; [|done]. split; [done|apply len_nonneg]. Qed.

End histories.

(** ** The system *)

Section system.
Context {Cmd St Core : Type} `{Codec (@persistent Cmd)} `{!CodecLaws (@persistent Cmd)}.
Context {M : Machine Cmd Core} (services : nat → Service Cmd St) (stateOf : St → Core) (ok : St → Prop).
Implicit Types (c : net Cmd) (sv : list (St * option (Z * bytes))).

(** A server has read a message to the end when it has no snapshot left to hand
    to its peer: [handleApplyMsg] calls [Snapshot] before it reads again. *)
Record system := mkSystem {
  raft : net Cmd;
  servers : list (St * option (Z * bytes));
}.

(** [sstep chk ev]: a step in which the services see [ev]; [rstep] is any step. *)
Inductive sstep (chk : bool) : event → system → system → Prop :=
| ss_quiet c c' sv : nstep chk Quiet c c' → sstep chk Quiet (mkSystem c sv) (mkSystem c' sv)
| ss_start c c' sv i x b :
    nstep chk (Starts i x b) c c' → sstep chk (Starts i x b) (mkSystem c sv) (mkSystem c' sv)
| ss_read c c' sv i m size st st' r :
    nstep chk (Reads i m) c c' → sv !! i = Some (st, None) →
    svc_apply (Service := services i) size m st = Ret (st', r) →
    sstep chk (Reads i m) (mkSystem c sv) (mkSystem c' (<[i := (st', r)]> sv))
| ss_snapshot c c' sv i k d st :
    nstep chk (Snapshots i k d) c c' → sv !! i = Some (st, Some (k, d)) →
    sstep chk (Snapshots i k d) (mkSystem c sv) (mkSystem c' (<[i := (st, None)]> sv))
| ss_restart c c' sv i :
    nstep chk (Restarts i) c c' →
    sstep chk (Restarts i) (mkSystem c sv)
      (mkSystem c' (<[i := (svc_init (Service := services i), None)]> sv)).

Definition rstep (chk : bool) (y y' : system) : Prop := ∃ ev, sstep chk ev y y'.

Definition system_init (n : nat) (y : system) : Prop :=
  net_init n (raft y) ∧
  servers y = (λ i, (svc_init (Service := services i), None)) <$> seq 0 n.

Definition system_reachable (chk : bool) (n : nat) (y : system) : Prop :=
  ∃ y0, system_init n y0 ∧ rtc (rstep chk) y0 y.

(** A run, and the commands that were started in it, in order. *)
Inductive system_runs (chk : bool) (n : nat) : list (option Cmd) → system → Prop :=
| sr_init y : system_init n y → system_runs chk n [] y
| sr_step cr ev y y' : system_runs chk n cr y → sstep chk ev y y' →
    system_runs chk n (cr ++ startedBy ev) y'.

(** A schedule, as in [RaftNet]; no server has to take a snapshot in it. *)
Definition execSystem (chk : bool) (a : action Cmd) (y : system) : option system :=
  c' ← exec chk a (raft y);
  match eventOf a (raft y) with
  | Quiet | Starts _ _ _ => Some (mkSystem c' (servers y))
  | Reads i m =>
      '(st, p) ← servers y !! i;
      '(st', r) ← result (svc_apply (Service := services i) 0 m st);
      match p with None => Some (mkSystem c' (<[i := (st', r)]> (servers y))) | Some _ => None end
  | Restarts i => Some (mkSystem c' (<[i := (svc_init (Service := services i), None)]> (servers y)))
  | Snapshots _ _ _ => None
  end.

Fixpoint runSystem (chk : bool) (acts : list (action Cmd)) (y : system) : option system :=
  match acts with
  | [] => Some y
  | a :: acts => y' ← execSystem chk a y; runSystem chk acts y'
  end.

Lemma execSystem_sstep chk a y y' : execSystem chk a y = Some y' → sstep chk (eventOf a (raft y)) y y'.
Proof.
  destruct y as [c sv]. unfold execSystem. simpl. intros He.
  destruct (exec chk a c) as [c'|] eqn:Hc; [|done]. apply exec_nstep in Hc. simpl in He.
  destruct (eventOf a c) as [|i m|i x b|i k d|i] eqn:Hev; simplify_eq.
  - by apply ss_quiet.
  - repeat (simplify_option_eq || case_match).
    match goal with Hr : result _ = Some _ |- _ => apply result_Some in Hr end. by eapply ss_read.
  - by apply ss_start.
  - by apply ss_restart.
Qed.

Lemma runSystem_steps chk acts y y' : runSystem chk acts y = Some y' → rtc (rstep chk) y y'.
Proof.
  revert y. induction acts as [|a acts IH]; intros y Hr; simplify_option_eq; [done|].
  eapply rtc_l; [eexists; by eapply execSystem_sstep|]. by apply IH.
Qed.

(** ** One history *)

(** [hist] is the history of the commands that some server has executed. *)
Record oneHistory (hist : list (option Cmd)) (y : system) : Prop := {
  oh_len : length (servers y) = length (nodes (RaftNet.core (raft y)));
  oh_server : ∀ i st p rf s, servers y !! i = Some (st, p) →
    nodes (RaftNet.core (raft y)) !! i = Some (rf, s) →
    ok st ∧ s = svc_last (Service := services i) st ∧
    upTo hist (svc_last (Service := services i) st) (stateOf st) ∧
    ∀ k d, p = Some (k, d) → upTo hist k (mc_load d);
  oh_snap : ∀ k d, netSnap (raft y) k d → upTo hist k (mc_load d);
  oh_read : ∀ k x, hist !! k = Some x → ∃ i m, (i, m) ∈ delivered (raft y) ∧
    CommandValid m = true ∧ CommandIndex m = Z.of_nat k + 1 ∧ msgCommand m = x;
  oh_run : ∃ q, upTo hist (len hist) q;
}.

Context (n : nat) (HR : ∀ i, Replica (services i) stateOf ok).

(** A reachable cluster: its peers are well-formed, and the snapshots on their
    way are not empty. *)
Lemma reachable_facts c : net_reachable true n c →
  (∀ i rf s, nodes (RaftNet.core c) !! i = Some (rf, s) → nodeInv rf s) ∧
  (∀ q, q ∈ snaps c → is_Data q.2 ≠ []) ∧ ∃ A, netSim n A c.
Proof.
  intros [Hok [A HN]]%net_reachable_sim. split_and!; [| |by exists A].
  - intros i rf s Hi. destruct (co_len _ _ Hok). pose proof (lookup_lt_Some _ _ _ Hi).
    destruct (lookup_lt_is_Some_2 (phases (RaftNet.core c)) i) as [p Hp]; [lia|].
    apply (no_inv _ _ _ _ _ _ (co_node _ _ Hok _ _ _ _ Hi Hp)).
  - intros q Hq. destruct (sm_snaps _ _ _ HN q Hq) as (j & r & p & e & _ & Hc).
    apply (co_data _ _ _ _ _ _ _ Hc).
Qed.

Lemma reachable_nstep c c' ev : net_reachable true n c → nstep true ev c c' → net_reachable true n c'.
Proof.
  intros (c0 & Hi & Hr) Hst. exists c0. split; [done|]. eapply rtc_r; [exact Hr|by exists ev].
Qed.

Lemma oneHistory_update hist hist' c sv c' sv' ev :
  oneHistory hist (mkSystem c sv) → net_reachable true n c → nstep true ev c c' →
  hist `prefix_of` hist' → length sv' = length sv →
  (∀ i k d, ev = Snapshots i k d → upTo hist k (mc_load d)) →
  (∀ i st p rf s, sv' !! i = Some (st, p) → nodes (RaftNet.core c) !! i = Some (rf, s) →
     ok st ∧ seen ev i s = svc_last (Service := services i) st ∧
     upTo hist' (svc_last (Service := services i) st) (stateOf st) ∧
     ∀ k d, p = Some (k, d) → upTo hist' k (mc_load d)) →
  (∀ k x, hist' !! k = Some x → ∃ i m, (i, m) ∈ delivered c' ∧
     CommandValid m = true ∧ CommandIndex m = Z.of_nat k + 1 ∧ msgCommand m = x) →
  (∃ q, upTo hist' (len hist') q) →
  oneHistory hist' (mkSystem c' sv').
Proof.
  intros [Hl Hs Hk Hr _] Hc Hst Hpre Hl' Hev Hs' Hr' Hrun. destruct (nstep_seen _ _ _ _ Hst) as [Hln Hseen].
  simpl in *. split; simpl; [congruence| | |done|done].
  - intros i st p rf s Hi Hn. destruct (Hseen _ _ _ Hn) as (rf0 & s0 & Hn0 & ->). by eapply Hs'.
  - intros k d Hkd. eapply upTo_prefix; [exact Hpre|].
    destruct (reachable_facts _ Hc) as [Hinv _].
    destruct (reachable_facts _ (reachable_nstep _ _ _ Hc Hst)) as (_ & Hne & _).
    destruct (net_snap_origin _ _ _ _ _ _ Hinv Hne Hst Hkd) as [?|[i ->]]; eauto.
Qed.

(** A step that no server reads in. *)
Lemma oneHistory_keep hist c sv c' sv' ev :
  oneHistory hist (mkSystem c sv) → net_reachable true n c → nstep true ev c c' →
  (∀ i m, ev ≠ Reads i m) → length sv' = length sv →
  (∀ i k d, ev = Snapshots i k d → upTo hist k (mc_load d)) →
  (∀ i st p rf s, sv' !! i = Some (st, p) → nodes (RaftNet.core c) !! i = Some (rf, s) →
     ok st ∧ seen ev i s = svc_last (Service := services i) st ∧
     upTo hist (svc_last (Service := services i) st) (stateOf st) ∧
     ∀ k d, p = Some (k, d) → upTo hist k (mc_load d)) →
  oneHistory hist (mkSystem c' sv').
Proof.
  intros HO Hc Hst Hne Hl Hev Hs'. eapply oneHistory_update; eauto; [|apply HO]. intros k x Hx.
  rewrite (nstep_delivered _ _ _ _ Hst). destruct ev; try by apply (oh_read _ _ HO). by edestruct Hne.
Qed.

(** The history after a server has read a message. *)
Lemma history_read hist c sv c' i m rf s rf' :
  oneHistory hist (mkSystem c sv) → net_reachable true n c → nstep true (Reads i m) c c' →
  nodes (RaftNet.core c) !! i = Some (rf, s) → applySend rf = (Some m, rf') →
  CommandValid m = true → 0 ≤ s ≤ len hist →
  CommandIndex m = s + 1 ∧
  ∃ hist', hist `prefix_of` hist' ∧ hist' !! Z.to_nat s = Some (msgCommand m) ∧
    (hist' = hist ∨ len hist' = s + 1) ∧
    ∀ k x, hist' !! k = Some x → ∃ j m', (j, m') ∈ delivered c' ∧
      CommandValid m' = true ∧ CommandIndex m' = Z.of_nat k + 1 ∧ msgCommand m' = x.
Proof.
  intros HO Hc Hst Hi Hsend Hv Hs. destruct (reachable_facts _ Hc) as [Hinv _].
  destruct (reachable_facts _ (reachable_nstep _ _ _ Hc Hst)) as (_ & _ & A & HN).
  destruct (nodeInv_send _ _ _ _ (Hinv _ _ _ Hi) Hsend) as [_ Hidx]. specialize (Hidx Hv).
  pose proof (nstep_delivered _ _ _ _ Hst) as Hd. simpl in Hd. split; [done|].
  assert (∀ k x, hist !! k = Some x → ∃ j m', (j, m') ∈ delivered c' ∧
    CommandValid m' = true ∧ CommandIndex m' = Z.of_nat k + 1 ∧ msgCommand m' = x) as Hold.
  { intros k x Hx. destruct (oh_read _ _ HO k x Hx) as (j & m' & Hj & Hm'). exists j, m'.
    split; [|done]. rewrite Hd. by right. }
  destruct (decide (s < len hist)) as [Hlt|Hge].
  - exists hist. split; [done|]. split; [|split; [by left|done]].
    destruct (lookup_lt_is_Some_2 hist (Z.to_nat s)) as [x Hx]; [unfold len in Hlt; lia|].
    rewrite Hx. f_equal. destruct (Hold _ _ Hx) as (j & m' & Hj & Hv' & Hi' & <-).
    eapply (delivered_command n A); [exact HN|exact Hj| |done|done|lia]. rewrite Hd. by left.
  - assert (Z.to_nat s = length hist) as Es by (unfold len in *; lia).
    exists (hist ++ [msgCommand m]). split; [by eexists|]. rewrite Es, list_lookup_middle by done.
    split; [done|]. split; [right; rewrite len_app; unfold len in *; simpl; lia|]. intros k x [Hx|[Hk Hx]]%lookup_app_Some; [by apply Hold|].
    destruct (k - length hist)%nat as [|] eqn:E; simplify_eq/=. exists i, m. split_and!; [|done|lia|done].
    rewrite Hd. by left.
Qed.

(** What reading [m] does to one server. *)
Lemma upTo_read hist hist' i size m st st' r : ok st → hist `prefix_of` hist' →
  upTo hist (svc_last (Service := services i) st) (stateOf st) →
  svc_apply (Service := services i) size m st = Ret (st', r) →
  (CommandValid m = true → CommandIndex m = svc_last (Service := services i) st + 1 ∧
     hist' !! Z.to_nat (svc_last (Service := services i) st) = Some (msgCommand m)) →
  (∀ k d, isSnapshot m k d → upTo hist k (mc_load d)) →
  upTo hist' (svc_last (Service := services i) st') (stateOf st') ∧
  ∀ k d, r = Some (k, d) → upTo hist' k (mc_load d).
Proof.
  intros Hok Hpre Hup Ha Hcmd Hsn.
  destruct (rp_ok (Replica := HR i) _ _ _ _ _ Hok Ha) as [Hok' El].
  assert (upTo hist' (svc_last (Service := services i) st') (stateOf st')) as Hup'.
  { rewrite El. unfold served. destruct (CommandValid m) eqn:Hv.
    - destruct (Hcmd eq_refl) as [Ei Hx]. pose proof (rp_command (Replica := HR i) _ _ _ _ _ Hok Ha Hv) as Hq.
      rewrite Ei in *. eapply upTo_next; [by eapply upTo_prefix|done|done].
    - eapply upTo_prefix; [exact Hpre|]. destruct (SnapshotValid m) eqn:Hs.
      + rewrite (rp_snapshot (Replica := HR i) _ _ _ _ _ Hok Ha Hv Hs). by apply Hsn.
      + by rewrite (rp_other (Replica := HR i) _ _ _ _ _ Hok Ha Hv Hs). }
  split; [done|]. intros k d ->. destruct (rp_taken (Replica := HR i) _ _ _ _ _ _ Hok Ha) as [-> ->]. done.
Qed.

Lemma oneHistory_read hist c sv c' i m size st st' r :
  oneHistory hist (mkSystem c sv) → net_reachable true n c → nstep true (Reads i m) c c' →
  sv !! i = Some (st, None) → svc_apply (Service := services i) size m st = Ret (st', r) →
  ∃ hist', hist `prefix_of` hist' ∧ oneHistory hist' (mkSystem c' (<[i := (st', r)]> sv)).
Proof.
  intros HO Hc Hst Hsv Ha. destruct (nstep_reads _ _ _ _ _ Hst) as (rf & s & rf' & Hi & Hsend).
  destruct (oh_server _ _ HO _ _ _ _ _ Hsv Hi) as (Hok & -> & Hup & _).
  destruct (rp_ok (Replica := HR i) _ _ _ _ _ Hok Ha) as [Hok' El].
  assert (∀ k d, isSnapshot m k d → upTo hist k (mc_load d)) as Hsn.
  { intros k d Hm. apply (oh_snap _ _ HO). left. exists i, rf, (svc_last (Service := services i) st).
    split; [done|]. right. exists m. split; [by eapply applySend_snap|done]. }
  assert (∃ hist', hist `prefix_of` hist' ∧
    (CommandValid m = true → CommandIndex m = svc_last (Service := services i) st + 1 ∧
       hist' !! Z.to_nat (svc_last (Service := services i) st) = Some (msgCommand m)) ∧
    (hist' = hist ∨ len hist' = svc_last (Service := services i) st') ∧
    ∀ k x, hist' !! k = Some x → ∃ j m', (j, m') ∈ delivered c' ∧
      CommandValid m' = true ∧ CommandIndex m' = Z.of_nat k + 1 ∧ msgCommand m' = x)
    as (hist' & Hpre & Hcmd & Hlen & Hrd).
  { destruct (CommandValid m) eqn:Hv.
    - destruct (history_read _ _ _ _ _ _ _ _ _ HO Hc Hst Hi Hsend Hv (proj1 Hup))
        as (Ei & hist' & ? & ? & Hlen & ?). exists hist'. split_and!; auto. destruct Hlen as [|El']; [by left|right].
      rewrite El, El'. unfold served. by rewrite Hv.
    - exists hist. split_and!; [done|done|by left|]. intros k x Hx.
      destruct (oh_read _ _ HO k x Hx) as (j & m' & Hj & Hm'). exists j, m'. split; [|done].
      rewrite (nstep_delivered _ _ _ _ Hst). by right. }
  assert (upTo hist' (svc_last (Service := services i) st') (stateOf st') ∧
    ∀ k d, r = Some (k, d) → upTo hist' k (mc_load d)) as [Hup' Hpend]
    by (by apply (upTo_read hist hist' i size m st st' r)).
  exists hist'. split; [done|]. eapply (oneHistory_update hist); eauto; [by rewrite length_insert|done| |]; swap 1 2.
  { destruct Hlen as [E|E]; rewrite E; [apply HO|eauto]. }
  intros j st1 p1 rf1 s1 Hj Hn. simpl.
  apply list_lookup_insert_Some in Hj as [(<- & ? & _)|[Hij Hj]]; simplify_eq.
  - rewrite decide_True by done. done.
  - rewrite decide_False by done. destruct (oh_server _ _ HO _ _ _ _ _ Hj Hn) as (? & -> & ? & Hp).
    split_and!; [done|done|by eapply upTo_prefix|]. intros k d ?. eapply upTo_prefix; eauto.
Qed.

Lemma oneHistory_step hist ev y y' : oneHistory hist y → net_reachable true n (raft y) →
  sstep true ev y y' → ∃ hist', hist `prefix_of` hist' ∧ oneHistory hist' y'.
Proof.
  intros HO Hc Hst. destruct Hst as [c c' sv Hst|c c' sv i x b Hst|c c' sv i m size st st' r Hst Hsv Ha
    |c c' sv i k d st Hst Hsv|c c' sv i Hst]; simpl in *; [| |by eapply oneHistory_read| |];
    exists hist; (split; [done|]).
  - eapply oneHistory_keep; [exact HO|exact Hc|exact Hst|done|done|done|]. intros i st p rf s Hi Hn. simpl.
    destruct (oh_server _ _ HO _ _ _ _ _ Hi Hn) as (? & -> & ? & ?). done.
  - eapply oneHistory_keep; [exact HO|exact Hc|exact Hst|done|done|done|]. intros j st p rf s Hj Hn. simpl.
    destruct (oh_server _ _ HO _ _ _ _ _ Hj Hn) as (? & -> & ? & ?). done.
  - assert (∃ rf s, nodes (RaftNet.core c) !! i = Some (rf, s)) as (rf & s & Hi).
    { apply lookup_lt_Some in Hsv. pose proof (oh_len _ _ HO) as Hl. simpl in Hl.
      destruct (lookup_lt_is_Some_2 (nodes (RaftNet.core c)) i) as [[] ?]; [lia|eauto]. }
    destruct (oh_server _ _ HO _ _ _ _ _ Hsv Hi) as (_ & _ & _ & Hp).
    eapply oneHistory_keep; [exact HO|exact Hc|exact Hst|done|by rewrite length_insert
      |intros; simplify_eq; by apply Hp|].
    intros j st1 p1 rf1 s1 Hj Hn. simpl.
    apply list_lookup_insert_Some in Hj as [(<- & ? & _)|[Hij Hj]]; simplify_eq.
    + destruct (oh_server _ _ HO _ _ _ _ _ Hsv Hi) as (? & -> & ? & ?). done.
    + destruct (oh_server _ _ HO _ _ _ _ _ Hj Hn) as (? & -> & ? & ?). done.
  - eapply oneHistory_keep; [exact HO|exact Hc|exact Hst|done|by rewrite length_insert|done|].
    intros j st1 p1 rf1 s1 Hj Hn. simpl.
    apply list_lookup_insert_Some in Hj as [(<- & ? & _)|[Hij Hj]]; simplify_eq.
    + destruct (rp_init (Replica := HR i)) as (? & -> & ->). rewrite decide_True by done.
      split_and!; [done|done|apply upTo_0|done].
    + rewrite decide_False by done. destruct (oh_server _ _ HO _ _ _ _ _ Hj Hn) as (? & -> & ? & ?). done.
Qed.

Lemma sstep_net chk ev y y' : sstep chk ev y y' → nstep chk ev (raft y) (raft y').
Proof. by destruct 1. Qed.

Lemma system_runs_net chk m cr y : system_runs chk m cr y → net_runs chk m cr (raft y).
Proof.
  induction 1 as [y [Hi _]|cr ev y y' _ IH Hst]; [by constructor|].
  eapply nr_step; [exact IH|by eapply sstep_net].
Qed.

(** The history is a part of what was started, in the same order. *)
Lemma history_started cr y hist : system_runs true n cr y → oneHistory hist y → hist `sublist_of` cr.
Proof.
  intros Hr HO. eapply history_in_start_order; [by apply system_runs_net|apply (oh_read _ _ HO)].
Qed.

Lemma oneHistory_init y : system_init n y → oneHistory [] y.
Proof.
  intros [Hn Hs]. destruct (Hn) as [(Hl & _ & _ & _ & _ & Hnodes) (_ & _ & Hsn & _)].
  split; rewrite ?Hs, ?Hsn, ?length_fmap, ?length_seq, ?Hl; [done| | |done|exists mc_init; apply upTo_0].
  - intros i st p rf s Hi Hr. apply list_lookup_fmap_Some in Hi as (j & ? & Hj).
    apply lookup_seq in Hj as [-> _]. simplify_eq/=.
    destruct (Hnodes _ _ _ Hr) as [-> _]. destruct (rp_init (Replica := HR i)) as (? & -> & ->).
    split_and!; [done|done|apply upTo_0|done].
  - intros k d [(i & rf & s & Hi & Hh)|(j & a & Hj & _)].
    + destruct (Hnodes _ _ _ Hi) as (_ & now & Hr). injection Hr as <-.
      destruct Hh as [(<- & _ & ?)|(m & Hm & _)]; [done|by apply not_elem_of_nil in Hm].
    + rewrite Hsn in Hj. by apply not_elem_of_nil in Hj.
Qed.

(** The state of every server is the result of a prefix of one history. *)
Lemma system_one_history y : system_reachable true n y → ∃ hist, oneHistory hist y.
Proof.
  intros (y0 & Hi & Hst).
  assert (net_reachable true n (raft y0)) as Hc by (exists (raft y0); split; [apply Hi|done]).
  assert (∃ hist, oneHistory hist y0) as HO by (exists []; by apply oneHistory_init).
  clear Hi. induction Hst as [y|y y1 y2 [ev Hst] _ IH]; [done|]. destruct HO as [hist HO]. apply IH.
  - eapply reachable_nstep; [exact Hc|by eapply sstep_net].
  - destruct (oneHistory_step _ _ _ _ HO Hc Hst) as (hist' & _ & ?). by exists hist'.
Qed.

Lemma oneHistory_upTo hist y : oneHistory hist y → ∀ i st p, servers y !! i = Some (st, p) →
  upTo hist (svc_last (Service := services i) st) (stateOf st).
Proof.
  intros HO i st p Hi. pose proof (lookup_lt_Some _ _ _ Hi) as Hlt. rewrite (oh_len _ _ HO) in Hlt.
  apply lookup_lt_is_Some_2 in Hlt as [[rf s] Hn]. by destruct (oh_server _ _ HO _ _ _ _ _ Hi Hn) as (_ & _ & ? & _).
Qed.

(** Servers that have read equally far are in the same state. *)
Lemma system_agrees y i j st p st' p' : system_reachable true n y →
  servers y !! i = Some (st, p) → servers y !! j = Some (st', p') →
  svc_last (Service := services i) st = svc_last (Service := services j) st' →
  stateOf st = stateOf st'.
Proof.
  intros [hist HO]%system_one_history Hi Hj Hl. pose proof (oneHistory_upTo _ _ HO) as Hup.
  eapply upTo_same; [by eapply Hup|]. rewrite Hl. by eapply Hup.
Qed.

End system.
