(* ===== verification/Sessions.v ===== *)
(** * Client sessions

    [kvraft] and [shardctrler] keep, for every client, the last operation of
    the log that carried a request of that client, and do not execute an
    operation whose request number is not larger.  This file has the session
    table and the lemma that the two services share: when the requests of each
    client come in order, every request is executed exactly once. *)

From S2P Require Import Prelude Serial.
Local Open Scope Z_scope.

(** The operations of a service, with the client and the number of the request
    they carry out. *)
Class Request (Op : Type) := {
  reqNumOf : Op → Z;
  ckIdOf : Op → Z;
  zeroOp : Op;
}.

Record Session (Op : Type) := mkSession {
  LastOp : Op;
  LastOpVaild : bool;
  LastOpIndex : Z;
}.
Arguments mkSession {Op}.
Arguments LastOp {Op} _.
Arguments LastOpVaild {Op} _.
Arguments LastOpIndex {Op} _.

#[export] Instance Session_serial {Op} `{Serial Op} : Serial (Session Op) :=
  serial_via (λ s, (LastOp s, LastOpVaild s, LastOpIndex s)) (λ '(o, v, i), mkSession o v i).
#[export] Instance Session_serial_laws {Op} `{SerialLaws Op} : SerialLaws (Session Op).
Proof. apply serial_via_laws. by intros []. Qed.

Section sessions.
Context {Op : Type} `{!Request Op}.
Implicit Types (op : Op) (ops : list Op) (ss : gmap Z (Session Op)).

Definition zeroSession : Session Op := mkSession zeroOp false 0.

(** The session says that the operation has been applied before. *)
Definition stable op (index : Z) (session : Session Op) : bool :=
  LastOpVaild session && bool_decide (LastOpIndex session < index)
  && bool_decide (reqNumOf op <= reqNumOf (LastOp session)).

(** The session table after the operation at [index], executed or not. *)
Definition record_op op (index : Z) ss : gmap Z (Session Op) :=
  <[ckIdOf op := mkSession op true index]> ss.

(** ** The state machine that the sessions guard *)

Context {S : Type} (exec : Op → S → outcome S).

Definition sessionRun (index : Z) op (st : S * gmap Z (Session Op))
  : outcome (S * gmap Z (Session Op)) :=
  if stable op index (map_get zeroSession st.2 (ckIdOf op)) then mret (st.1, record_op op index st.2)
  else s ← exec op st.1; mret (s, record_op op index st.2).

(** The operations at indices [i], [i+1], ... *)
Fixpoint sessionRunAll (i : Z) ops (st : S * gmap Z (Session Op))
  : outcome (S * gmap Z (Session Op)) :=
  match ops with
  | [] => mret st
  | op :: ops => st ← sessionRun i op st; sessionRunAll (i + 1) ops st
  end.

(** ** The reference: execute every request once *)

Fixpoint onceEach (seen : gset (Z * Z)) ops : list Op :=
  match ops with
  | [] => []
  | op :: ops =>
      if decide ((ckIdOf op, reqNumOf op) ∈ seen) then onceEach seen ops
      else op :: onceEach ({[(ckIdOf op, reqNumOf op)]} ∪ seen) ops
  end.

Definition execAll ops (s : S) : outcome S := for_range (λ s op, exec op s) s ops.

(** The requests of each client come in the order in which it made them; a
    request may come several times. *)
Definition clientsInOrder ops : Prop :=
  ∀ i j op op', (i < j)%nat → ops !! i = Some op → ops !! j = Some op' →
    ckIdOf op = ckIdOf op' → reqNumOf op ≤ reqNumOf op'.

(** The sessions know the last request of each client. *)
Record sessionsOk (seen : gset (Z * Z)) ss (last : Z) : Prop := {
  so_session : ∀ c s, ss !! c = Some s →
    LastOpVaild s = true ∧ LastOpIndex s ≤ last ∧ (c, reqNumOf (LastOp s)) ∈ seen;
  so_seen : ∀ c r, (c, r) ∈ seen → ∃ s, ss !! c = Some s ∧ r ≤ reqNumOf (LastOp s);
}.

(** The requests to come are not older than the ones seen. *)
Definition newer (seen : gset (Z * Z)) ops : Prop :=
  ∀ op r, op ∈ ops → (ckIdOf op, r) ∈ seen → r ≤ reqNumOf op.

Lemma stable_spec seen ss last op index : sessionsOk seen ss last → last < index →
  newer seen [op] →
  stable op index (map_get zeroSession ss (ckIdOf op))
    = bool_decide ((ckIdOf op, reqNumOf op) ∈ seen).
Proof.
  intros [Hs Hseen] Hi Hn. unfold stable, map_get.
  destruct (ss !! ckIdOf op) as [s|] eqn:Hk; simpl.
  - destruct (Hs _ _ Hk) as (-> & Hle & Hin). rewrite bool_decide_eq_true_2 by lia. simpl.
    apply bool_decide_ext. split.
    + intros Hr. assert (reqNumOf (LastOp s) ≤ reqNumOf op) by (apply Hn; [set_solver|done]).
      by replace (reqNumOf op) with (reqNumOf (LastOp s)) by lia.
    + intros Hr. destruct (Hseen _ _ Hr) as (s' & Hs' & ?). rewrite Hk in Hs'. by simplify_eq.
  - rewrite bool_decide_eq_false_2; [done|]. intros Hr.
    destruct (Hseen _ _ Hr) as (s & ? & _). congruence.
Qed.

Lemma sessionsOk_step seen ss last op i : sessionsOk seen ss last → newer seen [op] → last ≤ i →
  sessionsOk ({[(ckIdOf op, reqNumOf op)]} ∪ seen) (record_op op i ss) i.
Proof.
  intros [Hs Hseen] Hn Hi. unfold record_op. split.
  - intros c s Hc. apply lookup_insert_Some in Hc as [[<- <-]|[Hne Hc]].
    + simpl. split; [done|]. split; [lia|]. set_solver.
    + destruct (Hs _ _ Hc) as (? & ? & ?). split; [done|]. split; [lia|]. set_solver.
  - intros c r Hin. destruct (decide (c = ckIdOf op)) as [->|Hne].
    + rewrite lookup_insert_eq. eexists. split; [done|]. simpl.
      apply elem_of_union in Hin as [Hin|Hin]; [set_solver by lia|]. apply Hn; [set_solver|done].
    + rewrite lookup_insert_ne by done. apply Hseen. set_solver.
Qed.

Lemma sessionRunAll_from seen ops i s ss last :
  clientsInOrder ops → newer seen ops → sessionsOk seen ss last → last < i →
  (st ← sessionRunAll i ops (s, ss); mret st.1) = execAll (onceEach seen ops) s.
Proof.
  revert seen i s ss last. induction ops as [|op ops IH]; intros seen i s ss last Hord Hnew Hok Hi;
    [done|].
  assert (newer seen [op]) as Hn1 by (intros o r Ho; apply Hnew; set_solver).
  assert (clientsInOrder ops) as Hord'.
  { intros a b o o' Hab Ha Hb. by apply (Hord (Datatypes.S a) (Datatypes.S b)); [lia|..]. }
  assert (newer ({[(ckIdOf op, reqNumOf op)]} ∪ seen) ops) as Hnew'.
  { intros o x Ho [Hin|Hin]%elem_of_union; [|by apply Hnew; [right|]].
    apply list_elem_of_lookup in Ho as [j Hj]. apply elem_of_singleton in Hin. simplify_eq.
    apply (Hord 0%nat (Datatypes.S j)); auto with lia. }
  pose proof (sessionsOk_step _ _ _ _ i Hok Hn1 ltac:(lia)) as Hok'.
  cbn [sessionRunAll onceEach]. unfold sessionRun. simpl.
  rewrite (stable_spec seen ss last) by done. case_bool_decide as Hin.
  - rewrite (decide_True (P := _ ∈ seen)) by done. rewrite bind_mret.
    replace ({[(ckIdOf op, reqNumOf op)]} ∪ seen) with seen in Hok' by set_solver.
    apply (IH seen _ _ _ i); auto; [|lia]. intros o r Ho. apply Hnew. by right.
  - rewrite (decide_False (P := _ ∈ seen)) by done. unfold execAll. cbn [for_range].
    destruct (exec op s) as [s'| | |]; try done. rewrite !bind_Ret, ?bind_mret.
    apply (IH _ _ _ _ i); auto. lia.
Qed.

(** Starting with no session. *)
Lemma sessionRunAll_once ops s : clientsInOrder ops →
  (st ← sessionRunAll 1 ops (s, ∅); mret st.1) = execAll (onceEach ∅ ops) s.
Proof.
  intros Hord. apply (sessionRunAll_from _ _ _ _ _ 0); [done| | |lia].
  - intros op r _ []%not_elem_of_empty.
  - split; [intros c x Hc; by rewrite lookup_empty in Hc|intros c r []%not_elem_of_empty].
Qed.

(** What a session remembers has come. *)
Lemma sessionRunAll_sessions i ops st st' c ses : sessionRunAll i ops st = Ret st' →
  st'.2 !! c = Some ses → st.2 !! c = Some ses ∨ LastOp ses ∈ ops ∧ ckIdOf (LastOp ses) = c.
Proof.
  revert i st. induction ops as [|op ops IH]; intros i st Hr Hs; cbn [sessionRunAll] in Hr.
  { injection Hr as <-. by left. }
  apply bind_Ret_inv in Hr as (st1 & H1 & Hr). destruct (IH _ _ Hr Hs) as [H2|[Hin Hc]]; [|right; split; [by right|done]].
  assert (st1.2 = record_op op i st.2) as E.
  { unfold sessionRun in H1. destruct (stable _ _ _); [by injection H1 as <-|].
    apply bind_Ret_inv in H1 as (x & _ & H1). by injection H1 as <-. }
  rewrite E in H2. unfold record_op in H2. apply lookup_insert_Some in H2 as [[<- <-]|[_ H2]]; [|by left].
  right. split; [by left|done].
Qed.

Lemma execAll_app l l' s : execAll (l ++ l') s = s' ← execAll l s; execAll l' s'.
Proof.
  unfold execAll. revert s. induction l as [|o l IH]; intros s; [done|]. simpl.
  destruct (exec o s) as [s'| | |]; [apply IH|done..].
Qed.

End sessions.

(** ** Requests and their order *)

Section order.
Context {Op : Type} `{!Request Op}.
Implicit Types (op : Op) (ops : list Op).

(** The request that an operation carries out. *)
Definition requestOf op : Z * Z := (ckIdOf op, reqNumOf op).

(** One more operation is executed unless its request has come before. *)
Lemma onceEach_snoc seen ops op :
  onceEach seen (ops ++ [op]) = onceEach seen ops ++
    (if decide (requestOf op ∈ seen ∨ requestOf op ∈ requestOf <$> ops) then [] else [op]).
Proof.
  revert seen. induction ops as [|o ops IH]; intros seen; cbn [onceEach app fmap list_fmap].
  - change (ckIdOf op, reqNumOf op) with (requestOf op). destruct (decide (requestOf op ∈ seen)) as [Hin|Hin].
    + rewrite decide_True by (by left). done.
    + rewrite decide_False by (rewrite elem_of_nil; tauto). done.
  - change (ckIdOf o, reqNumOf o) with (requestOf o). destruct (decide (requestOf o ∈ seen)) as [Hin|Hin];
      rewrite IH; cbn [app]; [|f_equal]; f_equal; apply decide_ext;
      rewrite elem_of_cons, ?elem_of_union, ?elem_of_singleton; [|tauto].
    split; [tauto|]. intros [?|[->|?]]; auto.
Qed.

(** The order of requests, between any two operations. *)
Definition notAfter op op' : Prop := ckIdOf op = ckIdOf op' → reqNumOf op ≤ reqNumOf op'.

Lemma clientsInOrder_sorted ops : clientsInOrder ops ↔ StronglySorted notAfter ops.
Proof.
  induction ops as [|op ops IH]; split.
  - constructor.
  - by intros _ i j o o' _ ?.
  - intros Ho. constructor.
    + apply IH. intros i j o o' Hij Hi Hj. by apply (Ho (S i) (S j)); [lia|..].
    + apply Forall_forall. intros o [j Hj]%list_elem_of_lookup_1. intros Hc.
      by apply (Ho 0%nat (S j)); [lia|..].
  - intros [Hs Hf]%StronglySorted_inv. apply IH in Hs. rewrite Forall_forall in Hf.
    intros [|i] [|j] o o' Hij Hi Hj; [lia| |lia|]; simpl in *.
    + simplify_eq. apply Hf. by eapply list_elem_of_lookup_2.
    + apply (Hs i j); [lia|done..].
Qed.

Lemma clientsInOrder_sublist ops ops' : ops `sublist_of` ops' → clientsInOrder ops' → clientsInOrder ops.
Proof.
  rewrite !clientsInOrder_sorted. induction 1 as [|op l l' Hl IH|op l l' Hl IH]; [done| |].
  - intros [Hs Hf]%StronglySorted_inv. constructor; [by apply IH|].
    rewrite Forall_forall in *. intros o Ho. apply Hf. by eapply elem_of_sublist.
  - intros [Hs _]%StronglySorted_inv. by apply IH.
Qed.

Lemma onceEach_Forall (P : Op → Prop) seen ops : Forall P ops → Forall P (onceEach seen ops).
Proof.
  intros Hf. revert seen. induction Hf as [|op ops Hp _ IH]; intros seen; simpl; [done|].
  case_decide; [done|]. by constructor.
Qed.

End order.

Lemma sessionRunAll_ext {Op S} `{!Request Op} (exec exec' : Op → S → outcome S) i ops st :
  (∀ op s, exec op s = exec' op s) → sessionRunAll exec i ops st = sessionRunAll exec' i ops st.
Proof.
  intros He. revert i st. induction ops as [|op ops IH]; intros i st; [done|].
  assert (sessionRun exec i op st = sessionRun exec' i op st) as Hs
    by (unfold sessionRun; by rewrite He).
  cbn [sessionRunAll]. rewrite Hs. by destruct (sessionRun exec' i op st); simpl.
Qed.
