(* ===== verification/KVRaft.v ===== *)
(** * The replicated key/value server ([src/kvraft])

    The server above Raft: the RPC handler that starts an operation, the poll
    that waits for it, the apply loop with its session table, snapshots, and
    the clerk. *)

From S2P Require Import Prelude Serial Sessions RaftState RaftNode RaftInv RaftIndex RaftApply RaftSteps Service.
Local Open Scope Z_scope.

(** ** [common.go] *)

Definition ERR_OK : string := "".
Definition ERR_NotLeader : string := "Not leader".
Definition ERR_FailedToCommit : string := "Failed to commit".
Definition ERR_CommitTimeout : string := "Commit timeout".

Definition OT_GET : string := "Get".
Definition OT_PUT : string := "Put".
Definition OT_APPEND : string := "Append".

Record PutAppendArgs := mkPutAppendArgs {
  pa_Key : string; pa_Value : string; pa_Id : Z; pa_ReqNum : Z;
}.
Record GetArgs := mkGetArgs { ga_Key : string; ga_Id : Z; ga_ReqNum : Z }.

(** [GenericArgs] is the interface of the two argument types; the handler
    converts back to the concrete type. *)
Inductive GenericArgs :=
| AGet (args : GetArgs)
| APutAppend (args : PutAppendArgs).

Definition getId (args : GenericArgs) : Z :=
  match args with AGet a => ga_Id a | APutAppend a => pa_Id a end.
Definition getReqNum (args : GenericArgs) : Z :=
  match args with AGet a => ga_ReqNum a | APutAppend a => pa_ReqNum a end.

(** The reply: [Err], [Value] (of a [GetReply]) and [ServerName]. *)
Record Reply := mkReply { r_Err : string; r_Value : string; r_ServerName : Z }.

(** ** [server.go]: data *)

Record Op := mkOp {
  op_Type : string;
  op_Number : Z;
  op_Key : string;
  op_Value : string;
  op_ReqNum : Z;
  op_CkId : Z;
}.

#[export] Instance Op_eq_dec : EqDecision Op.
Proof. solve_decision. Defined.
#[export] Instance Op_serial : Serial Op :=
  serial_via (λ o, (op_Type o, op_Number o, op_Key o, op_Value o, op_ReqNum o, op_CkId o))
    (λ '(t, n, k, v, r, c), mkOp t n k v r c).
#[export] Instance Op_serial_laws : SerialLaws Op.
Proof. apply serial_via_laws. by intros []. Qed.

#[export] Instance Op_request : Request Op := {|
  reqNumOf := op_ReqNum;
  ckIdOf := op_CkId;
  zeroOp := mkOp "" 0 "" "" 0 0;
|}.

Record Snapshot := mkSnapshot {
  Mp : gmap string string;
  CkSessions : gmap Z (Session Op);
  Maker : Z;
}.

#[export] Instance Snapshot_serial : Serial Snapshot :=
  serial_via (λ s, (Mp s, CkSessions s, Maker s)) (λ '(m, c, k), mkSnapshot m c k).
#[export] Instance Snapshot_serial_laws : SerialLaws Snapshot.
Proof. apply serial_via_laws. by intros []. Qed.

(** The server; [persister] and [rf] are the peer below. *)
Record KVServer := mkKVServer {
  kv_me : Z;
  kv_dead : bool;
  maxraftstate : Z;
  mp : gmap string string;
  ckSessions : gmap Z (Session Op);
  logRecord : gmap Z Op;
  confirmMap : gmap Z bool;
  kv_lastApplied : Z;
  snapShotIndex : Z;
}.

Definition StartKVServer (meId maxraftstate : Z) : KVServer :=
  mkKVServer meId false maxraftstate ∅ ∅ ∅ ∅ 0 0.

Definition Kill (kv : KVServer) : KVServer :=
  mkKVServer (kv_me kv) true (maxraftstate kv) (mp kv) (ckSessions kv) (logRecord kv)
    (confirmMap kv) (kv_lastApplied kv) (snapShotIndex kv).
Definition killed (kv : KVServer) : bool := kv_dead kv.

(** ** The RPC handlers *)

(** [args.( *GetArgs).Key] and [args.( *PutAppendArgs).Key]: the conversion to
    the wrong type panics. *)
Definition asGet (args : GenericArgs) : outcome GetArgs :=
  match args with AGet a => mret a | _ => Panic end.
Definition asPutAppend (args : GenericArgs) : outcome PutAppendArgs :=
  match args with APutAppend a => mret a | _ => Panic end.

(** The reply of a finished operation. *)
Definition finished (kv : KVServer) (args : GenericArgs) (opType : string) : outcome Reply :=
  if decide (opType ≠ OT_GET) then _ ← asPutAppend args; mret (mkReply ERR_OK "" (kv_me kv))
  else a ← asGet args; mret (mkReply ERR_OK (map_get "" (mp kv) (ga_Key a)) (kv_me kv)).

(** The operation that the handler builds; [number] is the value of [nrand()]. *)
Definition newOp (number : Z) (args : GenericArgs) (opType : string) : outcome Op :=
  if decide (opType ≠ OT_GET) then
    a ← asPutAppend args;
    mret (mkOp opType number (pa_Key a) (pa_Value a) (pa_ReqNum a) (pa_Id a))
  else
    a ← asGet args;
    mret (mkOp OT_GET number (ga_Key a) "" (ga_ReqNum a) (ga_Id a)).

(** What the first critical section of [handleNormalRPC] ends with: a reply, or
    an operation that was started at an index and is now waited for. *)
Inductive rpc := Replied (reply : Reply) | Waiting (op : Op) (index : Z).

Definition handleNormalRPC `{Codec (@persistent Op)} (number : Z) (args : GenericArgs)
    (opType : string) (kv : KVServer) (rf : Raft Op) : outcome (Raft Op * rpc) :=
  let session := map_get zeroSession (ckSessions kv) (getId args) in
  let finishedBefore :=
    LastOpVaild session && bool_decide (op_ReqNum (LastOp session) = getReqNum args) &&
    match logRecord kv !! LastOpIndex session with
    | Some op => bool_decide (op_Number op = op_Number (LastOp session))
    | None => false
    end in
  if finishedBefore : bool then reply ← finished kv args opType; mret (rf, Replied reply)
  else
    op ← newOp number args opType;
    r ← Start (Some op) rf;
    let '(rf, (index, _, isLeader)) := r in
    if isLeader : bool then mret (rf, Waiting op index)
    else mret (rf, Replied (mkReply ERR_NotLeader "" (kv_me kv))).

Definition Get `{Codec (@persistent Op)} number (args : GetArgs) :=
  handleNormalRPC number (AGet args) OT_GET.
Definition Put `{Codec (@persistent Op)} number (args : PutAppendArgs) :=
  handleNormalRPC number (APutAppend args) OT_PUT.
Definition Append `{Codec (@persistent Op)} number (args : PutAppendArgs) :=
  handleNormalRPC number (APutAppend args) OT_APPEND.

(** One round of the loop of [waittingForCommit], [elapsed] nanoseconds after
    its start; [None] is another round. *)
Definition waittingForCommit (elapsed : Z) (op : Op) (index : Z) (args : GenericArgs)
    (opType : string) (kv : KVServer) : outcome (option Reply) :=
  let timeout := mkReply ERR_CommitTimeout "" (kv_me kv) in
  if killed kv then mret (Some timeout)
  else
    let rest := if decide (elapsed > 30 * 1000000) then Some timeout else None in
    if decide (index <= kv_lastApplied kv) then
      match logRecord kv !! index with
      | Some finishedOp =>
          if decide (op_Number finishedOp = op_Number op)
          then reply ← finished kv args opType; mret (Some reply)
          else mret (Some (mkReply ERR_FailedToCommit "" (kv_me kv)))
      | None => mret rest
      end
    else mret rest.

(** ** The apply loop *)

(** The switch on the type of an operation. *)
Definition execOp (op : Op) (m : gmap string string) : outcome (gmap string string) :=
  if decide (op_Type op = OT_GET) then mret m
  else if decide (op_Type op = OT_PUT) then mret (<[op_Key op := op_Value op]> m)
  else if decide (op_Type op = OT_APPEND) then
    mret (<[op_Key op := String.append (map_get "" m (op_Key op)) (op_Value op)]> m)
  else Fatal.

(** The records that have been confirmed are forgotten before a snapshot. *)
Definition pruneRecords (kv : KVServer) : gmap Z Op * gmap Z bool :=
  (filter (λ '(key, _), map_get false (confirmMap kv) key = false) (logRecord kv),
   filter (λ '(key, _), ¬ (map_get false (confirmMap kv) key = true
                           ∧ is_Some (logRecord kv !! key))) (confirmMap kv)).

(** One iteration of [handleApplyMsg]: the new server, and the snapshot that it
    hands to Raft, if any; [size] is [persister.RaftStateSize()]. *)
Definition handleApplyMsg `{Codec Snapshot} (size : Z) (m : ApplyMsg Op) (kv : KVServer)
  : outcome (KVServer * option (Z * bytes)) :=
  if CommandValid m then
    match msgCommand m with
    | None => Panic
    | Some op =>
        if decide (kv_lastApplied kv + 1 ≠ CommandIndex m) then Fatal
        else
          let records := <[CommandIndex m := op]> (logRecord kv) in
          let session := map_get zeroSession (ckSessions kv) (op_CkId op) in
          let sessions := record_op op (CommandIndex m) (ckSessions kv) in
          let kv' mp :=
            mkKVServer (kv_me kv) (kv_dead kv) (maxraftstate kv) mp sessions records
              (confirmMap kv) (CommandIndex m) (snapShotIndex kv) in
          if stable op (CommandIndex m) session then mret (kv' (mp kv), None)
          else
            mp' ← execOp op (mp kv);
            if decide (maxraftstate kv ≠ -1 ∧ size >= maxraftstate kv) then
              let '(records, confirm) := pruneRecords (kv' mp') in
              mret (mkKVServer (kv_me kv) (kv_dead kv) (maxraftstate kv) mp' sessions records
                      confirm (CommandIndex m) (snapShotIndex kv),
                    Some (CommandIndex m, enc (mkSnapshot mp' sessions (kv_me kv))))
            else mret (kv' mp', None)
    end
  else if SnapshotValid m then
    (* the error of the decoder is ignored: the maps then read as empty *)
    let snapshot := default (mkSnapshot ∅ ∅ 0) (dec (msgSnapshot m)) in
    mret (mkKVServer (kv_me kv) (kv_dead kv) (maxraftstate kv) (Mp snapshot) (CkSessions snapshot)
            (logRecord kv) (confirmMap kv) (msgSnapshotIndex m) (snapShotIndex kv), None)
  else mret (kv, None).

(** ** [client.go] *)

Record Clerk := mkClerk { servers : nat; ck_id : Z; leader : Z; reqNum : Z }.

Definition MakeClerk (servers : nat) (nrand : Z) : Clerk := mkClerk servers nrand 0 1.

(** The start of [Get] and [PutAppend]: the arguments and the new clerk. *)
Definition clerkGet (key : string) (ck : Clerk) : Clerk * GenericArgs :=
  (mkClerk (servers ck) (ck_id ck) (leader ck) (reqNum ck + 1),
   AGet (mkGetArgs key (ck_id ck) (reqNum ck))).
Definition clerkPutAppend (key value : string) (ck : Clerk) : Clerk * GenericArgs :=
  (mkClerk (servers ck) (ck_id ck) (leader ck) (reqNum ck + 1),
   APutAppend (mkPutAppendArgs key value (ck_id ck) (reqNum ck))).

(** The retry loop, over the results of the calls it makes: [None] is a failed
    call.  It returns the clerk and the reply, or the server to try next. *)
Fixpoint clerkRetry (serverNum : Z) (results : list (option Reply)) (ck : Clerk)
  : (Clerk * Reply) + Z :=
  match results with
  | [] => inr serverNum
  | r :: results =>
      let next := (serverNum + 1) mod Z.of_nat (servers ck) in
      match r with
      | Some reply =>
          if decide (r_Err reply = ERR_OK)
          then inl (mkClerk (servers ck) (ck_id ck) serverNum (reqNum ck), reply)
          else clerkRetry next results ck
      | None => clerkRetry next results ck
      end
  end.

(** ** The service interface *)

Definition validType (op : Op) : Prop :=
  op_Type op = OT_GET ∨ op_Type op = OT_PUT ∨ op_Type op = OT_APPEND.

(** The messages that the log holds when only servers submit operations. *)
Definition msgOk (m : ApplyMsg Op) : Prop := ∃ op, msgCommand m = Some op ∧ validType op.

Section server.
Context `{Codec Snapshot}.

#[local] Instance kvService (meId maxraftstate : Z) : Service Op KVServer := {|
  svc_init := StartKVServer meId maxraftstate;
  svc_last := kv_lastApplied;
  svc_apply := handleApplyMsg;
  svc_msgOk m _ := msgOk m;
|}.

Lemma execOp_returns op m : validType op → returns (execOp op m).
Proof. unfold execOp. intros [Ht|[Ht|Ht]]; rewrite Ht; by eexists. Qed.

(** The two effects of a command, on the map and on the session table, and
    nothing else that decides later behaviour. *)
Lemma handleApplyMsg_command size m kv op :
  CommandValid m = true → msgCommand m = Some op → validType op →
  CommandIndex m = kv_lastApplied kv + 1 →
  ∃ kv' r mp', handleApplyMsg size m kv = Ret (kv', r) ∧
    mp kv' = mp' ∧
    (if stable op (CommandIndex m) (map_get zeroSession (ckSessions kv) (op_CkId op))
     then mp' = mp kv else execOp op (mp kv) = Ret mp') ∧
    ckSessions kv' = record_op op (CommandIndex m) (ckSessions kv) ∧
    kv_lastApplied kv' = CommandIndex m ∧
    (∀ i b, r = Some (i, b) →
       i = CommandIndex m ∧ b = enc (mkSnapshot (mp kv') (ckSessions kv') (kv_me kv))).
Proof.
  intros Hv Hop Ht Hi. unfold handleApplyMsg. rewrite Hv, Hop, decide_False by lia.
  destruct (stable _ _ _); [eexists _, _, _; split; [done|]; by repeat split|].
  destruct (execOp_returns op (mp kv) Ht) as [mp' ->]. rewrite bind_Ret.
  case_decide; eexists _, _, mp'; (split; [done|]); (do 4 (split; [done|])); [|done].
  intros i b [= <- <-]. done.
Qed.

#[local] Instance kvService_laws meId mrs :
  @ServiceLaws Op KVServer (kvService meId mrs).
Proof.
  split; simpl; [done| |].
  - intros size m st (op & Hop & Ht) Hc Hi.
    destruct (handleApplyMsg_command size m st op) as (kv' & r & mp' & Hr & _ & _ & _ & _ & Hsn); auto.
    exists kv', r. split; [done|]. intros i b Hib. by destruct (Hsn i b Hib).
  - intros size m st st' r. unfold handleApplyMsg, served, pruneRecords.
    destruct (CommandValid m); [|destruct (SnapshotValid m); intros; by inv_ret].
    destruct (msgCommand m) as [op|]; [|done]. case_decide; [done|].
    destruct (stable _ _ _); intros Hr; inv_ret; [done|]. case_decide; inv_ret; done.
Qed.

(** The check of the apply loop never fires.  In every reachable state of a
    server on top of its peer, through crashes, installed snapshots and log
    truncation, the next command is applied; it never reaches the [log.Fatalf]
    for commands out of order. *)
Theorem kvraft_never_out_of_order `{Codec (@persistent Op)} `{!CodecLaws (@persistent Op)}
    n meId mrs rf kv m rf' size :
  0 ≤ meId < Z.of_nat n →
  @service_reachable Op KVServer _ (kvService meId mrs) n meId rf kv →
  applySend rf = (Some m, rf') → CommandValid m = true → msgOk m →
  ∃ kv' r, handleApplyMsg size m kv = Ret (kv', r) ∧ kv_lastApplied kv' = kv_lastApplied kv + 1 ∧
           @service_reachable Op KVServer _ (kvService meId mrs) n meId rf' kv'.
Proof.
  intros Hme Hr Hs Hc Hok.
  exact (service_applies (St := KVServer) (Service0 := kvService meId mrs) n meId rf kv m rf' size
    Hme Hr Hs Hc Hok).
Qed.

(** ** Each request is executed once *)

(** The commands at indices [i], [i+1], ... *)
Fixpoint commands (i : Z) (ops : list Op) : list (ApplyMsg Op) :=
  match ops with
  | [] => []
  | op :: ops => commandMsg (Some op) i :: commands (i + 1) ops
  end.

(** The apply loop over a list of messages; [sizes] gives the size of the
    persisted state at each index. *)
Definition applyAll (sizes : Z → Z) (ms : list (ApplyMsg Op)) (kv : KVServer) : outcome KVServer :=
  for_range (λ kv m, r ← handleApplyMsg (sizes (kv_lastApplied kv)) m kv; mret r.1) kv ms.

(** The apply loop is the state machine that the sessions guard, on the map. *)
Lemma applyAll_sessions sizes ops kv :
  Forall validType ops →
  ∃ kv', applyAll sizes (commands (kv_lastApplied kv + 1) ops) kv = Ret kv' ∧
    sessionRunAll execOp (kv_lastApplied kv + 1) ops (mp kv, ckSessions kv)
      = Ret (mp kv', ckSessions kv') ∧
    kv_lastApplied kv' = kv_lastApplied kv + len ops.
Proof.
  revert kv. induction ops as [|op ops IH]; intros kv Hty.
  { exists kv. do 2 (split; [done|]). rewrite len_nil. lia. }
  apply Forall_cons in Hty as [Ht Hty].
  destruct (handleApplyMsg_command (sizes (kv_lastApplied kv))
    (commandMsg (Some op) (kv_lastApplied kv + 1)) kv op) as (kv1 & r & m1 & Hr & Hm1 & Hst & Hk & Hl & _);
    auto. simpl in Hst, Hk, Hl.
  destruct (IH kv1 Hty) as (kv' & Ha & Hs & Hlast). rewrite Hl in Ha, Hs, Hlast.
  exists kv'. unfold applyAll in *. cbn [commands for_range sessionRunAll].
  rewrite Hr, bind_Ret, bind_mret. simpl. split; [done|]. rewrite len_cons. split; [|lia].
  unfold sessionRun. simpl. rewrite Hm1, Hk in Hs. destruct (stable _ _ _).
  - rewrite bind_mret, <- Hst. exact Hs.
  - rewrite Hst, bind_Ret. exact Hs.
Qed.

(** Exactly once.  When the requests of every client reach the log in the
    order it made them, each any number of times, applying the log returns and
    the map is what executing every request exactly once, in log order of first
    appearance, gives; snapshots taken on the way do not matter. *)
Theorem kvraft_exactly_once sizes meId mrs ops :
  Forall validType ops → clientsInOrder ops →
  ∃ kv, applyAll sizes (commands 1 ops) (StartKVServer meId mrs) = Ret kv ∧
        execAll execOp (onceEach ∅ ops) ∅ = Ret (mp kv) ∧ kv_lastApplied kv = len ops.
Proof.
  intros Hty Hord.
  destruct (applyAll_sessions sizes ops (StartKVServer meId mrs) Hty) as (kv & Ha & Hs & Hl).
  exists kv. split; [exact Ha|]. split; [|done]. rewrite <- (sessionRunAll_once execOp ops ∅ Hord).
  simpl in Hs. change (0 + 1) with 1 in Hs. by rewrite Hs.
Qed.

(** ** Records of the applied operations *)

(** The server has a record of every operation it has applied, and no record
    was ever confirmed. *)
Record recordsOk (ops : list Op) (kv : KVServer) : Prop := {
  ro_confirm : confirmMap kv = ∅;
  ro_last : kv_lastApplied kv = len ops;
  ro_record : ∀ i op, ops !! i = Some op → logRecord kv !! (Z.of_nat i + 1) = Some op;
}.

Lemma prune_nothing (rs : gmap Z Op) :
  filter (λ '(key, _), map_get false (∅ : gmap Z bool) key = false) rs = rs.
Proof. by apply map_filter_id. Qed.

Lemma recordsOk_step size ops op kv kv' r :
  recordsOk ops kv → handleApplyMsg size (commandMsg (Some op) (kv_lastApplied kv + 1)) kv = Ret (kv', r) →
  recordsOk (ops ++ [op]) kv'.
Proof.
  intros [Hc Hl Hr] Ha.
  assert (confirmMap kv' = ∅ ∧ logRecord kv' = <[kv_lastApplied kv + 1 := op]> (logRecord kv) ∧
    kv_lastApplied kv' = kv_lastApplied kv + 1) as (Hc' & Hr' & Hl').
  { unfold handleApplyMsg in Ha. simpl in Ha. rewrite decide_False in Ha by lia.
    destruct (stable _ _ _); inv_ret; [done|]. case_decide; [|by inv_ret].
    inv_ret. simpl. by rewrite Hc, prune_nothing, map_filter_empty. }
  split; [done|rewrite Hl', Hl, len_app; done|].
  rewrite Hr', Hl. intros i o [Hi|[Hge Hi]]%lookup_app_Some.
  - rewrite lookup_insert_ne by (apply lookup_lt_Some in Hi; unfold len; lia). by apply Hr.
  - destruct (i - length ops)%nat eqn:Hd; [|done]. simplify_eq/=.
    replace (Z.of_nat i + 1) with (len ops + 1) by (unfold len; lia). apply lookup_insert_eq.
Qed.

Lemma applyAll_records sizes done ops kv kv' : recordsOk done kv →
  applyAll sizes (commands (kv_lastApplied kv + 1) ops) kv = Ret kv' → recordsOk (done ++ ops) kv'.
Proof.
  revert done kv. induction ops as [|op ops IH]; intros d kv Hok Ha; unfold applyAll in *; simpl in Ha.
  { inv_ret. by rewrite app_nil_r. }
  inv_ret. destruct x0 as [kv1 r]. simpl in *.
  match goal with Hh : handleApplyMsg _ _ _ = _ |- _ =>
    pose proof (recordsOk_step _ _ _ _ _ _ Hok Hh) as Hok' end.
  replace (d ++ op :: ops) with ((d ++ [op]) ++ ops) by (by rewrite <- app_assoc).
  apply (IH _ _ Hok'). replace (kv_lastApplied kv1 + 1) with (kv_lastApplied kv + 1 + 1); [done|].
  rewrite (ro_last _ _ Hok), (ro_last _ _ Hok'), len_app. done.
Qed.

(** What a waiting handler learns.  Once a server has applied the log up to
    the index at which a handler started its operation, the next poll answers:
    [ERR_OK] if the entry there is that operation (and for a [Get], the value
    in the current map), [ERR_FailedToCommit] if another one took its place. *)
Theorem waittingForCommit_answers sizes meId mrs ops kv i op op' args opType elapsed :
  applyAll sizes (commands 1 ops) (StartKVServer meId mrs) = Ret kv →
  ops !! i = Some op' → newOp (op_Number op) args opType = Ret op →
  ∃ reply, waittingForCommit elapsed op (Z.of_nat i + 1) args opType kv = Ret (Some reply) ∧
    (op_Number op' = op_Number op ↔ r_Err reply = ERR_OK) ∧
    (op_Number op' ≠ op_Number op ↔ r_Err reply = ERR_FailedToCommit) ∧
    (r_Err reply = ERR_OK → opType = OT_GET → r_Value reply = map_get "" (mp kv) (op_Key op)).
Proof.
  intros Ha Hi Hnew. destruct (applyAll_records sizes [] ops (StartKVServer meId mrs) kv)
    as [_ Hl Hr]; [by split|done|]. simpl in Hl, Hr.
  assert (killed kv = false) as Hk.
  { clear -Ha. revert Ha. unfold applyAll.
    enough (∀ ms kv0, kv_dead kv0 = false → for_range (λ kv m,
      r ← handleApplyMsg (sizes (kv_lastApplied kv)) m kv; mret r.1) kv0 ms = Ret kv → kv_dead kv = false)
      as Hd by (by apply Hd).
    induction ms as [|m ms IH]; intros kv0 H0 Hf; simpl in Hf; inv_ret; [done|].
    eapply IH, Hf. destruct x0 as [kv1 r]. simpl. unfold handleApplyMsg, pruneRecords in *.
    repeat (case_match; inv_ret; try done). }
  unfold waittingForCommit. rewrite Hk.
  rewrite decide_True by (apply lookup_lt_Some in Hi; unfold len in *; lia).
  rewrite (Hr _ _ Hi). case_decide as Hn.
  - unfold finished, newOp in *. destruct (decide (opType ≠ OT_GET)) as [Ht|Ht].
    + destruct args as [a|a]; [done|]. eexists. split; [done|]. simpl. naive_solver.
    + destruct args as [a|a]; [|done]. injection Hnew as <-. eexists. split; [done|]. naive_solver.
  - eexists. split; [done|]. simpl. naive_solver.
Qed.

(** ** Replicas and snapshots *)

(** What the replicas of a server agree on. *)
Definition core (kv : KVServer) : gmap string string * gmap Z (Session Op) * Z :=
  (mp kv, ckSessions kv, kv_lastApplied kv).

Lemma handleApplyMsg_core size size' m kv kv1 r kv2 :
  core kv = core kv2 → handleApplyMsg size m kv = Ret (kv1, r) →
  ∃ kv2' r', handleApplyMsg size' m kv2 = Ret (kv2', r') ∧ core kv1 = core kv2'.
Proof.
  unfold core. intros [= Hm Hk Hl] Hr. unfold handleApplyMsg, pruneRecords in *.
  rewrite <- Hm, <- Hk, <- Hl.
  destruct (CommandValid m); [|destruct (SnapshotValid m); inv_ret; eexists _, _; split; try done].
  - destruct (msgCommand m) as [op|]; [|done]. case_decide; [done|].
    destruct (stable _ _ _); [inv_ret; by eexists _, _|].
    destruct (execOp op (mp kv)) as [m'| | |]; try done. rewrite bind_Ret in Hr |- *.
    destruct (decide (maxraftstate kv ≠ -1 ∧ _)), (decide (maxraftstate kv2 ≠ -1 ∧ _));
      inv_ret; eexists _, _; split; done.
  - unfold core. by rewrite Hm, Hk, Hl.
Qed.

Lemma applyAll_core sizes sizes' ms kv kv1 kv2 :
  core kv = core kv2 → applyAll sizes ms kv = Ret kv1 →
  ∃ kv2', applyAll sizes' ms kv2 = Ret kv2' ∧ core kv1 = core kv2'.
Proof.
  unfold applyAll. revert kv kv2. induction ms as [|m ms IH]; intros kv kv2 Hc Hr; simpl in *.
  { inv_ret. by exists kv2. }
  inv_ret. destruct x0 as [kv' r]. simpl in *.
  match goal with Hh : handleApplyMsg _ _ _ = _ |- _ =>
    destruct (handleApplyMsg_core _ (sizes' (kv_lastApplied kv2)) _ _ _ _ _ Hc Hh)
      as (kv2' & r' & -> & Hc') end.
  rewrite bind_Ret, bind_mret. by apply (IH kv').
Qed.

Lemma handleApplyMsg_snapshot `{!CodecLaws Snapshot} size sn i t kv :
  ∃ kv', handleApplyMsg size (snapshotMsg (enc sn) i t) kv = Ret (kv', None) ∧
         core kv' = (Mp sn, CkSessions sn, i).
Proof. unfold handleApplyMsg. simpl. rewrite dec_enc. by eexists. Qed.

(** Snapshots replace the log.  Let a server take a snapshot while it
    applies a command, and go on to apply more messages.  A replica in any
    state, a lagging follower or a restarted server, that installs this
    snapshot and applies the same messages ends with the same map, sessions and
    index, whatever its own snapshot settings. *)
Theorem snapshot_replaces_log `{!CodecLaws Snapshot} size sizes sizes' m kv kv' i b ms kv1 kv2 t :
  handleApplyMsg size m kv = Ret (kv', Some (i, b)) → CommandIndex m = i →
  applyAll sizes ms kv' = Ret kv1 →
  ∃ kv2', applyAll sizes' (snapshotMsg b i t :: ms) kv2 = Ret kv2' ∧ core kv2' = core kv1.
Proof.
  intros Hh Hi Ha.
  assert (b = enc (mkSnapshot (mp kv') (ckSessions kv') (kv_me kv)) ∧ kv_lastApplied kv' = i)
    as [-> Hl].
  { unfold handleApplyMsg, pruneRecords in Hh. destruct (CommandValid m);
      [|destruct (SnapshotValid m); by inv_ret].
    destruct (msgCommand m) as [op|]; [|done]. case_decide; [done|].
    destruct (stable _ _ _); [by inv_ret|]. inv_ret. case_decide; by inv_ret. }
  destruct (handleApplyMsg_snapshot (sizes' (kv_lastApplied kv2))
    (mkSnapshot (mp kv') (ckSessions kv') (kv_me kv)) i t kv2) as (kv3 & Hr & Hc).
  destruct (applyAll_core sizes sizes' ms kv' kv1 kv3) as (kv4 & Ha' & Hc').
  { rewrite Hc. unfold core. by rewrite Hl. }
  { exact Ha. }
  exists kv4. split; [|done]. unfold applyAll in *. cbn [for_range].
  rewrite Hr, bind_Ret, bind_mret. exact Ha'.
Qed.

End server.

(** ** The clerk *)

(** The retry loop reaches every server.  Whatever the calls answer, as long
    as none succeeds, the clerk moves through the servers in a ring: within as
    many calls as there are servers it is at any given one, and its number is
    always a valid index. *)
Theorem clerk_tries_all ck results j :
  Forall (λ r, ∀ reply, r = Some reply → r_Err reply ≠ ERR_OK) results →
  0 ≤ leader ck < Z.of_nat (servers ck) → 0 ≤ j < Z.of_nat (servers ck) →
  length results = servers ck →
  (∀ k, (k ≤ length results)%nat →
     clerkRetry (leader ck) (take k results) ck = inr ((leader ck + Z.of_nat k) mod Z.of_nat (servers ck))) ∧
  ∃ k, (k < servers ck)%nat ∧ clerkRetry (leader ck) (take k results) ck = inr j.
Proof.
  intros Hf Hl Hj Hlen.
  assert (∀ rs s, Forall (λ r, ∀ reply, r = Some reply → r_Err reply ≠ ERR_OK) rs →
    0 ≤ s < Z.of_nat (servers ck) →
    clerkRetry s rs ck = inr ((s + len rs) mod Z.of_nat (servers ck))) as Hr.
  { induction rs as [|r rs IH]; intros s Hrs Hs; simpl.
    - rewrite len_nil, Z.add_0_r, Z.mod_small by done. done.
    - apply Forall_cons in Hrs as [Hr Hrs]. rewrite len_cons.
      assert (clerkRetry ((s + 1) mod Z.of_nat (servers ck)) rs ck =
        inr ((s + (len rs + 1)) mod Z.of_nat (servers ck))) as Hgo.
      { rewrite IH by (done || apply Z.mod_pos_bound; lia).
        rewrite Z.add_mod_idemp_l by lia. do 2 f_equal. lia. }
      destruct r as [reply|]; [|done]. rewrite decide_False by (by apply Hr). done. }
  assert (∀ k, (k ≤ length results)%nat → clerkRetry (leader ck) (take k results) ck =
    inr ((leader ck + Z.of_nat k) mod Z.of_nat (servers ck))) as Hk.
  { intros k Hk. rewrite Hr by (done || by apply Forall_take).
    unfold len. by rewrite length_take_le. }
  split; [done|]. exists (Z.to_nat ((j - leader ck) mod Z.of_nat (servers ck))).
  pose proof (Z.mod_pos_bound (j - leader ck) (Z.of_nat (servers ck)) ltac:(lia)) as Hb.
  split; [lia|]. rewrite Hk by lia. rewrite Z2Nat.id by lia.
  rewrite Z.add_mod_idemp_r by lia. f_equal.
  replace (leader ck + (j - leader ck)) with j by lia. by apply Z.mod_small.
Qed.

(** ** Examples *)

Section examples.

Definition opCodec : Codec (@persistent Op) := serial_codec persistent.
Lemma opCodec_laws : @CodecLaws _ opCodec.
Proof. apply serial_codec_laws; apply _. Qed.
Definition snapshotCodec : Codec Snapshot := serial_codec Snapshot.
Lemma snapshotCodec_laws : @CodecLaws _ snapshotCodec.
Proof. apply serial_codec_laws; apply _. Qed.

#[local] Existing Instance opCodec.
#[local] Existing Instance opCodec_laws.
#[local] Existing Instance snapshotCodec.
#[local] Existing Instance snapshotCodec_laws.

(** Client 5 appends "a" (twice in the log), then "b"; client 6 puts. *)
Definition opA : Op := mkOp OT_APPEND 11 "x" "a" 1 5.
Definition opA' : Op := mkOp OT_APPEND 12 "x" "a" 1 5.
Definition opB : Op := mkOp OT_APPEND 13 "x" "b" 2 5.
Definition opC : Op := mkOp OT_PUT 14 "y" "c" 1 6.
Definition sampleLog : list Op := [opA; opC; opA'; opB].

Lemma sampleLog_valid : Forall validType sampleLog.
Proof.
  repeat (apply Forall_cons; split; [unfold validType; simpl; auto|]). apply Forall_nil_2.
Qed.

Lemma sampleLog_inOrder : clientsInOrder sampleLog.
Proof.
  intros i j o o' Hij Hi Hj Hc.
  destruct i as [|[|[|[|i]]]], j as [|[|[|[|j]]]]; simplify_eq/=; lia.
Qed.

Lemma kvraft_exactly_once_witness :
  ∃ kv, applyAll (λ _, 0) (commands 1 sampleLog) (StartKVServer 0 (-1)) = Ret kv ∧
        execAll execOp (onceEach ∅ sampleLog) ∅ = Ret (mp kv) ∧ kv_lastApplied kv = len sampleLog.
Proof.
  apply (kvraft_exactly_once (λ _, 0) 0 (-1) sampleLog sampleLog_valid sampleLog_inOrder).
Defined.

(** The order of the requests matters: the session of a client remembers its
    last entry in the log, not its latest request.  Client 5 makes requests 1
    and 2 and both come again later: the second copy of request 2 is executed,
    because the second copy of request 1 has taken its place in the session. *)
Definition opB' : Op := mkOp OT_APPEND 15 "x" "b" 2 5.

Theorem session_regresses : ∃ kv,
  applyAll (λ _, 0) (commands 1 [opA; opB; opA'; opB']) (StartKVServer 0 (-1)) = Ret kv ∧
  mp kv = {["x" := "abb"]} ∧
  execAll execOp (onceEach ∅ [opA; opB; opA'; opB']) ∅ = Ret {["x" := "ab"]}.
Proof.
  eexists. split; [vm_compute; reflexivity|]. split; vm_compute; reflexivity.
Qed.

Lemma waittingForCommit_answers_witness : ∃ kv reply,
  applyAll (λ _, 0) (commands 1 sampleLog) (StartKVServer 0 (-1)) = Ret kv ∧
  waittingForCommit 0 opB (Z.of_nat 3 + 1) (APutAppend (mkPutAppendArgs "x" "b" 5 2)) OT_APPEND kv
    = Ret (Some reply) ∧ r_Err reply = ERR_OK.
Proof.
  set (kv := valueOf (StartKVServer 0 (-1))
               (applyAll (λ _, 0) (commands 1 sampleLog) (StartKVServer 0 (-1)))).
  assert (applyAll (λ _, 0) (commands 1 sampleLog) (StartKVServer 0 (-1)) = Ret kv) as Ha
    by (vm_compute; reflexivity).
  destruct (waittingForCommit_answers (λ _, 0) 0 (-1) sampleLog kv 3 opB opB
    (APutAppend (mkPutAppendArgs "x" "b" 5 2)) OT_APPEND 0 Ha eq_refl eq_refl)
    as (reply & Hw & Hok & _).
  exists kv, reply. split; [done|]. split; [done|]. by apply Hok.
Defined.

Definition snapshotting : KVServer := StartKVServer 1 0.

Lemma snapshot_replaces_log_witness : ∃ kv' b kv1 kv2',
  handleApplyMsg 100 (commandMsg (Some opA) 1) snapshotting = Ret (kv', Some (1, b)) ∧
  applyAll (λ _, 0) (commands 2 [opC; opA'; opB]) kv' = Ret kv1 ∧
  applyAll (λ _, 7) (snapshotMsg b 1 3 :: commands 2 [opC; opA'; opB]) (StartKVServer 0 (-1))
    = Ret kv2' ∧ core kv2' = core kv1 ∧ (core kv1).1.1 = {["x" := "ab"; "y" := "c"]}.
Proof.
  set (r := valueOf (snapshotting, None) (handleApplyMsg 100 (commandMsg (Some opA) 1) snapshotting)).
  set (b := match r.2 with Some (_, b) => b | None => [] end).
  set (kv1 := valueOf snapshotting (applyAll (λ _, 0) (commands 2 [opC; opA'; opB]) r.1)).
  assert (handleApplyMsg 100 (commandMsg (Some opA) 1) snapshotting = Ret (r.1, Some (1, b))) as Hh
    by (vm_compute; reflexivity).
  assert (applyAll (λ _, 0) (commands 2 [opC; opA'; opB]) r.1 = Ret kv1) as Ha
    by (vm_compute; reflexivity).
  destruct (snapshot_replaces_log 100 (λ _, 0) (λ _, 7) (commandMsg (Some opA) 1) snapshotting
    r.1 1 b (commands 2 [opC; opA'; opB]) kv1 (StartKVServer 0 (-1)) 3 Hh eq_refl Ha)
    as (kv2' & Ha' & Hc).
  exists r.1, b, kv1, kv2'. split; [exact Hh|]. split; [exact Ha|]. split; [exact Ha'|].
  split; [exact Hc|]. vm_compute. reflexivity.
Defined.

Lemma clerk_tries_all_witness :
  let ck := mkClerk 3 9 1 4 in
  let results := [None; Some (mkReply ERR_NotLeader "" 2); None] in
  ∃ k, (k < 3)%nat ∧ clerkRetry 1 (take k results) ck = inr 0.
Proof.
  apply (clerk_tries_all (mkClerk 3 9 1 4) [None; Some (mkReply ERR_NotLeader "" 2); None] 0);
    simpl; [|lia|lia|done].
  repeat constructor; intros reply; [done| |done]. intros [= <-]. done.
Defined.

(** A server whose peer has committed [opA]. *)
Definition peerA : Raft Op := valueOf (initRaft 3 1 MakePersister 0) (Make 3 1 MakePersister 0).
Definition argsA : AppendEntriesArgs Op :=
  mkAEArgs 2 0 0 1 [mkEntry 2 LT_Noop 1 None; mkEntry 2 LT_Normal 2 (Some opA)] 2.
Definition peerA1 : Raft Op :=
  (valueOf (peerA, mkAEReply 0 false 0 0 0) (AppendEntries 5 argsA peerA)).1.
Definition peerA2 : Raft Op := valueOf peerA1 (applyEntries peerA1).

Lemma peerA2_quiet : quiet peerA peerA1 ∧ quiet peerA1 peerA2.
Proof.
  split; intros s.
  - eapply (ns_append 5 argsA _ _ (mkAEReply 2 true 0 1 1)); [|vm_compute; reflexivity]. split.
    + intros [|[|i]] e He; simplify_eq/=; done.
    + intros e [->|[->|?%not_elem_of_nil]%elem_of_cons]%elem_of_cons; done.
  - eapply ns_apply. vm_compute; reflexivity.
Qed.

Lemma kvraft_never_out_of_order_witness : ∃ kv' r,
  handleApplyMsg 0 (commandMsg (Some opA) 1) (StartKVServer 1 (-1)) = Ret (kv', r) ∧
  kv_lastApplied kv' = 0 + 1.
Proof.
  destruct (kvraft_never_out_of_order 3 1 (-1) peerA2 (StartKVServer 1 (-1))
    (commandMsg (Some opA) 1) (applySend peerA2).2 0) as (kv' & r & Hr & Hl & _).
  - lia.
  - eapply sr_quiet; [eapply sr_quiet|apply peerA2_quiet]; [|apply peerA2_quiet].
    apply (@sr_start Op KVServer _ (kvService 1 (-1)) 3 1 0). reflexivity.
  - vm_compute. reflexivity.
  - done.
  - exists opA. split; [done|]. right; right. done.
  - by exists kv', r.
Defined.

End examples.
