(* ===== verification/KvModel.v ===== *)
(** * The linearizability model of the tests ([src/models/kv.go])

    The tests record what clients asked and got, with the times of the call and
    of the return, and let a checker decide whether the history is linearizable.
    The model that they give to the checker describes one key only and cuts the
    history into one part per key.  The theorem says that this is right: a history
    is linearizable as a history of the whole store, which [KVSrv.atomic] and
    [KVRaft.execOp] implement, exactly when every part is linearizable by the
    model. *)

From S2P Require Import Prelude KVSrv KVRaft.
Local Open Scope Z_scope.

(** ** [models/kv.go], [porcupine/model.go] *)

Record KvInput := mkKvInput { Op : Z; Key : string; InValue : string }.
Record KvOutput := mkKvOutput { OutValue : string }.

Record Operation := mkOperation {
  ClientId : Z; Input : KvInput; Call : Z; Output : KvOutput; Return : Z;
}.

#[export] Instance KvInput_eq_dec : EqDecision KvInput.
Proof. solve_decision. Defined.
#[export] Instance KvOutput_eq_dec : EqDecision KvOutput.
Proof. solve_decision. Defined.
#[export] Instance Operation_eq_dec : EqDecision Operation.
Proof. solve_decision. Defined.

Definition keyOf (v : Operation) : string := Key (Input v).

(** [KvModel.Partition]: the parts in the order of their keys. *)
Definition group (history : list Operation) : gmap string (list Operation) :=
  foldl (λ m v, <[keyOf v := map_get [] m (keyOf v) ++ [v]]> m) ∅ history.

Definition Partition (history : list Operation) : list (list Operation) :=
  let m := group history in
  let keys := sortStrings (fst <$> map_to_list m) in
  map (λ k, map_get [] m k) keys.

(** [KvModel.Init] and [KvModel.Step], on the value of one key. *)
Definition Init : string := "".

Definition Step (st : string) (inp : KvInput) (out : KvOutput) : bool * string :=
  if decide (Op inp = 0) then (bool_decide (OutValue out = st), st)
  else if decide (Op inp = 1) then (true, InValue inp)
  else if decide (Op inp = 2) then (true, st +:+ InValue inp)
  else (bool_decide (OutValue out = st), st +:+ InValue inp).

(** [KvModel.DescribeOperation]: an append that returns the old value, [Op] 3, has
    no description. *)
Definition quoted (s : string) : string := "'" +:+ s +:+ "'".

Definition DescribeOperation (inp : KvInput) (out : KvOutput) : string :=
  if decide (Op inp = 0) then "get(" +:+ quoted (Key inp) +:+ ") -> " +:+ quoted (OutValue out)
  else if decide (Op inp = 1) then "put(" +:+ quoted (Key inp) +:+ ", " +:+ quoted (InValue inp) +:+ ")"
  else if decide (Op inp = 2) then "append(" +:+ quoted (Key inp) +:+ ", " +:+ quoted (InValue inp) +:+ ")"
  else "<invalid>".

(** ** Linearizability *)

(** A sequence of operations that the model accepts. *)
Fixpoint acceptsFrom (st : string) (l : list Operation) : bool :=
  match l with
  | [] => true
  | v :: l => let '(ok, st') := Step st (Input v) (Output v) in ok && acceptsFrom st' l
  end.

(** In a sequence, [b] may come after [a]: [b] has not returned before the call
    of [a]. *)
Definition mayPrecede (a b : Operation) : Prop := ¬ Return b < Call a.

(** A part is linearizable by the model. *)
Definition partLinearizable (part : list Operation) : Prop :=
  ∃ l, l ≡ₚ part ∧ StronglySorted mayPrecede l ∧ acceptsFrom Init l = true.

(** The whole store: the new store and the value that the operation returns. *)
Definition storeStep (inp : KvInput) (m : gmap string string) : gmap string string * string :=
  let old := map_get "" m (Key inp) in
  if decide (Op inp = 0) then (m, old)
  else if decide (Op inp = 1) then (<[Key inp := InValue inp]> m, "")
  else (<[Key inp := old +:+ InValue inp]> m, old).

(** Puts, and appends without a result, return nothing. *)
Definition observes (inp : KvInput) : bool := negb (bool_decide (Op inp = 1 ∨ Op inp = 2)).

Fixpoint storeAccepts (m : gmap string string) (l : list Operation) : bool :=
  match l with
  | [] => true
  | v :: l =>
      let '(m', result) := storeStep (Input v) m in
      (negb (observes (Input v)) || bool_decide (OutValue (Output v) = result)) && storeAccepts m' l
  end.

Definition linearizable (history : list Operation) : Prop :=
  ∃ l, l ≡ₚ history ∧ StronglySorted mayPrecede l ∧ storeAccepts ∅ l = true.

(** ** The store is the one of the services *)

Definition kvsrvInput (o : KVSrv.op) : KvInput :=
  match o with
  | KVSrv.OpGet k => mkKvInput 0 k ""
  | KVSrv.OpPut k v => mkKvInput 1 k v
  | KVSrv.OpAppend k v => mkKvInput 3 k v
  end.

Lemma storeStep_kvsrv o m : storeStep (kvsrvInput o) m = KVSrv.atomic o m.
Proof. by destruct o. Qed.

Definition kvraftInput (o : KVRaft.Op) : KvInput :=
  mkKvInput (if decide (KVRaft.op_Type o = KVRaft.OT_GET) then 0
             else if decide (KVRaft.op_Type o = KVRaft.OT_PUT) then 1 else 2)
    (KVRaft.op_Key o) (KVRaft.op_Value o).

Lemma storeStep_kvraft o m m' : KVRaft.execOp o m = Ret m' → (storeStep (kvraftInput o) m).1 = m'.
Proof.
  unfold KVRaft.execOp, kvraftInput, storeStep. repeat case_decide; simpl in *; try done; intros [= <-]; done.
Qed.

(** ** The parts of a history *)

Definition part (k : string) (history : list Operation) : list Operation := filter (λ v, keyOf v = k) history.

Lemma group_lookup history k : map_get [] (group history) k = part k history.
Proof.
  unfold group. assert (∀ m l, map_get [] (foldl (λ m v, <[keyOf v := map_get [] m (keyOf v) ++ [v]]> m) m l) k =
    map_get [] m k ++ part k l) as Hg; [|by rewrite Hg].
  intros m l. revert m. induction l as [|v l IH]; intros m; cbn [foldl]; [by rewrite app_nil_r|].
  rewrite IH. unfold part. rewrite filter_cons. case_decide as Hk.
  - rewrite <- Hk, map_get_insert_eq, <- app_assoc. done.
  - by rewrite map_get_insert_ne.
Qed.

Lemma group_dom history k : is_Some (group history !! k) ↔ k ∈ keyOf <$> history.
Proof.
  unfold group. assert (∀ m l, is_Some (foldl (λ m v, <[keyOf v := map_get [] m (keyOf v) ++ [v]]> m) m l !! k) ↔
    is_Some (m !! k) ∨ k ∈ keyOf <$> l) as Hg.
  { intros m l. revert m. induction l as [|v l IH]; intros m; cbn [foldl fmap list_fmap].
    - rewrite elem_of_nil. tauto.
    - rewrite IH, lookup_insert_is_Some', elem_of_cons. naive_solver. }
  rewrite Hg, lookup_empty. split; [intros [[]|?]; done|by right].
Qed.

Definition keysOf (history : list Operation) : list string := sortStrings (fst <$> map_to_list (group history)).

Lemma keysOf_spec history : NoDup (keysOf history) ∧ ∀ k, k ∈ keysOf history ↔ k ∈ keyOf <$> history.
Proof.
  unfold keysOf, sortStrings. split.
  - rewrite merge_sort_Permutation. apply NoDup_fst_map_to_list.
  - intros k. rewrite merge_sort_Permutation, <- group_dom, list_elem_of_fmap. split.
    + intros ([k' x] & -> & Hin%elem_of_map_to_list). by exists x.
    + intros [x Hx]. exists (k, x). split; [done|by apply elem_of_map_to_list].
Qed.

Lemma Partition_parts history : Partition history = map (λ k, part k history) (keysOf history).
Proof. unfold Partition. apply map_ext. intros k. apply group_lookup. Qed.

(** ** Accepting a sequence key by key *)

Lemma Step_store m v : let '(ok, st) := Step (map_get "" m (keyOf v)) (Input v) (Output v) in
  let '(m', result) := storeStep (Input v) m in
  ok = negb (observes (Input v)) || bool_decide (OutValue (Output v) = result) ∧
  st = map_get "" m' (keyOf v) ∧ ∀ k, k ≠ keyOf v → map_get "" m' k = map_get "" m k.
Proof.
  unfold Step, storeStep, keyOf.
  destruct (decide (Op (Input v) = 0)) as [H0|H0]; [|destruct (decide (Op (Input v) = 1)) as [H1|H1];
    [|destruct (decide (Op (Input v) = 2)) as [H2|H2]]]; rewrite ?map_get_insert_eq; unfold observes.
  - rewrite (bool_decide_eq_false_2 (Op (Input v) = 1 ∨ _)) by lia. done.
  - rewrite (bool_decide_eq_true_2 (Op (Input v) = 1 ∨ _)) by lia. split; [done|]. split; [done|]. intros k Hk. by rewrite map_get_insert_ne.
  - rewrite (bool_decide_eq_true_2 (Op (Input v) = 1 ∨ _)) by lia. split; [done|]. split; [done|]. intros k Hk. by rewrite map_get_insert_ne.
  - rewrite (bool_decide_eq_false_2 (Op (Input v) = 1 ∨ _)) by lia. split; [done|]. split; [done|]. intros k Hk. by rewrite map_get_insert_ne.
Qed.

Lemma storeAccepts_parts m l :
  storeAccepts m l = true ↔ ∀ k, acceptsFrom (map_get "" m k) (part k l) = true.
Proof.
  revert m. induction l as [|v l IH]; intros m; [done|]. cbn [storeAccepts]. pose proof (Step_store m v) as Hv.
  destruct (storeStep (Input v) m) as [m' result].
  destruct (Step (map_get "" m (keyOf v)) (Input v) (Output v)) as [ok st] eqn:Hs. destruct Hv as (Hok & Hst & Hother).
  rewrite <- Hok, andb_true_iff, IH. split.
  - intros [Ho Hall] k. unfold part. rewrite filter_cons. destruct (decide (keyOf v = k)) as [Hk|Hk].
    + subst k. cbn [acceptsFrom]. rewrite Hs, Ho, Hst. apply Hall.
    + rewrite <- Hother by done. apply Hall.
  - intros Hall. assert (ok = true ∧ acceptsFrom st (part (keyOf v) l) = true) as [Ho Hrest].
    { specialize (Hall (keyOf v)). unfold part in Hall. rewrite filter_cons_True in Hall by done.
      cbn [acceptsFrom] in Hall. rewrite Hs in Hall. by apply andb_true_iff in Hall. }
    split; [done|]. intros k. destruct (decide (k = keyOf v)) as [->|Hk]; [by rewrite <- Hst|].
    rewrite Hother by done. specialize (Hall k). unfold part in Hall. by rewrite filter_cons_False in Hall by done.
Qed.

(** ** Linearization points

    Along a linearization every operation gets a point between its call and its
    return, and the points never go back: the latest call so far. *)
Fixpoint stamp (p : Z) (l : list Operation) : list (Z * Operation) :=
  match l with
  | [] => []
  | v :: l => let q := Z.max p (Call v) in (q, v) :: stamp q l
  end.

Definition earlier (a b : Z * Operation) : Prop := a.1 ≤ b.1.

#[export] Instance earlier_dec : RelDecision earlier.
Proof. intros a b. unfold earlier. apply _. Defined.
#[export] Instance earlier_total : Total earlier.
Proof. intros a b. unfold earlier. lia. Qed.
#[export] Instance earlier_trans : Transitive earlier.
Proof. intros a b c. unfold earlier. lia. Qed.

(** The point lies within the operation. *)
Definition within (x : Z * Operation) : Prop := Call x.2 ≤ x.1 ≤ Return x.2.

Lemma stamp_snd p l : snd <$> stamp p l = l.
Proof. revert p. induction l as [|v l IH]; intros p; [done|]. simpl. f_equal. apply IH. Qed.

Lemma stamp_points p l : StronglySorted mayPrecede l → Forall (λ v, Call v ≤ Return v) l →
  Forall (λ v, p ≤ Return v) l →
  Forall within (stamp p l) ∧ Forall (λ x, p ≤ x.1) (stamp p l) ∧ StronglySorted earlier (stamp p l).
Proof.
  intros Hs. revert p. induction Hs as [|v l Hs IH Hv]; intros p Hwf Hp; [by split_and!; constructor|].
  apply Forall_cons in Hwf as [Hv0 Hwf]. apply Forall_cons in Hp as [Hpv Hp]. cbn [stamp].
  destruct (IH (Z.max p (Call v))) as (Hw & Hge & Hss); [done| |].
  { apply Forall_forall. intros u Hu. rewrite Forall_forall in Hp, Hv. specialize (Hp u Hu).
    specialize (Hv u Hu). unfold mayPrecede in Hv. lia. }
  split; [constructor; [unfold within; simpl; lia|done]|]. split; constructor; simpl; try done; [lia|].
  eapply Forall_impl; [exact Hge|]. simpl. intros x Hx. lia.
Qed.

(** Operations with points in order may come in this order. *)
Lemma points_mayPrecede l : Forall within l → StronglySorted earlier l → StronglySorted mayPrecede (snd <$> l).
Proof.
  intros Hw Hs. induction Hs as [|x l Hs IH Hx]; [constructor|]. apply Forall_cons in Hw as [Hwx Hw]. simpl.
  constructor; [by apply IH|]. apply Forall_fmap, Forall_forall. intros y Hy. rewrite Forall_forall in Hx, Hw.
  specialize (Hx y Hy). specialize (Hw y Hy). unfold within, earlier, mayPrecede in *. simpl. lia.
Qed.

(** ** Merging *)

Section merge.
  Context {A : Type} (R : relation A) `{!RelDecision R} (P : A → Prop) `{!∀ x, Decision (P x)}.

Lemma filter_none (l : list A) : Forall (λ x, ¬ P x) l → filter P l = [].
Proof. induction 1 as [|x l Hx _ IH]; [done|]. by rewrite filter_cons_False. Qed.

Lemma filter_all (l : list A) : Forall P l → filter P l = l.
Proof. induction 1 as [|x l Hx _ IH]; [done|]. rewrite filter_cons_True by done. by rewrite IH. Qed.

Lemma merge_filter_l l1 l2 : Forall (λ x, ¬ P x) l2 → filter P (list_merge R l1 l2) = filter P l1.
Proof.
  revert l2. induction l1 as [|x1 l1 IH1]; intros l2 H2; [by rewrite list_merge_nil_l, filter_none|].
  induction H2 as [|x2 l2 Hx2 H2 IH2]; [by rewrite list_merge_nil_r|]. rewrite list_merge_cons.
  destruct (decide (R x1 x2)); [|by rewrite filter_cons_False].
  rewrite !filter_cons, IH1; [done|by constructor].
Qed.

Lemma merge_filter_r l1 l2 : Forall (λ x, ¬ P x) l1 → filter P (list_merge R l1 l2) = filter P l2.
Proof.
  intros H1. revert l2. induction H1 as [|x1 l1 Hx1 H1 IH1]; intros l2; [by rewrite list_merge_nil_l|].
  induction l2 as [|x2 l2 IH2].
  { rewrite list_merge_nil_r. apply filter_none. by constructor. }
  rewrite list_merge_cons. destruct (decide (R x1 x2)); [by rewrite filter_cons_False|].
  rewrite !filter_cons, IH2. done.
Qed.

End merge.

(** The part of a key, among operations with points. *)
Lemma part_snd k (l : list (Z * Operation)) : part k (snd <$> l) = snd <$> filter (λ x, keyOf x.2 = k) l.
Proof.
  unfold part. induction l as [|x l IH]; [done|]. rewrite fmap_cons, !filter_cons.
  destruct (decide (keyOf x.2 = k)); rewrite ?fmap_cons; by rewrite IH.
Qed.

Section combine.
  Context (history : list Operation) (p : Z).
  Context (Hwf : Forall (λ v, Call v ≤ Return v) history) (Hp : Forall (λ v, p ≤ Return v) history).

(** Linearizations of the parts of some keys, merged by their points. *)
Lemma merge_parts keys : NoDup keys → (∀ k, k ∈ keys → partLinearizable (part k history)) →
  ∃ l, Forall within l ∧ Sorted earlier l ∧ Forall (λ x, keyOf x.2 ∈ keys) l ∧
    snd <$> l ≡ₚ concat (map (λ k, part k history) keys) ∧
    ∀ k, acceptsFrom Init (part k (snd <$> l)) = true.
Proof using Hwf Hp.
  induction 1 as [|k keys Hk _ IH]; intros Hlin; [by exists []; split_and!; try constructor|].
  destruct IH as (l & Hw & Hs & Hkeys & Hperm & Hacc); [intros k' Hk'; apply Hlin; by right|].
  destruct (Hlin k) as (lk & Hlk & Hmay & Hlacc); [by left|].
  assert (∀ (Q : Operation → Prop), Forall Q history → Forall Q lk) as Hsub.
  { intros Q HQ. rewrite Forall_forall in *. intros v Hv. apply HQ. rewrite Hlk in Hv.
    by apply list_elem_of_filter in Hv as [_ Hv]. }
  destruct (stamp_points p lk Hmay) as (Hwk & _ & Hsk); [by apply Hsub|by apply Hsub|].
  assert (Forall (λ x, keyOf x.2 = k) (stamp p lk)) as Hkk.
  { apply Forall_forall. intros x Hx. assert (x.2 ∈ snd <$> stamp p lk) as Hin by by apply list_elem_of_fmap_2.
    rewrite stamp_snd, Hlk in Hin. by apply list_elem_of_filter in Hin as [? _]. }
  pose proof (merge_Permutation earlier (stamp p lk) l) as Hm.
  exists (list_merge earlier (stamp p lk) l). split_and!.
  - rewrite Hm. by apply Forall_app.
  - apply Sorted_list_merge; [apply earlier_total|by apply StronglySorted_Sorted|done].
  - rewrite Hm. apply Forall_app. split; [eapply Forall_impl; [exact Hkk|]; intros x ->; by left|].
    eapply Forall_impl; [exact Hkeys|]. intros x Hx. by right.
  - rewrite Hm, fmap_app, stamp_snd, Hlk, Hperm. done.
  - intros k'. rewrite part_snd. destruct (decide (k' = k)) as [->|Hne].
    + rewrite merge_filter_l.
      * rewrite <- part_snd, stamp_snd. unfold part. rewrite filter_all; [done|].
        rewrite <- (stamp_snd p lk). by apply Forall_fmap.
      * eapply Forall_impl; [exact Hkeys|]. simpl. by intros x Hx <-.
    + rewrite merge_filter_r, <- part_snd; [done|]. eapply Forall_impl; [exact Hkk|]. simpl. congruence.
Qed.
End combine.

(** ** The theorem *)

(** A point before all returns. *)
Lemma some_point (history : list Operation) : ∃ p, Forall (λ v, p ≤ Return v) history.
Proof.
  induction history as [|v l [p IH]]; [by exists 0|]. exists (Z.min p (Return v)).
  constructor; [lia|]. eapply Forall_impl; [exact IH|]. simpl. intros; lia.
Qed.

Lemma StronglySorted_filter {A} (R : relation A) (P : A → Prop) `{!∀ x, Decision (P x)} l :
  StronglySorted R l → StronglySorted R (filter P l).
Proof.
  induction 1 as [|x l Hs IH Hx]; [constructor|]. rewrite filter_cons. case_decide; [|done].
  constructor; [done|]. apply Forall_forall. intros y [_ Hy]%list_elem_of_filter. rewrite Forall_forall in Hx. by apply Hx.
Qed.

Lemma partition_history history : concat (map (λ k, part k history) (keysOf history)) ≡ₚ history.
Proof.
  destruct (keysOf_spec history) as [Hnd Hk]. apply (partition_perm keyOf); [done|].
  intros v Hv. apply Hk. by apply list_elem_of_fmap_2.
Qed.

(** The parts of a linearization are linearizations of the parts. *)
Lemma linearizable_parts history : linearizable history → Forall partLinearizable (Partition history).
Proof.
  rewrite Partition_parts. intros (l & Hl & Hs & Hacc). apply Forall_map, Forall_forall. intros k _.
  exists (part k l). split_and!.
  - unfold part. by rewrite Hl.
  - by apply StronglySorted_filter.
  - by apply (proj1 (storeAccepts_parts ∅ l) Hacc k).
Qed.

(** Merged by their points, linearizations of the parts are one of the whole. *)
Lemma parts_linearizable history : Forall (λ v, Call v ≤ Return v) history →
  Forall partLinearizable (Partition history) → linearizable history.
Proof.
  intros Hwf. rewrite Partition_parts, Forall_map, Forall_forall. intros Hparts.
  destruct (some_point history) as [p Hp]. destruct (keysOf_spec history) as [Hnd _].
  destruct (merge_parts history p Hwf Hp (keysOf history) Hnd Hparts) as (l & Hw & Hs & _ & Hperm & Hacc).
  exists (snd <$> l). split_and!.
  - by rewrite Hperm, partition_history.
  - apply points_mayPrecede; [done|]. by apply Sorted_StronglySorted; [apply earlier_trans|].
  - apply storeAccepts_parts. intros k. exact (Hacc k).
Qed.

(** C17: the partition of the model is right.  A history of clients, each
    operation with the times of its call and return, is linearizable as a history
    of the whole store exactly when each part, one per key, is linearizable by the
    model of a single key: there is an order of the operations that respects the
    times, in which every operation returns what the store gives. *)
Theorem partition_linearizable history : Forall (λ v, Call v ≤ Return v) history →
  linearizable history ↔ Forall partLinearizable (Partition history).
Proof. intros Hwf. split; [apply linearizable_parts|by apply parts_linearizable]. Qed.

(** ** What the tests of [kvsrv] record

    The time of an event is its position in the history of calls and returns. *)
Fixpoint record (t : Z) (pending : gmap Z (Z * KVSrv.op)) (tr : list KVSrv.label) : list Operation :=
  match tr with
  | [] => []
  | KVSrv.Invoke c o :: tr => record (t + 1) (<[c := (t, o)]> pending) tr
  | KVSrv.Return c v :: tr =>
      match pending !! c with
      | Some (t0, o) =>
          mkOperation c (kvsrvInput o) t0 (mkKvOutput v) t :: record (t + 1) (delete c pending) tr
      | None => record (t + 1) pending tr
      end
  end.

(** The clients that still wait at the end. *)
Fixpoint waiting (pending : gset Z) (tr : list KVSrv.label) : gset Z :=
  match tr with
  | [] => pending
  | KVSrv.Invoke c _ :: tr => waiting ({[c]} ∪ pending) tr
  | KVSrv.Return c _ :: tr => waiting (pending ∖ {[c]}) tr
  end.

(** The clients of the specification and the calls that have been recorded. *)
Definition pendingOk (m : gmap Z KVSrv.client) (pending : gmap Z (Z * KVSrv.op)) (t : Z) : Prop :=
  ∀ c, match m !! c with
       | Some (KVSrv.Todo o) | Some (KVSrv.Done o _) => ∃ t0, pending !! c = Some (t0, o) ∧ t0 < t
       | _ => pending !! c = None
       end.

(** The operations that have taken effect and will return. *)
Definition doneOk (m : gmap Z KVSrv.client) (pending : gmap Z (Z * KVSrv.op)) (t : Z) (D : gmap Z Operation) : Prop :=
  ∀ c, match m !! c with
       | Some (KVSrv.Done o v) => ∃ t0 r, pending !! c = Some (t0, o) ∧ t ≤ r ∧
           D !! c = Some (mkOperation c (kvsrvInput o) t0 (mkKvOutput v) r)
       | _ => D !! c = None
       end.

Lemma atomic_accepted o st st' v c t0 r l : KVSrv.atomic o st = (st', v) → storeAccepts st' l = true →
  storeAccepts st (mkOperation c (kvsrvInput o) t0 (mkKvOutput v) r :: l) = true.
Proof.
  intros Ha Hl. cbn [storeAccepts Input Output]. rewrite storeStep_kvsrv, Ha, Hl. simpl.
  rewrite bool_decide_eq_true_2 by done. by rewrite orb_true_r.
Qed.

Lemma pendingOk_insert m pending t t' c y z : pendingOk m pending t → t ≤ t' →
  match y with
  | KVSrv.Todo o | KVSrv.Done o _ => ∃ t0, z = Some (t0, o) ∧ t0 < t'
  | KVSrv.Idle => z = None
  end → pendingOk (<[c := y]> m) (partial_alter (λ _, z) c pending) t'.
Proof.
  intros Hp Hle Hy c'. destruct (decide (c = c')) as [<-|Hne].
  - rewrite lookup_insert_eq, lookup_partial_alter_eq. by destruct y.
  - rewrite lookup_insert_ne, lookup_partial_alter_ne by done. specialize (Hp c').
    destruct (m !! c') as [[|o|o v]|]; try done; destruct Hp as (t0 & ? & ?); exists t0; auto with lia.
Qed.

(** One step of the specification back in time: [D] and [l] are the operations
    that have taken effect before and that will take effect after it. *)
Lemma linearize_invoke m pending t c o D : m !! c = Some KVSrv.Idle →
  doneOk (<[c := KVSrv.Todo o]> m) (<[c := (t, o)]> pending) (t + 1) D → doneOk m pending t D.
Proof.
  intros Hm HD c'. specialize (HD c'). destruct (decide (c = c')) as [<-|Hne].
  - rewrite lookup_insert_eq in HD. by rewrite Hm.
  - rewrite !lookup_insert_ne in HD by done. destruct (m !! c') as [[|o'|o' v]|]; try done.
    destruct HD as (t0 & r & ? & ? & ?). exists t0, r. auto with lia.
Qed.

Lemma linearize_effect m pending t c o v D : m !! c = Some (KVSrv.Todo o) →
  doneOk (<[c := KVSrv.Done o v]> m) pending t D →
  ∃ t0 r, t ≤ r ∧ pending !! c = Some (t0, o) ∧
    D !! c = Some (mkOperation c (kvsrvInput o) t0 (mkKvOutput v) r) ∧ doneOk m pending t (delete c D).
Proof.
  intros Hm HD. pose proof (HD c) as Hc. rewrite lookup_insert_eq in Hc. destruct Hc as (t0 & r & Hp & Hr & Hx).
  exists t0, r. split_and!; try done. intros c'. specialize (HD c'). destruct (decide (c = c')) as [<-|Hne].
  - rewrite Hm. apply lookup_delete_eq.
  - rewrite lookup_insert_ne in HD by done. rewrite lookup_delete_ne by done. done.
Qed.

Lemma linearize_return m pending t c o v t0 D : m !! c = Some (KVSrv.Done o v) → pending !! c = Some (t0, o) →
  doneOk (<[c := KVSrv.Idle]> m) (delete c pending) (t + 1) D →
  D !! c = None ∧ doneOk m pending t (<[c := mkOperation c (kvsrvInput o) t0 (mkKvOutput v) t]> D).
Proof.
  intros Hm Hp HD. split; [specialize (HD c); by rewrite lookup_insert_eq in HD|].
  intros c'. specialize (HD c'). destruct (decide (c = c')) as [<-|Hne].
  - rewrite Hm, lookup_insert_eq. exists t0, t. auto with lia.
  - rewrite lookup_insert_ne, lookup_delete_ne in HD by done. rewrite lookup_insert_ne by done.
    destruct (m !! c') as [[|o'|o' v']|]; try done. destruct HD as (t1 & r & ? & ? & ?). exists t1, r. auto with lia.
Qed.

Lemma spec_linearization x tr a : KVSrv.run (KVSrv.spec_step false) x tr a →
  ∀ st m t pending, x = KVSrv.mkSpec st m → pendingOk m pending t → waiting (dom pending) tr = ∅ →
  ∃ D l, doneOk m pending t D ∧ record t pending tr ≡ₚ (map_to_list D).*2 ++ l ∧
    Forall (λ v, t ≤ Return v) l ∧ StronglySorted mayPrecede l ∧ storeAccepts st l = true.
Proof.
  induction 1 as [x|x lb x' tr a Hs Hr IH]; intros st m t pending -> Hp Hw.
  { simpl in Hw. apply dom_empty_iff_L in Hw. subst pending. exists ∅, []. split_and!; try done; [|constructor].
    intros c. specialize (Hp c). destruct (m !! c) as [[|o|o v]|]; try done. by destruct Hp as (? & ? & _). }
  inversion Hs as [c o st0 m0 Hm|c o st0 st' v m0 Hm Hat|c k v r st0 m0 Hf|c o v st0 m0 Hm]; subst; [| |done|].
  - destruct (IH st (<[c := KVSrv.Todo o]> m) (t + 1) (<[c := (t, o)]> pending)) as (D & l & HD & Hrec & Hret & Hord & Hacc).
    { done. }
    { apply (pendingOk_insert m pending t (t + 1) c (KVSrv.Todo o) (Some (t, o))); [done|lia|]. exists t. auto with lia. }
    { simpl in Hw. by rewrite dom_insert_L. }
    exists D, l. split; [by eapply linearize_invoke|]. split_and!; try done.
    eapply Forall_impl; [exact Hret|]. simpl. intros; lia.
  - destruct (IH st' (<[c := KVSrv.Done o v]> m) t pending) as (D & l & HD & Hrec & Hret & Hord & Hacc); [done| |done|].
    { intros c'. specialize (Hp c'). destruct (decide (c = c')) as [<-|Hne]; [|by rewrite lookup_insert_ne].
      rewrite lookup_insert_eq. by rewrite Hm in Hp. }
    destruct (linearize_effect m pending t c o v D Hm HD) as (t0 & r & Hr0 & Hpc & Hx & HD').
    pose proof (Hp c) as Hc. rewrite Hm in Hc. destruct Hc as (t1 & Hpc' & Ht1). rewrite Hpc in Hpc'. injection Hpc' as <-.
    eexists (delete c D), (_ :: l). split; [done|]. split_and!.
    + etransitivity; [exact Hrec|]. rewrite <- (map_to_list_delete D c _ Hx), fmap_cons. simpl.
      apply Permutation_middle.
    + constructor; [done|exact Hret].
    + constructor; [done|]. eapply Forall_impl; [exact Hret|]. unfold mayPrecede. simpl. intros; lia.
    + by eapply atomic_accepted.
  - pose proof (Hp c) as Hc. rewrite Hm in Hc. destruct Hc as (t0 & Hpc & Ht0).
    destruct (IH st (<[c := KVSrv.Idle]> m) (t + 1) (delete c pending)) as (D & l & HD & Hrec & Hret & Hord & Hacc).
    { done. }
    { apply (pendingOk_insert m pending t (t + 1) c KVSrv.Idle None); [done|lia|done]. }
    { simpl in Hw. by rewrite dom_delete_L. }
    destruct (linearize_return m pending t c o v t0 D Hm Hpc HD) as [Hnone HD'].
    eexists _, l. split; [exact HD'|]. split_and!; try done.
    + cbn [record]. rewrite Hpc, map_to_list_insert, fmap_cons by done. simpl. by rewrite Hrec.
    + eapply Forall_impl; [exact Hret|]. simpl. intros; lia.
Qed.

(** C18: the tests of [kvsrv] accept what the server does.  In every run of clerks
    that get and append, with calls and replies lost and repeated, in which every
    call has returned at the end: the history that the tests record is
    linearizable, and the model accepts each of its parts. *)
Theorem kvsrv_history_accepted ids tr s :
  KVSrv.run (KVSrv.sys_step false) (KVSrv.sys_init ids) tr s → waiting ∅ tr = ∅ →
  linearizable (record 0 ∅ tr) ∧ Forall partLinearizable (Partition (record 0 ∅ tr)).
Proof.
  intros Hr Hw. assert (linearizable (record 0 ∅ tr)) as Hl; [|split; [done|by apply linearizable_parts]].
  destruct (KVSrv.run_sim false _ _ _ _ Hr (KVSrv.simulates_init false ids)) as (a & Ha & _).
  assert (∀ c, (KVSrv.clients (KVSrv.spec_init ids) !! c = Some KVSrv.Idle) ∨
               KVSrv.clients (KVSrv.spec_init ids) !! c = None) as Hidle.
  { intros c. simpl. destruct (set_to_map _ _ !! c) eqn:Hc; [left|by right].
    apply lookup_set_to_map in Hc as (c' & _ & [= _ <-]); [done|]. by intros ? ? _ _ [= ->]. }
  destruct (spec_linearization _ _ _ Ha ∅ (KVSrv.clients (KVSrv.spec_init ids)) 0 ∅)
    as (D & l & HD & Hrec & _ & Hord & Hacc).
  - done.
  - intros c. destruct (Hidle c) as [-> | ->]; done.
  - by rewrite dom_empty_L.
  - exists l. split; [|done]. rewrite Hrec. assert (D = ∅) as ->; [|by rewrite map_to_list_empty].
    apply map_empty. intros c. specialize (HD c). by destruct (Hidle c) as [Hc|Hc]; rewrite Hc in HD.
Qed.

(** ** Examples *)

(** Client 2 reads what client 1 is still putting; client 3 reads another key. *)
Definition overlapping : list Operation :=
  [mkOperation 1 (mkKvInput 1 "x" "a") 0 (mkKvOutput "") 3;
   mkOperation 2 (mkKvInput 0 "x" "") 1 (mkKvOutput "a") 2;
   mkOperation 3 (mkKvInput 0 "y" "") 0 (mkKvOutput "") 5].

Lemma partition_linearizable_witness : linearizable overlapping.
Proof.
  apply (partition_linearizable overlapping).
  - repeat constructor; simpl; lia.
  - change (Partition overlapping) with [take 2 overlapping; drop 2 overlapping].
    repeat constructor.
    + exists (take 2 overlapping). split; [reflexivity|]. split; [|reflexivity].
      repeat constructor; unfold mayPrecede; simpl; lia.
    + exists (drop 2 overlapping). split; [reflexivity|]. split; [|reflexivity].
      repeat constructor.
Defined.

Lemma kvsrv_history_accepted_witness : linearizable (record 0 ∅ KVSrv.twoAppends) ∧
  record 0 ∅ KVSrv.twoAppends =
    [mkOperation 2 (mkKvInput 3 "x" "b") 1 (mkKvOutput "a") 2; mkOperation 1 (mkKvInput 3 "x" "a") 0 (mkKvOutput "") 3].
Proof.
  split; [|vm_compute; reflexivity]. destruct KVSrv.twoAppends_run as (s & Hr & _).
  apply (kvsrv_history_accepted {[1; 2]} KVSrv.twoAppends s Hr). vm_compute. reflexivity.
Defined.

(** A read of an old value after a put has returned is not accepted. *)
Example stale_read_refused :
  let h := [mkOperation 1 (mkKvInput 1 "x" "a") 0 (mkKvOutput "") 1;
            mkOperation 2 (mkKvInput 0 "x" "") 2 (mkKvOutput "") 3] in ¬ linearizable h.
Proof.
  intros h (l & Hl & Hs & Hacc). symmetry in Hl. apply Permutation_length_2_inv in Hl as [-> | ->].
  - by vm_compute in Hacc.
  - apply StronglySorted_inv in Hs as [_ Hf]. apply Forall_cons in Hf as [Hf _]. by apply Hf.
Qed.
