(* ===== verification/Bitset.v ===== *)
(** * Bit sets ([src/porcupine/bitset.go])

    The set of operations that the checker has placed, as a slice of 64-bit words.
    The theorems say that the slice is a set: what [set] and [clear] do to every
    bit, and that [clear] takes back what [set] did, word for word. *)

From S2P Require Import Prelude.
Local Open Scope Z_scope.

Definition bitset : Type := list Z.

Definition newBitset (bits : Z) : bitset :=
  let extra := if decide (bits mod 64 ≠ 0) then 1 else 0 in
  replicate (Z.to_nat (bits / 64 + extra)) 0.

Definition bitsetIndex (pos : Z) : Z * Z := (pos / 64, pos mod 64).

(** [set], [clear] and [get] panic when the word is out of range. *)
Definition set (b : bitset) (pos : Z) : outcome bitset :=
  let '(major, minor) := bitsetIndex pos in
  x ← slice_get b major; slice_set b major (Z.lor x (Z.shiftl 1 minor)).

Definition clear (b : bitset) (pos : Z) : outcome bitset :=
  let '(major, minor) := bitsetIndex pos in
  x ← slice_get b major; slice_set b major (Z.ldiff x (Z.shiftl 1 minor)).

Definition get (b : bitset) (pos : Z) : outcome bool :=
  let '(major, minor) := bitsetIndex pos in
  x ← slice_get b major; mret (negb (bool_decide (Z.land x (Z.shiftl 1 minor) = 0))).

(** [bits.OnesCount64] *)
Definition onesCount (x : Z) : Z := len (filter (λ i, Z.testbit x (Z.of_nat i) = true) (seq 0 64)).

Definition popcnt (b : bitset) : Z := foldl (λ total v, total + onesCount v) 0 b.

Definition hash (b : bitset) : Z := foldl Z.lxor (popcnt b) b.

Definition equals (b b2 : bitset) : bool :=
  if decide (len b ≠ len b2) then false
  else forallb (λ p, bool_decide (p.1 = p.2)) (zip b b2).

(** ** Bits *)

(** The bit at a position, [false] out of range. *)
Definition testb (b : list Z) (pos : nat) : bool :=
  match b !! (pos / 64)%nat with
  | Some x => Z.testbit x (Z.of_nat (pos mod 64))
  | None => false
  end.

Lemma bitsetIndex_nat (pos : nat) : bitsetIndex (Z.of_nat pos) = (Z.of_nat (pos / 64), Z.of_nat (pos mod 64)).
Proof. unfold bitsetIndex. by rewrite Nat2Z.inj_div, Nat2Z.inj_mod. Qed.

(** Room for the position. *)
Definition inRange (b : list Z) (pos : nat) : Prop := (pos / 64 < length b)%nat.

Lemma newBitset_range (n pos : nat) : (pos < n)%nat → inRange (newBitset (Z.of_nat n)) pos.
Proof.
  intros Hp. unfold inRange, newBitset. rewrite length_replicate.
  pose proof (Nat.div_mod_eq pos 64). pose proof (Nat.mod_upper_bound pos 64).
  pose proof (Z.div_mod (Z.of_nat n) 64). pose proof (Z.mod_pos_bound (Z.of_nat n) 64).
  assert (Z.of_nat (pos / 64) < Z.of_nat n / 64 + (if decide (Z.of_nat n mod 64 ≠ 0) then 1 else 0)); [|lia].
  case_decide; nia.
Qed.

Lemma newBitset_empty bits pos : testb (newBitset bits) pos = false.
Proof.
  unfold testb, newBitset. destruct (_ !! _) as [x|] eqn:Hx; [|done].
  apply lookup_replicate in Hx as [-> _]. apply Z.bits_0.
Qed.

Lemma get_testb (b : list Z) pos : inRange b pos → get b (Z.of_nat pos) = Ret (testb b pos).
Proof.
  intros Hr. unfold get, testb. rewrite bitsetIndex_nat. destruct (lookup_lt_is_Some_2 _ _ Hr) as [x Hx].
  rewrite (slice_get_nat _ _ _ Hx), bind_Ret, Hx. f_equal.
  rewrite Z.shiftl_1_l.
  destruct (Z.testbit x (Z.of_nat (pos mod 64))) eqn:Ht.
  - rewrite bool_decide_eq_false_2; [done|]. intros E.
    assert (Z.testbit (Z.land x (2 ^ Z.of_nat (pos mod 64))) (Z.of_nat (pos mod 64)) = true) as Hb.
    { rewrite Z.land_spec, Ht, Z.pow2_bits_true by lia. done. }
    rewrite E, Z.bits_0 in Hb. done.
  - rewrite bool_decide_eq_true_2; [done|]. apply Z.bits_inj'. intros k Hk.
    rewrite Z.land_spec, Z.bits_0. destruct (decide (k = Z.of_nat (pos mod 64))) as [->|Hne]; [by rewrite Ht|].
    rewrite Z.pow2_bits_false by done. by rewrite andb_false_r.
Qed.

(** [set] adds a bit and [clear] removes it again. *)
Lemma set_spec (b : list Z) pos : inRange b pos → ∃ b', set b (Z.of_nat pos) = Ret b' ∧ length b' = length b ∧
  (∀ i, testb b' i = bool_decide (i = pos) || testb b i) ∧
  (testb b pos = false → clear b' (Z.of_nat pos) = Ret b).
Proof.
  intros Hr. unfold set, clear. rewrite bitsetIndex_nat. destruct (lookup_lt_is_Some_2 _ _ Hr) as [x Hx].
  rewrite (slice_get_nat _ _ _ Hx), bind_Ret, Z.shiftl_1_l.
  set (m := Z.of_nat (pos mod 64)). assert (0 ≤ m) as Hm by lia.
  rewrite slice_set_in by (unfold len; unfold inRange in Hr; lia). rewrite Nat2Z.id.
  eexists. split; [done|]. split; [by rewrite length_insert|]. split.
  - intros i. unfold testb. destruct (decide (i / 64 = pos / 64)%nat) as [Hd|Hd].
    + rewrite Hd, list_lookup_insert_eq, Hx by done. rewrite Z.lor_spec.
      destruct (decide (i = pos)) as [->|Hi].
      * rewrite (bool_decide_eq_true_2 (pos = pos)) by done. rewrite Z.pow2_bits_true by done. by rewrite orb_true_r.
      * rewrite (bool_decide_eq_false_2 (i = pos)) by done. rewrite Z.pow2_bits_false; [by rewrite orb_false_r|].
        unfold m. intros E. apply Hi. pose proof (Nat.div_mod_eq i 64). pose proof (Nat.div_mod_eq pos 64). lia.
    + rewrite list_lookup_insert_ne by done. rewrite bool_decide_eq_false_2; [done|]. by intros ->.
  - intros Ht. unfold testb in Ht. rewrite Hx in Ht. change (Z.testbit x m = false) in Ht.
    rewrite (slice_get_nat _ _ (Z.lor x (2 ^ m))) by (by apply list_lookup_insert_eq). rewrite bind_Ret.
    rewrite slice_set_in by (unfold len; rewrite length_insert; unfold inRange in Hr; lia).
    rewrite Nat2Z.id, list_insert_insert_eq. f_equal. apply list_insert_id. rewrite Hx. f_equal.
    apply Z.bits_inj'. intros k Hk. rewrite Z.ldiff_spec, Z.lor_spec.
    destruct (decide (k = m)) as [->|Hne].
    + rewrite Z.pow2_bits_true, Ht by done. done.
    + rewrite Z.pow2_bits_false by done. by rewrite orb_false_r, andb_true_r.
Qed.

Lemma equals_eq (b b2 : list Z) : equals b b2 = true ↔ b = b2.
Proof.
  unfold equals. split.
  - case_decide as Hl; [done|]. rewrite forallb_forall. intros Hf. apply (list_eq_same_length _ _ (length b)); [|done|].
    { unfold len in Hl. lia. }
    intros i x y _ Hx Hy. specialize (Hf (x, y)). simpl in Hf. apply bool_decide_eq_true in Hf; [done|].
    apply list_elem_of_In, list_elem_of_lookup_2 with i. apply lookup_zip_with_Some. eauto.
  - intros <-. rewrite decide_False by (by intros []). apply forallb_forall. intros [x y] Hin.
    apply list_elem_of_In, list_elem_of_lookup_1 in Hin as [i Hi].
    apply lookup_zip_with_Some in Hi as (x' & y' & E & Hx & Hy). simplify_eq. by apply bool_decide_eq_true.
Qed.
