(* ===== verification/Checker.v ===== *)
(** * The linearizability checker ([src/porcupine/checker.go])

    The tests give the history that they recorded to a checker, which searches for
    a linearization of each part: it walks along a doubly linked list of calls and
    returns, takes out an operation that may come first, remembers in a cache what
    it has tried, and puts the operation back when it reaches a return.  This file
    holds the definitions: the list and its nodes, one iteration of the search
    ([iteration]), the search of one part ([checkSingle]), and the searches of all
    parts beside the goroutine that collects the results ([exec]).  [CheckerList]
    has the theorems on the list, [CheckerSearch] those on the search, and
    [CheckerParallel] to [CheckerEvents] what the answers mean. *)

From S2P Require Import Prelude Bitset.
Local Open Scope Z_scope.

Section checker.

(** The inputs and outputs of operations, and the states of the model. *)
Context {Inp Out State : Type}.

(** What an [interface{}] of the checker holds. *)
Inductive value := InputV (i : Inp) | OutputV (o : Out) | NilV.

(** ** [model.go] *)

Record Event := mkEvent { ev_ClientId : Z; ev_Kind : bool; ev_Value : value; ev_Id : Z }.
Definition CallEvent : bool := false.
Definition ReturnEvent : bool := true.

Inductive CheckResult := Unknown | Ok | Illegal.
#[export] Instance CheckResult_eq_dec : EqDecision CheckResult.
Proof. solve_decision. Defined.

(** The model of a system, without the functions that describe operations and
    states for the visualisation.  The state is compared with [==] when the model
    has no [Equal]. *)
Record Model (Operation : Type) := mkModel {
  Partition : option (list Operation → list (list Operation));
  PartitionEvent : option (list Event → list (list Event));
  Init : State;
  Step : State → Inp → Out → bool * State;
  Equal : option (State → State → bool);
}.

Definition NoPartition {Operation} (history : list Operation) : list (list Operation) := [history].
Definition NoPartitionEvent (history : list Event) : list (list Event) := [history].
Definition ShallowEqual `{!EqDecision State} (state1 state2 : State) : bool := bool_decide (state1 = state2).

(** ** Entries *)

Definition callEntry : bool := false.
Definition returnEntry : bool := true.

Record entry := mkEntry { e_kind : bool; e_value : value; e_id : Z; e_time : Z; e_clientId : Z }.

(** [byTime.Less]: calls before returns of the same time. *)
Definition Less (a b : entry) : bool :=
  if decide (e_time a ≠ e_time b) then bool_decide (e_time a < e_time b)
  else bool_decide (e_kind a = callEntry) && bool_decide (e_kind b = returnEntry).

(** [sort.Sort(byTime(l))], which is not stable *)
Class ByTimeSort (sort : list entry → list entry) : Prop := {
  sort_perm l : sort l ≡ₚ l;
  sort_sorted l i j a b : (i < j)%nat → sort l !! i = Some a → sort l !! j = Some b → Less b a = false;
}.

Section operations.
Context {Operation : Type} (ClientId : Operation → Z) (Input : Operation → Inp) (Call : Operation → Z)
  (Output : Operation → Out) (Return : Operation → Z).
Context (sort : list entry → list entry).

Definition callOf (id : Z) (elem : Operation) : entry :=
  mkEntry callEntry (InputV (Input elem)) id (Call elem) (ClientId elem).
Definition returnOf (id : Z) (elem : Operation) : entry :=
  mkEntry returnEntry (OutputV (Output elem)) id (Return elem) (ClientId elem).

Fixpoint entriesFrom (id : Z) (history : list Operation) : list entry :=
  match history with
  | [] => []
  | elem :: history => callOf id elem :: returnOf id elem :: entriesFrom (id + 1) history
  end.

Definition makeEntries (history : list Operation) : list entry := sort (entriesFrom 0 history).

End operations.

(** [renumber]: identifiers 0, 1, 2, ... in the order of their first event. *)
Fixpoint renumberFrom (m : gmap Z Z) (id : Z) (events : list Event) : list Event :=
  match events with
  | [] => []
  | v :: events =>
      match m !! ev_Id v with
      | Some r => mkEvent (ev_ClientId v) (ev_Kind v) (ev_Value v) r :: renumberFrom m id events
      | None => mkEvent (ev_ClientId v) (ev_Kind v) (ev_Value v) id ::
                  renumberFrom (<[ev_Id v := id]> m) (id + 1) events
      end
  end.

Definition renumber (events : list Event) : list Event := renumberFrom ∅ 0 events.

(** [convertEntries]: the index of an event is its time. *)
Definition convertEntries (events : list Event) : list entry :=
  imap (λ i elem, mkEntry (if decide (ev_Kind elem = ReturnEvent) then returnEntry else callEntry)
                    (ev_Value elem) (ev_Id elem) (Z.of_nat i) (ev_ClientId elem)) events.

(** ** The list of entries

    Nodes live in a heap; a pointer is an address or [None], which is [nil]. *)

Local Abbreviation ptr := (option nat).

Record node := mkNode { n_value : value; n_match : ptr; n_id : Z; n_next : ptr; n_prev : ptr }.

Definition withNext (q : ptr) (n : node) : node := mkNode (n_value n) (n_match n) (n_id n) q (n_prev n).
Definition withPrev (q : ptr) (n : node) : node := mkNode (n_value n) (n_match n) (n_id n) (n_next n) q.

Local Abbreviation heap := (gmap nat node).

(** Reading and writing through a pointer panic at [nil]. *)
Definition load (h : heap) (p : ptr) : outcome node :=
  match p ≫= (h !!.) with Some n => Ret n | None => Panic end.

Definition setNext (h : heap) (p q : ptr) : outcome heap :=
  match p with
  | Some a => n ← load h p; mret (<[a := withNext q n]> h)
  | None => Panic
  end.

Definition setPrev (h : heap) (p q : ptr) : outcome heap :=
  match p with
  | Some a => n ← load h p; mret (<[a := withPrev q n]> h)
  | None => Panic
  end.

Definition insertBefore (h : heap) (n mark : ptr) : outcome heap :=
  match mark with
  | None => mret h
  | Some _ =>
      markNode ← load h mark;
      let beforeMark := n_prev markNode in
      h ← setPrev h mark n;
      h ← setNext h n mark;
      match beforeMark with
      | None => mret h
      | Some _ => h ← setPrev h n beforeMark; setNext h beforeMark n
      end
  end.

(** [length]: the bound is the number of nodes. *)
Fixpoint lengthLoop (fuel : nat) (h : heap) (n : ptr) (l : Z) : outcome Z :=
  match n with
  | None => mret l
  | Some _ =>
      match fuel with
      | O => OutOfFuel
      | S fuel => x ← load h n; lengthLoop fuel h (n_next x) (l + 1)
      end
  end.

Definition nodeLength (h : heap) (n : ptr) : outcome Z := lengthLoop (size h) h n 0.

(** [makeLinkedEntries] allocates the nodes from the last entry to the first; the
    address of a node is the position of its entry. *)
Fixpoint linkEntries (i : nat) (entries : list entry) : outcome (heap * ptr * gmap Z nat) :=
  match entries with
  | [] => mret (∅, None, ∅)
  | elem :: entries =>
      '(h, root, m) ← linkEntries (S i) entries;
      if decide (e_kind elem = returnEntry) then
        let h := <[i := mkNode (e_value elem) None (e_id elem) None None]> h in
        let m := <[e_id elem := i]> m in
        h ← insertBefore h (Some i) root; mret (h, Some i, m)
      else
        let h := <[i := mkNode (e_value elem) (m !! e_id elem) (e_id elem) None None]> h in
        h ← insertBefore h (Some i) root; mret (h, Some i, m)
  end.

Definition makeLinkedEntries (entries : list entry) : outcome (heap * ptr) :=
  '(h, root, _) ← linkEntries 0 entries; mret (h, root).

Definition lift (h : heap) (entry : ptr) : outcome heap :=
  e ← load h entry; h ← setNext h (n_prev e) (n_next e);
  e ← load h entry; h ← setPrev h (n_next e) (n_prev e);
  e ← load h entry;
  let m := n_match e in
  x ← load h m; h ← setNext h (n_prev x) (n_next x);
  x ← load h m;
  match n_next x with
  | None => mret h
  | Some _ => setPrev h (n_next x) (n_prev x)
  end.

Definition unlift (h : heap) (entry : ptr) : outcome heap :=
  e ← load h entry;
  let m := n_match e in
  x ← load h m; h ← setNext h (n_prev x) m;
  x ← load h m;
  h ← match n_next x with
      | None => mret h
      | Some _ => setPrev h (n_next x) m
      end;
  e ← load h entry; h ← setNext h (n_prev e) entry;
  e ← load h entry; setPrev h (n_next e) entry.

(** ** The search *)

Record cacheEntry := mkCacheEntry { c_linearized : bitset; c_state : State }.
Record callsEntry := mkCallsEntry { calls_entry : ptr; calls_state : State }.

Definition cacheContains (equal : State → State → bool) (cache : gmap Z (list cacheEntry)) (e : cacheEntry) : bool :=
  existsb (λ elem, Bitset.equals (c_linearized e) (c_linearized elem) && equal (c_state e) (c_state elem))
    (map_get [] cache (Bitset.hash (c_linearized e))).

(** [longest] holds pointers to sequences, several of them to the same one: a
    pointer is a position in [lg_seqs], the sequences that have been made. *)
Record partials := mkPartials { lg_longest : list (option nat); lg_seqs : list (list Z) }.

(** The variables of [checkSingle]. *)
Record search := mkSearch {
  s_heap : heap; s_entry : ptr; s_linearized : bitset; s_cache : gmap Z (list cacheEntry);
  s_calls : list callsEntry; s_longest : partials; s_state : State;
}.

(** [seq[i] = v.entry.id] *)
Definition callIds (h : heap) (calls : list callsEntry) : outcome (list Z) :=
  for_range (λ ids v, x ← load h (calls_entry v); mret (ids ++ [n_id x])) [] calls.

(** The part under [if computePartial]; [made] is [seq], which is created when it
    is needed. *)
Definition updateLongest (h : heap) (calls : list callsEntry) (lg : partials) : outcome partials :=
  '(lg, _) ← for_range (λ '(lg, made) v,
      x ← load h (calls_entry v);
      cur ← slice_get (lg_longest lg) (n_id x);
      let old := p ← cur; lg_seqs lg !! p in
      if (match old with None => true | Some s => bool_decide (len s < len calls) end : bool) then
        '(seqs, p) ← match made with
                     | Some p => mret (lg_seqs lg, p)
                     | None => ids ← callIds h calls; mret (lg_seqs lg ++ [ids], length (lg_seqs lg))
                     end;
        longest ← slice_set (lg_longest lg) (n_id x) (Some p);
        mret (mkPartials longest seqs, Some p)
      else mret (lg, made)) (lg, None) calls;
  mret lg.

(** The statements after the loop. *)
Definition complete (n : Z) (h : heap) (calls : list callsEntry) (lg : partials) : outcome partials :=
  ids ← callIds h calls;
  longest ← for_range (λ l i, slice_set l (Z.of_nat i) (Some (length (lg_seqs lg)))) (lg_longest lg)
              (seq 0 (Z.to_nat n));
  mret (mkPartials longest (lg_seqs lg ++ [ids])).

(** One test of the loop of [checkSingle] and the iteration that follows it: the
    next state of the search or what [checkSingle] returns. *)
Definition iteration (step : State → Inp → Out → bool * State) (equal : State → State → bool)
    (computePartial : bool) (n : Z) (headEntry : ptr) (kill : Z) (x : search) : outcome (search + bool * partials) :=
  let '(mkSearch h entry linearized cache calls lg state) := x in
  headNode ← load h headEntry;
  if decide (n_next headNode = None) then
    lg ← complete n h calls lg; mret (inr (true, lg))
  else if decide (kill ≠ 0) then mret (inr (false, lg))
  else
    e ← load h entry;
    match n_match e with
    | Some _ =>
        matching ← load h (n_match e);
        '(ok, newState) ← match n_value e, n_value matching with
                          | InputV i, OutputV o => mret (step state i o)
                          | _, _ => Panic
                          end;
        if (ok : bool) then
          newLinearized ← Bitset.set linearized (n_id e);
          let newCacheEntry := mkCacheEntry newLinearized newState in
          if negb (cacheContains equal cache newCacheEntry) then
            let hash := Bitset.hash newLinearized in
            let cache := <[hash := map_get [] cache hash ++ [newCacheEntry]]> cache in
            let calls := calls ++ [mkCallsEntry entry state] in
            linearized ← Bitset.set linearized (n_id e);
            h ← lift h entry;
            headNode ← load h headEntry;
            mret (inl (mkSearch h (n_next headNode) linearized cache calls lg newState))
          else mret (inl (mkSearch h (n_next e) linearized cache calls lg state))
        else mret (inl (mkSearch h (n_next e) linearized cache calls lg state))
    | None =>
        if decide (calls = []) then mret (inr (false, lg))
        else
          lg ← if (computePartial : bool) then updateLongest h calls lg else mret lg;
          callsTop ← slice_get calls (len calls - 1);
          let entry := calls_entry callsTop in
          let state := calls_state callsTop in
          e ← load h entry;
          linearized ← Bitset.clear linearized (n_id e);
          calls ← slice_upto calls (len calls - 1);
          h ← unlift h entry;
          e ← load h entry;
          mret (inl (mkSearch h (n_next e) linearized cache calls lg state))
    end.

(** The statements before the loop: the number of operations, the head of the
    list and the first state of the search. *)
Definition prepare (init : State) (history : list entry) : outcome (Z * ptr * search) :=
  '(h, entry) ← makeLinkedEntries history;
  l ← nodeLength h entry;
  let n := l / 2 in
  let headEntry := Some (length history) in
  let h := <[length history := mkNode NilV None (-1) None None]> h in
  h ← insertBefore h headEntry entry;
  mret (n, headEntry, mkSearch h entry (Bitset.newBitset n) ∅ [] (mkPartials (replicate (Z.to_nat n) None) []) init).

(** [checkSingle]: [kill t] is what the iteration number [t] reads. *)
Fixpoint searchLoop (step : State → Inp → Out → bool * State) (equal : State → State → bool) (computePartial : bool)
    (n : Z) (headEntry : ptr) (kill : nat → Z) (fuel t : nat) (x : search) : outcome (bool * partials) :=
  match fuel with
  | O => OutOfFuel
  | S fuel =>
      r ← iteration step equal computePartial n headEntry (kill t) x;
      match r with
      | inl x => searchLoop step equal computePartial n headEntry kill fuel (S t) x
      | inr res => mret res
      end
  end.

Definition checkSingle (step : State → Inp → Out → bool * State) (equal : State → State → bool) (init : State)
    (history : list entry) (computePartial : bool) (kill : nat → Z) (fuel : nat) : outcome (bool * partials) :=
  '(n, headEntry, x) ← prepare init history;
  searchLoop step equal computePartial n headEntry kill fuel 0 x.

(** ** All parts

    One goroutine per part runs [checkSingle]; the caller waits for their results.
    A state of [checkParallel]: *)

Inductive worker :=
| Starting (history : list entry)
| Searching (n : Z) (headEntry : ptr) (x : search)
| Exited.

(** [info] of a call without [computeInfo] is empty. *)
Record linearizationInfo := mkInfo {
  li_history : list (list entry); li_partialLinearizations : list (list (list Z));
}.

Inductive caller :=
| Selecting (count : Z) (ok : bool)
| Draining (count : Z) (ok timedOut : bool)
| Returned (result : CheckResult) (info : linearizationInfo).

(** [results] is a channel with room for all results. *)
Record checking := mkChecking {
  p_workers : list worker; p_kill : Z; p_results : list bool; p_longest : list (option partials); p_caller : caller;
}.

(** Worker [i] prepares or runs one iteration; the caller receives a result; the
    timer fires. *)
Inductive action := Work (i : nat) | Receive | Timeout.

Section parallel.
Context {Operation : Type} `{!EqDecision State} (model : Model Operation).
Context (history : list (list entry)) (computeInfo : bool) (timeout : Z) (iter : gset nat → list nat).

Definition fillDefault : Model Operation :=
  mkModel Operation (Some (default NoPartition (Partition _ model)))
    (Some (default NoPartitionEvent (PartitionEvent _ model)))
    (Init _ model) (Step _ model) (Some (default ShallowEqual (Equal _ model))).

(** [model.Equal], which [fillDefault] has filled in *)
Definition equalOf : State → State → bool := default ShallowEqual (Equal _ model).

Definition startChecking : checking :=
  mkChecking (Starting <$> history) 0 [] (replicate (length history) None) (Selecting 0 true).

(** The distinct sequences of a part, in the order [iter] in which Go goes over
    the set. *)
Definition partialsOf (lg : option partials) : list (list Z) :=
  match lg with
  | None => []
  | Some lg => omap (lg_seqs lg !!.) (iter (list_to_set (omap id (lg_longest lg))))
  end.

Definition finish (p : checking) (ok timedOut : bool) : caller :=
  Returned (if negb ok then Illegal else if (timedOut : bool) then Unknown else Ok)
    (if computeInfo then mkInfo history (partialsOf <$> p_longest p) else mkInfo [] []).

(** After the loop with the label [loop]. *)
Definition afterLoop (p : checking) (count : Z) (ok timedOut : bool) : caller :=
  if decide (computeInfo = true ∧ count < len history) then Draining count ok timedOut else finish p ok timedOut.

Definition withCaller (kill : Z) (results : list bool) (c : caller) (p : checking) : checking :=
  mkChecking (p_workers p) kill results (p_longest p) c.

Definition withWorker (i : nat) (w : worker) (p : checking) : checking :=
  mkChecking (<[i := w]> (p_workers p)) (p_kill p) (p_results p) (p_longest p) (p_caller p).

(** [None]: the action is not possible now. *)
Definition exec (a : action) (p : checking) : option (outcome checking) :=
  match a with
  | Work i =>
      match p_workers p !! i with
      | Some (Starting h) => Some ('(n, headEntry, x) ← prepare (Init _ model) h;
                                   mret (withWorker i (Searching n headEntry x) p))
      | Some (Searching n headEntry x) =>
          Some (r ← iteration (Step _ model) equalOf computeInfo n headEntry (p_kill p) x;
                match r with
                | inl x => mret (withWorker i (Searching n headEntry x) p)
                | inr (ok, l) => mret (mkChecking (<[i := Exited]> (p_workers p)) (p_kill p) (p_results p ++ [ok])
                                         (<[i := Some l]> (p_longest p)) (p_caller p))
                end)
      | _ => None
      end
  | Receive =>
      match p_caller p, p_results p with
      | Selecting count ok, result :: results =>
          let count := count + 1 in
          let ok := ok && result in
          Some (mret (
            if decide (ok = false ∧ computeInfo = false) then withCaller 1 results (afterLoop p count ok false) p
            else if decide (len history ≤ count) then withCaller (p_kill p) results (afterLoop p count ok false) p
            else withCaller (p_kill p) results (Selecting count ok) p))
      | Draining count ok timedOut, _ :: results =>
          Some (mret (withCaller (p_kill p) results (afterLoop p (count + 1) ok timedOut) p))
      | _, _ => None
      end
  | Timeout =>
      match p_caller p with
      | Selecting count ok =>
          if decide (0 < timeout) then Some (mret (withCaller 1 (p_results p) (afterLoop p count ok true) p)) else None
      | _ => None
      end
  end.

(** [checkParallel] does some actions. *)
Inductive checks : checking → list action → checking → Prop :=
| checks_nil p : checks p [] p
| checks_cons p a p' acts p'' : exec a p = Some (Ret p') → checks p' acts p'' → checks p (a :: acts) p''.

Fixpoint execAll (acts : list action) (p : checking) : option checking :=
  match acts with
  | [] => Some p
  | a :: acts => match exec a p with Some (Ret p') => execAll acts p' | _ => None end
  end.

End parallel.

(** ** [checkOperations] and [checkEvents]

    They return what the caller of [checkParallel] has at the end of some run. *)

Definition checkParallel {Operation} `{!EqDecision State} (model : Model Operation) (history : list (list entry))
    (computeInfo : bool) (timeout : Z) (iter : gset nat → list nat) (res : CheckResult) (info : linearizationInfo) : Prop :=
  ∃ acts p, checks model history computeInfo timeout iter (startChecking history) acts p ∧ p_caller p = Returned res info.

(** The parts that are searched. *)
Definition operationParts {Operation} `{!EqDecision State} (make : list Operation → list entry)
    (model : Model Operation) (history : list Operation) : list (list entry) :=
  make <$> default NoPartition (Partition _ (fillDefault model)) history.

Definition eventParts {Operation} `{!EqDecision State} (model : Model Operation) (history : list Event) : list (list entry) :=
  (λ sub, convertEntries (renumber sub)) <$> default NoPartitionEvent (PartitionEvent _ (fillDefault model)) history.

(** [make] is [makeEntries] for the type of the operations. *)
Definition checkOperations {Operation} `{!EqDecision State} (make : list Operation → list entry) (model : Model Operation)
    (history : list Operation) (verbose : bool) (timeout : Z) (iter : gset nat → list nat)
    (res : CheckResult) (info : linearizationInfo) : Prop :=
  checkParallel (fillDefault model) (operationParts make model history) verbose timeout iter res info.

Definition checkEvents {Operation} `{!EqDecision State} (model : Model Operation) (history : list Event)
    (verbose : bool) (timeout : Z) (iter : gset nat → list nat) (res : CheckResult) (info : linearizationInfo) : Prop :=
  checkParallel (fillDefault model) (eventParts model history) verbose timeout iter res info.

(** ** [porcupine.go] *)

Definition CheckOperations {Operation} `{!EqDecision State} (make : list Operation → list entry) (model : Model Operation)
    (history : list Operation) (iter : gset nat → list nat) (answer : bool) : Prop :=
  ∃ res info, checkOperations make model history false 0 iter res info ∧ answer = bool_decide (res = Ok).

Definition CheckOperationsTimeout {Operation} `{!EqDecision State} (make : list Operation → list entry) (model : Model Operation)
    (history : list Operation) (timeout : Z) (iter : gset nat → list nat) (res : CheckResult) : Prop :=
  ∃ info, checkOperations make model history false timeout iter res info.

Definition CheckOperationsVerbose {Operation} `{!EqDecision State} (make : list Operation → list entry) (model : Model Operation)
    (history : list Operation) (timeout : Z) (iter : gset nat → list nat) (res : CheckResult) (info : linearizationInfo) : Prop :=
  checkOperations make model history true timeout iter res info.

Definition CheckEvents {Operation} `{!EqDecision State} (model : Model Operation) (history : list Event)
    (iter : gset nat → list nat) (answer : bool) : Prop :=
  ∃ res info, checkEvents model history false 0 iter res info ∧ answer = bool_decide (res = Ok).

Definition CheckEventsTimeout {Operation} `{!EqDecision State} (model : Model Operation) (history : list Event)
    (timeout : Z) (iter : gset nat → list nat) (res : CheckResult) : Prop :=
  ∃ info, checkEvents model history false timeout iter res info.

Definition CheckEventsVerbose {Operation} `{!EqDecision State} (model : Model Operation) (history : list Event)
    (timeout : Z) (iter : gset nat → list nat) (res : CheckResult) (info : linearizationInfo) : Prop :=
  checkEvents model history true timeout iter res info.

End checker.
