(* ===== verification/CheckerList.v ===== *)
(** * The list of the checker

    The nodes of [Checker] form a doubly linked list.  [lift] takes two nodes out
    of it and leaves their own pointers as they are, so that [unlift], which
    follows these pointers, gives back the very heap that was there before.
    [makeLinkedEntries] builds the list of all entries, each call linked to its
    return. *)

From S2P Require Import Prelude Bitset Checker.
Local Open Scope Z_scope.

Section lists.
Context {Inp Out : Type}.
Local Abbreviation node := (@node Inp Out).
Local Abbreviation heap := (gmap nat node).
Local Abbreviation ptr := (option nat).
Implicit Types (h : heap) (n : node) (L : list nat).

(** ** Taking out a node *)

Definition alterAt (f : node → node) (p : ptr) h : heap :=
  match p with Some a => alter f a h | None => h end.

(** The neighbours of [x] point past it. *)
Definition remove (x : nat) h : heap :=
  match h !! x with
  | Some n => alterAt (withPrev (n_prev n)) (n_next n) (alterAt (withNext (n_next n)) (n_prev n) h)
  | None => h
  end.

(** The nodes to which [x] points point to it. *)
Definition restore (x : nat) h : heap :=
  match h !! x with
  | Some n => alterAt (withPrev (Some x)) (n_next n) (alterAt (withNext (Some x)) (n_prev n) h)
  | None => h
  end.

Lemma lookup_alterAt f p h a :
  alterAt f p h !! a = (λ n, if decide (p = Some a) then f n else n) <$> h !! a.
Proof.
  destruct p as [b|]; simpl.
  - destruct (decide (b = a)) as [->|Hne].
    + rewrite lookup_alter_eq. destruct (h !! a); simpl; [|done]. by rewrite decide_True.
    + rewrite lookup_alter_ne by done. destruct (h !! a); simpl; [|done]. rewrite decide_False by congruence. done.
  - by destruct (h !! a).
Qed.

Lemma setNext_at h p q a n : p = Some a → h !! a = Some n → setNext h p q = Ret (alterAt (withNext q) p h).
Proof.
  intros -> Hn. unfold setNext, load. simpl. rewrite Hn, bind_Ret. unfold mret, outcome_mret. f_equal.
  apply map_eq. intros i. destruct (decide (a = i)) as [<-|Hne].
  - by rewrite lookup_insert_eq, lookup_alter_eq, Hn.
  - by rewrite lookup_insert_ne, lookup_alter_ne.
Qed.

Lemma setPrev_at h p q a n : p = Some a → h !! a = Some n → setPrev h p q = Ret (alterAt (withPrev q) p h).
Proof.
  intros -> Hn. unfold setPrev, load. simpl. rewrite Hn, bind_Ret. unfold mret, outcome_mret. f_equal.
  apply map_eq. intros i. destruct (decide (a = i)) as [<-|Hne].
  - by rewrite lookup_insert_eq, lookup_alter_eq, Hn.
  - by rewrite lookup_insert_ne, lookup_alter_ne.
Qed.

(** A node with its neighbours: [next] may be [nil]. *)
Definition between h (x p : nat) (q : ptr) n : Prop :=
  h !! x = Some n ∧ n_prev n = Some p ∧ n_next n = q ∧ p ≠ x ∧ is_Some (h !! p) ∧
  (∀ a, q = Some a → a ≠ x ∧ is_Some (h !! a)).

(** The statements of [lift] and [unlift] on one node. *)
Lemma relink_ret h x p q n p' q' : between h x p q n →
  ∃ h1, setNext h (n_prev n) p' = Ret h1 ∧ h1 !! x = Some n ∧ (∀ a, q = Some a → is_Some (h1 !! a)) ∧
    match q with None => Ret h1 | Some _ => setPrev h1 (n_next n) q' end =
      Ret (alterAt (withPrev q') (n_next n) (alterAt (withNext p') (n_prev n) h)).
Proof.
  intros (Hx & Hp & Hq & Hpx & [np Hnp] & Hqx). eexists. split; [by eapply setNext_at|].
  assert (∀ a, q = Some a → is_Some (alterAt (withNext p') (n_prev n) h !! a)) as Hsome.
  { intros a Ha. rewrite lookup_alterAt. destruct (Hqx a Ha) as [_ [na ->]]. by eexists. }
  split; [|split; [done|]].
  - rewrite lookup_alterAt, Hx, Hp. simpl. rewrite decide_False by congruence. done.
  - rewrite Hq. destruct q as [b|]; [|done]. destruct (Hsome b eq_refl) as [nb Hnb]. by eapply setPrev_at.
Qed.

Lemma load_at h a n : h !! a = Some n → load h (Some a) = Ret n.
Proof. intros Hn. unfold load. simpl. by rewrite Hn. Qed.

Lemma lookup_remove h x n a : h !! x = Some n → remove x h !! a =
  (λ m, (if decide (n_next n = Some a) then withPrev (n_prev n) else id)
         ((if decide (n_prev n = Some a) then withNext (n_next n) else id) m)) <$> h !! a.
Proof.
  intros Hx. unfold remove. rewrite Hx, !lookup_alterAt. destruct (h !! a) as [m|]; [|done]. simpl.
  repeat case_decide; done.
Qed.

Lemma lookup_restore h x n a : h !! x = Some n → restore x h !! a =
  (λ m, (if decide (n_next n = Some a) then withPrev (Some x) else id)
         ((if decide (n_prev n = Some a) then withNext (Some x) else id) m)) <$> h !! a.
Proof.
  intros Hx. unfold restore. rewrite Hx, !lookup_alterAt. destruct (h !! a) as [m|]; [|done]. simpl.
  repeat case_decide; done.
Qed.

(** ** Lists in the heap *)

(** The list [L]: every node points to its neighbours in [L]. *)
Definition links h L : Prop := ∀ i a, L !! i = Some a →
  ∃ n, h !! a = Some n ∧ n_next n = L !! S i ∧ n_prev n = match i with O => None | S j => L !! j end.

Lemma links_between h L k x : links h L → NoDup L → L !! S k = Some x →
  ∃ p n, L !! k = Some p ∧ between h x p (L !! S (S k)) n.
Proof.
  intros Hl Hnd Hx. destruct (lookup_lt_is_Some_2 L k) as [p Hp]; [apply lookup_lt_Some in Hx; lia|].
  destruct (Hl _ _ Hx) as (n & Hn & Hnext & Hprev). exists p, n. split; [done|]. unfold between.
  split_and!; [done|by rewrite Hprev|done| | |].
  - intros ->. pose proof (NoDup_lookup _ _ _ _ Hnd Hp Hx). lia.
  - destruct (Hl _ _ Hp) as (np & ? & _). by exists np.
  - intros a Ha. split; [|destruct (Hl _ _ Ha) as (na & ? & _); by exists na].
    intros ->. pose proof (NoDup_lookup _ _ _ _ Hnd Ha Hx). lia.
Qed.

Lemma remove_self h x p q n : between h x p q n → remove x h !! x = Some n.
Proof.
  intros (Hx & Hp & Hq & Hpx & _ & Hqx). rewrite (lookup_remove h x n x Hx), Hx, Hp, Hq. simpl.
  rewrite (decide_False (P := Some p = Some x)) by congruence.
  rewrite decide_False; [done|]. intros ->. by destruct (Hqx x eq_refl).
Qed.

Lemma withNext_same n q : n_next n = q → withNext q n = n.
Proof. intros <-. by destruct n. Qed.
Lemma withPrev_same n q : n_prev n = q → withPrev q n = n.
Proof. intros <-. by destruct n. Qed.

(** What is taken out can be put back. *)
Lemma restore_remove h L k x : links h L → NoDup L → L !! S k = Some x → restore x (remove x h) = h.
Proof.
  intros Hl Hnd Hx. destruct (links_between h L k x Hl Hnd Hx) as (p & n & Hp & Hb).
  pose proof (remove_self _ _ _ _ _ Hb) as Hself. destruct Hb as (Hn & Hnp & Hnq & Hpx & _ & Hqx).
  apply map_eq. intros a. rewrite (lookup_restore _ _ _ _ Hself), (lookup_remove _ _ _ _ Hn), Hnp, Hnq.
  destruct (h !! a) as [m|] eqn:Ha; [|done]. simpl. f_equal.
  destruct (Hl _ _ Hp) as (np & Hnp' & Hpnext & _).
  assert (Some p = Some a → withNext (Some x) (withNext (L !! S (S k)) m) = m) as E1.
  { intros [= <-]. rewrite Ha in Hnp'. injection Hnp' as <-. rewrite Hx in Hpnext. destruct m. unfold withNext. simpl in *. congruence. }
  assert (L !! S (S k) = Some a → n_prev m = Some x) as E2.
  { intros Hq. destruct (Hl _ _ Hq) as (nq & Hnq' & _ & Hqprev). rewrite Ha in Hnq'. injection Hnq' as <-. congruence. }
  destruct (decide (Some p = Some a)) as [H1|H1], (decide (L !! S (S k) = Some a)) as [H2|H2]; cbn [id].
  - specialize (E1 H1). specialize (E2 H2). destruct m. unfold withNext, withPrev in *. simpl in *. congruence.
  - by apply E1.
  - specialize (E2 H2). destruct m. unfold withPrev. simpl in *. congruence.
  - done.
Qed.

Lemma remove_links h L k x : links h L → NoDup L → L !! S k = Some x → links (remove x h) (delete (S k) L).
Proof.
  intros Hl Hnd Hx i a Ha. destruct (links_between h L k x Hl Hnd Hx) as (p & n & Hp & Hn & Hnp & Hnq & _).
  rewrite (lookup_remove h x n a Hn), Hnp, Hnq.
  assert (∃ j, L !! j = Some a ∧ j = if decide (i < S k)%nat then i else S i) as (j & Hj & Ej).
  { case_decide as Hi; [rewrite list_lookup_delete_lt in Ha by done|rewrite list_lookup_delete_ge in Ha by lia]; eauto. }
  destruct (Hl _ _ Hj) as (m & Hm & Hnext & Hprev). rewrite Hm. simpl. eexists. split; [done|].
  assert (Some p = Some a ↔ j = k) as Ep.
  { split; [|intros ->; congruence]. intros [= <-]. by apply (NoDup_lookup L j k p). }
  assert (L !! S (S k) = Some a ↔ j = S (S k)) as Eq.
  { split; [|intros ->; done]. intros Hq. by apply (NoDup_lookup L j (S (S k)) a). }
  destruct (decide (Some p = Some a)) as [H1|H1], (decide (L !! S (S k) = Some a)) as [H2|H2];
    rewrite ?Ep, ?Eq in *; destruct (decide (i < S k)%nat) as [Hi|Hi]; try lia.
  - (* the node before *) assert (i = k) as -> by lia. cbn. rewrite list_lookup_delete_ge by lia. split; [done|].
    rewrite Hprev. replace j with k by lia. destruct k as [|k]; [done|]. by rewrite list_lookup_delete_lt by lia.
  - (* the node behind *) assert (i = S k) as -> by lia. cbn. rewrite list_lookup_delete_ge by lia.
    split; [by rewrite Hnext, H2|]. rewrite list_lookup_delete_lt by lia. done.
  - cbn. subst j. rewrite list_lookup_delete_lt by lia. split; [done|]. rewrite Hprev. destruct i as [|i]; [done|].
    by rewrite list_lookup_delete_lt by lia.
  - cbn. subst j. rewrite list_lookup_delete_ge by lia. split; [done|]. rewrite Hprev.
    destruct i as [|i]; [lia|]. by rewrite list_lookup_delete_ge by lia.
Qed.

(** What does not change. *)
Definition sameEntry n n' : Prop := n_value n = n_value n' ∧ n_match n = n_match n' ∧ n_id n = n_id n'.

Lemma remove_entries h x a n : h !! a = Some n → is_Some (h !! x) → ∃ n', remove x h !! a = Some n' ∧ sameEntry n' n.
Proof.
  intros Ha [m Hx]. rewrite (lookup_remove h x m a Hx), Ha. simpl. eexists. split; [done|].
  unfold sameEntry. destruct n. repeat case_decide; simpl; done.
Qed.

Lemma NoDup_delete {A} (l : list A) i : NoDup l → NoDup (delete i l).
Proof. intros Hnd. eapply sublist_NoDup; [done|apply sublist_delete]. Qed.

Lemma remove_between h x p q n : between h x p q n → between (remove x h) x p q n.
Proof.
  intros Hb. pose proof (remove_self _ _ _ _ _ Hb) as Hs. destruct Hb as (Hx & ? & ? & ? & [np Hp] & Hq).
  assert (∀ a na, h !! a = Some na → is_Some (remove x h !! a)) as Hsome.
  { intros a na Ha. destruct (remove_entries h x a na Ha) as (n' & ? & _); [by eexists|]. by exists n'. }
  split_and!; try done; [by eapply Hsome|]. intros a Ha. destruct (Hq a Ha) as [? [na Hna]]. split; [done|by eapply Hsome].
Qed.

(** ** [lift] and [unlift] *)

(** [lift] takes out a call and its return, and [unlift] takes that back. *)
Lemma lift_spec h L k e k' m : links h L → NoDup L → L !! S k = Some e →
  delete (S k) L !! S k' = Some m → (k ≤ k')%nat → (∃ n, h !! e = Some n ∧ n_match n = Some m) →
  ∃ h', lift h (Some e) = Ret h' ∧ h' = remove m (remove e h) ∧ unlift h' (Some e) = Ret h.
Proof.
  intros Hl Hnd He Hm Hk (ne & Hne & Hmatch). exists (remove m (remove e h)).
  pose proof (remove_links h L k e Hl Hnd He) as Hl'. pose proof (NoDup_delete L (S k) Hnd) as Hnd'.
  pose proof (restore_remove h L k e Hl Hnd He) as Hre. pose proof (restore_remove _ _ _ _ Hl' Hnd' Hm) as Hrm.
  destruct (links_between h L k e Hl Hnd He) as (p & n & _ & Hbe). assert (n = ne) as -> by (destruct Hbe; congruence).
  destruct (links_between _ _ _ m Hl' Hnd' Hm) as (pm & nm & _ & Hbm). set (q := delete (S k) L !! S (S k')) in *.
  assert (∃ b, L !! S (S k) = Some b) as [b Hb].
  { apply lookup_lt_is_Some_2. rewrite list_lookup_delete_ge in Hm by lia. apply lookup_lt_Some in Hm. lia. }
  pose proof (remove_self _ _ _ _ _ Hbe) as Hse. pose proof (remove_self _ _ _ _ _ Hbm) as Hsm.
  split; [|split; [done|]].
  - destruct (relink_ret h e p (L !! S (S k)) ne (n_next ne) (n_prev ne) Hbe) as (h1 & Hs1 & Hx1 & _ & Hs2).
    unfold lift. rewrite (load_at _ _ _ Hne), bind_Ret, Hs1, bind_Ret, (load_at _ _ _ Hx1), bind_Ret.
    rewrite Hb in Hs2. rewrite Hs2, bind_Ret. fold (remove e h).
    assert (alterAt (withPrev (n_prev ne)) (n_next ne) (alterAt (withNext (n_next ne)) (n_prev ne) h) = remove e h) as ->.
    { unfold remove. by rewrite Hne. }
    rewrite (load_at _ _ _ Hse), bind_Ret, Hmatch.
    destruct (relink_ret _ m pm q nm (n_next nm) (n_prev nm) Hbm) as (h2 & Hs3 & Hx3 & _ & Hs4).
    destruct Hbm as (Hnm & _ & Hq & _). rewrite (load_at _ _ _ Hnm), bind_Ret, Hs3, bind_Ret, (load_at _ _ _ Hx3), bind_Ret.
    unfold remove at 1. rewrite Hnm, <- Hs4, Hq. by destruct q.
  - pose proof (remove_between _ _ _ _ _ Hbm) as Hbm'. pose proof (remove_between _ _ _ _ _ Hbe) as Hbe'.
    assert (∃ ne', remove m (remove e h) !! e = Some ne' ∧ n_match ne' = Some m) as (ne' & Hne' & Hm').
    { destruct (remove_entries (remove e h) m e ne Hse) as (x & ? & _ & Hxm & _); [destruct Hbm; by eexists|].
      exists x. by rewrite Hxm. }
    unfold unlift. rewrite (load_at _ _ _ Hne'), bind_Ret, Hm', (load_at _ _ _ Hsm), bind_Ret.
    destruct (relink_ret _ m pm q nm (Some m) (Some m) Hbm') as (h2 & Hs3 & Hx3 & _ & Hs4).
    rewrite Hs3, bind_Ret, (load_at _ _ _ Hx3), bind_Ret.
    assert (match n_next nm with Some _ => setPrev h2 (n_next nm) (Some m) | None => mret h2 end = Ret (remove e h)) as ->.
    { rewrite <- Hrm. unfold restore. rewrite Hsm, <- Hs4. destruct Hbm as (_ & _ & -> & _). by destruct q. }
    rewrite bind_Ret, (load_at _ _ _ Hse), bind_Ret.
    destruct (relink_ret _ e p _ ne (Some e) (Some e) Hbe') as (h1 & Hs1 & Hx1 & _ & Hs2).
    rewrite Hs1, bind_Ret, (load_at _ _ _ Hx1), bind_Ret. rewrite Hb in Hs2. rewrite Hs2.
    rewrite <- Hre at 2. unfold restore. by rewrite Hse.
Qed.

(** ** Building the list *)

Lemma insertBefore_links h L i n : links h L → i ∉ L → h !! i = Some n → n_next n = None → n_prev n = None →
  ∃ h', insertBefore h (Some i) (L !! 0%nat) = Ret h' ∧ links h' (i :: L) ∧ dom h' = dom h ∧
    ∀ a x, h !! a = Some x → ∃ x', h' !! a = Some x' ∧ sameEntry x' x.
Proof.
  intros Hl Hi Hn Hnext Hprev. destruct (L !! 0%nat) as [a0|] eqn:H0.
  - destruct (Hl _ _ H0) as (n0 & Hn0 & Hnext0 & Hprev0). assert (i ≠ a0) as Hne.
    { intros ->. apply Hi. by eapply list_elem_of_lookup_2. }
    exists (<[i := withNext (Some a0) n]> (<[a0 := withPrev (Some i) n0]> h)). split_and!.
    + unfold insertBefore, setPrev, setNext. rewrite (load_at _ _ _ Hn0), !bind_Ret, Hprev0. cbn -[load].
      rewrite (load_at _ i n) by (by rewrite lookup_insert_ne). done.
    + intros [|j] a Ha; cbn in Ha.
      { injection Ha as <-. rewrite lookup_insert_eq. eexists. split; [done|]. simpl. by rewrite H0, Hprev. }
      assert (i ≠ a) as Hia by (intros ->; apply Hi; by eapply list_elem_of_lookup_2).
      rewrite lookup_insert_ne by done. destruct (decide (a0 = a)) as [<-|Ha0].
      * rewrite lookup_insert_eq. eexists. split; [done|]. simpl.
        destruct (Hl _ _ Ha) as (n1 & Hn1 & Hnext1 & Hprev1). rewrite Hn0 in Hn1. injection Hn1 as <-.
        split; [done|]. destruct j as [|j]; [done|]. exfalso. rewrite Hprev0 in Hprev1.
        apply lookup_lt_Some in Ha. symmetry in Hprev1. apply lookup_ge_None in Hprev1. lia.
      * rewrite lookup_insert_ne by done. destruct (Hl _ _ Ha) as (n1 & Hn1 & Hnext1 & Hprev1). exists n1.
        split; [done|]. split; [done|]. destruct j as [|j]; [|done].
        exfalso. pose proof (eq_trans (eq_sym H0) Ha). congruence.
    + rewrite !dom_insert_L. apply elem_of_dom_2 in Hn, Hn0. set_solver.
    + intros a x Hx. destruct (decide (i = a)) as [<-|Hia].
      { rewrite lookup_insert_eq. eexists. split; [done|]. by rewrite Hn in Hx; injection Hx as <-. }
      rewrite lookup_insert_ne by done. destruct (decide (a0 = a)) as [<-|Ha0].
      { rewrite lookup_insert_eq. eexists. split; [done|]. by rewrite Hn0 in Hx; injection Hx as <-. }
      rewrite lookup_insert_ne by done. by exists x.
  - exists h. split; [done|]. apply lookup_ge_None in H0. destruct L; [|simpl in H0; lia]. split; [|split; [done|intros a x Hx; by exists x]].
    intros [|j] a Ha; [|done]. injection Ha as <-. by exists n.
Qed.

(** The return with an identifier among some entries, the first at position [i]. *)
Fixpoint returnAt (i : nat) (es : list (@entry Inp Out)) (d : Z) : ptr :=
  match es with
  | [] => None
  | e :: es => if decide (e_kind e = returnEntry ∧ e_id e = d) then Some i else returnAt (S i) es d
  end.

(** The node of an entry. *)
Definition nodeOf (i : nat) (es : list entry) (j : nat) (e : entry) n : Prop :=
  n_value n = e_value e ∧ n_id n = e_id e ∧
  n_match n = if decide (e_kind e = returnEntry) then None else returnAt (S (i + j)) (drop (S j) es) (e_id e).

Lemma nodeOf_same i es j e n n' : nodeOf i es j e n → sameEntry n' n → nodeOf i es j e n'.
Proof. unfold nodeOf. intros (? & ? & ?) (-> & -> & ->). done. Qed.

Lemma linkEntries_spec i es : ∃ h m, linkEntries i es = Ret (h, seq i (length es) !! 0%nat, m) ∧
  links h (seq i (length es)) ∧ dom h = list_to_set (seq i (length es)) ∧ (∀ d, m !! d = returnAt i es d) ∧
  ∀ j e, es !! j = Some e → ∃ n, h !! (i + j)%nat = Some n ∧ nodeOf i es j e n.
Proof.
  revert i. induction es as [|e es IH]; intros i.
  { exists ∅, ∅. split_and!; done. }
  destruct (IH (S i)) as (h & m & Hr & Hl & Hd & Hm & Hes). cbn [linkEntries length]. rewrite Hr, bind_Ret.
  set (x := mkNode (e_value e) (if decide (e_kind e = returnEntry) then None else m !! e_id e) (e_id e) None None).
  assert (i ∉ seq (S i) (length es)) as Hfresh by (rewrite elem_of_seq; lia).
  assert (links (<[i := x]> h) (seq (S i) (length es))) as Hl'.
  { intros j a Ha. rewrite lookup_insert_ne; [by apply Hl|]. intros ->. apply Hfresh. by eapply list_elem_of_lookup_2. }
  destruct (insertBefore_links _ _ i x Hl' Hfresh) as (h' & Hi & Hlinks & Hdom & Hsame);
    [by rewrite lookup_insert_eq|done|done|].
  exists h', (if decide (e_kind e = returnEntry) then <[e_id e := i]> m else m).
  split; [|split; [exact Hlinks|split; [|split]]].
  - unfold x in Hi. destruct (decide (e_kind e = returnEntry)); rewrite Hi; done.
  - rewrite Hdom, dom_insert_L, Hd. done.
  - intros d. cbn [returnAt]. destruct (decide (e_kind e = returnEntry)) as [Hk|Hk].
    + destruct (decide (e_id e = d)) as [<-|Hne]; [by rewrite lookup_insert_eq, decide_True|].
      rewrite lookup_insert_ne, decide_False by naive_solver. apply Hm.
    + rewrite decide_False by naive_solver. apply Hm.
  - intros [|j] e' Hj; cbn in Hj.
    + injection Hj as <-. destruct (Hsame i x) as (x' & Hx' & Hsx); [by rewrite lookup_insert_eq|].
      rewrite Nat.add_0_r. exists x'. split; [done|]. eapply nodeOf_same; [|done]. split_and!; try done. simpl.
      rewrite Nat.add_0_r, drop_0. case_decide; [done|apply Hm].
    + destruct (Hes j e' Hj) as (n & Hn & Hnode). destruct (Hsame (S i + j)%nat n) as (n' & Hn' & Hsn).
      { by rewrite lookup_insert_ne by lia. }
      exists n'. split; [by rewrite <- Hn'; f_equal; lia|]. eapply nodeOf_same; [|done].
      destruct Hnode as (? & ? & Hmatch). split_and!; try done. rewrite Hmatch. cbn [drop]. by rewrite Nat.add_succ_r.
Qed.

Lemma lengthLoop_spec h L i fuel l : links h L → (length L ≤ fuel + i)%nat →
  lengthLoop fuel h (L !! i) l = Ret (l + len (drop i L)).
Proof.
  intros Hl. revert i l. induction fuel as [|fuel IH]; intros i l Hf; destruct (L !! i) as [a|] eqn:Ha.
  - apply lookup_lt_Some in Ha. lia.
  - apply lookup_ge_None in Ha. rewrite drop_ge by done. simpl. unfold mret, outcome_mret. f_equal. rewrite len_nil. lia.
  - destruct (Hl _ _ Ha) as (n & Hn & Hnext & _). cbn [lengthLoop]. rewrite (load_at _ _ _ Hn), bind_Ret, Hnext.
    rewrite IH by lia. rewrite (drop_S _ _ _ Ha), len_cons. f_equal. lia.
  - apply lookup_ge_None in Ha. rewrite drop_ge by done. simpl. unfold mret, outcome_mret. f_equal. rewrite len_nil. lia.
Qed.

(** The search starts with the list of all entries behind the head. *)
Lemma prepare_spec {State} (init : State) (es : list entry) : ∃ h,
  prepare init es = Ret (len es / 2, Some (length es), mkSearch h (seq 0 (length es) !! 0%nat)
    (Bitset.newBitset (len es / 2)) ∅ [] (mkPartials (replicate (Z.to_nat (len es / 2)) None) []) init) ∧
  links h (length es :: seq 0 (length es)) ∧
  ∀ j e, es !! j = Some e → ∃ n, h !! j = Some n ∧ nodeOf 0 es j e n.
Proof.
  destruct (linkEntries_spec 0 es) as (h & m & Hr & Hl & Hd & _ & Hes).
  set (x := mkNode NilV None (-1) None None : node). set (k := length es).
  assert (k ∉ seq 0 k) as Hfresh by (rewrite elem_of_seq; lia).
  assert (links (<[k := x]> h) (seq 0 k)) as Hl'.
  { intros j a Ha. rewrite lookup_insert_ne; [by apply Hl|]. intros ->. apply Hfresh. by eapply list_elem_of_lookup_2. }
  destruct (insertBefore_links _ _ k x Hl' Hfresh) as (h' & Hi & Hlinks & Hdom & Hsame);
    [by rewrite lookup_insert_eq|done|done|].
  exists h'. split; [|split; [done|]].
  - unfold prepare, makeLinkedEntries. rewrite Hr. cbn -[nodeLength insertBefore "!!" length seq]. unfold nodeLength.
    rewrite (lengthLoop_spec h (seq 0 (length es)) 0); [|done|].
    2: { rewrite <- size_dom, Hd, size_list_to_set, length_seq by apply NoDup_seq. lia. }
    replace (0 + len (drop 0 (seq 0 (length es)))) with (len es) by (unfold len; rewrite drop_0, length_seq; lia).
    rewrite bind_Ret. fold k. fold x. by rewrite Hi.
  - intros j e Hj. destruct (Hes j e Hj) as (n & Hn & Hnode). destruct (Hsame j n) as (n' & Hn' & Hsn).
    { rewrite lookup_insert_ne; [done|]. apply lookup_lt_Some in Hj. unfold k. lia. }
    exists n'. split; [done|]. by eapply nodeOf_same.
Qed.

End lists.
