(* ===== verification/CheckerSearch.v ===== *)
(** * The search of the checker

    [iteration] walks along the list, and the search as a whole is a depth-first
    search for a linearization, cut short by the cache.  The theorem
    [search_correct] says that it ends, without a panic, and that it answers [true]
    exactly when there is a linearization. *)

From S2P Require Import Prelude Bitset Checker CheckerList.
Local Open Scope Z_scope.

(** ** Linearizations of a list of entries *)

(** Entries in pairs: operation [i] is called at position [cp i] with input [inp i]
    and returns at position [rp i] with output [out i]. *)
Record paired {Inp Out} (es : list (@entry Inp Out)) (n : nat) (cp rp : nat → nat) (inp : nat → Inp) (out : nat → Out) : Prop := {
  pr_length : length es = (2 * n)%nat;
  pr_call i : (i < n)%nat → ∃ t c, es !! cp i = Some (mkEntry callEntry (InputV (inp i)) (Z.of_nat i) t c);
  pr_return i : (i < n)%nat → ∃ t c, es !! rp i = Some (mkEntry returnEntry (OutputV (out i)) (Z.of_nat i) t c);
  pr_cover a : (a < length es)%nat → ∃ i, (i < n)%nat ∧ (a = cp i ∨ a = rp i);
  pr_order i : (i < n)%nat → (cp i < rp i)%nat;
}.

Section remaining.
Context (n : nat).

(** The operations that have not been placed. *)
Definition remaining (b : bitset) : list nat := filter (λ i, Bitset.testb b i = false) (seq 0 n).

(** [b'] is [b] with [i]. *)
Definition addsBit (b : bitset) (i : nat) (b' : bitset) : Prop :=
  ∀ j, Bitset.testb b' j = bool_decide (j = i) || Bitset.testb b j.

Lemma elem_of_remaining b i : i ∈ remaining b ↔ (i < n)%nat ∧ Bitset.testb b i = false.
Proof. unfold remaining. rewrite list_elem_of_filter, elem_of_seq. intuition lia. Qed.

Lemma remaining_NoDup b : NoDup (remaining b).
Proof. apply NoDup_filter, NoDup_seq. Qed.

Lemma remaining_add b i b' : (i < n)%nat → Bitset.testb b i = false → addsBit b i b' → remaining b ≡ₚ i :: remaining b'.
Proof.
  intros Hi Hb Hadd. apply NoDup_Permutation; [apply remaining_NoDup|constructor; [|apply remaining_NoDup]|].
  - rewrite elem_of_remaining, Hadd, bool_decide_eq_true_2 by done. intros [_ ?]. done.
  - intros j. rewrite elem_of_cons, !elem_of_remaining, Hadd. destruct (decide (j = i)) as [->|Hne].
    + naive_solver.
    + rewrite bool_decide_eq_false_2 by done. simpl. naive_solver.
Qed.

Lemma remaining_length b i b' : (i < n)%nat → Bitset.testb b i = false → addsBit b i b' →
  length (remaining b) = S (length (remaining b')).
Proof. intros Hi Hb Hadd. by rewrite (remaining_add b i b'). Qed.

End remaining.

Section linearization.
Context {Inp Out State : Type} (step : State → Inp → Out → bool * State).
Context (n : nat) (cp rp : nat → nat) (inp : nat → Inp) (out : nat → Out).

(** The model accepts the operations in this order. *)
Fixpoint accepts (s : State) (l : list nat) : bool :=
  match l with
  | [] => true
  | i :: l => let '(ok, s') := step s (inp i) (out i) in ok && accepts s' l
  end.

(** [i] may come before [j]: it is called before [j] returns. *)
Definition before (i j : nat) : Prop := (cp i < rp j)%nat.

(** The remaining operations have a linearization from the state [s]. *)
Definition linFrom (b : bitset) (s : State) : Prop :=
  ∃ l, l ≡ₚ remaining n b ∧ StronglySorted before l ∧ accepts s l = true.

(** [i] may come first. *)
Definition minimal (b : bitset) (i : nat) : Prop :=
  (i < n)%nat ∧ Bitset.testb b i = false ∧ ∀ j, (j < n)%nat → Bitset.testb b j = false → before i j.

(** One more operation in front, and back. *)
Lemma linFrom_cons b i b' s s' : minimal b i → addsBit b i b' → step s (inp i) (out i) = (true, s') →
  linFrom b' s' → linFrom b s.
Proof.
  intros (Hi & Hb & Hmin) Hadd Hs (l & Hl & Hss & Hacc). exists (i :: l). split_and!.
  - by rewrite (remaining_add n b i b'), Hl.
  - constructor; [done|]. apply Forall_forall. intros j Hj. rewrite Hl in Hj. apply elem_of_remaining in Hj as [Hj Hbj].
    apply Hmin; [done|]. rewrite Hadd in Hbj. by apply orb_false_iff in Hbj as [_ ?].
  - simpl. by rewrite Hs, Hacc.
Qed.

Lemma linFrom_inv b s : (∀ i, (i < n)%nat → before i i) → linFrom b s → remaining n b ≠ [] →
  ∃ i s', minimal b i ∧ step s (inp i) (out i) = (true, s') ∧ ∀ b', addsBit b i b' → linFrom b' s'.
Proof.
  intros Hself (l & Hl & Hss & Hacc) Hne. destruct l as [|i l]; [by apply Permutation_nil in Hl|].
  apply StronglySorted_inv in Hss as [Hss Hi]. simpl in Hacc.
  destruct (step s (inp i) (out i)) as [ok s'] eqn:Hs. apply andb_true_iff in Hacc as [-> Hacc].
  assert (∀ j, (j < n)%nat ∧ Bitset.testb b j = false ↔ j = i ∨ j ∈ l) as Hin.
  { intros j. by rewrite <- elem_of_remaining, <- Hl, elem_of_cons. }
  assert ((i < n)%nat ∧ Bitset.testb b i = false) as [Hin1 Hbi] by (apply Hin; by left).
  exists i, s'. split; [|split; [done|]].
  - split; [done|]. split; [done|]. intros j Hj Hbj. destruct (proj1 (Hin j) (conj Hj Hbj)) as [->|Hjl]; [by apply Hself|].
    rewrite Forall_forall in Hi. by apply Hi.
  - intros b' Hadd. exists l. split; [|done]. apply (Permutation_cons_inv (a := i)).
    rewrite Hl. by apply remaining_add.
Qed.

End linearization.

(** ** The list of the remaining entries *)

Lemma StronglySorted_lookup_lt {A} (R : relation A) l i j a b :
  StronglySorted R l → l !! i = Some a → l !! j = Some b → (i < j)%nat → R a b.
Proof.
  intros Hs Ha Hb Hij. rewrite <- (take_drop (S i) l) in Hs. apply (StronglySorted_app_1_elem_of R _ _ _ _ Hs).
  - apply list_elem_of_lookup_2 with i. by rewrite lookup_take_lt by lia.
  - apply list_elem_of_lookup_2 with (j - S i)%nat. rewrite lookup_drop. by replace (S i + (j - S i))%nat with j by lia.
Qed.

Lemma for_range_app {A B} (f : B → A → outcome B) acc l1 l2 :
  for_range f acc (l1 ++ l2) = for_range f acc l1 ≫= λ acc, for_range f acc l2.
Proof. revert acc. induction l1 as [|x l1 IH]; intros acc; [done|]. simpl. destruct (f acc x); [apply IH|done..]. Qed.

Lemma filter_in_ext {A} (P Q : A → Prop) `{!∀ x, Decision (P x), !∀ x, Decision (Q x)} (l : list A) :
  (∀ x, x ∈ l → P x ↔ Q x) → filter P l = filter Q l.
Proof.
  induction l as [|x l IH]; intros HPQ; [done|]. rewrite !filter_cons, IH by (intros; apply HPQ; by right).
  apply decide_ext, HPQ. by left.
Qed.

Lemma filter_id {A} (P : A → Prop) `{!∀ x, Decision (P x)} (l : list A) : (∀ x, x ∈ l → P x) → filter P l = l.
Proof.
  induction l as [|x l IH]; intros HP; [done|]. rewrite filter_cons_True by (apply HP; by left).
  rewrite IH; [done|]. intros y Hy. apply HP. by right.
Qed.

Lemma filter_ne_delete (l : list nat) k x : NoDup l → l !! k = Some x → filter (λ a, a ≠ x) l = delete k l.
Proof.
  revert k. induction l as [|y l IH]; intros k Hnd Hk; [done|]. apply NoDup_cons in Hnd as [Hy Hnd].
  rewrite filter_cons. destruct k as [|k]; cbn in Hk.
  - injection Hk as ->. rewrite decide_False by naive_solver. change (delete 0%nat (x :: l)) with l.
    apply filter_id. by intros a Ha ->.
  - rewrite decide_True; [by cbn; rewrite (IH k)|]. intros ->. apply Hy. by eapply list_elem_of_lookup_2.
Qed.

Lemma returnAt_spec {Inp Out} (es : list (@entry Inp Out)) i a e d :
  es !! a = Some e → e_kind e = returnEntry → e_id e = d →
  (∀ a' e', es !! a' = Some e' → e_kind e' = returnEntry → e_id e' = d → a' = a) → returnAt i es d = Some (i + a)%nat.
Proof.
  revert i a. induction es as [|e0 es IH]; intros i a Ha Hk Hd Hu; [done|]. cbn [returnAt].
  destruct a as [|a].
  - injection Ha as ->. rewrite decide_True by done. f_equal. lia.
  - rewrite decide_False.
    + rewrite (IH (S i) a); [f_equal; lia|done..|]. intros a' e' Ha' Hk' Hd'. specialize (Hu (S a') e' Ha' Hk' Hd'). lia.
    + intros [Hk0 Hd0]. by specialize (Hu 0%nat e0 eq_refl Hk0 Hd0).
Qed.

Section live.
Context {Inp Out : Type} (es : list (@entry Inp Out)) (n : nat) (cp rp : nat → nat) (inp : nat → Inp) (out : nat → Out).
Context (Hp : paired es n cp rp inp out).
Implicit Types (b : bitset) (h : gmap nat (@node Inp Out)).

Definition idAt (a : nat) : nat := match es !! a with Some e => Z.to_nat (e_id e) | None => O end.

(** The positions of the entries of the remaining operations. *)
Definition live b : list nat := filter (λ a, Bitset.testb b (idAt a) = false) (seq 0 (length es)).

Lemma cp_lt i : (i < n)%nat → (cp i < length es)%nat.
Proof. intros Hi. destruct (pr_call _ _ _ _ _ _ Hp i Hi) as (t & c & He). by eapply lookup_lt_Some. Qed.

Lemma rp_lt i : (i < n)%nat → (rp i < length es)%nat.
Proof. intros Hi. destruct (pr_return _ _ _ _ _ _ Hp i Hi) as (t & c & He). by eapply lookup_lt_Some. Qed.

Lemma idAt_cp i : (i < n)%nat → idAt (cp i) = i.
Proof. intros Hi. unfold idAt. destruct (pr_call _ _ _ _ _ _ Hp i Hi) as (t & c & ->). simpl. lia. Qed.

Lemma idAt_rp i : (i < n)%nat → idAt (rp i) = i.
Proof. intros Hi. unfold idAt. destruct (pr_return _ _ _ _ _ _ Hp i Hi) as (t & c & ->). simpl. lia. Qed.

Lemma cp_rp i j : (i < n)%nat → (j < n)%nat → cp i ≠ rp j.
Proof.
  intros Hi Hj E. destruct (pr_call _ _ _ _ _ _ Hp i Hi) as (t & c & H1).
  destruct (pr_return _ _ _ _ _ _ Hp j Hj) as (t' & c' & H2). rewrite E in H1. congruence.
Qed.

Lemma elem_of_live b a : a ∈ live b ↔ ∃ i, (i < n)%nat ∧ Bitset.testb b i = false ∧ (a = cp i ∨ a = rp i).
Proof.
  unfold live. rewrite list_elem_of_filter, elem_of_seq. split.
  - intros [Hb Ha]. destruct (pr_cover _ _ _ _ _ _ Hp a) as (i & Hi & E); [lia|]. exists i. split; [done|].
    split; [|done]. destruct E as [-> | ->]; [by rewrite idAt_cp in Hb|by rewrite idAt_rp in Hb].
  - intros (i & Hi & Hb & [-> | ->]).
    + rewrite idAt_cp by done. pose proof (cp_lt i Hi). split; [done|lia].
    + rewrite idAt_rp by done. pose proof (rp_lt i Hi). split; [done|lia].
Qed.

Lemma live_sorted b : StronglySorted lt (live b).
Proof.
  unfold live. generalize 0%nat as i. induction (length es) as [|k IH]; intros i; cbn [seq]; [constructor|].
  rewrite filter_cons. case_decide; [|apply IH]. constructor; [apply IH|]. apply Forall_forall.
  intros a [_ Ha%elem_of_seq]%list_elem_of_filter. lia.
Qed.

Lemma live_NoDup b : NoDup (live b).
Proof. apply NoDup_filter, NoDup_seq. Qed.

Lemma live_index b k k' a a' : live b !! k = Some a → live b !! k' = Some a' → (a < a')%nat → (k < k')%nat.
Proof.
  intros Ha Ha' Hlt. destruct (decide (k = k')) as [->|Hne]; [congruence || (rewrite Ha in Ha'; simplify_eq; lia)|].
  destruct (decide (k' < k)%nat); [|lia].
  pose proof (StronglySorted_lookup_lt lt _ k' k a' a (live_sorted b) Ha' Ha). lia.
Qed.

(** The list in the heap: the head and the remaining entries, each call linked to
    its return. *)
Definition represents h b : Prop :=
  links h (length es :: live b) ∧ ∀ j e, es !! j = Some e → ∃ x, h !! j = Some x ∧ nodeOf 0 es j e x.

Lemma head_NoDup b : NoDup (length es :: live b).
Proof.
  constructor; [|apply live_NoDup]. unfold live. rewrite list_elem_of_filter, elem_of_seq. lia.
Qed.

Lemma represents_live h b k a : represents h b → live b !! k = Some a →
  ∃ x, h !! a = Some x ∧ n_next x = live b !! S k.
Proof. intros [Hl _] Ha. destruct (Hl (S k) a Ha) as (x & ? & ? & _). by exists x. Qed.

Lemma represents_head h b : represents h b → ∃ x, h !! length es = Some x ∧ n_next x = live b !! 0%nat.
Proof. intros [Hl _]. destruct (Hl 0%nat (length es) eq_refl) as (x & ? & ? & _). by exists x. Qed.

Lemma represents_call h b i : represents h b → (i < n)%nat →
  ∃ x, h !! cp i = Some x ∧ n_value x = InputV (inp i) ∧ n_id x = Z.of_nat i ∧ n_match x = Some (rp i).
Proof.
  intros [_ Hes] Hi. destruct (pr_call _ _ _ _ _ _ Hp i Hi) as (t & c & He).
  destruct (Hes _ _ He) as (x & Hx & Hv & Hid & Hm). exists x. split_and!; try done.
  rewrite Hm. cbn [e_kind e_id]. rewrite decide_False by done. destruct (pr_return _ _ _ _ _ _ Hp i Hi) as (t' & c' & Hr).
  pose proof (pr_order _ _ _ _ _ _ Hp i Hi).
  rewrite (returnAt_spec _ _ (rp i - S (cp i)) (mkEntry returnEntry (OutputV (out i)) (Z.of_nat i) t' c')); try done.
  - f_equal. lia.
  - rewrite lookup_drop. by replace (S (cp i) + (rp i - S (cp i)))%nat with (rp i) by lia.
  - intros a' e' Ha' Hk' Hd'. rewrite lookup_drop in Ha'. pose proof (lookup_lt_Some _ _ _ Ha') as Hlt.
    destruct (pr_cover _ _ _ _ _ _ Hp _ Hlt) as (j & Hj & [E|E]).
    + destruct (pr_call _ _ _ _ _ _ Hp j Hj) as (t1 & c1 & H1). rewrite E, H1 in Ha'. injection Ha' as <-. done.
    + destruct (pr_return _ _ _ _ _ _ Hp j Hj) as (t1 & c1 & H1). rewrite E, H1 in Ha'. injection Ha' as <-.
      simpl in Hd'. assert (j = i) as -> by lia. lia.
Qed.

Lemma represents_return h b i : represents h b → (i < n)%nat →
  ∃ x, h !! rp i = Some x ∧ n_value x = OutputV (out i) ∧ n_match x = None.
Proof.
  intros [_ Hes] Hi. destruct (pr_return _ _ _ _ _ _ Hp i Hi) as (t & c & He).
  destruct (Hes _ _ He) as (x & Hx & Hv & _ & Hm). by exists x.
Qed.

(** [lift] removes the operation from the list. *)
Lemma represents_lift h b i b' : represents h b → (i < n)%nat → Bitset.testb b i = false → addsBit b i b' →
  ∃ h', lift h (Some (cp i)) = Ret h' ∧ represents h' b' ∧ unlift h' (Some (cp i)) = Ret h.
Proof.
  intros Hr Hi Hb Hadd. pose proof Hr as [Hl Hes]. pose proof (pr_order _ _ _ _ _ _ Hp i Hi) as Hcr.
  destruct (list_elem_of_lookup_1 (live b) (cp i)) as [k Hk]; [apply elem_of_live; by eauto|].
  destruct (list_elem_of_lookup_1 (live b) (rp i)) as [k' Hk']; [apply elem_of_live; by eauto|].
  pose proof (live_index b k k' _ _ Hk Hk' Hcr) as Hkk.
  set (L := length es :: live b). assert (NoDup L) as HndL by apply head_NoDup. assert (L !! S k = Some (cp i)) as HLk by done.
  assert (delete (S k) L !! S (k' - 1) = Some (rp i)) as HLk'.
  { rewrite list_lookup_delete_ge by lia. replace (S (S (k' - 1))) with (S k') by lia. done. }
  destruct (represents_call h b i Hr Hi) as (x & Hx & _ & _ & Hm).
  destruct (lift_spec h L k (cp i) (k' - 1) (rp i) Hl HndL HLk HLk') as (h' & Hlift & Eh' & Hun); [lia|eauto|].
  exists h'. split; [done|]. split; [|done].
  pose proof (remove_links h L k _ Hl HndL HLk) as Hl1.
  pose proof (NoDup_delete L (S k) HndL) as Hnd1.
  pose proof (remove_links _ _ _ _ Hl1 Hnd1 HLk') as Hl2. rewrite <- Eh' in Hl2. split.
  - assert (delete (S (k' - 1)) (delete (S k) L) = length es :: live b') as <-; [|done].
    rewrite <- (filter_ne_delete _ _ _ Hnd1 HLk'), <- (filter_ne_delete _ _ _ HndL HLk).
    pose proof (cp_lt i Hi). pose proof (rp_lt i Hi).
    unfold L. rewrite !filter_cons_True by lia. f_equal. unfold live. rewrite !list_filter_filter.
    apply filter_in_ext. intros a Ha%elem_of_seq. rewrite Hadd, orb_false_iff, bool_decide_eq_false.
    enough (idAt a ≠ i ↔ a ≠ rp i ∧ a ≠ cp i) by tauto. split.
    + intros Hne. split; intros ->; [by rewrite idAt_rp in Hne|by rewrite idAt_cp in Hne].
    + intros [Hrp Hcp] E. destruct (pr_cover _ _ _ _ _ _ Hp a) as (j & Hj & [-> | ->]); [lia| |].
      * by rewrite idAt_cp in E; subst.
      * by rewrite idAt_rp in E; subst.
  - intros j e He. destruct (Hes j e He) as (y & Hy & Hn). subst h'.
    destruct (remove_entries h (cp i) j y Hy) as (y1 & Hy1 & Hs1); [by eexists|].
    destruct (remove_entries (remove (cp i) h) (rp i) j y1 Hy1) as (y2 & Hy2 & Hs2).
    { destruct (Hl1 _ _ HLk') as (z & ? & _). by exists z. }
    exists y2. split; [done|]. eapply nodeOf_same; [|done]. by eapply nodeOf_same.
Qed.

End live.

(** ** The search *)

(** What the search of some entries answers when it is not killed, after some
    iterations. *)
Definition answers {Inp Out State} (step : State → Inp → Out → bool * State) (equal : State → State → bool)
    (computePartial : bool) (init : State) (es : list (@entry Inp Out)) (ok : bool) (lg : partials) : Prop :=
  ∃ n headEntry x y k, prepare init es = Ret (n, headEntry, x) ∧
    nsteps (λ x y, iteration step equal computePartial n headEntry 0 x = Ret (inl y)) k x y ∧
    iteration step equal computePartial n headEntry 0 y = Ret (inr (ok, lg)).

Section search.
Context {Inp Out State : Type} (step : State → Inp → Out → bool * State) (equal : State → State → bool).
Context (init : State) (computePartial : bool).
Context (es : list (@entry Inp Out)) (n : nat) (cp rp : nat → nat) (inp : nat → Inp) (out : nat → Out).
Context (Hp : paired es n cp rp inp out).

(** The model takes states that it calls equal for one another. *)
Context (Hequal : ∀ s s', equal s s' = true → ∀ l, accepts step inp out s l = accepts step inp out s' l).

Local Abbreviation heap := (gmap nat (@node Inp Out)).
Local Abbreviation calls := (list (@callsEntry State)).
Local Abbreviation cache := (gmap Z (list (@cacheEntry State))).
Local Abbreviation linFrom := (linFrom step n cp rp inp out).
Local Abbreviation remaining := (remaining n).
Local Abbreviation minimal := (minimal n cp rp).
Local Abbreviation live := (live es).
Local Abbreviation represents := (represents es).

(** Room for all operations. *)
Definition wide (b : bitset) : Prop := length b = length (Bitset.newBitset (Z.of_nat n)).

Lemma wide_set b i : wide b → (i < n)%nat → ∃ b', Bitset.set b (Z.of_nat i) = Ret b' ∧ wide b' ∧ addsBit b i b' ∧
  (Bitset.testb b i = false → Bitset.clear b' (Z.of_nat i) = Ret b).
Proof.
  intros Hw Hi. destruct (Bitset.set_spec b i) as (b' & Hs & Hl & Hadd & Hc).
  - unfold Bitset.inRange. rewrite Hw. by apply Bitset.newBitset_range.
  - exists b'. split_and!; try done. unfold wide. by rewrite Hl.
Qed.

(** What is on the stack: operations that could come next one after the other,
    with the set and the state that they lead to. *)
Inductive path : calls → list nat → bitset → State → Prop :=
| path_nil : path [] [] (Bitset.newBitset (Z.of_nat n)) init
| path_snoc c l b s i b' s' : path c l b s → minimal b i → Bitset.set b (Z.of_nat i) = Ret b' →
    step s (inp i) (out i) = (true, s') → path (c ++ [mkCallsEntry (Some (cp i)) s]) (l ++ [i]) b' s'.

Lemma path_wide c l b s : path c l b s → wide b.
Proof.
  induction 1 as [|c l b s i b' s' _ IH (Hi & _) Hset _]; [done|].
  destruct (wide_set b i IH Hi) as (b1 & Hs & Hw & _). congruence.
Qed.

(** The operations on the stack are the set. *)
Lemma path_bits c l b s i : path c l b s → (i ∈ l ↔ Bitset.testb b i = true).
Proof.
  intros Hpath. revert i. induction Hpath as [|c l b s i b' s' Hpath IH (Hi & _) Hset _]; intros j.
  - rewrite Bitset.newBitset_empty, elem_of_nil. done.
  - destruct (wide_set b i (path_wide _ _ _ _ Hpath) Hi) as (b1 & Hs & _ & Hadd & _).
    assert (b1 = b') as -> by congruence.
    rewrite elem_of_app, list_elem_of_singleton, IH, Hadd, orb_true_iff, bool_decide_eq_true. tauto.
Qed.

Lemma path_range c l b s i : path c l b s → i ∈ l → (i < n)%nat.
Proof.
  intros Hpath. revert i. induction Hpath as [|c l b s i b' s' Hpath IH (Hi & _) _ _]; intros j; [by rewrite elem_of_nil|].
  rewrite elem_of_app, list_elem_of_singleton. intros [Hj| ->]; [by apply IH|done].
Qed.

Lemma path_calls c l b s v : path c l b s → v ∈ c → ∃ i, i ∈ l ∧ calls_entry v = Some (cp i).
Proof.
  induction 1 as [|c l b s i b' s' _ IH _ _ _]; [by rewrite elem_of_nil|].
  rewrite elem_of_app, list_elem_of_singleton. intros [(j & ? & ?)%IH| ->]; [exists j|exists i]; set_solver.
Qed.

Lemma path_length c l b s : path c l b s → length c = length l.
Proof. induction 1; [done|]. rewrite !length_app. simpl. congruence. Qed.

(** The stack is a linearization of its operations, and the others may follow. *)
Lemma path_linearization c l b s : path c l b s → NoDup l ∧ StronglySorted (before cp rp) l ∧
  (∀ l', accepts step inp out init (l ++ l') = accepts step inp out s l') ∧
  ∀ i j, i ∈ l → (j < n)%nat → Bitset.testb b j = false → before cp rp i j.
Proof.
  induction 1 as [|c l b s i b' s' Hpath (Hnd & Hss & Hacc & Hbef) (Hi & Hb & Hmin) Hset Hs].
  { split_and!; [constructor|constructor|done|]. by intros ? ? ?%not_elem_of_nil. }
  destruct (wide_set b i (path_wide _ _ _ _ Hpath) Hi) as (b1 & Hset1 & _ & Hadd & _). assert (b1 = b') as -> by congruence.
  split_and!.
  - apply NoDup_app. split; [done|]. split; [|apply NoDup_singleton]. intros j Hj ->%list_elem_of_singleton.
    apply (path_bits c l b s i Hpath) in Hj. congruence.
  - apply StronglySorted_app. split_and!; [|done|repeat constructor].
    intros a j Ha ->%list_elem_of_singleton. by apply Hbef.
  - intros l'. rewrite <- app_assoc, Hacc. simpl. by rewrite Hs.
  - intros a j Ha Hj Hbj. rewrite Hadd, orb_false_iff in Hbj. destruct Hbj as [_ Hbj].
    apply elem_of_app in Ha as [Ha|Ha%list_elem_of_singleton]; [by apply Hbef|]. subst. by apply Hmin.
Qed.

(** A sequence that the search may report: a linearization of some operations
    such that the others may follow. *)
Definition prefixLin (ids : list Z) : Prop := ∃ c l b s, path c l b s ∧ ids = Z.of_nat <$> l.

(** [longest[i]] is such a sequence, and [i] is in it. *)
Definition partialsOk (lg : partials) : Prop :=
  length (lg_longest lg) = n ∧ Forall prefixLin (lg_seqs lg) ∧
  ∀ i p, lg_longest lg !! i = Some (Some p) → ∃ ids, lg_seqs lg !! p = Some ids ∧ Z.of_nat i ∈ ids.

Lemma callIds_path h b' c l b s : represents h b' → path c l b s → callIds h c = Ret (Z.of_nat <$> l).
Proof.
  intros Hr. unfold callIds. assert (∀ acc, path c l b s → for_range (λ ids v, x ← load h (calls_entry v); mret (ids ++ [n_id x])) acc c =
    Ret (acc ++ (Z.of_nat <$> l))) as Hall; [|intros; by rewrite Hall].
  intros acc Hpath. induction Hpath as [|c l b s i b1 s' Hpath IH (Hi & _) _ _]; [by simpl; rewrite app_nil_r|].
  rewrite for_range_app, IH, bind_Ret. destruct (represents_call es n cp rp inp out Hp h b' i Hr Hi) as (x & Hx & _ & Hid & _).
  simpl. rewrite (load_at _ _ _ Hx), bind_Ret, bind_mret, Hid, fmap_app, app_assoc. done.
Qed.

Lemma updateLongest_ok h b' c l b s lg : represents h b' → path c l b s → partialsOk lg →
  ∃ lg', updateLongest h c lg = Ret lg' ∧ partialsOk lg'.
Proof.
  intros Hr Hpath Hlg. unfold updateLongest.
  match goal with |- context [for_range ?f ?acc ?xs] =>
    destruct (for_range_inv (λ x : partials * option nat, partialsOk x.1 ∧
      ∀ p, x.2 = Some p → lg_seqs x.1 !! p = Some (Z.of_nat <$> l)) f xs acc)
    as ([lg' made'] & Hres & Hok & _); [| |rewrite Hres; by exists lg'] end.
  - intros [lg1 made] v Hv [(Hlen & Hseqs & Hptr) Hmade]. cbn [fst snd] in *.
    destruct (path_calls c l b s v Hpath Hv) as (i & Hil & Hvi). pose proof (path_range c l b s i Hpath Hil) as Hi.
    destruct (represents_call es n cp rp inp out Hp h b' i Hr Hi) as (x & Hx & _ & Hid & _).
    rewrite Hvi, (load_at _ _ _ Hx), bind_Ret, Hid.
    destruct (lookup_lt_is_Some_2 (lg_longest lg1) i) as [cur Hcur]; [lia|].
    rewrite (slice_get_nat _ _ _ Hcur), bind_Ret. cbv zeta. destruct (match _ with Some _ => _ | None => _ end).
    2: { eexists. split; [done|]. split_and!; done. }
    assert (∃ seqs p, (match made with
      | Some p => mret (lg_seqs lg1, p)
      | None => ids ← callIds h c; mret (lg_seqs lg1 ++ [ids], length (lg_seqs lg1)) end) = Ret (seqs, p) ∧
      Forall prefixLin seqs ∧ seqs !! p = Some (Z.of_nat <$> l) ∧ lg_seqs lg1 `prefix_of` seqs) as (seqs & p & -> & Hs & Hsp & Hpre).
    { destruct made as [p|].
      - exists (lg_seqs lg1), p. split_and!; try done. by apply Hmade.
      - rewrite (callIds_path h b' c l b s Hr Hpath), bind_Ret. eexists _, _. split; [done|]. split_and!.
        + apply Forall_app. split; [done|]. repeat constructor. by exists c, l, b, s.
        + rewrite lookup_app_r, Nat.sub_diag by lia. done.
        + by eexists. }
    rewrite bind_Ret. rewrite slice_set_in by (unfold len; lia). rewrite bind_Ret, Nat2Z.id. eexists. split; [done|].
    cbn [fst snd]. split; [|by intros ? [= <-]]. split; [cbn [lg_longest]; by rewrite length_insert|]. split; [done|].
    intros j q Hj. cbn [lg_longest lg_seqs] in Hj |- *. destruct (decide (i = j)) as [<-|Hne].
    + rewrite list_lookup_insert_eq in Hj by lia. injection Hj as <-. eexists. split; [done|]. by apply list_elem_of_fmap_2.
    + rewrite list_lookup_insert_ne in Hj by done. destruct (Hptr j q Hj) as (ids & Hq & Hin). exists ids. split; [|done].
      by eapply prefix_lookup_Some.
  - split; [done|]. intros p. done.
Qed.

Lemma complete_ok h b' c l b s lg : represents h b' → path c l b s → remaining b = [] → partialsOk lg →
  ∃ lg', complete (Z.of_nat n) h c lg = Ret lg' ∧ partialsOk lg'.
Proof.
  intros Hr Hpath Hrem (Hlen & Hseqs & Hptr). unfold complete. rewrite (callIds_path h b' c l b s Hr Hpath), bind_Ret, Nat2Z.id.
  set (p := length (lg_seqs lg)).
  match goal with |- context [for_range ?f ?acc ?xs] =>
    destruct (for_range_inv (λ lst : list (option nat), length lst = n ∧
      ∀ i q, lst !! i = Some (Some q) → q = p ∨ lg_longest lg !! i = Some (Some q)) f xs acc) as (lst & -> & Hl & Hq) end.
  - intros lst i Hi%elem_of_seq [Hl Hq]. rewrite slice_set_in by (unfold len; lia). eexists. split; [done|].
    split; [by rewrite length_insert|]. intros j q Hj. rewrite Nat2Z.id in Hj. destruct (decide (i = j)) as [<-|Hne].
    + rewrite list_lookup_insert_eq in Hj by lia. injection Hj as <-. by left.
    + rewrite list_lookup_insert_ne in Hj by done. by apply Hq.
  - split; [exact Hlen|]. by right.
  - rewrite bind_Ret. eexists. split; [done|]. split; [done|]. cbn. split.
    + apply Forall_app. split; [done|]. repeat constructor. by exists c, l, b, s.
    + intros i q Hi. pose proof (lookup_lt_Some _ _ _ Hi) as Hin. destruct (Hq i q Hi) as [-> | Hold].
      * exists (Z.of_nat <$> l). split; [unfold p; by rewrite lookup_app_r, Nat.sub_diag by lia|].
        apply list_elem_of_fmap_2, (path_bits c l b s i Hpath). destruct (Bitset.testb b i) eqn:Hb; [done|].
        assert (i ∈ remaining b) as Hrin by (apply elem_of_remaining; split; [lia|done]). rewrite Hrem in Hrin. set_solver.
      * destruct (Hptr i q Hold) as (ids & Hids & ?). exists ids. split; [|done]. by apply lookup_app_l_Some.
Qed.

(** *** One iteration *)

Local Abbreviation iterate := (iteration step equal computePartial (Z.of_nat n) (Some (length es)) 0).

Definition goes (x y : @search Inp Out State) : Prop := iterate x = Ret (inl y).

(** The new entry of the cache. *)
Definition addCache (C : cache) (e : cacheEntry) : cache :=
  <[Bitset.hash (c_linearized e) := map_get [] C (Bitset.hash (c_linearized e)) ++ [e]]> C.

Lemma live_head h b k a : represents h b → live b !! k = Some a →
  ∃ x, load h (Some (length es)) = Ret x ∧ n_next x = live b !! 0%nat ∧ n_next x ≠ None.
Proof.
  intros Hr Hk. destruct (represents_head es h b Hr) as (x & Hx & Hnext). exists x. split; [by apply load_at|].
  split; [done|]. rewrite Hnext. intros H0%lookup_ge_None. apply lookup_lt_Some in Hk. lia.
Qed.

(** At a call: it is skipped, or the search goes on with it. *)
Lemma iterate_call h b k i C c lg s ok s' b' : represents h b → wide b → live b !! k = Some (cp i) → (i < n)%nat →
  Bitset.testb b i = false → step s (inp i) (out i) = (ok, s') → Bitset.set b (Z.of_nat i) = Ret b' →
  let x := mkSearch h (Some (cp i)) b C c lg s in
  if ok && negb (cacheContains equal C (mkCacheEntry b' s')) then
    ∃ h', goes x (mkSearch h' (live b' !! 0%nat) b' (addCache C (mkCacheEntry b' s'))
                    (c ++ [mkCallsEntry (Some (cp i)) s]) lg s') ∧
      represents h' b' ∧ unlift h' (Some (cp i)) = Ret h
  else goes x (mkSearch h (live b !! S k) b C c lg s).
Proof.
  intros Hr Hw Hk Hi Hb Hs Hset x. destruct (live_head h b k _ Hr Hk) as (hd & Hhd & _ & Hne).
  destruct (represents_call es n cp rp inp out Hp h b i Hr Hi) as (e & He & Hv & Hid & Hm).
  destruct (represents_return es n cp rp inp out Hp h b i Hr Hi) as (r & Hre & Hrv & _).
  destruct (represents_live es h b k _ Hr Hk) as (e' & He' & Hnext). rewrite He in He'. injection He' as <-.
  destruct (wide_set b i Hw Hi) as (b1 & Hset1 & _ & Hadd & _). assert (b1 = b') as -> by congruence.
  unfold goes, iteration, x. rewrite Hhd, bind_Ret, decide_False by done. cbn [decide].
  rewrite decide_False by lia. rewrite (load_at _ _ _ He), bind_Ret, Hm, (load_at _ _ _ Hre), bind_Ret, Hv, Hrv, bind_mret, Hs.
  destruct ok; [|by rewrite Hnext]. rewrite Hid, Hset, bind_Ret. cbv zeta.
  destruct (cacheContains equal C (mkCacheEntry b' s')); cbn [negb andb]; [by rewrite Hnext|].
  destruct (represents_lift es n cp rp inp out Hp h b i b' Hr Hi Hb Hadd) as (h' & Hlift & Hr' & Hun).
  destruct (represents_head es h' b' Hr') as (hd' & Hhd' & Hnext'). exists h'.
  rewrite Hlift, !bind_Ret, (load_at _ _ _ Hhd'), bind_Ret, Hnext'. done.
Qed.

(** At a return: the last operation on the stack is taken back. *)
Lemma iterate_back h' b' h b k i j C c l lg s s' : represents h' b' → represents h b → path (c ++ [mkCallsEntry (Some (cp i)) s]) l b' s' →
  (i < n)%nat → (j < n)%nat → Bitset.testb b' j = false → unlift h' (Some (cp i)) = Ret h →
  Bitset.clear b' (Z.of_nat i) = Ret b → live b !! k = Some (cp i) → partialsOk lg →
  ∃ lg', goes (mkSearch h' (Some (rp j)) b' C (c ++ [mkCallsEntry (Some (cp i)) s]) lg s')
              (mkSearch h (live b !! S k) b C c lg' s) ∧ partialsOk lg'.
Proof.
  intros Hr' Hr Hpath Hi Hj Hbj Hun Hcl Hk Hlg. unfold goes, iteration.
  destruct (list_elem_of_lookup_1 (live b') (rp j)) as [k' Hk'].
  { apply (elem_of_live es n cp rp inp out Hp). by eauto. }
  destruct (live_head h' b' k' _ Hr' Hk') as (hd & Hhd & _ & Hne).
  destruct (represents_return es n cp rp inp out Hp h' b' j Hr' Hj) as (r & Hre & _ & Hm).
  destruct (represents_call es n cp rp inp out Hp h' b' i Hr' Hi) as (e & He & _ & Hid & _).
  destruct (represents_live es h b k _ Hr Hk) as (e' & He' & Hnext).
  assert (∃ lg', (if computePartial then updateLongest h' (c ++ [mkCallsEntry (Some (cp i)) s]) lg else mret lg) = Ret lg' ∧
    partialsOk lg') as (lg' & Hlg' & Hok').
  { destruct computePartial; [|by exists lg]. by eapply updateLongest_ok. }
  exists lg'. split; [|done]. rewrite Hhd, bind_Ret, decide_False by done. cbn [decide]. rewrite decide_False by lia.
  rewrite (load_at _ _ _ Hre), bind_Ret, Hm, decide_False by (by intros [_ ?]%app_nil).
  rewrite Hlg', bind_Ret. rewrite len_app. change (len [_]) with 1.
  replace (len c + 1 - 1) with (Z.of_nat (length c)) by (unfold len; lia).
  rewrite (slice_get_nat _ _ (mkCallsEntry (Some (cp i)) s)) by (by apply list_lookup_middle).
  rewrite bind_Ret. cbn [calls_entry calls_state]. rewrite (load_at _ _ _ He), bind_Ret, Hid, Hcl, bind_Ret.
  assert (slice_upto (c ++ [mkCallsEntry (Some (cp i)) s]) (Z.of_nat (length c)) = Ret c) as ->.
  { apply slice_upto_Ret. rewrite Nat2Z.id, take_app_length. split; [|done]. rewrite len_app. unfold len. simpl. lia. }
  rewrite bind_Ret, Hun, bind_Ret, (load_at _ _ _ He'), bind_Ret, Hnext. done.
Qed.

(** *** The cache *)

Definition inCache (C : cache) (e : cacheEntry) : Prop := ∃ hash l, C !! hash = Some l ∧ e ∈ l.

(** The number of operations that are missing in an entry. *)
Definition weight (e : @cacheEntry State) : nat := length (remaining (c_linearized e)).

(** Entries below the current level have been searched in vain. *)
Definition cacheOk (C : cache) (r : nat) : Prop :=
  ∀ e, inCache C e → (weight e < r)%nat → ¬ linFrom (c_linearized e) (c_state e).

Lemma inCache_add C e e' : inCache (addCache C e) e' → e' = e ∨ inCache C e'.
Proof.
  intros (hash & l & Hl & He). unfold addCache in Hl. destruct (decide (Bitset.hash (c_linearized e) = hash)) as [<-|Hne].
  - rewrite lookup_insert_eq in Hl. injection Hl as <-. apply elem_of_app in He as [He|He%list_elem_of_singleton]; [|by left].
    right. unfold map_get in He. destruct (C !! _) as [l|] eqn:Hl; [|by apply not_elem_of_nil in He]. by exists (Bitset.hash (c_linearized e)), l.
  - rewrite lookup_insert_ne in Hl by done. right. by exists hash, l.
Qed.

(** What the cache holds needs no second search. *)
Lemma cacheContains_dead C b s r : cacheOk C r → (length (remaining b) < r)%nat →
  cacheContains equal C (mkCacheEntry b s) = true → ¬ linFrom b s.
Proof.
  intros HC Hr. unfold cacheContains. rewrite existsb_exists. intros (e & He%list_elem_of_In & Heq).
  apply andb_true_iff in Heq as [Hb Hs]. cbn [c_linearized c_state] in *. apply Bitset.equals_eq in Hb. subst b.
  assert (inCache C e) as Hin.
  { unfold map_get in He. destruct (C !! _) as [l|] eqn:Hl; [|by apply not_elem_of_nil in He]. by eexists _, l. }
  intros (l & Hl & Hss & Hacc). apply (HC e Hin Hr). exists l. rewrite <- (Hequal _ _ Hs). done.
Qed.

(** *** The search below a state *)

(** [i] has been tried as the first operation. *)
Definition tried (b : bitset) (s : State) (i : nat) : Prop :=
  ∀ s' b', step s (inp i) (out i) = (true, s') → Bitset.set b (Z.of_nat i) = Ret b' → ¬ linFrom b' s'.

(** The search finds a linearization, or it comes to a return with the stack, the
    set, the state and the list of the beginning. *)
Definition explored h b (C : cache) (c : calls) s (r : nat) (x : @search Inp Out State) : Prop :=
  (∃ y lg, rtc goes x y ∧ iterate y = Ret (inr (true, lg)) ∧ linFrom b s ∧ partialsOk lg) ∨
  (∃ C' lg j, rtc goes x (mkSearch h (Some (rp j)) b C' c lg s) ∧ (j < n)%nat ∧ Bitset.testb b j = false ∧
     ¬ linFrom b s ∧ cacheOk C' r ∧ (∀ e, inCache C' e → inCache C e ∨ (weight e < r)%nat) ∧ partialsOk lg).

(** Before the first return all calls have been tried: there is no linearization. *)
Lemma tried_all b s k j : wide b → live b !! k = Some (rp j) → (j < n)%nat → Bitset.testb b j = false →
  (∀ k' a, (k' < k)%nat → live b !! k' = Some a → ∃ i, (i < n)%nat ∧ a = cp i ∧ tried b s i) → ¬ linFrom b s.
Proof.
  intros Hw Hk Hj Hbj Htried Hlin.
  destruct (linFrom_inv step n cp rp inp out b s) as (i & s' & (Hi & Hbi & Hmin) & Hs & Hrest); [|done| |].
  - intros i Hi. apply (pr_order _ _ _ _ _ _ Hp i Hi).
  - intros E. assert (j ∈ remaining b) as Hin by (by apply elem_of_remaining). rewrite E in Hin. set_solver.
  - destruct (list_elem_of_lookup_1 (live b) (cp i)) as [k' Hk'].
    { apply (elem_of_live es n cp rp inp out Hp). by eauto. }
    pose proof (live_index es b k' k _ _ Hk' Hk (Hmin j Hj Hbj)) as Hlt.
    destruct (Htried k' _ Hlt Hk') as (i' & Hi' & E & Ht).
    assert (i' = i) as ->.
    { rewrite <- (idAt_cp es n cp rp inp out Hp i' Hi'), <- E. by apply (idAt_cp es n cp rp inp out Hp). }
    destruct (wide_set b i Hw Hi) as (b' & Hset & _ & Hadd & _). by apply (Ht s' b' Hs Hset), Hrest.
Qed.

(** A call before the first return may come first. *)
Lemma minimal_prefix b s k i : live b !! k = Some (cp i) → (i < n)%nat → Bitset.testb b i = false →
  (∀ k' a, (k' < k)%nat → live b !! k' = Some a → ∃ i, (i < n)%nat ∧ a = cp i ∧ tried b s i) → minimal b i.
Proof.
  intros Hk Hi Hb Htried. split; [done|]. split; [done|]. intros j Hj Hbj. unfold before.
  destruct (decide (rp j < cp i)%nat) as [Hlt|].
  2: { pose proof (cp_rp es n cp rp inp out Hp i j Hi Hj). lia. }
  destruct (list_elem_of_lookup_1 (live b) (rp j)) as [k' Hk'].
  { apply (elem_of_live es n cp rp inp out Hp). by eauto. }
  destruct (Htried k' _ (live_index es b k' k _ _ Hk' Hk Hlt) Hk') as (i' & Hi' & E & _).
  exfalso. by apply (cp_rp es n cp rp inp out Hp i' j Hi' Hj).
Qed.

Lemma explored_rtc h b C c s r x y : rtc goes x y → explored h b C c s r y → explored h b C c s r x.
Proof.
  intros Hg [(z & lg & Hz & ?)|(C' & lg & j & Hz & ?)]; [left; exists z, lg|right; exists C', lg, j];
    (split; [by etransitivity|done]).
Qed.

Lemma explored_cache h b C1 C c s r x : (∀ e, inCache C1 e → inCache C e ∨ (weight e < r)%nat) →
  explored h b C1 c s r x → explored h b C c s r x.
Proof.
  intros HC [?|(C' & lg & j & Hz & Hj & Hb & Hl & Hok & Hin & Hlg)]; [by left|right]. exists C', lg, j.
  split_and!; try done. intros e [He|?]%Hin; [by apply HC|by right].
Qed.

(** Nothing remains: the next test of the loop ends the search. *)
Lemma explore_done h b C c l lg s k : remaining b = [] → represents h b → path c l b s → partialsOk lg →
  explored h b C c s 0 (mkSearch h (live b !! k) b C c lg s).
Proof.
  intros Hrem Hr Hpath Hlg. left. destruct (complete_ok h b c l b s lg Hr Hpath Hrem Hlg) as (lg' & Hc & Hlg').
  eexists _, lg'. split; [reflexivity|]. split; [|split; [|done]].
  - destruct (represents_head es h b Hr) as (x & Hx & Hnext). unfold iteration. rewrite (load_at _ _ _ Hx), bind_Ret, decide_True.
    + by rewrite Hc, bind_Ret.
    + rewrite Hnext. destruct (live b !! 0%nat) as [a|] eqn:Ha; [|done].
      apply list_elem_of_lookup_2, (elem_of_live es n cp rp inp out Hp) in Ha as (i & Hi & Hb & _).
      assert (i ∈ remaining b) as Hin by (by apply elem_of_remaining). rewrite Hrem in Hin. set_solver.
  - exists []. rewrite Hrem. split_and!; [done|constructor|done].
Qed.

(** The search below the state after [i], and what follows when it has failed. *)
Lemma explore_call r b s h c l C lg k i :
  (∀ b s h c l C lg, length (remaining b) = r → represents h b → path c l b s → cacheOk C r →
     partialsOk lg → explored h b C c s r (mkSearch h (live b !! 0%nat) b C c lg s)) →
  length (remaining b) = S r → represents h b → path c l b s → cacheOk C (S r) → partialsOk lg →
  live b !! k = Some (cp i) → minimal b i →
  (∀ C' lg', tried b s i → cacheOk C' (S r) → partialsOk lg' →
     (∀ e, inCache C' e → inCache C e ∨ (weight e < S r)%nat) →
     explored h b C' c s (S r) (mkSearch h (live b !! S k) b C' c lg' s)) →
  explored h b C c s (S r) (mkSearch h (live b !! k) b C c lg s).
Proof.
  intros IH Hlen Hr Hpath HC Hlg Hk Hmin Hnext. pose proof (path_wide _ _ _ _ Hpath) as Hw.
  pose proof Hmin as (Hi & Hb & _). destruct (wide_set b i Hw Hi) as (b' & Hset & Hw' & Hadd & Hclear).
  pose proof (remaining_length n b i b' Hi Hb Hadd) as Hlen'. rewrite Hk.
  destruct (step s (inp i) (out i)) as [ok s'] eqn:Hs.
  pose proof (iterate_call h b k i C c lg s ok s' b' Hr Hw Hk Hi Hb Hs Hset) as Hit. cbv zeta in Hit.
  destruct (ok && negb (cacheContains equal C (mkCacheEntry b' s'))) eqn:Hgo.
  - apply andb_true_iff in Hgo as [-> Hmiss%negb_true_iff]. destruct Hit as (h' & Hg & Hr' & Hun).
    pose proof (path_snoc c l b s i b' s' Hpath Hmin Hset Hs) as Hpath'. set (e := mkCacheEntry b' s').
    assert (∀ e', inCache (addCache C e) e' → inCache C e' ∨ (weight e' < S r)%nat) as Hadd1.
    { intros e' [->|?]%inCache_add; [right; unfold weight; simpl; lia|by left]. }
    eapply explored_rtc; [apply rtc_once; exact Hg|].
    destruct (IH b' s' h' (c ++ [mkCallsEntry (Some (cp i)) s]) (l ++ [i]) (addCache C e) lg) as [(y & lg' & Hy & Hend & Hlin & Hlg')|(C' & lg' & j & Hy & Hj & Hbj & Hnl & HC' & Hin & Hlg')];
      [lia|done|exact Hpath'| |done| |].
    + intros e' [->|He']%inCache_add Hwt; [unfold weight in Hwt; simpl in Hwt; lia|]. apply HC; [done|lia].
    + left. exists y, lg'. split_and!; try done. by eapply linFrom_cons.
    + destruct (iterate_back h' b' h b k i j C' c _ lg' s s' Hr' Hr Hpath' Hi Hj Hbj Hun (Hclear Hb) Hk Hlg') as (lg2 & Hg2 & Hlg2).
      assert (tried b s i) as Ht.
      { intros s2 b2 Hs2 Hset2. rewrite Hs in Hs2. injection Hs2 as <-. rewrite Hset in Hset2. injection Hset2 as <-. done. }
      assert (∀ e', inCache C' e' → inCache C e' ∨ (weight e' < S r)%nat) as Hin'.
      { intros e' [He'|?]%Hin; [by apply Hadd1|right; lia]. }
      assert (cacheOk C' (S r)) as HC2.
      { intros e' He' Hwt. destruct (decide (weight e' < r)%nat) as [Hlt|Hge]; [by apply HC'|].
        destruct (Hin e' He') as [[->|Hold]%inCache_add|?]; [done|by apply HC|lia]. }
      assert (rtc goes (mkSearch h' (live b' !! 0%nat) b' (addCache C e) (c ++ [mkCallsEntry (Some (cp i)) s]) lg s')
                (mkSearch h (live b !! S k) b C' c lg2 s)) as Hreach by (by eapply rtc_r).
      eapply explored_rtc; [exact Hreach|]. apply (explored_cache _ _ C' C); [exact Hin'|]. by apply Hnext.
  - eapply explored_rtc; [apply rtc_once; exact Hit|]. apply Hnext; try done; [|by left].
    intros s2 b2 Hs2 Hset2. rewrite Hs in Hs2. injection Hs2 as -> <-. rewrite Hset in Hset2. injection Hset2 as <-.
    apply negb_false_iff in Hgo. apply (cacheContains_dead C b' s' (S r)); [done|lia|done].
Qed.

Lemma explore r : ∀ b s h c l C lg, length (remaining b) = r → represents h b → path c l b s → cacheOk C r →
  partialsOk lg → explored h b C c s r (mkSearch h (live b !! 0%nat) b C c lg s).
Proof.
  induction r as [|r IH]; intros b s h c l C lg Hlen Hr Hpath HC Hlg.
  { apply nil_length_inv in Hlen. by eapply explore_done. }
  assert (∀ m k C lg, (length (live b) = m + k)%nat → cacheOk C (S r) → partialsOk lg →
    (∀ k' a, (k' < k)%nat → live b !! k' = Some a → ∃ i, (i < n)%nat ∧ a = cp i ∧ tried b s i) →
    explored h b C c s (S r) (mkSearch h (live b !! k) b C c lg s)) as Hall.
  2: { apply (Hall (length (live b)) 0%nat C lg); [lia|done|done|]. intros k' a Hk'. lia. }
  clear C lg HC Hlg. intros m. induction m as [|m IHm]; intros k C lg Hm HC Hlg Htried.
  - (* the list has a return *) exfalso. destruct (remaining b) as [|j rem] eqn:Hrem; [done|].
    assert (j ∈ remaining b) as Hj by (rewrite Hrem; by left). apply elem_of_remaining in Hj as [Hj Hbj].
    destruct (list_elem_of_lookup_1 (live b) (rp j)) as [k' Hk'].
    { apply (elem_of_live es n cp rp inp out Hp). by eauto. }
    destruct (Htried k' (rp j)) as (i & Hi & E & _); [apply lookup_lt_Some in Hk'; lia|done|].
    by apply (cp_rp es n cp rp inp out Hp i j Hi Hj).
  - destruct (lookup_lt_is_Some_2 (live b) k) as [a Ha]; [lia|].
    pose proof Ha as (i & Hi & Hb & [-> | ->])%list_elem_of_lookup_2%(elem_of_live es n cp rp inp out Hp).
    + eapply explore_call; try done; [by eapply minimal_prefix|]. intros C' lg' Ht HC' Hlg' _.
      apply IHm; [lia|done|done|]. intros k' a Hk' Ha'. destruct (decide (k' = k)) as [->|Hne].
      * rewrite Ha in Ha'. injection Ha' as <-. by eauto.
      * apply (Htried k'); [lia|done].
    + right. exists C, lg, i. rewrite Ha. split_and!; try done.
      * by apply (tried_all b s k i (path_wide _ _ _ _ Hpath) Ha Hi Hb).
      * by left.
Qed.

Lemma remaining_all : remaining (Bitset.newBitset (Z.of_nat n)) = seq 0 n.
Proof. apply filter_id. intros i _. apply Bitset.newBitset_empty. Qed.

(** The entries have a linearization. *)
Definition entriesLinearizable : Prop :=
  ∃ l, l ≡ₚ seq 0 n ∧ StronglySorted (before cp rp) l ∧ accepts step inp out init l = true.

Lemma entriesLinearizable_linFrom : entriesLinearizable ↔ linFrom (Bitset.newBitset (Z.of_nat n)) init.
Proof. unfold entriesLinearizable, CheckerSearch.linFrom. by rewrite remaining_all. Qed.

(** The search ends, and it answers [true] exactly when the entries have a
    linearization. *)
Lemma search_correct : ∃ ok lg,
  answers step equal computePartial init es ok lg ∧ (ok = true ↔ entriesLinearizable) ∧ partialsOk lg.
Proof.
  setoid_rewrite entriesLinearizable_linFrom. destruct (prepare_spec init es) as (h & Hprep & Hl & Hes).
  assert (len es / 2 = Z.of_nat n) as Hn.
  { unfold len. rewrite (pr_length _ _ _ _ _ _ Hp), Nat2Z.inj_mul, Z.mul_comm. by apply Z.div_mul. }
  rewrite Hn, Nat2Z.id in Hprep. set (b := Bitset.newBitset (Z.of_nat n)) in *.
  assert (live b = seq 0 (length es)) as Hlive.
  { apply filter_id. intros a _. apply Bitset.newBitset_empty. }
  assert (represents h b) as Hr by (split; [by rewrite Hlive|done]). rewrite <- Hlive in Hprep.
  set (lg0 := mkPartials (replicate n None) []) in *.
  assert (partialsOk lg0) as Hlg0.
  { split; [apply length_replicate|]. split; [constructor|]. intros i p. cbn. rewrite lookup_replicate. by intros [? _]. }
  destruct (explore n b init h [] [] ∅ lg0) as [(y & lg & Hy & Hend & Hlin & Hlg)|(C & lg & j & Hy & Hj & Hb & Hnl & _ & _ & Hlg)]; try done.
  - unfold b. by rewrite remaining_all, length_seq.
  - apply path_nil.
  - intros e (hash & l & Hl' & _). by rewrite lookup_empty in Hl'.
  - exists true, lg. split; [|done]. apply rtc_nsteps in Hy as [k Hk]. by eexists _, _, _, y, k.
  - exists false, lg. split; [|done]. apply rtc_nsteps in Hy as [k Hk]. eexists _, _, _, _, k.
    split; [done|]. split; [exact Hk|].
    destruct (list_elem_of_lookup_1 (live b) (rp j)) as [k' Hk'].
    { apply (elem_of_live es n cp rp inp out Hp). by eauto. }
    destruct (live_head h b k' _ Hr Hk') as (hd & Hhd & _ & Hne).
    destruct (represents_return es n cp rp inp out Hp h b j Hr Hj) as (r & Hre & _ & Hm).
    unfold iteration. rewrite Hhd, bind_Ret, decide_False by done. rewrite decide_False by lia.
    by rewrite (load_at _ _ _ Hre), bind_Ret, Hm, decide_True.
Qed.

End search.
