(* ===== verification/CheckerParallel.v ===== *)
(** * The searches of all parts

    The goroutines of [checkParallel] search the parts beside one another, and the
    caller stops waiting when one of them fails or when the time is up.  Whatever
    the order of events: the answer is right, no goroutine panics, and there is an
    end. *)

From S2P Require Import Prelude Bitset Checker CheckerList CheckerSearch.
Local Open Scope Z_scope.

Lemma sum_list_insert (ks : list nat) i k k' : ks !! i = Some k → (k' < k)%nat → (sum_list (<[i := k']> ks) < sum_list ks)%nat.
Proof.
  intros Hi Hk. rewrite insert_take_drop by (by eapply lookup_lt_Some). rewrite <- (take_drop_middle ks i k Hi) at 3.
  rewrite !sum_list_with_app. simpl. lia.
Qed.

(** Different positions below a bound, as many as the bound: all of them. *)
Lemma NoDup_full (l : list nat) m : NoDup l → (∀ i, i ∈ l → (i < m)%nat) → (m ≤ length l)%nat → l ≡ₚ seq 0 m.
Proof.
  intros Hnd Hl Hm. apply submseteq_length_Permutation; [|by rewrite length_seq].
  apply NoDup_submseteq; [done|]. intros i Hi. apply elem_of_seq. specialize (Hl i Hi). lia.
Qed.

Lemma NoDup_bounded (l : list nat) m : NoDup l → (∀ i, i ∈ l → (i < m)%nat) → (length l ≤ m)%nat.
Proof.
  intros Hnd Hl. rewrite <- (length_seq m 0). apply submseteq_length, NoDup_submseteq; [done|].
  intros i Hi. apply elem_of_seq. specialize (Hl i Hi). lia.
Qed.

Section parallel.
Context {Inp Out State Operation : Type} `{!EqDecision State} (model : @Model Inp Out State Operation).
Context (history : list (list (@entry Inp Out))) (computeInfo : bool) (timeout : Z) (iter : gset nat → list nat).

Local Abbreviation iterate := (iteration (Step _ model) (equalOf model) computeInfo).
Local Abbreviation exec := (exec model history computeInfo timeout iter).

(** A killed search answers [false], or [true] if it was about to. *)
Lemma iterate_kill n headEntry kill x r : iterate n headEntry 0 x = Ret r →
  iterate n headEntry kill x = Ret r ∨ kill ≠ 0 ∧ ∃ lg, iterate n headEntry kill x = Ret (inr (false, lg)).
Proof.
  unfold iteration. destruct x as [h entry linearized cache calls lg state]. intros Hr.
  apply bind_Ret_inv in Hr as (hd & -> & Hr). rewrite bind_Ret. destruct (decide (n_next hd = None)); [by left|].
  rewrite decide_False in Hr by lia. destruct (decide (kill ≠ 0)) as [Hk|Hk]; [|by left]. right. by eauto.
Qed.

(** What each search answers when it is not killed. *)
Context (oks : list bool).
Context (Hanswers : Forall2 (λ es ok, ∃ lg, answers (Step _ model) (equalOf model) computeInfo (Init _ model) es ok lg) history oks).

(** ** The searches *)

(** A goroutine that searches [es], on its way to the answer [ok], at most [k]
    actions before its end. *)
Inductive workerOk (es : list entry) (ok : bool) : @worker Inp Out State → nat → Prop :=
| wo_starting n headEntry x k : prepare (Init _ model) es = Ret (n, headEntry, x) →
    workerOk es ok (Searching n headEntry x) k → workerOk es ok (Starting es) (S k)
| wo_searching n headEntry x y k lg : nsteps (λ x y, iterate n headEntry 0 x = Ret (inl y)) k x y →
    iterate n headEntry 0 y = Ret (inr (ok, lg)) → workerOk es ok (Searching n headEntry x) (S k)
| wo_exited : workerOk es ok Exited 0.

Lemma workerOk_start es ok lg : answers (Step _ model) (equalOf model) computeInfo (Init _ model) es ok lg →
  ∃ k, workerOk es ok (Starting es) k.
Proof.
  intros (n & hd & x & y & k & Hprep & Hsteps & Hend). exists (S (S k)). eapply wo_starting; [done|]. by eapply wo_searching.
Qed.

(** One iteration: the search goes on, or it answers. *)
Lemma workerOk_iterate es ok n headEntry x k kill : workerOk es ok (Searching n headEntry x) k →
  ∃ r, iterate n headEntry kill x = Ret r ∧
    match r with
    | inl x' => ∃ k', (k' < k)%nat ∧ workerOk es ok (Searching n headEntry x') k'
    | inr (v, _) => (v = ok ∨ kill ≠ 0 ∧ v = false) ∧ (0 < k)%nat
    end.
Proof.
  inversion 1 as [|n' hd' x' y k' lg Hsteps Hend|]; subst.
  inversion Hsteps as [x1|k1 x1 x2 y1 Hx Hsteps']; subst.
  - destruct (iterate_kill _ _ kill _ _ Hend) as [Hk|(Hne & lg' & Hk)]; eexists; (split; [exact Hk|]); split; auto; lia.
  - destruct (iterate_kill _ _ kill _ _ Hx) as [Hk|(Hne & lg' & Hk)]; eexists; (split; [exact Hk|]).
    + exists (S k1). split; [lia|]. by eapply wo_searching.
    + split; [by right|lia].
Qed.

(** ** The caller *)

(** The answer that follows from [ok] and [timedOut]. *)
Definition sound (ok timedOut : bool) : Prop :=
  (ok = false → ∃ i, oks !! i = Some false) ∧ (ok = true → timedOut = false → Forall (λ v, v = true) oks) ∧
  (timedOut = true → 0 < timeout).

Definition resultOk (r : CheckResult) : Prop :=
  match r with
  | Ok => Forall (λ v, v = true) oks
  | Illegal => ∃ i, oks !! i = Some false
  | Unknown => 0 < timeout
  end.

(** The goroutines that have sent a result. *)
Definition senders (p : @checking Inp Out State) (who : list nat) : Prop :=
  NoDup who ∧ ∀ i, i ∈ who ↔ p_workers p !! i = Some Exited.

Definition callerOk (p : @checking Inp Out State) : Prop :=
  match p_caller p with
  | Selecting count ok => p_kill p = 0 ∧ (history = [] ∨ count < len history) ∧
      ∃ who received, senders p who ∧ Forall2 (λ i v, oks !! i = Some v) who (received ++ p_results p) ∧
        count = len received ∧ ok = forallb id received
  | Draining count ok timedOut => computeInfo = true ∧ sound ok timedOut ∧ count < len history ∧ 0 ≤ count ∧
      ∃ who, senders p who ∧ len who = count + len (p_results p)
  | Returned r _ => resultOk r
  end.

(** How often the caller can still act. *)
Definition callerLeft (c : @caller Inp Out) : nat :=
  match c with
  | Selecting count _ => S (Z.to_nat (len history - count))
  | Draining count _ _ => Z.to_nat (len history - count)
  | Returned _ _ => O
  end.

Definition workersOk (p : @checking Inp Out State) (ks : list nat) : Prop :=
  length (p_workers p) = length history ∧ length ks = length history ∧
  ∀ i w es ok k, p_workers p !! i = Some w → history !! i = Some es → oks !! i = Some ok → ks !! i = Some k → workerOk es ok w k.

(** The invariant; at most [m] actions remain. *)
Definition checkingOk (p : @checking Inp Out State) (m : nat) : Prop :=
  ∃ ks, workersOk p ks ∧ callerOk p ∧ m = (sum_list ks + callerLeft (p_caller p))%nat.

Lemma checkingOk_start : ∃ m, checkingOk (startChecking history) m.
Proof.
  assert (∃ ks, Forall2 (λ k (x : list entry * bool), workerOk x.1 x.2 (Starting x.1) k) ks (zip history oks)) as [ks Hks].
  { generalize Hanswers. generalize history oks. induction 1 as [|es ok hs os [lg Ha] _ [ks IH]]; [by exists []; constructor|].
    destruct (workerOk_start es ok lg Ha) as [k Hk]. exists (k :: ks). simpl. by constructor. }
  pose proof (Forall2_length _ _ _ Hanswers) as Hlen. pose proof (Forall2_length _ _ _ Hks) as Hlen'.
  rewrite length_zip in Hlen'. eexists. exists ks. split; [|split; [|done]].
  - split; [by cbn; rewrite length_fmap|]. split; [lia|]. intros i w es ok k Hw Hes Hok Hk. cbn in Hw.
    rewrite list_lookup_fmap, Hes in Hw. injection Hw as <-.
    apply (Forall2_lookup_lr _ _ _ i k (es, ok) Hks Hk). apply lookup_zip_with_Some. by eauto.
  - cbn. split; [done|]. split.
    { destruct (decide (length history = 0%nat)) as [?%nil_length_inv|]; [by left|right; unfold len; lia]. }
    exists [], []. split; [|split; [constructor|done]]. split; [constructor|]. intros i. cbn. rewrite list_lookup_fmap.
    split; [by intros ?%not_elem_of_nil|]. by destruct (history !! i).
Qed.

(** ** Actions of the goroutines *)

Lemma workersOk_at p ks i w : workersOk p ks → p_workers p !! i = Some w →
  ∃ es ok k, history !! i = Some es ∧ oks !! i = Some ok ∧ ks !! i = Some k ∧ workerOk es ok w k.
Proof.
  intros (Hlw & Hlk & Hw) Hi. pose proof (lookup_lt_Some _ _ _ Hi) as Hlt. pose proof (Forall2_length _ _ _ Hanswers) as Hlo.
  destruct (lookup_lt_is_Some_2 history i) as [es Hes]; [lia|]. destruct (lookup_lt_is_Some_2 oks i) as [ok Hok]; [lia|].
  destruct (lookup_lt_is_Some_2 ks i) as [k Hk]; [lia|]. exists es, ok, k. split_and!; try done. by apply (Hw i).
Qed.

Lemma workersOk_update p p' ks i w es ok k' : workersOk p ks → p_workers p' = <[i := w]> (p_workers p) →
  history !! i = Some es → oks !! i = Some ok → workerOk es ok w k' → workersOk p' (<[i := k']> ks).
Proof.
  intros (Hlw & Hlk & Hw) Hp' Hes Hok Hnew. unfold workersOk. rewrite Hp', !length_insert. split; [done|]. split; [done|].
  intros j w' es' ok' k Hj Hes' Hok' Hk. pose proof (lookup_lt_Some _ _ _ Hes) as Hlt.
  destruct (decide (i = j)) as [<-|Hne].
  - rewrite list_lookup_insert_eq in Hj by lia. rewrite list_lookup_insert_eq in Hk by lia. by simplify_eq.
  - rewrite list_lookup_insert_ne in Hj by done. rewrite list_lookup_insert_ne in Hk by done. by apply (Hw j).
Qed.

(** A goroutine that goes on has sent nothing. *)
Lemma callerOk_searching p p' i w n headEntry x : p_workers p !! i = Some w → w ≠ Exited →
  p' = withWorker i (Searching n headEntry x) p → callerOk p → callerOk p'.
Proof.
  intros Hi Hne -> Hc. assert (∀ who, senders p who → senders (withWorker i (Searching n headEntry x) p) who) as Hs.
  { intros who [Hnd Hw]. split; [done|]. intros j. rewrite Hw. cbn. pose proof (lookup_lt_Some _ _ _ Hi).
    destruct (decide (i = j)) as [<-|Hij]; [rewrite list_lookup_insert_eq by done|by rewrite list_lookup_insert_ne].
    rewrite Hi. split; congruence. }
  unfold callerOk in *. cbn. destruct (p_caller p) as [count ok|count ok timedOut|r info]; [| |done].
  - destruct Hc as (? & ? & who & received & ? & ?). split_and!; try done. exists who, received. split; [by apply Hs|done].
  - destruct Hc as (? & ? & ? & ? & who & ? & ?). split_and!; try done. exists who. split; [by apply Hs|done].
Qed.

(** A goroutine that ends sends its result. *)
Lemma callerOk_exit p i w ok v l : p_workers p !! i = Some w → w ≠ Exited → oks !! i = Some ok →
  (v = ok ∨ p_kill p ≠ 0 ∧ v = false) → callerOk p →
  callerOk (mkChecking (<[i := Exited]> (p_workers p)) (p_kill p) (p_results p ++ [v]) l (p_caller p)).
Proof.
  intros Hi Hne Hok Hv Hc. set (p' := mkChecking _ _ _ _ _).
  assert (∀ who, senders p who → senders p' (who ++ [i])) as Hs.
  { intros who [Hnd Hw]. assert (i ∉ who) as Hnew by (rewrite Hw; congruence). split.
    - apply NoDup_app. split; [done|]. split; [|apply NoDup_singleton]. intros j Hj ->%list_elem_of_singleton. done.
    - intros j. rewrite elem_of_app, list_elem_of_singleton, Hw. cbn. pose proof (lookup_lt_Some _ _ _ Hi).
      destruct (decide (i = j)) as [<-|Hij]; [rewrite list_lookup_insert_eq by done; tauto|].
      rewrite list_lookup_insert_ne by done. naive_solver. }
  unfold callerOk in *. cbn. destruct (p_caller p) as [count ok'|count ok' timedOut|r info]; [| |done].
  - destruct Hc as (Hk & ? & who & received & ? & ? & ?). split_and!; try done. exists (who ++ [i]), received.
    split; [by apply Hs|]. split; [|done]. rewrite app_assoc. apply Forall2_app; [done|]. constructor; [|constructor].
    destruct Hv as [->|[? _]]; [done|]. by rewrite Hk in *.
  - destruct Hc as (? & ? & ? & ? & who & ? & Hlen). split_and!; try done. exists (who ++ [i]). split; [by apply Hs|].
    rewrite !len_app, Hlen. unfold len. simpl. lia.
Qed.

Lemma exec_work p m i o : checkingOk p m → exec (Work i) p = Some o → ∃ p' m', o = Ret p' ∧ checkingOk p' m' ∧ (m' < m)%nat.
Proof.
  intros (ks & Hw & Hc & ->) Ho. unfold Checker.exec in Ho. destruct (p_workers p !! i) as [w|] eqn:Hi; [|done].
  destruct (workersOk_at p ks i w Hw Hi) as (es & ok & k & Hes & Hok & Hk & Hwo).
  destruct w as [h|n hd x|]; [| |done]; injection Ho as <-.
  - inversion Hwo as [n hd x k' Hprep Hnext| |]; subst. rewrite Hprep, bind_Ret. eexists _, _. split; [done|]. split.
    + eexists. split; [by eapply workersOk_update|]. split; [|done]. by eapply callerOk_searching.
    + cbn [p_caller withWorker]. pose proof (sum_list_insert ks i (S k') k' Hk). lia.
  - destruct (workerOk_iterate es ok n hd x k (p_kill p) Hwo) as (r & -> & Hr). rewrite bind_Ret.
    destruct r as [x'|[v l]].
    + destruct Hr as (k' & Hlt & Hnext). eexists _, _. split; [done|]. split.
      * eexists. split; [by eapply workersOk_update|]. split; [|done]. by eapply callerOk_searching.
      * cbn [p_caller withWorker]. pose proof (sum_list_insert ks i k k' Hk Hlt). lia.
    + destruct Hr as [Hv Hpos]. eexists _, _. split; [done|]. split.
      * eexists. split; [eapply (workersOk_update p _ ks i Exited); try done; by apply wo_exited|]. split; [|done].
        by eapply callerOk_exit.
      * cbn [p_caller]. pose proof (sum_list_insert ks i k 0 Hk Hpos). lia.
Qed.

(** ** Actions of the caller *)

Lemma senders_bounded p ks who : workersOk p ks → senders p who → ∀ i, i ∈ who → (i < length history)%nat.
Proof. intros (Hlw & _) [_ Hw] i Hi%Hw. rewrite <- Hlw. by eapply lookup_lt_Some. Qed.

(** What has been received. *)
Lemma received_false (who : list nat) received rest : Forall2 (λ i v, oks !! i = Some v) who (received ++ rest) →
  forallb id received = false → ∃ i, oks !! i = Some false.
Proof.
  intros Hf Hr. assert (false ∈ received) as Hin.
  { clear Hf. induction received as [|[] received IH]; simpl in Hr; [done|right; by apply IH|left]. }
  apply list_elem_of_lookup_1 in Hin as [j Hj].
  destruct (Forall2_lookup_r _ _ _ j false Hf) as (i & _ & Hi); [by apply lookup_app_l_Some|]. by exists i.
Qed.

Lemma received_true p ks who received : workersOk p ks → senders p who →
  Forall2 (λ i v, oks !! i = Some v) who received → (length history ≤ length received)%nat → forallb id received = true →
  Forall (λ v, v = true) oks.
Proof.
  intros Hw Hs Hf Hlen Hr. pose proof (Forall2_length _ _ _ Hf) as Hl. pose proof (Forall2_length _ _ _ Hanswers) as Hlo.
  pose proof (NoDup_full who (length history) (proj1 Hs) (senders_bounded p ks who Hw Hs)) as Hfull.
  apply Forall_lookup_2. intros i v Hi. assert (i ∈ who) as Hin.
  { rewrite Hfull by lia. apply elem_of_seq. apply lookup_lt_Some in Hi. lia. }
  apply list_elem_of_lookup_1 in Hin as [j Hj]. destruct (Forall2_lookup_l _ _ _ j i Hf Hj) as (v' & Hv' & Hi').
  rewrite forallb_forall in Hr. rewrite Hi in Hi'. injection Hi' as <-. apply (Hr v). by eapply list_elem_of_In, list_elem_of_lookup_2.
Qed.

(** The caller leaves its loop. *)
Lemma afterLoop_ok p kill results count ok timedOut who : sound ok timedOut → 0 ≤ count → senders p who →
  len who = count + len results →
  callerOk (withCaller kill results (afterLoop history computeInfo iter p count ok timedOut) p) ∧
  (callerLeft (afterLoop history computeInfo iter p count ok timedOut) ≤ Z.to_nat (len history - count))%nat.
Proof.
  intros Hs Hcount Hwho Hlen. unfold callerOk, afterLoop. cbn. case_decide as Hd; cbn.
  - split; [|done]. destruct Hd as [Hi Hlt]. split_and!; try done. by exists who.
  - split; [|lia]. destruct Hs as (Hf & Ht & Hto). destruct ok; cbn; [|by apply Hf]. destruct timedOut; cbn; [by apply Hto|by apply Ht].
Qed.

Lemma exec_receive p m o : checkingOk p m → exec Receive p = Some o → ∃ p' m', o = Ret p' ∧ checkingOk p' m' ∧ (m' < m)%nat.
Proof.
  intros (ks & Hw & Hc & ->) Ho. unfold Checker.exec in Ho. unfold callerOk in Hc.
  destruct (p_caller p) as [count ok|count ok timedOut|r info] eqn:Hcaller; [| |done];
    destruct (p_results p) as [|result results] eqn:Hres; try done.
  - destruct Hc as (Hkill & Hcount & who & received & Hs & Hf & -> & ->).
    pose proof (Forall2_length _ _ _ Hf) as Hlen. rewrite length_app in Hlen. simpl in Hlen.
    pose proof (NoDup_bounded who (length history) (proj1 Hs) (senders_bounded p ks who Hw Hs)) as Hb.
    assert (len who = len (received ++ [result]) + len results) as Hlw by (unfold len; rewrite length_app; simpl; lia).
    assert (received ++ result :: results = (received ++ [result]) ++ results) as E by (by rewrite <- app_assoc).
    rewrite E in Hf. assert (forallb id received && result = forallb id (received ++ [result])) as Eok.
    { rewrite forallb_app. simpl. by rewrite andb_true_r. }
    rewrite Eok in Ho. change (len received + 1) with (len received + len [result]) in Ho. rewrite <- len_app in Ho.
    injection Ho as <-.
    assert (∀ kill, (len history ≤ len (received ++ [result]) ∨ forallb id (received ++ [result]) = false) →
      checkingOk (withCaller kill results (afterLoop history computeInfo iter p (len (received ++ [result])) (forallb id (received ++ [result])) false) p)
        (sum_list ks + callerLeft (afterLoop history computeInfo iter p (len (received ++ [result])) (forallb id (received ++ [result])) false)) ∧
      (sum_list ks + callerLeft (afterLoop history computeInfo iter p (len (received ++ [result])) (forallb id (received ++ [result])) false)
        < sum_list ks + callerLeft (Selecting (len received) (forallb id received)))%nat) as Hleave.
    { intros kill Hend. destruct (afterLoop_ok p kill results (len (received ++ [result])) (forallb id (received ++ [result])) false who)
        as [Hok Hleft]; [|apply len_nonneg|done|done|].
      - split; [by eapply received_false|]. split; [|done]. intros Ht _. destruct Hend as [Hend|Hend]; [|congruence].
        assert (results = []) as -> by (apply nil_length_inv; unfold len in *; rewrite length_app in *; simpl in *; lia).
        rewrite app_nil_r in Hf. apply (received_true p ks who (received ++ [result]) Hw Hs Hf); [unfold len in Hend; lia|done].
      - split; [by exists ks|]. cbn [callerLeft]. rewrite len_app in Hleft |- *. change (len [result]) with 1 in *. lia. }
    case_decide as H1; [eexists _, _; split; [done|]; apply Hleave; right; by destruct H1|].
    case_decide as H2; [eexists _, _; split; [done|]; apply Hleave; by left|].
    eexists _, _. split; [done|]. split; [exists ks; split; [done|split; [|done]]|].
    + cbn. split; [done|]. split; [right; lia|]. by exists who, (received ++ [result]).
    + cbn [withCaller p_caller callerLeft]. rewrite len_app in H2 |- *. change (len [result]) with 1 in *. lia.
  - destruct Hc as (Hi & Hs & Hlt & Hcount & who & Hwho & Hlen). injection Ho as <-. eexists _, _. split; [done|].
    rewrite len_cons in Hlen.
    destruct (afterLoop_ok p (p_kill p) results (count + 1) ok timedOut who) as [Hok Hleft]; [done|lia|done|lia|].
    split; [by exists ks|]. cbn [withCaller p_caller callerLeft]. lia.
Qed.

Lemma exec_timeout p m o : checkingOk p m → exec Timeout p = Some o → ∃ p' m', o = Ret p' ∧ checkingOk p' m' ∧ (m' < m)%nat.
Proof.
  intros (ks & Hw & Hc & ->) Ho. unfold Checker.exec in Ho. unfold callerOk in Hc.
  destruct (p_caller p) as [count ok|count ok timedOut|r info]; [|done|done].
  destruct Hc as (Hkill & Hcount & who & received & Hs & Hf & -> & ->). case_decide as Ht; [|done]. injection Ho as <-.
  eexists _, _. split; [done|]. pose proof (Forall2_length _ _ _ Hf) as Hlen. rewrite length_app in Hlen.
  destruct (afterLoop_ok p 1 (p_results p) (len received) (forallb id received) true who) as [Hok Hleft].
  - split; [by eapply received_false|]. done.
  - apply len_nonneg.
  - done.
  - unfold len. lia.
  - split; [by exists ks|]. cbn [withCaller p_caller callerLeft]. lia.
Qed.

(** ** The theorem on [checkParallel] *)

Lemma exec_ok p m a o : checkingOk p m → exec a p = Some o → ∃ p' m', o = Ret p' ∧ checkingOk p' m' ∧ (m' < m)%nat.
Proof. destruct a; [apply exec_work|apply exec_receive|apply exec_timeout]. Qed.

(** Until the caller returns, something can be done. *)
Lemma exec_progress p m : checkingOk p m → history ≠ [] →
  (∃ r info, p_caller p = Returned r info) ∨ ∃ a p', exec a p = Some (Ret p').
Proof.
  intros Hok Hne. enough ((∃ r info, p_caller p = Returned r info) ∨ ∃ a o, exec a p = Some o) as [?|(a & o & Ho)].
  { by left. }
  { destruct (exec_ok p m a o Hok Ho) as (p' & _ & -> & _). right. by exists a, p'. }
  destruct Hok as (ks & Hw & Hc & _).
  assert (∀ who, senders p who → len who < len history → ∃ a o, exec a p = Some o) as Hwork.
  { intros who Hs Hlt. assert (∃ i w, p_workers p !! i = Some w ∧ w ≠ Exited) as (i & w & Hi & Hx).
    { destruct (decide (Forall (λ i, i ∈ who) (seq 0 (length history)))) as [Hall|Hnot].
      - exfalso. assert (seq 0 (length history) ⊆+ who) as Hsub%submseteq_length.
        { apply NoDup_submseteq; [apply NoDup_seq|]. by rewrite Forall_forall in Hall. }
        rewrite length_seq in Hsub. unfold len in Hlt. lia.
      - apply not_Forall_Exists, Exists_exists in Hnot as (i & Hi%elem_of_seq & Hnot); [|apply _].
        destruct Hw as (Hlw & _). destruct (lookup_lt_is_Some_2 (p_workers p) i) as [w Hi']; [lia|]. exists i, w.
        split; [done|]. intros ->. by apply Hnot, Hs. }
    exists (Work i). cbn. rewrite Hi. destruct w; [by eexists..|done]. }
  unfold callerOk in Hc. destruct (p_caller p) as [count ok|count ok timedOut|r info] eqn:Hcaller; [| |by left; eauto].
  - right. destruct Hc as (_ & [?|Hlt] & who & received & Hs & Hf & -> & _); [done|].
    destruct (p_results p) as [|v results] eqn:Hres; [|exists Receive; cbn; rewrite Hcaller, Hres; by eexists].
    apply (Hwork who Hs). rewrite app_nil_r in Hf. apply Forall2_length in Hf. unfold len in *. lia.
  - right. destruct Hc as (_ & _ & Hlt & _ & who & Hs & Hlen).
    destruct (p_results p) as [|v results] eqn:Hres; [|exists Receive; cbn; rewrite Hcaller, Hres; by eexists].
    apply (Hwork who Hs). rewrite Hlen, len_nil. lia.
Qed.

Lemma checks_ok p m acts p' : checks model history computeInfo timeout iter p acts p' → checkingOk p m →
  ∃ m', checkingOk p' m' ∧ (length acts + m' ≤ m)%nat.
Proof.
  intros Hr. revert m. induction Hr as [p|p a p1 acts p' Ha _ IH]; intros m Hok; [exists m; split; [done|simpl; lia]|].
  destruct (exec_ok p m a _ Hok Ha) as (p2 & m2 & [= <-] & Hok2 & Hlt). destruct (IH m2 Hok2) as (m' & Hok' & Hle).
  exists m'. split; [done|]. simpl. lia.
Qed.

(** Every state can be brought to an end. *)
Lemma checks_complete m p : checkingOk p m → history ≠ [] →
  ∃ acts p' r info, checks model history computeInfo timeout iter p acts p' ∧ p_caller p' = Returned r info.
Proof.
  revert p. induction (lt_wf m) as [m _ IH]. intros p Hok Hne. destruct (exec_progress p m Hok Hne) as [(r & info & Hr)|(a & p1 & Ha)].
  - exists [], p, r, info. split; [constructor|done].
  - destruct (exec_ok p m a _ Hok Ha) as (p2 & m2 & [= <-] & Hok2 & Hlt).
    destruct (IH m2 Hlt p1 Hok2 Hne) as (acts & p' & r & info & Hacts & Hr). exists (a :: acts), p', r, info.
    split; [by econstructor|done].
Qed.

Lemma parallel_complete : history ≠ [] → ∃ r info, checkParallel model history computeInfo timeout iter r info.
Proof.
  intros Hne. destruct checkingOk_start as [m Hm]. destruct (checks_complete m _ Hm Hne) as (acts & p' & r & info & Hacts & Hr).
  exists r, info. by exists acts, p'.
Qed.

(** From the start: the number of actions is bounded, nothing panics, the caller
    does not wait in vain, and its result is right. *)
Lemma parallel_correct : ∃ bound, ∀ acts p, checks model history computeInfo timeout iter (startChecking history) acts p →
  (length acts ≤ bound)%nat ∧ (∀ a o, exec a p = Some o → returns o) ∧
  (history ≠ [] → (∃ r info, p_caller p = Returned r info) ∨ ∃ a p', exec a p = Some (Ret p')) ∧
  (∀ r info, p_caller p = Returned r info → resultOk r).
Proof.
  destruct checkingOk_start as [m Hm]. exists m. intros acts p Hr. destruct (checks_ok _ m _ _ Hr Hm) as (m' & Hok & Hle).
  split; [lia|]. split; [|split].
  - intros a o Ho. destruct (exec_ok p m' a o Hok Ho) as (p' & _ & -> & _). by exists p'.
  - by apply exec_progress with m'.
  - intros r info Hret. destruct Hok as (ks & _ & Hc & _). unfold callerOk in Hc. by rewrite Hret in Hc.
Qed.

End parallel.
