(* ===== verification/CheckerSpec.v ===== *)
(** * What the checker answers

    [checkOperations] on the model of the tests: the entries of a part are in pairs
    ([makeEntries_paired]), so that the search of a part decides whether the part is
    linearizable, and so the answer that the caller collects from all searches, in
    whatever order they run, decides whether the history is. *)

From S2P Require Import Prelude Bitset Checker CheckerList CheckerSearch CheckerParallel KvModel.
Local Open Scope Z_scope.

(** ** The entries of a history *)

Section entries.
Context {Inp Out State Operation : Type} `{!Inhabited Operation}.
Context (ClientId : Operation → Z) (Input : Operation → Inp) (Call : Operation → Z)
  (Output : Operation → Out) (Return : Operation → Z).
Context (sort : list (@entry Inp Out) → list (@entry Inp Out)) `{!ByTimeSort sort}.
Context (history : list Operation) (Htimes : Forall (λ v, Call v ≤ Return v) history).

Local Abbreviation callOf := (callOf ClientId Input Call).
Local Abbreviation returnOf := (returnOf ClientId Output Return).
Local Abbreviation entriesFrom := (entriesFrom ClientId Input Call Output Return).
Local Abbreviation es := (makeEntries ClientId Input Call Output Return sort history).

Lemma elem_of_entriesFrom z l e : e ∈ entriesFrom z l ↔
  ∃ i v, l !! i = Some v ∧ (e = callOf (z + Z.of_nat i) v ∨ e = returnOf (z + Z.of_nat i) v).
Proof.
  revert z. induction l as [|v l IH]; intros z; cbn [Checker.entriesFrom].
  { rewrite elem_of_nil. split; [done|]. by intros (i & v & ? & _). }
  rewrite !elem_of_cons, IH. split.
  - intros [->|[->|(i & v' & Hv & He)]].
    + exists 0%nat, v. rewrite Z.add_0_r. auto.
    + exists 0%nat, v. rewrite Z.add_0_r. auto.
    + exists (S i), v'. replace (z + Z.of_nat (S i)) with (z + 1 + Z.of_nat i) by lia. auto.
  - intros ([|i] & v' & Hv & He); cbn in Hv.
    + injection Hv as <-. rewrite Z.add_0_r in He. tauto.
    + right. right. exists i, v'. replace (z + Z.of_nat (S i)) with (z + 1 + Z.of_nat i) in He by lia. auto.
Qed.

(** What tells entries apart. *)
Definition entryKey (e : @entry Inp Out) : bool * Z := (e_kind e, e_id e).

Lemma entriesFrom_NoDup z l : NoDup (entryKey <$> entriesFrom z l).
Proof.
  revert z. induction l as [|v l IH]; intros z; cbn [Checker.entriesFrom fmap list_fmap]; [constructor|].
  assert (∀ b, (b, z) ∉ entryKey <$> entriesFrom (z + 1) l) as Hnew.
  { intros b (e & E & (i & v' & _ & He)%elem_of_entriesFrom)%list_elem_of_fmap.
    unfold entryKey in E. destruct He as [-> | ->]; simpl in E; injection E; lia. }
  constructor; [|constructor; [|apply IH]].
  - rewrite elem_of_cons. intros [?|?]; [done|]. by eapply Hnew.
  - apply Hnew.
Qed.

Lemma entriesFrom_length z l : length (entriesFrom z l) = (2 * length l)%nat.
Proof. revert z. induction l as [|v l IH]; intros z; [done|]. cbn [Checker.entriesFrom length]. rewrite IH. lia. Qed.

Lemma es_perm : es ≡ₚ entriesFrom 0 history.
Proof. unfold makeEntries. apply sort_perm. Qed.

Lemma es_key_unique a a' e e' : es !! a = Some e → es !! a' = Some e' → entryKey e = entryKey e' → a = a'.
Proof.
  intros Ha Ha' E. assert (NoDup (entryKey <$> es)) as Hnd by (rewrite es_perm; apply entriesFrom_NoDup).
  apply (NoDup_lookup _ _ _ (entryKey e) Hnd); rewrite list_lookup_fmap; [by rewrite Ha|by rewrite Ha', E].
Qed.

(** The position of the entry with a kind and an identifier. *)
Definition positionOf (kind : bool) (i : nat) : nat :=
  default O (fst <$> list_find (λ e, entryKey e = (kind, Z.of_nat i)) es).

Local Abbreviation cp := (positionOf callEntry).
Local Abbreviation rp := (positionOf returnEntry).

Lemma positionOf_spec e i : e ∈ entriesFrom 0 history → e_id e = Z.of_nat i → es !! positionOf (e_kind e) i = Some e.
Proof.
  intros He Hid. rewrite <- es_perm in He. apply list_elem_of_lookup_1 in He as [a Ha]. unfold positionOf.
  destruct (list_find _ es) as [[a' e']|] eqn:Hf.
  - apply list_find_Some in Hf as (Ha' & Hk & _). simpl. assert (a' = a) as ->; [|done].
    eapply es_key_unique; [done|done|]. rewrite Hk. unfold entryKey. by rewrite Hid.
  - apply list_find_None in Hf. rewrite Forall_forall in Hf. exfalso. apply (Hf e); [by eapply list_elem_of_lookup_2|].
    unfold entryKey. by rewrite Hid.
Qed.

Lemma es_call i v : history !! i = Some v → es !! cp i = Some (callOf (Z.of_nat i) v).
Proof. intros Hv. apply (positionOf_spec (callOf (Z.of_nat i) v) i); [|done]. apply elem_of_entriesFrom. eauto. Qed.

Lemma es_return i v : history !! i = Some v → es !! rp i = Some (returnOf (Z.of_nat i) v).
Proof. intros Hv. apply (positionOf_spec (returnOf (Z.of_nat i) v) i); [|done]. apply elem_of_entriesFrom. eauto. Qed.

(** The positions follow the times: an operation comes before another one in the
    list of entries when it is called no later than the other one returns. *)
Lemma position_times i j v w : history !! i = Some v → history !! j = Some w → before cp rp i j ↔ ¬ Return w < Call v.
Proof.
  intros Hv Hw. pose proof (es_call i v Hv) as Hc. pose proof (es_return j w Hw) as Hr. unfold before.
  assert (cp i ≠ rp j) as Hne by (intros E; rewrite E, Hr in Hc; discriminate). split.
  - intros Hlt. pose proof (sort_sorted _ _ _ _ _ Hlt Hc Hr) as Hless. unfold Less in Hless. simpl in Hless.
    case_decide; [|lia]. by apply bool_decide_eq_false in Hless.
  - intros Ht. destruct (decide (rp j < cp i)%nat) as [Hlt|]; [|lia]. exfalso.
    pose proof (sort_sorted _ _ _ _ _ Hlt Hr Hc) as Hless. unfold Less in Hless. simpl in Hless.
    case_decide; [|by vm_compute in Hless]. apply bool_decide_eq_false in Hless. lia.
Qed.

Definition inp (i : nat) : Inp := Input (history !!! i).
Definition out (i : nat) : Out := Output (history !!! i).

Lemma makeEntries_paired : paired es (length history) cp rp inp out.
Proof.
  assert (∀ i, (i < length history)%nat → history !! i = Some (history !!! i)) as Hget.
  { intros i Hi. by apply list_lookup_lookup_total_lt. }
  split.
  - by rewrite es_perm, entriesFrom_length.
  - intros i Hi. eexists _, _. apply (es_call i _ (Hget i Hi)).
  - intros i Hi. eexists _, _. apply (es_return i _ (Hget i Hi)).
  - intros a Ha. destruct (lookup_lt_is_Some_2 es a Ha) as [e He].
    assert (e ∈ entriesFrom 0 history) as (i & v & Hv & E)%elem_of_entriesFrom.
    { rewrite <- es_perm. by eapply list_elem_of_lookup_2. }
    exists i. split; [by eapply lookup_lt_Some|]. destruct E as [-> | ->]; [left|right]; (eapply es_key_unique; [exact He| |done]).
    + by apply es_call.
    + by apply es_return.
  - intros i Hi. apply (position_times i i _ _ (Hget i Hi) (Hget i Hi)).
    rewrite Forall_forall in Htimes. specialize (Htimes _ (list_elem_of_lookup_2 _ _ _ (Hget i Hi))). simpl in Htimes. lia.
Qed.

(** ** Linearizations of operations *)

Context (step : State → Inp → Out → bool * State) (init : State).

Fixpoint acceptsOps (s : State) (l : list Operation) : bool :=
  match l with
  | [] => true
  | v :: l => let '(ok, s') := step s (Input v) (Output v) in ok && acceptsOps s' l
  end.

Definition opsLinearizable : Prop :=
  ∃ l, l ≡ₚ history ∧ StronglySorted (λ a b, ¬ Return b < Call a) l ∧ acceptsOps init l = true.

Lemma accepts_ops s l : accepts step inp out s l = acceptsOps s (map (history !!!.) l).
Proof. revert s. induction l as [|i l IH]; intros s; [done|]. simpl. destruct (step _ _ _) as [ok s']. by rewrite IH. Qed.

Lemma sorted_ops l : Forall (λ i, (i < length history)%nat) l →
  StronglySorted (before cp rp) l ↔ StronglySorted (λ a b, ¬ Return b < Call a) (map (history !!!.) l).
Proof.
  induction l as [|i l IH]; intros Hl; [by split; constructor|]. apply Forall_cons in Hl as [Hi Hl]. simpl.
  rewrite !StronglySorted_cons, IH by done. rewrite Forall_map, !Forall_forall.
  split; (intros [Hf ?]; split; [|done]); intros j Hj; rewrite Forall_forall in Hl;
    pose proof (Hl j Hj); specialize (Hf j Hj); revert Hf; apply position_times; by apply list_lookup_lookup_total_lt.
Qed.

Lemma history_seq : map (history !!!.) (seq 0 (length history)) = history.
Proof.
  apply list_eq. intros i. change (map ?f ?l) with (f <$> l). rewrite list_lookup_fmap.
  destruct (decide (i < length history)%nat) as [Hi|Hi].
  - rewrite lookup_seq_lt by done. simpl. symmetry. by apply list_lookup_lookup_total_lt.
  - rewrite lookup_seq_ge by lia. symmetry. apply lookup_ge_None. lia.
Qed.

Lemma entries_operations : entriesLinearizable step init (length history) cp rp inp out ↔ opsLinearizable.
Proof.
  split.
  - intros (l & Hl & Hss & Hacc). exists (map (history !!!.) l). split_and!.
    + by rewrite Hl, history_seq.
    + apply sorted_ops; [|done]. apply Forall_forall. intros i Hi. rewrite Hl, elem_of_seq in Hi. lia.
    + by rewrite <- accepts_ops.
  - intros (l & Hl & Hss & Hacc). rewrite <- history_seq in Hl.
    apply Permutation_map_inv in Hl as (l' & -> & Hl'). exists l'. symmetry in Hl'. split_and!; [done| |by rewrite accepts_ops].
    apply sorted_ops; [|done]. apply Forall_forall. intros i Hi. rewrite Hl', elem_of_seq in Hi. lia.
Qed.

End entries.

(** ** [checkSingle] *)

(** Enough iterations give the answer. *)
Lemma checkSingle_answers {Inp Out State} (step : State → Inp → Out → bool * State) equal (init : State) es computePartial ok lg :
  answers step equal computePartial init es ok lg →
  ∃ fuel, ∀ more, checkSingle step equal init es computePartial (λ _, 0) (fuel + more) = Ret (ok, lg).
Proof.
  intros (n & hd & x & y & k & Hprep & Hsteps & Hend). exists (S k). intros more. unfold checkSingle.
  rewrite Hprep, bind_Ret. clear Hprep. generalize 0%nat as t. induction Hsteps as [x|k x x' y Hx _ IH]; intros t.
  - cbn [Nat.add searchLoop]. by rewrite Hend, bind_Ret.
  - change (S (S k) + more)%nat with (S (S k + more)). cbn [searchLoop]. rewrite Hx, bind_Ret. by apply IH.
Qed.

(** C20: the search is right.  For every model whose [Equal] only equates states
    that behave alike, and every history of operations that return no earlier than
    they are called: [checkSingle], when it is not killed, returns after finitely
    many iterations, without a panic, and its answer is [true] exactly when some
    order of the operations that respects their times is accepted by the model.
    The sequence in [longest] for an operation is such an order of some operations,
    itself among them. *)
Theorem checkSingle_correct {Inp Out State Operation} `{!Inhabited Operation}
    (ClientId : Operation → Z) (Input : Operation → Inp) (Call : Operation → Z) (Output : Operation → Out) (Return : Operation → Z)
    sort `{!ByTimeSort sort} (step : State → Inp → Out → bool * State) equal init computePartial history :
  (∀ s s', equal s s' = true → ∀ l, acceptsOps Input Output step s l = acceptsOps Input Output step s' l) →
  Forall (λ v, Call v ≤ Return v) history →
  ∃ fuel ok lg, (∀ more, checkSingle step equal init (makeEntries ClientId Input Call Output Return sort history)
                           computePartial (λ _, 0) (fuel + more) = Ret (ok, lg)) ∧
    (ok = true ↔ opsLinearizable Input Call Output Return history step init) ∧
    ∀ i p, lg_longest lg !! i = Some (Some p) → ∃ l, lg_seqs lg !! p = Some (Z.of_nat <$> l) ∧ i ∈ l ∧ NoDup l ∧
      StronglySorted (λ a b, ¬ Return b < Call a) (map (history !!!.) l) ∧
      acceptsOps Input Output step init (map (history !!!.) l) = true.
Proof.
  intros Hequal Ht. pose proof (makeEntries_paired ClientId Input Call Output Return sort history Ht) as Hp.
  destruct (search_correct step equal init computePartial _ _ _ _ _ _ Hp) as (ok & lg & Ha & Hok & _ & Hseqs & Hptr).
  { intros s s' Hs l. rewrite !accepts_ops. by apply Hequal. }
  destruct (checkSingle_answers _ _ _ _ _ _ _ Ha) as [fuel Hf]. exists fuel, ok, lg. split; [done|]. split.
  { rewrite Hok. by apply entries_operations. }
  intros i p Hi. destruct (Hptr i p Hi) as (ids & Hids & Hin).
  pose proof (Forall_lookup_1 _ _ _ _ Hseqs Hids) as (c & l & b & s & Hpath & ->). exists l. split; [done|].
  destruct (path_linearization _ _ _ _ _ _ _ _ _ _ _ Hpath) as (Hnd & Hss & Hacc & _). split_and!.
  - by apply list_elem_of_fmap in Hin as (i' & ->%Nat2Z.inj & Hi').
  - done.
  - apply (sorted_ops ClientId Input Call Output Return sort history l); [|done].
    apply Forall_forall. intros j Hj. by eapply path_range.
  - rewrite <- accepts_ops, <- (app_nil_r l), Hacc. done.
Qed.

(** ** The model of the tests *)

#[export] Instance Operation_inhabited : Inhabited Operation := populate (mkOperation 0 (mkKvInput 0 "" "") 0 (mkKvOutput "") 0).

(** [models.KvModel] *)
Definition kvModel : Model Operation := mkModel Operation (Some KvModel.Partition) None KvModel.Init KvModel.Step None.

Definition kvEntries (sort : list (@entry KvInput KvOutput) → list (@entry KvInput KvOutput)) (part : list Operation) : list entry :=
  makeEntries ClientId Input Call Output Return sort part.

Definition kvParts (sort : list (@entry KvInput KvOutput) → list (@entry KvInput KvOutput)) (history : list Operation) : list (list entry) :=
  operationParts (kvEntries sort) kvModel history.

Lemma acceptsFrom_ops s l : acceptsFrom s l = acceptsOps Input Output KvModel.Step s l.
Proof. revert s. induction l as [|v l IH]; intros s; [done|]. simpl. destruct (KvModel.Step _ _ _) as [ok s']. by rewrite IH. Qed.

Lemma partLinearizable_ops part : partLinearizable part ↔ opsLinearizable Input Call Output Return part KvModel.Step KvModel.Init.
Proof. unfold partLinearizable, opsLinearizable. by setoid_rewrite acceptsFrom_ops. Qed.

Lemma kvEqual s s' : equalOf (fillDefault kvModel) s s' = true → s = s'.
Proof. unfold equalOf. cbn. unfold ShallowEqual. by intros ?%bool_decide_eq_true. Qed.

Section kv.
Context (sort : list (@entry KvInput KvOutput) → list (@entry KvInput KvOutput)) `{!ByTimeSort sort}.
Context (history : list Operation) (Htimes : Forall (λ v, Call v ≤ Return v) history) (verbose : bool).

Local Abbreviation kvAnswers := (answers KvModel.Step (equalOf (fillDefault kvModel)) verbose KvModel.Init).

Lemma kv_part part : Forall (λ v, Call v ≤ Return v) part →
  ∃ ok, (∃ lg, kvAnswers (kvEntries sort part) ok lg) ∧ (ok = true ↔ partLinearizable part).
Proof.
  intros Ht. destruct (search_correct KvModel.Step (equalOf (fillDefault kvModel)) KvModel.Init verbose _ _ _ _ _ _
    (makeEntries_paired ClientId Input Call Output Return sort part Ht)) as (ok & lg & Ha & Hok & _).
  { intros s s' ->%kvEqual. done. }
  exists ok. split; [by exists lg|]. rewrite Hok, partLinearizable_ops. by apply entries_operations.
Qed.

Lemma kv_parts : ∃ oks, Forall2 (λ es ok, ∃ lg, kvAnswers es ok lg) (kvParts sort history) oks ∧
  Forall2 (λ part ok, ok = true ↔ partLinearizable part) (KvModel.Partition history) oks.
Proof.
  change (kvParts sort history) with (kvEntries sort <$> KvModel.Partition history).
  assert (Forall (Forall (λ v, Call v ≤ Return v)) (KvModel.Partition history)) as Hparts.
  { rewrite Partition_parts. apply Forall_map, Forall_forall. intros k _. apply Forall_forall.
    intros v [_ Hv]%list_elem_of_filter. rewrite Forall_forall in Htimes. by apply Htimes. }
  induction Hparts as [|part parts Hp _ (oks & Ho1 & Ho2)]; [by exists []|].
  destruct (kv_part part Hp) as (ok & Ha & Hok). exists (ok :: oks). by split; constructor.
Qed.

End kv.

Lemma kvParts_Partition sort history : kvParts sort history = kvEntries sort <$> KvModel.Partition history.
Proof. done. Qed.

Lemma kvParts_nonempty sort history : history ≠ [] → kvParts sort history ≠ [].
Proof.
  rewrite kvParts_Partition. intros Hne E%fmap_nil_inv. apply Hne. pose proof (partition_history history) as Hp.
  rewrite <- Partition_parts, E in Hp. by apply Permutation_nil_l in Hp.
Qed.

(** The answers of the searches and the history. *)
Lemma kv_result history oks timeout r : Forall (λ v, Call v ≤ Return v) history →
  Forall2 (λ part ok, ok = true ↔ partLinearizable part) (KvModel.Partition history) oks → resultOk timeout oks r →
  match r with Ok => linearizable history | Illegal => ¬ linearizable history | Unknown => 0 < timeout end.
Proof.
  intros Ht Hoks Hres. destruct r; [done| |].
  - apply parts_linearizable; [done|]. apply Forall_lookup_2. intros i part Hi.
    destruct (Forall2_lookup_l _ _ _ i part Hoks Hi) as (ok & Hok & <-). by apply (Forall_lookup_1 _ _ _ _ Hres Hok).
  - destruct Hres as [i Hi]. intros Hl%linearizable_parts. destruct (Forall2_lookup_r _ _ _ i false Hoks Hi) as (part & Hpart & Hiff).
    apply (Forall_lookup_1 _ _ _ _ Hl), Hiff in Hpart. done.
Qed.

(** C19: the checker decides linearizability.  [checkOperations] on the model of the
    tests and a history in which operations return no earlier than they are called,
    with the goroutines, the caller and the timer in any order: if it returns [Ok]
    the history is linearizable, if it returns [Illegal] it is not, and it returns
    [Unknown] only with a timeout. *)
Theorem checkOperations_correct sort `{!ByTimeSort sort} history verbose timeout iter r info :
  Forall (λ v, Call v ≤ Return v) history →
  checkOperations (kvEntries sort) kvModel history verbose timeout iter r info →
  match r with Ok => linearizable history | Illegal => ¬ linearizable history | Unknown => 0 < timeout end.
Proof.
  intros Ht (acts & p & Hr & Hret). destruct (kv_parts sort history Ht verbose) as (oks & Ha & Hoks).
  destruct (parallel_correct (fillDefault kvModel) (kvParts sort history) verbose timeout iter oks Ha) as (bound & Hall).
  destruct (Hall acts p Hr) as (_ & _ & _ & Hres). by apply (kv_result history oks timeout r Ht Hoks), (Hres r info).
Qed.

(** C21: the checker ends. On the model of the tests and a history of operations
    that return no earlier than they are called: the goroutines of
    [checkOperations] and its caller can do only finitely many things, none of
    them panics, and for a history with an operation there is always something to
    do until the caller has returned. *)
Theorem checkOperations_ends sort `{!ByTimeSort sort} history verbose timeout iter :
  Forall (λ v, Call v ≤ Return v) history → history ≠ [] →
  let parts := operationParts (kvEntries sort) kvModel history in
  let exec := exec (fillDefault kvModel) parts verbose timeout iter in
  ∃ bound, ∀ acts p, checks (fillDefault kvModel) parts verbose timeout iter (startChecking parts) acts p →
    (length acts ≤ bound)%nat ∧ (∀ a o, exec a p = Some o → returns o) ∧
    ((∃ r info, p_caller p = Returned r info) ∨ ∃ a p', exec a p = Some (Ret p')).
Proof.
  intros Ht Hne parts exec. destruct (kv_parts sort history Ht verbose) as (oks & Ha & _).
  destruct (parallel_correct (fillDefault kvModel) (kvParts sort history) verbose timeout iter oks Ha) as (bound & Hall).
  exists bound. intros acts p Hr. destruct (Hall acts p Hr) as (Hb & Hret & Hprog & _). split; [done|]. split; [done|].
  by apply Hprog, kvParts_nonempty.
Qed.

(** [CheckOperations] has an answer, and every answer is right. *)
Theorem CheckOperations_decides sort `{!ByTimeSort sort} history iter :
  Forall (λ v, Call v ≤ Return v) history → history ≠ [] →
  (∃ answer, CheckOperations (kvEntries sort) kvModel history iter answer) ∧
  ∀ answer, CheckOperations (kvEntries sort) kvModel history iter answer → (answer = true ↔ linearizable history).
Proof.
  intros Ht Hne. destruct (kv_parts sort history Ht false) as (oks & Ha & Hoks). split.
  - destruct (parallel_complete (fillDefault kvModel) (kvParts sort history) false 0 iter oks Ha) as (r & info & Hr);
      [by apply kvParts_nonempty|]. eexists. exists r, info. split; [exact Hr|done].
  - intros answer (r & info & (acts & p & Hr & Hret) & ->). rewrite bool_decide_eq_true.
    destruct (parallel_correct (fillDefault kvModel) (kvParts sort history) false 0 iter oks Ha) as (bound & Hall). destruct (Hall acts p Hr) as (_ & _ & _ & Hres).
    pose proof (kv_result history oks 0 r Ht Hoks (Hres r info Hret)) as Hkv. destruct r; [lia|done|]. by split.
Qed.

(** ** Without operations

    The loop of [checkParallel] looks at [count] only when a result has come: with
    no part there is no result, and without a timeout the caller waits for ever. *)
Theorem empty_history_blocks sort iter answer : ¬ CheckOperations (kvEntries sort) kvModel [] iter answer.
Proof.
  intros (r & info & (acts & p & Hr & Hret) & _). change (operationParts (kvEntries sort) kvModel []) with (@nil (list (@entry KvInput KvOutput))) in Hr.
  inversion Hr as [|p0 a p' acts' p'' Ha]; subst; [done|]. by destruct a as [i| |].
Qed.

(** ** Renumbering

    [renumber] gives different numbers to different identifiers, and the same
    number to the same identifier. *)
Definition withId (id : Z) {Inp Out} (v : @Event Inp Out) : Event := mkEvent (ev_ClientId v) (ev_Kind v) (ev_Value v) id.

(** The table of [renumber]: numbers below [id], no number twice. *)
Definition numbering (m : gmap Z Z) (id : Z) : Prop :=
  (∀ k r, m !! k = Some r → 0 ≤ r < id) ∧ ∀ k k' r, m !! k = Some r → m !! k' = Some r → k = k'.

Lemma renumberFrom_spec {Inp Out} m id (events : list (@Event Inp Out)) : numbering m id → 0 ≤ id →
  ∃ m' id', m ⊆ m' ∧ numbering m' id' ∧ (∀ v, v ∈ events → is_Some (m' !! ev_Id v)) ∧
    renumberFrom m id events = (λ v, withId (map_get 0 m' (ev_Id v)) v) <$> events.
Proof.
  revert m id. induction events as [|v events IH]; intros m id Hm Hid.
  { exists m, id. split_and!; try done. by intros ? ?%not_elem_of_nil. }
  cbn [renumberFrom]. destruct (m !! ev_Id v) as [r|] eqn:Hv.
  - destruct (IH m id Hm Hid) as (m' & id' & Hsub & Hm' & Hall & Heq). exists m', id'.
    pose proof (lookup_weaken _ _ _ _ Hv Hsub) as Hr. split_and!; try done.
    + intros w [->|Hw]%elem_of_cons; [by exists r|by apply Hall].
    + rewrite Heq, fmap_cons. unfold map_get at 2. by rewrite Hr.
  - assert (numbering (<[ev_Id v := id]> m) (id + 1)) as Hm1.
    { destruct Hm as [Hlt Hinj]. split.
      - intros k r [[_ <-]|[_ Hk]]%lookup_insert_Some; [lia|]. specialize (Hlt k r Hk). lia.
      - intros k k' r [[<- <-]|[? Hk]]%lookup_insert_Some [[? E]|[? Hk']]%lookup_insert_Some; subst; try done.
        + specialize (Hlt _ _ Hk'). lia.
        + specialize (Hlt _ _ Hk). lia.
        + by eapply Hinj. }
    destruct (IH _ _ Hm1) as (m' & id' & Hsub & Hm' & Hall & Heq); [lia|]. exists m', id'.
    assert (m' !! ev_Id v = Some id) as Hr by (eapply lookup_weaken; [|exact Hsub]; apply lookup_insert_eq).
    split_and!; try done.
    + etransitivity; [|exact Hsub]. by apply insert_subseteq.
    + intros w [->|Hw]%elem_of_cons; [by eexists|by apply Hall].
    + rewrite Heq, fmap_cons. unfold map_get at 2. by rewrite Hr.
Qed.

Theorem renumber_spec {Inp Out} (events : list (@Event Inp Out)) : ∃ f : Z → Z,
  renumber events = (λ v, withId (f (ev_Id v)) v) <$> events ∧
  ∀ v w, v ∈ events → w ∈ events → f (ev_Id v) = f (ev_Id w) ↔ ev_Id v = ev_Id w.
Proof.
  destruct (renumberFrom_spec ∅ 0 events) as (m & id & _ & [_ Hinj] & Hall & Heq); [split|lia|].
  - intros k r. by rewrite lookup_empty.
  - intros k k' r. by rewrite lookup_empty.
  - exists (map_get 0 m). split; [exact Heq|]. intros v w Hv Hw. split; [|by intros ->].
    destruct (Hall v Hv) as [r Hr], (Hall w Hw) as [r' Hr']. unfold map_get. rewrite Hr, Hr'. simpl. intros <-.
    by apply (Hinj _ _ r).
Qed.

(** ** A function that sorts *)

Definition notAfter {Inp Out} (a b : @entry Inp Out) : Prop := Less b a = false.

#[export] Instance notAfter_dec {Inp Out} : RelDecision (@notAfter Inp Out).
Proof. intros a b. unfold notAfter. apply _. Defined.

Lemma Less_spec {Inp Out} (a b : @entry Inp Out) : Less a b = true ↔
  e_time a < e_time b ∨ e_time a = e_time b ∧ Z.b2z (e_kind a) < Z.b2z (e_kind b).
Proof.
  unfold Less. case_decide; rewrite ?andb_true_iff, ?bool_decide_eq_true; [lia|].
  unfold callEntry, returnEntry. destruct (e_kind a), (e_kind b); simpl; intuition (discriminate || lia).
Qed.

#[export] Instance notAfter_total {Inp Out} : Total (@notAfter Inp Out).
Proof. intros a b. unfold notAfter. rewrite <- !not_true_iff_false, !Less_spec. lia. Qed.
#[export] Instance notAfter_trans {Inp Out} : Transitive (@notAfter Inp Out).
Proof. intros a b c. unfold notAfter. rewrite <- !not_true_iff_false, !Less_spec. lia. Qed.

Definition sortEntries {Inp Out} (l : list (@entry Inp Out)) : list entry := merge_sort notAfter l.

#[export] Instance sortEntries_byTime {Inp Out} : ByTimeSort (@sortEntries Inp Out).
Proof.
  split; [apply merge_sort_Permutation|]. intros l i j a b Hij Ha Hb.
  assert (StronglySorted notAfter (sortEntries l)) as Hs by (apply StronglySorted_merge_sort; apply _).
  exact (StronglySorted_lookup_lt notAfter _ i j a b Hs Ha Hb Hij).
Qed.

(** ** Examples *)

Lemma execAll_checks {Inp Out State Operation} `{!EqDecision State} (model : @Model Inp Out State Operation) history computeInfo timeout iter
    acts p p' : execAll model history computeInfo timeout iter acts p = Some p' → checks model history computeInfo timeout iter p acts p'.
Proof.
  revert p. induction acts as [|a acts IH]; intros p Hr; simpl in Hr; [injection Hr as <-; constructor|].
  destruct (exec _ _ _ _ _ a p) as [[p1| | |]|] eqn:Ha; try done. econstructor; [exact Ha|by apply IH].
Qed.

(** The caller after some actions on a history. *)
Definition runKv (history : list Operation) (verbose : bool) (timeout : Z) (acts : list action) : option caller :=
  p_caller <$> execAll (fillDefault kvModel) (kvParts sortEntries history) verbose timeout elements acts
    (startChecking (kvParts sortEntries history)).

Lemma runKv_returns history verbose timeout acts r info : runKv history verbose timeout acts = Some (Returned r info) →
  checkOperations (kvEntries sortEntries) kvModel history verbose timeout elements r info.
Proof.
  unfold runKv. destruct (execAll _ _ _ _ _ acts _) as [p|] eqn:Hp; [|done]. simpl. intros [= Hr].
  exists acts, p. split; [by apply execAll_checks|done].
Qed.

(** Two searches side by side, a history that is linearizable. *)
Definition twoSearches : list action :=
  [Work 0; Work 1; Work 1; Work 0; Work 0; Work 1; Receive; Work 0; Receive].

(** A read of an old value after the put has returned. *)
Definition staleRead : list Operation :=
  [mkOperation 1 (mkKvInput 1 "x" "a") 0 (mkKvOutput "") 1; mkOperation 2 (mkKvInput 0 "x" "") 2 (mkKvOutput "") 3].

Definition oneSearch (k : nat) : list action := replicate k (Work 0) ++ [Receive].

Lemma checkOperations_correct_witness : linearizable overlapping ∧ ¬ linearizable staleRead.
Proof.
  split.
  - apply (checkOperations_correct sortEntries overlapping false 0 elements Ok (mkInfo [] [])).
    + repeat constructor; simpl; lia.
    + apply (runKv_returns _ _ _ twoSearches). vm_compute. reflexivity.
  - apply (checkOperations_correct sortEntries staleRead false 0 elements Illegal (mkInfo [] [])).
    + repeat constructor; simpl; lia.
    + apply (runKv_returns _ _ _ (oneSearch 5)). vm_compute. reflexivity.
Defined.

Lemma checkOperations_ends_witness : ∃ bound, ∀ acts p,
  checks (fillDefault kvModel) (kvParts sortEntries overlapping) false 0 elements
    (startChecking (kvParts sortEntries overlapping)) acts p → (length acts ≤ bound)%nat.
Proof.
  destruct (checkOperations_ends sortEntries overlapping false 0 elements) as [bound Hb].
  - repeat constructor; simpl; lia.
  - discriminate.
  - exists bound. intros acts p Hr. exact (proj1 (Hb acts p Hr)).
Defined.

Lemma checkSingle_correct_witness : ∃ fuel ok lg,
  checkSingle KvModel.Step ShallowEqual KvModel.Init (kvEntries sortEntries staleRead) true (λ _, 0) fuel = Ret (ok, lg) ∧
  (ok = true ↔ opsLinearizable Input Call Output Return staleRead KvModel.Step KvModel.Init).
Proof.
  destruct (checkSingle_correct ClientId Input Call Output Return sortEntries KvModel.Step ShallowEqual KvModel.Init true staleRead)
    as (fuel & ok & lg & Hf & Hok & _).
  - intros s s' Hs%bool_decide_eq_true l. by rewrite Hs.
  - repeat constructor; simpl; lia.
  - exists fuel, ok, lg. split; [|exact Hok]. specialize (Hf 0%nat). rewrite Nat.add_0_r in Hf. exact Hf.
Defined.

(** The longest prefix of the stale read is the put alone. *)
Example staleRead_search :
  checkSingle KvModel.Step ShallowEqual KvModel.Init (kvEntries sortEntries staleRead) true (λ _, 0) 10 =
    Ret (false, mkPartials [Some 0%nat; None] [[0]]).
Proof. vm_compute. reflexivity. Qed.

(** With a timeout the answer may come too early. *)
Example timed_out : runKv staleRead false 1 [Work 0; Timeout] = Some (Returned Unknown (mkInfo [] [])).
Proof. vm_compute. reflexivity. Qed.
