(* ===== verification/CheckerEvents.v ===== *)
(** * Histories of events

    [checkEvents] takes calls and returns in the order in which they happened, with
    an identifier for every operation, instead of operations with times.  It gives
    new identifiers to them, in the order of the calls, and searches as
    [checkOperations] does. *)

From S2P Require Import Prelude Bitset Checker CheckerList CheckerSearch CheckerParallel CheckerSpec.
Local Open Scope Z_scope.

(** A well-formed history: operation [i], the [i]-th to be called, has the
    identifier [ids i]; it is called at position [cp i] and returns at [rp i]. *)
Record wellFormed {Inp Out} (events : list (@Event Inp Out)) (n : nat) (ids : nat → Z) (cp rp : nat → nat)
    (inp : nat → Inp) (out : nat → Out) : Prop := {
  wf_length : length events = (2 * n)%nat;
  wf_call i : (i < n)%nat → ∃ c, events !! cp i = Some (mkEvent c CallEvent (InputV (inp i)) (ids i));
  wf_return i : (i < n)%nat → ∃ c, events !! rp i = Some (mkEvent c ReturnEvent (OutputV (out i)) (ids i));
  wf_cover a : (a < length events)%nat → ∃ i, (i < n)%nat ∧ (a = cp i ∨ a = rp i);
  wf_order i : (i < n)%nat → (cp i < rp i)%nat;
  wf_ids i j : (i < n)%nat → (j < n)%nat → ids i = ids j → i = j;
  wf_called i j : (i < j)%nat → (j < n)%nat → (cp i < cp j)%nat;
}.

Section events.
Context {Inp Out State Operation : Type} `{!EqDecision State}.
Context (events : list (@Event Inp Out)) (n : nat) (ids : nat → Z) (cp rp : nat → nat) (inp : nat → Inp) (out : nat → Out).
Context (Hwf : wellFormed events n ids cp rp inp out).

(** The table of [renumber] when [c] operations have been called. *)
Definition tableOf (m : gmap Z Z) (c : nat) : Prop :=
  ∀ k r, m !! k = Some r ↔ ∃ i, (i < c)%nat ∧ k = ids i ∧ r = Z.of_nat i.

(** The event at position [a], behind [c] calls. *)
Lemma event_at a c v : (∀ i, (i < n)%nat → (i < c)%nat ↔ (cp i < a)%nat) → (c ≤ n)%nat → events !! a = Some v →
  ∃ i, (i < n)%nat ∧ ev_Id v = ids i ∧ (a = cp i ∨ a = rp i) ∧
    ((i < c)%nat ∧ (∀ j, (j < n)%nat → (j < c)%nat ↔ (cp j < S a)%nat) ∨
     i = c ∧ ∀ j, (j < n)%nat → (j < S c)%nat ↔ (cp j < S a)%nat).
Proof.
  intros Hc Hcn Hv. destruct (wf_cover _ _ _ _ _ _ _ Hwf a) as (i & Hi & E); [by eapply lookup_lt_Some|].
  exists i. split; [done|]. destruct (wf_call _ _ _ _ _ _ _ Hwf i Hi) as (c1 & H1). destruct (wf_return _ _ _ _ _ _ _ Hwf i Hi) as (c2 & H2).
  split; [by destruct E as [-> | ->]; simplify_eq|]. split; [done|].
  assert (∀ j, (j < n)%nat → cp j = cp i → j = i) as Hinj.
  { intros j Hj Ej. destruct (wf_call _ _ _ _ _ _ _ Hwf j Hj) as (c3 & H3). rewrite Ej, H1 in H3.
    apply (wf_ids _ _ _ _ _ _ _ Hwf); [done|done|]. by injection H3. }
  destruct E as [-> | ->].
  - right. assert (i = c) as ->.
    { assert (¬ (i < c)%nat) by (rewrite Hc by done; lia). destruct (decide (c < i)%nat) as [Hlt|]; [|lia].
      pose proof (wf_called _ _ _ _ _ _ _ Hwf c i Hlt Hi). assert ((c < n)%nat) as Hcn' by lia. specialize (Hc c Hcn'). lia. }
    split; [done|]. intros j Hj. specialize (Hc j Hj). destruct (decide (cp j = cp c)) as [Ej|Ne]; [rewrite (Hinj j Hj Ej); lia|].
    assert (j ≠ c) by congruence. lia.
  - left. pose proof (wf_order _ _ _ _ _ _ _ Hwf i Hi). split; [by apply Hc|]. intros j Hj. rewrite Hc by done.
    assert (cp j ≠ rp i); [|lia]. intros Ej. destruct (wf_call _ _ _ _ _ _ _ Hwf j Hj) as (c3 & H3). rewrite Ej, H2 in H3. done.
Qed.

Lemma renumberFrom_at l : ∀ a c m, drop a events = l → (∀ i, (i < n)%nat → (i < c)%nat ↔ (cp i < a)%nat) → (c ≤ n)%nat →
  tableOf m c → ∀ j v, l !! j = Some v →
  ∃ i, (i < n)%nat ∧ (a + j = cp i ∨ a + j = rp i)%nat ∧ renumberFrom m (Z.of_nat c) l !! j = Some (withId (Z.of_nat i) v).
Proof.
  induction l as [|v l IH]; intros a c m Hdrop Hc Hcn Hm j w Hj; [done|].
  assert (events !! a = Some v) as Hv by (rewrite <- (Nat.add_0_r a), <- lookup_drop, Hdrop; done).
  assert (drop (S a) events = l) as Hdrop'.
  { replace (S a) with (a + 1)%nat by lia. by rewrite <- drop_drop, Hdrop. }
  destruct (event_at a c v Hc Hcn Hv) as (i & Hi & Hid & Ea & Hcase). cbn [renumberFrom]. rewrite Hid.
  destruct Hcase as [[Hlt Hc']|[-> Hc']].
  - assert (m !! ids i = Some (Z.of_nat i)) as Hmi by (apply Hm; eauto). rewrite Hmi. destruct j as [|j]; cbn in Hj.
    + injection Hj as <-. exists i. rewrite Nat.add_0_r. split_and!; [done|done|]. unfold withId. done.
    + destruct (IH (S a) c m Hdrop' Hc' Hcn Hm j w Hj) as (i' & Hi' & E' & Hr). exists i'. split; [done|].
      split; [by rewrite Nat.add_succ_r|]. exact Hr.
  - assert (m !! ids c = None) as Hmc.
    { destruct (m !! ids c) as [r|] eqn:Hr; [|done]. apply Hm in Hr as (i & Hic & Ei & _).
      apply (wf_ids _ _ _ _ _ _ _ Hwf) in Ei; [|done|]; lia. }
    rewrite Hmc. destruct j as [|j]; cbn in Hj.
    + injection Hj as <-. exists c. rewrite Nat.add_0_r. done.
    + assert (tableOf (<[ids c := Z.of_nat c]> m) (S c)) as Hm'.
      { intros k r. rewrite lookup_insert_Some, (Hm k r). split.
        - intros [[<- <-]|(_ & i & ? & ? & ?)]; [exists c|exists i]; (split; [lia|done]).
        - intros (i & Hic & -> & ->). destruct (decide (i = c)) as [->|Ne]; [by left|right].
          split; [|exists i; split; [lia|done]]. intros E. apply (wf_ids _ _ _ _ _ _ _ Hwf) in E; lia. }
      destruct (IH (S a) (S c) _ Hdrop' Hc' Hi Hm' j w Hj) as (i' & Hi' & E' & Hr). exists i'. split; [done|].
      split; [by rewrite Nat.add_succ_r|]. rewrite Nat2Z.inj_succ in Hr. exact Hr.
Qed.

Lemma renumber_at a v : events !! a = Some v →
  ∃ i, (i < n)%nat ∧ (a = cp i ∨ a = rp i) ∧ renumber events !! a = Some (withId (Z.of_nat i) v).
Proof.
  intros Hv. apply (renumberFrom_at events 0 0 ∅ eq_refl); [intros; lia|lia| |done].
  intros k r. rewrite lookup_empty. split; [done|]. intros (i & ? & _). lia.
Qed.

Lemma cp_not_rp i j : (i < n)%nat → (j < n)%nat → cp i ≠ rp j.
Proof.
  intros Hi Hj E. destruct (wf_call _ _ _ _ _ _ _ Hwf i Hi) as (c1 & H1). destruct (wf_return _ _ _ _ _ _ _ Hwf j Hj) as (c2 & H2).
  rewrite E, H2 in H1. done.
Qed.

(** The entry at a position. *)
Lemma event_entry i v a : (i < n)%nat → (a = cp i ∨ a = rp i) → events !! a = Some v → ev_Id v = ids i →
  convertEntries (renumber events) !! a =
    Some (mkEntry (ev_Kind v) (ev_Value v) (Z.of_nat i) (Z.of_nat a) (ev_ClientId v)).
Proof.
  intros Hi Ha Hv Hid. destruct (renumber_at a v Hv) as (j & Hj & Ej & Hr).
  assert (j = i) as ->.
  { apply (wf_ids _ _ _ _ _ _ _ Hwf); [done|done|]. rewrite <- Hid. destruct (wf_call _ _ _ _ _ _ _ Hwf j Hj) as (c1 & H1).
    destruct (wf_return _ _ _ _ _ _ _ Hwf j Hj) as (c2 & H2). destruct Ej; subst a; by simplify_eq. }
  unfold convertEntries. rewrite list_lookup_imap, Hr. simpl. by destruct (ev_Kind v).
Qed.

Lemma events_paired : paired (convertEntries (renumber events)) n cp rp inp out.
Proof.
  assert (length (convertEntries (renumber events)) = length events) as Hlen.
  { unfold convertEntries. rewrite length_imap. destruct (renumber_spec events) as (f & -> & _). apply length_fmap. }
  split.
  - by rewrite Hlen, (wf_length _ _ _ _ _ _ _ Hwf).
  - intros i Hi. destruct (wf_call _ _ _ _ _ _ _ Hwf i Hi) as (c & H1). eexists _, _.
    rewrite (event_entry i _ (cp i) Hi (or_introl eq_refl) H1); done.
  - intros i Hi. destruct (wf_return _ _ _ _ _ _ _ Hwf i Hi) as (c & H1). eexists _, _.
    rewrite (event_entry i _ (rp i) Hi (or_intror eq_refl) H1); done.
  - rewrite Hlen. apply (wf_cover _ _ _ _ _ _ _ Hwf).
  - apply (wf_order _ _ _ _ _ _ _ Hwf).
Qed.

(** The events are linearizable: some order of the operations, in which an operation
    comes after those that returned before its call, is accepted by the model. *)
Definition eventsLinearizable (model : @Model Inp Out State Operation) : Prop :=
  entriesLinearizable (Step _ model) (Init _ model) n cp rp inp out.

(** [checkEvents] on a well-formed history and a model without a partition of
    events: [Ok] means that the history is linearizable, [Illegal] that it is not,
    and [Unknown] comes only with a timeout. *)
Theorem checkEvents_correct (model : @Model Inp Out State Operation) verbose timeout iter r info :
  PartitionEvent _ model = None →
  (∀ s s', equalOf (fillDefault model) s s' = true → ∀ l, accepts (Step _ model) inp out s l = accepts (Step _ model) inp out s' l) →
  checkEvents model events verbose timeout iter r info →
  match r with Ok => eventsLinearizable model | Illegal => ¬ eventsLinearizable model | Unknown => 0 < timeout end.
Proof.
  intros Hpart Hequal (acts & p & Hr & Hret).
  assert (eventParts model events = [convertEntries (renumber events)]) as Hparts.
  { unfold eventParts, fillDefault. simpl. by rewrite Hpart. }
  rewrite Hparts in Hr.
  destruct (search_correct (Step _ model) (equalOf (fillDefault model)) (Init _ model) verbose _ _ _ _ _ _ events_paired Hequal)
    as (ok & lg & Ha & Hok & _).
  destruct (parallel_correct (fillDefault model) [convertEntries (renumber events)] verbose timeout iter [ok]) as (bound & Hall).
  { constructor; [by exists lg|constructor]. }
  destruct (Hall acts p Hr) as (_ & _ & _ & Hres). specialize (Hres r info Hret). destruct r; [done| |].
  - apply Forall_cons in Hres as [Hres _]. by apply Hok.
  - destruct Hres as [[|i] Hi]; [|done]. injection Hi as ->. intros ?%Hok. done.
Qed.

End events.

(** ** Example: a get that overlaps a put, with identifiers 7 and 3 *)

Definition register : @Model (option Z) Z Z unit :=
  mkModel unit None None 0
    (λ s i o, match i with Some x => (true, x) | None => (bool_decide (o = s), s) end) None.

Definition putAndGet : list (@Event (option Z) Z) :=
  [mkEvent 1 CallEvent (InputV (Some 5)) 7; mkEvent 2 CallEvent (InputV None) 3;
   mkEvent 2 ReturnEvent (OutputV 5) 3; mkEvent 1 ReturnEvent (OutputV 0) 7].

Example putAndGet_renumbered : ev_Id <$> renumber putAndGet = [0; 1; 1; 0].
Proof. reflexivity. Qed.

Lemma putAndGet_wellFormed : wellFormed putAndGet 2 (λ i, if decide (i = 0%nat) then 7 else 3) id (λ i, 3 - i)%nat
  (λ i, if decide (i = 0%nat) then Some 5 else None) (λ i, if decide (i = 0%nat) then 0 else 5).
Proof.
  split; try done.
  - intros [|[|i]] Hi; [by eexists..|lia].
  - intros [|[|i]] Hi; [by eexists..|lia].
  - intros a Ha. cbn in Ha. destruct (decide (a < 2)%nat); [exists a|exists (3 - a)%nat]; unfold id; lia.
  - intros i Hi. unfold id. lia.
  - intros [|[|i]] [|[|j]] Hi Hj; try done; lia.
Qed.

Example putAndGet_accepted : eventsLinearizable 2 id (λ i, 3 - i)%nat (λ i, if decide (i = 0%nat) then Some 5 else None)
  (λ i, if decide (i = 0%nat) then 0 else 5) register.
Proof.
  apply (checkEvents_correct _ _ _ _ _ _ _ putAndGet_wellFormed register false 0 elements Ok (mkInfo [] [])); [done| |].
  - intros s s' Hs%bool_decide_eq_true l. by rewrite Hs.
  - destruct (execAll (fillDefault register) (eventParts register putAndGet) false 0 elements
      [Work 0; Work 0; Work 0; Work 0; Receive] (startChecking (eventParts register putAndGet))) as [p|] eqn:Hp.
    + eexists _, p. split; [by eapply execAll_checks|]. vm_compute in Hp. by injection Hp as <-.
    + vm_compute in Hp. done.
Qed.
