(* ===== verification/KVLinearize.v ===== *)
(** * A linearization from the order of the log

    The argument that turns one history of operations, each request executed once,
    into a linearization of what the clients saw: a write takes effect where its
    first copy stands in the history, a read where the server that answered it
    stood.  [KVClients] shows that every run of clerks and servers has such
    points. *)

From S2P Require Import Prelude Sessions KVRaft KvModel.
Local Open Scope Z_scope.

(** ** Points *)

Implicit Types (hist : list KVRaft.Op).

(** The map after the first [k] operations of the history, each request executed
    once. *)
Definition mapAt hist (k : nat) (m : gmap string string) : Prop :=
  execAll execOp (onceEach ∅ (take k hist)) ∅ = Ret m.

(** Reading [key] after [k] operations gives [v]. *)
Definition readAt hist (k : nat) (key v : string) : Prop := ∃ m, mapAt hist k m ∧ v = map_get "" m key.

(** The first operation of its request stands at position [j]. *)
Definition firstAt hist (j : nat) (op : KVRaft.Op) : Prop :=
  hist !! j = Some op ∧ requestOf op ∉ requestOf <$> take j hist.

(** A finished operation, the number of its request, its point. *)
Record finishedOp := mkFinished { f_op : Operation; f_req : Z; f_point : nat }.

Definition isRead (f : finishedOp) : Prop := KvModel.Op (Input (f_op f)) = 0.
#[export] Instance isRead_dec f : Decision (isRead f).
Proof. unfold isRead. apply _. Defined.

Definition fRequest (f : finishedOp) : Z * Z := (ClientId (f_op f), f_req f).

(** The point of an operation explains it. *)
Record explained hist (f : finishedOp) : Prop := {
  ex_point : (f_point f ≤ length hist)%nat;
  ex_read : isRead f → readAt hist (f_point f) (keyOf (f_op f)) (OutValue (Output (f_op f)));
  ex_write : ¬ isRead f → (0 < f_point f)%nat ∧ ∃ op, firstAt hist (pred (f_point f)) op ∧
    requestOf op = fRequest f ∧ kvraftInput op = Input (f_op f);
}.

(** ** Longer histories *)

Section longer.
Context hist hist' (Hpre : hist `prefix_of` hist').

Lemma take_longer k : (k ≤ length hist)%nat → take k hist' = take k hist.
Proof using Hpre. destruct Hpre as [l ->]. intros Hk. by rewrite take_app_le. Qed.

Lemma mapAt_longer k m : (k ≤ length hist)%nat → mapAt hist k m → mapAt hist' k m.
Proof using Hpre. intros Hk. unfold mapAt. by rewrite take_longer. Qed.

Lemma readAt_longer k key v : (k ≤ length hist)%nat → readAt hist k key v → readAt hist' k key v.
Proof using Hpre. intros Hk (m & Hm & Hv). exists m. split; [by apply mapAt_longer|done]. Qed.

Lemma firstAt_longer j op : firstAt hist j op → firstAt hist' j op.
Proof using Hpre.
  intros [Hj Hf]. split; [by eapply prefix_lookup_Some|].
  apply lookup_lt_Some in Hj. by rewrite take_longer by lia.
Qed.

Lemma explained_longer f : explained hist f → explained hist' f.
Proof using Hpre.
  intros [Hp Hr Hw]. split.
  - apply prefix_length in Hpre. lia.
  - intros Hi. by apply readAt_longer, Hr.
  - intros Hi. destruct (Hw Hi) as (? & op & Hf & ? & ?). split; [done|]. exists op. eauto using firstAt_longer.
Qed.
End longer.

(** The map changes only at the first copy of a write. *)
Lemma mapAt_step hist k op m : hist !! k = Some op → mapAt hist k m →
  (requestOf op ∈ requestOf <$> take k hist → mapAt hist (S k) m) ∧
  (requestOf op ∉ requestOf <$> take k hist → ∀ m', execOp op m = Ret m' → mapAt hist (S k) m').
Proof.
  intros Hk Hm. unfold mapAt in *. rewrite (take_S_r _ _ _ Hk), onceEach_snoc. split.
  - intros Hin. rewrite decide_True by (by right). by rewrite app_nil_r.
  - intros Hin m' Hm'. rewrite decide_False by (intros [?%elem_of_empty|?]; done).
    rewrite execAll_app, Hm, bind_Ret. unfold execAll. simpl. by rewrite Hm'.
Qed.

Lemma mapAt_total hist k : Forall validType hist → ∃ m, mapAt hist k m.
Proof.
  intros Hv. unfold mapAt. assert (Forall validType (onceEach ∅ (take k hist))) as Hl
    by (by apply onceEach_Forall, Forall_take).
  unfold execAll. revert Hl. generalize (onceEach ∅ (take k hist)) as l, (∅ : gmap string string) as s.
  induction l as [|o l IH]; intros s Hl; [by exists s|]. apply Forall_cons in Hl as [Ho Hl].
  destruct (execOp_returns o s Ho) as [s' Hs]. simpl. rewrite Hs, bind_Ret. by apply IH.
Qed.

Lemma mapAt_unique hist k m m' : mapAt hist k m → mapAt hist k m' → m = m'.
Proof. unfold mapAt. congruence. Qed.

(** The first copy of a request that is there at all. *)
Lemma first_copy hist (r : Z * Z) : r ∈ requestOf <$> hist → ∃ j op, firstAt hist j op ∧ requestOf op = r.
Proof.
  induction hist as [|op l IH] using rev_ind; [by intros ?%elem_of_nil|].
  rewrite fmap_app, elem_of_app. intros Hin. destruct (decide (r ∈ requestOf <$> l)) as [Hl|Hl].
  - destruct (IH Hl) as (j & o & Hf & Ho). exists j, o. split; [|done]. eapply firstAt_longer; [|done]. by eexists.
  - destruct Hin as [?|Hin]; [done|]. apply list_elem_of_singleton in Hin as ->.
    exists (length l), op. split; [|done]. split; [by apply list_lookup_middle|].
    by rewrite take_app_length.
Qed.

Lemma firstAt_unique hist j j' op op' : firstAt hist j op → firstAt hist j' op' → requestOf op = requestOf op' →
  j = j'.
Proof.
  assert (∀ j j' op op', firstAt hist j op → firstAt hist j' op' → requestOf op = requestOf op' → ¬ (j < j')%nat) as Hw.
  { intros a b o o' [Ha _] [_ Hb] E Hlt. apply Hb. rewrite <- E. apply list_elem_of_fmap_2.
    apply list_elem_of_lookup_2 with a. by rewrite lookup_take_lt. }
  intros Hf Hf' E. destruct (Nat.lt_trichotomy j j') as [Hlt|[?|Hlt]]; [|done|].
  - by destruct (Hw j j' op op').
  - by destruct (Hw j' j op' op).
Qed.

(** ** The linearization *)

Section linearize.
Context hist (F : list finishedOp).
Context (Hvalid : Forall validType hist).
Context (Hex : ∀ f, f ∈ F → explained hist f).
Context (Hreal : ∀ f f', f ∈ F → f' ∈ F → Return (f_op f) < Call (f_op f') → (f_point f < f_point f')%nat).
Context (Huniq : NoDup (fRequest <$> F)).
Context (Hall : ∀ op, op ∈ hist → op_Type op ≠ OT_GET → ∃ f, f ∈ F ∧ ¬ isRead f ∧ fRequest f = requestOf op).

(** The operations with point [k]: the write, if there is one, then the reads. *)
Definition writesAt (k : nat) : list finishedOp := filter (λ f, ¬ isRead f) (filter (λ f, f_point f = k) F).
Definition readsAt (k : nat) : list finishedOp := filter isRead (filter (λ f, f_point f = k) F).
Definition pointsFrom (k len : nat) : list finishedOp := concat (map (λ k, writesAt k ++ readsAt k) (seq k len)).

Lemma pointsFrom_perm : pointsFrom 0 (S (length hist)) ≡ₚ F.
Proof using Hex.
  unfold pointsFrom. rewrite (concat_map_perm _ (λ k, filter (λ f, f_point f = k) F)).
  - apply (partition_perm f_point); [apply NoDup_seq|]. intros f Hf%Hex%ex_point. apply elem_of_seq. lia.
  - intros k _. rewrite Permutation_app_comm. apply filter_app_complement.
Qed.

Lemma at_point k f : f ∈ writesAt k ++ readsAt k → f ∈ F ∧ f_point f = k.
Proof.
  intros [Hf|Hf]%elem_of_app; apply list_elem_of_filter in Hf as [_ Hf]; by apply list_elem_of_filter in Hf as [? ?].
Qed.

Lemma pointsFrom_S k len : pointsFrom k (S len) = (writesAt k ++ readsAt k) ++ pointsFrom (S k) len.
Proof. done. Qed.

Lemma pointsFrom_ge k len f : f ∈ pointsFrom k len → f ∈ F ∧ (k ≤ f_point f)%nat.
Proof.
  revert k. induction len as [|len IH]; intros k; [by intros ?%elem_of_nil|].
  rewrite pointsFrom_S. intros [[? <-]%at_point|[? ?]%IH]%elem_of_app; auto with lia.
Qed.

Definition before (a b : finishedOp) : Prop := (f_point a ≤ f_point b)%nat.

Lemma sorted_same (k : nat) l : (∀ f, f ∈ l → f_point f = k) → StronglySorted before l.
Proof.
  intros Hl. induction l as [|f l IH]; constructor; [apply IH; set_solver|].
  apply Forall_forall. intros g Hg. unfold before. rewrite !Hl by set_solver. done.
Qed.

Lemma pointsFrom_sorted k len : StronglySorted before (pointsFrom k len).
Proof.
  revert k. induction len as [|len IH]; intros k; [constructor|]. rewrite pointsFrom_S.
  apply StronglySorted_app_2; [|by apply (sorted_same k); intros f [_ ?]%at_point|apply IH].
  intros a b [_ Ha]%at_point [_ Hb]%pointsFrom_ge. unfold before. lia.
Qed.

(** In this order no operation comes before one that returned before its call. *)
Lemma points_may_precede l : StronglySorted before l → (∀ f, f ∈ l → f ∈ F) →
  StronglySorted mayPrecede (f_op <$> l).
Proof using Hreal.
  intros Hs Hl. induction Hs as [|f l Hs IH Hf]; [constructor|]. rewrite fmap_cons.
  constructor; [apply IH; intros g Hg; apply Hl; by right|]. apply Forall_fmap, Forall_forall. intros g Hg. simpl.
  rewrite Forall_forall in Hf. specialize (Hf g Hg). intros Hlt. unfold before in Hf.
  pose proof (Hreal g f (Hl g ltac:(by right)) (Hl f ltac:(by left)) Hlt). lia.
Qed.

(** At most one write has a given point. *)
Lemma writesAt_explained k f : f ∈ writesAt k → f ∈ F ∧ f_point f = k ∧ (0 < k)%nat ∧
  ∃ op, firstAt hist (pred k) op ∧ requestOf op = fRequest f ∧ kvraftInput op = Input (f_op f).
Proof using Hex.
  intros [Hr [Hp Hf]%list_elem_of_filter]%list_elem_of_filter. destruct (ex_write _ _ (Hex f Hf) Hr) as [? ?].
  rewrite Hp in *. done.
Qed.

Lemma writesAt_one k f f' : f ∈ writesAt k → f' ∈ writesAt k → fRequest f = fRequest f'.
Proof using Hex.
  intros (_ & _ & _ & op & [Ho _] & <- & _)%writesAt_explained (_ & _ & _ & op' & [Ho' _] & <- & _)%writesAt_explained.
  congruence.
Qed.

Lemma writesAt_cases k : writesAt k = [] ∨ ∃ f, writesAt k = [f].
Proof using Hex Huniq.
  assert (NoDup (fRequest <$> writesAt k)) as Hnd.
  { eapply sublist_NoDup; [exact Huniq|]. apply fmap_sublist. etrans; apply sublist_filter. }
  pose proof (writesAt_one k) as Hone. destruct (writesAt k) as [|f [|f' l]]; [by left|right; by exists f|].
  exfalso. rewrite !fmap_cons in Hnd. apply NoDup_cons in Hnd as [Hn _]. apply Hn.
  rewrite (Hone f f'); [by left|by left|by right; left].
Qed.

(** The reads at a point do not change the map. *)
Lemma reads_accepted k m l rest : mapAt hist k m → (∀ f, f ∈ l → f ∈ readsAt k) → storeAccepts m rest = true →
  storeAccepts m ((f_op <$> l) ++ rest) = true.
Proof using Hex.
  intros Hm Hl Hr. induction l as [|f l IH]; [done|]. cbn [fmap list_fmap app storeAccepts].
  assert (f ∈ readsAt k) as Hf by (apply Hl; by left).
  apply list_elem_of_filter in Hf as [Hrd [Hp Hf]%list_elem_of_filter].
  destruct (ex_read _ _ (Hex f Hf) Hrd) as (m' & Hm' & Hv). rewrite Hp in Hm'.
  pose proof (mapAt_unique _ _ _ _ Hm Hm') as <-. unfold storeStep. rewrite decide_True by done.
  rewrite bool_decide_eq_true_2 by done. rewrite orb_true_r. apply IH. intros g Hg. apply Hl. by right.
Qed.

(** The write at a point takes the map there. *)
Lemma write_accepted k m m' rest : (k < length hist)%nat → mapAt hist k m → mapAt hist (S k) m' →
  storeAccepts m' rest = true → storeAccepts m ((f_op <$> writesAt (S k)) ++ rest) = true.
Proof using Hex Hvalid Huniq Hall.
  intros Hk Hm Hm' Hr. destruct (lookup_lt_is_Some_2 _ _ Hk) as [op Hop].
  destruct (mapAt_step _ _ _ _ Hop Hm) as [Hold Hnew].
  assert (validType op) as Hvo by (rewrite Forall_forall in Hvalid; by eapply Hvalid, list_elem_of_lookup_2).
  destruct (writesAt_cases (S k)) as [E|[f E]]; rewrite E; simpl.
  - assert (m' = m) as ->; [|done]. apply (mapAt_unique hist (S k)); [done|].
    destruct (decide (requestOf op ∈ requestOf <$> take k hist)) as [Hin|Hin]; [by apply Hold|].
    apply Hnew; [done|]. unfold execOp. destruct (decide (op_Type op = OT_GET)) as [|Hg]; [done|]. exfalso.
    destruct (Hall op) as (f & Hf & Hw & Hq); [by eapply list_elem_of_lookup_2|done|].
    destruct (ex_write _ _ (Hex f Hf) Hw) as (Hpos & op' & Hf' & Hq' & _).
    assert (pred (f_point f) = k) by (eapply (firstAt_unique hist _ _ op' op); [done|by split|congruence]).
    assert (f ∈ writesAt (S k)) as Hin'; [|rewrite E in Hin'; by apply elem_of_nil in Hin'].
    apply list_elem_of_filter. split; [done|]. apply list_elem_of_filter. split; [lia|done].
  - assert (f ∈ writesAt (S k)) as Hf by (rewrite E; by left).
    pose proof Hf as [Hw _]%list_elem_of_filter.
    destruct (writesAt_explained _ _ Hf) as (_ & _ & _ & op' & [Hop' Hfirst] & _ & Hi). simpl in *.
    assert (op' = op) as -> by congruence.
    destruct (execOp_returns op m Hvo) as [m2 Hm2]. pose proof (Hnew Hfirst m2 Hm2) as Hm2'.
    pose proof (mapAt_unique _ _ _ _ Hm' Hm2') as ->.
    pose proof (storeStep_kvraft op m m2 Hm2) as Hst. rewrite Hi in Hst.
    destruct (storeStep (Input (f_op f)) m) as [m3 v]. simpl in Hst. subst m3.
    assert (observes (Input (f_op f)) = false) as ->; [|done].
    unfold observes, isRead in *. rewrite <- Hi in *. unfold kvraftInput in *. simpl in *.
    repeat case_decide; done.
Qed.

Lemma no_write_at_0 : writesAt 0 = [].
Proof using Hex.
  destruct (writesAt 0) as [|f l] eqn:E; [done|]. exfalso.
  assert (f ∈ writesAt 0) as Hf by (rewrite E; by left). destruct (writesAt_explained _ _ Hf) as (_ & _ & ? & _). lia.
Qed.

(** From a point on, the store accepts the rest. *)
Lemma points_accepted len k m : (S k + len = S (length hist))%nat → mapAt hist k m →
  storeAccepts m (f_op <$> pointsFrom (S k) len) = true.
Proof using Hex Hvalid Huniq Hall.
  revert k m. induction len as [|len IH]; intros k m Hlen Hm; [done|]. rewrite pointsFrom_S, !fmap_app, <- app_assoc.
  destruct (mapAt_total hist (S k) Hvalid) as [m' Hm'].
  eapply write_accepted; [lia|done|done|]. eapply reads_accepted; [done|done|]. apply IH; [lia|done].
Qed.

(** Operations with points are linearizable. *)
Lemma explained_linearizable : linearizable (f_op <$> F).
Proof using All.
  exists (f_op <$> pointsFrom 0 (S (length hist))). split_and!.
  - by rewrite pointsFrom_perm.
  - apply points_may_precede; [apply pointsFrom_sorted|]. by intros f [? _]%pointsFrom_ge.
  - rewrite pointsFrom_S, no_write_at_0, !fmap_app. simpl.
    destruct (mapAt_total hist 0 Hvalid) as [m Hm]. assert (m = ∅) as -> by (by injection Hm).
    eapply reads_accepted; [exact Hm|done|]. by apply points_accepted.
Qed.

End linearize.
