(* ===== verification/Rebalance.v ===== *)
(** * The shard controller: configurations and [rebalance]

    The configuration type of [src/shardctrler/common.go] and the function that
    spreads the shards over the groups ([rebalance] in [server.go]).  The Go map
    of groups is iterated in an order that differs between servers and runs:
    [order] is that order, any permutation of the group ids.  The result is a
    balanced assignment, and of these one that takes the fewest shards away from
    groups that are still there. *)

From S2P Require Import Prelude.
Local Open Scope Z_scope.

Definition NShards : nat := 10.

Record Config := mkConfig {
  Num : Z;
  Shards : list Z;
  Groups : gmap Z (list string);
}.

(** [GS]: a group id and the shards it gets. *)
Abbreviation GS := (Z * list nat)%type.

(** [gid2Index]: the position of a group in [GSs]. *)
Definition reindex (GSs : list GS) : gmap Z Z :=
  list_to_map (imap (λ i gs, (gs.1, Z.of_nat i)) GSs).

(** [GSs[gid2Index[gid]]]; a missing key reads as index 0. *)
Definition gsGet (GSs : list GS) (gid2Index : gmap Z Z) (gid : Z) : outcome GS :=
  slice_get GSs (map_get 0 gid2Index gid).

Definition gsSetShards (GSs : list GS) (gid2Index : gmap Z Z) (gid : Z) (shards : list nat)
  : outcome (list GS) :=
  gs ← gsGet GSs gid2Index gid;
  slice_set GSs (map_get 0 gid2Index gid) (gs.1, shards).

(** The first loop over the shards of the old configuration: the shards of
    groups that are gone, or of the invalid group 0, are orphans. *)
Definition distribute (gid2Index : gmap Z Z) (st : list GS * list nat) (shard : nat * Z)
  : outcome (list GS * list nat) :=
  let '(GSs, orphanShards) := st in
  let '(shardNum, gid) := shard in
  if decide (gid = 0) then mret (GSs, orphanShards ++ [shardNum])
  else
    match gid2Index !! gid with
    | None => mret (GSs, orphanShards ++ [shardNum])
    | Some _ =>
        gs ← gsGet GSs gid2Index gid;
        GSs ← gsSetShards GSs gid2Index gid (gs.2 ++ [shardNum]);
        mret (GSs, orphanShards)
    end.

(** [sort.Slice(GSs, ...)] by group id.  ([sort.IntSlice(gs.Shards)] in the loop
    after it is only a conversion.) *)
Definition gidLe (a b : GS) : Prop := a.1 ≤ b.1.
#[export] Instance gidLe_dec : RelDecision gidLe.
Proof. intros a b. unfold gidLe. apply _. Defined.

Definition sortGS (GSs : list GS) : list GS := merge_sort gidLe GSs.

(** The scan for the groups with the fewest and the most shards. *)
Record extremes := mkExtremes { minShardsNum : Z; minGid : Z; maxShardsNum : Z; maxGid : Z }.

Definition scanStep (x : extremes) (gs : GS) : extremes :=
  let n := len gs.2 in
  let x := if decide (n <= minShardsNum x)
           then mkExtremes n gs.1 (maxShardsNum x) (maxGid x) else x in
  if decide (maxShardsNum x <= n) then mkExtremes (minShardsNum x) (minGid x) n gs.1 else x.

Definition scan (GSs : list GS) : extremes :=
  foldl scanStep (mkExtremes 10000000000 0 0 0) GSs.

(** The balancing loop.  Every iteration gives away an orphan or moves a shard
    from the largest group to the smallest. *)
Fixpoint balance (fuel : nat) (gid2Index : gmap Z Z) (GSs : list GS) (orphanShards : list nat)
  : outcome (list GS) :=
  match fuel with
  | O => OutOfFuel
  | S fuel =>
      let x := scan GSs in
      if decide (maxShardsNum x - minShardsNum x <= 1 ∧ len orphanShards = 0) then mret GSs
      else
        minGS ← gsGet GSs gid2Index (minGid x);
        maxGS ← gsGet GSs gid2Index (maxGid x);
        if decide (len orphanShards ≠ 0) then
          s ← slice_get orphanShards (len orphanShards - 1);
          orphanShards ← slice_upto orphanShards (len orphanShards - 1);
          GSs ← gsSetShards GSs gid2Index (minGid x) (minGS.2 ++ [s]);
          balance fuel gid2Index GSs orphanShards
        else if decide (maxShardsNum x - minShardsNum x > 1) then
          movedShard ← slice_get maxGS.2 (len maxGS.2 - 1);
          maxShards ← slice_upto maxGS.2 (len maxGS.2 - 1);
          GSs ← gsSetShards GSs gid2Index (minGid x) (minGS.2 ++ [movedShard]);
          GSs ← gsSetShards GSs gid2Index (maxGid x) maxShards;
          balance fuel gid2Index GSs orphanShards
        else balance fuel gid2Index GSs orphanShards
  end.

(** Enough iterations: the orphans, then moves that each lower the sum of the
    squares of the sizes. *)
Definition balanceFuel : nat := 1 + NShards + NShards * NShards.

(** The last loop: the owner of every shard. *)
Definition assemble (GSs : list GS) : outcome (list Z) :=
  for_range (λ shards gs,
      for_range (λ shards s, slice_set shards (Z.of_nat s) gs.1) shards gs.2)
    (replicate NShards 0) GSs.

(** The new value of [newConfig.Shards]. *)
Definition rebalance (order : list Z) (oldShards : list Z) : outcome (list Z) :=
  let GSs := (λ gid, (gid, [])) <$> order in
  let gid2Index := reindex GSs in
  if decide (len GSs = 0) then mret (replicate NShards 0)
  else
    st ← for_range (distribute gid2Index) (GSs, []) (imap pair oldShards);
    let GSs := sortGS st.1 in
    let gid2Index := list_to_map (imap (λ i gs, (gs.1, Z.of_nat i)) GSs) ∪ gid2Index in
    GSs ← balance balanceFuel gid2Index GSs st.2;
    assemble GSs.

Example rebalance_join3 :
  rebalance [3; 1; 2] [1; 1; 1; 1; 1; 1; 1; 1; 1; 1] = Ret [1; 1; 1; 1; 2; 3; 2; 3; 2; 3].
Proof. vm_compute. reflexivity. Qed.
Example rebalance_leave :
  rebalance [2; 3] [1; 1; 1; 1; 2; 3; 2; 3; 2; 3] = Ret [2; 3; 2; 3; 2; 3; 2; 3; 2; 3].
Proof. vm_compute. reflexivity. Qed.

(** ** Positions *)

(** [gi] gives the position of every group of [l]. *)
Definition indexed (gi : gmap Z Z) (l : list GS) : Prop :=
  ∀ i gs, l !! i = Some gs → gi !! gs.1 = Some (Z.of_nat i).

Lemma fst_imap_gs (l : list GS) : (imap (λ i gs, (gs.1, Z.of_nat i)) l).*1 = l.*1.
Proof.
  rewrite fmap_imap. assert (∀ (f : nat → nat), imap (λ i (gs : GS), gs.1) l = l.*1) as Hm.
  { intros _. induction l as [|gs l IH]; [done|]. simpl. f_equal. exact IH. }
  apply (Hm id).
Qed.

Lemma reindex_indexed (l : list GS) : NoDup l.*1 → indexed (reindex l) l.
Proof.
  intros Hnd i gs Hi. apply elem_of_list_to_map_1; [by rewrite fst_imap_gs|].
  apply list_elem_of_lookup. exists i. rewrite list_lookup_imap, Hi. done.
Qed.

Lemma dom_reindex (l : list GS) : dom (reindex l) = list_to_set l.*1.
Proof. unfold reindex. by rewrite dom_list_to_map_L, fst_imap_gs. Qed.

Lemma gsGet_in gi l i g ss : indexed gi l → l !! i = Some (g, ss) → gsGet l gi g = Ret (g, ss).
Proof.
  intros Hix Hi. unfold gsGet, map_get. rewrite (Hix _ _ Hi : gi !! g = _). simpl.
  by apply slice_get_nat.
Qed.

Lemma gsSetShards_in gi l i g ss ss' : indexed gi l → l !! i = Some (g, ss) →
  gsSetShards l gi g ss' = Ret (<[i := (g, ss')]> l).
Proof.
  intros Hix Hi. unfold gsSetShards. rewrite (gsGet_in _ _ _ _ _ Hix Hi), bind_Ret.
  unfold map_get. rewrite (Hix _ _ Hi : gi !! g = _). simpl. unfold slice_set.
  apply lookup_lt_Some in Hi. rewrite decide_True by (unfold len; lia). by rewrite Nat2Z.id.
Qed.

Lemma fst_insert (l : list GS) i g ss ss' : l !! i = Some (g, ss) → (<[i := (g, ss')]> l).*1 = l.*1.
Proof.
  intros Hi. rewrite list_fmap_insert. apply list_insert_id. by rewrite list_lookup_fmap, Hi.
Qed.

Lemma indexed_insert gi l i g ss ss' : indexed gi l → l !! i = Some (g, ss) →
  indexed gi (<[i := (g, ss')]> l).
Proof.
  intros Hix Hi j gs Hj. apply list_lookup_insert_Some in Hj as [(-> & <- & _)|[_ Hj]].
  - apply (Hix _ _ Hi).
  - by apply Hix.
Qed.

(** ** Sums over the groups *)

Definition sumZ (f : GS → Z) (l : list GS) : Z := foldr (λ gs n, f gs + n) 0 l.
Definition size (gs : GS) : Z := len gs.2.
Definition square (gs : GS) : Z := len gs.2 * len gs.2.

(** All the shards that have been given to a group. *)
Definition given (l : list GS) : list nat := concat (map snd l).

Lemma sumZ_insert f l i x y : l !! i = Some y → sumZ f (<[i := x]> l) = sumZ f l - f y + f x.
Proof.
  revert i. induction l as [|z l IH]; intros [|i] Hi; simplify_eq/=; [lia|]. rewrite (IH i Hi). lia.
Qed.

Lemma sumZ_cons f x l : sumZ f (x :: l) = f x + sumZ f l.
Proof. done. Qed.

Lemma sumZ_nonneg f l : (∀ gs, 0 ≤ f gs) → 0 ≤ sumZ f l.
Proof. intros Hf. induction l as [|x l IH]; simpl; [lia|]. pose proof (Hf x). lia. Qed.

Lemma size_nonneg gs : 0 ≤ size gs.
Proof. apply len_nonneg. Qed.

Lemma given_size l : len (given l) = sumZ size l.
Proof. unfold given. induction l as [|x l IH]; simpl; [done|]. by rewrite len_app, IH. Qed.

Lemma square_bound l : sumZ square l ≤ sumZ size l * sumZ size l.
Proof.
  induction l as [|x l IH]; simpl; [lia|]. pose proof (sumZ_nonneg size l size_nonneg).
  change (square x) with (size x * size x). pose proof (size_nonneg x). nia.
Qed.

Lemma size_le_given l i gs : l !! i = Some gs → len gs.2 ≤ len (given l).
Proof.
  rewrite given_size. revert i. induction l as [|x l IH]; intros [|i] Hi; simplify_eq/=.
  - pose proof (sumZ_nonneg size l size_nonneg). unfold size at 1. lia.
  - specialize (IH _ Hi). pose proof (size_nonneg x). lia.
Qed.

Lemma given_insert l i x y : l !! i = Some y → given (<[i := x]> l) ++ y.2 ≡ₚ given l ++ x.2.
Proof.
  unfold given. revert i. induction l as [|z l IH]; intros [|i] Hi; simplify_eq/=.
  - solve_Permutation.
  - rewrite <- !app_assoc. by rewrite (IH _ Hi).
Qed.

Lemma given_push l i g ss s : l !! i = Some (g, ss) → given (<[i := (g, ss ++ [s])]> l) ≡ₚ s :: given l.
Proof.
  intros Hi. pose proof (given_insert l i (g, ss ++ [s]) _ Hi) as Hp. simpl in Hp.
  rewrite app_assoc in Hp. apply (Permutation_app_inv_r ss).
  rewrite Hp. solve_Permutation.
Qed.

Lemma given_pop l i g ss s : l !! i = Some (g, ss ++ [s]) → s :: given (<[i := (g, ss)]> l) ≡ₚ given l.
Proof.
  intros Hi. pose proof (given_insert l i (g, ss) _ Hi) as Hp. simpl in Hp.
  apply (Permutation_app_inv_r ss). rewrite <- Hp. solve_Permutation.
Qed.

(** ** The scan *)

(** [x] holds the groups of [l] with the fewest and the most shards. *)
Definition extremesOf (l : list GS) (x : extremes) : Prop :=
  (∀ gs, gs ∈ l → minShardsNum x ≤ len gs.2 ≤ maxShardsNum x) ∧
  (∃ i ss, l !! i = Some (minGid x, ss) ∧ len ss = minShardsNum x) ∧
  (∃ j ss, l !! j = Some (maxGid x, ss) ∧ len ss = maxShardsNum x).

Lemma scanStep_first gs : len gs.2 ≤ 10000000000 →
  extremesOf [gs] (scanStep (mkExtremes 10000000000 0 0 0) gs).
Proof.
  intros Hn. destruct gs as [g ss]. simpl in Hn. pose proof (len_nonneg ss) as Hl.
  assert (scanStep (mkExtremes 10000000000 0 0 0) (g, ss) = mkExtremes (len ss) g (len ss) g) as ->.
  { unfold scanStep. simpl. rewrite (decide_True (P := len ss ≤ 10000000000)) by lia. simpl.
    by rewrite decide_True by lia. }
  split; [intros gs ->%list_elem_of_singleton; simpl; lia|]. split; by exists 0%nat, ss.
Qed.

Lemma scanStep_next l x gs : extremesOf l x → extremesOf (l ++ [gs]) (scanStep x gs).
Proof.
  intros (Hb & (i & ss & Hi & Hmin) & (j & ss' & Hj & Hmax)). destruct gs as [g gss].
  pose proof (Hb _ (list_elem_of_lookup_2 _ _ _ Hi)) as Hbi. simpl in Hbi.
  assert ((l ++ [(g, gss)]) !! length l = Some (g, gss)) as Hnew
    by (rewrite lookup_app_r, Nat.sub_diag by done; done).
  apply (lookup_app_l_Some _ [(g, gss)]) in Hi, Hj.
  unfold scanStep. simpl. repeat case_decide; simpl in *; (split; [|split]); simpl;
    try (intros y [Hy|Hy%list_elem_of_singleton]%elem_of_app; [pose proof (Hb _ Hy)|subst y]; simpl; lia);
    eauto.
Qed.

Lemma scan_spec l : l ≠ [] → (∀ gs, gs ∈ l → len gs.2 ≤ 10000000000) → extremesOf l (scan l).
Proof.
  unfold scan. induction l as [|gs l IH] using rev_ind; [done|]. intros _ Hn.
  rewrite foldl_snoc. destruct l as [|gs' l].
  - apply scanStep_first, Hn. set_solver.
  - apply scanStep_next, IH; [done|]. intros y Hy. apply Hn. set_solver.
Qed.

(** ** The loop *)

Definition balanced (l : list GS) : Prop := ∀ a b, a ∈ l → b ∈ l → len a.2 - len b.2 ≤ 1.

(** What the loop needs at its start. *)
Record loopOk (gi : gmap Z Z) (l : list GS) : Prop := {
  lo_indexed : indexed gi l;
  lo_nodup : NoDup l.*1;
  lo_ne : l ≠ [];
}.

Lemma loopOk_insert gi l i g ss ss' : loopOk gi l → l !! i = Some (g, ss) →
  loopOk gi (<[i := (g, ss')]> l).
Proof.
  intros [Hix Hnd Hne] Hi. split.
  - by eapply indexed_insert.
  - by rewrite (fst_insert _ _ _ _ _ Hi).
  - intros Hn. apply (f_equal length) in Hn. rewrite length_insert in Hn. by destruct l.
Qed.

(** The work that is left, when [T] bounds the number of shards. *)
Definition work (T : Z) (l : list GS) (orphans : list nat) : Z :=
  if decide (len orphans = 0) then sumZ square l else T * T + len orphans.

Lemma split_last {A} (l : list A) : len l ≠ 0 → ∃ l' x, l = l' ++ [x] ∧
  slice_get l (len l - 1) = Ret x ∧ slice_upto l (len l - 1) = Ret l'.
Proof.
  intros Hl. destruct l as [|x l' _] using rev_ind; [done|]. exists l', x. split; [done|].
  rewrite len_app, len_cons, len_nil. pose proof (len_nonneg l'). split.
  - apply slice_get_Ret. split; [lia|].
    rewrite lookup_app_r by (unfold len; lia).
    by replace (Z.to_nat _ - length l')%nat with 0%nat by (unfold len; lia).
  - apply slice_upto_Ret. split; [rewrite len_app; unfold len; simpl; lia|].
    replace (Z.to_nat (len l' + (0 + 1) - 1)) with (length l') by (unfold len; lia).
    by rewrite take_app_length.
Qed.

(** ** What the loop keeps of the old assignment

    [h] is the assignment with which the loop starts.  The loop appends to the
    shards of a group and takes from their end, but never both: a group that has
    lost a shard is too large to be the smallest one, and a group that has gained
    one is too small to be the largest. *)

Definition lost (h : Z → list nat) (gs : GS) : Prop := len gs.2 < len (h gs.1).
Definition gained (h : Z → list nat) (gs : GS) : Prop := len (h gs.1) < len gs.2.

Record greedy (h : Z → list nat) (l : list GS) (orphans : list nat) : Prop := {
  gr_prefix : ∀ a, a ∈ l → a.2 `prefix_of` h a.1 ∨ h a.1 `prefix_of` a.2;
  gr_lost : ∀ a b, a ∈ l → b ∈ l → lost h a → len b.2 ≤ len a.2 + 1;
  gr_gained : ∀ a b, a ∈ l → b ∈ l → gained h a → len a.2 ≤ len b.2 + 1;
  gr_exchange : ∀ a b, a ∈ l → b ∈ l → lost h a → gained h b → len b.2 ≤ len a.2;
  gr_orphans : orphans ≠ [] → ∀ a, a ∈ l → ¬ lost h a;
}.

(** A prefix relation that the lengths decide. *)
Lemma greedy_kept h l orphans a : greedy h l orphans → a ∈ l → ¬ lost h a → h a.1 `prefix_of` a.2.
Proof.
  intros Hg Ha Hl. destruct (gr_prefix _ _ _ Hg a Ha) as [[r Hr]|]; [|done].
  unfold lost in Hl. rewrite Hr, len_app in Hl. destruct r as [|s r]; [|rewrite len_cons in Hl].
  - rewrite app_nil_r in Hr. by rewrite Hr.
  - pose proof (len_nonneg r). lia.
Qed.

Lemma greedy_rest h l orphans a : greedy h l orphans → a ∈ l → ¬ gained h a → a.2 `prefix_of` h a.1.
Proof.
  intros Hg Ha Hl. destruct (gr_prefix _ _ _ Hg a Ha) as [|[r Hr]]; [done|].
  unfold gained in Hl. rewrite Hr, len_app in Hl. destruct r as [|s r]; [|rewrite len_cons in Hl].
  - rewrite app_nil_r in Hr. by rewrite Hr.
  - pose proof (len_nonneg r). lia.
Qed.

Lemma greedy_start h order orphans : greedy h ((λ g, (g, h g)) <$> order) orphans.
Proof.
  assert (∀ a, a ∈ (λ g, (g, h g)) <$> order → a.2 = h a.1) as Ha
    by (intros a (g & -> & _)%list_elem_of_fmap; done).
  split; unfold lost, gained.
  - intros a Hin. left. by rewrite (Ha a Hin).
  - intros a b Hin _. rewrite (Ha a Hin). lia.
  - intros a b Hin _. rewrite (Ha a Hin). lia.
  - intros a b Hin _. rewrite (Ha a Hin). lia.
  - intros _ a Hin. rewrite (Ha a Hin). lia.
Qed.

Lemma elem_of_insert_gs (l : list GS) i x a : a ∈ <[i := x]> l → a = x ∨ a ∈ l.
Proof.
  intros [j Hj]%list_elem_of_lookup. apply list_lookup_insert_Some in Hj as [(_ & <- & _)|[_ Hj]]; [by left|].
  right. by eapply list_elem_of_lookup_2.
Qed.

(** An orphan goes to the smallest group. *)
Lemma greedy_give h l os o i g ss : greedy h l (os ++ [o]) → l !! i = Some (g, ss) →
  (∀ b, b ∈ l → len ss ≤ len b.2) → greedy h (<[i := (g, ss ++ [o])]> l) os.
Proof.
  intros Hg Hi Hmin. apply list_elem_of_lookup_2 in Hi as Hin.
  assert (∀ a, a ∈ l → ¬ lost h a) as Hno by (apply (gr_orphans _ _ _ Hg); by destruct os).
  assert (∀ a, a ∈ <[i := (g, ss ++ [o])]> l → ¬ lost h a) as Hno'.
  { intros a [->|Ha]%elem_of_insert_gs; [|by apply Hno]. specialize (Hno _ Hin). unfold lost in *. simpl in *.
    rewrite len_app, len_cons, len_nil. lia. }
  split; [|by intros a b Ha%Hno'| |by intros a b Ha%Hno'|done].
  - intros a [->|Ha]%elem_of_insert_gs; [|by apply (gr_prefix _ _ _ Hg)]. right. simpl.
    exact (prefix_app_r _ _ _ (greedy_kept h l _ (g, ss) Hg Hin (Hno _ Hin))).
  - assert (∀ a, a ∈ l → gained h a → len a.2 ≤ len ss + 1) as Hgain
      by (intros a Ha; exact (gr_gained _ _ _ Hg a (g, ss) Ha Hin)).
    intros a b [->|Ha]%elem_of_insert_gs [->|Hb]%elem_of_insert_gs Hga; simpl in *;
      rewrite ?len_app, ?len_cons, ?len_nil; try lia.
    + specialize (Hmin b Hb). lia.
    + specialize (Hgain a Ha Hga). lia.
    + by apply (gr_gained _ _ _ Hg).
Qed.

(** A shard of the largest group goes to the smallest. *)
Lemma greedy_move h l i j g ss k ms m : greedy h l [] → i ≠ j →
  l !! i = Some (g, ss) → l !! j = Some (k, ms ++ [m]) →
  (∀ b, b ∈ l → len ss ≤ len b.2 ≤ len ms + 1) → len ss < len ms →
  greedy h (<[j := (k, ms)]> (<[i := (g, ss ++ [m])]> l)) [].
Proof.
  intros Hg Hij Hi Hj Hb Hgap. apply list_elem_of_lookup_2 in Hi as Hin, Hj as Hjn.
  assert (¬ lost h (g, ss)) as Hnl.
  { intros Hl. pose proof (gr_lost _ _ _ Hg _ _ Hin Hjn Hl) as Hc. simpl in Hc.
    rewrite len_app, len_cons, len_nil in Hc. lia. }
  assert (¬ gained h (k, ms ++ [m])) as Hng.
  { intros Hl. pose proof (gr_gained _ _ _ Hg _ _ Hjn Hin Hl) as Hc. simpl in Hc.
    rewrite len_app, len_cons, len_nil in Hc. lia. }
  pose proof (greedy_kept _ _ _ _ Hg Hin Hnl) as Hpi. pose proof (greedy_rest _ _ _ _ Hg Hjn Hng) as Hpj.
  assert (∀ a, a ∈ <[j := (k, ms)]> (<[i := (g, ss ++ [m])]> l) →
    a = (k, ms) ∧ ¬ gained h a ∨ a = (g, ss ++ [m]) ∧ ¬ lost h a ∨ a ∈ l) as Hcases.
  { intros a [->|[->|Ha]%elem_of_insert_gs]%elem_of_insert_gs; [left|right; left|by right; right];
      (split; [done|]); unfold lost, gained in *; simpl in *; rewrite ?len_app, ?len_cons, ?len_nil in *; lia. }
  assert (∀ a, a ∈ l → lost h a → len ms ≤ len a.2) as Hlost.
  { intros a Ha Hl. pose proof (gr_lost _ _ _ Hg _ _ Ha Hjn Hl) as Hc. simpl in Hc.
    rewrite len_app, len_cons, len_nil in Hc. lia. }
  assert (∀ a, a ∈ l → gained h a → len a.2 ≤ len ss + 1) as Hgain
      by (intros a Ha; exact (gr_gained _ _ _ Hg a (g, ss) Ha Hin)).
  assert (len (ss ++ [m]) = len ss + 1) as El by (by rewrite len_app, len_cons, len_nil).
  split; [| | | |done].
  - intros a [[-> _]|[[-> _]|Ha]]%Hcases; [left|right|by apply (gr_prefix _ _ _ Hg)]; simpl in *.
    + etrans; [|exact Hpj]. by apply prefix_app_r.
    + by apply prefix_app_r.
  - intros a b [[-> _]|[[-> Hn]|Ha]]%Hcases [[-> _]|[[-> _]|Hbl]]%Hcases Hl; try done; simpl in *; rewrite ?El; try lia.
    + by apply Hb.
    + specialize (Hlost a Ha Hl). lia.
    + specialize (Hlost a Ha Hl). lia.
    + by apply (gr_lost _ _ _ Hg).
  - intros a b [[-> Hn]|[[-> _]|Ha]]%Hcases [[-> _]|[[-> _]|Hbl]]%Hcases Hl; try done; simpl in *; rewrite ?El; try lia.
    + specialize (Hb b Hbl). lia.
    + specialize (Hgain a Ha Hl). lia.
    + specialize (Hgain a Ha Hl). lia.
    + by apply (gr_gained _ _ _ Hg).
  - intros a b [[-> _]|[[-> Hn]|Ha]]%Hcases [[-> Hn']|[[-> _]|Hbl]]%Hcases Hl Hl'; try done; simpl in *; rewrite ?El; try lia.
    + specialize (Hgain b Hbl Hl'). lia.
    + specialize (Hlost a Ha Hl). lia.
    + by apply (gr_exchange _ _ _ Hg).
Qed.

Lemma balance_spec h T fuel gi l orphans :
  loopOk gi l → greedy h l orphans → len (given l ++ orphans) ≤ T → T ≤ 10000000000 →
  work T l orphans < Z.of_nat fuel →
  ∃ l', balance fuel gi l orphans = Ret l' ∧ l'.*1 = l.*1 ∧ given l' ≡ₚ given l ++ orphans ∧ balanced l' ∧
    greedy h l' [].
Proof.
  revert l orphans. induction fuel as [|fuel IH]; intros l orphans Hok Hgr HT Hbig Hw.
  { unfold work in Hw. pose proof (sumZ_nonneg square l (λ gs, Z.square_nonneg (len gs.2))).
    pose proof (len_nonneg orphans). case_decide; nia. }
  rewrite len_app in HT. pose proof (len_nonneg orphans) as Ho.
  destruct (scan_spec l (lo_ne _ _ Hok)) as (Hb & (i & ss & Hi & Hmin) & (j & ss' & Hj & Hmax)).
  { intros gs [k Hk]%list_elem_of_lookup. pose proof (size_le_given _ _ _ Hk). lia. }
  simpl. set (x := scan l) in *. clearbody x.
  rewrite (gsGet_in gi l i (minGid x) ss), (gsGet_in gi l j (maxGid x) ss'), !bind_Ret by (done || apply Hok).
  case_decide as Hstop.
  { exists l. split; [done|]. split; [done|]. destruct orphans as [|o os]; [|rewrite len_cons in Hstop; pose proof (len_nonneg os); lia].
    rewrite app_nil_r. split; [done|]. split; [|done]. intros a b Ha%Hb Hb'%Hb. lia. }
  case_decide as Horph.
  - destruct (split_last orphans Horph) as (os & o & Heq & Hget & Hupto).
    rewrite Hget, bind_Ret, Hupto, bind_Ret, (gsSetShards_in gi l i _ ss) by (done || apply Hok).
    rewrite bind_Ret. pose proof (given_push l i _ ss o Hi) as Hgp. simpl snd.
    destruct (IH (<[i := (minGid x, ss ++ [o])]> l) os) as (l' & Hr & Hf & Hg & Hbal & Hgr').
    + by eapply loopOk_insert.
    + apply greedy_give; [by rewrite <- Heq|done|]. intros b Hbl. rewrite Hmin. by apply Hb.
    + rewrite len_app. unfold len at 1. rewrite Hgp. subst orphans.
      rewrite len_app, len_cons, len_nil in HT. simpl. unfold len in *. lia.
    + done.
    + unfold work in *. rewrite decide_False in Hw by done. subst orphans.
      rewrite len_app, len_cons, len_nil in *. case_decide; [|lia].
      pose proof (square_bound (<[i := (minGid x, ss ++ [o])]> l)) as Hsq.
      rewrite <- given_size in Hsq. unfold len at 1 2 in Hsq. rewrite Hgp in Hsq. simpl in Hsq.
      unfold len in *. nia.
    + exists l'. split; [done|]. rewrite Hf, (fst_insert _ _ _ _ _ Hi).
      split; [done|]. split; [|done]. rewrite Hg, Hgp, Heq. solve_Permutation.
  - rewrite decide_True by lia.
    destruct (split_last ss' ltac:(pose proof (len_nonneg ss); lia)) as (ms & m & Heq & Hget & Hupto).
    cbn [snd]. rewrite Hget, bind_Ret, Hupto, bind_Ret, (gsSetShards_in gi l i _ ss), bind_Ret
      by (done || apply Hok).
    assert (i ≠ j) as Hij by (intros ->; rewrite Hi in Hj; simplify_eq; lia).
    assert (<[i := (minGid x, ss ++ [m])]> l !! j = Some (maxGid x, ss')) as Hj'
      by (by rewrite list_lookup_insert_ne).
    assert (loopOk gi (<[i := (minGid x, ss ++ [m])]> l)) as Hok1 by (by eapply loopOk_insert).
    rewrite (gsSetShards_in gi _ j _ ss'), bind_Ret by (done || apply Hok1).
    pose proof (given_push l i _ ss m Hi) as Hg1.
    pose proof Hj' as Hpop. rewrite Heq in Hpop. apply given_pop in Hpop.
    rewrite Hg1 in Hpop. apply Permutation_cons_inv in Hpop.
    destruct (IH (<[j := (maxGid x, ms)]> (<[i := (minGid x, ss ++ [m])]> l)) orphans)
      as (l' & Hr & Hf & Hg & Hbal & Hgr').
    + by eapply loopOk_insert.
    + destruct orphans as [|o os]; [|rewrite len_cons in Horph; pose proof (len_nonneg os); lia].
      assert (len ss' = len ms + 1) as Hl1 by (by rewrite Heq, len_app, len_cons, len_nil).
      apply greedy_move; [done|done|done|by rewrite <- Heq| |lia]. intros b Hbl. specialize (Hb b Hbl). lia.
    + rewrite len_app. unfold len at 1. rewrite Hpop. unfold len in *. lia.
    + done.
    + unfold work in *. rewrite decide_True in Hw |- * by done.
      rewrite (sumZ_insert _ _ _ _ _ Hj'), (sumZ_insert _ _ _ _ _ Hi). unfold square. simpl snd.
      assert (len ss' = len ms + 1) as Hl1 by (by rewrite Heq, len_app, len_cons, len_nil).
      rewrite (len_app ss), len_cons, len_nil. fold square. pose proof (len_nonneg ms). nia.
    + exists l'. split; [done|]. rewrite Hf, (fst_insert _ _ _ _ _ Hj'), (fst_insert _ _ _ _ _ Hi).
      split; [done|]. split; [|done]. by rewrite Hg, Hpop.
Qed.

(** ** The first loop *)

(** The groups of [order], each with the shards that [h] gives it. *)
Definition groupsWith (h : Z → list nat) (order : list Z) : list GS := (λ g, (g, h g)) <$> order.

(** A shard goes to its old group if that is valid and still there. *)
Definition keeps (order : list Z) (g : Z) : Prop := g ≠ 0 ∧ g ∈ order.

Definition ownedBy (order : list Z) (shards : list (nat * Z)) (g : Z) : list nat :=
  (filter (λ p, p.2 = g ∧ keeps order g) shards).*1.
Definition orphansOf (order : list Z) (shards : list (nat * Z)) : list nat :=
  (filter (λ p, ¬ keeps order p.2) shards).*1.

Lemma groupsWith_fst h order : (groupsWith h order).*1 = order.
Proof. unfold groupsWith. rewrite <- list_fmap_compose. apply list_fmap_id. Qed.

Lemma groupsWith_ext h h' order : (∀ g, g ∈ order → h g = h' g) → groupsWith h order = groupsWith h' order.
Proof. intros Hh. apply list_fmap_ext. intros i g Hg. by rewrite Hh by (by eapply list_elem_of_lookup_2). Qed.

Lemma groupsWith_insert h order i g ss : NoDup order → order !! i = Some g →
  <[i := (g, ss)]> (groupsWith h order) = groupsWith (λ g', if decide (g' = g) then ss else h g') order.
Proof.
  intros Hnd Hi. apply list_eq. intros j. unfold groupsWith.
  destruct (decide (i = j)) as [<-|Hne].
  - rewrite list_lookup_insert_eq by (rewrite length_fmap; by eapply lookup_lt_Some).
    rewrite list_lookup_fmap, Hi. simpl. by rewrite decide_True by done.
  - rewrite list_lookup_insert_ne, !list_lookup_fmap by done.
    destruct (order !! j) as [g'|] eqn:Hj; [|done]. simpl. rewrite decide_False; [done|].
    intros ->. by apply Hne, (NoDup_lookup order i j g).
Qed.

Lemma distribute_all order gi h orphans shards : NoDup order →
  indexed gi (groupsWith h order) → (∀ g, is_Some (gi !! g) ↔ g ∈ order) →
  for_range (distribute gi) (groupsWith h order, orphans) shards =
    Ret (groupsWith (λ g, h g ++ ownedBy order shards g) order, orphans ++ orphansOf order shards).
Proof.
  intros Hnd. revert h orphans. induction shards as [|[n g] shards IH]; intros h orphans Hix Hgi.
  { simpl. unfold mret, outcome_mret. do 2 f_equal; [|by rewrite app_nil_r].
    apply groupsWith_ext. intros g _. unfold ownedBy. by rewrite app_nil_r. }
  cbn [for_range]. unfold distribute at 2.
  assert (∀ st, ¬ keeps order g → st = mret (groupsWith h order, orphans ++ [n]) →
    st ≫= (λ acc, for_range (distribute gi) acc shards) =
    Ret (groupsWith (λ g0, h g0 ++ ownedBy order ((n, g) :: shards) g0) order,
         orphans ++ orphansOf order ((n, g) :: shards))) as Horph.
  { intros st Hk ->. rewrite bind_mret, IH by done. do 2 f_equal.
    - apply groupsWith_ext. intros g' _. unfold ownedBy. rewrite filter_cons_False; [done|].
      simpl. intros [-> ?]. done.
    - unfold orphansOf. rewrite filter_cons_True by done. simpl. by rewrite <- app_assoc. }
  cbv beta iota zeta. case_decide as H0; [apply Horph; [unfold keeps; tauto|done]|].
  destruct (gi !! g) as [k|] eqn:Hg.
  - assert (g ∈ order) as Hin by (apply Hgi; by exists k).
    apply list_elem_of_lookup in Hin as Hi. destruct Hi as [i Hi].
    assert (groupsWith h order !! i = Some (g, h g)) as Hl
      by (unfold groupsWith; by rewrite list_lookup_fmap, Hi).
    rewrite (gsGet_in _ _ _ _ _ Hix Hl), bind_Ret, (gsSetShards_in _ _ _ _ _ _ Hix Hl), bind_Ret.
    pose proof (indexed_insert _ _ _ _ _ (h g ++ [n]) Hix Hl) as Hix'.
    simpl snd. rewrite groupsWith_insert in Hix' |- * by done. rewrite bind_mret, IH by done.
    do 2 f_equal.
    + apply groupsWith_ext. intros g' _. unfold ownedBy. rewrite filter_cons. simpl.
      assert (keeps order g) by done.
      destruct (decide (g' = g)) as [->|Hne].
      * rewrite decide_True by done. simpl. by rewrite <- app_assoc.
      * rewrite decide_False by naive_solver. done.
    + unfold orphansOf. rewrite filter_cons_False; [done|]. simpl. intros Hk. by apply Hk.
  - apply Horph; [|done]. intros [_ Hin]. apply Hgi in Hin as [k Hk]. congruence.
Qed.

(** Every shard has been given to a group or is an orphan. *)
Lemma given_groups h order : given (groupsWith h order) = concat (h <$> order).
Proof. unfold given, groupsWith. by rewrite map_map. Qed.

Lemma concat_owned order shards l : NoDup l → (∀ g, g ∈ l → g ∈ order) →
  concat (ownedBy order shards <$> l) ≡ₚ (filter (λ p, p.2 ∈ l ∧ keeps order p.2) shards).*1.
Proof.
  induction l as [|g l IH]; intros Hnd Hsub.
  { simpl. induction shards as [|p ps IH]; [done|]. rewrite filter_cons_False; [done|].
    intros [[]%not_elem_of_nil _]. }
  apply NoDup_cons in Hnd as [Hg Hnd]. rewrite fmap_cons. simpl. rewrite IH by (done || set_solver).
  clear IH. unfold ownedBy. induction shards as [|[n x] ps IH]; [done|].
  rewrite !filter_cons. simpl. specialize (Hsub g (list_elem_of_here _ _)).
  destruct (decide (x = g ∧ keeps order g)) as [[-> Hk]|Hx].
  - rewrite (decide_False (P := g ∈ l ∧ _)) by tauto.
    rewrite decide_True by (split; [left|done]). simpl. by rewrite IH.
  - destruct (decide (x ∈ l ∧ keeps order x)) as [[Hxl Hk]|Hxl].
    + rewrite decide_True by (split; [by right|done]). rewrite !fmap_cons. simpl.
      rewrite <- IH. solve_Permutation.
    + rewrite decide_False; [done|]. intros [[->|Hin]%elem_of_cons Hk]; tauto.
Qed.

Lemma filter_split {A} (P : A → Prop) `{!∀ x, Decision (P x)} (l : list A) :
  filter P l ++ filter (λ x, ¬ P x) l ≡ₚ l.
Proof.
  induction l as [|x l IH]; [done|]. rewrite !filter_cons. destruct (decide (P x)) as [Hp|Hp].
  - rewrite decide_False by tauto. simpl. by rewrite IH.
  - rewrite decide_True by done. rewrite <- Permutation_middle. by rewrite IH.
Qed.

Lemma shards_placed order shards : NoDup order →
  given (groupsWith (ownedBy order shards) order) ++ orphansOf order shards ≡ₚ shards.*1.
Proof.
  intros Hnd. rewrite given_groups, concat_owned by done. unfold orphansOf.
  rewrite <- fmap_app. apply Permutation_map.
  rewrite (list_filter_iff _ (λ p, keeps order p.2)) by (unfold keeps; tauto).
  apply filter_split.
Qed.

(** ** Sorting: the order of the map does not matter *)

Lemma sortGS_canon h order : sortGS (groupsWith h order) = groupsWith h (merge_sort Z.le order).
Proof.
  set (l := sortGS (groupsWith h order)).
  assert (l ≡ₚ groupsWith h order) as Hp by apply merge_sort_Permutation.
  assert (l = groupsWith h l.*1) as Hl.
  { assert (∀ gs, gs ∈ l → gs = (gs.1, h gs.1)) as Hgs.
    { intros gs Hgs. rewrite Hp in Hgs. apply list_elem_of_fmap in Hgs as (g & -> & _). done. }
    clear Hp. unfold groupsWith. clearbody l. induction l as [|gs l IH]; [done|]. simpl.
    rewrite <- Hgs by set_solver. f_equal. apply IH. set_solver. }
  rewrite Hl. f_equal. apply (StronglySorted_unique Z.le).
  - assert (StronglySorted gidLe l) as Hs.
    { apply Sorted_StronglySorted; [intros a b c; unfold gidLe; lia|].
      apply Sorted_merge_sort. intros a b. unfold gidLe. lia. }
    clear -Hs. induction Hs as [|gs l Hs IH Hf]; simpl; constructor; [done|].
    apply Forall_fmap. exact Hf.
  - apply Sorted_StronglySorted; [intros a b c; lia|]. apply Sorted_merge_sort. intros a b. lia.
  - rewrite Hp, groupsWith_fst. symmetry. apply merge_sort_Permutation.
Qed.

Lemma merge_sort_order order order' : order ≡ₚ order' → merge_sort Z.le order = merge_sort Z.le order'.
Proof.
  intros Hp. apply (StronglySorted_unique Z.le).
  - apply Sorted_StronglySorted; [intros a b c; lia|]. apply Sorted_merge_sort. intros a b. lia.
  - apply Sorted_StronglySorted; [intros a b c; lia|]. apply Sorted_merge_sort. intros a b. lia.
  - by rewrite !merge_sort_Permutation.
Qed.

(** The table of positions is the one of the sorted list. *)
Lemma reindex_union (l : list GS) (old : gmap Z Z) : dom old ⊆ dom (reindex l) → reindex l ∪ old = reindex l.
Proof.
  intros Hd. apply map_eq. intros k. rewrite lookup_union.
  destruct (reindex l !! k) as [x|] eqn:Hk; [by destruct (old !! k)|].
  destruct (old !! k) as [y|] eqn:Ho; [|done]. exfalso.
  apply not_elem_of_dom in Hk. apply Hk, Hd. by apply elem_of_dom.
Qed.

(** ** The last loop *)

(** The owners, shard by shard. *)
Definition owners (l : list GS) : list (nat * Z) := concat (map (λ gs, (λ s, (s, gs.1)) <$> gs.2) l).

Lemma owners_fst l : (owners l).*1 = given l.
Proof.
  unfold owners, given. induction l as [|gs l IH]; [done|]. simpl. rewrite fmap_app, IH. f_equal.
  rewrite <- list_fmap_compose. apply list_fmap_id.
Qed.

Definition setAll (ps : list (nat * Z)) (a : list Z) : list Z :=
  foldl (λ a p, <[p.1 := p.2]> a) a ps.

Lemma setAll_length ps a : length (setAll ps a) = length a.
Proof.
  revert a. induction ps as [|p ps IH]; intros a; [done|]. simpl. by rewrite IH, length_insert.
Qed.

Lemma assemble_eq l a : (∀ s, s ∈ given l → (s < length a)%nat) →
  for_range (λ shards gs, for_range (λ shards s, slice_set shards (Z.of_nat s) gs.1) shards gs.2) a l
    = Ret (setAll (owners l) a).
Proof.
  revert a. induction l as [|[g ss] l IH]; intros a Hs; [done|]. cbn [for_range].
  assert (∀ b, (∀ s, s ∈ ss → (s < length b)%nat) →
    for_range (λ shards s, slice_set shards (Z.of_nat s) g) b ss
      = Ret (setAll ((λ s, (s, g)) <$> ss) b)) as Hin.
  { clear. induction ss as [|s ss IH]; intros b Hb; [done|]. cbn [for_range].
    rewrite slice_set_in by (pose proof (Hb s ltac:(set_solver)); unfold len; lia).
    rewrite bind_Ret, Nat2Z.id, IH; [done|]. intros x Hx. rewrite length_insert. apply Hb. set_solver. }
  assert (∀ s, s ∈ ss ∨ s ∈ given l → (s < length a)%nat) as Hs'.
  { intros s Hx. apply Hs. unfold given. simpl. apply elem_of_app. tauto. }
  simpl fst. simpl snd. rewrite Hin by auto. rewrite bind_Ret, IH.
  - unfold setAll, owners. simpl. by rewrite foldl_app.
  - intros s Hx. rewrite setAll_length. auto.
Qed.

Lemma setAll_lookup ps a s g : NoDup ps.*1 → (s, g) ∈ ps → (s < length a)%nat →
  setAll ps a !! s = Some g.
Proof.
  revert a. induction ps as [|[s' g'] ps IH]; intros a Hnd Hin Hlt; [by apply not_elem_of_nil in Hin|].
  simpl in Hnd. apply NoDup_cons in Hnd as [Hs' Hnd]. simpl.
  apply elem_of_cons in Hin as [Heq|Hin].
  - injection Heq as <- <-. assert (∀ b, b !! s = Some g → setAll ps b !! s = Some g) as Hkeep.
    { clear -Hs'. induction ps as [|[s1 g1] ps IH]; intros b Hb; [done|]. simpl.
      simpl in Hs'. apply not_elem_of_cons in Hs' as [Hne Hs'].
      apply IH; [done|]. by rewrite list_lookup_insert_ne by done. }
    apply Hkeep. by apply list_lookup_insert_eq.
  - apply IH; [done|done|]. by rewrite length_insert.
Qed.

(** ** Counting the shards of a group *)

Definition count (g : Z) (shards : list Z) : Z := len (filter (λ x, x = g) shards).

Lemma imap_pair_fst {A} (l : list A) : (imap pair l).*1 = seq 0 (length l).
Proof.
  apply list_eq. intros i. rewrite list_lookup_fmap, list_lookup_imap.
  destruct (l !! i) as [x|] eqn:Hi; simpl.
  - apply lookup_lt_Some in Hi. symmetry. by apply lookup_seq_lt.
  - apply lookup_ge_None in Hi. symmetry. by apply lookup_seq_ge.
Qed.

Lemma imap_pair_snd {A} (l : list A) : (imap pair l).*2 = l.
Proof.
  apply list_eq. intros i. rewrite list_lookup_fmap, list_lookup_imap. by destruct (l !! i).
Qed.

Lemma count_snd g (ps : list (nat * Z)) : count g ps.*2 = len (filter (λ p, p.2 = g) ps).*1.
Proof.
  unfold count. induction ps as [|p ps IH]; [done|]. rewrite fmap_cons, !filter_cons.
  case_decide; rewrite ?fmap_cons, ?len_cons; by rewrite IH.
Qed.

Lemma NoDup_given l gs : NoDup (given l) → gs ∈ l → NoDup gs.2.
Proof.
  unfold given. induction l as [|x l IH]; intros Hnd Hin; [by apply not_elem_of_nil in Hin|].
  simpl in Hnd. apply NoDup_app in Hnd as (H1 & _ & H2).
  apply elem_of_cons in Hin as [->|Hin]; [done|by apply IH].
Qed.

Lemma elem_of_owners l s g : (s, g) ∈ owners l ↔ ∃ ss, (g, ss) ∈ l ∧ s ∈ ss.
Proof.
  unfold owners. rewrite list_elem_of_In, in_concat. setoid_rewrite in_map_iff.
  setoid_rewrite <- list_elem_of_In. split.
  - intros (x & ([g' ss] & <- & Hgs) & Hx). apply list_elem_of_fmap in Hx as (s' & Heq & Hs).
    simplify_eq/=. eauto.
  - intros (ss & Hgs & Hs). exists ((λ s, (s, g)) <$> ss). split; [by exists (g, ss)|].
    apply list_elem_of_fmap. eauto.
Qed.

(** The result of the last loop, from the groups at its start. *)
Lemma assembled n l : given l ≡ₚ seq 0 n → NoDup l.*1 →
  let res := setAll (owners l) (replicate n 0) in
  (∀ s g, res !! s = Some g ↔ (s, g) ∈ owners l) ∧
  (∀ g ss, (g, ss) ∈ l → count g res = len ss).
Proof.
  intros Hg Hnd res.
  assert (NoDup (owners l).*1) as Hno by (rewrite owners_fst, Hg; apply NoDup_seq).
  assert (∀ s g, res !! s = Some g ↔ (s, g) ∈ owners l) as Hlk.
  { assert (∀ s g, (s, g) ∈ owners l → res !! s = Some g) as Hset.
    { intros s g Hin. apply setAll_lookup; [done|done|]. rewrite length_replicate.
      assert (s ∈ given l) as Hs by (rewrite <- owners_fst; apply list_elem_of_fmap; by exists (s, g)).
      rewrite Hg, elem_of_seq in Hs. lia. }
    intros s g. split; [|apply Hset]. intros Hs. pose proof (lookup_lt_Some _ _ _ Hs) as Hlt.
    unfold res in Hlt. rewrite setAll_length, length_replicate in Hlt.
    assert (s ∈ given l) as Hin by (rewrite Hg, elem_of_seq; lia).
    rewrite <- owners_fst in Hin. apply list_elem_of_fmap in Hin as ([s' g'] & -> & Hin).
    simpl in *. rewrite (Hset _ _ Hin) in Hs. congruence. }
  split; [done|]. intros g ss Hgs. rewrite <- (imap_pair_snd res), count_snd. unfold len. f_equal.
  apply Permutation_length, NoDup_Permutation.
  - eapply sublist_NoDup; [|apply fmap_sublist, sublist_filter]. rewrite imap_pair_fst. apply NoDup_seq.
  - apply (NoDup_given l (g, ss)); [|done]. rewrite Hg. apply NoDup_seq.
  - intros s. rewrite list_elem_of_fmap. split.
    + intros ([s' x] & -> & [Hx Hin]%list_elem_of_filter). simpl in Hx. subst x.
      apply elem_of_lookup_imap in Hin as (i & y & Heq & Hi). simplify_eq.
      apply Hlk, elem_of_owners in Hi as (ss' & Hgs' & Hs).
      apply list_elem_of_lookup in Hgs as [a Ha], Hgs' as [b Hb].
      assert (a = b) as ->; [|by simplify_eq/=].
      apply (NoDup_lookup l.*1 a b y); [done| |]; by rewrite list_lookup_fmap, ?Ha, ?Hb.
    + intros Hs. exists (s, g). split; [done|]. apply list_elem_of_filter. split; [done|].
      apply elem_of_lookup_imap. exists s, g. split; [done|]. apply Hlk, elem_of_owners. eauto.
Qed.

(** ** [rebalance] *)

Lemma rebalance_groups order old : NoDup order → order ≠ [] →
  let h := ownedBy order (imap pair old) in
  let l := groupsWith h (merge_sort Z.le order) in
  rebalance order old =
    (GSs ← balance balanceFuel (reindex l) l (orphansOf order (imap pair old)); assemble GSs).
Proof.
  intros Hnd Hne h l. unfold rebalance.
  change ((λ gid, (gid, [])) <$> order) with (groupsWith (λ _, []) order).
  rewrite decide_False by (unfold groupsWith, len; rewrite length_fmap; destruct order; naive_solver).
  rewrite distribute_all; [| done | |].
  - rewrite bind_Ret. simpl fst. simpl snd.
    rewrite (groupsWith_ext _ h) by done. rewrite sortGS_canon. fold l.
    change (list_to_map (imap (λ i gs, (gs.1, Z.of_nat i)) l)) with (reindex l).
    rewrite reindex_union; [done|]. rewrite !dom_reindex. unfold l. rewrite !groupsWith_fst.
    intros g. by rewrite !elem_of_list_to_set, merge_sort_Permutation.
  - apply reindex_indexed. by rewrite groupsWith_fst.
  - intros g. rewrite <- elem_of_dom, dom_reindex, elem_of_list_to_set. by rewrite groupsWith_fst.
Qed.

Lemma rebalance_result order old : NoDup order → order ≠ [] → length old = NShards →
  ∃ l, rebalance order old = Ret (setAll (owners l) (replicate NShards 0)) ∧
       l.*1 ≡ₚ order ∧ given l ≡ₚ seq 0 NShards ∧ balanced l ∧
       greedy (ownedBy order (imap pair old)) l [].
Proof.
  intros Hnd Hne Hold. rewrite rebalance_groups by done. cbv zeta.
  set (h := ownedBy order (imap pair old)). set (l0 := groupsWith h (merge_sort Z.le order)).
  set (os := orphansOf order (imap pair old)).
  assert (merge_sort Z.le order ≡ₚ order) as Hp by apply merge_sort_Permutation.
  assert (given l0 ++ os ≡ₚ seq 0 NShards) as Hg.
  { transitivity (given (groupsWith h order) ++ os).
    - apply Permutation_app_tail. unfold l0. rewrite !given_groups. by rewrite Hp.
    - unfold h, os. by rewrite shards_placed, imap_pair_fst, Hold. }
  assert (loopOk (reindex l0) l0) as Hok.
  { assert (NoDup l0.*1) by (unfold l0; by rewrite groupsWith_fst, Hp).
    split; [by apply reindex_indexed|done|]. intros Hn. apply Hne.
    apply (f_equal (λ x, x.*1)) in Hn. unfold l0 in Hn. rewrite groupsWith_fst in Hn. simpl in Hn.
    rewrite Hn in Hp. by apply Permutation_nil in Hp. }
  pose proof (Permutation_length Hg) as Hlen. rewrite length_seq in Hlen.
  destruct (balance_spec h 10 balanceFuel (reindex l0) l0 os) as (l & -> & Hf & Hgl & Hb & Hgr).
  - done.
  - apply greedy_start.
  - unfold len. rewrite Hlen. done.
  - lia.
  - unfold work. rewrite length_app in Hlen. pose proof (square_bound l0) as Hsq.
    rewrite <- given_size in Hsq. change (Z.of_nat balanceFuel) with 111. unfold len, NShards in *.
    case_decide; nia.
  - exists l. rewrite bind_Ret. unfold assemble. rewrite Hg in Hgl. rewrite assemble_eq.
    + split; [done|]. split; [|done]. rewrite Hf. unfold l0. by rewrite groupsWith_fst.
    + intros s. rewrite Hgl, elem_of_seq, length_replicate. lia.
Qed.

(** ** Moving as few shards as possible *)

(** The number of shards that leave a group that is still there. *)
Definition moved (order old new : list Z) : Z :=
  len (filter (λ p, keeps order p.2 ∧ new !! p.1 ≠ Some p.2) (imap pair old)).

(** What group [g] has lost from [ss], its old shards, in assignment [new]. *)
Definition leaving (new : list Z) (g : Z) (ss : list nat) : Z := len (filter (λ s, new !! s ≠ Some g) ss).

Lemma len_filter_or {A} (P Q : A → Prop) `{!∀ x, Decision (P x)} `{!∀ x, Decision (Q x)} l :
  (∀ x, P x → Q x → False) → len (filter (λ x, P x ∨ Q x) l) = len (filter P l) + len (filter Q l).
Proof.
  intros Hd. induction l as [|x l IH]; [done|]. rewrite !filter_cons.
  destruct (decide (P x)), (decide (Q x)); [by exfalso; eauto|..];
    [rewrite decide_True by auto|rewrite decide_True by auto|rewrite decide_False by tauto];
    rewrite ?len_cons, IH; lia.
Qed.

Lemma leaving_owned order new g (ps : list (nat * Z)) :
  len (filter (λ p, (p.2 = g ∧ keeps order g) ∧ new !! p.1 ≠ Some g) ps)
    = leaving new g (ownedBy order ps g).
Proof.
  unfold leaving, ownedBy. induction ps as [|p ps IH]; [done|]. rewrite !filter_cons.
  destruct (decide (p.2 = g ∧ keeps order g)).
  - rewrite fmap_cons, filter_cons. destruct (decide (new !! p.1 ≠ Some g)).
    + rewrite decide_True by tauto. by rewrite !len_cons, IH.
    + by rewrite decide_False by tauto.
  - by rewrite decide_False by tauto.
Qed.

Lemma moved_sum order old new (l : list GS) : NoDup l.*1 → l.*1 ≡ₚ order →
  moved order old new = sumZ (λ gs, leaving new gs.1 (ownedBy order (imap pair old) gs.1)) l.
Proof.
  intros Hnd Hp. unfold moved. generalize (imap pair old) as ps. intros ps.
  transitivity (len (filter (λ p, (p.2 ∈ l.*1 ∧ keeps order p.2) ∧ new !! p.1 ≠ Some p.2) ps)).
  { f_equal. apply list_filter_iff. intros p. unfold keeps. rewrite Hp. tauto. }
  clear Hp. induction l as [|[g ss] l IH].
  { simpl. induction ps as [|p ps IH]; [done|]. rewrite filter_cons_False; [done|].
    intros [[[]%not_elem_of_nil _] _]. }
  simpl in Hnd. apply NoDup_cons in Hnd as [Hg Hnd]. rewrite sumZ_cons, <- (IH Hnd). cbn [fst].
  rewrite <- leaving_owned, <- len_filter_or; [|intros p [[-> _] _] [[? _] _]; done].
  f_equal. apply list_filter_iff. intros p. rewrite fmap_cons. cbn [fst]. rewrite elem_of_cons.
  destruct (decide (p.2 = g)) as [->|]; tauto.
Qed.

(** At least what does not fit leaves a group. *)
Lemma leaving_lower order old new g : length old = length new →
  len (ownedBy order (imap pair old) g) - count g new ≤ leaving new g (ownedBy order (imap pair old) g).
Proof.
  intros Hl. set (ss := ownedBy order (imap pair old) g).
  assert (NoDup ss) as Hnd.
  { eapply sublist_NoDup; [|apply fmap_sublist, sublist_filter]. rewrite imap_pair_fst. apply NoDup_seq. }
  assert (len (filter (λ s, new !! s = Some g) ss) ≤ count g new) as Hs.
  { rewrite <- (imap_pair_snd new), count_snd. unfold len. apply Nat2Z.inj_le.
    apply submseteq_length, NoDup_submseteq; [exact (NoDup_filter _ _ Hnd)|].
    intros s [Hs _]%list_elem_of_filter. rewrite imap_pair_snd in Hs. apply list_elem_of_fmap. exists (s, g). split; [done|].
    apply list_elem_of_filter. split; [done|]. apply elem_of_lookup_imap. exists s, g. by split. }
  pose proof (filter_split (λ s, new !! s = Some g) ss) as Hp. apply Permutation_length in Hp.
  rewrite length_app in Hp. unfold leaving, len in *. lia.
Qed.

(** In the result it is no more than that. *)
Lemma leaving_result h l new a : greedy h l [] → a ∈ l → (∀ s, s ∈ a.2 → new !! s = Some a.1) →
  leaving new a.1 (h a.1) ≤ Z.max 0 (len (h a.1) - len a.2).
Proof.
  intros Hg Ha Hs. unfold leaving.
  assert (filter (λ s, new !! s ≠ Some a.1) a.2 = []) as E
    by (apply elem_of_nil_inv; intros s [Hn Hin%Hs]%list_elem_of_filter; done).
  destruct (gr_prefix _ _ _ Hg a Ha) as [[r Hr]|[r Hr]].
  - assert (len (h a.1) = len a.2 + len r) as El by (by rewrite Hr, len_app).
    transitivity (len r); [|lia]. rewrite Hr, filter_app, E. unfold len. apply Nat2Z.inj_le, length_filter.
  - rewrite Hr, filter_app in E. apply app_eq_nil in E as [-> _]. rewrite len_nil. lia.
Qed.

(** Losses under a balanced assignment of equally many shards.  Either every
    loser has at least as many shards as in the other assignment, or every gainer
    at most as many. *)
Definition excess (c f : Z) : Z := Z.max 0 (c - f).

Lemma sumZ_le (f g : GS → Z) l : (∀ x, x ∈ l → f x ≤ g x) → sumZ f l ≤ sumZ g l.
Proof.
  induction l as [|x l IH]; intros Hf; simpl; [lia|].
  pose proof (Hf x ltac:(set_solver)). specialize (IH ltac:(set_solver)). lia.
Qed.

Lemma sumZ_excess (c f : GS → Z) l :
  sumZ (λ x, excess (c x) (f x)) l = sumZ (λ x, excess (f x) (c x)) l + sumZ c l - sumZ f l.
Proof. induction l as [|x l IH]; simpl; [done|]. rewrite IH. unfold excess. lia. Qed.

Lemma least_losses (c f a : GS → Z) l : sumZ f l = sumZ a l →
  (∀ x y, x ∈ l → y ∈ l → f x < c x → c y < f y → f y ≤ f x) →
  (∀ x y, x ∈ l → y ∈ l → a x ≤ a y + 1) →
  sumZ (λ x, excess (c x) (f x)) l ≤ sumZ (λ x, excess (c x) (a x)) l.
Proof.
  intros Hsum Hex Hbal.
  destruct (decide (Forall (λ x, f x < c x → a x ≤ f x) l)) as [Hl|Hl].
  - rewrite Forall_forall in Hl. apply sumZ_le. intros x Hx. specialize (Hl x Hx). unfold excess. lia.
  - apply not_Forall_Exists, Exists_exists in Hl as (x & Hx & Hl); [|apply _].
    rewrite (sumZ_excess c f), (sumZ_excess c a), Hsum.
    assert (sumZ (λ y, excess (f y) (c y)) l ≤ sumZ (λ y, excess (a y) (c y)) l); [|lia].
    unfold compose in Hl. assert (f x < c x ∧ f x < a x) as [Hlx Hfx] by (destruct (decide (f x < c x)); [|tauto]; split; [done|lia]).
    apply sumZ_le. intros y Hy. specialize (Hex x y Hx Hy Hlx). specialize (Hbal x y Hx Hy). unfold excess.
    destruct (decide (c y < f y)) as [Hgy|]; [specialize (Hex Hgy)|]; lia.
Qed.

Lemma sum_count (l : list GS) (new : list Z) : NoDup l.*1 → Forall (λ g, g ∈ l.*1) new →
  sumZ (λ gs, count gs.1 new) l = len new.
Proof.
  intros Hnd Hin. transitivity (len (filter (λ g, g ∈ l.*1) new)).
  - clear Hin. induction l as [|[g ss] l IH].
    { simpl. symmetry. induction new as [|x new IH]; [done|]. rewrite filter_cons_False; [done|].
      by intros ?%not_elem_of_nil. }
    simpl in Hnd. apply NoDup_cons in Hnd as [Hg Hnd]. 
    rewrite sumZ_cons, (IH Hnd). unfold count. cbn [fst]. rewrite <- len_filter_or; [|by intros x ->].
    f_equal. apply list_filter_iff. intros x. by rewrite fmap_cons, elem_of_cons.
  - f_equal. induction Hin; [done|]. by rewrite filter_cons_True, IHHin.
Qed.

(** Every shard has a group of [order], and the numbers of shards differ by at
    most one. *)
Definition evenly (order shards : list Z) : Prop :=
  length shards = NShards ∧ Forall (λ g, g ∈ order) shards ∧
  ∀ g g', g ∈ order → g' ∈ order → count g shards ≤ count g' shards + 1.

Lemma least_moved order old l new : NoDup order → length old = NShards →
  l.*1 ≡ₚ order → given l ≡ₚ seq 0 NShards → greedy (ownedBy order (imap pair old)) l [] →
  (∀ s g, new !! s = Some g ↔ (s, g) ∈ owners l) →
  ∀ alt, evenly order alt → moved order old new ≤ moved order old alt.
Proof.
  intros Hnd Hold Hf Hgl Hgr Hlk alt (Hla & Hin & Hbal). set (h := ownedBy order (imap pair old)) in *.
  assert (NoDup l.*1) as Hndl by (by rewrite Hf).
  rewrite !(moved_sum order old _ l) by done. fold h.
  transitivity (sumZ (λ gs, excess (len (h gs.1)) (len gs.2)) l); [|transitivity
    (sumZ (λ gs, excess (len (h gs.1)) (count gs.1 alt)) l)].
  - apply sumZ_le. intros a Ha. eapply leaving_result; [done|done|]. intros s Hs. apply Hlk, elem_of_owners.
    destruct a as [g ss]. by exists ss.
  - apply least_losses.
    + assert (Forall (λ g, g ∈ l.*1) alt) as Hin' by (eapply Forall_impl; [exact Hin|]; intros g; by rewrite Hf).
      rewrite sum_count by done. change (λ x : GS, len x.2) with size. rewrite <- given_size. unfold len.
      by rewrite Hgl, Hla, length_seq.
    + intros x y Hx Hy. apply (gr_exchange _ _ _ Hgr x y Hx Hy).
    + intros x y Hx Hy. apply Hbal; rewrite <- Hf; by apply list_elem_of_fmap_2.
  - apply sumZ_le. intros a Ha. unfold excess. pose proof (leaving_lower order old alt a.1) as Hl. fold h in Hl.
    assert (0 ≤ leaving alt a.1 (h a.1)) by apply len_nonneg. rewrite Hold, Hla in Hl. specialize (Hl eq_refl). lia.
Qed.

Lemma rebalance_least order old :
  NoDup order → order ≠ [] → length old = NShards →
  ∃ shards, rebalance order old = Ret shards ∧ evenly order shards ∧
    ∀ alt, evenly order alt → moved order old shards ≤ moved order old alt.
Proof.
  intros Hnd Hne Hold. destruct (rebalance_result order old Hnd Hne Hold) as (l & Hr & Hf & Hg & Hb & Hgr).
  destruct (assembled NShards l Hg ltac:(by rewrite Hf)) as [Hlk Hc].
  eexists. split; [exact Hr|]. split; [split; [by rewrite setAll_length, length_replicate|split]|].
  - apply Forall_lookup. intros s g Hs%Hlk. apply elem_of_owners in Hs as (ss & Hgs & _).
    rewrite <- Hf. apply list_elem_of_fmap. by exists (g, ss).
  - intros g g' Hgo Hgo'. rewrite <- Hf in Hgo, Hgo'.
    apply list_elem_of_fmap in Hgo as ([x ss] & -> & Hin), Hgo' as ([y ss'] & -> & Hin').
    cbn [fst]. rewrite (Hc _ _ Hin), (Hc _ _ Hin'). pose proof (Hb _ _ Hin Hin'). simpl in *. lia.
  - by eapply least_moved.
Qed.

Lemma rebalance_balanced order old :
  NoDup order → order ≠ [] → length old = NShards →
  ∃ shards, rebalance order old = Ret shards ∧ length shards = NShards ∧
    Forall (λ g, g ∈ order) shards ∧
    ∀ g g', g ∈ order → g' ∈ order → count g shards ≤ count g' shards + 1.
Proof.
  intros Hnd Hne Hold. destruct (rebalance_least order old Hnd Hne Hold) as (shards & ? & (? & ? & ?) & _).
  by exists shards.
Qed.

(** C8: [rebalance].  Whatever the old assignment and the order in which the map
    of groups is iterated, the function terminates and returns an assignment of
    every shard to a group that exists, in which the numbers of shards of any two
    groups differ by at most one; and among all such assignments it is one that
    takes the fewest shards away from groups that are still there. *)
Theorem rebalance_correct order old :
  NoDup order → order ≠ [] → length old = NShards →
  ∃ shards, rebalance order old = Ret shards ∧
    length shards = NShards ∧ Forall (λ g, g ∈ order) shards ∧
    (∀ g g', g ∈ order → g' ∈ order → count g shards ≤ count g' shards + 1) ∧
    ∀ alt, evenly order alt → moved order old shards ≤ moved order old alt.
Proof.
  intros Hnd Hne Hold. destruct (rebalance_least order old Hnd Hne Hold) as (shards & ? & (? & ? & ?) & ?).
  by exists shards.
Qed.

Lemma rebalance_order order order' old :
  NoDup order → order ≡ₚ order' → rebalance order old = rebalance order' old.
Proof.
  intros Hnd Hp. destruct (decide (order = [])) as [->|Hne].
  { apply Permutation_nil in Hp as ->. done. }
  assert (order' ≠ []) as Hne' by (intros ->; by apply Permutation_sym, Permutation_nil in Hp).
  rewrite !rebalance_groups by (done || by rewrite <- Hp).
  assert (∀ g, keeps order g ↔ keeps order' g) as Hk by (intros g; unfold keeps; by rewrite Hp).
  assert (∀ g, ownedBy order (imap pair old) g = ownedBy order' (imap pair old) g) as Ho.
  { intros g. unfold ownedBy. f_equal. apply list_filter_iff. intros p. by rewrite Hk. }
  assert (orphansOf order (imap pair old) = orphansOf order' (imap pair old)) as ->.
  { unfold orphansOf. f_equal. apply list_filter_iff. intros p. by rewrite Hk. }
  cbv zeta. rewrite (merge_sort_order order order' Hp).
  by rewrite (groupsWith_ext (ownedBy order (imap pair old)) (ownedBy order' (imap pair old))).
Qed.

(** Every server computes the same assignment: the result does not depend
    on the order in which the map of groups is iterated. *)
Theorem rebalance_deterministic order order' old :
  NoDup order → order ≡ₚ order' → rebalance order old = rebalance order' old.
Proof. apply rebalance_order. Qed.

Lemma rebalance_correct_witness :
  ∃ shards, rebalance [3; 1; 2] [0; 1; 1; 7; 1; 1; 1; 1; 1; 1] = Ret shards ∧
    length shards = NShards ∧ Forall (λ g, g ∈ [3; 1; 2]) shards ∧
    (∀ g g', g ∈ [3; 1; 2] → g' ∈ [3; 1; 2] → count g shards ≤ count g' shards + 1) ∧
    ∀ alt, evenly [3; 1; 2] alt → moved [3; 1; 2] [0; 1; 1; 7; 1; 1; 1; 1; 1; 1] shards
      ≤ moved [3; 1; 2] [0; 1; 1; 7; 1; 1; 1; 1; 1; 1] alt.
Proof.
  apply (rebalance_correct [3; 1; 2] [0; 1; 1; 7; 1; 1; 1; 1; 1; 1]);
    [by apply (bool_decide_unpack (NoDup [3; 1; 2]))|discriminate|reflexivity].
Defined.

Lemma rebalance_deterministic_witness :
  rebalance [3; 1; 2] [0; 1; 1; 7; 1; 1; 1; 1; 1; 1] =
  rebalance [1; 2; 3] [0; 1; 1; 7; 1; 1; 1; 1; 1; 1].
Proof.
  apply (rebalance_deterministic [3; 1; 2] [1; 2; 3] [0; 1; 1; 7; 1; 1; 1; 1; 1; 1]);
    [by apply (bool_decide_unpack (NoDup [3; 1; 2]))|by apply (bool_decide_unpack ([3; 1; 2] ≡ₚ [1; 2; 3]))].
Defined.
