(* ===== verification/ShardCtrler.v ===== *)
(** * The shard controller ([src/shardctrler])

    A replicated service whose state is the list of configurations.  The server
    ([server.go]), its RPC types ([common.go]) and the clerk ([client.go]).
    [rebalance] and the configuration type are in [Rebalance]. *)

From S2P Require Import Prelude Serial Sessions RaftState RaftNode Rebalance.
Local Open Scope Z_scope.

(** ** [common.go] *)

Definition ERR_OK : string := "".
Definition ERR_FailedToCommit : string := "Failed to commit".
Definition ERR_CommitTimeout : string := "Commit timeout".

Definition OT_Join : string := "Join".
Definition OT_Leave : string := "Leave".
Definition OT_Move : string := "Move".
Definition OT_Query : string := "Query".

Record JoinArgs := mkJoinArgs { ja_Servers : gmap Z (list string); ja_Id : Z; ja_ReqNum : Z }.
Record LeaveArgs := mkLeaveArgs { la_GIDs : list Z; la_Id : Z; la_ReqNum : Z }.
Record MoveArgs := mkMoveArgs { ma_Shard : Z; ma_GID : Z; ma_Id : Z; ma_ReqNum : Z }.
Record QueryArgs := mkQueryArgs { qa_Num : Z; qa_Id : Z; qa_ReqNum : Z }.

(** [GenericArgs], and [Op.Args], which is an [interface{}]. *)
Inductive GenericArgs :=
| AJoin (args : JoinArgs)
| ALeave (args : LeaveArgs)
| AMove (args : MoveArgs)
| AQuery (args : QueryArgs).

Definition getId (args : GenericArgs) : Z :=
  match args with
  | AJoin a => ja_Id a | ALeave a => la_Id a | AMove a => ma_Id a | AQuery a => qa_Id a
  end.
Definition getReqNum (args : GenericArgs) : Z :=
  match args with
  | AJoin a => ja_ReqNum a | ALeave a => la_ReqNum a | AMove a => ma_ReqNum a | AQuery a => qa_ReqNum a
  end.

(** The four reply types: [Config] is used by [Query] only. *)
Record Reply := mkReply { r_WrongLeader : bool; r_Err : string; r_Config : Config }.

Definition zeroConfig : Config := mkConfig 0 (replicate NShards 0) ∅.
Definition zeroReply : Reply := mkReply false "" zeroConfig.

(** ** [server.go]: data *)

Record Op := mkOp {
  op_Type : string;
  op_Number : Z;
  op_ReqNum : Z;
  op_CkId : Z;
  op_Args : option GenericArgs;
}.

#[export] Instance Op_request : Request Op := {|
  reqNumOf := op_ReqNum;
  ckIdOf := op_CkId;
  zeroOp := mkOp "" 0 0 0 None;
|}.

Record Snapshot := mkSnapshot {
  Configs : list Config;
  CkSessions : gmap Z (Session Op);
  Maker : Z;
}.

Record ShardCtrler := mkShardCtrler {
  sc_me : Z;
  sc_dead : bool;
  maxraftstate : Z;
  configs : list Config;
  ckSessions : gmap Z (Session Op);
  logRecord : gmap Z Op;
  confirmMap : gmap Z bool;
  sc_lastApplied : Z;
  sc_snapshotIndex : Z;
}.

Definition StartServer (meId : Z) : ShardCtrler :=
  mkShardCtrler meId false 8192 [zeroConfig] ∅ ∅ ∅ 0 0.

Definition killed (sc : ShardCtrler) : bool := sc_dead sc.
Definition Kill (sc : ShardCtrler) : ShardCtrler :=
  mkShardCtrler (sc_me sc) true (maxraftstate sc) (configs sc) (ckSessions sc) (logRecord sc)
    (confirmMap sc) (sc_lastApplied sc) (sc_snapshotIndex sc).

(** ** The RPC handlers *)

(** [successCommit]: the reply of a committed operation. *)
Definition successCommit (args : GenericArgs) (opType : string) (sc : ShardCtrler) : outcome Reply :=
  let ok := mkReply false ERR_OK zeroConfig in
  if decide (opType = OT_Join) then mret ok
  else if decide (opType = OT_Leave) then mret ok
  else if decide (opType = OT_Move) then mret ok
  else if decide (opType = OT_Query) then
    match args with
    | AQuery a =>
        let num := if decide (qa_Num a = -1 ∨ qa_Num a >= len (configs sc))
                   then len (configs sc) - 1 else qa_Num a in
        c ← slice_get (configs sc) num;
        mret (mkReply false ERR_OK c)
    | _ => Panic
    end
  else Fatal.

(** The type switch that fills [op.Args]. *)
Definition opArgs (args : GenericArgs) (opType : string) : outcome (option GenericArgs) :=
  if decide (opType = OT_Join) then match args with AJoin _ => mret (Some args) | _ => Panic end
  else if decide (opType = OT_Leave) then match args with ALeave _ => mret (Some args) | _ => Panic end
  else if decide (opType = OT_Move) then match args with AMove _ => mret (Some args) | _ => Panic end
  else if decide (opType = OT_Query) then match args with AQuery _ => mret (Some args) | _ => Panic end
  else mret None.

Inductive rpc := Replied (reply : Reply) | Waiting (op : Op) (index : Z).

(** The first critical section of [handleNomalRPC]; [number] is [nrand()]. *)
Definition handleNomalRPC `{Codec (@persistent Op)} (number : Z) (args : GenericArgs)
    (opType : string) (sc : ShardCtrler) (rf : Raft Op) : outcome (Raft Op * rpc) :=
  let session := map_get zeroSession (ckSessions sc) (getId args) in
  let finishedBefore :=
    LastOpVaild session && bool_decide (op_ReqNum (LastOp session) = getReqNum args) &&
    match logRecord sc !! LastOpIndex session with
    | Some op => bool_decide (op_Number op = op_Number (LastOp session))
    | None => false
    end in
  if finishedBefore : bool then
    reply ← successCommit args opType sc; mret (rf, Replied reply)
  else
    a ← opArgs args opType;
    let op := mkOp opType number (getReqNum args) (getId args) a in
    r ← Start (Some op) rf;
    let '(rf, (index, _, isLeader)) := r in
    if isLeader : bool then mret (rf, Waiting op index)
    else mret (rf, Replied (mkReply true "" zeroConfig)).

Definition Join `{Codec (@persistent Op)} number (args : JoinArgs) :=
  handleNomalRPC number (AJoin args) OT_Join.
Definition Leave `{Codec (@persistent Op)} number (args : LeaveArgs) :=
  handleNomalRPC number (ALeave args) OT_Leave.
Definition Move `{Codec (@persistent Op)} number (args : MoveArgs) :=
  handleNomalRPC number (AMove args) OT_Move.
Definition Query `{Codec (@persistent Op)} number (args : QueryArgs) :=
  handleNomalRPC number (AQuery args) OT_Query.

(** One round of the loop of [waittingForCommit]; the reply starts at zero and
    is returned as it is when the server has been killed. *)
Definition waittingForCommit (elapsed : Z) (op : Op) (index : Z) (args : GenericArgs)
    (opType : string) (sc : ShardCtrler) : outcome (option Reply) :=
  if killed sc then mret (Some zeroReply)
  else
    let rest := if decide (elapsed > 30 * 1000000)
                then Some (mkReply false ERR_CommitTimeout zeroConfig) else None in
    if decide (index <= sc_lastApplied sc) then
      match logRecord sc !! index with
      | Some finishedOp =>
          if decide (op_Number finishedOp = op_Number op)
          then reply ← successCommit args opType sc; mret (Some reply)
          else mret (Some (mkReply false ERR_FailedToCommit zeroConfig))
      | None => mret rest
      end
    else mret rest.

(** ** The apply loop *)

(** [iter] is the iteration order of a Go map. *)
Section apply.
Context (iter : gmap Z (list string) → list Z).

(** The end of [Join] and [Leave]: [rebalance] and append. *)
Definition newConfig (old : Config) (groups : gmap Z (list string)) : outcome Config :=
  shards ← rebalance (iter groups) (Shards old);
  mret (mkConfig (Num old + 1) shards groups).

Definition applyOp (op : Op) (cs : list Config) : outcome (list Config) :=
  if decide (op_Type op = OT_Join) then
    match op_Args op with
    | Some (AJoin a) =>
        old ← slice_get cs (len cs - 1);
        c ← newConfig old (ja_Servers a ∪ Groups old);
        mret (cs ++ [c])
    | _ => Panic
    end
  else if decide (op_Type op = OT_Leave) then
    match op_Args op with
    | Some (ALeave a) =>
        old ← slice_get cs (len cs - 1);
        c ← newConfig old (foldl (λ m g, delete g m) (Groups old) (la_GIDs a));
        mret (cs ++ [c])
    | _ => Panic
    end
  else if decide (op_Type op = OT_Move) then
    match op_Args op with
    | Some (AMove a) =>
        old ← slice_get cs (len cs - 1);
        shards ← slice_set (Shards old) (ma_Shard a) (ma_GID a);
        mret (cs ++ [mkConfig (Num old + 1) shards (Groups old)])
    | _ => Panic
    end
  else if decide (op_Type op = OT_Query) then
    match op_Args op with Some (AQuery _) => mret cs | _ => Panic end
  else Fatal.

Definition pruneRecords (records : gmap Z Op) (confirm : gmap Z bool) : gmap Z Op * gmap Z bool :=
  (filter (λ '(key, _), map_get false confirm key = false) records,
   filter (λ '(key, _), ¬ (map_get false confirm key = true ∧ is_Some (records !! key))) confirm).

(** One iteration of [handleApplyMsg].  A command out of order is only logged. *)
Definition handleApplyMsg `{Codec Snapshot} (size : Z) (m : ApplyMsg Op) (sc : ShardCtrler)
  : outcome (ShardCtrler * option (Z * bytes)) :=
  if CommandValid m then
    match msgCommand m with
    | None => Panic
    | Some op =>
        let records := <[CommandIndex m := op]> (logRecord sc) in
        let session := map_get zeroSession (ckSessions sc) (op_CkId op) in
        let sessions := record_op op (CommandIndex m) (ckSessions sc) in
        let sc' cs records confirm :=
          mkShardCtrler (sc_me sc) (sc_dead sc) (maxraftstate sc) cs sessions records
            confirm (CommandIndex m) (sc_snapshotIndex sc) in
        if stable op (CommandIndex m) session
        then mret (sc' (configs sc) records (confirmMap sc), None)
        else
          cs ← applyOp op (configs sc);
          if decide (maxraftstate sc ≠ -1 ∧ size >= maxraftstate sc) then
            let '(records, confirm) := pruneRecords records (confirmMap sc) in
            mret (sc' cs records confirm,
                  Some (CommandIndex m, enc (mkSnapshot cs sessions (sc_me sc))))
          else mret (sc' cs records (confirmMap sc), None)
    end
  else if SnapshotValid m then
    let snapshot := default (mkSnapshot [] ∅ 0) (dec (msgSnapshot m)) in
    mret (mkShardCtrler (sc_me sc) (sc_dead sc) (maxraftstate sc) (Configs snapshot)
            (CkSessions snapshot) (logRecord sc) (confirmMap sc) (msgSnapshotIndex m)
            (sc_snapshotIndex sc), None)
  else mret (sc, None).

End apply.

(** ** [client.go]

    The clerk of the controller: the arguments of a call, and one pass over the
    servers, of which [results] are the answers ([None]: the call failed). *)

Record Clerk := mkClerk { ck_servers : nat; ck_id : Z; reqNum : Z }.

Definition MakeClerk (servers : nat) (nrand : Z) : Clerk := mkClerk servers nrand 1.

Definition clerkNext (ck : Clerk) : Clerk := mkClerk (ck_servers ck) (ck_id ck) (reqNum ck + 1).
Definition clerkQuery (num : Z) (ck : Clerk) : Clerk * GenericArgs :=
  (clerkNext ck, AQuery (mkQueryArgs num (ck_id ck) (reqNum ck))).
Definition clerkJoin (servers : gmap Z (list string)) (ck : Clerk) : Clerk * GenericArgs :=
  (clerkNext ck, AJoin (mkJoinArgs servers (ck_id ck) (reqNum ck))).
Definition clerkLeave (gids : list Z) (ck : Clerk) : Clerk * GenericArgs :=
  (clerkNext ck, ALeave (mkLeaveArgs gids (ck_id ck) (reqNum ck))).
Definition clerkMove (shard gid : Z) (ck : Clerk) : Clerk * GenericArgs :=
  (clerkNext ck, AMove (mkMoveArgs shard gid (ck_id ck) (reqNum ck))).

(** The clerk takes a reply for a success. *)
Definition accepts (reply : Reply) : bool :=
  negb (r_WrongLeader reply) && bool_decide (r_Err reply = ERR_OK).

Definition clerkPass (results : list (option Reply)) : option Reply :=
  foldr (λ r rest, match r with Some reply => if accepts reply then Some reply else rest
                            | None => rest end) None results.

(** ** The history of configurations *)

(** Go iterates over a map in some order, each key once. *)
Definition iterOk (iter : gmap Z (list string) → list Z) : Prop :=
  ∀ m, iter m ≡ₚ elements (dom m).

(** An operation as the handlers build it, for a shard that exists. *)
Definition opOk (op : Op) : Prop :=
  match op_Args op with
  | Some (AJoin _) => op_Type op = OT_Join
  | Some (ALeave _) => op_Type op = OT_Leave
  | Some (AMove a) => op_Type op = OT_Move ∧ 0 ≤ ma_Shard a < Z.of_nat NShards
  | Some (AQuery _) => op_Type op = OT_Query
  | None => False
  end.

(** Configurations are numbered by their position. *)
Definition configsOk (cs : list Config) : Prop :=
  cs ≠ [] ∧ ∀ i c, cs !! i = Some c → Num c = Z.of_nat i ∧ length (Shards c) = NShards.

(** What [Join] and [Leave] promise of the configuration they make. *)
Definition wellSpread (c : Config) : Prop :=
  (Groups c = ∅ → Shards c = replicate NShards 0) ∧
  (Groups c ≠ ∅ →
     Forall (λ g, g ∈ dom (Groups c)) (Shards c) ∧
     ∀ g g', g ∈ dom (Groups c) → g' ∈ dom (Groups c) →
       count g (Shards c) ≤ count g' (Shards c) + 1).

Lemma configs_last cs : configsOk cs → ∃ old, slice_get cs (len cs - 1) = Ret old ∧
  last cs = Some old ∧ Num old = len cs - 1 ∧ length (Shards old) = NShards.
Proof.
  intros [Hne Hc]. destruct cs as [|c cs' _] using rev_ind; [done|]. exists c.
  rewrite len_app, len_cons, len_nil. pose proof (len_nonneg cs').
  destruct (Hc (length cs') c) as [Hn Hl]; [by rewrite lookup_app_r, Nat.sub_diag|].
  split; [|split; [by rewrite last_snoc|split; [unfold len; lia|done]]].
  replace (len cs' + (0 + 1) - 1) with (Z.of_nat (length cs')) by (unfold len; lia).
  apply slice_get_nat. by rewrite lookup_app_r, Nat.sub_diag.
Qed.

Lemma configsOk_snoc cs c : configsOk cs → Num c = len cs → length (Shards c) = NShards →
  configsOk (cs ++ [c]).
Proof.
  intros [Hne Hc] Hn Hl. split; [by destruct cs|]. intros i x [Hi|[Hge Hi]]%lookup_app_Some; [by apply Hc|].
  destruct (i - length cs)%nat eqn:Hd; [|done]. simplify_eq/=. rewrite Hn. unfold len. split; [lia|done].
Qed.

Lemma lookup_foldl_delete {V} (m : gmap Z V) gs g :
  foldl (λ m g, delete g m) m gs !! g = if decide (g ∈ gs) then None else m !! g.
Proof.
  revert m. induction gs as [|x gs IH]; intros m; simpl; [done|]. rewrite IH.
  destruct (decide (g = x)) as [->|Hne].
  - rewrite lookup_delete_eq, (decide_True (P := x ∈ x :: gs)) by left. by case_decide.
  - rewrite lookup_delete_ne by done. repeat case_decide; set_solver.
Qed.

Section history.
Context (iter : gmap Z (list string) → list Z) (Hiter : iterOk iter).

Lemma iter_spec m : NoDup (iter m) ∧ (∀ g, g ∈ iter m ↔ g ∈ dom m) ∧ (iter m = [] ↔ m = ∅).
Proof.
  pose proof (Hiter m) as Hp. split; [rewrite Hp; apply NoDup_elements|].
  split; [intros g; rewrite Hp; apply elem_of_elements|]. split.
  - intros Hi. rewrite Hi in Hp. apply Permutation_nil in Hp.
    apply elements_empty_inv in Hp. apply leibniz_equiv in Hp. by apply dom_empty_iff_L.
  - intros ->. rewrite dom_empty_L, elements_empty in Hp. by apply Permutation_sym, Permutation_nil in Hp.
Qed.

Lemma newConfig_spec old groups : length (Shards old) = NShards →
  ∃ c, newConfig iter old groups = Ret c ∧ Num c = Num old + 1 ∧ Groups c = groups ∧
       length (Shards c) = NShards ∧ wellSpread c.
Proof.
  intros Hl. destruct (iter_spec groups) as (Hnd & Hin & Hnil). unfold newConfig.
  destruct (decide (groups = ∅)) as [->|Hne].
  { rewrite (proj2 Hnil eq_refl). eexists. split; [reflexivity|]. do 3 (split; [done|]). by split. }
  destruct (rebalance_balanced (iter groups) (Shards old)) as (shards & -> & Hls & Hf & Hb);
    [done|by rewrite Hnil|done|].
  rewrite bind_Ret. eexists. split; [reflexivity|]. do 3 (split; [done|]). split; [done|].
  intros _. simpl. split.
  - eapply Forall_impl; [exact Hf|]. intros g. apply Hin.
  - intros g g' Hg Hg'. by apply Hb; apply Hin.
Qed.

Definition history_step op old cs cs' : Prop :=
  match op_Args op with
  | Some (AJoin a) =>
      ∃ c, cs' = cs ++ [c] ∧ Groups c = ja_Servers a ∪ Groups old ∧ wellSpread c
  | Some (ALeave a) =>
      ∃ c, cs' = cs ++ [c] ∧ wellSpread c ∧
           ∀ g, Groups c !! g = if decide (g ∈ la_GIDs a) then None else Groups old !! g
  | Some (AMove a) =>
      ∃ c, cs' = cs ++ [c] ∧ Groups c = Groups old ∧
           Shards c = <[Z.to_nat (ma_Shard a) := ma_GID a]> (Shards old)
  | _ => cs' = cs
  end.

Lemma applyOp_spec op cs old : configsOk cs → opOk op → last cs = Some old →
  ∃ cs', applyOp iter op cs = Ret cs' ∧ configsOk cs' ∧ history_step op old cs cs'.
Proof.
  intros Hc Hop Hlast. destruct (configs_last cs Hc) as (o & Hget & Ho & Hnum & Hlen).
  assert (o = old) as -> by congruence. unfold applyOp, opOk, history_step in *.
  destruct (op_Args op) as [[a|a|a|a]|]; [| | | |done].
  - rewrite Hop. simpl. rewrite Hget, bind_Ret.
    destruct (newConfig_spec old (ja_Servers a ∪ Groups old) Hlen) as (c & -> & Hn & Hg & Hl & Hw).
    rewrite bind_Ret. eexists. split; [done|]. split; [apply configsOk_snoc; auto; lia|]. by exists c.
  - rewrite Hop. simpl. rewrite Hget, bind_Ret.
    destruct (newConfig_spec old (foldl (λ m g, delete g m) (Groups old) (la_GIDs a)) Hlen)
      as (c & -> & Hn & Hg & Hl & Hw).
    rewrite bind_Ret. eexists. split; [done|]. split; [apply configsOk_snoc; auto; lia|]. exists c.
    split; [done|]. split; [done|]. intros g. rewrite Hg. apply lookup_foldl_delete.
  - destruct Hop as [Hop Hs]. rewrite Hop. simpl. rewrite Hget, bind_Ret.
    rewrite slice_set_in by (unfold len; lia). rewrite bind_Ret.
    eexists. split; [done|]. split.
    + apply configsOk_snoc; [done|simpl; lia|]. simpl. by rewrite length_insert.
    + by eexists.
  - rewrite Hop. simpl. by exists cs.
Qed.

Lemma applyOp_total op cs old : configsOk cs → opOk op → last cs = Some old →
  ∃ cs', applyOp iter op cs = Ret cs' ∧ configsOk cs' ∧ cs `prefix_of` cs'.
Proof.
  intros Hc Hop Hl. destruct (applyOp_spec op cs old Hc Hop Hl) as (cs' & Ha & Hc' & Hst).
  exists cs'. split; [done|]. split; [done|]. unfold history_step in Hst.
  repeat case_match; subst; try done; destruct Hst as (c & -> & _); by eexists.
Qed.


End history.

(** Two servers with different map orders. *)
Lemma applyOp_iter iter iter' op cs : iterOk iter → iterOk iter' →
  applyOp iter op cs = applyOp iter' op cs.
Proof.
  intros Hi Hi'. assert (∀ old groups, newConfig iter old groups = newConfig iter' old groups) as Hn.
  { intros old groups. unfold newConfig. rewrite (rebalance_order (iter groups) (iter' groups)); [done| |].
    - by apply iter_spec.
    - etrans; [apply Hi|symmetry; apply Hi']. }
  unfold applyOp. destruct (op_Args op) as [[a|a|a|a]|]; try done;
    destruct (slice_get cs (len cs - 1)) as [old| | |]; try done; simpl; by rewrite ?Hn.
Qed.

(** ** The apply loop *)

Section loop.
Context `{Codec Snapshot}.

Fixpoint commands (i : Z) (ops : list Op) : list (ApplyMsg Op) :=
  match ops with
  | [] => []
  | op :: ops => commandMsg (Some op) i :: commands (i + 1) ops
  end.

(** The apply loop over a list of messages, on a server with map order [iter]. *)
Definition applyAll iter (sizes : Z → Z) (ms : list (ApplyMsg Op)) (sc : ShardCtrler)
  : outcome ShardCtrler :=
  for_range (λ sc m, r ← handleApplyMsg iter (sizes (sc_lastApplied sc)) m sc; mret r.1) sc ms.

(** What the replicas agree on. *)
Definition core (sc : ShardCtrler) : list Config * gmap Z (Session Op) :=
  (configs sc, ckSessions sc).

(** One command is one step of the state machine that the sessions guard. *)
Lemma handleApplyMsg_session iter size op i sc :
  (r ← handleApplyMsg iter size (commandMsg (Some op) i) sc; mret (core r.1)) =
    sessionRun (applyOp iter) i op (core sc) ∧
  ∀ r, handleApplyMsg iter size (commandMsg (Some op) i) sc = Ret r → sc_lastApplied r.1 = i.
Proof.
  unfold handleApplyMsg, sessionRun, pruneRecords. simpl. destruct (stable _ _ _); [by split; [|intros r [= <-]]|].
  destruct (applyOp iter op (configs sc)) as [cs| | |]; try (by split; [|intros r; discriminate]).
  rewrite !bind_Ret. case_decide; (split; [done|by intros r [= <-]]).
Qed.

Lemma applyAll_core_sessions iter sizes ops i sc :
  (sc ← applyAll iter sizes (commands i ops) sc; mret (core sc)) =
  sessionRunAll (applyOp iter) i ops (core sc).
Proof.
  revert i sc. induction ops as [|op ops IH]; intros i sc; [done|].
  unfold applyAll in *. cbn [commands for_range sessionRunAll].
  destruct (handleApplyMsg_session iter (sizes (sc_lastApplied sc)) op i sc) as [Hs _].
  rewrite <- Hs. destruct (handleApplyMsg iter _ _ sc) as [[sc1 r]| | |]; try done.
  rewrite !bind_Ret, ?bind_mret. apply IH.
Qed.

Lemma shardctrler_once iter sizes meId ops : clientsInOrder ops →
  (sc ← applyAll iter sizes (commands 1 ops) (StartServer meId); mret (configs sc)) =
  execAll (applyOp iter) (onceEach ∅ ops) [zeroConfig].
Proof.
  intros Hord. rewrite <- (sessionRunAll_once (applyOp iter) ops [zeroConfig] Hord).
  change ([zeroConfig], ∅) with (core (StartServer meId)).
  rewrite <- (applyAll_core_sessions iter sizes). by destruct (applyAll iter sizes _ _).
Qed.

(** The loop keeps the configurations numbered, for operations that the
    handlers built. *)
Lemma execAll_configsOk iter ops cs : iterOk iter → Forall opOk ops → configsOk cs →
  ∃ cs', execAll (applyOp iter) ops cs = Ret cs' ∧ configsOk cs' ∧ cs `prefix_of` cs'.
Proof.
  intros Hi Hops. revert cs. induction Hops as [|op ops Hop _ IH]; intros cs Hc; [by exists cs|].
  destruct (configs_last cs Hc) as (old & _ & Hlast & _).
  destruct (applyOp_total iter Hi op cs old Hc Hop Hlast) as (cs1 & Ha & Hc1 & Hp).
  destruct (IH cs1 Hc1) as (cs2 & He & Hc2 & Hp2). exists cs2.
  unfold execAll in *. cbn [for_range]. rewrite Ha, bind_Ret. split; [done|]. split; [done|].
  by etrans.
Qed.

(** [Query].  On a server that has applied a log of requests, a query for a
    number that exists returns the configuration with that number, a query for
    -1 or a number that does not exist yet returns the latest one, and a query
    for a number below -1 panics. *)
Theorem query_answers iter sizes meId ops sc num ckid req :
  iterOk iter → Forall opOk ops → clientsInOrder ops →
  applyAll iter sizes (commands 1 ops) (StartServer meId) = Ret sc →
  let r := successCommit (AQuery (mkQueryArgs num ckid req)) OT_Query sc in
  (0 ≤ num < len (configs sc) → ∃ c, r = Ret (mkReply false ERR_OK c) ∧ Num c = num) ∧
  (num = -1 ∨ num >= len (configs sc) →
     ∃ c, r = Ret (mkReply false ERR_OK c) ∧ last (configs sc) = Some c) ∧
  (num < -1 → r = Panic).
Proof.
  intros Hi Hops Hord Ha r.
  pose proof (shardctrler_once iter sizes meId ops Hord) as He. rewrite Ha, bind_Ret in He.
  destruct (execAll_configsOk iter (onceEach ∅ ops) [zeroConfig]) as (cs & Hex & Hc & _).
  { done. }
  { apply onceEach_Forall, Hops. }
  { split; [done|]. intros [|i] c Hl; by simplify_eq/=. }
  rewrite Hex in He. injection He as Hcs. unfold r, successCommit. simpl. rewrite Hcs.
  destruct (configs_last cs Hc) as (old & Hget & Hlast & _). split; [|split].
  - intros Hn. rewrite decide_False by lia.
    destruct (slice_get_in cs num Hn) as (c & -> & Hl). rewrite bind_Ret. exists c.
    split; [done|]. destruct Hc as [_ Hc]. destruct (Hc _ _ Hl) as [-> _]. lia.
  - intros Hn. rewrite decide_True by lia. rewrite Hget, bind_Ret. by exists old.
  - intros Hn. rewrite decide_False by (pose proof (len_nonneg cs); lia).
    unfold slice_get. by rewrite decide_True by lia.
Qed.

End loop.

(** ** Examples *)

Section examples.

(** A codec that is never used here: the logs below take no snapshot. *)
#[local] Instance noCodec : Codec Snapshot := {| enc _ := []; dec _ := None |}.

Definition ascending (m : gmap Z (list string)) : list Z := elements (dom m).
Definition descending (m : gmap Z (list string)) : list Z := reverse (elements (dom m)).

Lemma ascending_ok : iterOk ascending.
Proof. by intros m. Qed.
Lemma descending_ok : iterOk descending.
Proof. intros m. unfold descending. apply reverse_Permutation. Qed.

Definition joinOp : Op :=
  mkOp OT_Join 1 1 7 (Some (AJoin (mkJoinArgs {[1 := ["a"]; 2 := ["b"]; 3 := ["c"]]} 7 1))).
Definition moveOp : Op := mkOp OT_Move 2 2 7 (Some (AMove (mkMoveArgs 4 3 7 2))).
Definition leaveOp : Op := mkOp OT_Leave 3 3 7 (Some (ALeave (mkLeaveArgs [1] 7 3))).
Definition sampleLog : list Op := [joinOp; joinOp; moveOp; leaveOp].

Lemma joinLog_inOrder : clientsInOrder sampleLog.
Proof.
  intros i j o o' Hij Hi Hj Hc.
  destruct i as [|[|[|[|i]]]], j as [|[|[|[|j]]]]; simplify_eq/=; lia.
Qed.

Lemma sampleLog_ok : Forall opOk sampleLog.
Proof.
  repeat (apply Forall_cons; split; [unfold opOk, NShards; simpl; (done || (split; [done|lia]))|]).
  apply Forall_nil_2.
Qed.



Lemma query_answers_witness : ∃ sc c,
  applyAll ascending (λ _, 0) (commands 1 sampleLog) (StartServer 0) = Ret sc ∧
  successCommit (AQuery (mkQueryArgs 2 9 1)) OT_Query sc = Ret (mkReply false ERR_OK c) ∧ Num c = 2.
Proof.
  set (sc := valueOf (StartServer 0)
    (applyAll ascending (λ _, 0) (commands 1 sampleLog) (StartServer 0))).
  assert (applyAll ascending (λ _, 0) (commands 1 sampleLog) (StartServer 0) = Ret sc) as Ha
    by (vm_compute; reflexivity).
  assert (0 ≤ 2 < len (configs sc)) as Hlen by (vm_compute; split; [discriminate|reflexivity]).
  clearbody sc. destruct (query_answers ascending (λ _, 0) 0 sampleLog sc 2 9 1 ascending_ok sampleLog_ok
    joinLog_inOrder Ha) as [Hq _].
  destruct (Hq Hlen) as (c & Hr & Hn).
  exists sc, c. split; [exact Ha|]. split; [exact Hr|exact Hn].
Defined.

(** [waittingForCommit] leaves the reply as it is when the server is killed
    while the handler waits, and the zero reply is one that the clerk accepts:
    no error, not the wrong leader, and for a [Query] the zero configuration.
    The operation may never be committed. *)
Theorem killed_server_claims_success elapsed op index args opType sc :
  killed sc = true →
  ∃ reply, waittingForCommit elapsed op index args opType sc = Ret (Some reply) ∧
           accepts reply = true ∧ r_Config reply = zeroConfig.
Proof. intros Hk. unfold waittingForCommit. rewrite Hk. by eexists. Qed.

End examples.
