(* ===== verification/ShardKV.v ===== *)
(** * The sharded key/value server ([src/shardkv])

    One replica group of the sharded store: the server ([server.go]), its RPC
    types ([common.go]) and the clerk ([client.go]).  A group serves the shards
    of [shardVec]; it changes configuration in three steps that all go through
    its log ([UpdateShardVec], [ApplyMovement], [ChangeConfig]) and asks the
    old owners to delete what it has taken over ([DeleteShards]). *)

From stdpp Require Import pretty.
From S2P Require Import Prelude RaftState RaftNode Rebalance.
Local Open Scope Z_scope.

(** ** [common.go] *)

Definition OK : string := "OK".
Definition ERR_NoKey : string := "Not such key".
Definition ERR_WrongGroup : string := "Wrong group".
Definition ERR_WrongLeader : string := "Not leader".
Definition ERR_CommitTimeout : string := "Commit timeout".
Definition ERR_FailedToCommit : string := "Failed to commit".
Definition ERR_LowerConfigNum : string := "Lower config number".

Definition OT_GET : string := "Get".
Definition OT_PUT : string := "Put".
Definition OT_APPEND : string := "Append".
Definition OT_ApplyMovement : string := "ApplyMovement".
Definition OT_ChangeConfig : string := "ChangeConfig".
Definition OT_DeleteShards : string := "DeleteShards".
Definition OT_UpdateShardVec : string := "UpdateShardVec".

(** A session: the last operation of one client on one shard. *)
Record Session := mkSession {
  LastOpVaild : bool;
  LastOpIndex : Z;
  LastOpNumber : Z;
  LastOpReqNum : Z;
  LastOpShardNum : Z;
}.
Definition zeroSession : Session := mkSession false 0 0 0 0.

Record PutAppendArgs := mkPutAppendArgs {
  pa_Key : string; pa_Value : string; pa_Op : string; pa_Id : Z; pa_ReqNum : Z;
}.
Record GetArgs := mkGetArgs { ga_Key : string; ga_Id : Z; ga_ReqNum : Z }.
Record ApplyMovementArgs := mkApplyMovementArgs {
  am_Id : Z; am_ReqNum : Z; am_Mp : gmap string string; am_Sessions : gmap string Session;
  am_Config : Config; am_Shards : gmap Z bool;
}.
Record UpdateShardVecArgs := mkUpdateShardVecArgs {
  uv_Id : Z; uv_ReqNum : Z; uv_ConfigNum : Z; uv_NewVec : list bool;
}.
Record ChangeConfigArgs := mkChangeConfigArgs {
  cc_Id : Z; cc_ReqNum : Z; cc_OldNum : Z; cc_NewNum : Z; cc_Config : Config;
}.
Record DeleteShardsArgs := mkDeleteShardsArgs {
  ds_Id : Z; ds_ReqNum : Z; ds_Shards : gmap Z bool; ds_ConfigNum : Z;
}.
Record RequestMapAndSessionArgs := mkRequestArgs {
  rm_Gid : Z; rm_Me : Z; rm_Shards : gmap Z bool; rm_ConfigNum : Z;
}.
Record RequestMapAndSessionReply := mkRequestReply {
  rmr_Err : string; rmr_Mp : gmap string string; rmr_Sessions : gmap string Session;
}.

Inductive GenericArgs :=
| AGet (args : GetArgs)
| APutAppend (args : PutAppendArgs)
| AApplyMovement (args : ApplyMovementArgs)
| AChangeConfig (args : ChangeConfigArgs)
| ADeleteShards (args : DeleteShardsArgs)
| AUpdateShardVec (args : UpdateShardVecArgs).

Definition getId (args : GenericArgs) : Z :=
  match args with
  | AGet a => ga_Id a | APutAppend a => pa_Id a | AApplyMovement a => am_Id a
  | AChangeConfig a => cc_Id a | ADeleteShards a => ds_Id a | AUpdateShardVec a => uv_Id a
  end.
Definition getReqNum (args : GenericArgs) : Z :=
  match args with
  | AGet a => ga_ReqNum a | APutAppend a => pa_ReqNum a | AApplyMovement a => am_ReqNum a
  | AChangeConfig a => cc_ReqNum a | ADeleteShards a => ds_ReqNum a | AUpdateShardVec a => uv_ReqNum a
  end.
Definition getKey (args : GenericArgs) : string :=
  match args with AGet a => ga_Key a | APutAppend a => pa_Key a | _ => "" end.

(** The replies: [Err], [Value] of a [GetReply] and [Num] of a
    [ChangeConfigReply]. *)
Record Reply := mkReply { r_Err : string; r_Value : string; r_Num : Z }.

(** ** [client.go]: the shard of a key *)

(** The byte [key[0]], or 0 for the empty key, modulo the number of shards. *)
Definition key2shard (key : string) : Z :=
  match key with
  | EmptyString => 0
  | String c _ => Z.of_N (Ascii.N_of_ascii c)
  end mod Z.of_nat NShards.

(** [strconv.FormatInt(ckId, 10) + strconv.FormatInt(shardNum, 10)] *)
Definition uniKey (ckId shardNum : Z) : string := pretty ckId +:+ pretty shardNum.

(** [uniKey[0] != '-']: the session of a client, not of a server. *)
Definition isClientKey (k : string) : outcome bool :=
  match k with
  | EmptyString => Panic
  | String c _ => mret (bool_decide (c ≠ Ascii.ascii_of_nat 45))
  end.

(** ** [server.go]: data *)

Record Op := mkOp {
  op_Type : string;
  op_Number : Z;
  op_ReqNum : Z;
  op_CkId : Z;
  op_ShardNum : Z;
  op_Args : option GenericArgs;
}.

Record Snapshot := mkSnapshot {
  Mp : gmap string string;
  CkSessions : gmap string Session;
  SnapConfig : Config;
  ShardLastNums : list Z;
  ShardVec : list bool;
  Maker : Z;
}.

Record ShardKV := mkShardKV {
  kv_me : Z;
  gid : Z;
  config : Config;
  kv_dead : bool;
  maxraftstate : Z;
  mp : gmap string string;
  ckSessions : gmap string Session;
  logRecord : gmap Z Op;
  confirmMap : gmap Z bool;
  kv_lastApplied : Z;
  uid : Z;
  localReqNum : Z;
  shardLastNums : list Z;
  shardVec : list bool;
}.

Definition set_mp kv (x : gmap string string) : ShardKV :=
  mkShardKV (kv_me kv) (gid kv) (config kv) (kv_dead kv) (maxraftstate kv) x (ckSessions kv)
    (logRecord kv) (confirmMap kv) (kv_lastApplied kv) (uid kv) (localReqNum kv)
    (shardLastNums kv) (shardVec kv).
Definition set_sessions kv (x : gmap string Session) : ShardKV :=
  mkShardKV (kv_me kv) (gid kv) (config kv) (kv_dead kv) (maxraftstate kv) (mp kv) x
    (logRecord kv) (confirmMap kv) (kv_lastApplied kv) (uid kv) (localReqNum kv)
    (shardLastNums kv) (shardVec kv).
Definition set_config kv (x : Config) : ShardKV :=
  mkShardKV (kv_me kv) (gid kv) x (kv_dead kv) (maxraftstate kv) (mp kv) (ckSessions kv)
    (logRecord kv) (confirmMap kv) (kv_lastApplied kv) (uid kv) (localReqNum kv)
    (shardLastNums kv) (shardVec kv).
Definition set_shards kv (nums : list Z) (vec : list bool) : ShardKV :=
  mkShardKV (kv_me kv) (gid kv) (config kv) (kv_dead kv) (maxraftstate kv) (mp kv) (ckSessions kv)
    (logRecord kv) (confirmMap kv) (kv_lastApplied kv) (uid kv) (localReqNum kv) nums vec.
Definition set_records kv (r : gmap Z Op) (c : gmap Z bool) (last : Z) : ShardKV :=
  mkShardKV (kv_me kv) (gid kv) (config kv) (kv_dead kv) (maxraftstate kv) (mp kv) (ckSessions kv)
    r c last (uid kv) (localReqNum kv) (shardLastNums kv) (shardVec kv).
Definition set_localReqNum kv (n : Z) : ShardKV :=
  mkShardKV (kv_me kv) (gid kv) (config kv) (kv_dead kv) (maxraftstate kv) (mp kv) (ckSessions kv)
    (logRecord kv) (confirmMap kv) (kv_lastApplied kv) (uid kv) n (shardLastNums kv) (shardVec kv).

Definition zeroConfig : Config := mkConfig 0 (replicate NShards 0) ∅.

Definition StartServer (meId maxraftstate gid nrand : Z) : ShardKV :=
  mkShardKV meId gid zeroConfig false maxraftstate ∅ ∅ ∅ ∅ 0 (- nrand) 1
    (replicate NShards 0) (replicate NShards false).

Definition killed kv : bool := kv_dead kv.
Definition Kill kv : ShardKV :=
  mkShardKV (kv_me kv) (gid kv) (config kv) true (maxraftstate kv) (mp kv) (ckSessions kv)
    (logRecord kv) (confirmMap kv) (kv_lastApplied kv) (uid kv) (localReqNum kv)
    (shardLastNums kv) (shardVec kv).

(** ** The RPC handlers *)

(** [RequestMapAndSession]: a copy of the requested shards. *)
Definition RequestMapAndSession (args : RequestMapAndSessionArgs) (rf : Raft Op) kv
  : outcome RequestMapAndSessionReply :=
  if negb (GetState rf).2 then mret (mkRequestReply ERR_WrongLeader ∅ ∅)
  else if decide (Num (config kv) < rm_ConfigNum args)
  then mret (mkRequestReply ERR_LowerConfigNum ∅ ∅)
  else
    let replyMp := filter (λ '(key, _), map_get false (rm_Shards args) (key2shard key) = true) (mp kv) in
    replySession ← for_range (λ acc '(key, value),
        b ← isClientKey key;
        mret (if b && map_get false (rm_Shards args) (LastOpShardNum value)
              then <[key := value]> acc else acc))
      ∅ (map_to_list (ckSessions kv));
    mret (mkRequestReply OK replyMp replySession).

(** [successCommit] *)
Definition successCommit (args : GenericArgs) (opType : string) kv : outcome Reply :=
  if decide (opType = OT_GET) then
    match args with
    | AGet a => mret (mkReply OK (map_get "" (mp kv) (ga_Key a)) 0)
    | _ => Panic
    end
  else if decide (opType = OT_PUT ∨ opType = OT_APPEND) then mret (mkReply OK "" 0)
  else if decide (opType = OT_ChangeConfig) then mret (mkReply OK "" (Num (config kv)))
  else if decide (opType = OT_ApplyMovement ∨ opType = OT_DeleteShards ∨ opType = OT_UpdateShardVec)
  then mret (mkReply OK "" 0)
  else Fatal.

(** The type switch that fills [op.Args]. *)
Definition opArgs (args : GenericArgs) (opType : string) : outcome (option GenericArgs) :=
  if decide (opType = OT_GET) then match args with AGet _ => mret (Some args) | _ => Panic end
  else if decide (opType = OT_PUT ∨ opType = OT_APPEND) then
    match args with APutAppend _ => mret (Some args) | _ => Panic end
  else if decide (opType = OT_ChangeConfig) then
    match args with AChangeConfig _ => mret (Some args) | _ => Panic end
  else if decide (opType = OT_ApplyMovement) then
    match args with AApplyMovement _ => mret (Some args) | _ => Panic end
  else if decide (opType = OT_DeleteShards) then
    match args with ADeleteShards _ => mret (Some args) | _ => Panic end
  else if decide (opType = OT_UpdateShardVec) then
    match args with AUpdateShardVec _ => mret (Some args) | _ => Panic end
  else mret None.

Inductive rpc := Replied (reply : Reply) | Waiting (op : Op) (index : Z).

Definition handleNormalRPC `{Codec (@persistent Op)} (number : Z) (args : GenericArgs)
    (opType : string) kv (rf : Raft Op) : outcome (Raft Op * rpc) :=
  if negb (GetState rf).2 then mret (rf, Replied (mkReply ERR_WrongLeader "" 0))
  else
    serves ← (if decide (0 <= getId args) then slice_get (shardVec kv) (key2shard (getKey args))
              else mret true);
    if negb serves then mret (rf, Replied (mkReply ERR_WrongGroup "" 0))
    else
      let session := map_get zeroSession (ckSessions kv)
                       (uniKey (getId args) (key2shard (getKey args))) in
      let finishedBefore :=
        LastOpVaild session && bool_decide (LastOpReqNum session = getReqNum args) &&
        match logRecord kv !! LastOpIndex session with
        | Some op => bool_decide (op_Number op = LastOpNumber session)
        | None => false
        end in
      if finishedBefore : bool then
        reply ← successCommit args opType kv; mret (rf, Replied reply)
      else
        a ← opArgs args opType;
        let op := mkOp opType number (getReqNum args) (getId args) (key2shard (getKey args)) a in
        r ← Start (Some op) rf;
        let '(rf, (index, _, isLeader)) := r in
        if isLeader : bool then mret (rf, Waiting op index)
        else mret (rf, Replied (mkReply ERR_WrongLeader "" 0)).

Definition Get `{Codec (@persistent Op)} number (args : GetArgs) :=
  handleNormalRPC number (AGet args) OT_GET.
Definition Put `{Codec (@persistent Op)} number (args : PutAppendArgs) :=
  handleNormalRPC number (APutAppend args) OT_PUT.
Definition Append `{Codec (@persistent Op)} number (args : PutAppendArgs) :=
  handleNormalRPC number (APutAppend args) OT_APPEND.
Definition DeleteShards `{Codec (@persistent Op)} number (args : DeleteShardsArgs) :=
  handleNormalRPC number (ADeleteShards args) OT_DeleteShards.

(** One round of the loop of [waittingForCommit]. *)
Definition waittingForCommit (elapsed : Z) (op : Op) (index : Z) (args : GenericArgs)
    (opType : string) kv : outcome (option Reply) :=
  if killed kv then mret (Some (mkReply "" "" 0))
  else
    let rest := if decide (elapsed > 30 * 1000000)
                then Some (mkReply ERR_CommitTimeout "" 0) else None in
    if decide (index <= kv_lastApplied kv) then
      match logRecord kv !! index with
      | Some finishedOp =>
          if decide (op_Number finishedOp = op_Number op)
          then reply ← successCommit args opType kv; mret (Some reply)
          else mret (Some (mkReply ERR_FailedToCommit "" 0))
      | None => mret rest
      end
    else mret rest.

(** ** The operations of the log *)

(** [Get], [Put] and [Append]: only on a shard that the group serves. *)
Definition applyClient (opType : string) (args : GenericArgs) kv : outcome (ShardKV * bool) :=
  serves ← slice_get (shardVec kv) (key2shard (getKey args));
  if serves : bool then
    match args with
    | APutAppend a =>
        if decide (opType = OT_PUT) then mret (set_mp kv (<[pa_Key a := pa_Value a]> (mp kv)), true)
        else mret (set_mp kv (<[pa_Key a := map_get "" (mp kv) (pa_Key a) +:+ pa_Value a]> (mp kv)), true)
    | _ => mret (kv, true)
    end
  else mret (kv, false).

(** [ChangeConfig] *)
Definition applyChangeConfig (a : ChangeConfigArgs) kv : outcome ShardKV :=
  if decide (Num (config kv) < Num (cc_Config a)) then
    st ← for_range (λ '(nums, vec) '(shard, g),
        if decide (g = gid kv) then
          vec ← slice_set vec (Z.of_nat shard) true;
          nums ← slice_set nums (Z.of_nat shard) (Num (cc_Config a));
          mret (nums, vec)
        else
          vec ← slice_set vec (Z.of_nat shard) false;
          mret (nums, vec))
      (shardLastNums kv, shardVec kv) (imap pair (Shards (cc_Config a)));
    mret (set_shards (set_config kv (cc_Config a)) st.1 st.2)
  else mret kv.

(** [ApplyMovement]: its three loops. *)
Definition movedMp (nums : list Z) (num : Z) (m : gmap string string) (l : list (string * string))
  : outcome (gmap string string) :=
  for_range (λ m '(key, value),
      n ← slice_get nums (key2shard key);
      mret (if decide (n >= num) then m else <[key := value]> m)) m l.

Definition movedSessions (nums : list Z) (num : Z) (ss : gmap string Session)
    (l : list (string * Session)) : outcome (gmap string Session) :=
  for_range (λ ss '(key, s),
      b ← isClientKey key;
      refuse ← (if b : bool then
                  n ← slice_get nums (LastOpShardNum s); mret (bool_decide (n >= num))
                else mret false);
      mret (if refuse : bool then ss
            else <[key := mkSession (LastOpVaild s) (-1) (LastOpNumber s) (LastOpReqNum s)
                            (LastOpShardNum s)]> ss)) ss l.

Definition movedShards (num : Z) (st : list Z * list bool) (l : list (Z * bool))
  : outcome (list Z * list bool) :=
  for_range (λ '(nums, vec) '(shard, _),
      vec ← slice_set vec shard true;
      nums ← slice_set nums shard num;
      mret (nums, vec)) st l.

Definition applyApplyMovement (a : ApplyMovementArgs) kv : outcome ShardKV :=
  let num := Num (am_Config a) in
  m ← movedMp (shardLastNums kv) num (mp kv) (map_to_list (am_Mp a));
  ss ← movedSessions (shardLastNums kv) num (ckSessions kv) (map_to_list (am_Sessions a));
  st ← movedShards num (shardLastNums kv, shardVec kv) (map_to_list (am_Shards a));
  mret (set_shards (set_sessions (set_mp kv m) ss) st.1 st.2).

(** [DeleteShards]: first the shards that must stay are taken out of the set.
    That set is the one of the operation in the log: the new value is returned
    too. *)
Definition deletable (nums : list Z) (num : Z) (l : list (Z * bool)) (shards : gmap Z bool)
  : outcome (gmap Z bool) :=
  for_range (λ shards '(shard, _),
      n ← slice_get nums shard;
      mret (if decide (num < n) then delete shard shards else shards)) shards l.

Definition deletedSessions (shards : gmap Z bool) (ss : gmap string Session)
    (l : list (string * Session)) : outcome (gmap string Session) :=
  for_range (λ ss '(key, s),
      b ← isClientKey key;
      mret (if b && map_get false shards (LastOpShardNum s) then delete key ss else ss)) ss l.

Definition applyDeleteShards (a : DeleteShardsArgs) kv : outcome (ShardKV * DeleteShardsArgs) :=
  shards ← deletable (shardLastNums kv) (ds_ConfigNum a) (map_to_list (ds_Shards a)) (ds_Shards a);
  let m := filter (λ '(key, _), map_get false shards (key2shard key) = false) (mp kv) in
  ss ← deletedSessions shards (ckSessions kv) (map_to_list (ckSessions kv));
  mret (set_sessions (set_mp kv m) ss,
        mkDeleteShardsArgs (ds_Id a) (ds_ReqNum a) shards (ds_ConfigNum a)).

(** [UpdateShardVec] *)
Definition applyUpdateShardVec (a : UpdateShardVecArgs) kv : ShardKV :=
  if decide (Num (config kv) < uv_ConfigNum a)
  then set_shards kv (shardLastNums kv) (uv_NewVec a) else kv.

(** [applyOp]: the new server, whether the operation was applied, and the
    operation as the log now has it. *)
Definition applyOp (op : Op) kv : outcome (ShardKV * bool * Op) :=
  let t := op_Type op in
  if decide (t = OT_GET) then
    match op_Args op with
    | Some (AGet a) => r ← applyClient t (AGet a) kv; mret (r, op)
    | _ => Panic
    end
  else if decide (t = OT_PUT ∨ t = OT_APPEND) then
    match op_Args op with
    | Some (APutAppend a) => r ← applyClient t (APutAppend a) kv; mret (r, op)
    | _ => Panic
    end
  else if decide (t = OT_ChangeConfig) then
    match op_Args op with
    | Some (AChangeConfig a) => kv ← applyChangeConfig a kv; mret (kv, true, op)
    | _ => Panic
    end
  else if decide (t = OT_ApplyMovement) then
    match op_Args op with
    | Some (AApplyMovement a) => kv ← applyApplyMovement a kv; mret (kv, true, op)
    | _ => Panic
    end
  else if decide (t = OT_DeleteShards) then
    match op_Args op with
    | Some (ADeleteShards a) =>
        r ← applyDeleteShards a kv;
        mret (r.1, true, mkOp (op_Type op) (op_Number op) (op_ReqNum op) (op_CkId op)
                           (op_ShardNum op) (Some (ADeleteShards r.2)))
    | _ => Panic
    end
  else if decide (t = OT_UpdateShardVec) then
    match op_Args op with
    | Some (AUpdateShardVec a) => mret (applyUpdateShardVec a kv, true, op)
    | _ => Panic
    end
  else Fatal.

(** ** The apply loop *)

Definition stable (op : Op) (index : Z) (session : Session) : bool :=
  LastOpVaild session && bool_decide (LastOpIndex session < index)
  && bool_decide (op_ReqNum op <= LastOpReqNum session).

Definition sessionOf (op : Op) (index : Z) : Session :=
  mkSession true index (op_Number op) (op_ReqNum op) (op_ShardNum op).

Definition pruneRecords (records : gmap Z Op) (confirm : gmap Z bool) : gmap Z Op * gmap Z bool :=
  (filter (λ '(key, _), map_get false confirm key = false) records,
   filter (λ '(key, _), ¬ (map_get false confirm key = true ∧ is_Some (records !! key))) confirm).

Definition snapshotOf kv : Snapshot :=
  mkSnapshot (mp kv) (ckSessions kv) (config kv) (shardLastNums kv) (shardVec kv) (kv_me kv).

Definition installSnapshot (s : Snapshot) (index : Z) kv : ShardKV :=
  set_records
    (set_shards (set_config (set_sessions (set_mp kv (Mp s)) (CkSessions s)) (SnapConfig s))
       (ShardLastNums s) (ShardVec s))
    (logRecord kv) (confirmMap kv) index.

(** The part of an iteration of [handleApplyMsg] for a command, up to the
    snapshot check; [false] when the operation was stable. *)
Definition applyCommand (op : Op) (index : Z) kv : outcome (ShardKV * bool) :=
  let k := uniKey (op_CkId op) (op_ShardNum op) in
  let session := map_get zeroSession (ckSessions kv) k in
  let kv := set_records kv (<[index := op]> (logRecord kv)) (confirmMap kv) index in
  if stable op index session
  then mret (set_sessions kv (<[k := sessionOf op index]> (ckSessions kv)), false)
  else
    r ← applyOp op kv;
    let '(kv, applied, op) := r in
    if applied : bool then
      mret (set_records (set_sessions kv (<[k := sessionOf op index]> (ckSessions kv)))
              (<[index := op]> (logRecord kv)) (confirmMap kv) index, true)
    else
      (* let waittingForCommit() fail *)
      let failed := mkOp (op_Type op) (-1) (op_ReqNum op) (op_CkId op) (op_ShardNum op) (op_Args op) in
      mret (set_records kv (<[index := failed]> (logRecord kv)) (confirmMap kv) index, true).

Definition handleApplyMsg `{Codec Snapshot} (size : Z) (m : ApplyMsg Op) kv
  : outcome (ShardKV * option (Z * bytes)) :=
  if CommandValid m then
    match msgCommand m with
    | None => Panic
    | Some op =>
        r ← applyCommand op (CommandIndex m) kv;
        let '(kv, checks) := r in
        if decide (checks = true ∧ maxraftstate kv ≠ -1 ∧ size >= maxraftstate kv) then
          let '(records, confirm) := pruneRecords (logRecord kv) (confirmMap kv) in
          mret (set_records kv records confirm (kv_lastApplied kv),
                Some (CommandIndex m, enc (snapshotOf kv)))
        else mret (kv, None)
    end
  else if SnapshotValid m then
    let s := default (mkSnapshot ∅ ∅ zeroConfig (replicate NShards 0) (replicate NShards false) 0)
               (dec (msgSnapshot m)) in
    mret (installSnapshot s (msgSnapshotIndex m) kv, None)
  else mret (kv, None).

(** ** Changing the configuration *)

(** [pollConfig], phase 1: the shards that the group has and keeps. *)
Definition newShardVec (g : Z) (old next : Config) : list bool :=
  zip_with (λ o n, bool_decide ((o = g ∨ o = 0) ∧ n = g)) (Shards old) (Shards next).

Definition pollUpdate (next : Config) kv : ShardKV * UpdateShardVecArgs :=
  (set_localReqNum kv (localReqNum kv + 1),
   mkUpdateShardVecArgs (uid kv) (localReqNum kv) (Num next) (newShardVec (gid kv) (config kv) next)).

(** Phase 3. *)
Definition pollChange (next : Config) kv : ShardKV * ChangeConfigArgs :=
  (set_localReqNum kv (localReqNum kv + 1),
   mkChangeConfigArgs (uid kv) (localReqNum kv) (Num (config kv)) (Num next) next).

(** [MoveShards]: the shards to fetch, by the group that had them. *)
Definition receiveFrom (g : Z) (old next : Config) : gmap Z (gmap Z bool) :=
  foldl (λ m '(i, (o, n)),
      if decide (o ≠ g ∧ n = g) then <[o := <[Z.of_nat i := true]> (map_get ∅ m o)]> m else m)
    ∅ (imap pair (zip (Shards old) (Shards next))).

(** Its early returns: nothing to move. *)
Definition MoveShards (old next : Config) kv : option (gmap Z (gmap Z bool)) :=
  if decide (Num old = 0) then None
  else if decide (Num old = Num next) then None
  else Some (receiveFrom (gid kv) old next).

(** The servers that a goroutine of [MoveShards] asks: the outer loop runs until
    some answer is [OK], and does nothing but sleep when there is no group. *)
Definition askedServers (old : Config) (srcGid : Z) : list string := map_get [] (Groups old) srcGid.

Definition movementArgs (reply : RequestMapAndSessionReply) (next : Config) (shards : gmap Z bool) kv
  : ShardKV * ApplyMovementArgs :=
  (set_localReqNum kv (localReqNum kv + 1),
   mkApplyMovementArgs (uid kv) (localReqNum kv) (rmr_Mp reply) (rmr_Sessions reply) next shards).

Definition deleteArgs (next : Config) (shards : gmap Z bool) kv : ShardKV * DeleteShardsArgs :=
  (set_localReqNum kv (localReqNum kv + 1),
   mkDeleteShardsArgs (uid kv) (localReqNum kv) shards (Num next)).

(** ** The clerk *)

Record Clerk := mkClerk { ck_config : Config; ck_id : Z; reqNum : Z }.

Definition MakeClerk (nrand : Z) : Clerk := mkClerk zeroConfig nrand 1.

Definition clerkGet (key : string) (ck : Clerk) : Clerk * GetArgs :=
  (mkClerk (ck_config ck) (ck_id ck) (reqNum ck + 1), mkGetArgs key (ck_id ck) (reqNum ck)).
Definition clerkPutAppend (key value op : string) (ck : Clerk) : Clerk * PutAppendArgs :=
  (mkClerk (ck_config ck) (ck_id ck) (reqNum ck + 1),
   mkPutAppendArgs key value op (ck_id ck) (reqNum ck)).

Definition clerkPut (key value : string) := clerkPutAppend key value "Put".
Definition clerkAppend (key value : string) := clerkPutAppend key value "Append".

(** The servers to try for a key. *)
Definition clerkServers (key : string) (ck : Clerk) : outcome (list string) :=
  g ← slice_get (Shards (ck_config ck)) (key2shard key);
  mret (map_get [] (Groups (ck_config ck)) g).

(** One pass over them: the final reply, or [None] to ask the controller and
    try again.  [isGet] accepts [ERR_NoKey] as well. *)
Fixpoint clerkPass (isGet : bool) (results : list (option Reply)) : option Reply :=
  match results with
  | [] => None
  | None :: results => clerkPass isGet results
  | Some reply :: results =>
      if decide (r_Err reply = OK ∨ isGet = true ∧ r_Err reply = ERR_NoKey) then Some reply
      else if decide (r_Err reply = ERR_WrongGroup) then None
      else clerkPass isGet results
  end.

(** The loop of [Get] and [PutAppend]: in every round the answers of the servers
    that the clerk's configuration names ([None]: the call failed), and the
    configuration that the controller then gives. *)
Fixpoint clerkLoop (isGet : bool) (key : string) (rounds : list (list (option Reply) * Config)) (ck : Clerk)
  : outcome (option Reply * Clerk) :=
  match rounds with
  | [] => mret (None, ck)
  | (results, latest) :: rounds =>
      servers ← clerkServers key ck;
      match clerkPass isGet (take (length servers) results) with
      | Some reply => mret (Some reply, ck)
      | None => clerkLoop isGet key rounds (mkClerk latest (ck_id ck) (reqNum ck))
      end
  end.
