(* ===== verification/ShardKVSpec.v ===== *)
(** * The sharded key/value server: what its log operations do

    Each operation of [ShardKV] against a description that does not depend on
    the order in which Go iterates over maps; ownership of shards; movement of
    shards between two groups; the two loops that decide what to move. *)

From stdpp Require Import pretty.
From S2P Require Import Prelude RaftState RaftNode Rebalance ShardKV.
Local Open Scope Z_scope.

(** ** Loops over maps *)

(** A loop over the pairs of a map, whose body changes only what belongs to the
    key at hand: the result is described key by key, whatever the order. *)
Lemma for_range_get {M K W X} `{Countable K} (I : M → Prop) (P : K → Prop) (get : M → K → X)
    (g : K → W → X → X) (f : M → K * W → outcome M) (l : list (K * W)) m :
  (∀ m k w, I m → (k, w) ∈ l → P k ∧ ∃ m', f m (k, w) = Ret m' ∧ I m' ∧
     get m' k = g k w (get m k) ∧ ∀ k', P k' → k' ≠ k → get m' k' = get m k') →
  NoDup l.*1 → I m →
  ∃ m', for_range f m l = Ret m' ∧ I m' ∧ ∀ k, P k →
    get m' k = match (list_to_map l : gmap K W) !! k with
               | Some w => g k w (get m k) | None => get m k end.
Proof.
  revert m. induction l as [|[k w] l IH]; intros m Hf Hnd HI; [by exists m|].
  simpl in Hnd. apply NoDup_cons in Hnd as [Hk Hnd]. cbn [for_range].
  destruct (Hf m k w HI ltac:(left)) as (HP & m1 & -> & HI1 & Hg & Ho). rewrite bind_Ret.
  destruct (IH m1) as (m' & Hr & HI' & Hm); [|done|done|].
  { intros m2 k2 w2 HI2 Hin. apply Hf; [done|by right]. }
  exists m'. split; [done|]. split; [done|]. intros k' Hk'. rewrite (Hm k' Hk').
  simpl list_to_map. destruct (decide (k' = k)) as [->|Hne].
  - rewrite lookup_insert_eq. by rewrite (not_elem_of_list_to_map_1 l k).
  - rewrite lookup_insert_ne by done. by rewrite Ho.
Qed.

(** The same for a loop over [map_to_list m0], with a map as the state. *)
Lemma for_range_map {K V W} `{Countable K} (g : K → W → option V → option V)
    (f : gmap K V → K * W → outcome (gmap K V)) (m0 : gmap K W) m :
  (∀ m k w, m0 !! k = Some w → ∃ m', f m (k, w) = Ret m' ∧ m' !! k = g k w (m !! k) ∧
     ∀ k', k' ≠ k → m' !! k' = m !! k') →
  ∃ m', for_range f m (map_to_list m0) = Ret m' ∧ ∀ k,
    m' !! k = match m0 !! k with Some w => g k w (m !! k) | None => m !! k end.
Proof.
  intros Hf.
  destruct (for_range_get (λ _, True) (λ _, True) (λ (m : gmap K V) k, m !! k) g f (map_to_list m0) m)
    as (m' & Hr & _ & Hm).
  - intros m1 k w _ Hin%elem_of_map_to_list. destruct (Hf m1 k w Hin) as (m2 & ? & ? & ?). eauto 10.
  - apply NoDup_fst_map_to_list.
  - done.
  - exists m'. split; [done|]. intros k. by rewrite (Hm k I), list_to_map_to_list.
Qed.

(** ** Keys *)

Definition inRange (s : Z) : Prop := 0 ≤ s < Z.of_nat NShards.

Lemma key2shard_range k : inRange (key2shard k).
Proof. unfold key2shard. apply Z.mod_pos_bound. done. Qed.

Lemma slice_get_range {A} (l : list A) s : length l = NShards → inRange s →
  ∃ x, slice_get l s = Ret x ∧ l !! Z.to_nat s = Some x.
Proof. intros Hl Hs. apply slice_get_in. unfold inRange, len in *. by rewrite Hl. Qed.

Lemma string_app_inv_1 (a b : string) (c d : Ascii.ascii) :
  (a +:+ String c "" = b +:+ String d "") → a = b ∧ c = d.
Proof.
  revert b. induction a as [|x a IH]; intros [|y b] Heq; simpl in Heq.
  - by injection Heq as ->.
  - injection Heq as _ Heq. by destruct b.
  - injection Heq as _ Heq. by destruct a.
  - injection Heq as -> Heq. by destruct (IH _ Heq) as [-> ->].
Qed.

(** One digit. *)
Lemma pretty_shard s : inRange s → pretty s = String (pretty_N_char (Z.to_N s)) "".
Proof.
  unfold inRange, NShards. intros Hs.
  assert (s = 0 ∨ s = 1 ∨ s = 2 ∨ s = 3 ∨ s = 4 ∨ s = 5 ∨ s = 6 ∨ s = 7 ∨ s = 8 ∨ s = 9) as Hc by lia.
  by repeat (destruct Hc as [->|Hc]; [reflexivity|]); subst.
Qed.

(** Session keys identify client and shard.  The decimal digits of the client
    id followed by those of the shard are different for different pairs, because
    a shard has one digit. *)
Lemma uniKey_injective c c' s s' : inRange s → inRange s' →
  uniKey c s = uniKey c' s' → c = c' ∧ s = s'.
Proof.
  intros Hs Hs'. unfold uniKey. rewrite (pretty_shard s), (pretty_shard s') by done.
  intros [Hc Hd]%string_app_inv_1. split; [by apply (inj pretty)|].
  unfold inRange, NShards in *. apply pretty_N_char_inj in Hd; lia.
Qed.

Lemma uniKey_nonempty c s : inRange s → uniKey c s ≠ "".
Proof. intros Hs. unfold uniKey. rewrite (pretty_shard s) by done. by destruct (pretty c). Qed.

(** ** Well-formed servers and operations *)

Definition sessionsOk (ss : gmap string Session) : Prop :=
  ∀ k s, ss !! k = Some s → k ≠ "" ∧ inRange (LastOpShardNum s).

Record kvOk kv : Prop := {
  ko_vec : length (shardVec kv) = NShards;
  ko_nums : length (shardLastNums kv) = NShards;
  ko_sessions : sessionsOk (ckSessions kv);
}.

(** An operation as [handleNormalRPC] builds it. *)
Definition opOk (op : Op) : Prop :=
  inRange (op_ShardNum op) ∧
  match op_Args op with
  | Some (AGet a) => op_Type op = OT_GET
  | Some (APutAppend a) => op_Type op = OT_PUT ∨ op_Type op = OT_APPEND
  | Some (AApplyMovement a) => op_Type op = OT_ApplyMovement ∧ sessionsOk (am_Sessions a) ∧
      ∀ s b, am_Shards a !! s = Some b → inRange s
  | Some (AChangeConfig a) => op_Type op = OT_ChangeConfig ∧ length (Shards (cc_Config a)) = NShards
  | Some (ADeleteShards a) => op_Type op = OT_DeleteShards ∧
      ∀ s b, ds_Shards a !! s = Some b → inRange s
  | Some (AUpdateShardVec a) => op_Type op = OT_UpdateShardVec ∧ length (uv_NewVec a) = NShards
  | None => False
  end.

(** The number of the last configuration in which the group got shard [s]. *)
Definition lastNum kv (s : Z) : Z := default 0 (shardLastNums kv !! Z.to_nat s).
Definition serves kv (s : Z) : bool := default false (shardVec kv !! Z.to_nat s).
Definition clientKey (k : string) : bool :=
  match k with EmptyString => false | String c _ => bool_decide (c ≠ Ascii.ascii_of_nat 45) end.

Lemma isClientKey_eq k : k ≠ "" → isClientKey k = Ret (clientKey k).
Proof. by destruct k. Qed.

Lemma lastNum_get kv s : kvOk kv → inRange s → slice_get (shardLastNums kv) s = Ret (lastNum kv s).
Proof.
  intros Hk Hs. destruct (slice_get_range _ s (ko_nums _ Hk) Hs) as (x & -> & Hx).
  unfold lastNum. by rewrite Hx.
Qed.

Lemma serves_get kv s : kvOk kv → inRange s → slice_get (shardVec kv) s = Ret (serves kv s).
Proof.
  intros Hk Hs. destruct (slice_get_range _ s (ko_vec _ Hk) Hs) as (x & -> & Hx).
  unfold serves. by rewrite Hx.
Qed.

(** ** [ChangeConfig] *)

Definition ownsIn (c : Config) (g s : Z) : Prop := Shards c !! Z.to_nat s = Some g.

Lemma list_to_map_imap {A} (l : list A) (i : nat) :
  (list_to_map (imap pair l) : gmap nat A) !! i = l !! i.
Proof.
  destruct (l !! i) as [x|] eqn:Hi.
  - apply elem_of_list_to_map_1; [rewrite imap_pair_fst; apply NoDup_seq|].
    apply elem_of_lookup_imap. eauto.
  - apply not_elem_of_list_to_map_1. rewrite imap_pair_fst, elem_of_seq.
    apply lookup_ge_None in Hi. lia.
Qed.

Lemma applyChangeConfig_newer a kv : kvOk kv → length (Shards (cc_Config a)) = NShards →
  Num (config kv) < Num (cc_Config a) →
  ∃ kv', applyChangeConfig a kv = Ret kv' ∧ kvOk kv' ∧ config kv' = cc_Config a ∧
    mp kv' = mp kv ∧ ckSessions kv' = ckSessions kv ∧ gid kv' = gid kv ∧
    ∀ s, inRange s →
      (serves kv' s = true ↔ ownsIn (cc_Config a) (gid kv) s) ∧
      (lastNum kv' s = if serves kv' s then Num (cc_Config a) else lastNum kv s).
Proof.
  intros Hk Hlen Hlt. unfold applyChangeConfig. rewrite decide_True by done.
  set (num := Num (cc_Config a)).
  match goal with |- context [for_range ?F _ _] => set (f := F) end.
  destruct (for_range_get
    (λ st : list Z * list bool, length st.1 = NShards ∧ length st.2 = NShards)
    (λ s : nat, (s < NShards)%nat) (λ st s, (st.1 !! s, st.2 !! s))
    (λ s g x, if decide (g = gid kv) then (Some num, Some true) else (x.1, Some false))
    f (imap pair (Shards (cc_Config a))) (shardLastNums kv, shardVec kv))
    as ([nums vec] & Hr & [Hl1 Hl2] & Hget).
  - intros [nums vec] s g [H1 H2] (i & y & Heq & Hi)%elem_of_lookup_imap. simplify_eq. simpl in *.
    pose proof (lookup_lt_Some _ _ _ Hi) as Hs. rewrite Hlen in Hs. split; [done|]. unfold f.
    assert (0 ≤ Z.of_nat i < len vec ∧ 0 ≤ Z.of_nat i < len nums) as [Hv Hn]
      by (unfold len; rewrite H1, H2; lia).
    case_decide as Hg; rewrite ?slice_set_in by done; rewrite bind_Ret, ?slice_set_in by done;
      rewrite ?bind_Ret, ?Nat2Z.id; eexists; (split; [reflexivity|]); simpl;
      rewrite ?length_insert; (split; [done|]); fold num; rewrite ?list_lookup_insert_eq by lia;
      (split; [done|]); intros k' _ Hne; by rewrite ?list_lookup_insert_ne by done.
  - rewrite imap_pair_fst. apply NoDup_seq.
  - split; apply Hk.
  - rewrite Hr, bind_Ret. eexists. split; [reflexivity|]. split; [split; [done|done|apply Hk]|].
    do 4 (split; [done|]). intros s Hs. specialize (Hget (Z.to_nat s)).
    rewrite list_to_map_imap in Hget. unfold inRange in Hs.
    destruct (lookup_lt_is_Some_2 (Shards (cc_Config a)) (Z.to_nat s)) as [g Hg]; [lia|].
    rewrite Hg in Hget. unfold serves, lastNum, ownsIn. simpl in *. rewrite Hg.
    assert (Z.to_nat s < NShards)%nat as Hs' by lia. specialize (Hget Hs').
    case_decide as Hd; injection Hget as -> ->; simpl; naive_solver.
Qed.

(** ** [ApplyMovement] *)

(** The session that is installed at the destination. *)
Definition movedSession (s : Session) : Session :=
  mkSession (LastOpVaild s) (-1) (LastOpNumber s) (LastOpReqNum s) (LastOpShardNum s).

Lemma movedMp_spec kv num am : kvOk kv →
  ∃ m', movedMp (shardLastNums kv) num (mp kv) (map_to_list am) = Ret m' ∧ ∀ k,
    m' !! k = match am !! k with
              | Some v => if decide (lastNum kv (key2shard k) >= num) then mp kv !! k else Some v
              | None => mp kv !! k end.
Proof.
  intros Hk. unfold movedMp. eapply (for_range_map (λ k v x,
    if decide (lastNum kv (key2shard k) >= num) then x else Some v)).
  intros m k v _. rewrite (lastNum_get _ _ Hk (key2shard_range k)), bind_Ret.
  eexists. split; [reflexivity|]. case_decide; [done|].
  rewrite lookup_insert_eq. split; [done|]. intros k' Hne. by rewrite lookup_insert_ne.
Qed.

Lemma movedSessions_spec kv num am : kvOk kv → sessionsOk am →
  ∃ ss', movedSessions (shardLastNums kv) num (ckSessions kv) (map_to_list am) = Ret ss' ∧ ∀ k,
    ss' !! k = match am !! k with
               | Some s => if decide (clientKey k = true ∧ lastNum kv (LastOpShardNum s) >= num)
                           then ckSessions kv !! k else Some (movedSession s)
               | None => ckSessions kv !! k end.
Proof.
  intros Hk Ham. unfold movedSessions. eapply (for_range_map (λ k s x,
    if decide (clientKey k = true ∧ lastNum kv (LastOpShardNum s) >= num) then x
    else Some (movedSession s))).
  intros ss k s Hs. destruct (Ham _ _ Hs) as [Hne Hr]. rewrite (isClientKey_eq k Hne), bind_Ret.
  assert (∀ b : bool, (if b then ss else <[k := movedSession s]> ss) !! k =
    (if b then ss !! k else Some (movedSession s)) ∧
    ∀ k', k' ≠ k → (if b then ss else <[k := movedSession s]> ss) !! k' = ss !! k') as Hb.
  { intros []; [done|]. rewrite lookup_insert_eq. split; [done|]. intros k' Hk'.
    by rewrite lookup_insert_ne. }
  destruct (clientKey k).
  - rewrite (lastNum_get _ _ Hk Hr), bind_Ret, bind_mret. eexists. split; [reflexivity|].
    case_bool_decide as Hn; [rewrite decide_True by done; by apply (Hb true)|].
    rewrite decide_False by tauto. by apply (Hb false).
  - rewrite bind_mret. eexists. split; [reflexivity|]. rewrite decide_False by naive_solver.
    by apply (Hb false).
Qed.

Lemma movedShards_spec kv num sh : kvOk kv → (∀ s b, sh !! s = Some b → inRange s) →
  ∃ nums vec, movedShards num (shardLastNums kv, shardVec kv) (map_to_list sh) = Ret (nums, vec) ∧
    length nums = NShards ∧ length vec = NShards ∧
    ∀ s, inRange s →
      nums !! Z.to_nat s = (match sh !! s with Some _ => Some num | None => shardLastNums kv !! Z.to_nat s end) ∧
      vec !! Z.to_nat s = (match sh !! s with Some _ => Some true | None => shardVec kv !! Z.to_nat s end).
Proof.
  intros Hk Hsh. unfold movedShards.
  match goal with |- context [for_range ?F _ _] => set (f := F) end.
  destruct (for_range_get
    (λ st : list Z * list bool, length st.1 = NShards ∧ length st.2 = NShards)
    inRange (λ st s, (st.1 !! Z.to_nat s, st.2 !! Z.to_nat s))
    (λ s (b : bool) x, (Some num, Some true))
    f (map_to_list sh) (shardLastNums kv, shardVec kv))
    as ([nums vec] & Hr & [Hl1 Hl2] & Hget).
  - intros [nums vec] s b [H1 H2] Hin%elem_of_map_to_list. simpl in *.
    pose proof (Hsh _ _ Hin) as Hs. split; [done|]. unfold f.
    assert (0 ≤ s < len vec ∧ 0 ≤ s < len nums) as [Hv Hn]
      by (unfold len, inRange in *; rewrite H1, H2; lia).
    cbv beta iota. rewrite (slice_set_in vec), bind_Ret, (slice_set_in nums), bind_Ret by done.
    eexists. split; [reflexivity|]. simpl. rewrite !length_insert. split; [done|].
    unfold len in *. rewrite !list_lookup_insert_eq by lia. split; [done|].
    intros s' Hs' Hne. unfold inRange in *. by rewrite !list_lookup_insert_ne by lia.
  - apply NoDup_fst_map_to_list.
  - split; apply Hk.
  - exists nums, vec. split; [done|]. split; [done|]. split; [done|]. intros s Hs.
    specialize (Hget s Hs). rewrite list_to_map_to_list in Hget. simpl in Hget.
    destruct (sh !! s); by injection Hget.
Qed.

Lemma applyApplyMovement_spec a kv : kvOk kv → sessionsOk (am_Sessions a) →
  (∀ s b, am_Shards a !! s = Some b → inRange s) →
  let num := Num (am_Config a) in
  ∃ kv', applyApplyMovement a kv = Ret kv' ∧ kvOk kv' ∧ config kv' = config kv ∧
    (∀ k, mp kv' !! k = match am_Mp a !! k with
       | Some v => if decide (lastNum kv (key2shard k) >= num) then mp kv !! k else Some v
       | None => mp kv !! k end) ∧
    (∀ k, ckSessions kv' !! k = match am_Sessions a !! k with
       | Some s => if decide (clientKey k = true ∧ lastNum kv (LastOpShardNum s) >= num)
                   then ckSessions kv !! k else Some (movedSession s)
       | None => ckSessions kv !! k end) ∧
    ∀ s, inRange s → serves kv' s = (match am_Shards a !! s with Some _ => true | None => serves kv s end) ∧
                     lastNum kv' s = (match am_Shards a !! s with Some _ => num | None => lastNum kv s end).
Proof.
  intros Hk Hss Hsh num. unfold applyApplyMovement. fold num.
  destruct (movedMp_spec kv num (am_Mp a) Hk) as (m' & -> & Hm). rewrite bind_Ret.
  destruct (movedSessions_spec kv num (am_Sessions a) Hk Hss) as (ss' & -> & Hs). rewrite bind_Ret.
  destruct (movedShards_spec kv num (am_Shards a) Hk Hsh) as (nums & vec & -> & Hl1 & Hl2 & Hget).
  rewrite bind_Ret. eexists. split; [reflexivity|]. split; [|split; [done|split; [done|split; [done|]]]].
  - split; [done|done|]. simpl. intros k s Hks. rewrite Hs in Hks.
    destruct (am_Sessions a !! k) as [s0|] eqn:Ha; [|by apply (ko_sessions _ Hk)].
    case_decide; [by apply (ko_sessions _ Hk)|]. simplify_eq. by apply (Hss _ _ Ha).
  - intros s Hr. destruct (Hget s Hr) as [Hn Hv]. unfold serves, lastNum. simpl. rewrite Hn, Hv.
    by destruct (am_Shards a !! s).
Qed.

(** ** [DeleteShards] *)

(** Shard [s] is in the request and was not taken back since. *)
Definition deletes kv (a : DeleteShardsArgs) (s : Z) : Prop :=
  ds_Shards a !! s = Some true ∧ lastNum kv s ≤ ds_ConfigNum a.

#[export] Instance deletes_dec kv a s : Decision (deletes kv a s).
Proof. unfold deletes. apply _. Defined.

Lemma deletable_spec kv num sh : kvOk kv → (∀ s b, sh !! s = Some b → inRange s) →
  ∃ sh', deletable (shardLastNums kv) num (map_to_list sh) sh = Ret sh' ∧ ∀ s,
    sh' !! s = match sh !! s with
               | Some b => if decide (num < lastNum kv s) then None else Some b | None => None end.
Proof.
  intros Hk Hsh. unfold deletable.
  destruct (for_range_map (λ s (b : bool) x, if decide (num < lastNum kv s) then None else x)
    (λ shards '(shard, _), n ← slice_get (shardLastNums kv) shard;
      mret (if decide (num < n) then delete shard shards else shards)) sh sh) as (sh' & Hr & Hs).
  - intros m s b Hin. rewrite (lastNum_get _ _ Hk (Hsh _ _ Hin)), bind_Ret.
    eexists. split; [reflexivity|]. case_decide; [|done]. rewrite lookup_delete_eq. split; [done|].
    intros s' Hne. by rewrite lookup_delete_ne.
  - exists sh'. split; [exact Hr|]. intros s. rewrite Hs. by destruct (sh !! s).
Qed.

Lemma deletedSessions_spec sh ss : sessionsOk ss →
  ∃ ss', deletedSessions sh ss (map_to_list ss) = Ret ss' ∧ ∀ k,
    ss' !! k = match ss !! k with
               | Some s => if clientKey k && map_get false sh (LastOpShardNum s) then None else Some s
               | None => None end.
Proof.
  intros Hss. unfold deletedSessions.
  destruct (for_range_map (λ k s x,
      if clientKey k && map_get false sh (LastOpShardNum s) then None else x)
    (λ ss '(key, s), b ← isClientKey key;
      mret (if b && map_get false sh (LastOpShardNum s) then delete key ss else ss)) ss ss)
    as (ss' & Hr & Hs).
  - intros m k s Hin. destruct (Hss _ _ Hin) as [Hne _]. rewrite (isClientKey_eq k Hne), bind_Ret.
    eexists. split; [reflexivity|]. destruct (_ && _); [|done]. rewrite lookup_delete_eq.
    split; [done|]. intros k' Hk'. by rewrite lookup_delete_ne.
  - exists ss'. split; [exact Hr|]. intros k. rewrite Hs. by destruct (ss !! k).
Qed.

Lemma applyDeleteShards_spec a kv : kvOk kv → (∀ s b, ds_Shards a !! s = Some b → inRange s) →
  ∃ kv' a', applyDeleteShards a kv = Ret (kv', a') ∧ kvOk kv' ∧ config kv' = config kv ∧
    shardVec kv' = shardVec kv ∧ shardLastNums kv' = shardLastNums kv ∧
    (∀ k, mp kv' !! k = if decide (deletes kv a (key2shard k)) then None else mp kv !! k) ∧
    (∀ k, ckSessions kv' !! k = match ckSessions kv !! k with
       | Some s => if decide (clientKey k = true ∧ deletes kv a (LastOpShardNum s)) then None else Some s
       | None => None end) ∧
    ds_ConfigNum a' = ds_ConfigNum a ∧ ∀ s, ds_Shards a' !! s =
      if decide (ds_ConfigNum a < lastNum kv s) then None else ds_Shards a !! s.
Proof.
  intros Hk Hsh. unfold applyDeleteShards.
  destruct (deletable_spec kv (ds_ConfigNum a) (ds_Shards a) Hk Hsh) as (sh & -> & Hd). rewrite bind_Ret.
  destruct (deletedSessions_spec sh (ckSessions kv) (ko_sessions _ Hk)) as (ss & -> & Hss).
  rewrite bind_Ret. eexists _, _. split; [reflexivity|].
  assert (∀ s, map_get false sh s = bool_decide (deletes kv a s)) as Hmem.
  { intros s. unfold map_get. rewrite Hd. case_bool_decide as Hdel; unfold deletes in Hdel.
    - destruct Hdel as [-> ?]. by rewrite decide_False by lia.
    - destruct (ds_Shards a !! s) as [[]|]; [|by case_decide|done].
      rewrite decide_True; [done|]. destruct (decide (ds_ConfigNum a < lastNum kv s)); [done|].
      exfalso. apply Hdel. split; [done|lia]. }
  split; [|do 3 (split; [done|])].
  - split; [apply Hk|apply Hk|]. intros k s Hs. simpl in Hs. rewrite Hss in Hs.
    destruct (ckSessions kv !! k) eqn:Hks; [|done]. case_match; simplify_eq. by apply (ko_sessions _ Hk).
  - split; [|split; [|split; [done|]]].
    + intros k. simpl. case_decide as Hdel.
      * apply map_lookup_filter_None. right. intros v _. rewrite Hmem, bool_decide_eq_true_2; done.
      * destruct (mp kv !! k) as [v|] eqn:Hv; [|apply map_lookup_filter_None; by left].
        apply map_lookup_filter_Some. split; [done|]. by rewrite Hmem, bool_decide_eq_false_2.
    + intros k. simpl. rewrite Hss. destruct (ckSessions kv !! k) as [s|]; [|done].
      rewrite Hmem. destruct (decide (clientKey k = true ∧ _)) as [[Hc Hdd]|Hn].
      * by rewrite Hc, bool_decide_eq_true_2.
      * destruct (clientKey k); [|done]. by rewrite bool_decide_eq_false_2 by tauto.
    + intros s. simpl. rewrite Hd. destruct (ds_Shards a !! s); [done|by case_decide].
Qed.

(** ** All operations *)

(** What [Get], [Put] and [Append] do to the map. *)
Definition execClient (opType : string) (args : GenericArgs) (m : gmap string string) : gmap string string :=
  match args with
  | APutAppend a =>
      if decide (opType = OT_PUT) then <[pa_Key a := pa_Value a]> m
      else <[pa_Key a := map_get "" m (pa_Key a) +:+ pa_Value a]> m
  | _ => m
  end.

Definition isClientArgs (args : GenericArgs) : Prop :=
  match args with AGet _ | APutAppend _ => True | _ => False end.

#[export] Instance isClientArgs_dec args : Decision (isClientArgs args).
Proof. destruct args; apply _. Defined.

Lemma applyClient_spec t args kv : kvOk kv →
  applyClient t args kv =
    Ret (if serves kv (key2shard (getKey args)) then (set_mp kv (execClient t args (mp kv)), true)
         else (kv, false)).
Proof.
  intros Hk. unfold applyClient, execClient. rewrite (serves_get _ _ Hk (key2shard_range _)), bind_Ret.
  destruct (serves kv _); [|done]. destruct args; try (by destruct kv); by case_decide.
Qed.

Lemma applyOp_client op args kv : kvOk kv → opOk op → op_Args op = Some args → isClientArgs args →
  applyOp op kv =
    Ret (if serves kv (key2shard (getKey args))
         then (set_mp kv (execClient (op_Type op) args (mp kv)), true, op) else (kv, false, op)).
Proof.
  intros Hk [_ Hop] Hargs Hc. rewrite Hargs in Hop. unfold applyOp. rewrite Hargs.
  destruct args; try done.
  - rewrite decide_True by done. rewrite applyClient_spec by done. simpl.
    by destruct (serves kv _).
  - rewrite decide_False by (destruct Hop as [->| ->]; done). rewrite decide_True by done.
    rewrite applyClient_spec by done. simpl. by destruct (serves kv _).
Qed.

(** [decide_ops Hop] takes the branch of [applyOp] for the type in [Hop]. *)
Ltac decide_ops Hop := rewrite Hop; simpl.

Lemma applyOp_ok op kv : kvOk kv → opOk op →
  ∃ kv' b op', applyOp op kv = Ret (kv', b, op') ∧ kvOk kv' ∧
    op_ShardNum op' = op_ShardNum op ∧ gid kv' = gid kv ∧
    Num (config kv) ≤ Num (config kv') ∧
    (config kv' ≠ config kv → ∀ s, inRange s → serves kv' s = true ↔ ownsIn (config kv') (gid kv) s).
Proof.
  intros Hk Hop. destruct (op_Args op) as [args|] eqn:Hargs; [|by destruct Hop as [_ Hop]; rewrite Hargs in Hop].
  destruct (decide (isClientArgs args)) as [Hc|Hc].
  { rewrite (applyOp_client op args) by done. destruct (serves kv _);
      eexists _, _, _; (split; [reflexivity|]); (split; [by destruct Hk|]);
      (split; [done|]); (split; [done|]); split; simpl; done || lia. }
  destruct Hop as [_ Hop]. rewrite Hargs in Hop. unfold applyOp. rewrite Hargs.
  destruct args as [a|a|a|a|a|a]; try done.
  - destruct Hop as (Hop & Hss & Hsh). decide_ops Hop.
    destruct (applyApplyMovement_spec a kv Hk Hss Hsh) as (kv' & Hr & Hk' & Hcf & _). rewrite Hr, bind_Ret.
    eexists _, _, _. split; [reflexivity|]. rewrite Hcf. split; [done|]. split; [done|].
    split; [|split; [lia|done]]. clear -Hr. unfold applyApplyMovement in Hr. by inv_ret.
  - destruct Hop as [Hop Hl]. decide_ops Hop.
    destruct (decide (Num (config kv) < Num (cc_Config a))) as [Hlt|Hge].
    + destruct (applyChangeConfig_newer a kv Hk Hl Hlt) as (kv' & -> & Hk' & Hcf & _ & _ & Hg & Hsv).
      rewrite bind_Ret. eexists _, _, _. split; [reflexivity|]. rewrite Hcf.
      split; [done|]. split; [done|]. split; [done|]. split; [lia|]. intros _ s Hs. by apply Hsv.
    + unfold applyChangeConfig. rewrite decide_False by done. rewrite bind_mret.
      eexists _, _, _. split; [reflexivity|]. split; [done|]. split; [done|]. split; [done|].
      split; [lia|done].
  - destruct Hop as [Hop Hsh]. decide_ops Hop.
    destruct (applyDeleteShards_spec a kv Hk Hsh) as (kv' & a' & Hr & Hk' & Hcf & _). rewrite Hr, bind_Ret.
    eexists _, _, _. split; [reflexivity|]. simpl. rewrite Hcf. split; [done|]. split; [done|].
    split; [|split; [lia|done]]. clear -Hr. unfold applyDeleteShards in Hr. by inv_ret.
  - destruct Hop as [Hop Hl]. decide_ops Hop. unfold applyUpdateShardVec.
    eexists _, _, _. split; [reflexivity|]. case_decide; (split; [destruct Hk; by split|]);
      (split; [done|]); (split; [done|]); (split; [simpl; lia|done]).
Qed.

(** What a client operation is answered with. *)
Definition clientValue (args : GenericArgs) (m : gmap string string) : string :=
  match args with AGet a => map_get "" m (ga_Key a) | _ => "" end.

Lemma successCommit_client op args kv : opOk op → op_Args op = Some args → isClientArgs args →
  successCommit args (op_Type op) kv = Ret (mkReply OK (clientValue args (mp kv)) 0).
Proof.
  intros [_ Hop] Hargs Hc. rewrite Hargs in Hop. destruct args; try done.
  - by rewrite Hop.
  - by destruct Hop as [-> | ->].
Qed.

(** The handler that waits for the entry that was applied last. *)
Lemma waitting_record elapsed op i args t kv r : ShardKV.killed kv = false → kv_lastApplied kv = i →
  logRecord kv !! i = Some r →
  waittingForCommit elapsed op i args t kv =
    if decide (op_Number r = op_Number op) then reply ← successCommit args t kv; mret (Some reply)
    else Ret (Some (mkReply ERR_FailedToCommit "" 0)).
Proof. intros Hk Hl Hr. unfold waittingForCommit. by rewrite Hk, Hl, decide_True, Hr by lia. Qed.

(** C36: client operations touch only shards that the group serves.  When the log
    reaches a [Get], [Put] or [Append]: if the session has seen its number, the
    map stays as it is, and only the session records the new entry; otherwise, on
    a served shard it is executed and recorded, and on another shard the map and
    the sessions stay as they are and the record is marked.  The handler that
    waits for this entry then answers [OK], with the value of the key for a
    [Get], in the first two cases (in the first one even if the shard is no longer
    served) and reports a failure in the third. *)
Theorem client_op_on_served_shard op i kv args :
  kvOk kv → opOk op → op_Args op = Some args → isClientArgs args →
  let k := uniKey (op_CkId op) (op_ShardNum op) in
  let seen := stable op i (map_get zeroSession (ckSessions kv) k) in
  let served := serves kv (key2shard (getKey args)) in
  ∃ kv' r, applyCommand op i kv = Ret (kv', negb seen) ∧ kv_lastApplied kv' = i ∧
    config kv' = config kv ∧ shardVec kv' = shardVec kv ∧ logRecord kv' !! i = Some r ∧
    (if seen then mp kv' = mp kv ∧ r = op ∧ ckSessions kv' = <[k := sessionOf op i]> (ckSessions kv)
     else if served then
       mp kv' = execClient (op_Type op) args (mp kv) ∧ r = op ∧
       ckSessions kv' = <[k := sessionOf op i]> (ckSessions kv)
     else mp kv' = mp kv ∧ ckSessions kv' = ckSessions kv ∧ op_Number r = -1) ∧
    (ShardKV.killed kv = false → op_Number op ≠ -1 → ∀ elapsed,
       waittingForCommit elapsed op i args (op_Type op) kv' =
         Ret (Some (if seen || served then mkReply OK (clientValue args (mp kv')) 0
                    else mkReply ERR_FailedToCommit "" 0))).
Proof.
  intros Hk Hop Hargs Hc k seen served. unfold applyCommand. fold k. fold seen.
  set (kv1 := set_records kv _ _ _). assert (kvOk kv1) as Hk1 by (by destruct Hk).
  rewrite (applyOp_client op args kv1) by done. change (serves kv1) with (serves kv). fold served.
  destruct seen, served; simpl; rewrite ?bind_Ret; eexists _, _; (split; [reflexivity|]);
    (do 3 (split; [done|])); (split; [apply lookup_insert_eq|]); (split; [done|]); intros Hkl Hnum elapsed;
    (erewrite waitting_record; [|exact Hkl|reflexivity|apply lookup_insert_eq]).
  1-3: by rewrite decide_True, (successCommit_client op args) by done.
  by rewrite decide_False by (simpl; congruence).
Qed.

(** C37: every operation of the log is applied.  On a well-formed server it
    returns and leaves it well formed; the number of the configuration never
    goes down, and whenever the configuration changes, the group serves exactly
    the shards that the new configuration gives it. *)
Theorem applyCommand_total op i kv : kvOk kv → opOk op →
  ∃ kv' b, applyCommand op i kv = Ret (kv', b) ∧ kvOk kv' ∧ kv_lastApplied kv' = i ∧
    Num (config kv) ≤ Num (config kv') ∧
    (config kv' ≠ config kv → ∀ s, inRange s → serves kv' s = true ↔ ownsIn (config kv') (gid kv) s).
Proof.
  intros Hk Hop. unfold applyCommand.
  assert (∀ o ss, sessionsOk ss → inRange (op_ShardNum o) → op_ShardNum o = op_ShardNum op →
    sessionsOk (<[uniKey (op_CkId op) (op_ShardNum op) := sessionOf o i]> ss)) as Hses.
  { intros o ss Hss Hr He k s [[<- <-]|[_ Hs]]%lookup_insert_Some; [|by apply Hss].
    split; [apply uniKey_nonempty, Hop|done]. }
  set (kv1 := set_records kv _ _ _).
  assert (kvOk kv1) as Hk1 by (by destruct Hk).
  destruct (stable _ _ _).
  - eexists _, _. split; [reflexivity|]. split; [|split; [done|split; [simpl; lia|done]]].
    split; [apply Hk|apply Hk|]. apply Hses; [apply Hk|apply Hop|done].
  - destruct (applyOp_ok op kv1 Hk1 Hop) as (kv2 & b & op' & -> & Hk2 & Hs & Hg & Hn & Hown).
    rewrite bind_Ret. destruct b; eexists _, _; (split; [reflexivity|]);
      (split; [|split; [done|split; [done|done]]]).
    + split; [apply Hk2|apply Hk2|]. apply Hses; [apply Hk2|rewrite Hs; apply Hop|done].
    + by destruct Hk2.
Qed.

(** ** Moving shards between groups *)

Lemma RequestMapAndSession_spec args rf kv : kvOk kv → state rf = RS_Leader →
  rm_ConfigNum args ≤ Num (config kv) →
  ∃ reply, RequestMapAndSession args rf kv = Ret reply ∧ rmr_Err reply = OK ∧
    (∀ k, rmr_Mp reply !! k =
       if map_get false (rm_Shards args) (key2shard k) then mp kv !! k else None) ∧
    (∀ k, rmr_Sessions reply !! k = match ckSessions kv !! k with
       | Some s => if clientKey k && map_get false (rm_Shards args) (LastOpShardNum s)
                   then Some s else None
       | None => None end).
Proof.
  intros Hk Hl Hn. unfold RequestMapAndSession, GetState. rewrite Hl. simpl.
  rewrite decide_False by lia.
  destruct (for_range_map (λ k s x, if clientKey k && map_get false (rm_Shards args) (LastOpShardNum s)
      then Some s else x)
    (λ acc '(key, value), b ← isClientKey key;
      mret (if b && map_get false (rm_Shards args) (LastOpShardNum value)
            then <[key := value]> acc else acc)) (ckSessions kv) (∅ : gmap string Session))
    as (ss & -> & Hs).
  { intros m k s Hin. destruct (ko_sessions _ Hk _ _ Hin) as [Hne _].
    rewrite (isClientKey_eq k Hne), bind_Ret. eexists. split; [reflexivity|].
    destruct (_ && _); [|done]. rewrite lookup_insert_eq. split; [done|].
    intros k' Hk'. by rewrite lookup_insert_ne. }
  rewrite bind_Ret. eexists. split; [reflexivity|]. split; [done|]. simpl. split.
  - intros k. destruct (map_get false _ _) eqn:Hg.
    + destruct (mp kv !! k) as [v|] eqn:Hv; [|apply map_lookup_filter_None; by left].
      by apply map_lookup_filter_Some.
    + apply map_lookup_filter_None. right. intros v _. by rewrite Hg.
  - intros k. rewrite Hs. destruct (ckSessions kv !! k); [|done]. rewrite lookup_empty.
    by destruct (_ && _).
Qed.

(** C10: a shard moves with its data and its sessions.  The leader of the old
    group answers for the shards [sh]; the new group applies the answer through
    its log.  If the new group has not had these shards since that
    configuration, then it serves them, every key of theirs has the old group's
    value, all other keys are unchanged, and a request that the old group has
    executed is not executed again. *)
Theorem shard_movement sh rf kvA kvB gidB meB next :
  kvOk kvA → kvOk kvB → state rf = RS_Leader → Num next ≤ Num (config kvA) →
  (∀ s b, sh !! s = Some b → b = true ∧ inRange s ∧ lastNum kvB s < Num next) →
  ∃ reply kvB', RequestMapAndSession (mkRequestArgs gidB meB sh (Num next)) rf kvA = Ret reply ∧
    rmr_Err reply = OK ∧
    applyApplyMovement (movementArgs reply next sh kvB).2 kvB = Ret kvB' ∧
    (∀ s, is_Some (sh !! s) → serves kvB' s = true) ∧
    (∀ k, mp kvB' !! k = if decide (is_Some (sh !! key2shard k))
                         then union (mp kvA !! k) (mp kvB !! k) else mp kvB !! k) ∧
    (∀ op i s, ckSessions kvA !! uniKey (op_CkId op) (op_ShardNum op) = Some s →
       0 ≤ i → clientKey (uniKey (op_CkId op) (op_ShardNum op)) = true →
       is_Some (sh !! LastOpShardNum s) → LastOpVaild s = true → op_ReqNum op ≤ LastOpReqNum s →
       ∃ kvB'', applyCommand op i kvB' = Ret (kvB'', false) ∧ mp kvB'' = mp kvB').
Proof.
  intros HkA HkB Hl Hn Hsh.
  destruct (RequestMapAndSession_spec (mkRequestArgs gidB meB sh (Num next)) rf kvA)
    as (reply & Hr & Herr & HMp & HSes); [done|done|done|]. simpl in HMp, HSes.
  assert (∀ s, map_get false sh s = bool_decide (is_Some (sh !! s))) as Hmg.
  { intros s. unfold map_get. destruct (sh !! s) as [b|] eqn:Hs; simpl.
    - by destruct (Hsh _ _ Hs) as [-> _].
    - done. }
  destruct (applyApplyMovement_spec (movementArgs reply next sh kvB).2 kvB)
    as (kvB' & Ha & HkB' & _ & HM & HS & Hsv); [done| | |].
  { intros k s Hks. simpl in Hks. rewrite HSes in Hks. destruct (ckSessions kvA !! k) eqn:HA; [|done].
    case_match; simplify_eq. by apply (ko_sessions _ HkA). }
  { intros s b Hs. by apply (Hsh s b). }
  simpl in HM, HS, Hsv. exists reply, kvB'. do 3 (split; [done|]). split; [|split].
  - intros s [b Hs]. destruct (Hsh _ _ Hs) as (_ & Hrg & _). destruct (Hsv s Hrg) as [-> _]. by rewrite Hs.
  - intros k. rewrite HM, HMp, Hmg. case_bool_decide as Hin.
    + rewrite decide_True by done. destruct Hin as [b Hb]. destruct (Hsh _ _ Hb) as (_ & _ & Hlt).
      destruct (mp kvA !! k) as [v|]; [rewrite decide_False by lia; by destruct (mp kvB !! k)|].
      by destruct (mp kvB !! k).
    + by rewrite decide_False.
  - intros op i s HA Hi Hck Hin Hv Hreq. destruct Hin as [b Hb]. destruct (Hsh _ _ Hb) as (_ & _ & Hlt).
    unfold applyCommand. unfold map_get. rewrite HS, HSes, HA, Hck, Hmg.
    rewrite bool_decide_eq_true_2 by (by exists b). simpl. rewrite decide_False by lia. simpl.
    unfold stable, movedSession. simpl. rewrite Hv, !bool_decide_eq_true_2 by lia. simpl.
    by eexists.
Qed.

(** C38: deletion is exact, and safe although it changes the log.  [DeleteShards]
    removes the keys and the client sessions of exactly those shards of the
    request that the group has not taken back in a later configuration.  The
    loop also removes the refused shards from the map that the log entry holds;
    applying that changed entry to the same state gives the same server. *)
Theorem deleteShards_exact a kv : kvOk kv → (∀ s b, ds_Shards a !! s = Some b → inRange s) →
  ∃ kv' a', applyDeleteShards a kv = Ret (kv', a') ∧
    (∀ k, mp kv' !! k = if decide (deletes kv a (key2shard k)) then None else mp kv !! k) ∧
    (∀ k s, ckSessions kv' !! k = Some s ↔
       ckSessions kv !! k = Some s ∧ ¬ (clientKey k = true ∧ deletes kv a (LastOpShardNum s))) ∧
    shardVec kv' = shardVec kv ∧ shardLastNums kv' = shardLastNums kv ∧
    ∃ a'', applyDeleteShards a' kv = Ret (kv', a'').
Proof.
  intros Hk Hsh. destruct (applyDeleteShards_spec a kv Hk Hsh)
    as (kv' & a' & Hr & Hk' & Hcf & Hvec & Hnums & Hm & Hs & Hcn & Hds).
  exists kv', a'. split; [done|]. split; [done|]. split; [|split; [done|split; [done|]]].
  { intros k s. rewrite Hs. destruct (ckSessions kv !! k) as [s0|]; [|naive_solver].
    case_decide; naive_solver. }
  destruct (applyDeleteShards_spec a' kv Hk) as (kv2 & a2 & Hr2 & _ & _ & _ & _ & Hm2 & Hs2 & _).
  { intros s b. rewrite Hds. case_decide; [done|apply Hsh]. }
  assert (∀ s, deletes kv a' s ↔ deletes kv a s) as Hdel.
  { intros s. unfold deletes. rewrite Hcn, Hds. case_decide; naive_solver lia. }
  exists a2. rewrite Hr2. do 2 f_equal.
  assert (mp kv2 = mp kv') as Hmp.
  { apply map_eq. intros k. rewrite Hm, Hm2. by rewrite (decide_ext _ _ _ _ (Hdel (key2shard k))). }
  assert (ckSessions kv2 = ckSessions kv') as Hck.
  { apply map_eq. intros k. rewrite Hs, Hs2. destruct (ckSessions kv !! k) as [s|]; [|done].
    apply decide_ext. by rewrite Hdel. }
  clear -Hr Hr2 Hmp Hck. unfold applyDeleteShards in *. inv_ret. simpl in *. by rewrite Hmp, Hck.
Qed.

(** ** What to move *)

(** The shard [s] is in the set that [m] holds for the group [o]. *)
Definition asks (m : gmap Z (gmap Z bool)) (o s : Z) : Prop := map_get false (map_get ∅ m o) s = true.

Lemma receiveFrom_loop g (l : list (nat * (Z * Z))) m o s :
  asks (foldl (λ m '(i, (o, n)),
      if decide (o ≠ g ∧ n = g) then <[o := <[Z.of_nat i := true]> (map_get ∅ m o)]> m else m) m l) o s ↔
  asks m o s ∨ ∃ i, s = Z.of_nat i ∧ o ≠ g ∧ (i, (o, g)) ∈ l.
Proof.
  revert m. induction l as [|[i [o' n]] l IH]; intros m; cbn [foldl].
  - split; [by left|]. intros [?|(i & _ & _ & Hin)]; [done|]. by apply elem_of_nil in Hin.
  - rewrite IH. clear IH. setoid_rewrite elem_of_cons. case_decide as Hd.
    + destruct Hd as [Ho ->]. unfold asks. destruct (decide (o' = o)) as [->|Hne].
      * rewrite map_get_insert_eq. destruct (decide (Z.of_nat i = s)) as [<-|Hs].
        -- rewrite map_get_insert_eq. split; [|by left]. intros _. right. exists i. auto.
        -- rewrite map_get_insert_ne by done. naive_solver.
      * rewrite map_get_insert_ne by done. naive_solver.
    + naive_solver.
Qed.

Lemma receiveFrom_spec g old next o s : inRange s →
  asks (receiveFrom g old next) o s ↔ o ≠ g ∧ ownsIn old o s ∧ ownsIn next g s.
Proof.
  unfold inRange. intros Hs. unfold receiveFrom. rewrite receiveFrom_loop. unfold ownsIn.
  assert (∀ i, (i, (o, g)) ∈ imap pair (zip (Shards old) (Shards next)) ↔
    Shards old !! i = Some o ∧ Shards next !! i = Some g) as Hin.
  { intros i. rewrite elem_of_lookup_imap. setoid_rewrite lookup_zip_with_Some. naive_solver. }
  setoid_rewrite Hin. split.
  - intros [Ha|(i & -> & Hi)]; [|by rewrite Nat2Z.id]. unfold asks, map_get in Ha.
    by rewrite lookup_empty in Ha.
  - intros (Ho & H1 & H2). right. exists (Z.to_nat s). rewrite Z2Nat.id by lia. auto.
Qed.

(** The sets hold shards only, each of them mapped to [true]. *)
Lemma receiveFrom_sets g old next o sh s b : length (Shards old) = NShards →
  receiveFrom g old next !! o = Some sh → sh !! s = Some b → b = true ∧ inRange s.
Proof.
  intros Hlen. unfold receiveFrom.
  assert (∀ i x, (i, x) ∈ imap pair (zip (Shards old) (Shards next)) → inRange (Z.of_nat i)) as Hl.
  { intros i x (j & y & Hj & Hy)%elem_of_lookup_imap. simplify_eq.
    apply lookup_lt_Some in Hy. rewrite length_zip in Hy. unfold inRange. lia. }
  revert Hl. generalize (imap pair (zip (Shards old) (Shards next))). intros l.
  assert (∀ m, (∀ o sh s b, m !! o = Some sh → sh !! s = Some b → b = true ∧ inRange s) →
    (∀ i x, (i, x) ∈ l → inRange (Z.of_nat i)) →
    foldl (λ (m : gmap Z (gmap Z bool)) '(i, (o, n)),
      if decide (o ≠ g ∧ n = g) then <[o := <[Z.of_nat i := true]> (map_get ∅ m o)]> m else m) m l !! o
      = Some sh → sh !! s = Some b → b = true ∧ inRange s) as Hgen.
  { induction l as [|[i [o' n]] l IH]; cbn [foldl]; [by eauto|]. intros m Hm Hl. apply IH.
    - intros o1 sh1 s1 b1. case_decide; [|apply Hm].
      intros [[<- <-]|[_ Ho]]%lookup_insert_Some; [|by intros; eapply Hm].
      intros [[<- <-]|[_ Hs]]%lookup_insert_Some; [split; [done|by eapply Hl; left]|].
      unfold map_get in Hs. destruct (m !! o') as [sh'|] eqn:Hmo; [by eapply Hm|].
      simpl in Hs. by rewrite lookup_empty in Hs.
    - intros i1 x1 Hin. eapply Hl. by right. }
  intros Hl. apply Hgen; [|done]. intros ????. by rewrite lookup_empty.
Qed.

Lemma newShardVec_spec g old next s :
  newShardVec g old next !! Z.to_nat s = Some true ↔ (ownsIn old g s ∨ ownsIn old 0 s) ∧ ownsIn next g s.
Proof.
  unfold newShardVec, ownsIn. rewrite lookup_zip_with_Some. split.
  - intros (o & n & Hb & Ho & Hn). symmetry in Hb. apply bool_decide_eq_true in Hb. naive_solver.
  - intros [[Ho|Ho] Hn]; eexists _, _; rewrite bool_decide_eq_true_2; naive_solver.
Qed.

(** The movements of one configuration change, in the order of the log. *)
Definition applyMovements (moves : list ApplyMovementArgs) kv : outcome ShardKV :=
  for_range (λ kv a, applyApplyMovement a kv) kv moves.

Definition moveOk (a : ApplyMovementArgs) : Prop :=
  sessionsOk (am_Sessions a) ∧ ∀ s b, am_Shards a !! s = Some b → inRange s.

Lemma applyMovements_spec moves kv : kvOk kv → (∀ a, a ∈ moves → moveOk a) →
  ∃ kv', applyMovements moves kv = Ret kv' ∧ kvOk kv' ∧ config kv' = config kv ∧ gid kv' = gid kv ∧
    ∀ s, inRange s → serves kv' s = true ↔ serves kv s = true ∨ ∃ a, a ∈ moves ∧ is_Some (am_Shards a !! s).
Proof.
  revert kv. induction moves as [|a moves IH]; intros kv Hk Hm.
  { exists kv. do 4 (split; [done|]). intros s _. split; [by left|].
    intros [?|(a & Ha & _)]; [done|]. by apply elem_of_nil in Ha. }
  destruct (Hm a ltac:(left)) as [Hss Hsh].
  destruct (applyApplyMovement_spec a kv Hk Hss Hsh) as (kv1 & Hr & Hk1 & Hc & _ & _ & Hsv).
  assert (gid kv1 = gid kv) as Hg by (clear -Hr; unfold applyApplyMovement in Hr; by inv_ret).
  destruct (IH kv1 Hk1) as (kv' & Hr' & Hk' & Hc' & Hg' & Hsv'); [by intros; apply Hm; right|].
  exists kv'. unfold applyMovements in *. cbn [for_range]. rewrite Hr, bind_Ret.
  split; [done|]. split; [done|]. split; [congruence|]. split; [congruence|]. intros s Hs.
  rewrite (Hsv' s Hs), (proj1 (Hsv s Hs)). setoid_rewrite elem_of_cons.
  destruct (am_Shards a !! s) eqn:Ha; [naive_solver|]. split; [naive_solver|].
  intros [?|(a' & [->|Ha'] & Hx)]; [by left| |naive_solver]. rewrite Ha in Hx. by destruct Hx.
Qed.

(** ** One configuration change *)

Section ConfigChange.
  Context (next : Config) (kv : ShardKV) (moves : list ApplyMovementArgs).
  Context (Hk : kvOk kv) (Hl : length (Shards (config kv)) = NShards)
          (Hln : length (Shards next) = NShards) (Hnum : Num (config kv) < Num next).
  (** The movements are those of [MoveShards], in some order. *)
  Context (Hm : ∀ a, a ∈ moves → am_Config a = next ∧ sessionsOk (am_Sessions a))
          (Hperm : am_Shards <$> moves ≡ₚ (map_to_list (receiveFrom (gid kv) (config kv) next)).*2).

  (** The server after phase 1. *)
Let kv0 := applyUpdateShardVec (pollUpdate next kv).2 kv.

Lemma moves_from sh : sh ∈ am_Shards <$> moves ↔
  ∃ o, receiveFrom (gid kv) (config kv) next !! o = Some sh.
Proof.
  rewrite Hperm, list_elem_of_fmap. split.
  - intros ([o sh'] & -> & Hin%elem_of_map_to_list). by exists o.
  - intros [o Ho]. exists (o, sh). split; [done|]. by apply elem_of_map_to_list.
Qed.

Lemma moves_ok a : a ∈ moves → moveOk a.
Proof.
  intros Ha. split; [by apply Hm|]. intros s b Hs.
  destruct (proj1 (moves_from (am_Shards a))) as [o Ho]; [by apply list_elem_of_fmap_2|].
  by destruct (receiveFrom_sets _ _ _ _ _ _ _ Hl Ho Hs).
Qed.

(** A shard is in some movement iff it comes from another group. *)
Lemma moves_shards s : inRange s →
  (∃ a, a ∈ moves ∧ is_Some (am_Shards a !! s)) ↔
  ∃ o, o ≠ gid kv ∧ ownsIn (config kv) o s ∧ ownsIn next (gid kv) s.
Proof.
  intros Hs. setoid_rewrite <- receiveFrom_spec; [|done]. split.
  - intros (a & Ha & b & Hb).
    destruct (proj1 (moves_from (am_Shards a))) as [o Ho]; [by apply list_elem_of_fmap_2|].
    destruct (receiveFrom_sets _ _ _ _ _ _ _ Hl Ho Hb) as [-> _].
    exists o. unfold asks, map_get. rewrite Ho. simpl. by rewrite Hb.
  - intros [o Ho]. unfold asks, map_get in Ho.
    destruct (receiveFrom _ _ _ !! o) as [sh|] eqn:Hsh; [|done]. simpl in Ho.
    pose proof (proj2 (moves_from sh) (ex_intro _ o Hsh)) as Hin.
    apply list_elem_of_fmap in Hin as (a & -> & Ha).
    exists a. split; [done|]. destruct (_ !! s); [done|done].
Qed.

Lemma updated_spec : kvOk kv0 ∧ config kv0 = config kv ∧ gid kv0 = gid kv ∧
  ∀ s, serves kv0 s = true ↔
       (ownsIn (config kv) (gid kv) s ∨ ownsIn (config kv) 0 s) ∧ ownsIn next (gid kv) s.
Proof.
  assert (kv0 = set_shards kv (shardLastNums kv) (newShardVec (gid kv) (config kv) next)) as ->.
  { unfold kv0, applyUpdateShardVec. by rewrite decide_True. }
  split; [|split; [done|split; [done|]]].
  - destruct Hk. split; [|done|done]. unfold newShardVec. simpl. rewrite length_zip_with. lia.
  - intros s. rewrite <- newShardVec_spec. unfold serves. simpl.
    destruct (newShardVec _ _ _ !! _) as [[]|]; naive_solver.
Qed.

(** C9: a configuration change hands over service exactly. Consider a log of
    exactly these operations: the [UpdateShardVec] with which the leader closes
    the shards that leave the group, one movement of this change for each group of
    [receiveFrom], in any order, and [ChangeConfig]. At no point in between does
    the group serve a shard that the next configuration gives to another group;
    after the last movement it serves exactly its shards, and [ChangeConfig]
    changes nothing of that. (A movement of an older change that comes late is not
    among them; it can open a shard that the group does not own,
    [stale_movement_reopens].) *)
Theorem config_change_serves :
  (∀ n kvn s, applyMovements (take n moves) (applyUpdateShardVec (pollUpdate next kv).2 kv) = Ret kvn →
     inRange s → serves kvn s = true → ownsIn next (gid kv) s) ∧
  ∃ kv1 kv2, applyMovements moves (applyUpdateShardVec (pollUpdate next kv).2 kv) = Ret kv1 ∧
    (∀ s, inRange s → serves kv1 s = true ↔ ownsIn next (gid kv) s) ∧
    applyChangeConfig (pollChange next kv1).2 kv1 = Ret kv2 ∧ config kv2 = next ∧
    ∀ s, inRange s → serves kv2 s = serves kv1 s.
Proof.
  fold kv0. destruct updated_spec as (Hk0 & Hc0 & Hg0 & Hsv0). split.
  - intros n kvn s Hn Hs.
    destruct (applyMovements_spec (take n moves) kv0 Hk0) as (x & Hx & _ & _ & _ & Hsv).
    { intros a Ha. apply moves_ok. by apply (subseteq_take n moves). }
    rewrite Hx in Hn. injection Hn as <-. rewrite (Hsv s Hs), Hsv0.
    intros [[_ ?]|(a & Ha & ?)]; [done|].
    destruct (proj1 (moves_shards s Hs)) as (o & _ & _ & ?); [|done].
    exists a. split; [by apply (subseteq_take n moves)|done].
  - destruct (applyMovements_spec moves kv0 Hk0 moves_ok) as (kv1 & Hx & Hk1 & Hc1 & Hg1 & Hsv).
    assert (∀ s, inRange s → serves kv1 s = true ↔ ownsIn next (gid kv) s) as Hsv1.
    { intros s Hs. rewrite (Hsv s Hs), Hsv0, (moves_shards s Hs). split; [naive_solver|].
      intros Hn. destruct (lookup_lt_is_Some_2 (Shards (config kv)) (Z.to_nat s)) as [o Ho];
        [unfold inRange in Hs; lia|].
      destruct (decide (o = gid kv)) as [->|Hne]; [by left; auto|by right; exists o]. }
    destruct (applyChangeConfig_newer (pollChange next kv1).2 kv1 Hk1)
      as (kv2 & Hr2 & _ & Hc2 & _ & _ & _ & Hsv2); [done|simpl; congruence|].
    exists kv1, kv2. do 4 (split; [done|]). intros s Hs.
    destruct (Hsv2 s Hs) as [H2 _]. simpl in H2. rewrite Hg1, Hg0, <- (Hsv1 s Hs) in H2.
    clear -H2. destruct (serves kv1 s), (serves kv2 s); naive_solver.
Qed.
End ConfigChange.

(** ** Witnesses *)

(** Groups 100 and 101; shard 7 is the one of the key ["a"]. *)
Definition cfg (n : Z) (owner : Z) : Config :=
  mkConfig n (replicate NShards owner) {[100 := ["a0"]; 101 := ["b0"]]}.
Definition cfg7 (n : Z) : Config :=
  mkConfig n (<[7%nat := 101]> (replicate NShards 100)) {[100 := ["a0"]; 101 := ["b0"]]}.

Definition putA : Op :=
  mkOp OT_PUT 3 1 12 7 (Some (APutAppend (mkPutAppendArgs "a" "1" OT_PUT 12 1))).

(** A server of [g] in configuration [c] that has executed nothing. *)
Definition fresh (g : Z) (c : Config) (vec : list bool) : ShardKV :=
  set_shards (set_config (StartServer 0 (-1) g 9) c) (replicate NShards 1) vec.
Definition serverA : ShardKV := fresh 100 (cfg 1 100) (replicate NShards true).
Definition serverB : ShardKV := fresh 101 (cfg 1 100) (replicate NShards false).

Lemma fresh_ok g c vec : length vec = NShards → kvOk (fresh g c vec).
Proof.
  intros Hv. split; [done|apply length_replicate|].
  intros k s Hs. change ((∅ : gmap string Session) !! k = Some s) in Hs. by rewrite lookup_empty in Hs.
Qed.

Lemma putA_ok : opOk putA.
Proof. split; [done|]. by left. Qed.

Lemma client_op_on_served_shard_witness : ∃ kv' r,
  applyCommand putA 4 serverA = Ret (kv', true) ∧ mp kv' = {["a" := "1"]} ∧ r = putA ∧
  logRecord kv' !! 4 = Some r ∧
  waittingForCommit 0 putA 4 (APutAppend (mkPutAppendArgs "a" "1" OT_PUT 12 1)) OT_PUT kv' = Ret (Some (mkReply OK "" 0)).
Proof.
  destruct (client_op_on_served_shard putA 4 serverA (APutAppend (mkPutAppendArgs "a" "1" OT_PUT 12 1)))
    as (kv' & r & Ha & _ & _ & _ & Hr & (Hs & Hop & _) & Hw).
  - by apply fresh_ok.
  - apply putA_ok.
  - done.
  - done.
  - exists kv', r. split; [exact Ha|]. split; [exact Hs|]. split; [exact Hop|]. split; [exact Hr|].
    exact (Hw eq_refl ltac:(discriminate) 0).
Defined.

Lemma applyCommand_total_witness : ∃ kv' b,
  applyCommand putA 4 serverA = Ret (kv', b) ∧ kvOk kv' ∧ kv_lastApplied kv' = 4.
Proof.
  destruct (applyCommand_total putA 4 serverA) as (kv' & b & Ha & Hk & Hl & _).
  - by apply fresh_ok.
  - apply putA_ok.
  - by exists kv', b.
Defined.

(** Group 100 after [putA], in the configuration in which shard 7 has moved. *)
Definition serverA1 : ShardKV :=
  set_config (valueOf (serverA, true) (applyCommand putA 4 serverA)).1 (cfg7 2).

Lemma serverA1_ok : kvOk serverA1.
Proof.
  split; [reflexivity|reflexivity|].
  assert (ckSessions serverA1 = {[uniKey 12 7 := sessionOf putA 4]}) as -> by (vm_compute; reflexivity).
  intros k s [<- <-]%lookup_singleton_Some. split; [by apply uniKey_nonempty|done].
Qed.

Definition leaderA : Raft Op := (initRaft 3 1 MakePersister 0) <| state := RS_Leader |>.

Lemma shard_movement_witness : ∃ reply kvB',
  RequestMapAndSession (mkRequestArgs 101 0 {[7 := true]} 2) leaderA serverA1 = Ret reply ∧
  applyApplyMovement (movementArgs reply (cfg7 2) {[7 := true]} serverB).2 serverB = Ret kvB' ∧
  serves kvB' 7 = true ∧ mp kvB' !! "a" = Some "1" ∧
  ∃ kvB'', applyCommand putA 9 kvB' = Ret (kvB'', false) ∧ mp kvB'' = mp kvB'.
Proof.
  destruct (shard_movement {[7 := true]} leaderA serverA1 serverB 101 0 (cfg7 2))
    as (reply & kvB' & Hr & _ & Ha & Hs & Hm & Hop).
  - apply serverA1_ok.
  - by apply fresh_ok.
  - reflexivity.
  - vm_compute. discriminate.
  - intros s b [<- <-]%lookup_singleton_Some. split; [done|]. split; [done|]. vm_compute. reflexivity.
  - exists reply, kvB'. split; [exact Hr|]. split; [exact Ha|]. split; [apply Hs; by vm_compute; eexists|].
    split; [rewrite Hm; vm_compute; reflexivity|].
    apply (Hop putA 9 (sessionOf putA 4)); [vm_compute; reflexivity|lia|vm_compute; reflexivity| |done|done].
    vm_compute. by eexists.
Defined.

Lemma deleteShards_exact_witness : ∃ kv' a',
  applyDeleteShards (mkDeleteShardsArgs (-9) 1 {[7 := true]} 2) serverA1 = Ret (kv', a') ∧
  mp kv' !! "a" = None ∧ mp serverA1 !! "a" = Some "1".
Proof.
  destruct (deleteShards_exact (mkDeleteShardsArgs (-9) 1 {[7 := true]} 2) serverA1)
    as (kv' & a' & Hr & Hm & _).
  - apply serverA1_ok.
  - intros s b Hs. simpl in Hs. by apply lookup_singleton_Some in Hs as [<- <-].
  - exists kv', a'. split; [exact Hr|]. split; [rewrite Hm; vm_compute; reflexivity|vm_compute; reflexivity].
Defined.

Lemma config_change_serves_witness :
  let move := mkApplyMovementArgs (-9) 1 {["a" := "1"]} ∅ (cfg7 2) {[7 := true]} in
  ∃ kv1, applyMovements [move] (applyUpdateShardVec (pollUpdate (cfg7 2) serverB).2 serverB) = Ret kv1 ∧
         ∀ s, inRange s → serves kv1 s = true ↔ ownsIn (cfg7 2) 101 s.
Proof.
  intros move. destruct (config_change_serves (cfg7 2) serverB [move]) as (_ & kv1 & _ & Hr & Hs & _).
  - by apply fresh_ok.
  - reflexivity.
  - reflexivity.
  - vm_compute. reflexivity.
  - intros a ->%list_elem_of_singleton. split; [done|]. intros k s Hks. simpl in Hks. by rewrite lookup_empty in Hks.
  - vm_compute. reflexivity.
  - exists kv1. split; [exact Hr|exact Hs].
Defined.

(** ** Two things that the code does not guard against *)

(** A shard that had no group: [MoveShards] asks the servers of group 0, and
    since there are none its goroutine never finishes.  The shard itself needs no
    data and is already open after [UpdateShardVec]. *)
Lemma group_zero_is_asked :
  let old := cfg 3 0 in
  MoveShards old (cfg 4 101) serverB = Some {[0 := set_to_map (λ s, (s, true)) (list_to_set (seqZ 0 10) : gset Z)]} ∧
  askedServers old 0 = [] ∧ newShardVec 101 old (cfg 4 101) = replicate NShards true.
Proof. split; [vm_compute; reflexivity|]. split; reflexivity. Qed.

(** A delayed [ApplyMovement] of an old configuration opens a shard that the
    current configuration gives to another group: the operation compares numbers
    for the data and the sessions, not for [shardVec]. *)
Lemma stale_movement_reopens :
  let kv := fresh 101 (cfg 5 100) (replicate NShards false) in
  let move := mkApplyMovementArgs (-9) 1 ∅ ∅ (cfg7 2) {[7 := true]} in
  ∃ kv', applyApplyMovement move kv = Ret kv' ∧ serves kv' 7 = true ∧
         Num (cfg7 2) < Num (config kv') ∧ ¬ ownsIn (config kv') 101 7.
Proof.
  eexists. split; [reflexivity|]. split; [reflexivity|]. split; [reflexivity|].
  intros Ho. discriminate Ho.
Qed.
