(* ===== verification/ShardMove.v ===== *)
(** * The sharded server: changing the configuration ([src/shardkv])

    The goroutine [pollConfig] of a leader, with [MoveShards] and the goroutines
    it starts, as a state machine.  It asks the controller for the next
    configuration and takes the group there in three phases: [UpdateShardVec]
    through the log, then [ApplyMovement] for every group that gives shards
    (followed by [DeleteShards] to that group), then [ChangeConfig].

    A step is what happens between two points at which the goroutine waits: a
    remote call, a local RPC, a lock or [WaitGroup.Wait]; what it gets there is
    an [input].  Between two steps the rest of the server may do anything
    ([ds_server]).  The last part of the file is the retry loop of the clerk. *)

From S2P Require Import Prelude RaftState RaftNode Rebalance ShardKV ShardKVSpec.
Local Open Scope Z_scope.

(** ** States *)

(** One goroutine of the first loop of [MoveShards]: at the test of its loop,
    calling server [si], holding a reply and waiting for
    [sendApplyMovementLock], inside [ApplyMovement] with that lock, or done. *)
Inductive fetch :=
| F_Loop
| F_Asking (si : nat)
| F_Got (reply : RequestMapAndSessionReply)
| F_Moving (args : ApplyMovementArgs)
| F_Done.

(** One goroutine of the second loop. *)
Inductive drop_ :=
| D_Loop
| D_Asking (args : DeleteShardsArgs) (si : nat)
| D_Done.

(** Where [pollConfig] is: [latest], [next] and [old] are its variables
    [latestConfig] and [nextConfig] and the parameter [oldConfig] of
    [MoveShards]; [tasks] has, for every group to receive from, the shards and
    the goroutine. *)
Inductive pollPc :=
| P_Top
| P_Inner (latest : Config)
| P_Update (latest next : Config) (args : UpdateShardVecArgs)
| P_Updated (latest next : Config) (args : UpdateShardVecArgs) (updateOK : bool)
| P_Fetch (latest next old : Config) (tasks : gmap Z (gmap Z bool * fetch)) (applyMovementFail : bool)
| P_Delete (latest next old : Config) (tasks : gmap Z (gmap Z bool * drop_))
| P_Change (latest next : Config) (args : ChangeConfigArgs)
| P_Exit.

Inductive input :=
| I_Top (isLeader : bool) (latest : Config)     (* [GetState] and [Query(-1)] *)
| I_Inner (isLeader : bool) (next : Config)     (* [GetState] and [Query(Num + 1)] *)
| I_Reply (err : string)                        (* the reply of a local RPC *)
| I_Lock                                        (* [kv.mu] *)
| I_Ask (gid : Z) (reply : option RequestMapAndSessionReply)
| I_Moving (gid : Z) (err : string)             (* [sendApplyMovementLock], a local RPC *)
| I_Drop (gid : Z) (reply : option Reply)
| I_Wait (isLeader : bool).                     (* [wg.Wait()] *)

(** What a step does, seen from outside: it makes the arguments of a new
    request, a local RPC ends with [OK], or the movements are planned. *)
Inductive output :=
| Issue (args : GenericArgs)
| Ack (args : GenericArgs)
| Plan (old next : Config).

(** ** The local RPC loops

    [for !kv.killed() { kv.handleNormalRPC(...) ... }]: whether the loop ends,
    and if so whether the operation succeeded. *)
Definition localLoop (err : string) kv : option bool :=
  if ShardKV.killed kv then Some false
  else if decide (err = OK) then Some true
  else if decide (err = ERR_WrongLeader) then Some false
  else None.

(** ** [MoveShards] *)

Definition moving (t : gmap Z bool * fetch) : bool :=
  match t.2 with F_Moving _ => true | _ => false end.

(** A step of the goroutine that receives [shards] from group [gid]; [free]:
    nobody holds [sendApplyMovementLock].  It returns the new goroutine and
    server, what it does, and whether it sets [applyMovementFail]. *)
Definition fetchStep (i : input) (gid : Z) (old next : Config) (free : bool) (shards : gmap Z bool)
    (f : fetch) kv : option (fetch * ShardKV * list output * bool) :=
  match f, i with
  | F_Loop, I_Ask _ _ =>
      if ShardKV.killed kv then Some (F_Done, kv, [], false)
      else match Groups old !! gid with
           | Some _ => Some (F_Asking 0, kv, [], false)
           | None => Some (F_Loop, kv, [], false)
           end
  | F_Asking si, I_Ask _ reply =>
      if decide (si < length (map_get [] (Groups old) gid))%nat then
        match reply with
        | Some r => if decide (rmr_Err r = OK) then Some (F_Got r, kv, [], false)
                    else Some (F_Asking (S si), kv, [], false)
        | None => Some (F_Asking (S si), kv, [], false)
        end
      else Some (F_Loop, kv, [], false)
  | F_Got r, I_Moving _ _ =>
      if free then
        let '(kv, args) := movementArgs r next shards kv in
        Some (F_Moving args, kv, [Issue (AApplyMovement args)], false)
      else None
  | F_Moving args, I_Moving _ err =>
      match localLoop err kv with
      | Some true => Some (F_Done, kv, [Ack (AApplyMovement args)], false)
      | Some false => Some (F_Done, kv, [], true)
      | None => Some (F_Moving args, kv, [], false)
      end
  | _, _ => None
  end.

(** A step of the goroutine that asks group [gid] to delete [shards]. *)
Definition dropStep (gid : Z) (old next : Config) (shards : gmap Z bool) (reply : option Reply)
    (d : drop_) kv : option (drop_ * ShardKV * list output) :=
  match d with
  | D_Loop =>
      if ShardKV.killed kv then Some (D_Done, kv, [])
      else match Groups old !! gid with
           | Some _ =>
               let '(kv, args) := deleteArgs next shards kv in
               Some (D_Asking args 0, kv, [Issue (ADeleteShards args)])
           | None => Some (D_Loop, kv, [])
           end
  | D_Asking args si =>
      if decide (si < length (map_get [] (Groups old) gid))%nat then
        match reply with
        | Some r => if decide (r_Err r = OK) then Some (D_Done, kv, []) else Some (D_Asking args (S si), kv, [])
        | None => Some (D_Asking args (S si), kv, [])
        end
      else Some (D_Loop, kv, [])
  | D_Done => None
  end.

Definition startFetch (plan : gmap Z (gmap Z bool)) : gmap Z (gmap Z bool * fetch) :=
  (λ shards, (shards, F_Loop)) <$> plan.
Definition startDrop (tasks : gmap Z (gmap Z bool * fetch)) : gmap Z (gmap Z bool * drop_) :=
  (λ t, (t.1, D_Loop)) <$> tasks.

Definition fetched (t : gmap Z bool * fetch) : bool := match t.2 with F_Done => true | _ => false end.
Definition dropped (t : gmap Z bool * drop_) : bool := match t.2 with D_Done => true | _ => false end.

(** [wg.Wait()] returns when no goroutine is left. *)
Definition allTasks {A} (p : gmap Z bool * A → bool) (m : gmap Z (gmap Z bool * A)) : bool :=
  forallb (λ x, p x.2) (map_to_list m).

(** ** [pollConfig] *)

Definition startChange (latest next : Config) kv : pollPc * ShardKV * list output :=
  let '(kv, args) := pollChange next kv in (P_Change latest next args, kv, [Issue (AChangeConfig args)]).

Definition pollStep (i : input) (pc : pollPc) kv : option (pollPc * ShardKV * list output) :=
  match pc, i with
  | P_Top, I_Top isLeader latest =>
      if ShardKV.killed kv then Some (P_Exit, kv, [])
      else if isLeader then Some (P_Inner latest, kv, []) else Some (P_Top, kv, [])
  | P_Inner latest, I_Inner isLeader next =>
      if decide (Num (config kv) < Num latest) then
        if negb isLeader || ShardKV.killed kv then Some (P_Top, kv, [])
        else
          let '(kv, args) := pollUpdate next kv in
          Some (P_Update latest next args, kv, [Issue (AUpdateShardVec args)])
      else Some (P_Top, kv, [])
  | P_Update latest next args, I_Reply err =>
      match localLoop err kv with
      | Some true => Some (P_Updated latest next args true, kv, [Ack (AUpdateShardVec args)])
      | Some false => Some (P_Updated latest next args false, kv, [])
      | None => Some (pc, kv, [])
      end
  | P_Updated latest next args updateOK, I_Lock =>
      if negb updateOK || bool_decide (Num (config kv) >= Num next) || ShardKV.killed kv
      then Some (P_Inner latest, kv, [])
      else
        match MoveShards (config kv) next kv with
        | Some plan => Some (P_Fetch latest next (config kv) (startFetch plan) false, kv, [Plan (config kv) next])
        | None => let '(pc, kv', out) := startChange latest next kv in
                  Some (pc, kv', Plan (config kv) next :: out)
        end
  | P_Fetch latest next old tasks failed, I_Wait isLeader =>
      if allTasks fetched tasks then
        if negb isLeader || ShardKV.killed kv || failed then Some (P_Inner latest, kv, [])
        else Some (P_Delete latest next old (startDrop tasks), kv, [])
      else None
  | P_Fetch latest next old tasks failed, (I_Ask g _ | I_Moving g _) =>
      '(shards, f) ← tasks !! g;
      '(f', kv', out, fails) ← fetchStep i g old next (negb (existsb (λ x, moving x.2) (map_to_list tasks)))
                                 shards f kv;
      Some (P_Fetch latest next old (<[g := (shards, f')]> tasks) (failed || fails), kv', out)
  | P_Delete latest next old tasks, I_Drop g reply =>
      '(shards, d) ← tasks !! g;
      '(d', kv', out) ← dropStep g old next shards reply d kv;
      Some (P_Delete latest next old (<[g := (shards, d')]> tasks), kv', out)
  | P_Delete latest next old tasks, I_Wait _ =>
      if allTasks dropped tasks then Some (startChange latest next kv) else None
  | P_Change latest next args, I_Reply err =>
      match localLoop err kv with
      | Some true => Some (P_Inner latest, kv, [Ack (AChangeConfig args)])
      | Some false => Some (P_Inner latest, kv, [])
      | None => Some (pc, kv, [])
      end
  | _, _ => None
  end.

(** ** Runs *)

(** What the rest of the server never touches: the number of the next request,
    its own identity and its group; and it stays killed. *)
Definition serverFrame kv kv' : Prop :=
  localReqNum kv' = localReqNum kv ∧ uid kv' = uid kv ∧ gid kv' = gid kv ∧
  (ShardKV.killed kv = true → ShardKV.killed kv' = true).

(** The driver, the server, and what the driver has done so far. *)
Inductive dstep : pollPc * ShardKV * list output → pollPc * ShardKV * list output → Prop :=
| ds_poll i pc kv tr pc' kv' out :
    pollStep i pc kv = Some (pc', kv', out) → dstep (pc, kv, tr) (pc', kv', tr ++ out)
| ds_server pc kv tr kv' : serverFrame kv kv' → dstep (pc, kv, tr) (pc, kv', tr).

(** A server that has just been started. *)
Definition driver_init (x : pollPc * ShardKV * list output) : Prop :=
  ∃ meId mrs g nrand, x = (P_Top, StartServer meId mrs g nrand, []).

Definition driver_reachable (x : pollPc * ShardKV * list output) : Prop :=
  ∃ x0, driver_init x0 ∧ rtc dstep x0 x.

(** [handleApplyMsg] and [Kill] are such steps. *)
Lemma applyOp_serverFrame op kv r : applyOp op kv = Ret r → serverFrame kv r.1.1.
Proof.
  unfold applyOp, applyClient, applyChangeConfig, applyApplyMovement, applyDeleteShards,
    applyUpdateShardVec. intros Hr.
  repeat first [case_decide | case_match]; inv_ret; repeat (case_match; inv_ret); simplify_eq/=; done.
Qed.

Lemma handleApplyMsg_serverFrame `{Codec Snapshot} size m kv kv' r :
  handleApplyMsg size m kv = Ret (kv', r) → serverFrame kv kv'.
Proof.
  unfold handleApplyMsg. intros Ha. destruct (CommandValid m); [|destruct (SnapshotValid m); by inv_ret].
  destruct (msgCommand m) as [op|]; [|done]. apply bind_Ret_inv in Ha as ([k b] & Hc & Ha).
  assert (serverFrame kv k) as Hf.
  { unfold applyCommand in Hc. destruct (stable _ _ _); [by inv_ret|].
    apply bind_Ret_inv in Hc as ([[k' a] o] & Ho & Hc). apply applyOp_serverFrame in Ho. simpl in *.
    destruct a; by inv_ret. }
  case_decide; by injection Ha as <- <-.
Qed.

Lemma Kill_serverFrame kv : serverFrame kv (Kill kv).
Proof. done. Qed.

(** ** The invariant *)

(** The shards [sh] have arrived: a movement with them was acknowledged. *)
Definition arrived (tr : list output) (next : Config) (sh : gmap Z bool) : Prop :=
  ∃ m, Ack (AApplyMovement m) ∈ tr ∧ am_Shards m = sh ∧ am_Config m = next.

(** Since the last plan, [tr'] has happened. *)
Definition planned (tr : list output) (old next : Config) (tr' : list output) : Prop :=
  ∃ tr0 u, tr = tr0 ++ Ack (AUpdateShardVec u) :: Plan old next :: tr' ∧ uv_ConfigNum u = Num next.

(** The shards to fetch; none when [MoveShards] returns at once. *)
Definition planOf (g : Z) (old next : Config) : gmap Z (gmap Z bool) :=
  if decide (Num old = 0 ∨ Num old = Num next) then ∅ else receiveFrom g old next.

Definition fetchOk (tr' : list output) (next : Config) (done : Prop) (t : gmap Z bool * fetch) : Prop :=
  match t.2 with
  | F_Moving args => am_Shards args = t.1 ∧ am_Config args = next
  | F_Done => done ∨ arrived tr' next t.1
  | _ => True
  end.

Definition pcOk (pc : pollPc) kv (tr : list output) : Prop :=
  match pc with
  | P_Update _ next args => uv_ConfigNum args = Num next
  | P_Updated _ next args updateOK => uv_ConfigNum args = Num next ∧
      (updateOK = true → ∃ tr0, tr = tr0 ++ [Ack (AUpdateShardVec args)])
  | P_Fetch _ next old tasks failed => ∃ tr', planned tr old next tr' ∧
      fst <$> tasks = planOf (gid kv) old next ∧
      ∀ g t, tasks !! g = Some t → fetchOk tr' next (failed = true ∨ ShardKV.killed kv = true) t
  | P_Delete _ next old tasks => ∃ tr', planned tr old next tr' ∧
      fst <$> tasks = planOf (gid kv) old next ∧
      ∀ g t, tasks !! g = Some t → arrived tr' next t.1
  | _ => True
  end.

(** What each output needs before it. *)
Definition justified (g : Z) (before : list output) (o : output) : Prop :=
  match o with
  | Issue (ADeleteShards a) => ∃ m, Ack (AApplyMovement m) ∈ before ∧ am_Shards m = ds_Shards a ∧
      Num (am_Config m) = ds_ConfigNum a
  | Issue (AChangeConfig a) => ∃ old tr', planned before old (cc_Config a) tr' ∧
      ∀ o sh, planOf g old (cc_Config a) !! o = Some sh → arrived tr' (cc_Config a) sh
  | _ => True
  end.

Definition traceOk (g : Z) (tr : list output) : Prop :=
  ∀ k o, tr !! k = Some o → justified g (take k tr) o.

Lemma arrived_mono tr tr' next sh : arrived tr next sh → arrived (tr ++ tr') next sh.
Proof. intros (m & Hm & ?). exists m. split; [|done]. apply elem_of_app. by left. Qed.

Lemma planned_mono tr old next tr' out : planned tr old next tr' → planned (tr ++ out) old next (tr' ++ out).
Proof.
  intros (tr0 & u & -> & Hu). exists tr0, u. split; [|done]. by rewrite <- app_assoc.
Qed.

Lemma traceOk_app g tr out : traceOk g tr →
  (∀ k o, out !! k = Some o → justified g (tr ++ take k out) o) → traceOk g (tr ++ out).
Proof.
  intros Ht Ho k o [Hk|[Hk Hl]]%lookup_app_Some.
  - rewrite take_app_le by (apply lookup_lt_Some in Hk; lia). by apply Ht.
  - rewrite take_app_ge by done. by apply Ho.
Qed.

(** A step that does nothing that needs a reason. *)
Lemma traceOk_harmless g tr out : traceOk g tr →
  Forall (λ o, match o with Issue (ADeleteShards _) | Issue (AChangeConfig _) => False | _ => True end) out →
  traceOk g (tr ++ out).
Proof.
  intros Ht Ho. apply traceOk_app; [done|]. intros k o Hk. rewrite Forall_forall in Ho.
  specialize (Ho o (list_elem_of_lookup_2 _ _ _ Hk)). destruct o as [[]| |]; done.
Qed.

Lemma allTasks_spec {A} (p : gmap Z bool * A → bool) m :
  allTasks p m = true ↔ ∀ g t, m !! g = Some t → p t = true.
Proof.
  unfold allTasks. rewrite forallb_forall. setoid_rewrite <- list_elem_of_In. split.
  - intros Hf g t Hg. apply (Hf (g, t)). by apply elem_of_map_to_list.
  - intros Hf [g t] Hg%elem_of_map_to_list. by eapply Hf.
Qed.

Lemma planOf_MoveShards old next kv :
  planOf (gid kv) old next = default ∅ (MoveShards old next kv).
Proof. unfold planOf, MoveShards. repeat case_decide; naive_solver. Qed.

(** [pc] and [kv] after a step that keeps the group. *)
Definition driverOk (x : pollPc * ShardKV * list output) : Prop :=
  pcOk x.1.1 x.1.2 x.2 ∧ traceOk (gid x.1.2) x.2.

Lemma pcOk_server pc kv kv' tr : pcOk pc kv tr → serverFrame kv kv' → pcOk pc kv' tr.
Proof.
  intros Hp (_ & _ & Hg & Hkl). destruct pc; simpl in *; rewrite ?Hg; auto.
  destruct Hp as (tr' & Hpl & Ht & Hf). exists tr'. do 2 (split; [done|]). intros g t Hgt.
  specialize (Hf g t Hgt). unfold fetchOk in *. destruct (t.2); naive_solver.
Qed.

(** Two consecutive traces of a goroutine. *)
Lemma fetchOk_mono tr' out next (P Q : Prop) t : (P → Q) → fetchOk tr' next P t → fetchOk (tr' ++ out) next Q t.
Proof. unfold fetchOk. destruct (t.2); auto. intros HPQ [?|?]; [by auto|right; by apply arrived_mono]. Qed.

Lemma fetchStep_ok i g old next free shards f kv f' kv' out fails tr' (P : Prop) :
  fetchStep i g old next free shards f kv = Some (f', kv', out, fails) →
  fetchOk tr' next P (shards, f) →
  fetchOk (tr' ++ out) next (P ∨ fails = true ∨ ShardKV.killed kv = true) (shards, f') ∧
  gid kv' = gid kv ∧ ShardKV.killed kv' = ShardKV.killed kv ∧
  Forall (λ o, match o with Issue (ADeleteShards _) | Issue (AChangeConfig _) => False | _ => True end) out.
Proof.
  intros Hs Hf. unfold fetchStep in Hs.
  destruct f as [|si|r|args|], i; simplify_eq; repeat (case_match; simplify_eq); simpl;
    try (split_and!; [by auto|done..|by repeat constructor]); unfold fetchOk in *; simpl in *.
  - split_and!; [by left; right; right|done|done|constructor].
  - unfold movementArgs in *. simplify_eq. by split_and!; [| | | |repeat constructor].
  - split_and!; [|done|done|by repeat constructor]. right. exists args.
    split; [apply elem_of_app; right; by left|done].
  - split_and!; [by left; right; left|done|done|constructor].
Qed.

Lemma startChange_ok latest next kv tr old tr' pc kv' out : planned tr old next tr' →
  (∀ o sh, planOf (gid kv) old next !! o = Some sh → arrived tr' next sh) →
  startChange latest next kv = (pc, kv', out) → traceOk (gid kv) tr →
  driverOk (pc, kv', tr ++ out) ∧ gid kv' = gid kv.
Proof.
  intros Hpl Har Hs Ht. unfold startChange in Hs. simpl in Hs. simplify_eq. split; [|done].
  split; [done|]. apply traceOk_app; [done|]. intros [|k] o Ho; simplify_eq/=. rewrite app_nil_r. eauto.
Qed.

Lemma dropStep_ok g old next shards reply d kv d' kv' out tr tr' :
  dropStep g old next shards reply d kv = Some (d', kv', out) →
  planned tr old next tr' → arrived tr' next shards → traceOk (gid kv) tr →
  traceOk (gid kv) (tr ++ out) ∧ gid kv' = gid kv.
Proof.
  intros Hs (tr0 & u & -> & _) (m & Hm & Hsh & Hc) Ht. unfold dropStep in Hs.
  repeat (case_match; simplify_eq); rewrite ?app_nil_r; try done.
  unfold deleteArgs in *. simplify_eq. split; [|done]. apply traceOk_app; [done|].
  intros [|k] o Ho; simplify_eq/=. exists m. split_and!; [|done|done].
  rewrite app_nil_r, elem_of_app. right. right. by right.
Qed.

Lemma tasks_update {A} (tasks : gmap Z (gmap Z bool * A)) plan g t a :
  fst <$> tasks = plan → tasks !! g = Some t → fst <$> <[g := (t.1, a)]> tasks = plan.
Proof.
  intros <- Hg. rewrite fmap_insert. simpl. apply insert_id. by rewrite lookup_fmap, Hg.
Qed.

Lemma driver_fetch i latest next old tasks failed g kv tr pc' kv' out :
  driverOk (P_Fetch latest next old tasks failed, kv, tr) →
  ('(shards, f) ← tasks !! g;
   '(f', kv', out, fails) ← fetchStep i g old next (negb (existsb (λ x, moving x.2) (map_to_list tasks)))
                              shards f kv;
   Some (P_Fetch latest next old (<[g := (shards, f')]> tasks) (failed || fails), kv', out))
    = Some (pc', kv', out) →
  driverOk (pc', kv', tr ++ out) ∧ gid kv' = gid kv.
Proof.
  intros [(tr' & Hpl & Etasks & Hf) Ht] Hs. simpl in Hpl, Etasks, Hf, Ht.
  destruct (tasks !! g) as [[shards f]|] eqn:Hg; [|done]. simpl in Hs.
  destruct (fetchStep _ _ _ _ _ _ _ _) as [[[[f' kv1] out1] fails]|] eqn:Hst; [|done].
  injection Hs as <- <- <-.
  destruct (fetchStep_ok _ _ _ _ _ _ _ _ _ _ _ _ tr' _ Hst (Hf _ _ Hg)) as (Hf' & Eg & Ek & Hout).
  split; [|done]. split; simpl; [|rewrite Eg; by apply traceOk_harmless].
  exists (tr' ++ out1). split; [by apply planned_mono|]. rewrite Eg, Ek. split; [by apply tasks_update with (t := (shards, f))|].
  intros k t [[<- <-]|[_ Hk]]%lookup_insert_Some; [|eapply fetchOk_mono, Hf, Hk].
  - revert Hf'. unfold fetchOk. simpl. destruct f'; try done. rewrite orb_true_iff. tauto.
  - rewrite orb_true_iff. tauto.
Qed.

Lemma driver_poll i pc kv tr pc' kv' out : driverOk (pc, kv, tr) →
  pollStep i pc kv = Some (pc', kv', out) → driverOk (pc', kv', tr ++ out) ∧ gid kv' = gid kv.
Proof.
  intros [Hp Ht] Hs. simpl in Hp, Ht.
  assert (∀ pc, pcOk pc kv tr → driverOk (pc, kv, tr ++ []) ∧ gid kv = gid kv) as Hstay
    by (intros; rewrite app_nil_r; done).
  destruct pc as [|latest|latest next args|latest next args b|latest next old tasks failed
    |latest next old tasks|latest next args|], i; simpl in Hs; try done.
  - repeat (case_match; simplify_eq); by apply Hstay.
  - repeat (case_match; simplify_eq); try (by apply Hstay). unfold pollUpdate in *. simplify_eq.
    split; [|done]. split; [done|]. apply traceOk_harmless; [done|]. by repeat constructor.
  - repeat (case_match; simplify_eq); try (by apply Hstay).
    split; [|done]. split; [|apply traceOk_harmless; [done|by repeat constructor]]. split; [done|]. eauto.
  - destruct Hp as [Hn Hack]. destruct b; simpl in Hs; [|simplify_eq; by apply Hstay].
    destruct (Hack eq_refl) as [tr0 ->]. destruct (_ || _); [simplify_eq; by apply Hstay|].
    assert (planned ((tr0 ++ [Ack (AUpdateShardVec args)]) ++ [Plan (config kv) next]) (config kv) next []) as Hpl.
    { exists tr0, args. by rewrite <- app_assoc. }
    assert (traceOk (gid kv) ((tr0 ++ [Ack (AUpdateShardVec args)]) ++ [Plan (config kv) next])) as Ht'
      by (apply traceOk_harmless; [done|by repeat constructor]).
    pose proof (planOf_MoveShards (config kv) next kv) as Ep.
    destruct (MoveShards (config kv) next kv) as [plan|]; simpl in Ep.
    + simplify_eq. split; [|done]. split; [|done]. exists []. split; [done|]. split.
      * unfold startFetch. rewrite <- map_fmap_compose. apply map_fmap_id.
      * intros g t Hg. unfold startFetch in Hg. apply lookup_fmap_Some in Hg as (sh & <- & _). done.
    + assert (∀ o sh, planOf (gid kv) (config kv) next !! o = Some sh → arrived [] next sh) as Har
        by (rewrite Ep; done).
      pose proof (startChange_ok latest next kv _ _ _ _ _ _ Hpl Har eq_refl Ht') as Hok.
      injection Hs as <- <- <-. by rewrite <- app_assoc in Hok.
  - eapply driver_fetch; [split; [exact Hp|exact Ht]|exact Hs].
  - eapply driver_fetch; [split; [exact Hp|exact Ht]|exact Hs].
  - destruct Hp as (tr' & Hpl & Etasks & Hf). destruct (allTasks fetched tasks) eqn:Hall; [|done].
    rewrite allTasks_spec in Hall. destruct isLeader; simpl in Hs; [|simplify_eq; by apply Hstay].
    destruct (killed kv) eqn:Hk, failed; simpl in Hs; simplify_eq; try by apply Hstay.
    apply Hstay. exists tr'. split; [done|]. split.
    + rewrite <- Etasks. unfold startDrop. by rewrite <- map_fmap_compose.
    + intros g t Hg. unfold startDrop in Hg. apply lookup_fmap_Some in Hg as (t0 & <- & Ht0). simpl.
      specialize (Hall _ _ Ht0). specialize (Hf _ _ Ht0). unfold fetched, fetchOk in *.
      destruct (t0.2); try done. by destruct Hf as [[?|?]|?].
  - destruct Hp as (tr' & Hpl & Etasks & Hf). destruct (tasks !! gid) as [[sh d]|] eqn:Hg; [|done]. simpl in Hs.
    destruct (dropStep gid old next sh reply d kv) as [[[d' kv1] out1]|] eqn:Hd; [|done]. simplify_eq/=.
    destruct (dropStep_ok _ _ _ _ _ _ _ _ _ _ _ _ Hd Hpl (Hf _ _ Hg) Ht) as [Ht' Eg]. split; [|done].
    split; simpl; [|by rewrite Eg]. exists (tr' ++ out). split; [by apply planned_mono|]. rewrite Eg. split.
    + by apply tasks_update with (t := (sh, d)).
    + intros g t [[<- <-]|[_ Hgt]]%lookup_insert_Some; apply arrived_mono; [by apply (Hf _ _ Hg)|by eapply Hf].
  - destruct Hp as (tr' & Hpl & Etasks & Hf). destruct (allTasks dropped tasks); [|done]. 
    assert (∀ o sh, planOf (gid kv) old next !! o = Some sh → arrived tr' next sh) as Har.
    { intros o sh Ho. rewrite <- Etasks in Ho. apply lookup_fmap_Some in Ho as (t & <- & Hgt). by eapply Hf. }
    injection Hs as <- <- <-. by apply (startChange_ok latest next kv _ _ _ _ _ _ Hpl Har eq_refl Ht).
  - repeat (case_match; simplify_eq); try (by apply Hstay).
    split; [|done]. split; [done|]. apply traceOk_harmless; [done|by repeat constructor].
Qed.

Lemma driver_ok x : driver_reachable x → driverOk x.
Proof.
  intros (x0 & (meId & mrs & g & nrand & ->) & Hst).
  assert (driverOk (P_Top, StartServer meId mrs g nrand, [])) as Hok by done.
  induction Hst as [|x y z Hst _ IH]; [done|]. apply IH.
  destruct Hst as [i pc kv tr pc' kv' out Hs|pc kv tr kv' Hf].
  - by eapply driver_poll.
  - destruct Hok as [Hp Ht]. split; [by eapply pcOk_server|]. destruct Hf as (_ & _ & Eg & _).
    simpl in *. by rewrite Eg.
Qed.

(** C11: the phases of a configuration change come in order.  Whatever the servers
    answer, whichever leader is elected and whenever the server is killed: when
    a [DeleteShards] request is made, a movement of the same shards under the
    same configuration has gone through the log of the receiving group before;
    when a [ChangeConfig] is made, the shard vector for that configuration was
    updated before, the movements were then planned from some old configuration,
    and since then every movement of the plan has gone through the log. *)
Theorem config_change_order pc kv tr : driver_reachable (pc, kv, tr) →
  (∀ k a, tr !! k = Some (Issue (ADeleteShards a)) →
     ∃ m, Ack (AApplyMovement m) ∈ take k tr ∧ am_Shards m = ds_Shards a ∧
          Num (am_Config m) = ds_ConfigNum a) ∧
  (∀ k a, tr !! k = Some (Issue (AChangeConfig a)) →
     ∃ tr0 u old tr', take k tr = tr0 ++ Ack (AUpdateShardVec u) :: Plan old (cc_Config a) :: tr' ∧
       uv_ConfigNum u = Num (cc_Config a) ∧
       ∀ o sh, planOf (gid kv) old (cc_Config a) !! o = Some sh →
         ∃ m, Ack (AApplyMovement m) ∈ tr' ∧ am_Shards m = sh ∧ am_Config m = cc_Config a).
Proof.
  intros [_ Ht]%driver_ok. split; intros k a Hk; [exact (Ht k _ Hk)|].
  destruct (Ht k _ Hk) as (old & tr' & (tr0 & u & E & Hu) & Har). exists tr0, u, old, tr'. done.
Qed.

(** ** The numbers of the requests *)

Definition issued (tr : list output) : list GenericArgs :=
  omap (λ o, match o with Issue a => Some a | _ => None end) tr.
Definition acked (tr : list output) : list GenericArgs :=
  omap (λ o, match o with Ack a => Some a | _ => None end) tr.

Lemma issued_app tr out : issued (tr ++ out) = issued tr ++ issued out.
Proof. apply omap_app. Qed.
Lemma acked_app tr out : acked (tr ++ out) = acked tr ++ acked out.
Proof. apply omap_app. Qed.

(** Increasing numbers, all below [n]. *)
Definition rising (n : Z) (l : list GenericArgs) : Prop :=
  StronglySorted Z.lt (getReqNum <$> l) ∧ ∀ a, a ∈ l → getReqNum a < n.

Lemma rising_snoc n n' l a : rising n l → n ≤ getReqNum a → getReqNum a < n' → rising n' (l ++ [a]).
Proof.
  intros [Hs Hb] Hn Hn'. split.
  - rewrite fmap_app. apply StronglySorted_app_2; [|done|by repeat constructor].
    intros x y Hx Hy. apply list_elem_of_fmap in Hx as (b & -> & Hx). apply list_elem_of_singleton in Hy as ->.
    specialize (Hb b Hx). lia.
  - intros b [Hx|Hx]%elem_of_app; [specialize (Hb b Hx); lia|]. by apply list_elem_of_singleton in Hx as ->.
Qed.

Lemma rising_mono n n' l : rising n l → n ≤ n' → rising n' l.
Proof. intros [Hs Hb] Hn. split; [done|]. intros a Ha. specialize (Hb a Ha). lia. Qed.

(** The local request that [pc] waits for. *)
Definition outstanding (pc : pollPc) (a : GenericArgs) : Prop :=
  match pc with
  | P_Update _ _ args => a = AUpdateShardVec args
  | P_Fetch _ _ _ tasks _ => ∃ g sh args, tasks !! g = Some (sh, F_Moving args) ∧ a = AApplyMovement args
  | P_Change _ _ args => a = AChangeConfig args
  | _ => False
  end.

(** [sendApplyMovementLock] *)
Definition oneMoving (pc : pollPc) : Prop :=
  match pc with
  | P_Fetch _ _ _ tasks _ => ∀ g g' sh sh' args args', tasks !! g = Some (sh, F_Moving args) →
      tasks !! g' = Some (sh', F_Moving args') → g = g'
  | _ => True
  end.

Record numbersOk (pc : pollPc) kv (tr : list output) : Prop := {
  no_issued : rising (localReqNum kv) (issued tr);
  no_acked : rising (localReqNum kv) (acked tr);
  no_uid : ∀ a, a ∈ issued tr → getId a = uid kv;
  no_one : oneMoving pc;
  no_next : ∀ a, outstanding pc a → rising (getReqNum a) (acked tr) ∧ getReqNum a < localReqNum kv ∧
    ∀ b, b ∈ issued tr → getReqNum b ≤ getReqNum a;
}.

(** The three kinds of steps. *)
Lemma numbers_quiet pc kv tr pc' kv' out : numbersOk pc kv tr → issued out = [] → acked out = [] →
  (∀ a, outstanding pc' a → outstanding pc a) → oneMoving pc' → localReqNum kv' = localReqNum kv → uid kv' = uid kv →
  numbersOk pc' kv' (tr ++ out).
Proof.
  intros [Hi Ha Hu _ Hn] Ei Ea Ho H1 El Eu.
  split; rewrite ?issued_app, ?acked_app, ?Ei, ?Ea, ?app_nil_r, ?El, ?Eu; auto.
Qed.

Lemma numbers_issue pc kv tr pc' kv' out a : numbersOk pc kv tr → issued out = [a] → acked out = [] →
  getReqNum a = localReqNum kv → getId a = uid kv → (∀ b, outstanding pc' b → b = a) → oneMoving pc' →
  localReqNum kv' = localReqNum kv + 1 → uid kv' = uid kv → numbersOk pc' kv' (tr ++ out).
Proof.
  intros [Hi Ha Hu _ Hn] Ei Ea Ern Eid Ho H1 El Eu.
  split; rewrite ?issued_app, ?acked_app, ?Ei, ?Ea, ?app_nil_r, ?El, ?Eu.
  - eapply rising_snoc; [exact Hi|lia|lia].
  - eapply rising_mono; [exact Ha|lia].
  - intros b [Hb|Hb]%elem_of_app; [by apply Hu|]. by apply list_elem_of_singleton in Hb as ->.
  - done.
  - intros b Hb. rewrite (Ho b Hb), Ern. split; [done|]. split; [lia|].
    intros c [Hc|Hc]%elem_of_app; [apply Hi in Hc; lia|]. apply list_elem_of_singleton in Hc as ->. lia.
Qed.

Lemma numbers_ack pc kv tr pc' kv' out a : numbersOk pc kv tr → issued out = [] → acked out = [a] →
  outstanding pc a → (∀ b, ¬ outstanding pc' b) → oneMoving pc' → localReqNum kv' = localReqNum kv → uid kv' = uid kv →
  numbersOk pc' kv' (tr ++ out).
Proof.
  intros [Hi Ha Hu _ Hn] Ei Ea Hout Ho H1 El Eu.
  split; rewrite ?issued_app, ?acked_app, ?Ei, ?Ea, ?app_nil_r, ?El, ?Eu; auto.
  - destruct (Hn a Hout) as (Hr & Hlt & _). eapply rising_snoc; [exact Hr|lia|lia].
  - intros b []%Ho.
Qed.

Lemma moving_free (tasks : gmap Z (gmap Z bool * fetch)) :
  existsb (λ x, moving x.2) (map_to_list tasks) = false →
  ∀ g sh args, tasks !! g ≠ Some (sh, F_Moving args).
Proof.
  intros He g sh args Hg. apply not_true_iff_false in He. apply He, existsb_exists.
  exists (g, (sh, F_Moving args)). split; [|done]. by apply list_elem_of_In, elem_of_map_to_list.
Qed.

Lemma numbers_fetch i latest next old tasks failed g kv tr pc' kv' out :
  numbersOk (P_Fetch latest next old tasks failed) kv tr →
  ('(shards, f) ← tasks !! g;
   '(f', kv', out, fails) ← fetchStep i g old next (negb (existsb (λ x, moving x.2) (map_to_list tasks)))
                              shards f kv;
   Some (P_Fetch latest next old (<[g := (shards, f')]> tasks) (failed || fails), kv', out))
    = Some (pc', kv', out) →
  numbersOk pc' kv' (tr ++ out).
Proof.
  intros HN Hs. destruct (tasks !! g) as [[shards f]|] eqn:Hg; [|done]. simpl in Hs.
  destruct (fetchStep _ _ _ _ _ _ _ _) as [[[[f' kv1] out1] fails]|] eqn:Hst; [|done].
  injection Hs as <- <- <-. set (pc' := P_Fetch _ _ _ _ _). pose proof (no_one _ _ _ HN) as H1. simpl in H1.
  assert (moving (shards, f') = false → oneMoving pc' ∧
    ∀ a, outstanding pc' a → ∃ g' sh args, g' ≠ g ∧ tasks !! g' = Some (sh, F_Moving args) ∧ a = AApplyMovement args)
    as Hother.
  { intros Hm. split.
    - intros k k' sh sh' args args' [[-> E]|[_ Hk]]%lookup_insert_Some [[-> E']|[_ Hk']]%lookup_insert_Some;
        [done|injection E as _ ->; done|injection E' as _ ->; done|by eapply H1].
    - intros a (k & sh & args & [[-> E]|[Hne Hk]]%lookup_insert_Some & ->); [injection E as _ ->; done|].
      exists k, sh, args. done. }
  assert (moving (shards, f') = false → kv1 = kv → issued out1 = [] → acked out1 = [] →
    numbersOk pc' kv1 (tr ++ out1)) as Hquiet.
  { intros Hm -> Ei Ea. destruct (Hother Hm) as [H1' Ho]. eapply numbers_quiet; eauto.
    intros a (k & sh & args & _ & Hk & ->)%Ho. by exists k, sh, args. }
  unfold fetchStep in Hst. destruct f as [|si|r|args|], i; simplify_eq; repeat (case_match; simplify_eq);
    try (by apply Hquiet).
  - unfold movementArgs in *. simplify_eq. 
    match goal with He : negb _ = true |- _ => apply negb_true_iff in He; pose proof (moving_free _ He) as Hfree end.
    eapply numbers_issue; [exact HN|done..| | |done|done].
    + intros b (k & sh & args & [[-> E]|[_ Hk]]%lookup_insert_Some & ->); [by simplify_eq|].
      by apply Hfree in Hk.
    + intros k k' sh sh' args args' [[-> E]|[_ Hk]]%lookup_insert_Some [[-> E']|[_ Hk']]%lookup_insert_Some;
        [done| | |]; exfalso; by eapply Hfree.
  - destruct (Hother eq_refl) as [H1' Ho]. eapply numbers_ack; [exact HN|done|done| | |done|done|done].
    + by exists g, shards, args.
    + intros b (k & sh & args' & Hne & Hk & ->)%Ho. by eapply Hne, H1.
  - apply (numbers_quiet _ _ _ _ _ _ HN); [done|done| | |done|done];
      unfold pc'; simpl; rewrite insert_id by done; [done|exact H1].
Qed.

Lemma numbers_step x y : numbersOk x.1.1 x.1.2 x.2 → dstep x y → numbersOk y.1.1 y.1.2 y.2.
Proof.
  intros HN Hst. destruct Hst as [i pc kv tr pc' kv' out Hs|pc kv tr kv' (El & Eu & _)]; simpl in *; swap 1 2.
  { rewrite <- (app_nil_r tr). by eapply numbers_quiet; eauto; apply HN. }
  destruct pc as [|latest|latest next args|latest next args b|latest next old tasks failed
    |latest next old tasks|latest next args|], i; simpl in Hs; try done.
  - repeat (case_match; simplify_eq); by eapply numbers_quiet.
  - repeat (case_match; simplify_eq); try (by eapply numbers_quiet).
    unfold pollUpdate in *. simplify_eq. by eapply numbers_issue.
  - repeat (case_match; simplify_eq); try (by eapply numbers_quiet).
    eapply numbers_ack; [exact HN|reflexivity|reflexivity|reflexivity|by intros ? []|done..].
  - destruct (_ || _); [simplify_eq; by eapply numbers_quiet|].
    destruct (MoveShards (config kv) next kv) as [plan|]; simplify_eq; [|by eapply numbers_issue].
    eapply numbers_quiet; eauto; simpl.
    + intros a (g & sh & args' & Hg & _). unfold startFetch in Hg.
      by apply lookup_fmap_Some in Hg as (? & ? & _).
    + intros g g' sh sh' a a' Hg. unfold startFetch in Hg. by apply lookup_fmap_Some in Hg as (? & ? & _).
  - by eapply numbers_fetch.
  - by eapply numbers_fetch.
  - repeat (case_match; simplify_eq); by eapply numbers_quiet.
  - destruct (tasks !! gid) as [[sh d]|]; [|done]. simpl in Hs.
    destruct (dropStep gid old next sh reply d kv) as [[[d' kv1] out1]|] eqn:Hd; [|done]. simplify_eq/=.
    unfold dropStep in Hd. repeat (case_match; simplify_eq); try (by eapply numbers_quiet).
    unfold deleteArgs in *. simplify_eq.
    eapply numbers_issue; [exact HN|reflexivity|reflexivity|reflexivity|reflexivity|by intros ? []|done..].
  - case_match; [|done]. injection Hs as <- <- <-. unfold startChange.
    eapply numbers_issue; [exact HN|reflexivity|reflexivity|reflexivity|reflexivity|by intros ? ->|done..].
  - repeat (case_match; simplify_eq); try (by eapply numbers_quiet).
    eapply numbers_ack; [exact HN|reflexivity|reflexivity|reflexivity|by intros ? []|done..].
Qed.

Lemma numbers_ok x : driver_reachable x → numbersOk x.1.1 x.1.2 x.2.
Proof.
  intros (x0 & (meId & mrs & g & nrand & ->) & Hst).
  assert (∀ k, rising k []) as Hr by (intros k; split; [by constructor|by intros ? ?%not_elem_of_nil]).
  assert (numbersOk P_Top (StartServer meId mrs g nrand) []) as H0
    by (split; [apply Hr|apply Hr|by intros ? ?%not_elem_of_nil|done|done]).
  change (numbersOk (P_Top, StartServer meId mrs g nrand, @nil output).1.1
    (P_Top, StartServer meId mrs g nrand, @nil output).1.2 (P_Top, StartServer meId mrs g nrand, @nil output).2) in H0.
  revert H0. induction Hst; eauto using numbers_step.
Qed.

(** C39: the requests of a server are numbered in order.  Every request that a
    server makes on its own behalf carries its identity and a larger number than
    the ones before, and its local requests go through its log one at a time, in
    the order of their numbers.  So when the session check drops an operation of
    the local request that the driver waits for, and the session was recorded by
    a request of this server, then it was recorded by this very request: it is
    not dropped before it has been executed. *)
Theorem server_requests_in_order pc kv tr : driver_reachable (pc, kv, tr) →
  (∀ a, a ∈ issued tr → getId a = uid kv) ∧
  StronglySorted Z.lt (getReqNum <$> issued tr) ∧ StronglySorted Z.lt (getReqNum <$> acked tr) ∧
  (∀ a, outstanding pc a → ∀ b, b ∈ acked tr → getReqNum b < getReqNum a) ∧
  (∀ a, outstanding pc a → ∀ op i session, op_ReqNum op = getReqNum a →
     (∃ b, b ∈ issued tr ∧ LastOpReqNum session = getReqNum b) →
     stable op i session = true → LastOpReqNum session = getReqNum a).
Proof.
  intros [Hi Ha Hu _ Hn]%numbers_ok. split; [done|]. split; [apply Hi|]. split; [apply Ha|]. split.
  - intros a Hout b Hb. by apply (Hn a Hout).
  - intros a Hout op i session Eop (b & Hb & Es) Hst. destruct (Hn a Hout) as (_ & _ & Hle).
    specialize (Hle b Hb). unfold stable in Hst. apply andb_true_iff in Hst as [_ Hst%bool_decide_eq_true].
    lia.
Qed.

(** ** Progress *)

(** The driver alone, over a list of inputs. *)
Fixpoint runPoll (ins : list input) (pc : pollPc) kv : option (pollPc * ShardKV * list output) :=
  match ins with
  | [] => Some (pc, kv, [])
  | i :: ins =>
      '(pc, kv, out) ← pollStep i pc kv;
      '(pc, kv, tr) ← runPoll ins pc kv;
      Some (pc, kv, out ++ tr)
  end.

Lemma runPoll_steps ins pc kv pc' kv' tr tr0 : runPoll ins pc kv = Some (pc', kv', tr) →
  rtc dstep (pc, kv, tr0) (pc', kv', tr0 ++ tr).
Proof.
  revert pc kv tr tr0. induction ins as [|i ins IH]; intros pc kv tr tr0 Hr; simpl in Hr.
  { simplify_eq. by rewrite app_nil_r. }
  destruct (pollStep i pc kv) as [[[pc1 kv1] out]|] eqn:Hs; [|done]. simpl in Hr.
  destruct (runPoll ins pc1 kv1) as [[[pc2 kv2] tr2]|] eqn:Hr2; [|done]. simplify_eq/=.
  eapply rtc_l; [by eapply ds_poll|]. rewrite app_assoc. by apply IH.
Qed.

(** A server that gives away what it is asked for, at its first call. *)
Definition given : RequestMapAndSessionReply := mkRequestReply OK ∅ ∅.

Definition fetchInputs (g : Z) : list input :=
  [I_Ask g None; I_Ask g (Some given); I_Moving g ""; I_Moving g OK].
Definition dropInputs (g : Z) : list input := [I_Drop g None; I_Drop g (Some (mkReply OK "" 0))].

(** The part of the server that the driver changes: the number of its next
    request. *)
Definition renumbered kv (k : Z) : ShardKV := set_localReqNum kv (localReqNum kv + k).

Lemma renumbered_same kv : ∃ k, kv = renumbered kv k.
Proof. exists 0. unfold renumbered. rewrite Z.add_0_r. by destruct kv. Qed.

Lemma renumbered_next kv : ∃ k, set_localReqNum kv (localReqNum kv + 1) = renumbered kv k.
Proof. by exists 1. Qed.

#[local] Hint Resolve renumbered_same renumbered_next : core.

Lemma fetchStep_renumbered i g old next free sh f kv f' kv' out fails :
  fetchStep i g old next free sh f kv = Some (f', kv', out, fails) → ∃ k, kv' = renumbered kv k.
Proof.
  unfold fetchStep. intros Hs. destruct f, i; simplify_eq; repeat (case_match; simplify_eq); eauto.
  unfold movementArgs in *. by simplify_eq; eauto.
Qed.

Lemma pollStep_renumbered i pc kv pc' kv' out : pollStep i pc kv = Some (pc', kv', out) →
  ∃ k, kv' = renumbered kv k.
Proof.
  intros Hs. destruct pc, i; simpl in Hs; unfold startChange, pollChange in Hs; try done.
  all: try (repeat (case_match; simplify_eq/=); by eauto).
  all: destruct (_ !! _) as [[sh f]|]; [|done]; simpl in Hs.
  - destruct (fetchStep _ _ _ _ _ _ _ _) as [[[[f1 kv1] out1] fails]|] eqn:Hst; [|done]. simplify_eq/=.
    by eapply fetchStep_renumbered.
  - destruct (fetchStep _ _ _ _ _ _ _ _) as [[[[f1 kv1] out1] fails]|] eqn:Hst; [|done]. simplify_eq/=.
    by eapply fetchStep_renumbered.
  - destruct (dropStep _ _ _ _ _ _ _) as [[[d' kv1] out1]|] eqn:Hd; [|done]. simplify_eq/=.
    unfold dropStep in Hd. repeat (case_match; simplify_eq/=); by eauto.
Qed.

(** *** Sums over the goroutines *)

Definition total {A} (w : Z → A → Z) (m : gmap Z A) : Z := map_fold (λ g t n, w g t + n) 0 m.

Lemma total_insert {A} (w : Z → A → Z) m g t : m !! g = None → total w (<[g := t]> m) = w g t + total w m.
Proof. intros Hg. unfold total. by rewrite map_fold_insert_L by (done || intros; lia). Qed.

Lemma total_update {A} (w : Z → A → Z) m g t t' : m !! g = Some t →
  total w (<[g := t']> m) = total w m - w g t + w g t'.
Proof.
  intros Hg. pose proof (total_insert w (delete g m) g t (lookup_delete_eq _ _)) as E.
  rewrite insert_delete_id in E by done. rewrite E, <- insert_delete_eq, total_insert by apply lookup_delete_eq. lia.
Qed.

Lemma total_fmap {A B} (w : Z → B → Z) (f : A → B) m : total w (f <$> m) = total (λ g t, w g (f t)) m.
Proof.
  induction m as [|g t m Hg IH] using map_ind; [done|].
  rewrite fmap_insert, total_insert by (by rewrite lookup_fmap, Hg). by rewrite total_insert, IH by done.
Qed.

Lemma total_add {A} (w w' : Z → A → Z) m : total (λ g t, w g t + w' g t) m = total w m + total w' m.
Proof. induction m as [|g t m Hg IH] using map_ind; [done|]. rewrite !total_insert, IH by done. lia. Qed.

Lemma total_ext {A} (w w' : Z → A → Z) m : (∀ g t, w g t = w' g t) → total w m = total w' m.
Proof.
  intros Hw. induction m as [|g t m Hg IH] using map_ind; [done|]. by rewrite !total_insert, Hw, IH by done.
Qed.

Lemma total_nonneg {A} (w : Z → A → Z) m : (∀ g t, m !! g = Some t → 0 ≤ w g t) → 0 ≤ total w m.
Proof.
  induction m as [|g t m Hg IH] using map_ind; intros Hw; [done|]. rewrite total_insert by done.
  pose proof (Hw g t (lookup_insert_eq _ _ _)). assert (0 ≤ total w m); [|lia].
  apply IH. intros k x Hk. apply Hw. rewrite lookup_insert_ne; [done|]. intros ->. congruence.
Qed.

(** *** Help from outside

    The server is the leader and the controller knows [next].  In group [o], the
    server at position [good o] of its list answers with [OK]; the others answer
    anything, or not at all.  A local RPC may fail and be repeated ([retry]), but
    not for want of leadership. *)

Definition okReply (r : option RequestMapAndSessionReply) : Prop := ∃ x, r = Some x ∧ rmr_Err x = OK.
Definition okDelete (r : option Reply) : Prop := ∃ x, r = Some x ∧ r_Err x = OK.

Definition helpful (good : Z → nat) (next : Config) (pc : pollPc) (i : input) : Prop :=
  match i with
  | I_Top _ _ | I_Lock => True
  | I_Inner isLeader n => isLeader = true ∧ n = next
  | I_Reply err | I_Moving _ err => err ≠ ERR_WrongLeader
  | I_Wait isLeader => isLeader = true
  | I_Ask g r =>
      match pc with
      | P_Fetch _ _ _ tasks _ => ∀ sh, tasks !! g = Some (sh, F_Asking (good g)) → okReply r
      | _ => True
      end
  | I_Drop g r =>
      match pc with
      | P_Delete _ _ _ tasks => ∀ sh args, tasks !! g = Some (sh, D_Asking args (good g)) → okDelete r
      | _ => True
      end
  end.

Definition retry (i : input) : bool :=
  match i with I_Reply err | I_Moving _ err => negb (bool_decide (err = OK)) | _ => false end.
Definition retries (ins : list input) : Z := len (filter (λ i, retry i = true) ins).

(** The change to [next] has been made. *)
Definition changed (next : Config) (tr : list output) : Prop :=
  ∃ args, Ack (AChangeConfig args) ∈ tr ∧ cc_Config args = next.

(** Runs of the driver with this help, up to the change.  Between its steps the
    rest of the server does what it likes, but it lives, and installs no other
    configuration before the driver asks for it. *)
Inductive helpedRun (good : Z → nat) (next : Config) :
    list input → pollPc * ShardKV * list output → pollPc * ShardKV * list output → Prop :=
| hr_nil x : helpedRun good next [] x x
| hr_poll ins i pc kv tr pc' kv' out y :
    ¬ changed next tr → helpful good next pc i → pollStep i pc kv = Some (pc', kv', out) →
    helpedRun good next ins (pc', kv', tr ++ out) y → helpedRun good next (i :: ins) (pc, kv, tr) y
| hr_server ins pc kv tr kv' y :
    serverFrame kv kv' → killed kv' = false →
    config kv' = config kv ∨ (∃ latest n args, pc = P_Change latest n args) →
    helpedRun good next ins (pc, kv', tr) y → helpedRun good next ins (pc, kv, tr) y.

(** *** The measure *)

Definition fetchWeight (good : Z → nat) (g : Z) (t : gmap Z bool * fetch) : Z :=
  match t.2 with
  | F_Loop => Z.of_nat (good g) + 4
  | F_Asking si => Z.of_nat (good g) - Z.of_nat si + 3
  | F_Got _ => 2
  | F_Moving _ => 1
  | F_Done => 0
  end.

Definition dropWeight (good : Z → nat) (g : Z) (t : gmap Z bool * drop_) : Z :=
  match t.2 with
  | D_Loop => Z.of_nat (good g) + 2
  | D_Asking _ si => Z.of_nat (good g) - Z.of_nat si + 1
  | D_Done => 0
  end.

(** Three steps before and three around the movements, and for every group as
    many as its good server is away, twice. *)
Definition changeBound (good : Z → nat) (plan : gmap Z (gmap Z bool)) : Z :=
  6 + total (λ g _, 2 * Z.of_nat (good g) + 6) plan.

Section ends.
Context (good : Z → nat) (old next : Config) (g0 : Z).
#[local] Abbreviation plan := (planOf g0 old next).
Context (Hold : Num old < Num next).
Context (Hgood : ∀ o sh, plan !! o = Some sh → (good o < length (map_get [] (Groups old) o))%nat).

Definition fetchAsked (g : Z) (f : fetch) : Prop :=
  match f with F_Asking si => (si ≤ good g)%nat | _ => True end.
Definition dropAsked (g : Z) (d : drop_) : Prop :=
  match d with D_Asking _ si => (si ≤ good g)%nat | _ => True end.

Definition fetchTotal : Z := total (λ g _, Z.of_nat (good g) + 4) plan.
Definition dropTotal : Z := total (λ g _, Z.of_nat (good g) + 2) plan.

Definition pcWeight (pc : pollPc) : Z :=
  match pc with
  | P_Inner _ => 6 + fetchTotal + dropTotal
  | P_Update _ _ _ => 5 + fetchTotal + dropTotal
  | P_Updated _ _ _ _ => 4 + fetchTotal + dropTotal
  | P_Fetch _ _ _ tasks _ => 3 + total (fetchWeight good) tasks + dropTotal
  | P_Delete _ _ _ tasks => 2 + total (dropWeight good) tasks
  | P_Change _ _ _ => 1
  | _ => 0
  end.

(** Where the driver is on its way to the change. *)
Definition onWay (pc : pollPc) kv (tr : list output) : Prop :=
  killed kv = false ∧ gid kv = g0 ∧
  match pc with
  | P_Inner latest => changed next tr ∨ config kv = old ∧ Num old < Num latest
  | P_Update _ n _ => n = next ∧ config kv = old
  | P_Updated _ n _ updateOK => n = next ∧ updateOK = true ∧ config kv = old
  | P_Fetch _ n o tasks failed => n = next ∧ o = old ∧ failed = false ∧ fst <$> tasks = plan ∧
      ∀ g t, tasks !! g = Some t → fetchAsked g t.2
  | P_Delete _ n o tasks => n = next ∧ o = old ∧ fst <$> tasks = plan ∧
      ∀ g t, tasks !! g = Some t → dropAsked g t.2
  | P_Change _ _ args => cc_Config args = next
  | _ => False
  end.

Lemma onWay_server pc kv kv' tr : onWay pc kv tr → serverFrame kv kv' → killed kv' = false →
  config kv' = config kv ∨ (∃ latest n args, pc = P_Change latest n args) → onWay pc kv' tr.
Proof.
  intros (_ & Hg & Hp) (_ & _ & Eg & _) Hk Hc. split; [done|]. split; [congruence|].
  destruct Hc as [Ec|(latest & n & args & ->)]; [|done]. destruct pc; rewrite ?Ec; auto.
Qed.

(** One step of a goroutine. *)
Lemma fetch_way i g free sh f kv f' kv' out fails : killed kv = false → plan !! g = Some sh →
  fetchAsked g f → (∀ r, i = I_Ask g r → f = F_Asking (good g) → okReply r) →
  (∀ err, i = I_Moving g err → err ≠ ERR_WrongLeader) →
  (∀ k r, i = I_Ask k r → k = g) → (∀ k err, i = I_Moving k err → k = g) →
  fetchStep i g old next free sh f kv = Some (f', kv', out, fails) →
  fails = false ∧ fetchAsked g f' ∧ fetchWeight good g (sh, f') + 1 ≤ fetchWeight good g (sh, f) + retries [i].
Proof.
  intros Hk Hg Hf Hr He Hk1 Hk2 Hs. pose proof (Hgood g sh Hg) as Hlt. unfold fetchStep in Hs.
  destruct f as [|si|r|args|], i as [| | | |k r0|k err| |]; simplify_eq; simpl in Hf;
    try specialize (Hk1 _ _ eq_refl); try specialize (Hk2 _ _ eq_refl); subst.
  - rewrite Hk in Hs. unfold map_get in Hlt. destruct (Groups old !! g); [|simpl in Hlt; lia].
    simplify_eq. unfold retries, fetchWeight. simpl. split_and!; [done|lia|unfold len; simpl; lia].
  - rewrite decide_True in Hs by lia. destruct (decide (si = good g)) as [->|Hne].
    + destruct (Hr r0 eq_refl eq_refl) as (x & -> & Hx). rewrite decide_True in Hs by done. simplify_eq.
      unfold retries, fetchWeight. simpl. split_and!; [done|done|unfold len; simpl; lia].
    + assert (f' = F_Asking (S si) ∨ ∃ r, f' = F_Got r) as Hf'
        by (repeat (case_match; simplify_eq); eauto).
      assert (fails = false) as -> by (repeat (case_match; simplify_eq); done).
      unfold retries, fetchWeight. destruct Hf' as [->|[r ->]]; simpl; (split_and!; [done|lia || done|unfold len; simpl; lia]).
  - case_match; [|done]. unfold movementArgs in Hs. simplify_eq. split_and!; [done|done|].
    pose proof (len_nonneg (filter (λ i, retry i = true) [I_Moving g err])). unfold retries, fetchWeight. cbn [snd]. lia.
  - unfold localLoop in Hs. rewrite Hk in Hs. destruct (decide (err = OK)) as [->|Hok].
    + simplify_eq. split_and!; [done|done|]. unfold retries, fetchWeight, len. simpl. lia.
    + rewrite decide_False in Hs by (by eapply He). simplify_eq. split_and!; [done|done|].
      unfold retries. rewrite filter_cons_True by (simpl; by rewrite bool_decide_eq_false_2).
      unfold fetchWeight, len. simpl. lia.
Qed.

Lemma drop_way g sh d kv r d' kv' out : killed kv = false → plan !! g = Some sh → dropAsked g d →
  (∀ args, d = D_Asking args (good g) → okDelete r) →
  dropStep g old next sh r d kv = Some (d', kv', out) →
  dropAsked g d' ∧ dropWeight good g (sh, d') + 1 ≤ dropWeight good g (sh, d).
Proof.
  intros Hk Hg Hd Hr Hs. pose proof (Hgood g sh Hg) as Hlt. unfold dropStep in Hs.
  destruct d as [|args si|]; [| |done]; simpl in Hd.
  - rewrite Hk in Hs. unfold map_get in Hlt. destruct (Groups old !! g); [|simpl in Hlt; lia].
    unfold deleteArgs in Hs. simplify_eq. unfold dropWeight. simpl. lia.
  - rewrite decide_True in Hs by lia. destruct (decide (si = good g)) as [->|Hne].
    + destruct (Hr args eq_refl) as (x & -> & Hx). rewrite decide_True in Hs by done. simplify_eq.
      unfold dropWeight. simpl. split; [done|lia].
    + assert (d' = D_Asking args (S si) ∨ d' = D_Done) as [-> | ->]
        by (repeat (case_match; simplify_eq); eauto); unfold dropWeight; simpl; (split; [lia || done|lia]).
Qed.

Lemma retries_one i : retries [i] = if retry i then 1 else 0.
Proof. unfold retries. rewrite filter_cons. by destruct (retry i). Qed.

Lemma onWay_renumbered pc kv k tr : onWay pc (renumbered kv k) tr ↔ onWay pc kv tr.
Proof. done. Qed.

Lemma tasks_shards {A} (tasks : gmap Z (gmap Z bool * A)) g sh a :
  fst <$> tasks = plan → tasks !! g = Some (sh, a) → plan !! g = Some sh.
Proof. intros <- Hg. by rewrite lookup_fmap, Hg. Qed.

Lemma way_fetch i latest tasks g kv tr pc' kv' out :
  onWay (P_Fetch latest next old tasks false) kv tr → helpful good next (P_Fetch latest next old tasks false) i →
  (∃ r, i = I_Ask g r) ∨ (∃ err, i = I_Moving g err) →
  ('(shards, f) ← tasks !! g;
   '(f', kv', out, fails) ← fetchStep i g old next (negb (existsb (λ x, moving x.2) (map_to_list tasks)))
                              shards f kv;
   Some (P_Fetch latest next old (<[g := (shards, f')]> tasks) (false || fails), kv', out))
    = Some (pc', kv', out) →
  onWay pc' kv' (tr ++ out) ∧ pcWeight pc' + 1 ≤ pcWeight (P_Fetch latest next old tasks false) + retries [i].
Proof.
  intros (Hk & Hgid & _ & _ & _ & Etasks & Hf) Hh Hi Hs.
  destruct (tasks !! g) as [[sh f]|] eqn:Hg; [|done]. simpl in Hs.
  destruct (fetchStep _ _ _ _ _ _ _ _) as [[[[f' kv1] out1] fails]|] eqn:Hst; [|done].
  injection Hs as <- <- <-.
  pose proof (λ H1 H2 H3 H4, fetch_way i g _ sh f kv f' kv1 out1 fails Hk (tasks_shards _ _ _ _ Etasks Hg)
    (Hf _ _ Hg) H1 H2 H3 H4 Hst) as Hway.
  destruct Hway as (-> & Hf' & Hw).
  - intros r -> ->. exact (Hh sh Hg).
  - intros err ->. exact Hh.
  - intros k r ->. by destruct Hi as [[? [= ->]]|[? ?]].
  - intros k r ->. by destruct Hi as [[? ?]|[? [= ->]]].
  - destruct (fetchStep_renumbered _ _ _ _ _ _ _ _ _ _ _ _ Hst) as [k ->]. rewrite onWay_renumbered. split.
    + split_and!; [done|done|done|done|done|by apply tasks_update with (t := (sh, f))|].
      intros k' t [[<- <-]|[_ Hk']]%lookup_insert_Some; [done|by eapply Hf].
    + cbn [pcWeight]. rewrite (total_update _ _ _ _ _ Hg). lia.
Qed.

Lemma way_drop latest tasks g r kv tr pc' kv' out :
  onWay (P_Delete latest next old tasks) kv tr → helpful good next (P_Delete latest next old tasks) (I_Drop g r) →
  pollStep (I_Drop g r) (P_Delete latest next old tasks) kv = Some (pc', kv', out) →
  onWay pc' kv' (tr ++ out) ∧ pcWeight pc' + 1 ≤ pcWeight (P_Delete latest next old tasks).
Proof.
  intros (Hk & Hgid & _ & _ & Etasks & Hd) Hh Hs. cbn [pollStep] in Hs.
  destruct (tasks !! g) as [[sh d]|] eqn:Hg; [|done]. simpl in Hs.
  destruct (dropStep _ _ _ _ _ _ _) as [[[d' kv1] out1]|] eqn:Hst; [|done]. injection Hs as <- <- <-.
  destruct (drop_way g sh d kv r d' kv1 out1 Hk (tasks_shards _ _ _ _ Etasks Hg) (Hd _ _ Hg)) as (Hd' & Hw);
    [by intros args ->; apply (Hh sh args)|done|].
  assert (∃ k, kv1 = renumbered kv k) as [k ->]
    by (unfold dropStep in Hst; repeat (case_match; simplify_eq/=); by eauto).
  rewrite onWay_renumbered. split.
  - split_and!; [done|done|done|done|by apply tasks_update with (t := (sh, d))|].
    intros k' t [[<- <-]|[_ Hk']]%lookup_insert_Some; [done|by eapply Hd].
  - cbn [pcWeight]. rewrite (total_update _ _ _ _ _ Hg). lia.
Qed.

Lemma fetchTotal_start : total (fetchWeight good) (startFetch plan) = fetchTotal.
Proof. unfold startFetch. by rewrite total_fmap. Qed.

Lemma dropTotal_start (tasks : gmap Z (gmap Z bool * fetch)) : fst <$> tasks = plan →
  total (dropWeight good) (startDrop tasks) = dropTotal.
Proof. intros Hp. unfold startDrop, dropTotal. by rewrite <- Hp, !total_fmap. Qed.

Lemma way_nonneg : 0 ≤ fetchTotal ∧ 0 ≤ dropTotal.
Proof. split; apply total_nonneg; lia. Qed.

Lemma fetch_nonneg tasks : (∀ g t, tasks !! g = Some t → fetchAsked g t.2) → 0 ≤ total (fetchWeight good) tasks.
Proof.
  intros Hf. apply total_nonneg. intros g [sh f] Hg. specialize (Hf _ _ Hg). unfold fetchWeight.
  destruct f; simpl in *; lia.
Qed.

Lemma drop_nonneg tasks : (∀ g t, tasks !! g = Some t → dropAsked g t.2) → 0 ≤ total (dropWeight good) tasks.
Proof.
  intros Hd. apply total_nonneg. intros g [sh d] Hg. specialize (Hd _ _ Hg). unfold dropWeight.
  destruct d; simpl in *; lia.
Qed.

Lemma pcWeight_pos pc kv tr : onWay pc kv tr → 1 ≤ pcWeight pc.
Proof.
  pose proof way_nonneg as [? ?]. intros (_ & _ & Hp). destruct pc; simpl in *; try done; try lia.
  - destruct Hp as (_ & _ & _ & _ & Hf%fetch_nonneg). lia.
  - destruct Hp as (_ & _ & _ & Hd%drop_nonneg). lia.
Qed.

Lemma way_step i pc kv tr pc' kv' out : onWay pc kv tr → ¬ changed next tr → helpful good next pc i →
  pollStep i pc kv = Some (pc', kv', out) →
  onWay pc' kv' (tr ++ out) ∧ (changed next (tr ++ out) ∨ pcWeight pc' + 1 ≤ pcWeight pc + retries [i]).
Proof.
  intros Hw Hch Hh Hs. pose proof way_nonneg as [Hft Hdt]. rewrite retries_one.
  destruct pc as [|latest|latest n args|latest n args b|latest n o tasks failed|latest n o tasks|latest n args|],
    i as [| |err| |g r|g err|g r|isLeader]; try done; destruct (Hw) as (Hk & Hgid & Hp); cbn [pollStep] in Hs; try done.
  - destruct Hh as [-> ->]. destruct Hp as [?|[Ec Hl]]; [done|]. rewrite decide_True, Hk in Hs by (by rewrite Ec).
    cbn in Hs. simplify_eq. split; [by split_and!|]. right. simpl. lia.
  - destruct Hp as [-> Ec]. unfold localLoop in Hs. rewrite Hk in Hs. cbn [retry].
    destruct (decide (err = OK)) as [->|Hok].
    + simplify_eq. split; [by split_and!|]. right. simpl. lia.
    + rewrite decide_False in Hs by done. simplify_eq. rewrite bool_decide_eq_false_2, app_nil_r by done.
      split; [done|]. right. simpl. lia.
  - destruct Hp as (-> & -> & Ec). rewrite Ec, Hk, bool_decide_eq_false_2 in Hs by lia. cbn [negb orb] in Hs.
    pose proof (planOf_MoveShards old next kv) as Ep. rewrite Hgid in Ep.
    destruct (MoveShards old next kv) as [pl|]; simpl in Ep; cbn in Hs; [subst pl|]; simplify_eq.
    + split; [|right; cbn [pcWeight retry]; rewrite fetchTotal_start; lia].
      split_and!; [done|done|done|done|done| |].
      * unfold startFetch. rewrite <- map_fmap_compose. apply map_fmap_id.
      * intros g t Hg. unfold startFetch in Hg. by apply lookup_fmap_Some in Hg as (sh & <- & _).
    + split; [done|]. right. simpl. lia.
  - destruct Hp as (-> & -> & -> & Et & Hf). rewrite <- retries_one.
    destruct (way_fetch (I_Ask g r) latest tasks g kv tr pc' kv' out) as [H1 H2]; eauto.
  - destruct Hp as (-> & -> & -> & Et & Hf). rewrite <- retries_one.
    destruct (way_fetch (I_Moving g err) latest tasks g kv tr pc' kv' out) as [H1 H2]; eauto.
  - destruct Hp as (-> & -> & -> & Et & Hf). simpl in Hh. subst isLeader.
    destruct (allTasks fetched tasks); [|done]. rewrite Hk in Hs. cbn in Hs. simplify_eq. split.
    + split_and!; [done|done|done|done| |].
      * rewrite <- Et. unfold startDrop. by rewrite <- map_fmap_compose.
      * intros g t Hg. unfold startDrop in Hg. by apply lookup_fmap_Some in Hg as (t0 & <- & Ht0).
    + right. cbn [pcWeight retry]. rewrite dropTotal_start by done.
      pose proof (fetch_nonneg tasks Hf). lia.
  - destruct Hp as (-> & -> & Et & Hd). destruct (way_drop latest tasks g r kv tr pc' kv' out) as [H1 H2]; auto.
    split; [done|]. right. cbn [retry]. lia.
  - destruct Hp as (-> & -> & Et & Hd). destruct (allTasks dropped tasks); [|done]. injection Hs as <- <- <-.
    split; [done|]. right. cbn [pcWeight retry startChange pollChange fst].
    pose proof (drop_nonneg tasks Hd). lia.
  - unfold localLoop in Hs. rewrite Hk in Hs. cbn [retry]. destruct (decide (err = OK)) as [->|Hok].
    + injection Hs as <- <- <-. assert (changed next (tr ++ [Ack (AChangeConfig args)])) as Hc.
      { exists args. split; [|exact Hp]. apply elem_of_app. right. by left. }
      split; [split_and!; [done|done|by left]|by left].
    + rewrite decide_False in Hs by done. simplify_eq. rewrite bool_decide_eq_false_2, app_nil_r by done.
      split; [done|]. right. simpl. lia.
Qed.

(** *** There is always something to do *)

Lemma forallb_false {A} (p : A → bool) l : forallb p l = false → ∃ x, x ∈ l ∧ p x = false.
Proof.
  induction l as [|x l IH]; simpl; [done|]. destruct (p x) eqn:Hx; simpl.
  - intros (y & Hy & ?)%IH. exists y. split; [by right|done].
  - intros _. exists x. split; [by left|done].
Qed.

Lemma allTasks_false {A} (p : gmap Z bool * A → bool) m : allTasks p m = false →
  ∃ g t, m !! g = Some t ∧ p t = false.
Proof. intros ([g t] & Hin%elem_of_map_to_list & Hp)%forallb_false. by exists g, t. Qed.

Lemma moving_busy (tasks : gmap Z (gmap Z bool * fetch)) :
  existsb (λ x, moving x.2) (map_to_list tasks) = true → ∃ g sh args, tasks !! g = Some (sh, F_Moving args).
Proof.
  intros ([g [sh f]] & Hin & Hm)%existsb_exists. apply list_elem_of_In, elem_of_map_to_list in Hin.
  exists g, sh. destruct f; try done. by eexists.
Qed.

Lemma enabled_moving latest n o tasks failed kv g sh args : killed kv = false →
  tasks !! g = Some (sh, F_Moving args) → is_Some (pollStep (I_Moving g OK) (P_Fetch latest n o tasks failed) kv).
Proof.
  intros Hk Hg. cbn [pollStep]. rewrite Hg. cbn [mbind option_bind fetchStep]. unfold localLoop.
  rewrite Hk, decide_True by done. by eexists.
Qed.

Lemma enabled_fetch latest tasks g sh f kv : killed kv = false → tasks !! g = Some (sh, f) →
  fetched (sh, f) = false → ∃ i, helpful good next (P_Fetch latest next old tasks false) i ∧ retry i = false ∧
    is_Some (pollStep i (P_Fetch latest next old tasks false) kv).
Proof.
  intros Hk Hg Hf.
  assert (helpful good next (P_Fetch latest next old tasks false) (I_Ask g (Some given))) as Hask
    by (intros ? _; by exists given).
  destruct f as [|si|r|args|]; [| | | |done].
  - exists (I_Ask g (Some given)). split; [done|]. split; [done|]. cbn [pollStep]. rewrite Hg.
    cbn [mbind option_bind fetchStep]. rewrite Hk. destruct (Groups old !! g); by eexists.
  - exists (I_Ask g (Some given)). split; [done|]. split; [done|]. cbn [pollStep]. rewrite Hg.
    cbn [mbind option_bind fetchStep]. case_decide; [|by eexists]. cbn [rmr_Err given].
    rewrite decide_True by done. by eexists.
  - destruct (existsb (λ x, moving x.2) (map_to_list tasks)) eqn:He.
    + destruct (moving_busy tasks He) as (k & sh' & args & Hb). exists (I_Moving k OK).
      split; [done|]. split; [done|]. by eapply enabled_moving.
    + exists (I_Moving g OK). split; [done|]. split; [done|]. cbn [pollStep]. rewrite Hg, He. by eexists.
  - exists (I_Moving g OK). split; [done|]. split; [done|]. by eapply enabled_moving.
Qed.

Lemma enabled_drop latest tasks g sh d kv : killed kv = false → tasks !! g = Some (sh, d) →
  dropped (sh, d) = false → ∃ i, helpful good next (P_Delete latest next old tasks) i ∧ retry i = false ∧
    is_Some (pollStep i (P_Delete latest next old tasks) kv).
Proof.
  intros Hk Hg Hd. exists (I_Drop g (Some (mkReply OK "" 0))). split; [intros ???; by eexists|].
  split; [done|]. cbn [pollStep]. rewrite Hg. cbn [mbind option_bind]. destruct d as [|args si|]; [| |done]; simpl.
  - rewrite Hk. destruct (Groups old !! g); by eexists.
  - case_decide; by eexists.
Qed.

Lemma way_enabled pc kv tr : onWay pc kv tr →
  ∃ i, helpful good next pc i ∧ retry i = false ∧ is_Some (pollStep i pc kv).
Proof.
  intros (Hk & Hgid & Hp).
  destruct pc as [|latest|latest n args|latest n args b|latest n o tasks failed|latest n o tasks|latest n args|];
    try done.
  - exists (I_Inner true next). split; [done|]. split; [done|]. cbn [pollStep]. case_decide; [|by eexists].
    rewrite Hk. by eexists.
  - exists (I_Reply OK). split; [done|]. split; [done|]. cbn [pollStep]. unfold localLoop. rewrite Hk. by eexists.
  - exists I_Lock. split; [done|]. split; [done|]. cbn [pollStep]. destruct (_ || _); [by eexists|].
    destruct (MoveShards _ _ _); by eexists.
  - destruct Hp as (-> & -> & -> & _ & _). destruct (allTasks fetched tasks) eqn:Hall.
    + exists (I_Wait true). split; [done|]. split; [done|]. cbn [pollStep]. rewrite Hall. destruct (_ || _); by eexists.
    + destruct (allTasks_false _ _ Hall) as (g & [sh f] & Hg & Hf). by eapply enabled_fetch.
  - destruct Hp as (-> & -> & _ & _). destruct (allTasks dropped tasks) eqn:Hall.
    + exists (I_Wait true). split; [done|]. split; [done|]. cbn [pollStep]. rewrite Hall. by eexists.
    + destruct (allTasks_false _ _ Hall) as (g & [sh d] & Hg & Hd). by eapply enabled_drop.
  - exists (I_Reply OK). split; [done|]. split; [done|]. cbn [pollStep]. unfold localLoop. rewrite Hk. by eexists.
Qed.

Lemma retries_cons i ins : retries (i :: ins) = retries [i] + retries ins.
Proof. unfold retries. by rewrite <- len_app, <- filter_app. Qed.

Lemma helped_run ins x y : helpedRun good next ins x y → onWay x.1.1 x.1.2 x.2 →
  onWay y.1.1 y.1.2 y.2 ∧
  (ins = [] ∨ ¬ changed next x.2 ∧ len ins ≤ pcWeight x.1.1 + retries ins).
Proof.
  induction 1 as [x|ins i pc kv tr pc' kv' out y Hch Hh Hs Hrun IH|ins pc kv tr kv' y Hf Hk Hc Hrun IH];
    intros Hw; simpl in *; [by auto| |].
  - destruct (way_step _ _ _ _ _ _ _ Hw Hch Hh Hs) as [Hw' Hm]. destruct (IH Hw') as [Hy Hl].
    split; [done|]. right. split; [done|]. rewrite retries_cons, len_cons.
    pose proof (pcWeight_pos _ _ _ Hw'). pose proof (pcWeight_pos _ _ _ Hw).
    assert (0 ≤ retries [i]) by apply len_nonneg. destruct Hl as [->|[Hnc Hl]].
    + change (retries []) with 0. rewrite len_nil. lia.
    + destruct Hm as [?|Hm]; [done|]. lia.
  - apply IH. by eapply onWay_server.
Qed.

End ends.

(** C12: a configuration change ends.  The server is the leader and stays alive,
    the controller knows the next configuration, and in every group that has to
    give shards one server, at position [good] of its list, answers with OK
    whenever it is asked; the other servers answer anything or nothing, local
    requests may fail and be repeated, the rest of the server may do anything but
    install another configuration, and the goroutines run in any order.  Then the
    driver makes at most [changeBound] steps, plus one for every repeated local
    request, and until the change has been made it can always make a step that is
    not a repetition. *)
Theorem config_change_ends good latest next kv ins pc kv' tr :
  killed kv = false → Num (config kv) < Num latest → Num (config kv) < Num next →
  (∀ o sh, planOf (gid kv) (config kv) next !! o = Some sh →
     ∃ servers, Groups (config kv) !! o = Some servers ∧ (good o < length servers)%nat) →
  helpedRun good next ins (P_Inner latest, kv, []) (pc, kv', tr) →
  len ins ≤ changeBound good (planOf (gid kv) (config kv) next) + retries ins ∧
  ∃ i, helpful good next pc i ∧ retry i = false ∧ is_Some (pollStep i pc kv').
Proof.
  intros Hk Hl Hn Hsv Hrun.
  assert (∀ o sh, planOf (gid kv) (config kv) next !! o = Some sh →
    (good o < length (map_get [] (Groups (config kv)) o))%nat) as Hgood.
  { intros o sh (ss & Hss & Hlt)%Hsv. unfold map_get. by rewrite Hss. }
  destruct (helped_run good (config kv) next (gid kv) Hn Hgood ins _ _ Hrun) as [Hw Hlen].
  { split; [done|]. split; [done|]. by right. }
  split.
  - assert (0 ≤ retries ins) by apply len_nonneg.
    destruct (way_nonneg good (config kv) next (gid kv)) as [H1 H2]. unfold fetchTotal, dropTotal in *.
    assert (changeBound good (planOf (gid kv) (config kv) next)
      = pcWeight good (config kv) next (gid kv) (P_Inner latest)) as ->.
    { unfold changeBound, pcWeight, fetchTotal, dropTotal. rewrite <- Z.add_assoc, <- total_add. f_equal.
      apply total_ext. lia. }
    destruct Hlen as [->|[_ Hlen]]; [|exact Hlen]. rewrite len_nil. simpl. unfold fetchTotal, dropTotal. lia.
  - exact (way_enabled good (config kv) next (gid kv) pc kv' tr Hw).
Qed.

(** ** A group without servers *)

(** Nobody will ever answer the goroutine that asks group [g]. *)
Definition unanswered (old : Config) (g : Z) (pc : pollPc) : Prop :=
  ∃ latest next tasks failed sh f, pc = P_Fetch latest next old tasks failed ∧
    tasks !! g = Some (sh, f) ∧ (f = F_Loop ∨ ∃ si, f = F_Asking si).

Lemma unanswered_fetch old g i g' latest next tasks failed sh f kv pc' kv' out :
  map_get [] (Groups old) g = [] → tasks !! g = Some (sh, f) → (f = F_Loop ∨ ∃ si, f = F_Asking si) →
  ('(shards, f) ← tasks !! g';
   '(f', kv', out, fails) ← fetchStep i g' old next (negb (existsb (λ x, moving x.2) (map_to_list tasks)))
                              shards f kv;
   Some (P_Fetch latest next old (<[g' := (shards, f')]> tasks) (failed || fails), kv', out))
    = Some (pc', kv', out) →
  killed kv = true ∨ unanswered old g pc'.
Proof.
  intros Hno Hg Hf Hs. destruct (tasks !! g') as [[sh' f']|] eqn:Hg'; [|done]. simpl in Hs.
  destruct (fetchStep _ _ _ _ _ _ _ _) as [[[[f1 kv1] out1] fails]|] eqn:Hst; [|done].
  injection Hs as <- <- <-.
  destruct (decide (g' = g)) as [->|Hne]; [|right; eexists _, _, _, _, sh, f; by rewrite lookup_insert_ne].
  rewrite Hg in Hg'. injection Hg' as <- <-.
  assert (killed kv = true ∨ f1 = F_Loop ∨ ∃ si, f1 = F_Asking si) as [?|Hf1]; [|by left|].
  - unfold fetchStep in Hst. rewrite Hno in Hst. destruct Hf as [->|[si ->]], i; simplify_eq; 
      repeat (case_match; simplify_eq); eauto.
  - right. eexists _, _, _, _, sh, f1. by rewrite lookup_insert_eq.
Qed.

Lemma unanswered_step old g x y : map_get [] (Groups old) g = [] →
  killed x.1.2 = true ∨ unanswered old g x.1.1 → dstep x y →
  killed y.1.2 = true ∨ unanswered old g y.1.1.
Proof.
  intros Hno Hx Hst. destruct Hst as [i pc kv tr pc' kv' out Hs|pc kv tr kv' (_ & _ & _ & Hk)]; simpl in *;
    [|destruct Hx; auto].
  destruct (pollStep_renumbered _ _ _ _ _ _ Hs) as [k ->]. change (killed (renumbered kv k)) with (killed kv).
  destruct Hx as [?|(latest & next & tasks & failed & sh & f & -> & Hg & Hf)]; [by left|].
  destruct i; simpl in Hs; try done; [by eapply unanswered_fetch|by eapply unanswered_fetch|].
  destruct (allTasks fetched tasks) eqn:Hall; [|done]. rewrite allTasks_spec in Hall.
  specialize (Hall _ _ Hg). by destruct Hf as [->|[si ->]].
Qed.

(** C40: a group without servers blocks the change for ever.  Once [MoveShards]
    waits for a group that has no servers in the old configuration (group 0,
    after all groups have left), no answer, no election and no log entry takes
    the driver past that point while the server lives: the group keeps the old
    configuration. *)
Theorem absent_group_blocks latest next old tasks failed kv tr g sh pc' kv' tr' :
  tasks !! g = Some (sh, F_Loop) → map_get [] (Groups old) g = [] →
  rtc dstep (P_Fetch latest next old tasks failed, kv, tr) (pc', kv', tr') → killed kv' = false →
  ∃ latest' next' tasks' failed', pc' = P_Fetch latest' next' old tasks' failed'.
Proof.
  intros Hg Hno Hst Hk.
  assert (killed kv' = true ∨ unanswered old g pc') as [?|(? & ? & ? & ? & ? & ? & -> & _)]; [|congruence|eauto].
  change (killed (pc', kv', tr').1.2 = true ∨ unanswered old g (pc', kv', tr').1.1).
  assert (killed (P_Fetch latest next old tasks failed, kv, tr).1.2 = true ∨
    unanswered old g (P_Fetch latest next old tasks failed, kv, tr).1.1) as H0
    by (right; eexists _, _, _, _, sh, F_Loop; eauto).
  revert H0. induction Hst; eauto using unanswered_step.
Qed.

(** ** The clerk *)

(** The loop ends only with an answer that the clerk accepts, and asks the
    controller in every other round. *)
Lemma clerkPass_accepts isGet results reply : clerkPass isGet results = Some reply →
  r_Err reply = OK ∨ isGet = true ∧ r_Err reply = ERR_NoKey.
Proof.
  induction results as [|[r|] results IH]; simpl; [done| |done].
  case_decide as Hr; [by intros [= <-]|]. by case_decide.
Qed.

Lemma clerkLoop_accepts isGet key rounds ck reply ck' :
  clerkLoop isGet key rounds ck = Ret (Some reply, ck') →
  (r_Err reply = OK ∨ isGet = true ∧ r_Err reply = ERR_NoKey) ∧ ck_id ck' = ck_id ck ∧ reqNum ck' = reqNum ck.
Proof.
  revert ck. induction rounds as [|[results latest] rounds IH]; intros ck Hr; simpl in Hr; [done|].
  apply bind_Ret_inv in Hr as (servers & _ & Hr).
  destruct (clerkPass isGet _) as [r|] eqn:Hp; [|by apply IH in Hr].
  inv_ret. simplify_eq. by apply clerkPass_accepts in Hp.
Qed.

(** ** Witnesses *)

(** Group 101, with the configuration in which group 100 has everything; the
    next one gives it shard 7. *)
Definition moveStart : ShardKV := set_config (StartServer 1 (-1) 101 5) (cfg 1 100).

Definition moveInputs : list input :=
  [I_Top true (cfg7 2); I_Inner true (cfg7 2); I_Reply ERR_CommitTimeout; I_Reply OK; I_Lock] ++
  fetchInputs 100 ++ [I_Wait true] ++ dropInputs 100 ++ [I_Wait true; I_Reply OK].

Definition moveEnd : pollPc * ShardKV * list output :=
  default (P_Exit, moveStart, []) (runPoll moveInputs P_Top moveStart).

Lemma moveEnd_reachable : driver_reachable (moveEnd.1.1, moveEnd.1.2, moveEnd.2).
Proof.
  exists (P_Top, StartServer 1 (-1) 101 5, []). split; [by exists 1, (-1), 101, 5|].
  eapply rtc_l; [by apply (ds_server _ _ _ moveStart)|].
  apply (runPoll_steps moveInputs P_Top moveStart _ _ _ []). vm_compute. reflexivity.
Qed.

Lemma config_change_order_witness : ∃ k a m, moveEnd.2 !! k = Some (Issue (ADeleteShards a)) ∧
  Ack (AApplyMovement m) ∈ take k moveEnd.2 ∧ am_Shards m = ds_Shards a.
Proof.
  destruct (config_change_order moveEnd.1.1 moveEnd.1.2 moveEnd.2 moveEnd_reachable) as [Hd _].
  set (a := mkDeleteShardsArgs (-5) 3 {[7 := true]} 2).
  assert (moveEnd.2 !! 5%nat = Some (Issue (ADeleteShards a))) as Hk by (vm_compute; reflexivity).
  destruct (Hd 5%nat a Hk) as (m & Hm & Hs & _). exists 5%nat, a, m. split; [exact Hk|]. split; [exact Hm|exact Hs].
Defined.

Lemma server_requests_in_order_witness :
  length (issued moveEnd.2) = 4%nat ∧ length (acked moveEnd.2) = 3%nat ∧
  StronglySorted Z.lt (getReqNum <$> issued moveEnd.2).
Proof.
  split; [vm_compute; reflexivity|]. split; [vm_compute; reflexivity|].
  destruct (server_requests_in_order moveEnd.1.1 moveEnd.1.2 moveEnd.2 moveEnd_reachable) as (_ & Hs & _).
  exact Hs.
Defined.

(** Group 100 has two servers, of which the first never answers. *)
Definition endsStart : ShardKV :=
  set_config (StartServer 1 (-1) 101 5) (mkConfig 1 (replicate NShards 100) {[100 := ["a0"; "a1"]]}).
Definition endsInputs : list input :=
  [I_Inner true (cfg7 2); I_Reply OK; I_Lock; I_Ask 100 None; I_Ask 100 None; I_Ask 100 (Some given);
   I_Moving 100 ""; I_Moving 100 ERR_CommitTimeout; I_Moving 100 OK; I_Wait true;
   I_Drop 100 None; I_Drop 100 None; I_Drop 100 (Some (mkReply OK "" 0)); I_Wait true; I_Reply OK].
Definition endsEnd : pollPc * ShardKV * list output :=
  default (P_Exit, endsStart, []) (runPoll endsInputs (P_Inner (cfg7 2)) endsStart).

Lemma unchanged next tr :
  forallb (λ o, match o with Ack (AChangeConfig _) => false | _ => true end) tr = true → ¬ changed next tr.
Proof. intros Hf (args & Hin%list_elem_of_In & _). rewrite forallb_forall in Hf. by apply Hf in Hin. Qed.

Lemma endsEnd_helped :
  helpedRun (λ _, 1%nat) (cfg7 2) endsInputs (P_Inner (cfg7 2), endsStart, []) (endsEnd.1.1, endsEnd.1.2, endsEnd.2).
Proof.
  unfold endsInputs.
  repeat (eapply hr_poll; [apply unchanged; vm_compute; reflexivity
    |first [done | intros sh Hs; vm_compute in Hs; first [discriminate | by eexists]
           | intros sh args Hs; vm_compute in Hs; first [discriminate | by eexists]]
    |vm_compute; reflexivity|]).
  apply hr_nil.
Qed.

Lemma config_change_ends_witness :
  changeBound (λ _, 1%nat) (planOf (gid endsStart) (config endsStart) (cfg7 2)) = 14 ∧
  len endsInputs ≤ 14 + 2 ∧ ∃ i, is_Some (pollStep i endsEnd.1.1 endsEnd.1.2).
Proof.
  split; [vm_compute; reflexivity|].
  destruct (config_change_ends (λ _, 1%nat) (cfg7 2) (cfg7 2) endsStart endsInputs endsEnd.1.1 endsEnd.1.2 endsEnd.2)
    as [Hl (i & _ & _ & Hi)].
  - reflexivity.
  - reflexivity.
  - reflexivity.
  - intros o sh Ho. assert (planOf (gid endsStart) (config endsStart) (cfg7 2) = {[100 := {[7 := true]}]}) as E
      by (vm_compute; reflexivity).
    rewrite E in Ho. apply lookup_singleton_Some in Ho as [<- _]. exists ["a0"; "a1"]. split; [reflexivity|simpl; lia].
  - exact endsEnd_helped.
  - split; [exact Hl|]. by exists i.
Defined.

(** All groups have left, then group 101 joins. *)
Lemma absent_group_blocks_witness :
  let tasks := startFetch (receiveFrom 101 (cfg 1 0) (cfg 2 101)) in
  let x := (P_Fetch (cfg 2 101) (cfg 2 101) (cfg 1 0) tasks false, moveStart, @nil output) in
  let y := (P_Fetch (cfg 2 101) (cfg 2 101) (cfg 1 0) tasks false, moveStart, @nil output) in
  rtc dstep x y ∧ ∃ latest' next' tasks' failed', y.1.1 = P_Fetch latest' next' (cfg 1 0) tasks' failed'.
Proof.
  intros tasks x y.
  assert (tasks !! 0 = Some (default ∅ (fst <$> tasks !! 0), F_Loop)) as Hg by (vm_compute; reflexivity).
  assert (rtc dstep x y) as Hst.
  { apply rtc_once. apply (ds_poll (I_Ask 0 None) _ _ [] _ _ []). vm_compute. reflexivity. }
  split; [exact Hst|].
  apply (absent_group_blocks (cfg 2 101) (cfg 2 101) (cfg 1 0) tasks false moveStart [] 0
    (default ∅ (fst <$> tasks !! 0)) y.1.1 y.1.2 y.2 Hg); [reflexivity|exact Hst|reflexivity].
Defined.
