(* ===== verification/Agreement.v ===== *)
(** * The replicated services agree

    The three services of the repository as machines ([Replicated]): the
    key/value service, the shard controller and one group of the sharded
    service.  In every run of a cluster their servers execute one history. *)

From S2P Require Import Prelude Serial RaftState RaftNode RaftSteps RaftElection RaftNet RaftSafety.
From S2P Require Import Service ShardKV ShardKVSpec Rebalance ShardCtrler KVRaft Sessions Replicated.
Local Open Scope Z_scope.

(** The operation at position [k] of [ops] was read as the command with index
    [k + 1]. *)
Definition readOps {Op} `{Codec (@persistent Op)} (ops : list Op) (c : net Op) : Prop :=
  ∀ k op, ops !! k = Some op → ∃ i m, (i, m) ∈ delivered c ∧ CommandValid m = true ∧
    CommandIndex m = Z.of_nat k + 1 ∧ msgCommand m = Some op.

Lemma oneHistory_readOps {Op St Core} `{Codec (@persistent Op)} {M : Machine Op Core}
    (services : nat → Service Op St) stateOf ok ops y :
  oneHistory services stateOf ok (Some <$> ops) y → readOps ops (raft y).
Proof. intros HO k op Hk. apply (oh_read _ _ _ _ _ HO). by rewrite list_lookup_fmap, Hk. Qed.

(** ** Services with one session per client *)

Section sessions.
Context {Op S : Type} `{!Request Op} (exec : Op → S → outcome S) (s0 : S).
Context (load : bytes → S * gmap Z (Session Op)).

(** A log entry without a command makes the service panic. *)
Definition sessionMachine : Machine Op (S * gmap Z (Session Op)) := {|
  mc_init := (s0, ∅);
  mc_exec x i q := match x with Some op => sessionRun exec i op q | None => Panic end;
  mc_load := load;
|}.

Lemma runMachine_sessions i hist q q' : runMachine (M := sessionMachine) i hist q = Ret q' →
  ∃ ops, hist = Some <$> ops ∧ sessionRunAll exec i ops q = Ret q'.
Proof.
  revert i q. induction hist as [|[op|] hist IH]; intros i q Hr; simpl in Hr; [by exists []| |done].
  apply bind_Ret_inv in Hr as (q1 & Hq1 & Hr). destruct (IH _ _ Hr) as (ops & -> & Ho).
  exists (op :: ops). simpl. by rewrite Hq1.
Qed.

(** The history as a list of operations. *)
Lemma history_sessions hist q : upTo (M := sessionMachine) hist (len hist) q →
  ∃ ops, hist = Some <$> ops ∧
    ∀ k q', upTo (M := sessionMachine) hist k q' →
      0 ≤ k ≤ len ops ∧ sessionRunAll exec 1 (take (Z.to_nat k) ops) (s0, ∅) = Ret q' ∧
      (clientsInOrder ops → execAll exec (onceEach ∅ (take (Z.to_nat k) ops)) s0 = Ret q'.1).
Proof.
  intros [_ Hr]. rewrite take_ge in Hr by (unfold len; lia).
  apply runMachine_sessions in Hr as (ops & -> & _). exists ops. split; [done|].
  intros k q' [Hk Hq]. unfold len in Hk. rewrite length_fmap in Hk. split; [done|].
  rewrite <- fmap_take in Hq. apply runMachine_sessions in Hq as (ops' & Ho & Hq).
  apply (inj (fmap Some)) in Ho as <-. split; [done|]. intros Hord.
  rewrite <- (sessionRunAll_once exec (take (Z.to_nat k) ops) s0).
  { change (s0, ∅) with (mc_init (Machine := sessionMachine)). by rewrite Hq. }
  intros a b o o' Hab Ha Hb. rewrite !lookup_take_Some in *. destruct Ha, Hb. by eapply (Hord a b).
Qed.

End sessions.

(** ** The key/value service *)

Section kvraft.
Context `{Codec (@persistent KVRaft.Op)} `{!CodecLaws (@persistent KVRaft.Op)}.
Context `{Codec KVRaft.Snapshot} `{!CodecLaws KVRaft.Snapshot}.

Definition kvStateOf (kv : KVServer) : gmap string string * gmap Z (Session KVRaft.Op) :=
  (KVRaft.mp kv, KVRaft.ckSessions kv).

Definition kvLoad (b : bytes) : gmap string string * gmap Z (Session KVRaft.Op) :=
  let s := default (KVRaft.mkSnapshot ∅ ∅ 0) (dec b) in (KVRaft.Mp s, KVRaft.CkSessions s).

#[local] Instance kvMachine : Machine KVRaft.Op (gmap string string * gmap Z (Session KVRaft.Op)) :=
  sessionMachine KVRaft.execOp ∅ kvLoad.

Lemma kvReplica meId mrs : Replica (kvService meId mrs) kvStateOf (λ _, True).
Proof.
  split; simpl.
  - done.
  - intros size m st st' r _ Ha. split; [done|]. by eapply (svc_served (ServiceLaws := kvService_laws meId mrs)).
  - intros size m st st' r _ Ha Hv. unfold KVRaft.handleApplyMsg in Ha. rewrite Hv in Ha.
    destruct (msgCommand m) as [op|]; [|done]. case_decide; [done|]. unfold sessionRun. simpl.
    destruct (stable _ _ _); [by inv_ret|]. apply bind_Ret_inv in Ha as (mp' & -> & Ha).
    case_decide; by injection Ha as <- <-.
  - intros size m st st' r _ Ha Hv Hs. unfold KVRaft.handleApplyMsg in Ha. rewrite Hv, Hs in Ha. by inv_ret.
  - intros size m st st' r _ Ha Hv Hs. unfold KVRaft.handleApplyMsg in Ha. rewrite Hv, Hs in Ha. by inv_ret.
  - intros size m st st' k d _ Ha. unfold KVRaft.handleApplyMsg in Ha.
    destruct (CommandValid m); [|destruct (SnapshotValid m); by inv_ret].
    destruct (msgCommand m) as [op|]; [|done]. case_decide; [done|].
    destruct (stable _ _ _); [by inv_ret|]. apply bind_Ret_inv in Ha as (mp' & _ & Ha).
    case_decide; [|by inv_ret]. injection Ha as <- <- <-. unfold kvLoad. by rewrite dec_enc.
Qed.

(** C3: one history of [kvraft]. In every run of a cluster of servers, with
    crashes, restarts, snapshots and a network that loses, delays, repeats and
    reorders messages, in which no new peer accepts a fix package after an entry 1
    of another leader, there is one sequence of operations such that the map and
    the sessions of every server, at any moment, are the result of applying its
    first [lastApplied] operations with the session check. If, in addition, the
    requests of each client are in order in the sequence ([clientsInOrder]), the
    map is what executing every request exactly once gives; without that a request
    can be executed twice ([KVRaft.session_regresses],
    [KVClients.late_request_appends_twice]). Every operation of the sequence was
    read from Raft at its index. *)
Theorem kvraft_one_history n mrs y :
  system_reachable (λ i, kvService (Z.of_nat i) mrs) true n y →
  ∃ ops, readOps ops (raft y) ∧ ∀ i kv p, servers y !! i = Some (kv, p) →
    0 ≤ kv_lastApplied kv ≤ len ops ∧
    sessionRunAll execOp 1 (take (Z.to_nat (kv_lastApplied kv)) ops) (∅, ∅)
      = Ret (mp kv, ckSessions kv) ∧
    (clientsInOrder ops →
     execAll execOp (onceEach ∅ (take (Z.to_nat (kv_lastApplied kv)) ops)) ∅ = Ret (mp kv)).
Proof.
  intros [hist HO]%(system_one_history _ kvStateOf (λ _, True)); [|intros i; apply kvReplica].
  destruct (oh_run _ _ _ _ _ HO) as [q Hq]. destruct (history_sessions _ _ _ _ _ Hq) as (ops & Eh & Hops).
  exists ops. split; [subst hist; by eapply oneHistory_readOps|]. intros i kv p Hi. apply (Hops (kv_lastApplied kv) (kvStateOf kv)).
  by apply (oneHistory_upTo _ _ _ _ _ HO i kv p).
Qed.

End kvraft.

(** ** The shard controller *)

Section shardctrler.
Context `{Codec (@persistent ShardCtrler.Op)} `{!CodecLaws (@persistent ShardCtrler.Op)}.
Context `{Codec ShardCtrler.Snapshot} `{!CodecLaws ShardCtrler.Snapshot}.

(** [iter] is the order in which the server iterates over its maps. *)
Definition ctrlService (iter : gmap Z (list string) → list Z) (meId : Z)
  : Service ShardCtrler.Op ShardCtrler := {|
  svc_init := ShardCtrler.StartServer meId;
  svc_last := sc_lastApplied;
  svc_apply := ShardCtrler.handleApplyMsg iter;
  svc_msgOk m _ := ∃ op, msgCommand m = Some op ∧ ShardCtrler.opOk op;
|}.

Definition ctrlLoad (b : bytes) : list Config * gmap Z (Session ShardCtrler.Op) :=
  let s := default (ShardCtrler.mkSnapshot [] ∅ 0) (dec b) in (Configs s, ShardCtrler.CkSessions s).

#[local] Instance ctrlMachine : Machine ShardCtrler.Op (list Config * gmap Z (Session ShardCtrler.Op)) :=
  sessionMachine (ShardCtrler.applyOp ascending) [ShardCtrler.zeroConfig] ctrlLoad.

Lemma ctrlReplica iter meId : iterOk iter → Replica (ctrlService iter meId) ShardCtrler.core (λ _, True).
Proof.
  intros Hiter.
  assert (∀ op cs, ShardCtrler.applyOp iter op cs = ShardCtrler.applyOp ascending op cs) as Ho
    by (intros; by apply applyOp_iter, ascending_ok).
  split; simpl.
  - done.
  - intros size m st st' r _ Ha. split; [done|]. unfold ShardCtrler.handleApplyMsg, served in *.
    destruct (CommandValid m); [|destruct (SnapshotValid m); by inv_ret].
    destruct (msgCommand m) as [op|]; [|done]. destruct (stable _ _ _); [by inv_ret|].
    apply bind_Ret_inv in Ha as (cs & _ & Ha). case_decide; by injection Ha as <- <-.
  - intros size m st st' r _ Ha Hv. unfold ShardCtrler.handleApplyMsg in Ha. rewrite Hv in Ha.
    destruct (msgCommand m) as [op|]; [|done]. unfold sessionRun. simpl.
    destruct (stable _ _ _); [by inv_ret|]. apply bind_Ret_inv in Ha as (cs & Hcs & Ha).
    rewrite <- Ho, Hcs. case_decide; by injection Ha as <- <-.
  - intros size m st st' r _ Ha Hv Hs. unfold ShardCtrler.handleApplyMsg in Ha. rewrite Hv, Hs in Ha. by inv_ret.
  - intros size m st st' r _ Ha Hv Hs. unfold ShardCtrler.handleApplyMsg in Ha. rewrite Hv, Hs in Ha. by inv_ret.
  - intros size m st st' k d _ Ha. unfold ShardCtrler.handleApplyMsg in Ha.
    destruct (CommandValid m); [|destruct (SnapshotValid m); by inv_ret].
    destruct (msgCommand m) as [op|]; [|done]. destruct (stable _ _ _); [by inv_ret|].
    apply bind_Ret_inv in Ha as (cs & _ & Ha). case_decide; [|by inv_ret].
    injection Ha as <- <- <-. unfold ctrlLoad. by rewrite dec_enc.
Qed.

(** C34: the controllers agree. In every run of a cluster of controllers, whose
    servers iterate over their maps in different orders, in which no new peer
    accepts a fix package after an entry 1 of another leader, there is one
    sequence of operations such that the configurations and sessions of every
    server are the result of applying its first [lastApplied] operations with the
    session check: two servers that have applied equally many operations know the
    same configurations. If, in addition, the requests of each client are in order
    in the sequence ([clientsInOrder]), the configurations are those of executing
    every request exactly once. *)
Theorem shardctrler_one_history n (iters : nat → gmap Z (list string) → list Z) y :
  (∀ i, iterOk (iters i)) →
  system_reachable (λ i, ctrlService (iters i) (Z.of_nat i)) true n y →
  ∃ ops, readOps ops (raft y) ∧ ∀ i sc p, servers y !! i = Some (sc, p) →
    0 ≤ sc_lastApplied sc ≤ len ops ∧
    sessionRunAll (ShardCtrler.applyOp ascending) 1 (take (Z.to_nat (sc_lastApplied sc)) ops)
      ([ShardCtrler.zeroConfig], ∅) = Ret (configs sc, ShardCtrler.ckSessions sc) ∧
    (clientsInOrder ops →
     execAll (ShardCtrler.applyOp ascending) (onceEach ∅ (take (Z.to_nat (sc_lastApplied sc)) ops))
       [ShardCtrler.zeroConfig] = Ret (configs sc)).
Proof.
  intros Hit [hist HO]%(system_one_history _ ShardCtrler.core (λ _, True)); [|intros i; by apply ctrlReplica].
  destruct (oh_run _ _ _ _ _ HO) as [q Hq]. destruct (history_sessions _ _ _ _ _ Hq) as (ops & Eh & Hops).
  exists ops. split; [subst hist; by eapply oneHistory_readOps|]. intros i sc p Hi.
  apply (Hops (sc_lastApplied sc) (ShardCtrler.core sc)). by apply (oneHistory_upTo _ _ _ _ _ HO i sc p).
Qed.

End shardctrler.

(** ** A group of the sharded service *)

Section shardkv.
Context `{Codec (@persistent ShardKV.Op)} `{!CodecLaws (@persistent ShardKV.Op)}.
Context `{Codec ShardKV.Snapshot} `{!CodecLaws ShardKV.Snapshot}.

Definition shardState : Type :=
  gmap string string * gmap string ShardKV.Session * Config * list Z * list bool.

Definition shardStateOf (kv : ShardKV) : shardState :=
  (ShardKV.mp kv, ShardKV.ckSessions kv, config kv, shardLastNums kv, shardVec kv).

(** A server of group [g] with that state, and nothing else of interest. *)
Definition serverWith (g : Z) (q : shardState) : ShardKV :=
  let '(m, ss, c, nums, vec) := q in mkShardKV 0 g c false (-1) m ss ∅ ∅ 0 0 0 nums vec.

Definition norm (kv : ShardKV) : ShardKV := serverWith (gid kv) (shardStateOf kv).

Lemma norm_inj kv kv' : norm kv = norm kv' → gid kv = gid kv' ∧ shardStateOf kv = shardStateOf kv'.
Proof. unfold norm, shardStateOf. simpl. intros E. injection E. intros. split; congruence. Qed.

(** An operation of the log reads nothing else and changes nothing else. *)
Lemma applyOp_norm op kv :
  (r ← ShardKV.applyOp op kv; mret (norm r.1.1, r.1.2, r.2)) =
  (r ← ShardKV.applyOp op (norm kv); mret (norm r.1.1, r.1.2, r.2)).
Proof.
  destruct kv as [me g c dead mrs m ss rec con la u loc nums vec].
  unfold ShardKV.applyOp. repeat case_decide; try done; destruct (ShardKV.op_Args op) as [[a|a|a|a|a|a]|]; try done.
  - unfold applyClient. simpl. destruct (slice_get vec _) as [[]| | |]; done.
  - unfold applyClient. simpl. destruct (slice_get vec _) as [[]| | |]; try done. simpl. by case_decide.
  - unfold applyChangeConfig. simpl. case_decide; [|done].
    destruct (for_range _ _ _) as [[]| | |]; done.
  - unfold applyApplyMovement. simpl. destruct (movedMp _ _ _ _); try done. simpl.
    destruct (movedSessions _ _ _ _); try done. simpl. destruct (movedShards _ _ _) as [[]| | |]; done.
  - unfold applyDeleteShards. simpl. destruct (deletable _ _ _ _); try done. simpl.
    destruct (deletedSessions _ _ _); done.
  - unfold applyUpdateShardVec. simpl. by case_decide.
Qed.

Lemma applyCommand_norm op i kv :
  (r ← applyCommand op i kv; mret (shardStateOf r.1, gid r.1)) =
  (r ← applyCommand op i (norm kv); mret (shardStateOf r.1, gid r.1)).
Proof.
  unfold applyCommand. set (kv1 := set_records kv _ _ _). set (kv2 := set_records (norm kv) _ _ _).
  change (ShardKV.ckSessions (norm kv)) with (ShardKV.ckSessions kv).
  destruct (ShardKV.stable _ _ _); [done|].
  assert (norm kv1 = norm kv2) as Hn by done.
  pose proof (applyOp_norm op kv1) as H1. rewrite Hn, <- applyOp_norm in H1. clear Hn.
  destruct (ShardKV.applyOp op kv1) as [[[k b] o]| | |], (ShardKV.applyOp op kv2) as [[[k' b'] o']| | |]; try done.
  cbn [mbind outcome_mbind fst snd] in H1.
  assert (norm k = norm k' ∧ b = b' ∧ o = o') as (Hn & <- & <-).
  { generalize (norm k) (norm k') H1. intros x x' Hx. by simplify_eq. }
  apply norm_inj in Hn as [Hg Hn].
  unfold shardStateOf in Hn. injection Hn as E1 E2 E3 E4 E5. unfold shardStateOf.
  destruct b; simpl; congruence.
Qed.

Lemma applyOp_gid op kv r : ShardKV.applyOp op kv = Ret r → gid r.1.1 = gid kv.
Proof.
  unfold ShardKV.applyOp, applyClient, applyChangeConfig, applyApplyMovement, applyDeleteShards,
    applyUpdateShardVec. intros Hr.
  repeat first [case_decide | case_match]; inv_ret; repeat (case_match; inv_ret); simplify_eq/=; try done.
Qed.

Lemma applyCommand_frame op i kv kv' b : applyCommand op i kv = Ret (kv', b) →
  gid kv' = gid kv ∧ ShardKV.kv_lastApplied kv' = i.
Proof.
  unfold applyCommand. intros Hr. destruct (ShardKV.stable _ _ _); [by inv_ret|].
  apply bind_Ret_inv in Hr as ([[k a] o] & Ha & Hr). apply applyOp_gid in Ha. simpl in *.
  destruct a; by inv_ret.
Qed.

Definition shardService (g meId mrs nrand : Z) : Service ShardKV.Op ShardKV := {|
  svc_init := ShardKV.StartServer meId mrs g nrand;
  svc_last := ShardKV.kv_lastApplied;
  svc_apply := ShardKV.handleApplyMsg;
  svc_msgOk m _ := ∃ op, msgCommand m = Some op ∧ ShardKVSpec.opOk op;
|}.

(** [applyCommand] as the step of a machine. *)
Definition shardExec (g : Z) (x : option ShardKV.Op) (i : Z) (q : shardState) : outcome shardState :=
  match x with
  | Some op => r ← applyCommand op i (serverWith g q); mret (shardStateOf r.1)
  | None => Panic
  end.

Definition shardLoad (b : bytes) : shardState :=
  let s := default (ShardKV.mkSnapshot ∅ ∅ zeroConfig (replicate NShards 0) (replicate NShards false) 0)
             (dec b) in
  (ShardKV.Mp s, ShardKV.CkSessions s, SnapConfig s, ShardLastNums s, ShardVec s).

Definition shardMachine (g : Z) : Machine ShardKV.Op shardState := {|
  mc_init := (∅, ∅, zeroConfig, replicate NShards 0, replicate NShards false);
  mc_exec := shardExec g;
  mc_load := shardLoad;
|}.

Lemma shardExec_command op i kv kv' b : applyCommand op i kv = Ret (kv', b) →
  shardExec (gid kv) (Some op) i (shardStateOf kv) = Ret (shardStateOf kv').
Proof.
  intros Hr. pose proof (applyCommand_norm op i kv) as Hn. rewrite Hr in Hn. unfold shardExec.
  change (serverWith (gid kv) (shardStateOf kv)) with (norm kv).
  destruct (applyCommand op i (norm kv)) as [[k1 b1]| | |]; try done. simpl in *. unfold mret, outcome_mret in *.
  generalize (shardStateOf kv') (shardStateOf k1) Hn. intros. congruence.
Qed.

Lemma shardReplica g meId mrs nrand :
  Replica (M := shardMachine g) (shardService g meId mrs nrand) shardStateOf (λ kv, gid kv = g).
Proof.
  split; simpl.
  - done.
  - intros size m st st' r Hg Ha. unfold ShardKV.handleApplyMsg, served in *.
    destruct (CommandValid m); [|destruct (SnapshotValid m); by inv_ret].
    destruct (msgCommand m) as [op|]; [|done]. apply bind_Ret_inv in Ha as ([k b] & Hc & Ha).
    apply applyCommand_frame in Hc as [Eg El]. case_decide; injection Ha as <- <-; simpl; split; congruence.
  - intros size m st st' r <- Ha Hv. unfold ShardKV.handleApplyMsg in Ha. rewrite Hv in Ha.
    destruct (msgCommand m) as [op|]; [|done]. apply bind_Ret_inv in Ha as ([k b] & Hc & Ha).
    rewrite (shardExec_command _ _ _ _ _ Hc). case_decide; by injection Ha as <- <-.
  - intros size m st st' r _ Ha Hv Hs. unfold ShardKV.handleApplyMsg in Ha. rewrite Hv, Hs in Ha. by inv_ret.
  - intros size m st st' r _ Ha Hv Hs. unfold ShardKV.handleApplyMsg in Ha. rewrite Hv, Hs in Ha. by inv_ret.
  - intros size m st st' k d _ Ha. unfold ShardKV.handleApplyMsg in Ha.
    destruct (CommandValid m); [|destruct (SnapshotValid m); by inv_ret].
    destruct (msgCommand m) as [op|]; [|done]. apply bind_Ret_inv in Ha as ([k' b] & Hc & Ha).
    apply applyCommand_frame in Hc as [_ El]. case_decide; [|by injection Ha].
    injection Ha as <- <- <-. unfold shardLoad. rewrite dec_enc. done.
Qed.

(** C35: the servers of a group agree. In every run of a replica group, through
    crashes, snapshots and configuration changes, in which no new peer accepts a
    fix package after an entry 1 of another leader, two servers that have applied
    equally many operations have the same keys, sessions and configuration, serve
    the same shards and remember the same configuration numbers. The steps of Raft
    are those of [nstep], with its guards. *)
Theorem shardkv_replicas_agree n g mrs (uids : nat → Z) y i j kv kv' p p' :
  system_reachable (λ i, shardService g (Z.of_nat i) mrs (uids i)) true n y →
  servers y !! i = Some (kv, p) → servers y !! j = Some (kv', p') →
  ShardKV.kv_lastApplied kv = ShardKV.kv_lastApplied kv' →
  ShardKV.mp kv = ShardKV.mp kv' ∧ ShardKV.ckSessions kv = ShardKV.ckSessions kv' ∧
  config kv = config kv' ∧ shardLastNums kv = shardLastNums kv' ∧ shardVec kv = shardVec kv'.
Proof.
  intros Hr Hi Hj Hl.
  assert (shardStateOf kv = shardStateOf kv') as E.
  { eapply (system_agrees (M := shardMachine g)); [intros k; apply shardReplica|exact Hr|exact Hi|exact Hj|done]. }
  unfold shardStateOf in E. by simplify_eq.
Qed.

End shardkv.

(** ** Concrete runs *)

Section encodings.

#[export] Instance Config_serial : Serial Config :=
  serial_via (λ c, (Num c, Shards c, Groups c)) (λ '(a, b, c), Rebalance.mkConfig a b c).
#[export] Instance Config_serial_laws : SerialLaws Config.
Proof. apply serial_via_laws. by intros []. Qed.

#[export] Instance ctrlArgs_serial : Serial ShardCtrler.GenericArgs :=
  serial_via
    (λ x, match x with
          | AJoin a => inl (ja_Servers a, ja_Id a, ja_ReqNum a)
          | ALeave a => inr (inl (la_GIDs a, la_Id a, la_ReqNum a))
          | AMove a => inr (inr (inl (ma_Shard a, ma_GID a, ma_Id a, ma_ReqNum a)))
          | AQuery a => inr (inr (inr (qa_Num a, qa_Id a, qa_ReqNum a)))
          end)
    (λ x, match x with
          | inl (a, b, c) => AJoin (mkJoinArgs a b c)
          | inr (inl (a, b, c)) => ALeave (mkLeaveArgs a b c)
          | inr (inr (inl (a, b, c, d))) => AMove (mkMoveArgs a b c d)
          | inr (inr (inr (a, b, c))) => AQuery (mkQueryArgs a b c)
          end).
#[export] Instance ctrlArgs_serial_laws : SerialLaws ShardCtrler.GenericArgs.
Proof. apply serial_via_laws. by intros [[]|[]|[]|[]]. Qed.

#[export] Instance ctrlOp_serial : Serial ShardCtrler.Op :=
  serial_via (λ o, (ShardCtrler.op_Type o, ShardCtrler.op_Number o, ShardCtrler.op_ReqNum o,
                    ShardCtrler.op_CkId o, ShardCtrler.op_Args o))
    (λ '(t, k, r, c, a), ShardCtrler.mkOp t k r c a).
#[export] Instance ctrlOp_serial_laws : SerialLaws ShardCtrler.Op.
Proof. apply serial_via_laws. by intros []. Qed.

#[export] Instance ctrlSnapshot_serial : Serial ShardCtrler.Snapshot :=
  serial_via (λ s, (Configs s, ShardCtrler.CkSessions s, ShardCtrler.Maker s))
    (λ '(a, b, c), ShardCtrler.mkSnapshot a b c).
#[export] Instance ctrlSnapshot_serial_laws : SerialLaws ShardCtrler.Snapshot.
Proof. apply serial_via_laws. by intros []. Qed.

#[export] Instance shardSession_serial : Serial ShardKV.Session :=
  serial_via (λ s, (ShardKV.LastOpVaild s, ShardKV.LastOpIndex s, ShardKV.LastOpNumber s,
                    ShardKV.LastOpReqNum s, ShardKV.LastOpShardNum s))
    (λ '(a, b, c, d, e), ShardKV.mkSession a b c d e).
#[export] Instance shardSession_serial_laws : SerialLaws ShardKV.Session.
Proof. apply serial_via_laws. by intros []. Qed.

#[export] Instance shardArgs_serial : Serial ShardKV.GenericArgs :=
  serial_via
    (λ x, match x with
          | ShardKV.AGet a => inl (ShardKV.ga_Key a, ShardKV.ga_Id a, ShardKV.ga_ReqNum a)
          | ShardKV.APutAppend a =>
              inr (inl (ShardKV.pa_Key a, ShardKV.pa_Value a, ShardKV.pa_Op a, ShardKV.pa_Id a, ShardKV.pa_ReqNum a))
          | AApplyMovement a =>
              inr (inr (inl (am_Id a, am_ReqNum a, am_Mp a, am_Sessions a, am_Config a, am_Shards a)))
          | AChangeConfig a =>
              inr (inr (inr (inl (cc_Id a, cc_ReqNum a, cc_OldNum a, cc_NewNum a, cc_Config a))))
          | ADeleteShards a => inr (inr (inr (inr (inl (ds_Id a, ds_ReqNum a, ds_Shards a, ds_ConfigNum a)))))
          | AUpdateShardVec a => inr (inr (inr (inr (inr (uv_Id a, uv_ReqNum a, uv_ConfigNum a, uv_NewVec a)))))
          end)
    (λ x, match x with
          | inl (a, b, c) => ShardKV.AGet (ShardKV.mkGetArgs a b c)
          | inr (inl (a, b, c, d, e)) => ShardKV.APutAppend (ShardKV.mkPutAppendArgs a b c d e)
          | inr (inr (inl (a, b, c, d, e, f))) => AApplyMovement (mkApplyMovementArgs a b c d e f)
          | inr (inr (inr (inl (a, b, c, d, e)))) => AChangeConfig (mkChangeConfigArgs a b c d e)
          | inr (inr (inr (inr (inl (a, b, c, d))))) => ADeleteShards (mkDeleteShardsArgs a b c d)
          | inr (inr (inr (inr (inr (a, b, c, d))))) => AUpdateShardVec (mkUpdateShardVecArgs a b c d)
          end).
#[export] Instance shardArgs_serial_laws : SerialLaws ShardKV.GenericArgs.
Proof. apply serial_via_laws. by intros [[]|[]|[]|[]|[]|[]]. Qed.

#[export] Instance shardOp_serial : Serial ShardKV.Op :=
  serial_via (λ o, (ShardKV.op_Type o, ShardKV.op_Number o, ShardKV.op_ReqNum o, ShardKV.op_CkId o,
                    op_ShardNum o, ShardKV.op_Args o))
    (λ '(t, k, r, c, n, a), ShardKV.mkOp t k r c n a).
#[export] Instance shardOp_serial_laws : SerialLaws ShardKV.Op.
Proof. apply serial_via_laws. by intros []. Qed.

#[export] Instance shardSnapshot_serial : Serial ShardKV.Snapshot :=
  serial_via (λ s, (ShardKV.Mp s, ShardKV.CkSessions s, SnapConfig s, ShardLastNums s, ShardVec s, ShardKV.Maker s))
    (λ '(a, b, c, d, e, f), ShardKV.mkSnapshot a b c d e f).
#[export] Instance shardSnapshot_serial_laws : SerialLaws ShardKV.Snapshot.
Proof. apply serial_via_laws. by intros []. Qed.

End encodings.

Section runs.
#[local] Instance anyCodec A `{Serial A} : Codec A := serial_codec A.
#[local] Instance anyCodec_laws A `{SerialLaws A} : CodecLaws A := serial_codec_laws A.

Section cluster3.
Context {Cmd St : Type} `{SerialLaws Cmd} (services : nat → Service Cmd St).

(** Three new peers and their servers. *)
Definition newPeer (i : Z) : Raft Cmd :=
  valueOf (initRaft 3 i MakePersister 0) (Make 3 i MakePersister 0).

Definition system0 : system (Cmd := Cmd) (St := St) :=
  mkSystem
    (mkNet (mkCluster [(newPeer 0, 0); (newPeer 1, 0); (newPeer 2, 0)] (replicate 3 Idle) [] [] [])
       [] [] [] [] [])
    [(svc_init (Service := services 0), None); (svc_init (Service := services 1), None);
     (svc_init (Service := services 2), None)].

Lemma system0_init : system_init services 3 system0.
Proof.
  split; [|done]. split; [|done].
  do 5 (split; [done|]). intros [|[|[|i]]] rf s Hi; simplify_eq/=; (split; [done|]); exists 0; reflexivity.
Qed.

Lemma runSystem_reachable acts y : runSystem services true acts system0 = Some y →
  system_reachable services true 3 y.
Proof. intros Hr. exists system0. split; [apply system0_init|by eapply runSystem_steps]. Qed.

(** Peer 0 is elected, replicates a command on peer 1, and both servers apply
    it. *)
Definition replicateRun (x : Cmd) : list (action Cmd) :=
  [A_Timeout 0 sec; A_Campaign 0; A_Vote 1 0 sec; A_Count 0 0; A_Promote 0; A_Start 0 (Some x);
   A_Sync 0; A_Append 1 0 sec; A_Success 0 0; A_Commit 0; A_Apply 0; A_Send 0;
   A_Sync 0; A_Append 1 0 sec; A_Apply 1; A_Send 1].

Definition ranSystem (x : Cmd) : system := default system0 (runSystem services true (replicateRun x) system0).
End cluster3.

Definition kvDemo : system := ranSystem (λ i, kvService (Z.of_nat i) (-1)) opA.

Lemma kvraft_one_history_witness :
  system_reachable (λ i, kvService (Z.of_nat i) (-1)) true 3 kvDemo ∧
  ∃ ops kv, servers kvDemo !! 1%nat = Some (kv, None) ∧ kv_lastApplied kv = 1 ∧
    sessionRunAll execOp 1 (take 1 ops) (∅, ∅) = Ret (mp kv, ckSessions kv).
Proof.
  assert (system_reachable (λ i, kvService (Z.of_nat i) (-1)) true 3 kvDemo) as Hr
    by (apply (runSystem_reachable _ (replicateRun opA)); vm_compute; reflexivity).
  split; [exact Hr|]. destruct (kvraft_one_history 3 (-1) kvDemo Hr) as (ops & _ & Hops).
  set (kv := default (StartKVServer 0 0) (fst <$> servers kvDemo !! 1%nat)).
  assert (servers kvDemo !! 1%nat = Some (kv, None)) as Hi by (vm_compute; reflexivity).
  assert (kv_lastApplied kv = 1) as Hl by (vm_compute; reflexivity).
  exists ops, kv. split; [exact Hi|]. split; [exact Hl|].
  destruct (Hops 1%nat kv None Hi) as (_ & Hs & _). rewrite Hl in Hs. exact Hs.
Defined.

(** Two orders of iteration. *)
Definition iters (i : nat) : gmap Z (list string) → list Z :=
  match i with O => descending | _ => ascending end.

Lemma iters_ok i : iterOk (iters i).
Proof. destruct i; [apply descending_ok|apply ascending_ok]. Qed.

Definition ctrlDemo : system := ranSystem (λ i, ctrlService (iters i) (Z.of_nat i)) joinOp.

Lemma shardctrler_one_history_witness :
  system_reachable (λ i, ctrlService (iters i) (Z.of_nat i)) true 3 ctrlDemo ∧
  ∃ ops sc, servers ctrlDemo !! 0%nat = Some (sc, None) ∧ sc_lastApplied sc = 1 ∧
    sessionRunAll (ShardCtrler.applyOp ascending) 1 (take 1 ops) ([ShardCtrler.zeroConfig], ∅)
      = Ret (configs sc, ShardCtrler.ckSessions sc).
Proof.
  assert (system_reachable (λ i, ctrlService (iters i) (Z.of_nat i)) true 3 ctrlDemo) as Hr
    by (apply (runSystem_reachable _ (replicateRun joinOp)); vm_compute; reflexivity).
  split; [exact Hr|].
  destruct (shardctrler_one_history 3 iters ctrlDemo iters_ok Hr) as (ops & _ & Hops).
  set (sc := default (ShardCtrler.StartServer 0) (fst <$> servers ctrlDemo !! 0%nat)).
  assert (servers ctrlDemo !! 0%nat = Some (sc, None)) as Hi by (vm_compute; reflexivity).
  assert (sc_lastApplied sc = 1) as Hl by (vm_compute; reflexivity).
  exists ops, sc. split; [exact Hi|]. split; [exact Hl|].
  destruct (Hops 0%nat sc None Hi) as (_ & Hs & _). rewrite Hl in Hs. exact Hs.
Defined.

(** Group 100 adopts the first configuration, in which it has all shards. *)
Definition adoptOp : ShardKV.Op :=
  ShardKV.mkOp OT_ChangeConfig 1 1 (-5) 0 (Some (AChangeConfig (mkChangeConfigArgs (-5) 1 0 1 (cfg 1 100)))).

Definition shardDemo : system :=
  ranSystem (λ i, shardService 100 (Z.of_nat i) (-1) (Z.of_nat i + 5)) adoptOp.

Lemma shardkv_replicas_agree_witness :
  system_reachable (λ i, shardService 100 (Z.of_nat i) (-1) (Z.of_nat i + 5)) true 3 shardDemo ∧
  ∃ kv kv', servers shardDemo !! 0%nat = Some (kv, None) ∧ servers shardDemo !! 1%nat = Some (kv', None) ∧
    ShardKV.kv_lastApplied kv = 1 ∧ shardVec kv = replicate NShards true ∧ shardVec kv = shardVec kv'.
Proof.
  assert (system_reachable (λ i, shardService 100 (Z.of_nat i) (-1) (Z.of_nat i + 5)) true 3 shardDemo) as Hr
    by (apply (runSystem_reachable _ (replicateRun adoptOp)); vm_compute; reflexivity).
  split; [exact Hr|].
  set (kv := default (fresh 0 (cfg 0 0) []) (fst <$> servers shardDemo !! 0%nat)).
  set (kv' := default (fresh 0 (cfg 0 0) []) (fst <$> servers shardDemo !! 1%nat)).
  assert (servers shardDemo !! 0%nat = Some (kv, None)) as Hi by (vm_compute; reflexivity).
  assert (servers shardDemo !! 1%nat = Some (kv', None)) as Hj by (vm_compute; reflexivity).
  exists kv, kv'. split; [exact Hi|]. split; [exact Hj|]. split; [vm_compute; reflexivity|].
  split; [vm_compute; reflexivity|].
  assert (ShardKV.kv_lastApplied kv = ShardKV.kv_lastApplied kv') as Hl by (vm_compute; reflexivity).
  destruct (shardkv_replicas_agree 3 100 (-1) (λ i, Z.of_nat i + 5) shardDemo 0%nat 1%nat kv kv' None None
    Hr Hi Hj Hl) as (_ & _ & _ & _ & Hv).
  exact Hv.
Defined.

End runs.
