(* ===== verification/KVClients.v ===== *)
(** * Clients of the replicated key/value service

    The clerks of [src/kvraft/client.go] with the servers they call, on a cluster
    ([Replicated]).  A clerk has one operation at a time and calls one server
    after the other; a call runs the handler of the server it reaches, at most
    once, and may fail at any time.  Servers apply what Raft delivers, crash and
    start again from nothing.

    [kvraft_linearizable]: what the clients see is linearizable.  The argument: Raft
    keeps the order in which operations were started ([history_in_start_order]), so
    the requests of a client are in order in the history and each is executed once;
    what had returned when an operation was called stands in the history before
    it.  A handler does not run any more once its call has failed;
    [late_request_appends_twice] is a run in which one does. *)

From S2P Require Import Prelude Serial RaftState RaftNode RaftIndex RaftAbstract RaftElection RaftNet RaftSafety Service Sessions.
From S2P Require Import KVRaft KvModel KVLinearize Replicated Agreement.
Local Open Scope Z_scope.

(** ** Clients *)

(** The three operations of a clerk. *)
Inductive clientOp := CGet (key : string) | CPut (key value : string) | CAppend (key value : string).

Definition typeOf (o : clientOp) : string :=
  match o with CGet _ => OT_GET | CPut _ _ => OT_PUT | CAppend _ _ => OT_APPEND end.

(** How far the handler of a call has come. *)
Inductive callState :=
| NotRun                                   (* it has not run *)
| Handling (op : KVRaft.Op) (index : Z)    (* [waittingForCommit] *)
| Answered (reply : Reply)
| Lost.                                    (* its server has crashed *)

(** The operation that a clerk is busy with: its arguments, the time of its call,
    the server that the clerk tries ([serverNum]). *)
Record call := mkCall {
  cl_args : GenericArgs; cl_type : string; cl_time : Z; cl_server : Z; cl_state : callState;
}.

Record client := mkClient { clerk : Clerk; current : option call }.

Definition setState (st : callState) (a : call) : call :=
  mkCall (cl_args a) (cl_type a) (cl_time a) (cl_server a) st.

(** The beginning of [Get] and [PutAppend]. *)
Definition clerkCall (o : clientOp) (ck : Clerk) : Clerk * GenericArgs :=
  match o with
  | CGet key => clerkGet key ck
  | CPut key value | CAppend key value => clerkPutAppend key value ck
  end.

(** What the tests record of an operation. *)
Definition inputOf (args : GenericArgs) (opType : string) : KvInput :=
  match args with
  | AGet a => mkKvInput 0 (ga_Key a) ""
  | APutAppend a => mkKvInput (if decide (opType = OT_PUT) then 1 else 2) (pa_Key a) (pa_Value a)
  end.

(** ** The world *)

Definition kvSystem : Type := system (Cmd := KVRaft.Op) (St := KVServer).

(** [numbers] are the results of [nrand] so far: it never gives the same twice. *)
Record world := mkWorld {
  kvs : kvSystem;
  clients : gmap Z client;
  numbers : gset Z;
  clock : Z;
  recorded : list Operation;
}.

Inductive clientAct :=
| Begin (o : clientOp)        (* the client calls the clerk *)
| Handle (number : Z)         (* the server runs the handler up to the wait *)
| Poll (elapsed : Z)          (* the handler looks whether its operation is done *)
| Finish                      (* the call returns true *)
| Break.                      (* the call returns false *)

Section world.
Context `{Codec (@persistent KVRaft.Op)} `{Codec KVRaft.Snapshot}.
Context (maxraftstate : Z).

Definition services (i : nat) : Service KVRaft.Op KVServer := kvService (Z.of_nat i) maxraftstate.

(** Peer [i] of the system in state [rf]. *)
Definition setPeer (i : nat) (rf : Raft KVRaft.Op) (s : Z) (y : kvSystem) : kvSystem :=
  let c := raft y in
  mkSystem (mkNet (withPeer i rf s (RaftNet.core c)) (sent c) (answers c) (snaps c) (snapAnswers c) (delivered c))
    (Replicated.servers y).

(** The server of a call, if it is not in the middle of a message. *)
Definition serverOf (a : call) (y : kvSystem) : option (nat * KVServer) :=
  let i := Z.to_nat (cl_server a) in
  match Replicated.servers y !! i with Some (kv, None) => Some (i, kv) | _ => None end.

(** The next state of the world when client [c], in state [cl], acts. *)
Definition execClient (c : Z) (cl : client) (act : clientAct) (w : world) : option world :=
  let '(mkWorld y cs nums t done) := w in
  let put cl y nums done := Some (mkWorld y (<[c := cl]> cs) nums (t + 1) done) in
  match act, current cl with
  | Begin o, None =>
      let '(ck, args) := clerkCall o (clerk cl) in
      put (mkClient ck (Some (mkCall args (typeOf o) t (leader (clerk cl)) NotRun))) y nums done
  | Handle number, Some a =>
      match cl_state a with
      | NotRun =>
          '(i, kv) ← serverOf a y;
          '(rf, s) ← nodes (RaftNet.core (raft y)) !! i;
          if decide (number ∈ nums) then None
          else
            '(rf', out) ← result (handleNormalRPC number (cl_args a) (cl_type a) kv rf);
            let st := match out with Replied reply => Answered reply | Waiting op index => Handling op index end in
            put (mkClient (clerk cl) (Some (setState st a))) (setPeer i rf' s y) ({[number]} ∪ nums) done
      | _ => None
      end
  | Poll elapsed, Some a =>
      match cl_state a with
      | Handling op index =>
          '(i, kv) ← serverOf a y;
          r ← result (waittingForCommit elapsed op index (cl_args a) (cl_type a) kv);
          match r with
          | Some reply => put (mkClient (clerk cl) (Some (setState (Answered reply) a))) y nums done
          | None => put cl y nums done
          end
      | _ => None
      end
  | Finish, Some a =>
      match cl_state a with
      | Answered reply =>
          match clerkRetry (cl_server a) [Some reply] (clerk cl) with
          | inl (ck, reply) =>
              put (mkClient ck None) y nums
                (done ++ [mkOperation c (inputOf (cl_args a) (cl_type a)) (cl_time a) (mkKvOutput (r_Value reply)) t])
          | inr next =>
              put (mkClient (clerk cl) (Some (mkCall (cl_args a) (cl_type a) (cl_time a) next NotRun))) y nums done
          end
      | _ => None
      end
  | Break, Some a =>
      match clerkRetry (cl_server a) [None] (clerk cl) with
      | inr next =>
          put (mkClient (clerk cl) (Some (mkCall (cl_args a) (cl_type a) (cl_time a) next NotRun))) y nums done
      | inl _ => None
      end
  | _, _ => None
  end.

(** A crash takes the handlers of the server with it. *)
Definition loseAt (i : nat) (cl : client) : client :=
  match current cl with
  | Some a =>
      match cl_state a with
      | Handling _ _ =>
          if decide (Z.to_nat (cl_server a) = i) then mkClient (clerk cl) (Some (setState Lost a)) else cl
      | _ => cl
      end
  | None => cl
  end.

Definition lose (ev : @event KVRaft.Op) (cs : gmap Z client) : gmap Z client :=
  match ev with Restarts i => loseAt i <$> cs | _ => cs end.

(** A step: a client acts, or the servers and the cluster do.  Only handlers start
    commands. *)
Inductive wstep : world → world → Prop :=
| w_client c cl act w w' : clients w !! c = Some cl → execClient c cl act w = Some w' → wstep w w'
| w_system ev y y' cs nums t done :
    sstep services true ev y y' → (∀ i x b, ev ≠ Starts i x b) →
    wstep (mkWorld y cs nums t done) (mkWorld y' (lose ev cs) nums (t + 1) done).

(** The clerks [ids], each made with the other servers' ends. *)
Definition world_init (n : nat) (ids : gset Z) (w : world) : Prop :=
  system_init services n (kvs w) ∧ clients w = set_to_map (λ c, (c, mkClient (MakeClerk n c) None)) ids ∧
  numbers w = ∅ ∧ clock w = 0 ∧ recorded w = [].

Definition world_reachable (n : nat) (ids : gset Z) (w : world) : Prop :=
  ∃ w0, world_init n ids w0 ∧ rtc wstep w0 w.

End world.

(** ** What servers know *)

(** The request of a call, and what the tests record of it. *)
Definition callRequest (a : call) : Z * Z := (getId (cl_args a), getReqNum (cl_args a)).
Definition callInput (a : call) : KvInput := inputOf (cl_args a) (cl_type a).

(** The clerk calls the handler of its type. *)
Definition argsOk (a : call) : Prop :=
  match cl_args a with
  | AGet _ => cl_type a = OT_GET
  | APutAppend _ => cl_type a = OT_PUT ∨ cl_type a = OT_APPEND
  end.

Lemma argsOk_read a : argsOk a → (KvModel.Op (callInput a) = 0 ↔ cl_type a = OT_GET).
Proof.
  unfold argsOk, callInput, inputOf. destruct (cl_args a); simpl; [done|].
  intros [-> | ->]; split; by intros ?.
Qed.

Lemma newOp_call number a op : argsOk a → newOp number (cl_args a) (cl_type a) = Ret op →
  requestOf op = callRequest a ∧ kvraftInput op = callInput a ∧ validType op ∧ op_Number op = number.
Proof.
  unfold argsOk, newOp, callInput, inputOf, callRequest, validType, kvraftInput, requestOf.
  destruct (cl_args a) as [g|p]; simpl.
  - intros ->. rewrite decide_False by (intros Hn; by apply Hn). intros [= <-]. split_and!; auto.
  - intros [-> | ->]; rewrite decide_True by done; intros [= <-]; split_and!; auto.
Qed.

Lemma finished_reply kv a reply : argsOk a → finished kv (cl_args a) (cl_type a) = Ret reply →
  cl_type a = OT_GET → r_Value reply = map_get "" (mp kv) (Key (callInput a)).
Proof.
  unfold finished, callInput, inputOf. intros _ Hr Ht. rewrite Ht, decide_False in Hr by (intros Hn; by apply Hn).
  destruct (cl_args a); [|done]. by injection Hr as <-.
Qed.

(** The two ways through the first critical section of a handler. *)
Lemma handleNormalRPC_cases `{Codec (@persistent KVRaft.Op)} number args opType kv rf rf' out :
  handleNormalRPC number args opType kv rf = Ret (rf', out) →
  (rf' = rf ∧ ∃ reply ses, out = Replied reply ∧ finished kv args opType = Ret reply ∧
     ckSessions kv !! getId args = Some ses ∧ op_ReqNum (LastOp ses) = getReqNum args) ∨
  ∃ op index term isLeader, newOp number args opType = Ret op ∧
    Start (Some op) rf = Ret (rf', (index, term, isLeader)) ∧
    out = if isLeader : bool then Waiting op index else Replied (mkReply ERR_NotLeader "" (kv_me kv)).
Proof.
  unfold handleNormalRPC. set (ses := map_get zeroSession (ckSessions kv) (getId args)).
  destruct (LastOpVaild ses && _ && _) eqn:Hf.
  - intros Hr. apply bind_Ret_inv in Hr as (reply & Hreply & Hr). injection Hr as <- <-. left. split; [done|].
    apply andb_true_iff in Hf as [[Hv Hn]%andb_true_iff _]. apply bool_decide_eq_true in Hn.
    exists reply, ses. split_and!; [done|done| |done]. subst ses. unfold map_get in *.
    destruct (ckSessions kv !! getId args); [done|]. by simpl in Hv.
  - intros Hr. right. apply bind_Ret_inv in Hr as (op & Hop & Hr). apply bind_Ret_inv in Hr as (r & Hst & Hr).
    destruct r as [rf1 [[index term] b]]. exists op, index, term, b.
    destruct b; injection Hr as <- <-; done.
Qed.

(** What a poll says. *)
Lemma waittingForCommit_cases elapsed op index args opType kv reply :
  waittingForCommit elapsed op index args opType kv = Ret (Some reply) → r_Err reply = ERR_OK →
  index <= kv_lastApplied kv ∧ finished kv args opType = Ret reply ∧
  ∃ op', logRecord kv !! index = Some op' ∧ op_Number op' = op_Number op.
Proof.
  unfold waittingForCommit. intros Hr Hok.
  repeat (case_match; simplify_eq; try done); try (inv_ret; simplify_eq; by eauto).
  all: by inv_ret; simplify_eq.
Qed.

(** The records of a server are commands that it has read. *)
Lemma handleApplyMsg_records `{Codec KVRaft.Snapshot} size m kv kv' r idx op :
  KVRaft.handleApplyMsg size m kv = Ret (kv', r) → logRecord kv' !! idx = Some op →
  logRecord kv !! idx = Some op ∨ CommandValid m = true ∧ CommandIndex m = idx ∧ msgCommand m = Some op.
Proof.
  unfold KVRaft.handleApplyMsg. intros Hr Hi.
  destruct (CommandValid m); [|destruct (SnapshotValid m); injection Hr as <- _; by left].
  destruct (msgCommand m) as [o|] eqn:Ho; [|done]. case_decide as Hidx; [done|].
  assert (∀ x, <[CommandIndex m := o]> (logRecord kv) !! idx = Some x →
    logRecord kv !! idx = Some x ∨ true = true ∧ CommandIndex m = idx ∧ Some o = Some x) as Hins.
  { intros x [[<- <-]|[_ ?]]%lookup_insert_Some; auto. }
  destruct (stable _ _ _); [injection Hr as <- _; by apply Hins|].
  apply bind_Ret_inv in Hr as (mp' & _ & Hr). case_decide.
  - unfold pruneRecords in Hr. injection Hr as <- _. simpl in Hi. apply map_lookup_filter_Some in Hi as [Hi _].
    by apply Hins.
  - injection Hr as <- _. by apply Hins.
Qed.

(** ** The servers and the history *)

Section servers.
Context `{Codec (@persistent KVRaft.Op)} `{!CodecLaws (@persistent KVRaft.Op)}.
Context `{Codec KVRaft.Snapshot} `{!CodecLaws KVRaft.Snapshot}.
Context (maxraftstate : Z) (n : nat).

#[local] Existing Instance kvMachine.

(** [cr] are the operations that were started, in order; [hist] is the history
    that the servers execute. *)
Record sysInv (cr hist : list KVRaft.Op) (y : kvSystem) : Prop := {
  si_run : system_runs (services maxraftstate) true n (Some <$> cr) y;
  si_hist : oneHistory (services maxraftstate) kvStateOf (λ _, True) (Some <$> hist) y;
  si_records : ∀ i kv p idx op, Replicated.servers y !! i = Some (kv, p) → logRecord kv !! idx = Some op →
    ∃ j m, (j, m) ∈ delivered (raft y) ∧ CommandValid m = true ∧ CommandIndex m = idx ∧ msgCommand m = Some op;
}.

Lemma si_net cr hist y : sysInv cr hist y → net_reachable true n (raft y).
Proof. intros Hs. apply net_reachable_runs. eexists. eapply system_runs_net, Hs. Qed.

Lemma si_sublist cr hist y : sysInv cr hist y → hist `sublist_of` cr.
Proof.
  intros Hs. pose proof (history_started _ _ _ _ _ _ _ (si_run _ _ _ Hs) (si_hist _ _ _ Hs)) as Hl.
  apply sublist_fmap_inv in Hl as (l & Hl & Hsub). by apply (inj (fmap Some)) in Hl as ->.
Qed.

(** A server stands somewhere in the history. *)
Lemma server_stands cr hist y i kv p : sysInv cr hist y → clientsInOrder cr →
  Replicated.servers y !! i = Some (kv, p) →
  0 ≤ kv_lastApplied kv ≤ len hist ∧ mapAt hist (Z.to_nat (kv_lastApplied kv)) (mp kv) ∧
  ∀ c ses, ckSessions kv !! c = Some ses →
    LastOp ses ∈ take (Z.to_nat (kv_lastApplied kv)) hist ∧ ckIdOf (LastOp ses) = c.
Proof.
  intros Hs Hord Hi. pose proof (si_hist _ _ _ Hs) as HO. destruct (oh_run _ _ _ _ _ HO) as [q Hq].
  destruct (history_sessions _ _ _ _ _ Hq) as (ops & Eh & Hops). apply (inj (fmap Some)) in Eh as <-.
  pose proof (oneHistory_upTo _ _ _ _ _ HO i kv p Hi) as Hup. destruct (Hops _ _ Hup) as (Hk & Hrun & Hexec).
  split; [done|]. split.
  - apply Hexec. eapply clientsInOrder_sublist; [by eapply si_sublist|done].
  - intros c ses Hc. destruct (sessionRunAll_sessions _ _ _ _ _ _ _ Hrun Hc) as [Hnone|?]; [|done].
    simpl in Hnone. by rewrite lookup_empty in Hnone.
Qed.

(** A record of a server that it has gone past stands in the history. *)
Lemma record_stands cr hist y i kv p idx op : sysInv cr hist y →
  Replicated.servers y !! i = Some (kv, p) → logRecord kv !! idx = Some op →
  idx ≤ kv_lastApplied kv → kv_lastApplied kv ≤ len hist →
  op ∈ take (Z.to_nat (kv_lastApplied kv)) hist.
Proof.
  intros Hs Hi Hr Hidx Hlast. destruct (si_records _ _ _ Hs _ _ _ _ _ Hi Hr) as (j & m & Hm & Hv & Em & Ec).
  destruct (net_reachable_sim _ _ (si_net _ _ _ Hs)) as (_ & A & HN).
  assert (1 ≤ idx) as H1.
  { destruct (sm_delivered _ _ _ HN _ _ Hm Hv) as (t & q & e & _ & Ht & En & _). rewrite <- Em, En.
    rewrite (RaftIndex.normals_app q [e]), (RaftIndex.normals_cons e []), decide_True by (by rewrite Ht).
    pose proof (RaftIndex.normals_nonneg q). pose proof (RaftIndex.normals_nonneg (@nil (logEntry KVRaft.Op))). lia. }
  destruct (lookup_lt_is_Some_2 hist (Z.to_nat (idx - 1))) as [x Hx]; [unfold len in Hlast; lia|].
  destruct (oh_read _ _ _ _ _ (si_hist _ _ _ Hs) (Z.to_nat (idx - 1)) (Some x)) as (j' & m' & Hm' & Hv' & Em' & Ec').
  { by rewrite list_lookup_fmap, Hx. }
  assert (Some op = Some x) as [= ->].
  { rewrite <- Ec, <- Ec'. eapply (delivered_command n A); eauto. lia. }
  apply list_elem_of_lookup_2 with (Z.to_nat (idx - 1)). rewrite lookup_take_lt by lia. done.
Qed.

(** A step of the servers and the cluster. *)
Lemma sysInv_step cr hist y ev y' cs : sysInv cr hist y → sstep (services maxraftstate) true ev y y' →
  startedBy ev = Some <$> cs → ∃ hist', hist `prefix_of` hist' ∧ sysInv (cr ++ cs) hist' y'.
Proof.
  intros Hs Hst Hcs. pose proof (si_run _ _ _ Hs) as Hrun.
  pose proof (sr_step _ _ _ _ _ _ _ Hrun Hst) as Hrun'. rewrite Hcs, <- fmap_app in Hrun'.
  destruct (oneHistory_step (services maxraftstate) kvStateOf (λ _, True) n
    (λ i, kvReplica (Z.of_nat i) maxraftstate) _ _ _ _ (si_hist _ _ _ Hs) (si_net _ _ _ Hs) Hst) as (H' & Hpre & HO').
  pose proof (history_started _ _ _ _ _ _ _ Hrun' HO') as Hl. apply sublist_fmap_inv in Hl as (hist' & -> & _).
  exists hist'. split.
  { destruct Hpre as [l Hl]. exists (drop (length hist) hist'). rewrite <- (take_drop (length hist) hist') at 1.
    f_equal. apply (inj (fmap Some)). rewrite fmap_take, Hl, take_app_length'; [done|by rewrite length_fmap]. }
  split; [done|done|]. intros i kv p idx op Hi Hr.
  assert (∀ d, d ∈ delivered (raft y) → d ∈ delivered (raft y')) as Hd.
  { intros d Hd. rewrite (nstep_delivered _ _ _ _ (sstep_net _ _ _ _ _ Hst)). destruct ev; try done. by right. }
  assert (∀ kv0 p0, Replicated.servers y !! i = Some (kv0, p0) → logRecord kv0 !! idx = Some op →
    ∃ j m, (j, m) ∈ delivered (raft y') ∧ CommandValid m = true ∧ CommandIndex m = idx ∧ msgCommand m = Some op) as Hold.
  { intros kv0 p0 Hi0 Hr0. destruct (si_records _ _ _ Hs _ _ _ _ _ Hi0 Hr0) as (j & m & ? & ?). exists j, m. auto. }
  pose proof (nstep_delivered _ _ _ _ (sstep_net _ _ _ _ _ Hst)) as Ed.
  inversion Hst as [c c' sv Hn|c c' sv k x b Hn|c c' sv k m size st st' r Hn Hsv Ha|c c' sv k x d st Hn Hsv|c c' sv k Hn];
    subst; simpl in *; try (by eapply Hold).
  - apply list_lookup_insert_Some in Hi as [(<- & ? & _)|[_ Hi]]; [|by eapply Hold]. simplify_eq.
    destruct (handleApplyMsg_records _ _ _ _ _ _ _ Ha Hr) as [Hr0|(Hv & Ei & Em)]; [by eapply Hold|].
    exists k, m. rewrite Ed. split; [by left|done].
  - apply list_lookup_insert_Some in Hi as [(<- & ? & _)|[_ Hi]]; [|by eapply Hold]. simplify_eq. by eapply Hold.
  - apply list_lookup_insert_Some in Hi as [(<- & ? & _)|[_ Hi]]; [|by eapply Hold]. by simplify_eq.
Qed.

Lemma sysInv_init y : system_init (services maxraftstate) n y → sysInv [] [] y.
Proof.
  intros Hi. split; [by constructor|by eapply oneHistory_init; [intros i; apply kvReplica|]|].
  intros i kv p idx op Hs Hr. destruct Hi as [_ Hi]. rewrite Hi in Hs.
  apply list_lookup_fmap_Some in Hs as (j & [= -> ->] & _). simpl in Hr. by rewrite lookup_empty in Hr.
Qed.

(** The handler's start of an operation is a step of the system. *)
Lemma setPeer_start y i rf s op rf' r : nodes (RaftNet.core (raft y)) !! i = Some (rf, s) →
  Start (Some op) rf = Ret (rf', r) → sstep (services maxraftstate) true (Starts i (Some op) r.2) y (setPeer i rf' s y).
Proof. destruct y as [[c st an sn sa de] sv]. intros Hi Hr. apply ss_start. by eapply nt_start. Qed.

Lemma setPeer_same y i rf s : nodes (RaftNet.core (raft y)) !! i = Some (rf, s) → setPeer i rf s y = y.
Proof.
  destruct y as [[[ns ph rq rp bs] st an sn sa de] sv]. intros Hi. unfold setPeer, withPeer. simpl in *.
  by rewrite list_insert_id.
Qed.

(** ** What clients know *)

(** A successful reply: the request stands in the history, and a read was
    answered by a server that stood past it. *)
Definition replyOk (hist : list KVRaft.Op) (a : call) (reply : Reply) : Prop :=
  r_Err reply = ERR_OK → ∃ k, (k ≤ length hist)%nat ∧ callRequest a ∈ requestOf <$> take k hist ∧
    (cl_type a = OT_GET → readAt hist k (Key (callInput a)) (r_Value reply)).

Definition stateOk (cr hist : list KVRaft.Op) (a : call) : Prop :=
  match cl_state a with
  | Handling op _ => op ∈ cr ∧ requestOf op = callRequest a
  | Answered reply => replyOk hist a reply
  | _ => True
  end.

(** The length of the history when an operation was called: everything that had
    returned by then has its point before, and the operation itself comes later. *)
Definition marked (hist : list KVRaft.Op) (F : list finishedOp) (a : call) (mk : nat) : Prop :=
  (mk ≤ length hist)%nat ∧ (∀ f, f ∈ F → Return (f_op f) < cl_time a → (f_point f ≤ mk)%nat) ∧
  callRequest a ∉ requestOf <$> take mk hist.

Record callOk (cr hist : list KVRaft.Op) (F : list finishedOp) (t c : Z) (ck : Clerk) (a : call) : Prop := {
  co_args : argsOk a;
  co_id : getId (cl_args a) = c;
  co_num : getReqNum (cl_args a) + 1 = reqNum ck;
  co_time : cl_time a < t;
  co_mark : ∃ mk, marked hist F a mk;
  co_state : stateOk cr hist a;
}.

(** The requests of finished operations are older than this. *)
Definition nextReq (cl : client) : Z :=
  match current cl with Some a => getReqNum (cl_args a) | None => reqNum (clerk cl) end.

Record clientOk (cr hist : list KVRaft.Op) (F : list finishedOp) (t c : Z) (cl : client) : Prop := {
  cl_id : ck_id (clerk cl) = c;
  cl_seen : ∀ op, op ∈ cr → op_CkId op = c → op_ReqNum op < reqNum (clerk cl);
  cl_done : ∀ f, f ∈ F → ClientId (f_op f) = c → f_req f < nextReq cl;
  cl_call : ∀ a, current cl = Some a → callOk cr hist F t c (clerk cl) a;
}.

(** The operation of a client that [op] belongs to: it is pending or finished. *)
Definition origin (F : list finishedOp) (cs : gmap Z client) (op : KVRaft.Op) : Prop :=
  (∃ cl a, cs !! op_CkId op = Some cl ∧ current cl = Some a ∧ callRequest a = requestOf op ∧
     callInput a = kvraftInput op) ∨
  ∃ f, f ∈ F ∧ fRequest f = requestOf op ∧ Input (f_op f) = kvraftInput op.

Record worldInv (cr hist : list KVRaft.Op) (F : list finishedOp) (w : world) : Prop := {
  wi_sys : sysInv cr hist (kvs w);
  wi_numbers : NoDup (op_Number <$> cr) ∧ ∀ op, op ∈ cr → op_Number op ∈ numbers w;
  wi_valid : Forall validType cr;
  wi_order : clientsInOrder cr;
  wi_origin : ∀ op, op ∈ cr → origin F (clients w) op;
  wi_clients : ∀ c cl, clients w !! c = Some cl → clientOk cr hist F (clock w) c cl;
  wi_done : ∀ f, f ∈ F → explained hist f ∧ Call (f_op f) < Return (f_op f) < clock w;
  wi_real : ∀ f f', f ∈ F → f' ∈ F → Return (f_op f) < Call (f_op f') → (f_point f < f_point f')%nat;
  wi_uniq : NoDup (fRequest <$> F);
  wi_recorded : recorded w = f_op <$> F;
}.

(** *** Later *)

Section later.
Context (cr cr' hist hist' : list KVRaft.Op) (Hcr : ∀ op, op ∈ cr → op ∈ cr') (Hpre : hist `prefix_of` hist').

Lemma replyOk_later a reply : replyOk hist a reply → replyOk hist' a reply.
Proof using Hpre.
  intros Hr Hok. destruct (Hr Hok) as (k & Hk & Hin & Hrd). exists k. split_and!.
  - apply prefix_length in Hpre. lia.
  - by rewrite (take_longer hist hist' Hpre).
  - intros Ht. by apply (readAt_longer hist hist' Hpre), Hrd.
Qed.

Lemma marked_later F a mk : marked hist F a mk → marked hist' F a mk.
Proof using Hpre.
  intros (Hm & Hf & Hn). split_and!; [apply prefix_length in Hpre; lia|done|].
  by rewrite (take_longer hist hist' Hpre).
Qed.

Lemma callOk_later F t t' c ck a : t ≤ t' → callOk cr hist F t c ck a → callOk cr' hist' F t' c ck a.
Proof using Hcr Hpre.
  intros Ht [Ha Hi Hn Hc (mk & Hm) Hs]. split; [done|done|done|lia|exists mk; by apply marked_later|].
  unfold stateOk in *. destruct (cl_state a); [done|destruct Hs; auto|by apply replyOk_later|done].
Qed.

(** A client whose requests are not among the new ones. *)
Lemma clientOk_later F t t' c cl : t ≤ t' → (∀ op, op ∈ cr' → op ∉ cr → op_CkId op = c → op_ReqNum op < reqNum (clerk cl)) →
  clientOk cr hist F t c cl → clientOk cr' hist' F t' c cl.
Proof using Hcr Hpre.
  intros Ht Hnew [Hi Hseen Hd Hc]. split; [done| |done|].
  - intros op Hop Hck. destruct (decide (op ∈ cr)); [by apply Hseen|by apply Hnew].
  - intros a Ha. eapply callOk_later; [exact Ht|by apply Hc].
Qed.

End later.

(** *** One client acts *)

Lemma origin_update F cs c cl cl' op : cs !! c = Some cl →
  (∀ a, current cl = Some a → ∃ a', current cl' = Some a' ∧ callRequest a' = callRequest a ∧ callInput a' = callInput a) →
  origin F cs op → origin F (<[c := cl']> cs) op.
Proof.
  intros Hc Hsame [(cl0 & a & Hl & Ha & Hr & Hi)|?]; [left|by right].
  destruct (decide (op_CkId op = c)) as [Ec|Hne].
  - rewrite Ec in *. simplify_eq. destruct (Hsame a Ha) as (a' & ? & ? & ?). exists cl', a'.
    rewrite lookup_insert_eq. split_and!; [done|done|congruence..].
  - exists cl0, a. by rewrite lookup_insert_ne.
Qed.

(** What a client may start: an operation for its call, with a new number. *)
Definition startOk (nums nums' : gset Z) (cl : client) (new : list KVRaft.Op) : Prop :=
  new = [] ∨ ∃ op a, new = [op] ∧ current cl = Some a ∧ requestOf op = callRequest a ∧
    kvraftInput op = callInput a ∧ validType op ∧ (op_Number op ∉ nums) ∧ op_Number op ∈ nums'.

Lemma worldInv_client cr hist F y cs nums t done c cl cl' y' nums' hist' new :
  worldInv cr hist F (mkWorld y cs nums t done) → cs !! c = Some cl →
  hist `prefix_of` hist' → sysInv (cr ++ new) hist' y' → nums ⊆ nums' → startOk nums nums' cl' new →
  (∀ a, current cl = Some a → ∃ a', current cl' = Some a' ∧ callRequest a' = callRequest a ∧ callInput a' = callInput a) →
  clientOk (cr ++ new) hist' F (t + 1) c cl' →
  worldInv (cr ++ new) hist' F (mkWorld y' (<[c := cl']> cs) nums' (t + 1) done).
Proof.
  intros [Hs [Hnd Hnum] Hval Hord Horg Hcl Hdn Hrl Hu Hrec] Hc Hpre Hs' Hnums Hst Hsame Hok. simpl in *.
  assert (∀ op, op ∈ new → ∃ a, current cl' = Some a ∧ requestOf op = callRequest a ∧
    kvraftInput op = callInput a ∧ validType op ∧ (op_Number op ∉ nums) ∧ op_Number op ∈ nums' ∧ op_CkId op = c) as Hnew.
  { destruct Hst as [->|(op0 & a & -> & Ha & Hr & Hst)]; [by intros op ?%elem_of_nil|].
    intros op ->%list_elem_of_singleton. exists a. destruct Hst as (? & ? & ? & ?). split_and!; auto.
    rewrite <- (co_id _ _ _ _ _ _ _ (cl_call _ _ _ _ _ _ Hok a Ha)). by injection Hr. }
  split; simpl.
  - done.
  - split.
    + rewrite fmap_app. apply NoDup_app. split_and!; [done| |].
      * intros x (o & -> & Ho)%list_elem_of_fmap (o' & E & Ho')%list_elem_of_fmap.
        destruct (Hnew o' Ho') as (a & _ & _ & _ & _ & Hno & _). apply Hno. rewrite <- E. by apply Hnum.
      * destruct Hst as [->|(op0 & a & -> & _)]; [constructor|apply NoDup_singleton].
    + intros op [Hop|Hop]%elem_of_app; [by apply Hnums, Hnum|]. by destruct (Hnew op Hop) as (a & ?); naive_solver.
  - apply Forall_app. split; [done|]. apply Forall_forall. intros op Hop. by destruct (Hnew op Hop) as (a & ?); naive_solver.
  - apply clientsInOrder_sorted. apply StronglySorted_app_2.
    + intros o o' Ho Ho' Heq. destruct (Hnew o' Ho') as (a & Ha & Hr & _ & _ & _ & _ & Hc').
      pose proof (co_num _ _ _ _ _ _ _ (cl_call _ _ _ _ _ _ Hok a Ha)) as Hn.
      assert (op_ReqNum o < reqNum (clerk cl')) as Hlt.
      { apply (cl_seen _ _ _ _ _ _ Hok); [by apply elem_of_app; left|]. simpl in Heq. congruence. }
      injection Hr as _ Hr. simpl in *. lia.
    + by apply clientsInOrder_sorted.
    + destruct Hst as [->|(op0 & a & -> & _)]; repeat constructor.
  - intros op [Hop|Hop]%elem_of_app; [by eapply origin_update, Horg|].
    destruct (Hnew op Hop) as (a & Ha & Hr & Hi & _ & _ & _ & Ec). left. exists cl', a. rewrite Ec, lookup_insert_eq.
    done.
  - intros c' cl0 [[<- <-]|[Hne Hl]]%lookup_insert_Some; [done|].
    eapply (clientOk_later cr (cr ++ new) hist hist'); [intros; apply elem_of_app; by left|done|apply Z.le_succ_diag_r| |by apply Hcl].
    intros op [?|Hop]%elem_of_app Hno Hck; [done|]. destruct (Hnew op Hop) as (a & ?). naive_solver.
  - intros f Hf. destruct (Hdn f Hf) as [He Ht]. split; [by eapply explained_longer|lia].
  - done.
  - done.
  - done.
Qed.

(** The servers do not move. *)
Lemma worldInv_same cr hist F y cs nums t done c cl cl' :
  worldInv cr hist F (mkWorld y cs nums t done) → cs !! c = Some cl →
  (∀ a, current cl = Some a → ∃ a', current cl' = Some a' ∧ callRequest a' = callRequest a ∧ callInput a' = callInput a) →
  clientOk cr hist F (t + 1) c cl' →
  worldInv cr hist F (mkWorld y (<[c := cl']> cs) nums (t + 1) done).
Proof.
  intros HW Hc Hsame Hok. pose proof (wi_sys _ _ _ _ HW) as Hs. rewrite <- (app_nil_r cr) in Hok, Hs |- *.
  rewrite <- (app_nil_r cr) in HW. rewrite app_nil_r in HW.
  eapply worldInv_client; eauto. by left.
Qed.

(** A client whose call has moved on. *)
Lemma clientOk_move cr hist F t c cl a a' : clientOk cr hist F t c cl → current cl = Some a →
  cl_args a' = cl_args a → cl_type a' = cl_type a → cl_time a' = cl_time a → stateOk cr hist a' →
  clientOk cr hist F (t + 1) c (mkClient (clerk cl) (Some a')).
Proof.
  intros [Hi Hseen Hd Hc] Ha E1 E2 E3 Hs. destruct (Hc a Ha) as [Hargs Hid Hn Ht [mk Hm] _].
  unfold nextReq in Hd. rewrite Ha in Hd. split; simpl; [done|done|unfold nextReq; simpl; by rewrite E1|].
  intros x [= <-]. split; rewrite ?E1, ?E2, ?E3; try done.
  - unfold argsOk in *. by rewrite E1, E2.
  - lia.
  - exists mk. unfold marked, callRequest in *. by rewrite E1, E3.
Qed.

Lemma same_move cl a a' ck : current cl = Some a → cl_args a' = cl_args a → cl_type a' = cl_type a →
  ∀ x, current cl = Some x → ∃ x', current (mkClient ck (Some a')) = Some x' ∧ callRequest x' = callRequest x ∧
    callInput x' = callInput x.
Proof. intros Ha E1 E2 x Hx. simplify_eq. exists a'. unfold callRequest, callInput. by rewrite E1, E2. Qed.

Lemma begin_inv cr hist F y cs nums t done c cl o ck args :
  worldInv cr hist F (mkWorld y cs nums t done) → cs !! c = Some cl → current cl = None →
  clerkCall o (clerk cl) = (ck, args) →
  worldInv cr hist F (mkWorld y (<[c := mkClient ck (Some (mkCall args (typeOf o) t (leader (clerk cl)) NotRun))]> cs)
    nums (t + 1) done).
Proof.
  intros HW Hc Hn Hck. destruct (wi_clients _ _ _ _ HW c cl Hc) as [Hi Hseen Hd _]. simpl in *.
  unfold nextReq in Hd. rewrite Hn in Hd.
  assert (reqNum ck = reqNum (clerk cl) + 1 ∧ ck_id ck = c ∧ getReqNum args = reqNum (clerk cl) ∧ getId args = c ∧
    argsOk (mkCall args (typeOf o) t (leader (clerk cl)) NotRun)) as (En & Ei & Er & Eid & Ha).
  { destruct o; injection Hck as <- <-; unfold argsOk; simpl; split_and!; auto. }
  eapply worldInv_same; [exact HW|done|by rewrite Hn|]. split; simpl; [done| | |].
  - intros op Hop Hc'. specialize (Hseen op Hop Hc'). lia.
  - unfold nextReq. simpl. by rewrite Er.
  - intros a [= <-]. split; simpl; [done|done|lia|lia| |done]. exists (length hist). split_and!.
    + done.
    + intros f Hf _. apply (wi_done _ _ _ _ HW f Hf).
    + intros (op & E & Hop)%list_elem_of_fmap. rewrite take_ge in Hop by done.
      assert (op ∈ cr) as Hin by (eapply elem_of_sublist; [exact Hop|eapply si_sublist, (wi_sys _ _ _ _ HW)]).
      unfold callRequest, requestOf in E. simpl in E. rewrite Er, Eid in E. injection E as Ec Ereq.
      specialize (Hseen op Hin (eq_sym Ec)). lia.
Qed.

(** The reply of a server that has read past the request. *)
Lemma server_reply cr hist F w i kv p a reply : worldInv cr hist F w → argsOk a →
  Replicated.servers (kvs w) !! i = Some (kv, p) → finished kv (cl_args a) (cl_type a) = Ret reply →
  callRequest a ∈ requestOf <$> take (Z.to_nat (kv_lastApplied kv)) hist → replyOk hist a reply.
Proof.
  intros HW Ha Hi Hf Hin _. destruct (server_stands _ _ _ _ _ _ (wi_sys _ _ _ _ HW) (wi_order _ _ _ _ HW) Hi) as (Hk & Hm & _).
  exists (Z.to_nat (kv_lastApplied kv)). split_and!; [unfold len in Hk; lia|done|]. intros Ht.
  exists (mp kv). split; [done|]. by eapply finished_reply.
Qed.

(** *** The actions of a client *)

Lemma serverOf_Some a y i kv : serverOf a y = Some (i, kv) → Replicated.servers y !! i = Some (kv, None).
Proof. unfold serverOf. intros Hs. repeat case_match; simplify_eq. done. Qed.

(** A handler that starts an operation, at a server that leads or not. *)
Lemma start_inv cr hist F y cs nums t done c cl a op i rf s rf' r st :
  worldInv cr hist F (mkWorld y cs nums t done) → cs !! c = Some cl → current cl = Some a →
  op_Number op ∉ nums → newOp (op_Number op) (cl_args a) (cl_type a) = Ret op →
  nodes (RaftNet.core (raft y)) !! i = Some (rf, s) → Start (Some op) rf = Ret (rf', r) →
  (∀ cr' hist', (r.2 = true → op ∈ cr') → requestOf op = callRequest a → stateOk cr' hist' (setState st a)) →
  ∃ cr' hist', worldInv cr' hist' F
    (mkWorld (setPeer i rf' s y) (<[c := mkClient (clerk cl) (Some (setState st a))]> cs)
       ({[op_Number op]} ∪ nums) (t + 1) done).
Proof.
  intros HW Hc Ha Hn Hnew Hi Hr Hst. pose proof (wi_clients _ _ _ _ HW c cl Hc) as Hok. simpl in Hok.
  pose proof (cl_call _ _ _ _ _ _ Hok a Ha) as Hca.
  destruct (newOp_call _ _ _ (co_args _ _ _ _ _ _ _ Hca) Hnew) as (Hreq & Hinp & Hval & _).
  set (new := if r.2 then [op] else []).
  destruct (sysInv_step _ _ _ _ _ new (wi_sys _ _ _ _ HW) (setPeer_start y i rf s op rf' r Hi Hr))
    as (hist' & Hpre & Hs'); [unfold new, startedBy; by destruct r.2|].
  assert (∀ o, o ∈ new → o = op ∧ r.2 = true) as Hin.
  { unfold new. destruct r.2; [|by intros o ?%elem_of_nil]. by intros o ->%list_elem_of_singleton. }
  exists (cr ++ new), hist'. eapply worldInv_client; [exact HW|done|done|done|set_solver| | |].
  - unfold new. destruct r.2; [right|by left]. exists op, (setState st a). split_and!; auto. set_solver.
  - by eapply same_move.
  - eapply clientOk_move; [|exact Ha|done|done|done|].
    + eapply (clientOk_later cr (cr ++ new)); [intros; apply elem_of_app; by left|exact Hpre|reflexivity| |exact Hok].
      intros o [?|Ho]%elem_of_app Hno _; [done|]. destruct (Hin o Ho) as [-> _].
      pose proof (co_num _ _ _ _ _ _ _ Hca). injection Hreq as _ Hq. simpl in Hq. lia.
    + apply Hst; [|done]. intros E. apply elem_of_app. right. unfold new. rewrite E. by left.
Qed.

Lemma handle_inv cr hist F y cs nums t done c cl a number i kv rf s rf' out :
  worldInv cr hist F (mkWorld y cs nums t done) → cs !! c = Some cl → current cl = Some a →
  Replicated.servers y !! i = Some (kv, None) → nodes (RaftNet.core (raft y)) !! i = Some (rf, s) →
  number ∉ nums → handleNormalRPC number (cl_args a) (cl_type a) kv rf = Ret (rf', out) →
  ∃ cr' hist', worldInv cr' hist' F
    (mkWorld (setPeer i rf' s y)
       (<[c := mkClient (clerk cl) (Some (setState
          (match out with Replied reply => Answered reply | Waiting op index => Handling op index end) a))]> cs)
       ({[number]} ∪ nums) (t + 1) done).
Proof.
  intros HW Hc Ha Hsv Hi Hn Hr. pose proof (wi_clients _ _ _ _ HW c cl Hc) as Hok. simpl in Hok.
  pose proof (cl_call _ _ _ _ _ _ Hok a Ha) as Hca. pose proof (co_args _ _ _ _ _ _ _ Hca) as Hargs.
  apply handleNormalRPC_cases in Hr as [(-> & reply & ses & -> & Hf & Hses & Hnum)
    |(op & index & term & b & Hop & Hst & ->)].
  - exists cr, hist. rewrite setPeer_same by done. rewrite <- (app_nil_r cr).
    eapply worldInv_client; [exact HW|done|done| |set_solver|by left| |]; rewrite ?app_nil_r.
    + apply HW.
    + by eapply same_move.
    + eapply clientOk_move; [exact Hok|exact Ha|done..|]. simpl.
      destruct (server_stands _ _ _ _ _ _ (wi_sys _ _ _ _ HW) (wi_order _ _ _ _ HW) Hsv) as (_ & _ & Hst).
      destruct (Hst _ _ Hses) as [Hin Hck].
      apply (server_reply _ _ _ _ _ _ _ (setState (Answered reply) a) reply HW Hargs Hsv Hf).
      replace (callRequest (setState (Answered reply) a)) with (requestOf (LastOp ses)).
      * by apply list_elem_of_fmap_2.
      * unfold requestOf, callRequest. rewrite Hck. simpl. by rewrite Hnum.
  - destruct (newOp_call _ _ _ Hargs Hop) as (_ & _ & _ & <-).
    eapply start_inv; [exact HW|done|exact Ha|done|exact Hop|exact Hi|exact Hst|].
    intros cr' hist' Hin Hreq. simpl in Hin. destruct b; simpl; [split; [by apply Hin|done]|done].
Qed.

Lemma poll_inv cr hist F y cs nums t done c cl a op index i kv elapsed reply :
  worldInv cr hist F (mkWorld y cs nums t done) → cs !! c = Some cl → current cl = Some a →
  cl_state a = Handling op index → Replicated.servers y !! i = Some (kv, None) →
  waittingForCommit elapsed op index (cl_args a) (cl_type a) kv = Ret (Some reply) →
  worldInv cr hist F
    (mkWorld y (<[c := mkClient (clerk cl) (Some (setState (Answered reply) a))]> cs) nums (t + 1) done).
Proof.
  intros HW Hc Ha Hst Hsv Hr. pose proof (wi_clients _ _ _ _ HW c cl Hc) as Hok. simpl in Hok.
  pose proof (cl_call _ _ _ _ _ _ Hok a Ha) as Hca. pose proof (co_args _ _ _ _ _ _ _ Hca) as Hargs.
  pose proof (co_state _ _ _ _ _ _ _ Hca) as Hs. unfold stateOk in Hs. rewrite Hst in Hs. destruct Hs as [Hin Hreq].
  eapply worldInv_same; [exact HW|done|by eapply same_move|].
  eapply clientOk_move; [exact Hok|exact Ha|done..|]. simpl. intros Hokr.
  destruct (waittingForCommit_cases _ _ _ _ _ _ _ Hr Hokr) as (Hle & Hf & op' & Hrec & Hnum).
  destruct (server_stands _ _ _ _ _ _ (wi_sys _ _ _ _ HW) (wi_order _ _ _ _ HW) Hsv) as (Hk & _ & _).
  pose proof (record_stands _ _ _ _ _ _ _ _ (wi_sys _ _ _ _ HW) Hsv Hrec Hle (proj2 Hk)) as Hop'.
  assert (op' = op) as ->.
  { destruct (wi_numbers _ _ _ _ HW) as [Hnd _].
    assert (op' ∈ cr) as Hcr.
    { eapply elem_of_sublist; [|eapply si_sublist, (wi_sys _ _ _ _ HW)].
      by eapply elem_of_sublist; [exact Hop'|apply sublist_take]. }
    apply list_elem_of_lookup in Hcr as [x Hx]. apply list_elem_of_lookup in Hin as [z Hz].
    assert (x = z) as ->; [|congruence].
    apply (NoDup_lookup (op_Number <$> cr) x z (op_Number op)); [done| |]; rewrite list_lookup_fmap.
    - by rewrite Hx, <- Hnum.
    - by rewrite Hz. }
  apply (server_reply _ _ _ _ _ _ _ (setState (Answered reply) a) reply HW Hargs Hsv Hf); [|done].
  change (callRequest (setState (Answered reply) a)) with (callRequest a). rewrite <- Hreq.
  by apply list_elem_of_fmap_2.
Qed.

(** The next server. *)
Lemma retry_inv cr hist F y cs nums t done c cl a next :
  worldInv cr hist F (mkWorld y cs nums t done) → cs !! c = Some cl → current cl = Some a →
  worldInv cr hist F
    (mkWorld y (<[c := mkClient (clerk cl) (Some (mkCall (cl_args a) (cl_type a) (cl_time a) next NotRun))]> cs)
       nums (t + 1) done).
Proof.
  intros HW Hc Ha. eapply worldInv_same; [exact HW|done|by eapply same_move|].
  eapply clientOk_move; [by apply (wi_clients _ _ _ _ HW)|exact Ha|done..].
Qed.

(** An answered operation has a point, after everything that returned before its
    call. *)
Lemma answered_explained cr hist F y cs nums t done c cl a reply :
  worldInv cr hist F (mkWorld y cs nums t done) → cs !! c = Some cl → current cl = Some a →
  replyOk hist a reply → r_Err reply = ERR_OK →
  ∃ k, explained hist (mkFinished
    (mkOperation c (callInput a) (cl_time a) (mkKvOutput (r_Value reply)) t) (getReqNum (cl_args a)) k) ∧
    ∀ f, f ∈ F → Return (f_op f) < cl_time a → (f_point f < k)%nat.
Proof.
  intros HW Hc Ha Hr Hok. pose proof (wi_clients _ _ _ _ HW c cl Hc) as Hcl. simpl in Hcl.
  destruct (cl_call _ _ _ _ _ _ Hcl a Ha) as [Hargs Hid Hnum Ht (mk & Hmk & Hold & Hno) _].
  destruct (Hr Hok) as (k & Hk & Hin & Hrd).
  assert (∀ j, callRequest a ∈ requestOf <$> take j hist → (mk < j)%nat) as Hlt.
  { intros j Hj. destruct (decide (mk < j)%nat) as [|Hge]; [done|]. exfalso. apply Hno.
    apply list_elem_of_fmap in Hj as (o & -> & Ho). apply list_elem_of_fmap_2.
    destruct (RaftAbstract.take_take_prefix hist j mk) as [q ->]; [lia|]. apply elem_of_app. by left. }
  destruct (decide (KvModel.Op (callInput a) = 0)) as [Hop0|Hop0].
  - exists k. split.
    + split; [done|intros _|by intros []]. apply Hrd. by apply argsOk_read.
    + intros f Hf Hret. specialize (Hold f Hf Hret). specialize (Hlt k Hin). lia.
  - assert (callRequest a ∈ requestOf <$> hist) as Hin'.
    { apply list_elem_of_fmap in Hin as (o & -> & Ho). apply list_elem_of_fmap_2.
      by eapply elem_of_sublist; [exact Ho|apply sublist_take]. }
    destruct (first_copy _ _ Hin') as (j & op & Hfirst & Hreq). pose proof Hfirst as [Hj _].
    pose proof (lookup_lt_Some _ _ _ Hj). exists (S j). split.
    + split; [simpl; lia|by intros|]. intros _. split; [simpl; lia|]. exists op. split; [done|].
      split; [rewrite Hreq; unfold callRequest, fRequest; simpl; by rewrite Hid|].
      assert (op ∈ cr) as Hcr.
      { eapply elem_of_sublist; [by eapply list_elem_of_lookup_2|]. eapply si_sublist, (wi_sys _ _ _ _ HW). }
      assert (op_CkId op = c) as Ec by (unfold callRequest in Hreq; rewrite Hid in Hreq; by injection Hreq).
      destruct (wi_origin _ _ _ _ HW op Hcr) as [(cl0 & a0 & Hl & Ha0 & _ & Hi)|(f & Hf & Hfr & _)].
      * simpl in *. rewrite Ec in Hl. by simplify_eq.
      * exfalso. pose proof (cl_done _ _ _ _ _ _ Hcl f Hf) as Hd. unfold nextReq in Hd. rewrite Ha in Hd.
        rewrite Hreq in Hfr. unfold fRequest, callRequest in Hfr. rewrite Hid in Hfr. injection Hfr as E1 E2.
        specialize (Hd E1). lia.
    + intros f Hf Hret. specialize (Hold f Hf Hret). simpl.
      specialize (Hlt (S j)). rewrite (take_S_r _ _ _ Hj), fmap_app, elem_of_app, <- Hreq in Hlt.
      assert (mk < S j)%nat by (apply Hlt; right; by left). lia.
Qed.

Lemma finish_inv cr hist F y cs nums t done c cl a reply server :
  worldInv cr hist F (mkWorld y cs nums t done) → cs !! c = Some cl → current cl = Some a →
  cl_state a = Answered reply → r_Err reply = ERR_OK →
  ∃ F', worldInv cr hist F'
    (mkWorld y (<[c := mkClient (mkClerk (KVRaft.servers (clerk cl)) (ck_id (clerk cl)) server (reqNum (clerk cl))) None]> cs)
       nums (t + 1) (done ++ [mkOperation c (callInput a) (cl_time a) (mkKvOutput (r_Value reply)) t])).
Proof.
  intros HW Hc Ha Hst Hok. pose proof (wi_clients _ _ _ _ HW c cl Hc) as Hcl. simpl in Hcl.
  pose proof (cl_call _ _ _ _ _ _ Hcl a Ha) as Hca.
  pose proof (co_state _ _ _ _ _ _ _ Hca) as Hs. unfold stateOk in Hs. rewrite Hst in Hs.
  destruct (answered_explained _ _ _ _ _ _ _ _ _ _ _ _ HW Hc Ha Hs Hok) as (k & Hex & Hafter).
  set (f0 := mkFinished _ _ k) in Hex. exists (F ++ [f0]). pose proof (co_time _ _ _ _ _ _ _ Hca) as Htime.
  pose proof (co_id _ _ _ _ _ _ _ Hca) as Hid. pose proof (co_num _ _ _ _ _ _ _ Hca) as Hnum.
  assert (∀ f, f ∈ F → ClientId (f_op f) = c → f_req f < getReqNum (cl_args a)) as Hreq.
  { intros f Hf Hfc. pose proof (cl_done _ _ _ _ _ _ Hcl f Hf Hfc) as Hd. unfold nextReq in Hd. by rewrite Ha in Hd. }
  destruct HW as [HS Hn Hv Ho Horg Hcls Hdn Hrl Hu Hrec]. simpl in *. split; simpl; try done.
  - intros op Hop. destruct (Horg op Hop) as [(cl1 & a1 & Hl & Ha1 & Hr1 & Hi1)|(f & Hf & Hfr)].
    + destruct (decide (op_CkId op = c)) as [Ec|Hne].
      * rewrite Ec in Hl. simplify_eq. right. exists f0. split; [apply elem_of_app; right; by left|]. split; [|done].
        rewrite <- Hr1. done.
      * left. exists cl1, a1. by rewrite lookup_insert_ne.
    + right. exists f. split; [apply elem_of_app; by left|done].
  - intros c' cl' [[<- <-]|[Hne Hl]]%lookup_insert_Some.
    + split; simpl; [apply Hcl|apply Hcl| |done].
      intros f [Hf| ->%list_elem_of_singleton]%elem_of_app Hfc; unfold nextReq; simpl.
      * specialize (Hreq f Hf Hfc). lia.
      * simpl. lia.
    + destruct (Hcls c' cl' Hl) as [Hi Hseen Hd Hcall]. split; [done|done| |].
      * intros f [Hf| ->%list_elem_of_singleton]%elem_of_app Hfc; [by apply Hd|]. by simpl in Hfc.
      * intros a' Ha'. destruct (Hcall a' Ha') as [? ? ? Ht' (mk & Hm & Hold & Hno) Hs']. split; [done|done|done|lia| |done].
        exists mk. split_and!; [done| |done].
        intros f [Hf| ->%list_elem_of_singleton]%elem_of_app Hret; [by apply Hold|]. simpl in Hret. lia.
  - intros f [Hf| ->%list_elem_of_singleton]%elem_of_app.
    + destruct (Hdn f Hf) as [? ?]. split; [done|lia].
    + split; [done|simpl; lia].
  - intros f f' [Hf| ->%list_elem_of_singleton]%elem_of_app [Hf'| ->%list_elem_of_singleton]%elem_of_app Hret.
    + by apply Hrl.
    + by apply Hafter.
    + destruct (Hdn f' Hf'). simpl in Hret. lia.
    + simpl in Hret. lia.
  - rewrite fmap_app. apply NoDup_app. split_and!; [done| |apply NoDup_singleton].
    intros x (f & -> & Hf)%list_elem_of_fmap Hx%list_elem_of_singleton. injection Hx as E1 E2.
    specialize (Hreq f Hf E1). lia.
  - by rewrite Hrec, fmap_app.
Qed.

Lemma execClient_inv cr hist F w w' c cl act :
  worldInv cr hist F w → clients w !! c = Some cl → execClient c cl act w = Some w' →
  ∃ cr' hist' F', worldInv cr' hist' F' w'.
Proof.
  destruct w as [y cs nums t done]. intros HW Hc He. simpl in Hc.
  destruct act as [o|number|elapsed| |]; simpl in He; destruct (current cl) as [a|] eqn:Ha; try done.
  - destruct (clerkCall o (clerk cl)) as [ck args] eqn:Hck. injection He as <-. exists cr, hist, F. by eapply begin_inv.
  - destruct (cl_state a) eqn:Hst; try done. destruct (serverOf a y) as [[i kv]|] eqn:Hsv; [|done]. simpl in He.
    destruct (nodes (RaftNet.core (raft y)) !! i) as [[rf s]|] eqn:Hi; [|done]. simpl in He.
    destruct (decide (number ∈ nums)) as [|Hn]; [done|].
    destruct (result _) as [[rf' out]|] eqn:Hr; [|done]. simpl in He. injection He as <-.
    apply result_Some in Hr. apply serverOf_Some in Hsv.
    destruct (handle_inv _ _ _ _ _ _ _ _ _ _ _ _ _ _ _ _ _ _ HW Hc Ha Hsv Hi Hn Hr) as (cr' & hist' & HW'). eauto.
  - destruct (cl_state a) as [|op index| |] eqn:Hst; try done. destruct (serverOf a y) as [[i kv]|] eqn:Hsv; [|done].
    simpl in He. destruct (result _) as [r|] eqn:Hr; [|done]. apply result_Some in Hr. apply serverOf_Some in Hsv.
    simpl in He. exists cr, hist, F. destruct r as [reply|]; injection He as <-.
    + by eapply poll_inv.
    + eapply worldInv_same; [exact HW|done|by eauto|].
      destruct cl as [ck cur]. simpl in *. subst cur. apply (clientOk_move cr hist F t c (mkClient ck (Some a)) a a);
        [by apply (wi_clients _ _ _ _ HW)|done..|].
      pose proof (wi_clients _ _ _ _ HW c _ Hc) as Hok. by apply (cl_call _ _ _ _ _ _ Hok a eq_refl).
  - destruct (cl_state a) as [| |reply|] eqn:Hst; try done. simpl in He.
    destruct (decide (r_Err reply = ERR_OK)) as [Hok|Hno]; injection He as <-.
    + destruct (finish_inv _ _ _ _ _ _ _ _ _ _ _ _ (cl_server a) HW Hc Ha Hst Hok) as (F' & HW'). eauto.
    + exists cr, hist, F. by eapply retry_inv.
  - injection He as <-. exists cr, hist, F. by eapply retry_inv.
Qed.

(** *** The servers and the cluster act *)

Lemma loseAt_current i cl : clerk (loseAt i cl) = clerk cl ∧
  (loseAt i cl = cl ∨ ∃ a, current cl = Some a ∧ current (loseAt i cl) = Some (setState Lost a)).
Proof.
  unfold loseAt. destruct (current cl) as [a|]; [|auto]. destruct (cl_state a); auto.
  case_decide; [|auto]. split; [done|]. right. by exists a.
Qed.

Lemma lose_lookup ev cs c cl' : lose ev cs !! c = Some cl' →
  ∃ cl, cs !! c = Some cl ∧ (cl' = cl ∨ ∃ i, cl' = loseAt i cl).
Proof.
  destruct ev; simpl; eauto. intros (cl & <- & ?)%lookup_fmap_Some. eauto.
Qed.

Lemma lose_back ev cs c cl : cs !! c = Some cl →
  ∃ cl', lose ev cs !! c = Some cl' ∧ (cl' = cl ∨ ∃ i, cl' = loseAt i cl).
Proof. intros Hc. destruct ev; simpl; eauto. rewrite lookup_fmap, Hc. simpl. eauto. Qed.

Lemma clientOk_lose cr hist F t c cl i : clientOk cr hist F t c cl → clientOk cr hist F t c (loseAt i cl).
Proof.
  intros Hok. destruct (loseAt_current i cl) as [Ec [->|(a & Ha & Ea)]]; [done|].
  destruct Hok as [Hi Hseen Hd Hc]. unfold nextReq in Hd. rewrite Ha in Hd.
  split; rewrite ?Ec; [done|done|unfold nextReq; by rewrite Ea|]. intros x Hx. rewrite Ea in Hx. injection Hx as <-.
  destruct (Hc a Ha) as [? ? ? ? [mk ?] _]. split; try done. by exists mk.
Qed.

Lemma system_inv cr hist F y cs nums t done ev y' :
  worldInv cr hist F (mkWorld y cs nums t done) → sstep (services maxraftstate) true ev y y' →
  (∀ i x b, ev ≠ Starts i x b) → ∃ hist', worldInv cr hist' F (mkWorld y' (lose ev cs) nums (t + 1) done).
Proof.
  intros [Hs Hn Hv Ho Horg Hcl Hdn Hrl Hu Hrec] Hst Hev. simpl in *.
  destruct (sysInv_step _ _ _ _ _ [] Hs Hst) as (hist' & Hpre & Hs'); [destruct ev; try done; by edestruct Hev|].
  rewrite app_nil_r in Hs'. exists hist'. split; simpl; try done.
  - intros op Hop. destruct (Horg op Hop) as [(cl & a & Hl & Ha & Hr & Hi)|?]; [left|by right].
    destruct (lose_back ev cs _ _ Hl) as (cl' & Hl' & [->|[i ->]]); [by exists cl, a|].
    destruct (loseAt_current i cl) as [_ [E|(a' & Ha' & Ea)]].
    + exists (loseAt i cl), a. split_and!; [done|by rewrite E|done|done].
    + simplify_eq. by exists (loseAt i cl), (setState Lost a).
  - intros c cl' Hl. assert (∃ cl, cs !! c = Some cl ∧ (cl' = cl ∨ ∃ i, cl' = loseAt i cl)) as (cl & Hc & Hcl')
      by (by eapply lose_lookup).
    assert (clientOk cr hist' F (t + 1) c cl) as Hok.
    { eapply (clientOk_later cr cr hist hist'); [done|done|apply Z.le_succ_diag_r|done|by apply Hcl]. }
    destruct Hcl' as [->|[i ->]]; [done|by apply clientOk_lose].
  - intros f Hf. destruct (Hdn f Hf) as [He Ht]. split; [by eapply explained_longer|lia].
Qed.

Lemma worldInv_init ids w : world_init maxraftstate n ids w → worldInv [] [] [] w.
Proof.
  intros (Hy & Hc & Hn & Ht & Hr). split; rewrite ?Hr, ?Hn; try done.
  - by apply sysInv_init.
  - split; [constructor|]. by intros op ?%elem_of_nil.
  - by intros op ?%elem_of_nil.
  - intros c cl Hl. rewrite Hc in Hl. apply lookup_set_to_map in Hl as (c' & _ & [= <- <-]); [|by intros ? ? _ _ [= ->]].
    split; simpl; [done| | |done]; by intros ? ?%elem_of_nil.
  - by intros f ?%elem_of_nil.
  - by intros f f' ?%elem_of_nil.
  - constructor.
Qed.

Lemma reachable_worldInv ids w : world_reachable maxraftstate n ids w → ∃ cr hist F, worldInv cr hist F w.
Proof.
  intros (w0 & Hi & Hst). assert (∃ cr hist F, worldInv cr hist F w0) as HW by eauto using worldInv_init.
  clear Hi. induction Hst as [|w w1 w2 Hst _ IH]; [done|]. apply IH. destruct HW as (cr & hist & F & HW).
  destruct Hst as [c cl act w w1 Hc He|ev y y' cs nums t done Hst Hev]; [by eapply execClient_inv|].
  destruct (system_inv _ _ _ _ _ _ _ _ _ _ HW Hst Hev) as (hist' & ?). eauto.
Qed.

(** *** Operations that have not returned *)

(** A pending operation, as if it returned now. *)
Definition pendingOp (w : world) (v : Operation) : Prop :=
  ∃ c cl a, clients w !! c = Some cl ∧ current cl = Some a ∧
    v = mkOperation c (callInput a) (cl_time a) (mkKvOutput "") (clock w).

(** A pending write that has taken effect. *)
Record effective (hist : list KVRaft.Op) (F : list finishedOp) (w : world) (g : finishedOp) : Prop := {
  ef_pending : ∃ cl a, clients w !! ClientId (f_op g) = Some cl ∧ current cl = Some a ∧ f_req g = getReqNum (cl_args a) ∧
    f_op g = mkOperation (ClientId (f_op g)) (callInput a) (cl_time a) (mkKvOutput "") (clock w);
  ef_explained : explained hist g;
  ef_write : ¬ isRead g;
  ef_after : ∀ f, f ∈ F → Return (f_op f) < Call (f_op g) → (f_point f < f_point g)%nat;
}.

Lemma effective_exists cr hist F w c cl a : worldInv cr hist F w → clients w !! c = Some cl → current cl = Some a →
  KvModel.Op (callInput a) ≠ 0 → callRequest a ∈ requestOf <$> hist →
  ∃ g, effective hist F w g ∧ fRequest g = callRequest a.
Proof.
  intros HW Hc Ha Hop Hin. destruct w as [y cs nums t done].
  pose proof (cl_call _ _ _ _ _ _ (wi_clients _ _ _ _ HW c cl Hc) a Ha) as [Hargs Hid _ _ _ _]. simpl in *.
  destruct (answered_explained _ _ _ _ _ _ _ _ _ _ _ (mkReply ERR_OK "" 0) HW Hc Ha) as (k & Hex & Hafter); [|done|].
  - intros _. exists (length hist). rewrite take_ge by done. split_and!; [done|done|]. intros Ht.
    by apply argsOk_read in Ht.
  - eexists. split; [split; [|exact Hex|done|exact Hafter]|unfold fRequest, callRequest; simpl; by rewrite Hid].
    exists cl, a. done.
Qed.

(** The write of a client is in the history and has not returned. *)
Definition tookEffect (hist : list KVRaft.Op) (cl : client) : Prop :=
  match current cl with
  | Some a => KvModel.Op (callInput a) ≠ 0 ∧ callRequest a ∈ requestOf <$> hist
  | None => False
  end.

#[local] Instance tookEffect_dec hist cl : Decision (tookEffect hist cl).
Proof. unfold tookEffect. destruct (current cl); apply _. Defined.

Lemma effective_all cr hist F w L : worldInv cr hist F w → NoDup L.*1 →
  (∀ c cl, (c, cl) ∈ L → clients w !! c = Some cl) →
  ∃ G, (∀ g, g ∈ G → effective hist F w g ∧ ClientId (f_op g) ∈ L.*1) ∧ NoDup ((ClientId ∘ f_op) <$> G) ∧
    ∀ c cl a, (c, cl) ∈ L → current cl = Some a → KvModel.Op (callInput a) ≠ 0 →
      callRequest a ∈ requestOf <$> hist → ∃ g, g ∈ G ∧ fRequest g = callRequest a.
Proof.
  intros HW. induction L as [|[c cl] L IH]; intros Hnd HL.
  { exists []. split_and!; [by intros ? ?%elem_of_nil|constructor|by intros ? ? ? ?%elem_of_nil]. }
  rewrite fmap_cons in Hnd. apply NoDup_cons in Hnd as [Hc Hnd].
  destruct IH as (G & HG & HGn & Hcov); [done|intros; apply HL; by right|].
  assert (clients w !! c = Some cl) as Hl by (apply HL; by left).
  destruct (decide (tookEffect hist cl)) as [Hyes|Hno]; unfold tookEffect in *.
  - destruct (current cl) as [a|] eqn:Ha; [|done]. destruct Hyes as [Hop Hin].
    destruct (effective_exists _ _ _ _ _ _ _ HW Hl Ha Hop Hin) as (g & Hg & Hr).
    pose proof (co_id _ _ _ _ _ _ _ (cl_call _ _ _ _ _ _ (wi_clients _ _ _ _ HW c cl Hl) a Ha)) as Hid.
    assert (ClientId (f_op g) = c) as Ec by (unfold fRequest, callRequest in Hr; rewrite Hid in Hr; by injection Hr).
    exists (g :: G). split_and!.
    + intros g' [->|Hg']%elem_of_cons; rewrite fmap_cons; [split; [done|rewrite Ec; by left]|].
      destruct (HG g' Hg'). split; [done|by right].
    + rewrite fmap_cons. apply NoDup_cons. split; [|done]. intros (g' & E & Hg')%list_elem_of_fmap.
      apply Hc. simpl in E. rewrite <- Ec, E. by apply HG.
    + intros c' cl' a' [[= -> ->]|Hin']%elem_of_cons Ha' Hop' Hr'.
      * simplify_eq. exists g. split; [by left|done].
      * destruct (Hcov c' cl' a' Hin' Ha' Hop' Hr') as (g' & ? & ?). exists g'. split; [by right|done].
  - exists G. split_and!; [|done|].
    + intros g Hg. rewrite fmap_cons. destruct (HG g Hg). split; [done|by right].
    + intros c' cl' a' [[= -> ->]|Hin']%elem_of_cons Ha' Hop' Hr'; [|by eapply Hcov].
      exfalso. apply Hno. rewrite Ha'. done.
Qed.

(** C2: [kvraft] is linearizable, in the runs of [wstep]. There calls fail before
    or after the handler has run, servers crash and start again, take and install
    snapshots, and messages between the servers are lost, delayed, repeated and
    reordered; but no handler runs after its call has failed, which the network
    does not ensure when it cuts off a client ([LabRPC.executed_after_failure];
    the history then need not be linearizable, [late_request_appends_twice]), no
    new peer accepts a fix package after an entry 1 of another leader
    ([firstChecked]), the clerks have different identifiers, and [nrand] never
    gives a number twice. The operations that have returned, together with some
    that have not, each at most once and as if they returned now, form a
    linearizable history, and the model of the tests accepts each of its parts. If
    every operation has returned, that is the history the tests record. The steps
    of the servers and the network are those of [nstep], with its guards. *)
Theorem kvraft_linearizable ids w : world_reachable maxraftstate n ids w →
  ∃ extra, (∀ v, v ∈ extra → pendingOp w v) ∧ NoDup (ClientId <$> extra) ∧
    linearizable (recorded w ++ extra) ∧ Forall partLinearizable (Partition (recorded w ++ extra)).
Proof.
  intros (cr & hist & F & HW)%reachable_worldInv.
  destruct (effective_all cr hist F w (map_to_list (clients w)) HW) as (G & HG & HGn & Hcov).
  { apply NoDup_fst_map_to_list. }
  { intros c cl. by rewrite elem_of_map_to_list. }
  assert (∀ g, g ∈ G → effective hist F w g) as Heff by (intros g Hg; by apply HG).
  exists (f_op <$> G). split; [|split; [by rewrite <- list_fmap_compose|]].
  { intros v (g & -> & Hg)%list_elem_of_fmap. destruct (ef_pending _ _ _ _ (Heff g Hg)) as (cl & a & Hl & Ha & _ & E).
    exists (ClientId (f_op g)), cl, a. done. }
  assert (linearizable (recorded w ++ (f_op <$> G))) as Hlin; [|split; [done|by apply linearizable_parts]].
  rewrite (wi_recorded _ _ _ _ HW), <- fmap_app.
  assert (hist `sublist_of` cr) as Hsub by eapply si_sublist, (wi_sys _ _ _ _ HW).
  assert (∀ g, g ∈ G → Call (f_op g) < Return (f_op g) ∧ Return (f_op g) = clock w) as Hret.
  { intros g Hg. destruct (ef_pending _ _ _ _ (Heff g Hg)) as (cl & a & Hl & Ha & _ & E).
    pose proof (co_time _ _ _ _ _ _ _ (cl_call _ _ _ _ _ _ (wi_clients _ _ _ _ HW _ _ Hl) a Ha)) as Ht.
    rewrite E. simpl. done. }
  eapply (explained_linearizable hist).
  - apply Forall_forall. intros op Hop. pose proof (wi_valid _ _ _ _ HW) as Hv. rewrite Forall_forall in Hv.
    apply Hv. by eapply elem_of_sublist.
  - intros f [Hf|Hf]%elem_of_app; [by apply (wi_done _ _ _ _ HW)|by apply (ef_explained _ _ _ _ (Heff f Hf))].
  - intros f f' [Hf|Hf]%elem_of_app [Hf'|Hf']%elem_of_app Hlt.
    + by apply (wi_real _ _ _ _ HW).
    + by apply (ef_after _ _ _ _ (Heff f' Hf')).
    + destruct (Hret f Hf) as [_ E]. destruct (wi_done _ _ _ _ HW f' Hf') as [_ ?]. lia.
    + destruct (Hret f Hf) as [_ E], (Hret f' Hf') as [? E']. lia.
  - rewrite fmap_app. apply NoDup_app. split_and!; [apply HW| |].
    + intros x (f & -> & Hf)%list_elem_of_fmap (g & E & Hg)%list_elem_of_fmap.
      destruct (ef_pending _ _ _ _ (Heff g Hg)) as (cl & a & Hl & Ha & Er & _). injection E as E1 E2.
      pose proof (cl_done _ _ _ _ _ _ (wi_clients _ _ _ _ HW _ _ Hl) f Hf E1) as Hd. unfold nextReq in Hd.
      rewrite Ha in Hd. lia.
    + eapply (NoDup_fmap_1 fst). by rewrite <- list_fmap_compose.
  - intros op Hop Htype. assert (op ∈ cr) as Hcr by (by eapply elem_of_sublist).
    assert (KvModel.Op (kvraftInput op) ≠ 0) as Hw.
    { unfold kvraftInput. simpl. rewrite decide_False by done. by case_decide. }
    destruct (wi_origin _ _ _ _ HW op Hcr) as [(cl & a & Hl & Ha & Hr & Hi)|(f & Hf & Hr & Hi)].
    + destruct (Hcov (op_CkId op) cl a) as (g & Hg & Hgr); [by apply elem_of_map_to_list|done|by rewrite Hi| |].
      { rewrite Hr. by apply list_elem_of_fmap_2. }
      exists g. split_and!; [apply elem_of_app; by right|by apply (ef_write _ _ _ _ (Heff g Hg))|congruence].
    + exists f. split_and!; [apply elem_of_app; by left| |done]. unfold isRead. by rewrite Hi.
Qed.

End servers.

(** ** Schedules *)

Section schedules.
Context `{Codec (@persistent KVRaft.Op)} `{Codec KVRaft.Snapshot}.
Context (maxraftstate : Z).

Inductive worldAct :=
| Sys (a : RaftNet.action KVRaft.Op)
| Client (c : Z) (act : clientAct).

Definition execWorld (a : worldAct) (w : world) : option world :=
  match a with
  | Sys (A_Start _ _) => None
  | Sys a =>
      y' ← execSystem (services maxraftstate) true a (kvs w);
      Some (mkWorld y' (lose (eventOf a (raft (kvs w))) (clients w)) (numbers w) (clock w + 1) (recorded w))
  | Client c act => cl ← clients w !! c; execClient c cl act w
  end.

Fixpoint runWorld (acts : list worldAct) (w : world) : option world :=
  match acts with
  | [] => Some w
  | a :: acts => w' ← execWorld a w; runWorld acts w'
  end.

Lemma eventOf_starts (a : RaftNet.action KVRaft.Op) c i x b : eventOf a c = Starts i x b → ∃ k y, a = A_Start k y.
Proof. destruct a; simpl; intros He; try (by eauto); repeat case_match; simplify_eq. Qed.

Lemma execWorld_step a w w' : execWorld a w = Some w' → wstep maxraftstate w w'.
Proof.
  destruct w as [y cs nums t done]. destruct a as [a|c act]; simpl; intros He.
  - assert (∀ k x, a ≠ A_Start k x) as Hns by (intros k x ->; done).
    assert (∃ y', execSystem (services maxraftstate) true a y = Some y' ∧
      w' = mkWorld y' (lose (eventOf a (raft y)) cs) nums (t + 1) done) as (y' & Hy & ->).
    { destruct a; try done; destruct (execSystem _ _ _ _) as [y'|]; simplify_eq/=; eauto. }
    apply w_system; [by apply execSystem_sstep|]. intros i x b He'. apply eventOf_starts in He' as (k & z & ->). by eapply Hns.
  - destruct (cs !! c) as [cl|] eqn:Hc; [|done]. simpl in He. by eapply w_client.
Qed.

Lemma runWorld_steps acts w w' : runWorld acts w = Some w' → rtc (wstep maxraftstate) w w'.
Proof.
  revert w. induction acts as [|a acts IH]; intros w Hr; simplify_option_eq; [done|].
  eapply rtc_l; [by eapply execWorld_step|]. by apply IH.
Qed.

End schedules.

(** ** Requests that come late

    [LabRPC.executed_after_failure]: when a call fails because the client has been
    cut off, its handler may not have run yet, and may run later.  [kvraft_linearizable]
    leaves this out; here it is allowed. *)

Section late.
Context `{Codec (@persistent KVRaft.Op)} `{Codec KVRaft.Snapshot}.
Context (maxraftstate : Z).

(** The handler of a call whose clerk no longer waits. *)
Definition execLate (a : call) (number : Z) (w : world) : option world :=
  let '(mkWorld y cs nums t done) := w in
  '(i, kv) ← serverOf a y;
  '(rf, s) ← nodes (RaftNet.core (raft y)) !! i;
  if decide (number ∈ nums) then None
  else
    '(rf', _) ← result (handleNormalRPC number (cl_args a) (cl_type a) kv rf);
    Some (mkWorld (setPeer i rf' s y) cs ({[number]} ∪ nums) (t + 1) done).

(** The world and the calls that failed before their handlers ran. *)
Inductive lstep : world * list call → world * list call → Prop :=
| l_step w w' late : wstep maxraftstate w w' → lstep (w, late) (w', late)
| l_break c cl a w w' late : clients w !! c = Some cl → current cl = Some a → cl_state a = NotRun →
    execClient c cl Break w = Some w' → lstep (w, late) (w', a :: late)
| l_late a number w w' late : a ∈ late → execLate a number w = Some w' → lstep (w, late) (w', late).

Definition late_reachable (n : nat) (ids : gset Z) (w : world) : Prop :=
  ∃ w0 late, world_init maxraftstate n ids w0 ∧ rtc lstep (w0, []) (w, late).

(** Schedules: [Give c] is [Break] with the handler still to run, [Late k number]
    runs the handler of the [k]-th such call. *)
Inductive lateAct :=
| Act (a : worldAct)
| Give (c : Z)
| Late (k : nat) (number : Z).

Definition execLateAct (a : lateAct) (x : world * list call) : option (world * list call) :=
  let '(w, late) := x in
  match a with
  | Act a => w' ← execWorld maxraftstate a w; Some (w', late)
  | Give c =>
      cl ← clients w !! c; a ← current cl;
      match cl_state a with NotRun => w' ← execClient c cl Break w; Some (w', a :: late) | _ => None end
  | Late k number => a ← late !! k; w' ← execLate a number w; Some (w', late)
  end.

Fixpoint runLate (acts : list lateAct) (x : world * list call) : option (world * list call) :=
  match acts with
  | [] => Some x
  | a :: acts => x' ← execLateAct a x; runLate acts x'
  end.

Lemma execLateAct_step a x x' : execLateAct a x = Some x' → lstep x x'.
Proof.
  destruct x as [w late]. destruct a as [a|c|k number]; simpl; intros He.
  - destruct (execWorld maxraftstate a w) as [w'|] eqn:Hw; [|done]. injection He as <-.
    apply l_step. by eapply execWorld_step.
  - destruct (clients w !! c) as [cl|] eqn:Hc; [|done]. simpl in He.
    destruct (current cl) as [a|] eqn:Ha; [|done]. simpl in He. destruct (cl_state a) eqn:Hst; try done.
    destruct (execClient c cl Break w) as [w'|] eqn:Hw; [|done]. injection He as <-. by eapply l_break.
  - destruct (late !! k) as [a|] eqn:Hk; [|done]. simpl in He.
    destruct (execLate a number w) as [w'|] eqn:Hw; [|done]. injection He as <-.
    eapply l_late; [by eapply list_elem_of_lookup_2|exact Hw].
Qed.

Lemma runLate_steps acts x x' : runLate acts x = Some x' → rtc lstep x x'.
Proof.
  revert x. induction acts as [|a acts IH]; intros x Hr; simplify_option_eq; [done|].
  eapply rtc_l; [by eapply execLateAct_step|]. by apply IH.
Qed.

End late.

(** ** An example

    Client 7 appends while client 8 reads the same key; client 7 first calls
    server 1, which is not the leader, and its first reply from the leader is
    lost.  *)
Section example.
#[local] Existing Instance anyCodec.
#[local] Existing Instance anyCodec_laws.

Definition world0 : world :=
  mkWorld (system0 (services (-1))) (set_to_map (λ c, (c, mkClient (MakeClerk 3 c) None)) ({[7; 8]} : gset Z)) ∅ 0 [].

Definition electZero : list (RaftNet.action KVRaft.Op) :=
  [A_Timeout 0 sec; A_Campaign 0; A_Vote 1 0 sec; A_Count 0 0; A_Promote 0].

(** The leader replicates its log on peer 1 and applies it. *)
Definition commitAll : list (RaftNet.action KVRaft.Op) :=
  [A_Sync 0; A_Append 1 0 sec; A_Success 0 0; A_Commit 0; A_Apply 0].

Definition demoRun : list worldAct :=
  (Sys <$> electZero) ++
  [Client 7 (Begin (CAppend "x" "a")); Client 8 (Begin (CGet "x")); Client 7 (Handle 100)] ++
  (Sys <$> commitAll) ++ [Sys (A_Send 0); Client 7 (Poll 0); Client 8 (Handle 101)] ++
  (Sys <$> commitAll) ++ [Sys (A_Send 0); Client 8 (Poll 0); Client 8 Finish; Client 7 Break; Client 7 (Handle 102);
   Client 7 Finish; Client 7 Break; Client 7 (Handle 103); Client 7 Finish].

Definition demo : world := default world0 (runWorld (-1) demoRun world0).

Lemma demo_reachable : world_reachable (-1) 3 {[7; 8]} demo.
Proof.
  exists world0. split.
  - split; [apply system0_init|done].
  - apply runWorld_steps with demoRun. vm_compute. reflexivity.
Qed.

(** No operation is pending. *)
Definition allIdle (w : world) : bool :=
  forallb (λ p, match current p.2 with None => true | Some _ => false end) (map_to_list (clients w)).

Lemma allIdle_current w c cl : allIdle w = true → clients w !! c = Some cl → current cl = None.
Proof.
  unfold allIdle. intros Hidle Hc. apply elem_of_map_to_list, list_elem_of_In in Hc.
  rewrite forallb_forall in Hidle. specialize (Hidle _ Hc). simpl in Hidle. by destruct (current cl).
Qed.

Lemma idle_linearizable w extra : allIdle w = true → (∀ v, v ∈ extra → pendingOp w v) →
  linearizable (recorded w ++ extra) → linearizable (recorded w).
Proof.
  intros Hidle Hp Hl. destruct extra as [|v extra]; [by rewrite app_nil_r in Hl|]. exfalso.
  destruct (Hp v) as (c & cl & a & Hc & Ha & _); [by left|]. pose proof (allIdle_current _ _ _ Hidle Hc). congruence.
Qed.

(** No order of the operations is accepted. *)
Lemma not_linearizable history : forallb (λ l, negb (storeAccepts ∅ l)) (permutations history) = true →
  ¬ linearizable history.
Proof.
  intros Hno (l & Hl & _ & Hacc). symmetry in Hl. apply permutations_Permutation, list_elem_of_In in Hl.
  rewrite forallb_forall in Hno. specialize (Hno _ Hl). by rewrite Hacc in Hno.
Qed.

Lemma kvraft_linearizable_witness : linearizable (recorded demo) ∧
  recorded demo = [mkOperation 8 (mkKvInput 0 "x" "") 6 (mkKvOutput "a") 23;
                   mkOperation 7 (mkKvInput 2 "x" "a") 5 (mkKvOutput "") 29].
Proof.
  split; [|vm_compute; reflexivity].
  destruct (kvraft_linearizable (-1) 3 {[7; 8]} demo demo_reachable) as (extra & Hp & _ & Hl & _).
  assert (allIdle demo = true) as Hidle by (vm_compute; reflexivity).
  exact (idle_linearizable demo extra Hidle Hp Hl).
Defined.

(** Client 7 appends "a"; its first call fails, and the handler has not run.  It
    appends "b": the operation is committed, but the reply is lost.  Now the first
    handler runs, and the session of the client goes back to its first request:
    when the client asks again, "b" is appended again. *)
Definition lateRun : list lateAct :=
  (Act ∘ Sys <$> electZero) ++
  (Act <$> [Client 7 (Begin (CAppend "x" "a"))]) ++ [Give 7] ++
  (Act <$> [Client 7 Break; Client 7 Break; Client 7 (Handle 100)] ++ (Sys <$> commitAll) ++
    [Sys (A_Send 0); Client 7 (Poll 0); Client 7 Finish; Client 7 (Begin (CAppend "x" "b")); Client 7 (Handle 101)] ++
    (Sys <$> commitAll) ++ [Sys (A_Send 0); Client 7 Break]) ++
  [Late 0 102] ++
  (Act <$> (Sys <$> commitAll) ++ [Sys (A_Send 0); Client 7 Break; Client 7 Break; Client 7 (Handle 103)] ++
    (Sys <$> commitAll) ++ [Sys (A_Send 0); Client 7 (Poll 0); Client 7 Finish;
    Client 7 (Begin (CGet "x")); Client 7 (Handle 104)] ++
    (Sys <$> commitAll) ++ [Sys (A_Send 0); Client 7 (Poll 0); Client 7 Finish]).

Definition lateWorld : world := (default (world0, []) (runLate (-1) lateRun (world0, []))).1.

(** C26: a handler that runs after its call has failed breaks linearizability: an
    append takes effect twice.  In this run every operation has returned, one
    client has appended "a", then "b", and reads "abb". *)
Theorem late_request_appends_twice : late_reachable (-1) 3 {[7; 8]} lateWorld ∧
  OutValue ∘ Output <$> recorded lateWorld = [""; ""; "abb"] ∧
  (∀ c cl, clients lateWorld !! c = Some cl → current cl = None) ∧ ¬ linearizable (recorded lateWorld).
Proof.
  split; [|split; [vm_compute; reflexivity|split]].
  - exists world0. eexists. split; [split; [apply system0_init|done]|].
    apply runLate_steps with lateRun. vm_compute. reflexivity.
  - intros c cl. apply allIdle_current. vm_compute. reflexivity.
  - apply not_linearizable. vm_compute. reflexivity.
Qed.

End example.

