(* ===== verification/MapReduce.v ===== *)
(** * MapReduce: the data path of a worker ([src/mr/worker.go])

    What a worker does with the data of a map task ([do_mapf]) and of a reduce
    task ([do_reducef]), and the sequential program [main/mrsequential.go], which
    the labs use as the reference.  The map and reduce functions come from a
    plugin and are parameters; so is [sort.Sort], which is not stable, with the
    order it promises as its law.  An intermediate file is the list of the pairs
    that [encoding/json] writes to it and reads back. *)

From stdpp Require Import pretty.
From S2P Require Import Prelude.
Local Open Scope Z_scope.

Record KeyValue := mkKV { Key : string; Value : string }.

#[export] Instance KeyValue_eq_dec : EqDecision KeyValue.
Proof. solve_decision. Defined.

(** [ByKey.Less] *)
Definition Less (a b : KeyValue) : bool := String.ltb (Key a) (Key b).

(** [sort.Sort(ByKey(l))] *)
Class ByKeySort (sort : list KeyValue → list KeyValue) : Prop := {
  sort_perm l : sort l ≡ₚ l;
  sort_sorted l : Sorted (λ a b, Less b a = false) (sort l);
}.

(** ** [ihash]: the 32-bit FNV-1a hash without its top bit *)

Definition fnv32a (key : string) : Z :=
  foldl (λ h c, Z.lxor h (Z.of_N (Ascii.N_of_ascii c)) * 16777619 mod 2 ^ 32)
    2166136261 (String.list_ascii_of_string key).

Definition ihash (key : string) : Z := Z.land (fnv32a key) 0x7fffffff.

Example ihash_a : ihash "a" = 0x640c292c.
Proof. reflexivity. Qed.

(** ** The files of the working directory

    [Tmp w m r] is [mr-tmp-w-m-r], [Inter m r] is [mr-m-r]. *)
Inductive fname := Tmp (w m r : Z) | Inter (m r : Z).

#[export] Instance fname_eq_dec : EqDecision fname.
Proof. solve_decision. Defined.
#[export] Instance fname_countable : Countable fname.
Proof.
  apply (inj_countable' (λ f, match f with Tmp w m r => inl (w, m, r) | Inter m r => inr (m, r) end)
           (λ x, match x with inl (w, m, r) => Tmp w m r | inr (m, r) => Inter m r end)).
  by intros [].
Defined.

Abbreviation fileMap := (gmap fname (list KeyValue)).

Section worker.
  Context (sort : list KeyValue → list KeyValue).
  Context (mapf : string → string → list KeyValue) (reducef : string → list string → string).

(** ** [do_mapf] *)

(** The pairs that go to reduce task [i]. *)
Definition bucket (nReduce i : Z) (mrKVs : list KeyValue) : list KeyValue :=
  filter (λ kv, ihash (Key kv) mod nReduce = i) mrKVs.

(** The temporary file for reduce task [i]. *)
Definition writeTmp (nReduce id workId : Z) (mrKVs : list KeyValue) (fs : fileMap) (i : Z) : fileMap :=
  <[Tmp id workId i := bucket nReduce i mrKVs]> fs.

(** The first part: map the file and write the temporary files. *)
Definition do_mapf_write (nReduce id workId : Z) (path content : string) (fs : fileMap) : fileMap :=
  let mrKVs := sort (mapf path content) in
  foldl (writeTmp nReduce id workId mrKVs) fs (seqZ 0 nReduce).

(** The last part, when the coordinator has accepted the report: every temporary
    file of this worker gets its final name. *)
Definition renameOne (id : Z) (fs : fileMap) (name : fname) : fileMap :=
  match name with
  | Tmp w m r =>
      if decide (w = id) then
        match fs !! name with
        | Some data => <[Inter m r := data]> (delete name fs)
        | None => fs
        end
      else fs
  | Inter _ _ => fs
  end.

Definition do_mapf_rename (id : Z) (dir : list fname) (fs : fileMap) : fileMap :=
  foldl (renameOne id) fs dir.

(** ** [do_reducef] *)

(** The pairs of a file that the pattern [mr-(\d+)-workId] matches. *)
Definition readOne (workId : Z) (fs : fileMap) (name : fname) : list KeyValue :=
  match name with
  | Inter m r => if decide (r = workId) then default [] (fs !! name) else []
  | Tmp _ _ _ => []
  end.

(** Those of all files, in the order of the directory. *)
Definition readInter (workId : Z) (dir : list fname) (fs : fileMap) : list KeyValue :=
  concat (map (readOne workId fs) dir).

(** The inner loops: the values of the pairs that follow with the same key, and
    the pairs after them. *)
Fixpoint sameKey (key : string) (kva : list KeyValue) : list string * list KeyValue :=
  match kva with
  | kv :: rest =>
      if decide (Key kv = key)
      then let '(values, others) := sameKey key rest in (Value kv :: values, others)
      else ([], kva)
  | [] => ([], [])
  end.

Definition newline : string := String (Ascii.ascii_of_nat 10) "".
Definition outputLine (key output : string) : string := key +:+ " " +:+ output +:+ newline.

(** The loop over the groups; every iteration takes at least one pair. *)
Fixpoint reduceLoop (fuel : nat) (kva : list KeyValue) : outcome (list string) :=
  match fuel with
  | O => OutOfFuel
  | S fuel =>
      match kva with
      | [] => mret []
      | kv :: rest =>
          let '(values, others) := sameKey (Key kv) rest in
          lines ← reduceLoop fuel others;
          mret (outputLine (Key kv) (reducef (Key kv) (Value kv :: values)) :: lines)
      end
  end.

Definition reduceAll (kva : list KeyValue) : outcome (list string) :=
  let kva := sort kva in reduceLoop (S (length kva)) kva.

(** The lines of [mr-out-workId]. *)
Definition do_reducef (workId : Z) (dir : list fname) (fs : fileMap) : outcome (list string) :=
  reduceAll (readInter workId dir fs).

(** ** [main/mrsequential.go] *)

Definition mrsequential (inputs : list (string * string)) : outcome (list string) :=
  reduceAll (concat (map (λ '(filename, content), mapf filename content) inputs)).

End worker.

(** ** The order of keys *)

Definition leKey (a b : KeyValue) : Prop := String.le (Key a) (Key b).

Lemma Less_false a b : Less b a = false → leKey a b.
Proof.
  unfold Less, leKey, String.le, String.ltb, String.leb. rewrite String.compare_antisym.
  by destruct (String.compare (Key a) (Key b)).
Qed.

#[export] Instance leKey_trans : Transitive leKey.
Proof. intros a b c. unfold leKey. apply transitivity. Qed.

Lemma sort_strongly (sort : list KeyValue → list KeyValue) `{!ByKeySort sort} l :
  StronglySorted leKey (sort l).
Proof.
  apply Sorted_StronglySorted; [apply _|]. generalize (sort_sorted l).
  induction 1 as [|a l' _ IH Hhd]; constructor; [done|].
  destruct Hhd; constructor. by apply Less_false.
Qed.

(** ** The loop over the groups *)

Definition valuesOf (k : string) (l : list KeyValue) : list string :=
  Value <$> filter (λ kv, Key kv = k) l.

Lemma valuesOf_app k l l' : valuesOf k (l ++ l') = valuesOf k l ++ valuesOf k l'.
Proof. unfold valuesOf. by rewrite filter_app, fmap_app. Qed.

Lemma valuesOf_all k l : Forall (λ kv, Key kv = k) l → valuesOf k l = Value <$> l.
Proof.
  intros Hl. unfold valuesOf. f_equal.
  induction Hl as [|kv l Hkv _ IH]; [done|]. rewrite filter_cons_True by done. by f_equal.
Qed.

Lemma valuesOf_none k l : Forall (λ kv, Key kv ≠ k) l → valuesOf k l = [].
Proof.
  intros Hl. unfold valuesOf.
  induction Hl as [|kv l Hkv _ IH]; [done|]. by rewrite filter_cons_False.
Qed.

#[export] Instance valuesOf_proper k : Proper ((≡ₚ) ==> (≡ₚ)) (valuesOf k).
Proof. intros l l' Hl. unfold valuesOf. by rewrite Hl. Qed.

Lemma sameKey_spec key l : ∃ same others,
  sameKey key l = (Value <$> same, others) ∧ l = same ++ others ∧
  Forall (λ kv, Key kv = key) same ∧ (∀ kv, head others = Some kv → Key kv ≠ key).
Proof.
  induction l as [|kv l (same & others & Hs & -> & Hall & Hhd)]; [by exists [], []|]. simpl.
  rewrite Hs. case_decide as Hk.
  - exists (kv :: same), others. split; [done|]. split; [done|]. split; [by constructor|done].
  - exists [], (kv :: same ++ others). split; [done|]. split; [done|]. split; [done|]. naive_solver.
Qed.

(** What follows the group of a key has no more pairs of that key. *)
Lemma others_differ kv same others :
  StronglySorted leKey (kv :: same ++ others) →
  (∀ x, head others = Some x → Key x ≠ Key kv) → Forall (λ x, Key x ≠ Key kv) others.
Proof.
  intros Hss Hhd. apply StronglySorted_inv in Hss as [Hss Hle].
  apply StronglySorted_app_1_r in Hss. apply Forall_app in Hle as [_ Hle].
  destruct others as [|x others]; [done|]. specialize (Hhd x eq_refl).
  apply Forall_cons in Hle as [Hx _]. apply StronglySorted_inv in Hss as [_ Hall].
  constructor; [done|]. eapply Forall_impl; [exact Hall|]. intros y Hy Heq. apply Hhd.
  unfold leKey in *. rewrite Heq in Hy. by apply (anti_symm String.le).
Qed.

Section reduce.
  Context (sort : list KeyValue → list KeyValue) `{!ByKeySort sort}.
  Context (reducef : string → list string → string).
  (** The result of the reduce function does not depend on the order of the
      values: MapReduce gives no order either. *)
  Context (reducef_perm : ∀ k vs vs', vs ≡ₚ vs' → reducef k vs = reducef k vs').

(** The line of a key. *)
Definition lineOf (l : list KeyValue) (k : string) : string :=
  outputLine k (reducef k (valuesOf k l)).

Lemma reduceLoop_spec fuel l : StronglySorted leKey l → (length l < fuel)%nat →
  ∃ ks, NoDup ks ∧ (∀ k, k ∈ ks ↔ k ∈ Key <$> l) ∧ StronglySorted String.le ks ∧
    reduceLoop reducef fuel l = Ret (lineOf l <$> ks).
Proof.
  revert l. induction fuel as [|fuel IH]; intros l Hss Hlen; [lia|].
  destruct l as [|kv rest]; [by exists []; split_and!; [constructor|done|constructor|]|]. simpl.
  destruct (sameKey_spec (Key kv) rest) as (same & others & -> & -> & Hsame & Hhd).
  pose proof (others_differ _ _ _ Hss Hhd) as Hoth.
  destruct (IH others) as (ks & Hnd & Hks & Hkss & ->).
  { apply StronglySorted_inv in Hss as [Hss _]. by apply StronglySorted_app_1_r in Hss. }
  { simpl in Hlen. rewrite length_app in Hlen. lia. }
  assert (Key kv ∉ ks) as Hnin.
  { rewrite Hks. intros (x & Hx & Hin)%list_elem_of_fmap. rewrite Forall_forall in Hoth. by apply (Hoth x). }
  exists (Key kv :: ks). split; [by constructor|]. split; [|split].
  - intros k. rewrite fmap_app, elem_of_cons, !elem_of_cons, elem_of_app, Hks. split; [tauto|].
    intros [?|[(x & -> & Hx)%list_elem_of_fmap|?]]; [tauto| |tauto].
    left. rewrite Forall_forall in Hsame. by apply Hsame.
  - apply StronglySorted_inv in Hss as [_ Hle]. constructor; [done|]. apply Forall_forall.
    intros k (x & -> & Hx)%Hks%list_elem_of_fmap. rewrite Forall_forall in Hle. apply Hle. set_solver.
  - rewrite bind_Ret. unfold mret, outcome_mret. rewrite fmap_cons. f_equal. f_equal.
    + unfold lineOf. f_equal. f_equal. change (kv :: same ++ others) with ([kv] ++ same ++ others).
      rewrite !valuesOf_app, (valuesOf_none _ others), (valuesOf_all _ same), app_nil_r by done.
      unfold valuesOf. rewrite filter_cons_True by done. done.
    + apply list_fmap_ext. intros i k Hk. apply list_elem_of_lookup_2 in Hk.
      unfold lineOf. f_equal. f_equal. change (kv :: same ++ others) with ([kv] ++ same ++ others).
      rewrite !valuesOf_app, (valuesOf_none k same), (valuesOf_none k [kv]); [done| |].
      * repeat constructor. intros Heq. apply Hnin. by rewrite Heq.
      * eapply Forall_impl; [exact Hsame|]. intros x Hx Heq. apply Hnin. by rewrite <- Hx, Heq.
Qed.

Lemma lineOf_perm l l' k : l ≡ₚ l' → lineOf l k = lineOf l' k.
Proof. intros Hl. unfold lineOf. f_equal. apply reducef_perm. by rewrite Hl. Qed.

(** Sorting and reducing gives one line for each key. *)
Lemma reduceAll_spec l :
  ∃ ks, NoDup ks ∧ (∀ k, k ∈ ks ↔ k ∈ Key <$> l) ∧ reduceAll sort reducef l = Ret (lineOf l <$> ks).
Proof.
  destruct (reduceLoop_spec (S (length (sort l))) (sort l)) as (ks & Hnd & Hks & _ & Hr);
    [by apply sort_strongly|lia|].
  exists ks. split; [done|]. split; [intros k; rewrite Hks; by rewrite (sort_perm l)|].
  unfold reduceAll. rewrite Hr. f_equal. apply list_fmap_ext. intros i k _.
  apply lineOf_perm, sort_perm.
Qed.

(** The lines do not depend on the order in which the pairs were read. *)
Lemma reduceAll_perm l l' : l ≡ₚ l' → reduceAll sort reducef l = reduceAll sort reducef l'.
Proof.
  intros Hp. unfold reduceAll. set (s := sort l). set (s' := sort l').
  assert (s ≡ₚ s') as Hs by (unfold s, s'; by rewrite !sort_perm).
  destruct (reduceLoop_spec (S (length s)) s) as (ks & Hnd & Hks & Hss & ->); [by apply sort_strongly|lia|].
  destruct (reduceLoop_spec (S (length s')) s') as (ks' & Hnd' & Hks' & Hss' & ->); [by apply sort_strongly|lia|].
  assert (ks = ks') as <-.
  { apply (StronglySorted_unique String.le); [done|done|]. apply NoDup_Permutation; [done|done|].
    intros k. by rewrite Hks, Hks', Hs. }
  f_equal. apply list_fmap_ext. intros i k _. by apply lineOf_perm.
Qed.
End reduce.

(** ** The map phase *)

Section phase.
  Context (sort : list KeyValue → list KeyValue).
  Context (mapf : string → string → list KeyValue).
  Context (inputs : list (string * string)) (nReduce : Z).

(** Map tasks [done] have been executed and accepted, by any workers, some
    perhaps more than once; every worker sees the directory in some order. *)
Inductive mapped : list nat → fileMap → Prop :=
| mapped_none : mapped [] ∅
| mapped_task id m path content dir done fs :
    mapped done fs → inputs !! m = Some (path, content) →
    (∀ f, f ∈ dir ↔ is_Some (do_mapf_write sort mapf nReduce id (Z.of_nat m) path content fs !! f)) →
    mapped (m :: done)
      (do_mapf_rename id dir (do_mapf_write sort mapf nReduce id (Z.of_nat m) path content fs)).

(** What map task [m] leaves for reduce task [r]. *)
Definition output (r : Z) (input : string * string) : list KeyValue :=
  bucket nReduce r (sort (mapf input.1 input.2)).

Lemma write_lookup id m path content fs f :
  do_mapf_write sort mapf nReduce id m path content fs !! f =
  match f with
  | Tmp w m' r => if decide (w = id ∧ m' = m ∧ 0 ≤ r < nReduce)
                  then Some (output r (path, content)) else fs !! f
  | Inter _ _ => fs !! f
  end.
Proof.
  unfold do_mapf_write, output. simpl. generalize (sort (mapf path content)). intros kvs.
  assert (∀ l (fs : fileMap), foldl (writeTmp nReduce id m kvs) fs l !! f =
    match f with
    | Tmp w m' r => if decide (w = id ∧ m' = m ∧ r ∈ l) then Some (bucket nReduce r kvs) else fs !! f
    | Inter _ _ => fs !! f
    end) as Hl.
  { intros l. induction l as [|i l IH]; intros fs'; cbn [foldl].
    - destruct f; [|done]. by rewrite decide_False by (rewrite elem_of_nil; tauto).
    - rewrite IH. unfold writeTmp. destruct f as [w m' r|]; [|by rewrite lookup_insert_ne].
      destruct (decide (Tmp id m i = Tmp w m' r)) as [[= <- <- <-]|Hne].
      + rewrite lookup_insert_eq, (decide_True (P := _ ∧ _ ∧ i ∈ i :: l)) by set_solver. by case_decide.
      + rewrite lookup_insert_ne by done. apply decide_ext. set_solver. }
  rewrite Hl. destruct f; [|done]. apply decide_ext. rewrite elem_of_seqZ. tauto.
Qed.

Lemma renameOne_lookup id fs g f :
  renameOne id fs g !! f =
  match f with
  | Tmp w m r => if decide (w = id ∧ f = g) then None else fs !! f
  | Inter m r => if decide (Tmp id m r = g) then union (fs !! Tmp id m r) (fs !! f) else fs !! f
  end.
Proof using.
  clear sort mapf inputs nReduce.
  destruct g as [w' m' r'|m' r']; simpl; [|by destruct f; repeat case_decide; naive_solver].
  case_decide as Hw; [subst w'|by destruct f; repeat case_decide; naive_solver].
  destruct (fs !! Tmp id m' r') as [data|] eqn:Hd; destruct f as [w m r|m r].
  - rewrite lookup_insert_ne by done. case_decide as Hc.
    + destruct Hc as [_ ->]. apply lookup_delete_eq.
    + rewrite lookup_delete_ne; [done|]. naive_solver.
  - case_decide as Hc.
    + injection Hc as -> ->. rewrite lookup_insert_eq, Hd. by destruct (fs !! Inter m' r').
    + rewrite lookup_insert_ne by naive_solver. by rewrite lookup_delete_ne.
  - case_decide as Hc; [|done]. by destruct Hc as [_ ->].
  - case_decide as Hc; [|done]. injection Hc as -> ->. rewrite Hd. by destruct (fs !! Inter m' r').
Qed.

Lemma rename_lookup id dir fs f :
  do_mapf_rename id dir fs !! f =
  match f with
  | Tmp w m r => if decide (w = id ∧ f ∈ dir) then None else fs !! f
  | Inter m r => if decide (Tmp id m r ∈ dir) then union (fs !! Tmp id m r) (fs !! f) else fs !! f
  end.
Proof using.
  clear sort mapf inputs nReduce.
  unfold do_mapf_rename. revert fs. induction dir as [|g dir IH]; intros fs; cbn [foldl].
  { destruct f; by rewrite decide_False by (rewrite elem_of_nil; tauto). }
  rewrite IH. clear IH. destruct f as [w m r|m r]; rewrite !renameOne_lookup.
  - repeat case_decide; set_solver.
  - destruct (decide (Tmp id m r = g)) as [<-|Hne].
    + rewrite (decide_True (P := _ ∈ _ :: _)) by set_solver.
      case_decide; [|done]. rewrite decide_True by done. by destruct (fs !! Tmp id m r), (fs !! Inter m r).
    + rewrite (decide_False (P := id = id ∧ _)) by tauto. apply decide_ext. set_solver.
Qed.

(** After the map phase: no temporary files, and the intermediate files of the
    tasks that have been executed. *)
Lemma mapped_files done fs : mapped done fs →
  (∀ w m r, fs !! Tmp w m r = None) ∧
  ∀ m r, fs !! Inter m r =
    if decide (0 ≤ m ∧ Z.to_nat m ∈ done ∧ 0 ≤ r < nReduce) then output r <$> inputs !! Z.to_nat m else None.
Proof.
  induction 1 as [|id m path content dir done fs _ [IHt IHi] Hin Hdir].
  { split; [done|]. intros m r. rewrite decide_False; [done|]. rewrite elem_of_nil. tauto. }
  split.
  - intros w m' r. rewrite rename_lookup. case_decide as Hc; [done|]. rewrite write_lookup.
    case_decide as Hw; [|apply IHt]. destruct Hw as (-> & -> & Hr). destruct Hc. split; [done|].
    apply Hdir. rewrite write_lookup, decide_True by done. by eexists.
  - intros m' r. rewrite rename_lookup, !write_lookup.
    destruct (decide (m' = Z.of_nat m ∧ 0 ≤ r < nReduce)) as [[-> Hr]|Hno].
    + rewrite Nat2Z.id, (decide_True (P := Tmp _ _ _ ∈ dir)).
      * rewrite !decide_True by (rewrite ?elem_of_cons; auto with lia). rewrite Hin. simpl.
        by destruct (fs !! _).
      * rewrite Hdir, write_lookup, decide_True by done. by eexists.
    + rewrite (decide_False (P := id = id ∧ _)), IHt by tauto.
      transitivity (fs !! Inter m' r); [by case_decide; destruct (fs !! _)|]. rewrite IHi.
      apply decide_ext. rewrite elem_of_cons. split; [tauto|]. intros (? & [Heq|?] & ?); [|tauto].
      destruct Hno. split; [lia|done].
Qed.
End phase.

(** ** Distributed and sequential execution *)

Lemma concat_map_filter {A B} (P : A → Prop) `{∀ x, Decision (P x)} (g : A → list B) l :
  (∀ x, ¬ P x → g x = []) → concat (map g l) = concat (map g (filter P l)).
Proof.
  intros Hg. induction l as [|x l IH]; [done|]. rewrite filter_cons. simpl.
  case_decide as HP; simpl; [by rewrite IH|]. by rewrite (Hg x HP), IH.
Qed.

Lemma filter_concat_map {A B} (P : B → Prop) `{∀ x, Decision (P x)} (f : A → list B) l :
  filter P (concat (map f l)) = concat (map (λ x, filter P (f x)) l).
Proof. induction l as [|x l IH]; [done|]. simpl. by rewrite filter_app, IH. Qed.

Lemma fmap_concat_map {A B C} (h : B → C) (f : A → list B) l :
  h <$> concat (map f l) = concat (map (λ x, h <$> f x) l).
Proof. induction l as [|x l IH]; [done|]. simpl. by rewrite fmap_app, IH. Qed.

Lemma map_lookup_seq {A B} (d : B) (h : A → B) (l : list A) :
  map (λ m, default d (h <$> l !! m)) (seq 0 (length l)) = map h l.
Proof.
  induction l as [|x l IH]; [done|]. simpl. f_equal. rewrite <- IH, <- fmap_S_seq, <- list_fmap_compose.
  done.
Qed.

(** The names that reduce task [r] reads. *)
Definition interOf (r : Z) (f : fname) : Prop :=
  match f with Inter _ r' => r' = r | Tmp _ _ _ => False end.

#[export] Instance interOf_dec r f : Decision (interOf r f).
Proof. destruct f; simpl; apply _. Defined.

Section equivalence.
  Context (sort : list KeyValue → list KeyValue) `{!ByKeySort sort}.
  Context (mapf : string → string → list KeyValue) (reducef : string → list string → string).
  Context (reducef_perm : ∀ k vs vs', vs ≡ₚ vs' → reducef k vs = reducef k vs').
  Context (inputs : list (string * string)) (nReduce : Z) (nReduce_pos : 0 < nReduce).

(** All the pairs that the map functions emit. *)
Let all : list KeyValue := concat (map (λ '(filename, content), mapf filename content) inputs).

(** All map tasks are done, and nothing else is in the directory. *)
Definition mapPhaseDone (fs : fileMap) : Prop :=
  ∃ done, mapped sort mapf inputs nReduce done fs ∧ ∀ m, (m < length inputs)%nat → m ∈ done.

(** [dir] lists the files of [fs], in some order. *)
Definition listing (fs : fileMap) (dir : list fname) : Prop := NoDup dir ∧ ∀ f, f ∈ dir ↔ is_Some (fs !! f).

(** The intermediate files are those of the map tasks. *)
Definition interDone (fs : fileMap) : Prop := ∀ m r, 0 ≤ r < nReduce →
  fs !! Inter m r = if decide (0 ≤ m) then output sort mapf nReduce r <$> inputs !! Z.to_nat m else None.

Lemma mapPhaseDone_inter fs : mapPhaseDone fs → interDone fs.
Proof.
  intros (done & [_ Hi]%mapped_files & Hdone) m r Hr. rewrite Hi.
  destruct (decide (0 ≤ m)) as [H0|H0]; [|by rewrite decide_False by tauto].
  destruct (decide (Z.to_nat m ∈ done)) as [Hin|Hin]; [by rewrite decide_True|].
  rewrite decide_False by tauto. destruct (inputs !! Z.to_nat m) eqn:Hm; [|done].
  apply lookup_lt_Some in Hm. by destruct Hin; apply Hdone.
Qed.

Lemma listing_inter fs r dir : interDone fs → listing fs dir → 0 ≤ r < nReduce →
  filter (interOf r) dir ≡ₚ (λ m : nat, Inter (Z.of_nat m) r) <$> seq 0 (length inputs).
Proof.
  intros Hph [Hnd Hdir] Hr. apply NoDup_Permutation.
  { by apply NoDup_filter. }
  { apply NoDup_fmap_2; [|apply NoDup_seq]. intros x y [= Heq]. lia. }
  intros f. rewrite list_elem_of_filter, list_elem_of_fmap, Hdir. split.
  - intros [Hf Hs]. destruct f as [|m r']; [done|]. simpl in Hf. subst r'.
    rewrite Hph in Hs by done. case_decide as Hc; [|by destruct Hs].
    apply fmap_is_Some, lookup_lt_is_Some in Hs.
    exists (Z.to_nat m). rewrite Z2Nat.id, elem_of_seq by lia. auto with lia.
  - intros (m & -> & Hm%elem_of_seq). split; [done|].
    rewrite Hph, decide_True, Nat2Z.id by (done || lia). apply fmap_is_Some, lookup_lt_is_Some. lia.
Qed.

(** A reduce task reads the pairs of its bucket. *)
Lemma readInter_perm fs r dir : interDone fs → listing fs dir → 0 ≤ r < nReduce →
  readInter r dir fs ≡ₚ bucket nReduce r all.
Proof using ByKeySort0.
  intros Hph Hdir Hr. unfold readInter. rewrite (concat_map_filter (interOf r)); last first.
  { intros [|m r'] Hno; [done|]. simpl. by rewrite decide_False. }
  rewrite (listing_inter fs r dir) by done. rewrite <- list_fmap_compose.
  transitivity (concat (map (output sort mapf nReduce r) inputs)).
  - apply reflexive_eq. f_equal. rewrite <- (map_lookup_seq [] _ inputs). apply map_ext_in.
    intros m Hm. apply list_elem_of_In, elem_of_seq in Hm. simpl. rewrite decide_True by done.
    by rewrite Hph, decide_True, Nat2Z.id by (done || lia).
  - unfold all, bucket. rewrite filter_concat_map. apply concat_map_perm. intros [p c] _.
    unfold output, bucket. by rewrite sort_perm.
Qed.

Lemma bucket_lineOf r k : ihash k mod nReduce = r → lineOf reducef (bucket nReduce r all) k = lineOf reducef all k.
Proof.
  intros Hr. unfold lineOf, valuesOf, bucket. do 3 f_equal. rewrite list_filter_filter.
  apply list_filter_iff. intros kv. split; [tauto|]. by intros <-.
Qed.

(** The output of one reduce task: the lines of the keys of its bucket. *)
Lemma reduceAll_bucket ks r l :
  l ≡ₚ bucket nReduce r all → NoDup ks → (∀ k, k ∈ ks ↔ k ∈ Key <$> all) →
  ∃ out, reduceAll sort reducef l = Ret out ∧
    out ≡ₚ lineOf reducef all <$> filter (λ k, ihash k mod nReduce = r) ks.
Proof using All.
  intros Hread Hnd Hks. destruct (reduceAll_spec sort reducef reducef_perm l) as (ks' & Hnd' & Hks' & ->).
  eexists. split; [reflexivity|].
  assert (ks' ≡ₚ filter (λ k, ihash k mod nReduce = r) ks) as Hp.
  { apply NoDup_Permutation; [done|by apply NoDup_filter|]. intros k.
    rewrite Hks', Hread, list_elem_of_filter, Hks. unfold bucket. rewrite !list_elem_of_fmap.
    setoid_rewrite list_elem_of_filter. naive_solver. }
  rewrite <- Hp. apply reflexive_eq, list_fmap_ext. intros i k Hk%list_elem_of_lookup_2.
  rewrite Hp, list_elem_of_filter in Hk. destruct Hk as [Hk _].
  rewrite <- (bucket_lineOf r k Hk). by apply lineOf_perm.
Qed.

(** All tasks together give the lines of the sequential program. *)
Lemma reduceAll_buckets (l : Z → list KeyValue) :
  (∀ r, 0 ≤ r < nReduce → l r ≡ₚ bucket nReduce r all) →
  ∃ outs lines, mrsequential sort mapf reducef inputs = Ret lines ∧
    (∀ r, 0 ≤ r < nReduce → reduceAll sort reducef (l r) = Ret (outs r)) ∧
    concat (map outs (seqZ 0 nReduce)) ≡ₚ lines.
Proof using All.
  intros Hl. unfold mrsequential.
  destruct (reduceAll_spec sort reducef reducef_perm all) as (ks & Hnd & Hks & Hr).
  exists (λ r, valueOf [] (reduceAll sort reducef (l r))), (lineOf reducef all <$> ks).
  assert (∀ r, 0 ≤ r < nReduce → ∃ out, reduceAll sort reducef (l r) = Ret out ∧
    out ≡ₚ lineOf reducef all <$> filter (λ k, ihash k mod nReduce = r) ks) as Hout.
  { intros r Hrr. by apply reduceAll_bucket; [apply Hl| |]. }
  split; [exact Hr|]. split; [intros r Hrr; by destruct (Hout r Hrr) as (out & -> & _)|].
  transitivity (lineOf reducef all <$> concat (map (λ r, filter (λ k, ihash k mod nReduce = r) ks) (seqZ 0 nReduce))).
  - rewrite fmap_concat_map. apply concat_map_perm. intros r Hrr%elem_of_seqZ.
    destruct (Hout r) as (out & -> & Hp); [lia|done].
  - f_equiv. apply partition_perm; [apply NoDup_seqZ|]. intros k _. apply elem_of_seqZ.
    pose proof (Z.mod_pos_bound (ihash k) nReduce nReduce_pos). lia.
Qed.

(** Distributed execution computes what the sequential program computes.
    However the map tasks were spread over workers, and repeated, and in whatever
    order each reduce task lists the directory: every task returns, and the
    output files together hold exactly the lines of [mrsequential]. *)
Theorem distributed_sequential fs (dirs : Z → list fname) :
  mapPhaseDone fs → (∀ r, 0 ≤ r < nReduce → listing fs (dirs r)) →
  ∃ outs lines, mrsequential sort mapf reducef inputs = Ret lines ∧
    (∀ r, 0 ≤ r < nReduce → do_reducef sort reducef r (dirs r) fs = Ret (outs r)) ∧
    concat (map outs (seqZ 0 nReduce)) ≡ₚ lines.
Proof using All.
  intros Hph Hdirs. apply (reduceAll_buckets (λ r, readInter r (dirs r) fs)).
  intros r Hr. by apply readInter_perm; [apply mapPhaseDone_inter|apply Hdirs|].
Qed.
End equivalence.

(** ** Word count on two files *)

#[export] Instance leKey_dec : RelDecision leKey.
Proof. intros a b. unfold leKey. apply _. Defined.

#[export] Instance mergeByKey : ByKeySort (merge_sort leKey).
Proof.
  assert (Total leKey) as Ht by (intros a b; apply (total String.le)).
  split; [apply merge_sort_Permutation|]. intros l. generalize (Sorted_merge_sort leKey l).
  induction 1 as [|a l' _ IH Hhd]; constructor; [done|]. destruct Hhd as [|b l'' Hab]; constructor.
  revert Hab. unfold leKey, Less, String.le, String.ltb, String.leb. rewrite (String.compare_antisym (Key b)).
  by destruct (String.compare (Key a) (Key b)).
Qed.

(** Every letter of the file is a word. *)
Definition wcMap (_ content : string) : list KeyValue :=
  (λ c, mkKV (String c "") "1") <$> String.list_ascii_of_string content.
Definition wcReduce (_ : string) (values : list string) : string := pretty (Z.of_nat (length values)).

Definition wcInputs : list (string * string) := [("f0", "ab"); ("f1", "bcb")].

(** One map task, up to the renaming. *)
Definition wcStep (id : Z) (m : nat) path content (fs : fileMap) : fileMap :=
  let fs := do_mapf_write (merge_sort leKey) wcMap 2 id (Z.of_nat m) path content fs in
  do_mapf_rename id (elements (dom fs)) fs.

Lemma wcStep_mapped id m path content done fs :
  mapped (merge_sort leKey) wcMap wcInputs 2 done fs → wcInputs !! m = Some (path, content) →
  mapped (merge_sort leKey) wcMap wcInputs 2 (m :: done) (wcStep id m path content fs).
Proof.
  intros Hm Hin. unfold wcStep. apply (mapped_task _ _ _ _ id m path content); [done|done|].
  intros f. by rewrite elem_of_elements, elem_of_dom.
Qed.

Lemma listing_elements fs : listing fs (elements (dom fs)).
Proof. split; [apply NoDup_elements|]. intros f. by rewrite elem_of_elements, elem_of_dom. Qed.

(** Worker 7 does both tasks; worker 8 repeats the first. *)
Definition wcFiles : fileMap := wcStep 8 0 "f0" "ab" (wcStep 7 1 "f1" "bcb" (wcStep 7 0 "f0" "ab" ∅)).

Lemma wcFiles_done : mapPhaseDone (merge_sort leKey) wcMap wcInputs 2 wcFiles.
Proof.
  exists [0; 1; 0]%nat. split.
  - unfold wcFiles. do 3 (apply wcStep_mapped; [|reflexivity]). apply mapped_none.
  - intros m Hm. simpl in Hm. destruct m as [|[|]]; [set_solver|set_solver|lia].
Qed.

Lemma distributed_sequential_witness : ∃ outs lines,
  mrsequential (merge_sort leKey) wcMap wcReduce wcInputs = Ret lines ∧
  do_reducef (merge_sort leKey) wcReduce 0 (elements (dom wcFiles)) wcFiles = Ret (outs 0) ∧
  outs 0 ++ outs 1 ≡ₚ lines ∧ outputLine "b" "3" ∈ lines.
Proof.
  destruct (distributed_sequential (merge_sort leKey) wcMap wcReduce) with
    (inputs := wcInputs) (nReduce := 2) (fs := wcFiles) (dirs := λ _ : Z, elements (dom wcFiles))
    as (outs & lines & Hseq & Hout & Hp).
  - intros k vs vs' Hvs. unfold wcReduce. by rewrite Hvs.
  - lia.
  - apply wcFiles_done.
  - intros r _. apply listing_elements.
  - exists outs, lines. split; [exact Hseq|]. split; [exact (Hout 0 (conj (Z.le_refl 0) eq_refl))|]. split.
    + etransitivity; [|exact Hp]. change (seqZ 0 2) with [0; 1]. cbn [map concat]. by rewrite app_nil_r.
    + assert (mrsequential (merge_sort leKey) wcMap wcReduce wcInputs =
        Ret [outputLine "a" "1"; outputLine "b" "3"; outputLine "c" "1"]) as Hl by (vm_compute; reflexivity).
      rewrite Hl in Hseq. injection Hseq as <-. right. left.
Defined.
