(* ===== verification/Apps.v ===== *)
(** * Applications of MapReduce ([src/mrapps])

    The plugins that compute something: word count ([wc.go]), the index
    ([indexer.go]), the test application that sorts its values ([crash.go] and
    [nocrash.go]) and the one with slow tasks ([early_exit.go]).  They satisfy what
    the theorems on MapReduce ask of a map and a reduce function; the output of
    word count is the number of occurrences of each word. *)

From stdpp Require Import pretty.
From S2P Require Import Prelude MapReduce.
Local Open Scope Z_scope.

(** ** The library functions that they call *)

(** [strings.FieldsFunc] with [!unicode.IsLetter], for text in ASCII. *)
Definition isLetter (c : Ascii.ascii) : bool :=
  let n := Z.of_N (Ascii.N_of_ascii c) in
  bool_decide (65 ≤ n ≤ 90) || bool_decide (97 ≤ n ≤ 122).

(** [word]: the letters of the current word, in reverse. *)
Fixpoint fieldsFrom (word : list Ascii.ascii) (s : string) : list string :=
  let flush := match word with [] => [] | _ => [String.string_of_list_ascii (reverse word)] end in
  match s with
  | EmptyString => flush
  | String c s => if isLetter c then fieldsFrom (c :: word) s else flush ++ fieldsFrom [] s
  end.

Definition fields (s : string) : list string := fieldsFrom [] s.

Example fields_example : fields "The cat, the dog." = ["The"; "cat"; "the"; "dog"].
Proof. vm_compute. reflexivity. Qed.

(** [strings.Join] *)
Fixpoint join (sep : string) (l : list string) : string :=
  match l with
  | [] => ""
  | [x] => x
  | x :: l => x +:+ sep +:+ join sep l
  end.

(** ** [wc.go] *)

Definition wc_Map (filename contents : string) : list KeyValue := (λ w, mkKV w "1") <$> fields contents.
Definition wc_Reduce (key : string) (values : list string) : string := pretty (len values).

(** ** [indexer.go]

    [words] is the order in which Go iterates over the set of words. *)
Definition indexer_wordSet (value : string) : gset string := list_to_set (fields value).
Definition indexer_Map (words : list string) (document : string) : list KeyValue := (λ w, mkKV w document) <$> words.
Definition indexer_Reduce (key : string) (values : list string) : string :=
  pretty (len values) +:+ " " +:+ join "," (sortStrings values).

(** ** [crash.go], [nocrash.go]

    [maybeCrash] ends the process, waits or does nothing. *)
Definition crash_maybeCrash (rr : Z) : outcome () := if decide (rr < 330) then Fatal else mret ().

Definition crash_pairs (filename contents : string) : list KeyValue :=
  [mkKV "a" filename; mkKV "b" (pretty (Z.of_nat (String.length filename)));
   mkKV "c" (pretty (Z.of_nat (String.length contents))); mkKV "d" "xyzzy"].

Definition crash_Map (rr : Z) (filename contents : string) : outcome (list KeyValue) :=
  _ ← crash_maybeCrash rr; mret (crash_pairs filename contents).

Definition crash_joined (key : string) (values : list string) : string := join " " (sortStrings values).

Definition crash_Reduce (rr : Z) (key : string) (values : list string) : outcome string :=
  _ ← crash_maybeCrash rr; mret (crash_joined key values).

(** ** [early_exit.go] *)

Definition early_exit_Map (filename contents : string) : list KeyValue := [mkKV filename "1"].
Definition early_exit_Reduce (key : string) (values : list string) : string := pretty (len values).

(** ** The order of the values plays no role *)

Lemma wc_order k vs vs' : vs ≡ₚ vs' → wc_Reduce k vs = wc_Reduce k vs'.
Proof. intros Hvs. unfold wc_Reduce, len. by rewrite Hvs. Qed.

Lemma indexer_order k vs vs' : vs ≡ₚ vs' → indexer_Reduce k vs = indexer_Reduce k vs'.
Proof. intros Hvs. unfold indexer_Reduce, len. by rewrite (sortStrings_perm _ _ Hvs), Hvs. Qed.

Lemma crash_order k vs vs' : vs ≡ₚ vs' → crash_joined k vs = crash_joined k vs'.
Proof. intros Hvs. unfold crash_joined. by rewrite (sortStrings_perm _ _ Hvs). Qed.

(** A crashing application either ends the worker or computes what the other one
    computes. *)
Lemma crash_or_not rr filename contents l : crash_Map rr filename contents = Ret l → l = crash_pairs filename contents.
Proof. unfold crash_Map, crash_maybeCrash. case_decide; [done|]. by intros [= <-]. Qed.

(** Sorted by key, the pairs of a document do not depend on the order in which
    the words of the set are visited. *)
Lemma indexer_deterministic (sort : list KeyValue → list KeyValue) `{!ByKeySort sort} value document words words' :
  words ≡ₚ elements (indexer_wordSet value) → words' ≡ₚ elements (indexer_wordSet value) →
  sort (indexer_Map words document) = sort (indexer_Map words' document).
Proof.
  intros Hw Hw'. apply (StronglySorted_unique_strong leKey); [|by apply sort_strongly|by apply sort_strongly|].
  - intros x y Hx Hy Hxy Hyx. rewrite sort_perm in Hx, Hy.
    apply list_elem_of_fmap in Hx as (a & -> & _). apply list_elem_of_fmap in Hy as (b & -> & _).
    unfold leKey in *. simpl in *. f_equal. by apply (anti_symm String.le).
  - rewrite !sort_perm. unfold indexer_Map. by rewrite Hw, Hw'.
Qed.

(** ** What word count computes *)

Definition wordsOf (inputs : list (string * string)) : list string :=
  concat (map (λ x, fields x.2) inputs).

(** How often [w] occurs. *)
Definition occurrences (w : string) (l : list string) : Z := len (filter (λ x, x = w) l).

Lemma valuesOf_words w l : valuesOf w ((λ x, mkKV x "1") <$> l) = replicate (length (filter (λ x, x = w) l)) "1".
Proof.
  unfold valuesOf. induction l as [|x l IH]; [done|]. rewrite fmap_cons, !filter_cons. cbn [Key].
  destruct (decide (x = w)); [rewrite fmap_cons, IH; done|exact IH].
Qed.

(** The sequential program, and therefore every finished distributed run, prints
    for every word of the input the number of its occurrences, each word once. *)
Theorem wordcount_correct (sort : list KeyValue → list KeyValue) `{!ByKeySort sort} inputs :
  ∃ ws, NoDup ws ∧ (∀ w, w ∈ ws ↔ w ∈ wordsOf inputs) ∧
    mrsequential sort wc_Map wc_Reduce inputs =
      Ret ((λ w, outputLine w (pretty (occurrences w (wordsOf inputs)))) <$> ws).
Proof.
  unfold mrsequential. set (l := concat _).
  assert (l = (λ x, mkKV x "1") <$> wordsOf inputs) as Hl.
  { unfold l, wordsOf. rewrite fmap_concat_map. f_equal. apply map_ext. by intros [f c]. }
  destruct (reduceAll_spec sort wc_Reduce wc_order l) as (ks & Hnd & Hks & ->).
  exists ks. split; [done|]. split.
  - intros w. rewrite Hks, Hl, <- list_fmap_compose. unfold compose. simpl. by rewrite list_fmap_id.
  - f_equal. apply list_fmap_ext. intros i w _. unfold lineOf. f_equal.
    rewrite Hl, valuesOf_words. unfold wc_Reduce, len, occurrences, len. by rewrite length_replicate.
Qed.
