(* ===== verification/Coordinator.v ===== *)
(** * MapReduce: the coordinator ([src/mr/coordinator.go])

    The RPC handlers, the allocation loop [AllocWork] (crash recovery, the scan
    for work, the choice of a worker, the assignment), [run] and [Exit]; the
    job strings and their parser in the worker ([do_it]).  The coordinator and
    its workers form a step relation, of which every critical section of the
    code is a step. *)

From stdpp Require Import pretty.
From S2P Require Import Prelude MapReduce.
Local Open Scope Z_scope.

(** ** [enum.go] and the data of [coordinator.go] *)

Inductive workerState := WS_Free | WS_Ready | WS_Working | WS_Death | WS_Exiting.

#[export] Instance workerState_eq_dec : EqDecision workerState.
Proof. solve_decision. Defined.

Record worker := mkWorker { w_state : workerState; w_work : string }.

#[export] Instance worker_eq_dec : EqDecision worker.
Proof. solve_decision. Defined.

(** The zero value of the map's element type. *)
Definition zeroWorker : worker := mkWorker WS_Free "".

(** [state] is -1 when the work is done, 0 when it is ready, and else the id of
    the worker that has it. *)
Record workInfo := mkWorkInfo { wi_state : Z; timestamp : Z }.

Record Coordinator := mkCoordinator {
  workerMap : gmap Z worker;
  works : list workInfo;
  c_state : string;
  nReduce : Z;
}.

Definition set_workerMap (c : Coordinator) (x : gmap Z worker) : Coordinator :=
  mkCoordinator x (works c) (c_state c) (nReduce c).
Definition set_works (c : Coordinator) (x : list workInfo) : Coordinator :=
  mkCoordinator (workerMap c) x (c_state c) (nReduce c).
Definition set_c_state (c : Coordinator) (x : string) : Coordinator :=
  mkCoordinator (workerMap c) (works c) x (nReduce c).

Definition MakeCoordinator (nReduce : Z) : Coordinator := mkCoordinator ∅ [] "Starting" nReduce.

(** ** The RPC handlers *)

Record ErrReply := mkErrReply { IsErr : bool; ErrStr : string }.

Definition RegisterWorker (CallerId : Z) (c : Coordinator) : Coordinator * ErrReply :=
  if decide (c_state c ≠ "Working") then (c, mkErrReply true "RPC server is not working")
  else (set_workerMap c (<[CallerId := mkWorker WS_Free "No job"]> (workerMap c)), mkErrReply false "").

Definition GetWorkerInfo (CallerId : Z) (c : Coordinator) : worker :=
  map_get zeroWorker (workerMap c) CallerId.

Definition GetNReduce (c : Coordinator) : Z := nReduce c.

Definition WorkFinish (CallerId WorkId : Z) (WorkType : string) (c : Coordinator)
  : outcome (Coordinator * ErrReply) :=
  if decide (w_state (map_get zeroWorker (workerMap c) CallerId) = WS_Death)
  then mret (c, mkErrReply true "this worker has marked Death")
  else if decide (WorkType = "Map" ∨ WorkType = "Reduce") then
    let c := set_workerMap c (<[CallerId := mkWorker WS_Free ""]> (workerMap c)) in
    wi ← slice_get (works c) WorkId;
    l ← slice_set (works c) WorkId (mkWorkInfo (-1) (timestamp wi));
    mret (set_works c l, mkErrReply false "")
  else mret (c, mkErrReply false "").

Definition WorkerDeath (CallId : Z) (c : Coordinator) : Coordinator :=
  set_workerMap c (<[CallId := mkWorker WS_Death "None"]> (workerMap c)).

(** ** [AllocWork] *)

(** Ten seconds, in nanoseconds. *)
Definition workTimeout : Z := 10 * 1000000000.

(** Crash recovery: the work of a worker that has had it for more than ten
    seconds becomes ready, and the worker is declared dead. *)
Definition overdue (now : Z) (wi : workInfo) : Prop :=
  wi_state wi ≠ 0 ∧ wi_state wi ≠ -1 ∧ now - timestamp wi > workTimeout.

#[export] Instance overdue_dec now wi : Decision (overdue now wi).
Proof. unfold overdue. apply _. Defined.

Definition recover (now : Z) (c : Coordinator) : Coordinator :=
  mkCoordinator
    (foldl (λ m wi, if decide (overdue now wi) then <[wi_state wi := mkWorker WS_Death ""]> m else m)
       (workerMap c) (works c))
    ((λ wi, if decide (overdue now wi) then mkWorkInfo 0 (timestamp wi) else wi) <$> works c)
    (c_state c) (nReduce c).

(** The scan over the works [i], [i + 1], ...: the first ready one, and whether
    one before it is being worked on. *)
Fixpoint findReady (l : list workInfo) (i : Z) (isWorking : bool) : Z * bool :=
  match l with
  | [] => (-1, isWorking)
  | wi :: l =>
      if decide (wi_state wi = 0) then (i, isWorking)
      else findReady l (i + 1) (if decide (wi_state wi ≠ -1) then true else isWorking)
  end.

(** [getFreeWorker], for an order in which Go iterates over the map. *)
Fixpoint getFreeWorker (order : list (Z * worker)) : Z :=
  match order with
  | [] => -1
  | (id, w) :: order => if decide (w_state w = WS_Free) then id else getFreeWorker order
  end.

Definition newJob (workType : string) (files : list string) (readyWork : Z) : outcome string :=
  if decide (workType = "Map") then
    file ← slice_get files readyWork;
    mret ("Map" +:+ " " +:+ pretty readyWork +:+ " " +:+ file)
  else if decide (workType = "Reduce") then
    mret ("Reduce" +:+ " " +:+ pretty readyWork +:+ " " +:+ pretty readyWork)
  else mret "".

(** The assignment: two critical sections. *)
Definition markWork (now readyWork workerId : Z) (c : Coordinator) : outcome Coordinator :=
  l ← slice_set (works c) readyWork (mkWorkInfo workerId now);
  mret (set_works c l).

Definition giveJob (workType : string) (files : list string) (readyWork workerId : Z) (c : Coordinator)
  : outcome Coordinator :=
  job ← newJob workType files readyWork;
  mret (set_workerMap c (<[workerId := mkWorker WS_Ready job]> (workerMap c))).

(** One iteration of the loop: [None] when the phase is over.  [size] is the
    number of works of the phase. *)
Definition AllocWork (now : Z) (order : gmap Z worker → list (Z * worker)) (workType : string)
    (files : list string) (size : nat) (c : Coordinator) : outcome (option Coordinator) :=
  let c := recover now c in
  if decide (len (works c) < Z.of_nat size) then Panic
  else
    let '(readyWork, isWorking) := findReady (take size (works c)) 0 false in
    if decide (readyWork = -1) then
      mret (if isWorking : bool then Some c else None)
    else
      let workerId := getFreeWorker (order (workerMap c)) in
      if decide (workerId = -1) then mret (Some c)
      else
        c ← markWork now readyWork workerId c;
        c ← giveJob workType files readyWork workerId c;
        mret (Some c).

(** [run]: the works of a phase. *)
Definition startPhase (size : nat) (c : Coordinator) : Coordinator :=
  set_works c (replicate size (mkWorkInfo 0 0)).

Definition startRun (nFiles : nat) (c : Coordinator) : Coordinator :=
  startPhase nFiles (set_c_state c "Working").

(** [Exit]: the first loop, and the test of the second. *)
Definition exitWorkers (c : Coordinator) : Coordinator :=
  set_workerMap c ((λ w, if decide (w_state w = WS_Death) then w else mkWorker WS_Exiting "Exit")
                     <$> workerMap c).

Definition isAllDeath (c : Coordinator) : bool :=
  bool_decide (map_Forall (λ _ w, w_state w = WS_Death) (workerMap c)).

Definition Done (c : Coordinator) : bool := bool_decide (c_state c = "Death").

(** ** [worker.go]: reading a job *)

(** [strings.Split(s, " ")] *)
Fixpoint splitSpace (s : string) : list string :=
  match s with
  | EmptyString => [""]
  | String c s =>
      if decide (c = Ascii.ascii_of_nat 32) then "" :: splitSpace s
      else match splitSpace s with
           | [] => [String c ""]
           | w :: ws => String c w :: ws
           end
  end.

(** [strconv.Atoi]: an optional sign and digits; 0, the value next to a syntax
    error, for anything else.  The range of [int] plays no role: the numbers are
    positions in a slice. *)
Definition digit (c : Ascii.ascii) : option Z :=
  let n := Z.of_N (Ascii.N_of_ascii c) in
  if decide (48 <= n <= 57) then Some (n - 48) else None.

Fixpoint atoiFrom (acc : Z) (s : string) : option Z :=
  match s with
  | EmptyString => Some acc
  | String c s => d ← digit c; atoiFrom (acc * 10 + d) s
  end.

Definition atoiDigits (s : string) : Z :=
  match s with EmptyString => 0 | _ => default 0 (atoiFrom 0 s) end.

Definition Atoi (s : string) : Z :=
  match s with
  | String c rest =>
      if decide (c = Ascii.ascii_of_nat 45) then - atoiDigits rest
      else if decide (c = Ascii.ascii_of_nat 43) then atoiDigits rest
      else atoiDigits s
  | EmptyString => 0
  end.

(** The three parts of a job, as [do_it] reads them. *)
Definition parseJob (work : string) : outcome (string * Z * string) :=
  let workArgs := splitSpace work in
  workType ← slice_get workArgs 0;
  workId ← slice_get workArgs 1;
  workArg ← slice_get workArgs 2;
  mret (workType, Atoi workId, workArg).

(** ** Job strings *)

Definition space : Ascii.ascii := Ascii.ascii_of_nat 32.

Fixpoint noSpace (s : string) : bool :=
  match s with EmptyString => true | String c s => bool_decide (c ≠ space) && noSpace s end.

Fixpoint allDigits (s : string) : bool :=
  match s with EmptyString => true | String c s => bool_decide (is_Some (digit c)) && allDigits s end.

Lemma allDigits_app s t : allDigits (s +:+ t) = allDigits s && allDigits t.
Proof. induction s as [|c s IH]; [done|]. simpl. by rewrite IH, andb_assoc. Qed.

Lemma allDigits_noSpace s : allDigits s = true → noSpace s = true.
Proof.
  induction s as [|c s IH]; [done|]. simpl. intros [Hc Hs]%andb_true_iff. rewrite IH by done.
  apply bool_decide_eq_true in Hc. rewrite bool_decide_eq_true_2; [done|]. intros ->. by destruct Hc.
Qed.

Lemma string_app_assoc (s t u : string) : (s +:+ t) +:+ u = s +:+ t +:+ u.
Proof. induction s as [|c s IH]; [done|]. exact (f_equal (String c) IH). Qed.

Lemma splitSpace_nonempty s : splitSpace s ≠ [].
Proof. destruct s as [|c s]; [done|]. simpl. case_decide; [done|]. by destruct (splitSpace s). Qed.

Lemma splitSpace_word w : noSpace w = true → splitSpace w = [w].
Proof.
  induction w as [|c w IH]; [done|]. simpl. intros [Hc Hw]%andb_true_iff.
  apply bool_decide_eq_true in Hc. rewrite decide_False by done. by rewrite IH.
Qed.

Lemma splitSpace_cons w s : noSpace w = true → splitSpace (w +:+ " " +:+ s) = w :: splitSpace s.
Proof.
  induction w as [|c w IH]; [done|]. simpl. intros [Hc Hw]%andb_true_iff.
  apply bool_decide_eq_true in Hc. rewrite decide_False by done. by rewrite IH.
Qed.

Lemma digit_char x : (x < 10)%N → digit (pretty_N_char x) = Some (Z.of_N x).
Proof.
  intros Hx. assert (x = 0 ∨ x = 1 ∨ x = 2 ∨ x = 3 ∨ x = 4 ∨ x = 5 ∨ x = 6 ∨ x = 7 ∨ x = 8 ∨ x = 9)%N
    as Hc by lia.
  by repeat (destruct Hc as [->|Hc]; [reflexivity|]); subst.
Qed.

(** The decimal digits of a number, and what [Atoi] makes of them. *)
Lemma pretty_go_digits x s : ∃ ds k, pretty_N_go x s = ds +:+ s ∧ allDigits ds = true ∧
  ((0 < x)%N → ds ≠ "") ∧
  ∀ acc rest, atoiFrom acc (ds +:+ rest) = atoiFrom (acc * k + Z.of_N x) rest.
Proof.
  revert s. induction (N.lt_wf_0 x) as [x _ IH]; intros s.
  assert (x = 0 ∨ 0 < x)%N as [->|Hx] by lia.
  { exists "", 1. split; [apply pretty_N_go_0|]. split; [done|]. split; [lia|]. intros acc rest.
    simpl. f_equal. lia. }
  rewrite pretty_N_go_step by done. set (d := (x `mod` 10)%N). set (q := (x `div` 10)%N).
  pose proof (N.mod_lt x 10 ltac:(lia)) as Hd. fold d in Hd.
  assert (x = 10 * q + d)%N as Hqd by apply N.div_mod'.
  destruct (IH q) with (s := String (pretty_N_char d) s) as (ds & k & -> & Hds & _ & Hat); [by apply N.div_lt|].
  exists (ds +:+ String (pretty_N_char d) ""), (k * 10). split; [by rewrite string_app_assoc|].
  split; [|split].
  - rewrite allDigits_app, Hds. simpl. by rewrite digit_char.
  - intros _. by destruct ds.
  - intros acc rest. rewrite string_app_assoc, Hat. simpl. rewrite digit_char by done. simpl.
    f_equal. lia.
Qed.

Lemma pretty_digits i : 0 ≤ i →
  allDigits (pretty i) = true ∧ pretty i ≠ "" ∧ atoiFrom 0 (pretty i) = Some i.
Proof.
  intros Hi. destruct i as [|p|p]; [done| |lia].
  unfold pretty, pretty_Z, pretty, pretty_positive, pretty, pretty_N. simpl decide.
  destruct (decide _) as [?|_]; [done|].
  destruct (pretty_go_digits (N.pos p) "") as (ds & k & -> & Hds & Hne & Hat).
  rewrite allDigits_app, Hds. specialize (Hat 0 ""). rewrite Hat. split; [done|]. split; [|simpl; f_equal; lia].
  specialize (Hne ltac:(lia)). by destruct ds.
Qed.

Lemma Atoi_pretty i : 0 ≤ i → Atoi (pretty i) = i.
Proof.
  intros Hi. destruct (pretty_digits i Hi) as (Hd & Hne & Hat). destruct (pretty i) as [|c s]; [done|].
  simpl in Hd. apply andb_true_iff in Hd as [Hc _]. apply bool_decide_eq_true in Hc. unfold Atoi.
  do 2 (rewrite decide_False; [|intros ->; by destruct Hc]). unfold atoiDigits. by rewrite Hat.
Qed.

(** The job of work [i]. *)
Definition jobOf (workType : string) (i : Z) (arg : string) : string :=
  workType +:+ " " +:+ pretty i +:+ " " +:+ arg.

Lemma parseJob_jobOf workType i arg : noSpace workType = true → 0 ≤ i →
  parseJob (jobOf workType i arg) = Ret (workType, i, default "" (head (splitSpace arg))).
Proof.
  intros Ht Hi. unfold parseJob, jobOf. destruct (pretty_digits i Hi) as (Hd & _).
  rewrite splitSpace_cons, splitSpace_cons by (done || by apply allDigits_noSpace).
  pose proof (splitSpace_nonempty arg). destruct (splitSpace arg) as [|a rest]; [done|].
  simpl. by rewrite Atoi_pretty.
Qed.

(** ** The system: the coordinator and its workers *)

(** Where the goroutine of [AllocWork] is. *)
Inductive allocPc :=
| Scanning
| Chosen (i : Z)        (* a ready work was found *)
| Picked (i w : Z)      (* and a free worker *)
| Marked (i w : Z).     (* the work is marked, the worker has no job yet *)

(** [jobs]: what each worker that is busy has read from the coordinator. *)
Record system := mkSystem { coord : Coordinator; pc : allocPc; jobs : gmap Z (string * Z * string) }.

(** The type that a worker reports. *)
Definition reportType (workType : string) : string :=
  if decide (workType = "Map") then "Map" else "Reduce".

Inductive step (workType : string) (files : list string) : system → system → Prop :=
| st_register w c p js :
    0 < w → workerMap c !! w = None →
    step workType files (mkSystem c p js) (mkSystem (RegisterWorker w c).1 p js)
| st_poll w job j c p js :
    js !! w = None → GetWorkerInfo w c = mkWorker WS_Ready job → parseJob job = Ret j →
    step workType files (mkSystem c p js) (mkSystem c p (<[w := j]> js))
| st_finish w t i arg c c' r p js :
    js !! w = Some (t, i, arg) → WorkFinish w i (reportType t) c = Ret (c', r) →
    step workType files (mkSystem c p js) (mkSystem c' p (delete w js))
| st_abandon w c p js :   (* the worker crashes, its [do_it] fails or its report is lost *)
    step workType files (mkSystem c p js) (mkSystem c p (delete w js))
| st_recover now c js :
    step workType files (mkSystem c Scanning js) (mkSystem (recover now c) Scanning js)
| st_scan i b c js :
    findReady (works c) 0 false = (i, b) → i ≠ -1 →
    step workType files (mkSystem c Scanning js) (mkSystem c (Chosen i) js)
| st_pick i order c js :
    order ≡ₚ map_to_list (workerMap c) →
    step workType files (mkSystem c (Chosen i) js)
      (mkSystem c (if decide (getFreeWorker order = -1) then Scanning
                   else Picked i (getFreeWorker order)) js)
| st_mark now i w c c' js :
    markWork now i w c = Ret c' →
    step workType files (mkSystem c (Picked i w) js) (mkSystem c' (Marked i w) js)
| st_give i w c c' js :
    giveJob workType files i w c = Ret c' →
    step workType files (mkSystem c (Marked i w) js) (mkSystem c' Scanning js).

(** [run]: the map phase, then the reduce phase. *)
Inductive runs (files : list string) (nReduce : nat) : string → system → Prop :=
| run_start :
    runs files nReduce "Map"
      (mkSystem (startRun (length files) (MakeCoordinator (Z.of_nat nReduce))) Scanning ∅)
| run_step t s s' : runs files nReduce t s → step t files s s' → runs files nReduce t s'
| run_next c js :
    runs files nReduce "Map" (mkSystem c Scanning js) →
    findReady (works c) 0 false = (-1, false) →
    runs files nReduce "Reduce" (mkSystem (startPhase nReduce c) Scanning js).

(** ** The scan *)

Lemma findReady_ready l i b k b' : 0 ≤ i → findReady l i b = (k, b') → k ≠ -1 →
  ∃ m wi, k = i + Z.of_nat m ∧ l !! m = Some wi ∧ wi_state wi = 0.
Proof.
  revert i b. induction l as [|wi l IH]; intros i b Hi Hf Hk; simpl in Hf; [naive_solver|].
  case_decide as H0.
  - simplify_eq. exists 0%nat, wi. split; [lia|done].
  - destruct (IH (i + 1) _ ltac:(lia) Hf Hk) as (m & wi' & -> & Hl & Hs).
    exists (S m), wi'. split; [lia|done].
Qed.

Lemma findReady_none l i b b' : 0 ≤ i → findReady l i b = (-1, b') →
  Forall (λ wi, wi_state wi ≠ 0) l ∧ (b' = false ↔ b = false ∧ Forall (λ wi, wi_state wi = -1) l).
Proof.
  revert i b. induction l as [|wi l IH]; intros i b Hi Hf; simpl in Hf.
  { simplify_eq. split; [constructor|]. split; [intros ->; split; [done|constructor]|by intros [-> _]]. }
  case_decide as H0; [naive_solver lia|].
  destruct (IH (i + 1) _ ltac:(lia) Hf) as [Hall Hb]. rewrite !Forall_cons, Hb. split; [done|].
  case_decide; naive_solver.
Qed.

Lemma findReady_done l i b : Forall (λ wi, wi_state wi = -1) l → findReady l i b = (-1, b).
Proof.
  intros Hl. revert i. induction Hl as [|wi l Hwi _ IH]; intros i; [done|]. simpl.
  rewrite decide_False by lia. rewrite (decide_False (P := wi_state wi ≠ -1)) by lia. apply IH.
Qed.

Lemma getFreeWorker_spec order : getFreeWorker order = -1 ∨
  ∃ w, (getFreeWorker order, w) ∈ order ∧ w_state w = WS_Free.
Proof.
  induction order as [|[id w] order IH]; [by left|]. simpl. case_decide.
  - right. exists w. split; [left|done].
  - destruct IH as [?|(w' & Hin & ?)]; [by left|]. right. exists w'. split; [by right|done].
Qed.

(** ** The invariant of a phase *)

Section phase.
  Context (t : string) (Ht : noSpace t = true) (n : nat).

Definition isJob (i : Z) (job : string) : Prop := ∃ arg, job = jobOf t i arg.

Lemma isJob_inj i j job : 0 ≤ i → 0 ≤ j → isJob i job → isJob j job → i = j.
Proof using Ht.
  intros Hi Hj [a Ha] [b Hb]. pose proof (parseJob_jobOf t i a Ht Hi) as Hp. rewrite <- Ha, Hb in Hp.
  rewrite (parseJob_jobOf t j b Ht Hj) in Hp. congruence.
Qed.

(** Worker [w] has work [k]. *)
Definition holds (c : Coordinator) (k : nat) (w : Z) : Prop :=
  ∃ wi, works c !! k = Some wi ∧ wi_state wi = w.

Definition inState (c : Coordinator) (w : Z) (st : workerState) (P : string → Prop) : Prop :=
  ∃ job, workerMap c !! w = Some (mkWorker st job) ∧ P job.

Record inv (s : system) : Prop := {
  in_len : length (works (coord s)) = n;
  in_workers w x : workerMap (coord s) !! w = Some x →
    0 < w ∧ (w_state x = WS_Free ∨ w_state x = WS_Death ∨
             w_state x = WS_Ready ∧ ∃ k, isJob (Z.of_nat k) (w_work x) ∧ holds (coord s) k w);
  in_works k w : holds (coord s) k w → w ≠ 0 → w ≠ -1 →
    inState (coord s) w WS_Ready (isJob (Z.of_nat k)) ∨
    inState (coord s) w WS_Free (λ _, pc s = Marked (Z.of_nat k) w);
  in_jobs w t' i arg : jobs s !! w = Some (t', i, arg) →
    inState (coord s) w WS_Death (λ _, True) ∨
    inState (coord s) w WS_Ready (λ job, t' = t ∧ 0 ≤ i ∧ isJob i job);
  in_pc : match pc s with
          | Scanning => True
          | Chosen i => 0 ≤ i ∧ holds (coord s) (Z.to_nat i) 0
          | Picked i w => 0 ≤ i ∧ holds (coord s) (Z.to_nat i) 0 ∧ inState (coord s) w WS_Free (λ _, True)
          | Marked i w => 0 ≤ i ∧ holds (coord s) (Z.to_nat i) w ∧ inState (coord s) w WS_Free (λ _, True)
          end;
}.

Lemma inState_det c w st st' P Q : inState c w st P → inState c w st' Q → st = st'.
Proof. intros (job & Hj & _) (job' & Hj' & _). congruence. Qed.

(** No two works are with the same worker. *)
Lemma holds_inj s k k' w : inv s → holds (coord s) k w → holds (coord s) k' w → w ≠ 0 → w ≠ -1 → k = k'.
Proof using Ht.
  intros Hi Hk Hk' H0 H1. destruct (in_works s Hi k w Hk H0 H1) as [Ha|Ha], (in_works s Hi k' w Hk' H0 H1) as [Hb|Hb].
  - destruct Ha as (job & Hj & Ha), Hb as (job' & Hj' & Hb). rewrite Hj in Hj'. simplify_eq.
    apply Nat2Z.inj, (isJob_inj _ _ job'); [lia|lia|done|done].
  - by pose proof (inState_det _ _ _ _ _ _ Ha Hb).
  - by pose proof (inState_det _ _ _ _ _ _ Ha Hb).
  - destruct Ha as (? & _ & Ha), Hb as (? & _ & Hb). rewrite Ha in Hb. injection Hb. lia.
Qed.

(** A worker that is alive and has read a job has that work. *)
Lemma jobs_holds s w t' i arg : inv s → jobs s !! w = Some (t', i, arg) →
  ¬ inState (coord s) w WS_Death (λ _, True) →
  0 < w ∧ t' = t ∧ 0 ≤ i ∧ holds (coord s) (Z.to_nat i) w.
Proof using Ht.
  intros Hi Hj Hd. destruct (in_jobs s Hi _ _ _ _ Hj) as [|(job & Hw & -> & H0 & Hjob)]; [done|].
  destruct (in_workers s Hi _ _ Hw) as (Hp & [|[|(_ & k & Hk & Hh)]]); [done|done|]. simpl in Hk.
  assert (i = Z.of_nat k) as -> by (apply (isJob_inj _ _ job); [done|lia|done|done]).
  rewrite Nat2Z.id. done.
Qed.

Lemma holds_insert c i wi k w : (i < length (works c))%nat →
  holds (set_works c (<[i := wi]> (works c))) k w ↔
  if decide (k = i) then w = wi_state wi else holds c k w.
Proof.
  intros Hlt. unfold holds. simpl. case_decide as Hk.
  - subst k. rewrite list_lookup_insert_eq by done. naive_solver.
  - by rewrite list_lookup_insert_ne.
Qed.

Lemma inState_insert_ne c w w' x st P : w ≠ w' →
  inState (set_workerMap c (<[w' := x]> (workerMap c))) w st P ↔ inState c w st P.
Proof. intros Hne. unfold inState. simpl. by rewrite lookup_insert_ne. Qed.

(** ** Each step keeps the invariant *)

Lemma inv_register w c p js : 0 < w → workerMap c !! w = None →
  inv (mkSystem c p js) → inv (mkSystem (RegisterWorker w c).1 p js).
Proof.
  intros Hw Hnew Hi. unfold RegisterWorker. case_decide; [done|]. simpl.
  assert (∀ w' st P, inState c w' st P →
    inState (set_workerMap c (<[w := mkWorker WS_Free "No job"]> (workerMap c))) w' st P) as Hin.
  { intros w' st P Hs. apply inState_insert_ne; [|done]. intros ->. destruct Hs as (job & Hj & _). congruence. }
  split; simpl.
  - apply (in_len _ Hi).
  - intros w' x [[<- <-]|[_ Hx]]%lookup_insert_Some; [auto|]. by apply (in_workers _ Hi).
  - intros k w' Hk H0 H1. destruct (in_works _ Hi k w' Hk H0 H1) as [?|?]; [left|right]; by apply Hin.
  - intros w' t' i arg Hj. destruct (in_jobs _ Hi _ _ _ _ Hj) as [?|?]; [left|right]; by apply Hin.
  - pose proof (in_pc _ Hi) as Hp. destruct p; simpl in *; naive_solver.
Qed.

Lemma inv_poll w job j c p js : js !! w = None → GetWorkerInfo w c = mkWorker WS_Ready job →
  parseJob job = Ret j → inv (mkSystem c p js) → inv (mkSystem c p (<[w := j]> js)).
Proof using Ht.
  intros Hnone Hget Hparse Hi. unfold GetWorkerInfo, map_get in Hget.
  destruct (workerMap c !! w) as [x|] eqn:Hx; simpl in Hget; [subst x|done].
  destruct (in_workers _ Hi _ _ Hx) as (_ & [|[|(_ & k & (arg & Hk) & Hh)]]); [done|done|]. simpl in Hk.
  subst job. rewrite parseJob_jobOf in Hparse by (done || lia).
  injection Hparse as <-. split; simpl; try apply Hi.
  intros w' t' i arg' [[<- [= <- <- <-]]|[_ Hj]]%lookup_insert_Some; [|by apply (in_jobs _ Hi) in Hj].
  right. eexists. split; [exact Hx|]. split; [done|]. split; [lia|by eexists].
Qed.

Lemma inv_scan i b c js : findReady (works c) 0 false = (i, b) → i ≠ -1 →
  inv (mkSystem c Scanning js) → inv (mkSystem c (Chosen i) js).
Proof.
  intros Hf Hne Hi. destruct (findReady_ready _ _ _ _ _ (Z.le_refl 0) Hf Hne) as (m & wi & -> & Hm & H0).
  split; simpl; try apply Hi.
  - intros k w Hk ? ?. destruct (in_works _ Hi k w Hk) as [?|(? & _ & ?)]; [done|done|by left|done].
  - split; [lia|]. exists wi. by rewrite Z.add_0_l, Nat2Z.id.
Qed.

Lemma inv_pick i order c js : order ≡ₚ map_to_list (workerMap c) →
  inv (mkSystem c (Chosen i) js) →
  inv (mkSystem c (if decide (getFreeWorker order = -1) then Scanning
                   else Picked i (getFreeWorker order)) js).
Proof.
  intros Ho Hi.
  assert (∀ k w, holds c k w → w ≠ 0 → w ≠ -1 → inState c w WS_Ready (isJob (Z.of_nat k))) as Hr.
  { intros k w Hk ? ?. destruct (in_works _ Hi k w Hk) as [?|(? & _ & ?)]; done. }
  split; simpl; try apply Hi.
  - intros k w Hk ? ?. left. by apply Hr.
  - case_decide; [done|]. destruct (in_pc _ Hi) as [H0 Hh]. split; [done|]. split; [done|].
    destruct (getFreeWorker_spec order) as [|([st job] & Hin & Hst)]; [done|].
    generalize dependent (getFreeWorker order). intros w _ Hin.
    rewrite Ho, elem_of_map_to_list in Hin. simpl in Hst. subst st. by exists job.
Qed.

Lemma inv_mark now i w c c' js : markWork now i w c = Ret c' →
  inv (mkSystem c (Picked i w) js) → inv (mkSystem c' (Marked i w) js).
Proof using Ht.
  intros Hm Hi. destruct (in_pc _ Hi) as (H0 & Hh & Hfree). simpl in Hh, Hfree.
  apply bind_Ret_inv in Hm as (l & Hl & [= <-]). apply slice_set_Ret in Hl as [Hr ->].
  pose proof (λ k, holds_insert c (Z.to_nat i) (mkWorkInfo w now) k) as Hholds. simpl in Hholds.
  assert (Z.to_nat i < length (works c))%nat as Hlt by (unfold len in Hr; lia).
  split; simpl.
  - rewrite length_insert. apply (in_len _ Hi).
  - intros w' x Hx. destruct (in_workers _ Hi _ _ Hx) as (Hp & [?|[?|(? & k & Hk & Hkw)]]); [auto|auto|].
    split; [done|]. right; right. split; [done|]. exists k. split; [done|]. apply Hholds; [done|].
    case_decide; [|done]. subst k. destruct Hh as (a & Ha & Ha0), Hkw as (b & Hb & Hb0). simpl in Hb.
    rewrite Ha in Hb. simplify_eq. lia.
  - intros k w' Hk H1 H2. rewrite Hholds in Hk by done. case_decide as Hki.
    + subst k w'. right. destruct Hfree as (job & Hj & _). exists job. split; [done|].
      by rewrite Z2Nat.id.
    + destruct (in_works _ Hi k w' Hk H1 H2) as [?|(? & _ & ?)]; [by left|done].
  - apply (in_jobs _ Hi).
  - split; [done|]. split; [|done]. apply Hholds; [done|]. by rewrite decide_True.
Qed.

Lemma inv_give files i w c c' js : (t = "Map" ∨ t = "Reduce") → giveJob t files i w c = Ret c' →
  inv (mkSystem c (Marked i w) js) → inv (mkSystem c' Scanning js).
Proof using Ht.
  intros Htype Hg Hi. destruct (in_pc _ Hi) as (H0 & Hh & (fj & Hfree & _)). simpl in Hh, Hfree.
  apply bind_Ret_inv in Hg as (job & Hnew & [= <-]).
  assert (isJob i job) as Hjob.
  { unfold newJob in Hnew. destruct Htype as [Heq|Heq]; rewrite Heq in Hnew; simpl in Hnew; inv_ret;
      unfold isJob, jobOf; rewrite Heq; by eexists. }
  split; simpl.
  - apply (in_len _ Hi).
  - intros w' x [[<- <-]|[_ Hx]]%lookup_insert_Some; [|by apply (in_workers _ Hi)].
    destruct (in_workers _ Hi _ _ Hfree) as [Hp _]. split; [done|]. right; right. split; [done|].
    exists (Z.to_nat i). by rewrite Z2Nat.id.
  - intros k w' Hk H1 H2. left. destruct (decide (w' = w)) as [->|Hne].
    + eexists. split; [apply lookup_insert_eq|].
      destruct (in_works _ Hi k w Hk H1 H2) as [Hr|(j & _ & Hp)].
      * destruct Hr as (j & Hj & _). simpl in Hj. congruence.
      * simpl in Hp. injection Hp as ->. done.
    + apply inState_insert_ne; [done|]. destruct (in_works _ Hi k w' Hk H1 H2) as [?|(j & _ & Hp)]; [done|].
      simpl in Hp. congruence.
  - intros w' t' i' arg Hj. destruct (decide (w' = w)) as [->|Hne].
    + destruct (in_jobs _ Hi _ _ _ _ Hj) as [(j & Hw & _)|(j & Hw & _)]; simpl in Hw; congruence.
    + destruct (in_jobs _ Hi _ _ _ _ Hj) as [?|?]; [left|right]; by apply inState_insert_ne.
  - done.
Qed.
(** The report of a busy worker: refused from a worker that was declared dead,
    and otherwise taken from the one that has the work. *)
Lemma WorkFinish_spec w t' i arg c p js : (t = "Map" ∨ t = "Reduce") →
  inv (mkSystem c p js) → js !! w = Some (t', i, arg) →
  inState c w WS_Death (λ _, True) ∧
    WorkFinish w i (reportType t') c = Ret (c, mkErrReply true "this worker has marked Death") ∨
  ¬ inState c w WS_Death (λ _, True) ∧ 0 < w ∧ t' = t ∧ 0 ≤ i ∧ holds c (Z.to_nat i) w ∧
    ∃ ts, WorkFinish w i (reportType t') c =
      Ret (set_works (set_workerMap c (<[w := mkWorker WS_Free ""]> (workerMap c)))
             (<[Z.to_nat i := mkWorkInfo (-1) ts]> (works c)), mkErrReply false "").
Proof using Ht.
  intros Htype Hi Hj. unfold WorkFinish, map_get.
  destruct (in_jobs _ Hi _ _ _ _ Hj) as [(job & Hw & _)|(job & Hw & Hrest)]; simpl in Hw.
  { left. split; [by exists job|]. by rewrite Hw. }
  assert (¬ inState c w WS_Death (λ _, True)) as Hd by (intros (? & ? & _); congruence).
  destruct (jobs_holds _ w t' i arg Hi Hj Hd) as (Hp & -> & H0 & Hh). simpl in Hh. right.
  do 5 (split; [done|]). rewrite Hw. simpl. destruct Hh as (wi & Hwi & _).
  rewrite decide_True; last first.
  { unfold reportType. by destruct (decide (t = "Map")); [left|right]. }
  simpl. unfold slice_get, slice_set. rewrite decide_False by lia. rewrite Hwi, bind_Ret.
  rewrite decide_True; [by eexists|]. apply lookup_lt_Some in Hwi. unfold len. lia.
Qed.

Lemma inv_finish w t' i arg c c' r p js : (t = "Map" ∨ t = "Reduce") →
  js !! w = Some (t', i, arg) → WorkFinish w i (reportType t') c = Ret (c', r) →
  inv (mkSystem c p js) → inv (mkSystem c' p (delete w js)).
Proof using Ht.
  intros Htype Hj Hf Hi.
  destruct (WorkFinish_spec w t' i arg c p js Htype Hi Hj) as [[_ Hr]|(Hd & Hp & -> & H0 & Hh & ts & Hr)];
    rewrite Hr in Hf; injection Hf as <- <-.
  { destruct Hi. split; simpl in *; try done.
    intros w' t1 i1 a1 [_ Hj1]%lookup_delete_Some. by apply (in_jobs0 _ t1 i1 a1). }
  assert (Z.to_nat i < length (works c))%nat as Hlt by (destruct Hh as (? & ?%lookup_lt_Some & _); done).
  set (c' := set_works _ _).
  assert (∀ k w', holds c' k w' ↔ if decide (k = Z.to_nat i) then w' = -1 else holds c k w') as Hholds
    by (intros k w'; by apply (holds_insert c (Z.to_nat i) (mkWorkInfo (-1) ts))).
  assert (∀ w' st P, w' ≠ w → inState c w' st P → inState c' w' st P) as Hst.
  { intros w' st P Hne Hs. by apply (inState_insert_ne c w' w). }
  assert (∀ k w', holds c' k w' → w' ≠ 0 → w' ≠ -1 → w' ≠ w ∧ holds c k w') as Hother.
  { intros k w' Hk H1 H2. rewrite Hholds in Hk. case_decide as Hki; [done|]. split; [|done]. intros ->.
    destruct Hki. by apply (holds_inj _ _ _ w Hi). }
  split; simpl.
  - rewrite length_insert. apply (in_len _ Hi).
  - intros w' x [[<- <-]|[Hne Hx]]%lookup_insert_Some; [auto|].
    destruct (in_workers _ Hi _ _ Hx) as (Hp' & [?|[?|(? & k & Hk & Hkw)]]); [auto|auto|].
    split; [done|]. right; right. split; [done|]. exists k. split; [done|]. apply Hholds.
    case_decide; [|done]. subst k. destruct Hne, Hh as (a & Ha & Ha0), Hkw as (b & Hb & Hb0). simpl in Hb.
    congruence.
  - intros k w' Hk H1 H2. destruct (Hother k w' Hk H1 H2) as [Hne Hk'].
    destruct (in_works _ Hi k w' Hk' H1 H2) as [?|?]; [left|right]; by apply Hst.
  - intros w' t1 i1 a1 [Hne Hj1]%lookup_delete_Some.
    destruct (in_jobs _ Hi _ _ _ _ Hj1) as [?|?]; [left|right]; by apply Hst.
  - pose proof (in_pc _ Hi) as Hpc. assert (∀ w', inState c w' WS_Free (λ _, True) → w' ≠ w) as Hfree.
    { intros w' Hs ->. destruct (in_jobs _ Hi _ _ _ _ Hj) as [Hx|Hx];
        by pose proof (inState_det _ _ _ _ _ _ Hs Hx). }
    assert (∀ j w', 0 ≤ j → holds c (Z.to_nat j) w' → w' ≠ w → holds c' (Z.to_nat j) w') as Hkeep.
    { intros j w' Hj0 Hjw Hne. apply Hholds. case_decide as Hji; [|done]. rewrite Hji in Hjw.
      destruct Hjw as (a & Ha & Ha0), Hh as (b & Hb & Hb0). congruence. }
    destruct p as [|j|j w'|j w']; cbn [pc coord] in *; [done| | |].
    + destruct Hpc as [? ?]. split; [done|]. apply Hkeep; [done|done|lia].
    + destruct Hpc as (? & ? & Hs). split; [done|]. split; [apply Hkeep; [done|done|lia]|].
      apply Hst; [by apply Hfree|done].
    + destruct Hpc as (? & ? & Hs). split; [done|]. split; [apply Hkeep; [done|done|by apply Hfree]|].
      apply Hst; [by apply Hfree|done].
Qed.

Lemma inv_abandon w c p js : inv (mkSystem c p js) → inv (mkSystem c p (delete w js)).
Proof.
  intros Hi. split; simpl; try apply Hi. intros w' t' i arg [_ Hj]%lookup_delete_Some.
  by apply (in_jobs _ Hi) in Hj.
Qed.

(** Crash recovery. *)
Lemma recover_workerMap now l (m : gmap Z worker) w :
  foldl (λ m wi, if decide (overdue now wi) then <[wi_state wi := mkWorker WS_Death ""]> m else m) m l !! w
  = if decide (Exists (λ wi, overdue now wi ∧ wi_state wi = w) l)
    then Some (mkWorker WS_Death "") else m !! w.
Proof.
  revert m. induction l as [|wi l IH]; intros m; cbn [foldl].
  { rewrite decide_False; [done|]. by intros ?%Exists_nil. }
  rewrite IH. clear IH. destruct (decide (Exists (λ wi, overdue now wi ∧ wi_state wi = w) l)) as [He|He].
  { rewrite decide_True; [done|]. by right. }
  destruct (decide (overdue now wi)) as [Ho|Ho].
  - destruct (decide (wi_state wi = w)) as [<-|Hne].
    + rewrite lookup_insert_eq, decide_True; [done|]. by left.
    + rewrite lookup_insert_ne by done. rewrite decide_False; [done|]. rewrite Exists_cons. naive_solver.
  - rewrite decide_False; [done|]. rewrite Exists_cons. naive_solver.
Qed.

Lemma inv_recover now c js : inv (mkSystem c Scanning js) → inv (mkSystem (recover now c) Scanning js).
Proof using Ht.
  intros Hi. set (late w := Exists (λ wi, overdue now wi ∧ wi_state wi = w) (works c)).
  assert (∀ w, workerMap (recover now c) !! w =
    if decide (late w) then Some (mkWorker WS_Death "") else workerMap c !! w) as Hmap
    by (intros w; apply recover_workerMap).
  assert (∀ k w, holds c k w → w ≠ 0 → w ≠ -1 → ¬ late w → holds (recover now c) k w) as Hkeep.
  { intros k w (wi & Hk & Hw) H0 H1 Hl. exists wi. split; [|done]. simpl. rewrite list_lookup_fmap, Hk. simpl.
    rewrite decide_False; [done|]. intros Ho. apply Hl, Exists_exists. exists wi.
    split; [by eapply list_elem_of_lookup_2|done]. }
  assert (∀ k w, holds (recover now c) k w → w ≠ 0 → w ≠ -1 → holds c k w ∧ ¬ late w) as Hback.
  { intros k w (wi & Hk & Hw) H0 H1. simpl in Hk. rewrite list_lookup_fmap in Hk.
    destruct (works c !! k) as [wi'|] eqn:Hwk; [|done]. simpl in Hk.
    case_decide as Ho; simplify_eq/=. split; [by exists wi|].
    intros (wi2 & (k2 & Hk2)%list_elem_of_lookup_1 & Ho2 & Heq)%Exists_exists.
    assert (k2 = k) as -> by (apply (holds_inj _ _ _ (wi_state wi) Hi); [by exists wi2|by exists wi|done|done]).
    rewrite Hwk in Hk2. by simplify_eq. }
  assert (∀ w st P, inState c w st P → ¬ late w → inState (recover now c) w st P) as Hst.
  { intros w st P (job & Hj & HP) Hl. exists job. by rewrite Hmap, decide_False. }
  split; simpl.
  - rewrite length_fmap. apply (in_len _ Hi).
  - intros w x Hx. change (workerMap (recover now c) !! w = Some x) in Hx. rewrite Hmap in Hx. case_decide as Hl.
    + simplify_eq. split; [|auto].
      apply Exists_exists in Hl as (wi & (k & Hk)%list_elem_of_lookup_1 & (H0 & H1 & _) & <-).
      destruct (in_works _ Hi k (wi_state wi)) as [(j & Hj & _)|(j & Hj & _)]; [by exists wi|done|done| |];
        by apply (in_workers _ Hi) in Hj as [? _].
    + destruct (in_workers _ Hi _ _ Hx) as (Hp & [?|[?|(? & k & Hk & Hkw)]]); [auto|auto|].
      split; [done|]. right; right. split; [done|]. exists k. split; [done|]. apply Hkeep; [done|lia|lia|done].
  - intros k w Hk H0 H1. destruct (Hback k w Hk H0 H1) as [Hk' Hl].
    destruct (in_works _ Hi k w Hk' H0 H1) as [?|?]; [left|right]; by apply Hst.
  - intros w t' i arg Hj. destruct (decide (late w)) as [Hl|Hl].
    + left. exists "". by rewrite Hmap, decide_True.
    + destruct (in_jobs _ Hi _ _ _ _ Hj) as [?|?]; [left|right]; by apply Hst.
  - done.
Qed.

Lemma inv_step files s s' : (t = "Map" ∨ t = "Reduce") → step t files s s' → inv s → inv s'.
Proof using Ht.
  intros Htype Hs. destruct Hs.
  - by apply inv_register.
  - by eapply inv_poll.
  - by eapply inv_finish.
  - by apply inv_abandon.
  - apply inv_recover.
  - by eapply inv_scan.
  - by apply inv_pick.
  - by eapply inv_mark.
  - by eapply inv_give.
Qed.
End phase.

(** ** Runs of the system *)

Definition worksOf (files : list string) (nReduce : nat) (t : string) : nat :=
  if decide (t = "Map") then length files else nReduce.

Lemma runs_type files nReduce t s : runs files nReduce t s → t = "Map" ∨ t = "Reduce".
Proof. induction 1; auto. Qed.

Lemma type_noSpace t : t = "Map" ∨ t = "Reduce" → noSpace t = true.
Proof. by intros [-> | ->]. Qed.

(** A phase starts with no worker at work. *)
Lemma inv_start t n c js :
  (∀ w x, workerMap c !! w = Some x → 0 < w ∧ (w_state x = WS_Free ∨ w_state x = WS_Death)) →
  (∀ w j, js !! w = Some j → inState c w WS_Death (λ _, True)) →
  inv t n (mkSystem (startPhase n c) Scanning js).
Proof.
  intros Hw Hj. split; simpl.
  - apply length_replicate.
  - intros w x Hx. destruct (Hw w x Hx) as [? [?|?]]; auto.
  - intros k w (wi & [-> _]%lookup_replicate & Hs) H0. by destruct H0.
  - intros w t' i arg Hjw. left. by apply (Hj w _ Hjw).
  - done.
Qed.

Lemma runs_inv files nReduce t s : runs files nReduce t s → inv t (worksOf files nReduce t) s.
Proof.
  induction 1 as [|t s s' Hr IH Hs|c js Hr IH Hf].
  - apply inv_start; simpl; intros ? ?; by rewrite lookup_empty.
  - pose proof (runs_type _ _ _ _ Hr) as Ht. eapply inv_step; [by apply type_noSpace|done|done|done].
  - pose proof (proj2 (findReady_none _ _ _ _ (Z.le_refl 0) Hf)) as [Hd _].
    destruct (Hd eq_refl) as [_ Hdone]. rewrite Forall_lookup in Hdone.
    assert (∀ k w, holds c k w → w = -1) as Hh by (intros k w (wi & Hk & <-); by apply (Hdone k)).
    apply inv_start.
    + intros w x Hx. destruct (in_workers _ _ _ IH _ _ Hx) as (Hp & [?|[?|(_ & k & _ & Hk)]]); [auto|auto|].
      apply Hh in Hk. lia.
    + intros w [[t' i] arg] Hj. destruct (in_jobs _ _ _ IH _ _ _ _ Hj) as [?|(job & Hw & _)]; [done|].
      destruct (in_workers _ _ _ IH _ _ Hw) as (Hp & [|[|(_ & k & _ & Hk)]]); [done|done|].
      apply Hh in Hk. lia.
Qed.


(** What is done stays done: until the end of the phase no step takes back a
    work that was reported. *)
Theorem done_is_final files nReduce t s s' k :
  runs files nReduce t s → rtc (step t files) s s' →
  holds (coord s) k (-1) → holds (coord s') k (-1).
Proof.
  intros Hr Hs. revert Hr. induction Hs as [s|s s1 s' H1 _ IH]; intros Hr Hk; [done|].
  apply IH; [by eapply run_step|]. clear IH. pose proof (runs_type _ _ _ _ Hr) as Ht.
  pose proof (runs_inv _ _ _ _ Hr) as Hi. pose proof (type_noSpace t Ht) as Hns.
  destruct H1 as [w c p js| |w t' i arg c c' r p js Hj Hf| |now c js| | |now i w c c' js Hm|i w c c' js Hg];
    simpl in *; try done.
  - unfold RegisterWorker. by case_decide.
  - destruct (WorkFinish_spec t Hns _ w t' i arg c p js Ht Hi Hj) as [[_ Hw]|(_ & _ & _ & _ & Hh & ts & Hw)];
      rewrite Hw in Hf; simplify_eq; [done|].
    apply (holds_insert c (Z.to_nat i) (mkWorkInfo (-1) ts)); [by destruct Hh as (? & ?%lookup_lt_Some & _)|].
    by case_decide.
  - destruct Hk as (wi & Hk & Hs). exists wi. simpl. rewrite list_lookup_fmap, Hk. simpl.
    rewrite decide_False; [done|]. unfold overdue. tauto.
  - apply bind_Ret_inv in Hm as (l & Hl & [= <-]). apply slice_set_Ret in Hl as [Hlt ->].
    destruct (in_pc _ _ _ Hi) as (_ & (wi & Hwi & H0) & _). simpl in Hwi.
    apply (holds_insert c (Z.to_nat i) (mkWorkInfo w now)); [by apply lookup_lt_Some in Hwi|].
    case_decide; [|done]. subst k. destruct Hk as (wi' & Hk & Hs). congruence.
  - apply bind_Ret_inv in Hg as (job & _ & [= <-]). done.
Qed.

(** ** One iteration of [AllocWork] *)

Lemma getFreeWorker_none order id w :
  (∀ id w, (id, w) ∈ order → w_state w = WS_Free → id ≠ -1) → getFreeWorker order = -1 → (id, w) ∈ order → w_state w ≠ WS_Free.
Proof.
  intros Hids. induction order as [|[id' w'] order IH]; simpl; intros Hg Hin; [by apply elem_of_nil in Hin|].
  case_decide as Hf; [by destruct (Hids id' w'); [left|done|]|].
  apply elem_of_cons in Hin as [[= -> ->]|Hin]; [done|]. apply IH; [|done|done].
  intros ? ? ?. eapply Hids. by right.
Qed.

Lemma recover_length now c : length (works (recover now c)) = length (works c).
Proof. simpl. apply length_fmap. Qed.

Lemma recover_done now c :
  Forall (λ wi, wi_state wi = -1) (works (recover now c)) ↔ Forall (λ wi, wi_state wi = -1) (works c).
Proof.
  simpl. rewrite Forall_fmap. apply Forall_iff. intros wi. simpl. case_decide as Ho; [|done].
  simpl. unfold overdue in Ho. lia.
Qed.

Lemma giveJob_returns t files i w c :
  (t = "Map" ∧ 0 ≤ i < len files ∨ t = "Reduce") →
  ∃ job, giveJob t files i w c = Ret (set_workerMap c (<[w := mkWorker WS_Ready job]> (workerMap c))) ∧
         isJob t i job.
Proof.
  unfold giveJob, newJob, isJob, jobOf. intros [[-> Hi]| ->]; simpl.
  - destruct (slice_get_in files i Hi) as (f & -> & _). eexists. split; [reflexivity|]. by eexists.
  - eexists. split; [reflexivity|]. by eexists.
Qed.

(** C15: one iteration of the allocation loop.  It returns; it ends the phase exactly
    when every work is done; and if some work is ready and some worker is free,
    then a ready work goes to a free worker. *)
Theorem AllocWork_iteration now order t files c :
  (∀ m, order m ≡ₚ map_to_list m) → (∀ w x, workerMap c !! w = Some x → 0 < w) →
  (t = "Map" ∧ length (works c) = length files ∨ t = "Reduce") →
  ∃ r, AllocWork now order t files (length (works c)) c = Ret r ∧
    (r = None ↔ Forall (λ wi, wi_state wi = -1) (works c)) ∧
    ∀ k0 w0, holds (recover now c) k0 0 → inState (recover now c) w0 WS_Free (λ _, True) →
      ∃ k w c', r = Some c' ∧ holds (recover now c) k 0 ∧ inState (recover now c) w WS_Free (λ _, True) ∧
        holds c' k w ∧ inState c' w WS_Ready (isJob t (Z.of_nat k)).
Proof.
  intros Hord Hpos Ht. unfold AllocWork. set (c1 := recover now c). cbv zeta.
  pose proof (recover_length now c) as Hlen. pose proof (recover_done now c) as Hdone. fold c1 in Hlen, Hdone.
  rewrite decide_False by (unfold len; lia). rewrite <- Hlen, firstn_all.
  assert (∀ w job, workerMap c1 !! w = Some (mkWorker WS_Free job) → 0 < w) as Hfree.
  { intros w job Hw. unfold c1, recover in Hw. simpl in Hw. rewrite recover_workerMap in Hw.
    case_decide; [done|]. by eapply Hpos. }
  assert (∀ id w, (id, w) ∈ order (workerMap c1) ↔ workerMap c1 !! id = Some w) as Hin.
  { intros id w. by rewrite (Hord (workerMap c1)), elem_of_map_to_list. }
  destruct (findReady (works c1) 0 false) as [i b] eqn:Hf. destruct (decide (i = -1)) as [->|Hi].
  { destruct (findReady_none _ _ _ _ (Z.le_refl 0) Hf) as [Hn Hb]. eexists. split; [reflexivity|].
    split; [rewrite <- Hdone; destruct b; naive_solver|]. intros k0 w0 (wi & Hk & H0) _.
    rewrite Forall_lookup in Hn. by destruct (Hn _ _ Hk). }
  destruct (findReady_ready _ _ _ _ _ (Z.le_refl 0) Hf Hi) as (k & wi & Heq & Hk & H0).
  rewrite Z.add_0_l in Heq. subst i.
  assert (¬ Forall (λ wi, wi_state wi = -1) (works c)) as Hnd.
  { rewrite <- Hdone. intros Hall. rewrite Forall_lookup in Hall. specialize (Hall _ _ Hk). lia. }
  destruct (decide (getFreeWorker (order (workerMap c1)) = -1)) as [Hw|Hw].
  { eexists. split; [reflexivity|]. split; [naive_solver|]. intros k0 w0 _ (job & Hj & _). exfalso.
    apply (getFreeWorker_none (order (workerMap c1)) w0 (mkWorker WS_Free job)); [|done|by apply Hin|done].
    intros id [st j] Hid Hst. simpl in Hst. subst st. apply Hin, Hfree in Hid. lia. }
  destruct (getFreeWorker_spec (order (workerMap c1))) as [?|([st job] & Hid & Hst)]; [done|].
  simpl in Hst. subst st. apply Hin in Hid. generalize dependent (getFreeWorker (order (workerMap c1))).
  intros w _ Hw. apply lookup_lt_Some in Hk as Hlt. unfold markWork, slice_set.
  rewrite decide_True by (unfold len; lia).
  destruct (giveJob_returns t files (Z.of_nat k) w
    (set_works c1 (<[Z.to_nat (Z.of_nat k) := mkWorkInfo w now]> (works c1)))) as (j & Hgive & Hj).
  { unfold len. destruct Ht as [[-> ?]| ->]; [left; split; [done|lia]|by right]. }
  rewrite bind_Ret, bind_mret, Hgive, bind_Ret. eexists. split; [reflexivity|].
  split; [naive_solver|]. intros k0 w0 _ _. eexists k, w, _. split; [reflexivity|].
  split; [by exists wi|]. split; [by exists job|]. split.
  - eexists. simpl. rewrite Nat2Z.id, list_lookup_insert_eq by done. done.
  - eexists. simpl. by rewrite lookup_insert_eq.
Qed.

(** C16: a worker reads the job that the coordinator wrote: the type and the
    number always, and the name of the file when it has no space in it. *)
Theorem job_roundtrip t files i job :
  (t = "Map" ∨ t = "Reduce") → 0 ≤ i → newJob t files i = Ret job →
  ∃ arg, parseJob job = Ret (t, i, arg) ∧
    (t = "Map" → ∀ f, slice_get files i = Ret f → noSpace f = true → arg = f) ∧
    (t = "Reduce" → arg = pretty i).
Proof.
  intros Ht Hi Hn. pose proof (type_noSpace t Ht) as Hns. unfold newJob in Hn.
  destruct Ht as [-> | ->]; simpl in Hn.
  - apply bind_Ret_inv in Hn as (f & Hf & [= <-]). eexists. split; [by apply (parseJob_jobOf "Map")|].
    split; [|done]. intros _ f' Hf' Hs. rewrite Hf in Hf'. simplify_eq. by rewrite splitSpace_word.
  - injection Hn as <-. eexists. split; [by apply (parseJob_jobOf "Reduce")|].
    split; [done|]. intros _. destruct (pretty_digits i Hi) as (Hd & _).
    by rewrite splitSpace_word by by apply allDigits_noSpace.
Qed.

(** ** One map task, one worker *)

Definition oneFile : list string := ["f0"].
Definition c0 : Coordinator := startRun 1 (MakeCoordinator 1).
Definition c1 : Coordinator := (RegisterWorker 7 c0).1.
Definition c2 : Coordinator := valueOf c1 (markWork 5 0 7 c1).
Definition c3 : Coordinator := valueOf c2 (giveJob "Map" oneFile 0 7 c2).
Definition busy : system := mkSystem c3 Scanning {[7 := ("Map", 0, "f0")]}.

Lemma busy_runs : runs oneFile 1 "Map" busy.
Proof.
  eapply run_step; [|eapply (st_poll _ _ 7 (jobOf "Map" 0 "f0")); [done|reflexivity|]].
  2: { rewrite parseJob_jobOf by done. reflexivity. }
  eapply run_step; [|eapply (st_give _ _ 0 7 c2 c3); vm_compute; reflexivity].
  eapply run_step; [|eapply (st_mark _ _ 5 0 7 c1 c2); vm_compute; reflexivity].
  assert (Picked 0 7 = if decide (getFreeWorker (map_to_list (workerMap c1)) = -1) then Scanning
    else Picked 0 (getFreeWorker (map_to_list (workerMap c1)))) as -> by (vm_compute; reflexivity).
  eapply run_step; [|apply (st_pick _ _ 0 (map_to_list (workerMap c1)) c1 ∅); done].
  eapply run_step; [|apply (st_scan _ _ 0 false c1 ∅); [vm_compute; reflexivity|done]].
  eapply run_step; [|apply (st_register _ _ 7 c0 Scanning ∅); [done|vm_compute; reflexivity]].
  apply run_start.
Qed.


(** The coordinator after the report. *)
Definition c4 : Coordinator := (valueOf (c3, mkErrReply true "") (WorkFinish 7 0 "Map" c3)).1.
Definition reported : system := mkSystem c4 Scanning (delete 7 (jobs busy)).

Lemma reported_runs : runs oneFile 1 "Map" reported.
Proof.
  eapply run_step; [apply busy_runs|].
  apply (st_finish _ _ 7 "Map" 0 "f0" c3 c4 (mkErrReply false "") Scanning (jobs busy));
    vm_compute; reflexivity.
Qed.

Lemma done_is_final_witness : holds (recover 20 c4) 0 (-1).
Proof.
  apply (done_is_final oneFile 1 "Map" reported (mkSystem (recover 20 c4) Scanning (delete 7 (jobs busy))) 0 reported_runs).
  - apply rtc_once, st_recover.
  - eexists. split; vm_compute; reflexivity.
Defined.

Lemma AllocWork_iteration_witness : ∃ r,
  AllocWork 5 map_to_list "Map" oneFile (length (works c4)) c4 = Ret r ∧ r = None.
Proof.
  destruct (AllocWork_iteration 5 map_to_list "Map" oneFile c4) as (r & Hr & Hnone & _).
  - done.
  - intros w x Hx. assert (workerMap c4 = {[7 := mkWorker WS_Free ""]}) as Hm by (vm_compute; reflexivity).
    rewrite Hm in Hx. apply lookup_singleton_Some in Hx as [<- _]. done.
  - left. split; reflexivity.
  - exists r. split; [exact Hr|]. apply Hnone. repeat constructor.
Defined.

Lemma job_roundtrip_witness : ∃ arg, parseJob "Map 12 pg-grimm.txt" = Ret ("Map", 12, arg) ∧ arg = "pg-grimm.txt".
Proof.
  destruct (job_roundtrip "Map" (replicate 12 "" ++ ["pg-grimm.txt"]) 12 "Map 12 pg-grimm.txt")
    as (arg & Hp & Hf & _); [by left|lia|vm_compute; reflexivity|].
  exists arg. split; [exact Hp|]. apply (Hf eq_refl); vm_compute; reflexivity.
Defined.
