(* ===== verification/Worker.v ===== *)
(** * MapReduce: worker processes, and the whole system ([src/mr/worker.go])

    The process of a worker (start-up, the polling loop of [Worker], [do_it], the
    file operations of [do_mapf] and [do_reducef] one by one, the RPC stubs), and
    a world in which such processes run beside the coordinator of [Coordinator]
    on one directory: calls that are lost, workers that crash, are slow or are
    declared dead, and output files that several workers write at once.  The main
    theorem says that when the coordinator is done the output files hold the
    lines of [main/mrsequential.go], under the conditions on the schedule that the
    code does not enforce ([calm]). *)

From S2P Require Import Prelude MapReduce Coordinator.
Local Open Scope Z_scope.

(** ** The data of a worker *)

Record WorkerType := mkWorkerType {
  w_mapf : string → string → list KeyValue;
  w_reducef : string → list string → string;
  w_nReduce : Z;
  w_id : Z;
}.

Definition set_w_nReduce (w : WorkerType) (n : Z) : WorkerType :=
  mkWorkerType (w_mapf w) (w_reducef w) n (w_id w).

(** ** The RPC stubs

    What becomes of a call: it is executed and answered; it is executed and the
    answer is lost; it is not executed.  In the last two cases [call] returns
    false and leaves the reply as it was. *)
Inductive fate := Answered | ReplyLost | RequestLost.

Definition call (f : fate) : bool := match f with Answered => true | _ => false end.
Definition executed (f : fate) : bool := match f with RequestLost => false | _ => true end.

(** Whether the worker goes on; otherwise [os.Exit(1)]. *)
Definition CallRegisterWorker (ok : bool) (reply : ErrReply) : bool := ok && negb (IsErr reply).

Definition CallGetWorkerInfo (ok : bool) (reply : worker) : option worker :=
  if ok then Some reply else None.

Definition CallWorkFinish (ok : bool) (reply : ErrReply) : ErrReply :=
  if ok then reply else mkErrReply false "".

(** What the coordinator has seen of the call. *)
Definition CallWorkerDeath (f : fate) (id : Z) (c : Coordinator) : Coordinator :=
  if executed f then WorkerDeath id c else c.

Definition CallGetNReduce (ok : bool) (reply : Z) : Z := if ok then reply else 0.

(** ** Where a worker is

    Between two of these points a worker makes one call to the coordinator or
    one access to the directory. *)
Inductive wpc :=
| W_Start                                              (* [Worker]: before [CallGetNReduce] *)
| W_Register                                           (* before [CallRegisterWorker] *)
| W_Loop                                               (* the top of the loop *)
| W_Job (work : string)                                (* [do_it(work)] *)
| W_Map (workId : Z) (mrKVs : list KeyValue) (i : Z)   (* [do_mapf]: the temporary files before [i] are written *)
| W_List                                               (* the report was not refused: [dir.Readdir] *)
| W_Rename (files : list fname)                        (* the files that are still to be looked at *)
| W_Read (workId : Z) (files : list fname) (kva : list KeyValue)  (* [do_reducef]: what is left to read, what was read *)
| W_Write (workId : Z) (off : nat) (kva : list KeyValue)          (* the offset in [mr-out-workId], the pairs left *)
| W_Exiting                                            (* before [CallWorkerDeath] *)
| W_Gone.                                              (* the process has ended *)

(** The branches of the loop of [Worker]. *)
Definition onInfo (workerInfo : option worker) : wpc :=
  match workerInfo with
  | None => W_Loop
  | Some info =>
      match w_state info with
      | WS_Ready => W_Job (w_work info)
      | WS_Exiting => W_Exiting
      | WS_Free | WS_Working | WS_Death => W_Loop
      end
  end.

(** ** Output files

    [mr-out-r] is opened with [os.Create] and written line after line, every
    writer at its own offset; a hole reads as zero bytes. *)
Abbreviation byteSeq := (list Ascii.ascii).

Definition bytesOf (lines : list string) : byteSeq := concat (map String.list_ascii_of_string lines).

Definition writeAt (off : nat) (data f : byteSeq) : byteSeq :=
  take off (f ++ replicate (off - length f) Ascii.zero) ++ data ++ drop (off + length data) f.

(** ** The world *)

Record world := mkWorld {
  phase : string;                        (* where [run] is: ["Map"], ["Reduce"] or ["Exit"] *)
  sys : system;
  disk : fileMap;
  outs : gmap Z byteSeq;                 (* the files [mr-out-r] *)
  procs : gmap Z (WorkerType * wpc);
}.

(** The sections of [AllocWork]. *)
Inductive allocAct := Recover (now : Z) | Scan | Pick (order : list (Z * worker)) | Mark (now : Z) | Give.

(** What a worker does next. *)
Inductive procAct :=
| P_NReduce (f : fate) | P_Register (f : fate) | P_Poll (f : fate) | P_DoIt (files : list fname)
| P_WriteTmp | P_Report (f : fate) | P_List (files : list fname) | P_RenameNext
| P_ReadNext | P_WriteNext | P_Death (f : fate) | P_Fail | P_Crash.

Inductive action := Alloc (a : allocAct) | NextPhase | Finish | Spawn (pid : Z) | Proc (pid : Z) (a : procAct).

Definition execAlloc (workType : string) (files : list string) (a : allocAct) (s : system) : option system :=
  let c := coord s in
  match a, pc s with
  | Recover now, Scanning => Some (mkSystem (recover now c) Scanning (jobs s))
  | Scan, Scanning =>
      let '(i, _) := findReady (works c) 0 false in
      if decide (i = -1) then None else Some (mkSystem c (Chosen i) (jobs s))
  | Pick order, Chosen i =>
      if decide (order ≡ₚ map_to_list (workerMap c))
      then Some (mkSystem c (if decide (getFreeWorker order = -1) then Scanning
                             else Picked i (getFreeWorker order)) (jobs s))
      else None
  | Mark now, Picked i w =>
      match markWork now i w c with Ret c' => Some (mkSystem c' (Marked i w) (jobs s)) | _ => None end
  | Give, Marked i w =>
      match giveJob workType files i w c with Ret c' => Some (mkSystem c' Scanning (jobs s)) | _ => None end
  | _, _ => None
  end.

Definition set_coord (s : system) (c : Coordinator) : system := mkSystem c (pc s) (jobs s).
Definition set_jobs (s : system) (js : gmap Z (string * Z * string)) : system := mkSystem (coord s) (pc s) js.

Definition set_sys (w : world) (s : system) : world := mkWorld (phase w) s (disk w) (outs w) (procs w).
Definition set_disk (w : world) (d : fileMap) : world := mkWorld (phase w) (sys w) d (outs w) (procs w).
Definition set_outs (w : world) (o : gmap Z byteSeq) : world := mkWorld (phase w) (sys w) (disk w) o (procs w).
Definition set_proc (w : world) (pid : Z) (x : WorkerType * wpc) : world :=
  mkWorld (phase w) (sys w) (disk w) (outs w) (<[pid := x]> (procs w)).

Section world.
  Context (sort : list KeyValue → list KeyValue).
  Context (mapf : string → string → list KeyValue) (reducef : string → list string → string).
  (** What [os.ReadFile] finds. *)
  Context (content : string → option string).
  Context (files : list string) (nReduce : nat).

(** [do_it], up to the first access to the directory. *)
Definition do_it (dir : list fname) (w : WorkerType) (work : string) : outcome wpc :=
  '(workType, workId, workArg) ← parseJob work;
  if decide (workType = "Map") then
    match content workArg with
    | Some text => mret (W_Map workId (sort (w_mapf w workArg text)) 0)
    | None => Panic
    end
  else mret (W_Read workId dir []).

(** [Readdir(-1)] gives the names in some order. *)
Definition isListing (d : fileMap) (dir : list fname) : Prop := dir ≡ₚ elements (dom d).

#[export] Instance isListing_dec d dir : Decision (isListing d dir).
Proof. unfold isListing. apply _. Defined.

(** The report at the end of [do_mapf] and of [do_reducef], and where the worker
    is afterwards. *)
Definition report (pid workId : Z) (workType : string) (f : fate) (next : ErrReply → wpc) (w : world)
  : option (system * wpc) :=
  let js := delete pid (jobs (sys w)) in
  if executed f then
    match WorkFinish pid workId workType (coord (sys w)) with
    | Ret (c, reply) => Some (mkSystem c (pc (sys w)) js, next (CallWorkFinish (call f) reply))
    | _ => None
    end
  else Some (set_jobs (sys w) js, next (CallWorkFinish false (mkErrReply false ""))).

(** The new state of the coordinator and the new point of worker [pid], for the
    actions that leave the directory alone. *)
Definition execQuiet (pid : Z) (a : procAct) (wt : WorkerType) (p : wpc) (w : world)
  : option (system * (WorkerType * wpc)) :=
  let s := sys w in
  let c := coord s in
  match a, p with
  | P_NReduce f, W_Start =>
      Some (s, (set_w_nReduce wt (CallGetNReduce (call f) (GetNReduce c)), W_Register))
  | P_Register f, W_Register =>
      let '(c', reply) := if executed f then RegisterWorker pid c else (c, mkErrReply false "") in
      Some (set_coord s c', (wt, if CallRegisterWorker (call f) reply then W_Loop else W_Gone))
  | P_Poll f, W_Loop =>
      let p' := onInfo (CallGetWorkerInfo (call f) (GetWorkerInfo pid c)) in
      let js := match p' with
                | W_Job work => match parseJob work with Ret j => <[pid := j]> (jobs s) | _ => jobs s end
                | _ => jobs s
                end in
      Some (set_jobs s js, (wt, p'))
  | P_DoIt dir, W_Job work =>
      if decide (isListing (disk w) dir) then
        match do_it dir wt work with
        | Ret p' => Some (s, (wt, p'))
        | _ => Some (set_jobs s (delete pid (jobs s)), (wt, W_Gone))
        end
      else None
  | P_Report f, W_Map workId _ i =>
      if decide (i < w_nReduce wt) then None
      else '(s', p') ← report pid workId "Map" f (λ reply, if IsErr reply then W_Loop else W_List) w;
           Some (s', (wt, p'))
  | P_Report f, W_Write workId _ [] =>
      '(s', p') ← report pid workId "Reduce" f (λ _, W_Loop) w;
      Some (s', (wt, p'))
  | P_List dir, W_List =>
      if decide (isListing (disk w) dir) then Some (s, (wt, W_Rename dir)) else None
  | P_RenameNext, W_Rename [] => Some (s, (wt, W_Loop))
  | P_Death f, W_Exiting =>
      Some (set_coord s (CallWorkerDeath f pid c), (wt, W_Gone))
  | P_Fail, (W_Job _ | W_Map _ _ _ | W_Read _ _ _ | W_List) =>
      Some (set_jobs s (delete pid (jobs s)), (wt, W_Loop))
  | P_Crash, _ => Some (set_jobs s (delete pid (jobs s)), (wt, W_Gone))
  | _, _ => None
  end.

(** The accesses to the directory. *)
Definition execFile (pid : Z) (a : procAct) (wt : WorkerType) (p : wpc) (w : world) : option world :=
  match a, p with
  | P_WriteTmp, W_Map workId mrKVs i =>
      if decide (i < w_nReduce wt) then
        Some (set_proc (set_disk w (writeTmp (w_nReduce wt) (w_id wt) workId mrKVs (disk w) i))
                pid (wt, W_Map workId mrKVs (i + 1)))
      else None
  | P_RenameNext, W_Rename (name :: rest) =>
      Some (set_proc (set_disk w (renameOne (w_id wt) (disk w) name)) pid (wt, W_Rename rest))
  | P_ReadNext, W_Read workId (name :: rest) kva =>
      Some (set_proc w pid (wt, W_Read workId rest (kva ++ readOne workId (disk w) name)))
  | P_ReadNext, W_Read workId [] kva =>
      Some (set_proc (set_outs w (<[workId := []]> (outs w))) pid (wt, W_Write workId 0 (sort kva)))
  | P_WriteNext, W_Write workId off (kv :: rest) =>
      let '(values, others) := sameKey (Key kv) rest in
      let line := String.list_ascii_of_string
                    (outputLine (Key kv) (w_reducef wt (Key kv) (Value kv :: values))) in
      Some (set_proc (set_outs w (<[workId := writeAt off line (default [] (outs w !! workId))]> (outs w)))
              pid (wt, W_Write workId (off + length line) others))
  | _, _ => None
  end.

Definition execProc (pid : Z) (a : procAct) (w : world) : option world :=
  '(wt, p) ← procs w !! pid;
  match execQuiet pid a wt p w with
  | Some (s, x) => Some (set_proc (set_sys w s) pid x)
  | None => execFile pid a wt p w
  end.

(** [run]: the end of [AllocWork], and what comes next. *)
Definition nextPhase (w : world) : option world :=
  let c := coord (sys w) in
  match pc (sys w), findReady (works c) 0 false with
  | Scanning, (-1, false) =>
      if decide (phase w = "Map") then
        Some (mkWorld "Reduce" (set_coord (sys w) (startPhase nReduce c)) (disk w) (outs w) (procs w))
      else if decide (phase w = "Reduce") then
        Some (mkWorld "Exit" (set_coord (sys w) (exitWorkers (set_c_state c "Exiting"))) (disk w) (outs w) (procs w))
      else None
  | _, _ => None
  end.

Definition exec (a : action) (w : world) : option world :=
  match a with
  | Alloc a => if decide (phase w = "Exit") then None
               else set_sys w <$> execAlloc (phase w) files a (sys w)
  | NextPhase => nextPhase w
  | Finish => if decide (phase w = "Exit") then
                if isAllDeath (coord (sys w))
                then Some (set_sys w (set_coord (sys w) (set_c_state (coord (sys w)) "Death"))) else None
              else None
  | Spawn pid => if decide (0 < pid ∧ procs w !! pid = None)
                 then Some (set_proc w pid (mkWorkerType mapf reducef 0 pid, W_Start)) else None
  | Proc pid a => execProc pid a w
  end.

Definition world0 : world :=
  mkWorld "Map" (mkSystem (startRun (length files) (MakeCoordinator (Z.of_nat nReduce))) Scanning ∅) ∅ ∅ ∅.

(** ** What the code relies on

    A worker renames its files after its report, so nobody must need them, and
    it must not fail, before it is through; nor may a worker that has been
    declared dead crash in the middle of an output file, which it truncated; and
    a worker that does not learn the number of reduce tasks goes on with 0. *)
Definition at_ (w : world) (pid : Z) (p : wpc) : Prop := ∃ wt, procs w !! pid = Some (wt, p).

Definition dead (c : Coordinator) (pid : Z) : Prop := inState c pid WS_Death (λ _, True).

Definition renaming (w : world) (pid : Z) : Prop := at_ w pid W_List ∨ ∃ dir, at_ w pid (W_Rename dir).

Definition writing (w : world) (pid : Z) : Prop := ∃ r off kva, at_ w pid (W_Write r off kva).

Definition reduceJob (work : string) : Prop := ∃ workType i arg, parseJob work = Ret (workType, i, arg) ∧ workType ≠ "Map".

Definition calm (w : world) (a : action) : Prop :=
  match a with
  | Proc _ (P_NReduce f) => f = Answered
  | Proc pid (P_DoIt _) => ∀ work pid', at_ w pid (W_Job work) → reduceJob work → ¬ renaming w pid'
  | Proc pid (P_Fail | P_Crash) => ¬ renaming w pid ∧ (writing w pid → ¬ dead (coord (sys w)) pid)
  | _ => True
  end.

(** The worlds that are reached by calm actions. *)
Inductive reached : world → Prop :=
| reached_start : reached world0
| reached_step w a w' : reached w → calm w a → exec a w = Some w' → reached w'.
End world.

(** ** Writing at an offset *)

Lemma writeAt_lookup off data f p : (p < off ∨ off + length data ≤ p)%nat → (p < length f)%nat →
  writeAt off data f !! p = f !! p.
Proof.
  intros Hp Hlt. unfold writeAt. set (g := f ++ _).
  assert (length (take off g) = off) as Hlen.
  { unfold g. rewrite length_take, length_app, length_replicate. lia. }
  destruct Hp as [Hp|Hp].
  - rewrite lookup_app_l by lia. rewrite lookup_take_lt by done. unfold g. by rewrite lookup_app_l.
  - rewrite lookup_app_r, Hlen by lia. rewrite lookup_app_r by lia. rewrite lookup_drop. f_equal. lia.
Qed.

Lemma writeAt_new off data f p : (off ≤ p < off + length data)%nat →
  writeAt off data f !! p = data !! (p - off)%nat.
Proof.
  intros Hp. unfold writeAt. set (g := f ++ _).
  assert (length (take off g) = off) as Hlen.
  { unfold g. rewrite length_take, length_app, length_replicate. lia. }
  rewrite lookup_app_r, Hlen by lia. by rewrite lookup_app_l by lia.
Qed.

Lemma writeAt_length off data f :
  length (writeAt off data f) = Nat.max (length f) (off + length data).
Proof.
  unfold writeAt. rewrite !length_app, length_take, length_app, length_replicate, length_drop. lia.
Qed.

Lemma bytesOf_cons l ls : bytesOf (l :: ls) = String.list_ascii_of_string l ++ bytesOf ls.
Proof. done. Qed.

(** ** The loop over the groups, group by group *)

Section lines.
  Context (reducef : string → list string → string).

Definition linesOf (kva : list KeyValue) : list string :=
  valueOf [] (reduceLoop reducef (S (length kva)) kva).

Lemma sameKey_shorter key kva values others :
  sameKey key kva = (values, others) → (length others ≤ length kva)%nat.
Proof.
  destruct (sameKey_spec key kva) as (same & others' & -> & -> & _). intros [= _ <-].
  rewrite length_app. lia.
Qed.

Lemma reduceLoop_fuel fuel fuel' kva : (length kva < fuel)%nat → (length kva < fuel')%nat →
  reduceLoop reducef fuel kva = reduceLoop reducef fuel' kva ∧ returns (reduceLoop reducef fuel kva).
Proof.
  revert fuel' kva. induction fuel as [|fuel IH]; intros [|fuel'] kva Hf Hf'; [lia|lia|lia|].
  destruct kva as [|kv rest]; [split; [done|by eexists]|]. simpl in *.
  destruct (sameKey (Key kv) rest) as [values others] eqn:Hs. apply sameKey_shorter in Hs.
  destruct (IH fuel' others) as [Heq [ls Hr]]; [lia|lia|]. rewrite <- Heq, Hr. split; [done|by eexists].
Qed.

Lemma reduceLoop_linesOf fuel kva : (length kva < fuel)%nat →
  reduceLoop reducef fuel kva = Ret (linesOf kva).
Proof.
  intros Hf. unfold linesOf. destruct (reduceLoop_fuel fuel (S (length kva)) kva) as [<- [ls Hr]]; [done|lia|].
  by rewrite Hr.
Qed.

Lemma linesOf_cons kv rest values others : sameKey (Key kv) rest = (values, others) →
  linesOf (kv :: rest) = outputLine (Key kv) (reducef (Key kv) (Value kv :: values)) :: linesOf others.
Proof.
  intros Hs. pose proof (sameKey_shorter _ _ _ _ Hs) as Hle. unfold linesOf at 1.
  assert (length others < length (kv :: rest))%nat as Hlt by (simpl; lia).
  generalize dependent (length (kv :: rest)). intros n Hlt. simpl. rewrite Hs.
  by rewrite reduceLoop_linesOf by lia.
Qed.
End lines.
