(* ===== verification/WorkerSafety.v ===== *)
(** * MapReduce: distributed execution computes what the sequential program computes

    The invariant of the worlds of [Worker] that calm actions reach, and the main
    theorem on MapReduce: when [Done] answers true, the output files hold the
    lines of [main/mrsequential.go]. *)

From stdpp Require Import pretty.
From S2P Require Import Prelude MapReduce Coordinator Worker.
Local Open Scope Z_scope.

(** ** The sections of [AllocWork] *)

(** What is left alone by all of them. *)
Definition static (c c' : Coordinator) : Prop := c_state c' = c_state c ∧ nReduce c' = nReduce c.

(** The map jobs that the coordinator has given name their file. *)
Definition readyOk (files : list string) (ph : string) (c : Coordinator) : Prop :=
  ∀ q job, workerMap c !! q = Some (mkWorker WS_Ready job) → ph = "Map" →
    ∃ k f, files !! k = Some f ∧ job = jobOf "Map" (Z.of_nat k) f.

(** A change of the coordinator in which no worker comes back from the dead, no
    worker is new and nothing becomes done. *)
Record settled (c c' : Coordinator) : Prop := {
  st_dead q : dead c q → dead c' q;
  st_known q : is_Some (workerMap c' !! q) → is_Some (workerMap c !! q);
  st_done k : holds c' k (-1) → holds c k (-1);
}.

#[export] Instance settled_refl : Reflexive settled.
Proof. intros c. by split. Qed.

Section alloc.
  Context (files : list string) (t : string) (Ht : t = "Map" ∨ t = "Reduce") (n : nat).

Lemma execAlloc_step a s s' : execAlloc t files a s = Some s' → step t files s s' ∧ jobs s' = jobs s.
Proof using.
  destruct s as [c p js], a as [now| |order|now|], p as [|i|i w|i w]; simpl; intros H; try done.
  - simplify_eq. split; [apply st_recover|done].
  - destruct (findReady (works c) 0 false) as [i b] eqn:Hf. case_decide; simplify_eq.
    split; [by eapply st_scan|done].
  - case_decide; simplify_eq. split; [by apply st_pick|done].
  - destruct (markWork now i w c) eqn:Hm; simplify_eq. split; [by eapply st_mark|done].
  - destruct (giveJob t files i w c) eqn:Hg; simplify_eq. split; [by eapply st_give|done].
Qed.

Lemma settled_recover now c p js : inv t n (mkSystem c p js) → settled c (recover now c).
Proof using Ht.
  intros Hi.
  assert (∀ q, workerMap (recover now c) !! q =
    if decide (Exists (λ wi, overdue now wi ∧ wi_state wi = q) (works c))
    then Some (mkWorker WS_Death "") else workerMap c !! q) as Hm by (intros q; apply recover_workerMap).
  split.
  - intros q (job & Hq & _). unfold dead, inState. rewrite Hm. case_decide; by eexists.
  - intros q Hq. rewrite Hm in Hq. case_decide as Hl; [|done].
    apply Exists_exists in Hl as (wi & (k & Hk)%list_elem_of_lookup_1 & (H0 & H1 & _) & <-).
    destruct (in_works _ _ _ Hi k (wi_state wi)) as [(j & Hj & _)|(j & Hj & _)]; [by exists wi|done|done| |]; by eexists.
  - intros k (wi & Hk & Hs). simpl in Hk. rewrite list_lookup_fmap in Hk.
    destruct (works c !! k) as [wi'|] eqn:Hk'; [|done]. simpl in Hk. exists wi'. split; [done|].
    case_decide; by simplify_eq/=.
Qed.

Lemma settled_mark now i w c c' js : inv t n (mkSystem c (Picked i w) js) →
  markWork now i w c = Ret c' → settled c c'.
Proof using Ht.
  intros Hi Hm. apply bind_Ret_inv in Hm as (l & Hl & [= <-]). apply slice_set_Ret in Hl as [Hr ->].
  destruct (in_pc _ _ _ Hi) as (_ & (wi & Hwi & _) & (job & Hfree & _)). simpl in Hwi, Hfree.
  destruct (in_workers _ _ _ Hi _ _ Hfree) as [Hp _].
  split; [done|done|]. intros k Hk.
  apply (holds_insert c (Z.to_nat i) (mkWorkInfo w now)) in Hk; [|by apply lookup_lt_Some in Hwi].
  case_decide; [simpl in Hk; lia|done].
Qed.

Lemma settled_give i w c c' js : inv t n (mkSystem c (Marked i w) js) →
  giveJob t files i w c = Ret c' → settled c c'.
Proof using.
  intros Hi Hg. apply bind_Ret_inv in Hg as (job & _ & [= <-]).
  destruct (in_pc _ _ _ Hi) as (_ & _ & (fj & Hfree & _)). simpl in Hfree.
  split; [| |done].
  - intros q (j & Hq & _). exists j. simpl. split; [|done]. rewrite lookup_insert_ne; [done|]. congruence.
  - intros q [x Hx]. simpl in Hx. apply lookup_insert_Some in Hx as [[<- _]|[_ Hx]]; by eexists.
Qed.

Lemma readyOk_give i w c c' : 0 ≤ i → giveJob t files i w c = Ret c' → readyOk files t c → readyOk files t c'.
Proof using Ht.
  intros Hi Hg Hr q job Hq Hmap. apply bind_Ret_inv in Hg as (nj & Hn & [= <-]).
  simpl in Hq. apply lookup_insert_Some in Hq as [[<- [= <-]]|[_ Hq]]; [|by eapply Hr].
  unfold newJob in Hn. rewrite decide_True in Hn by done. apply bind_Ret_inv in Hn as (f & Hf & [= <-]).
  exists (Z.to_nat i), f. rewrite Z2Nat.id by done. split; [|done].
  unfold slice_get in Hf. rewrite decide_False in Hf by lia. by destruct (files !! Z.to_nat i); simplify_eq.
Qed.

Lemma readyOk_recover now c : readyOk files t c → readyOk files t (recover now c).
Proof using.
  intros Hr q job Hq. unfold recover in Hq. simpl in Hq. rewrite recover_workerMap in Hq.
  case_decide; [done|]. by eapply Hr.
Qed.

Lemma execAlloc_settled a s s' : inv t n s → execAlloc t files a s = Some s' →
  inv t n s' ∧ jobs s' = jobs s ∧ static (coord s) (coord s') ∧ settled (coord s) (coord s') ∧
  (readyOk files t (coord s) → readyOk files t (coord s')).
Proof using Ht.
  intros Hi He. destruct (execAlloc_step _ _ _ He) as [Hs Hj].
  split; [by eapply inv_step; [apply type_noSpace| | |]|]. split; [done|].
  destruct s as [c p js], a as [now| |order|now|], p as [|i|i w|i w]; simpl in He; try done.
  - simplify_eq. split; [done|]. split; [by eapply settled_recover|apply readyOk_recover].
  - destruct (findReady (works c) 0 false). case_decide; by simplify_eq.
  - case_decide; by simplify_eq.
  - destruct (markWork now i w c) eqn:Hm; simplify_eq. pose proof Hm as (l & _ & [= <-])%bind_Ret_inv.
    split; [done|]. split; [by eapply settled_mark|done].
  - destruct (giveJob t files i w c) eqn:Hg; simplify_eq. pose proof Hg as (j & _ & [= <-])%bind_Ret_inv.
    split; [done|]. split; [by eapply settled_give|].
    destruct (in_pc _ _ _ Hi) as [H0 _]. by eapply readyOk_give.
Qed.
End alloc.

(** ** The invariant *)

(** Where a worker has registered. *)
Definition registered (p : wpc) : Prop := match p with W_Start | W_Register => False | _ => True end.

(** Where it knows the number of reduce tasks. *)
Definition learned (p : wpc) : Prop := match p with W_Start | W_Gone => False | _ => True end.

(** Worker at [p] will still rename file [f]. *)
Definition willRename (p : wpc) (f : fname) : Prop :=
  match p with W_List => True | W_Rename dir => f ∈ dir | _ => False end.

Section proof.
  Context (sort : list KeyValue → list KeyValue) `{!ByKeySort sort}.
  Context (mapf : string → string → list KeyValue) (reducef : string → list string → string).
  Context (reducef_perm : ∀ k vs vs', vs ≡ₚ vs' → reducef k vs = reducef k vs').
  Context (content : string → option string).
  Context (files : list string) (files_noSpace : Forall (λ f, noSpace f = true) files).
  Context (nReduce : nat).

Abbreviation N := (Z.of_nat nReduce).

(** The input of the sequential program. *)
Definition inputs : list (string * string) := (λ f, (f, default "" (content f))) <$> files.

Definition allPairs : list KeyValue := concat (map (λ '(filename, text), mapf filename text) inputs).

(** What reduce task [r] must write. *)
Definition linesFor (r : Z) : list string := valueOf [] (reduceAll sort reducef (bucket N r allPairs)).
Definition target (r : Z) : byteSeq := bytesOf (linesFor r).

(** The coordinator in its three phases. *)
Definition sysInv (ph : string) (s : system) : Prop :=
  Coordinator.nReduce (coord s) = N ∧
  ((ph = "Map" ∨ ph = "Reduce") ∧ inv ph (worksOf files nReduce ph) s ∧ c_state (coord s) = "Working" ∨
   ph = "Exit" ∧ c_state (coord s) ≠ "Working" ∧
     (∀ q x, workerMap (coord s) !! q = Some x → w_state x = WS_Death ∨ w_state x = WS_Exiting) ∧
     (∀ q j, jobs s !! q = Some j → dead (coord s) q)).

(** [f] holds the output of map task [m] for reduce task [r]. *)
Definition rightFile (m r : Z) (data : list KeyValue) : Prop :=
  ∃ k input, m = Z.of_nat k ∧ inputs !! k = Some input ∧ 0 ≤ r < N ∧ data = output sort mapf N r input.

(** Worker [pid] at point [p] is in the middle of a job it was given. *)
Definition procOk (w : world) (pid : Z) (p : wpc) : Prop :=
  let js := jobs (sys w) in
  match p with
  | W_Job work => ∃ t i arg, parseJob work = Ret (t, i, arg) ∧ js !! pid = Some (t, i, arg) ∧
      (t = "Map" ∧ (∃ k, i = Z.of_nat k ∧ files !! k = Some arg) ∨
       t = "Reduce" ∧ 0 ≤ i < N ∧ phase w ≠ "Map")
  | W_Map i mrKVs k => ∃ m path text, i = Z.of_nat m ∧ inputs !! m = Some (path, text) ∧
      mrKVs = sort (mapf path text) ∧ js !! pid = Some ("Map", i, path) ∧ 0 ≤ k ≤ N ∧
      ∀ r, 0 ≤ r < k → is_Some (disk w !! Tmp pid i r)
  | W_Read r dir kva => ∃ arg, js !! pid = Some ("Reduce", r, arg) ∧ 0 ≤ r < N ∧ phase w ≠ "Map" ∧
      (∀ f, f ∈ dir → interOf r f → is_Some (disk w !! f)) ∧
      kva ++ readInter r dir (disk w) ≡ₚ bucket N r allPairs
  | W_Write r off kva => ∃ arg, js !! pid = Some ("Reduce", r, arg) ∧ 0 ≤ r < N ∧ phase w ≠ "Map" ∧
      is_Some (outs w !! r) ∧ target r = take off (target r) ++ bytesOf (linesOf reducef kva) ∧
      (off ≤ length (target r))%nat
  | W_Exiting => js !! pid = None ∧ phase w = "Exit"
  | _ => js !! pid = None
  end.

Definition mapDone (w : world) (k : nat) : Prop :=
  (k < length files)%nat ∧ (phase w = "Map" → holds (coord (sys w)) k (-1)).

Definition redDone (w : world) (r : Z) : Prop :=
  0 ≤ r < N ∧ (phase w = "Reduce" ∧ holds (coord (sys w)) (Z.to_nat r) (-1) ∨ phase w = "Exit").

(** Byte [p] of [mr-out-r] is right, or somebody is about to write it. *)
Definition byteOk (w : world) (r : Z) (p : nat) : Prop :=
  default [] (outs w !! r) !! p = target r !! p ∨
  ∃ pid off kva, at_ w pid (W_Write r off kva) ∧ (off ≤ p)%nat.

(** The output of task [r] matters: it has been reported, or will be by a worker
    that is not declared dead. *)
Definition needed (w : world) (r : Z) : Prop :=
  redDone w r ∨ ∃ pid off kva, at_ w pid (W_Write r off kva) ∧ ¬ dead (coord (sys w)) pid.

Record winv (w : world) : Prop := {
  wi_sys : sysInv (phase w) (sys w);
  wi_ready : readyOk files (phase w) (coord (sys w));
  wi_known pid : is_Some (workerMap (coord (sys w)) !! pid) → ∃ p, at_ w pid p ∧ registered p;
  wi_type pid wt p : procs w !! pid = Some (wt, p) → 0 < pid ∧ ∃ k, wt = mkWorkerType mapf reducef k pid ∧ (learned p → k = N);
  wi_proc pid p : at_ w pid p → procOk w pid p;
  wi_jobs pid : is_Some (jobs (sys w) !! pid) → ∃ p, at_ w pid p;
  wi_inter m r data : disk w !! Inter m r = Some data → rightFile m r data;
  wi_tmp pid m r data : disk w !! Tmp pid m r = Some data → rightFile m r data;
  wi_mapped k r : mapDone w k → 0 ≤ r < N → is_Some (disk w !! Inter (Z.of_nat k) r) ∨
    ∃ pid p, at_ w pid p ∧ is_Some (disk w !! Tmp pid (Z.of_nat k) r) ∧ willRename p (Tmp pid (Z.of_nat k) r);
  wi_out r data : outs w !! r = Some data → 0 ≤ r < N ∧ (length data ≤ length (target r))%nat;
  wi_bytes r : needed w r → is_Some (outs w !! r) ∧ ∀ p, (p < length (target r))%nat → byteOk w r p;
}.

(** ** Frames *)

Lemma at_set w pid wt p q p' :
  at_ (set_proc w pid (wt, p)) q p' ↔ (q = pid ∧ p' = p) ∨ (q ≠ pid ∧ at_ w q p').
Proof.
  unfold at_. simpl. destruct (decide (q = pid)) as [->|Hne].
  - rewrite lookup_insert_eq. naive_solver.
  - rewrite lookup_insert_ne by done. naive_solver.
Qed.

Lemma at_det w q p p' : at_ w q p → at_ w q p' → p = p'.
Proof. intros [wt H] [wt' H']. congruence. Qed.

Lemma readInter_stable r dir d d' :
  (∀ m r x, d !! Inter m r = Some x → d' !! Inter m r = Some x) →
  (∀ f, f ∈ dir → interOf r f → is_Some (d !! f)) → readInter r dir d' = readInter r dir d.
Proof.
  intros Hd Hp. unfold readInter. f_equal. apply map_ext_in. intros f Hf%list_elem_of_In.
  specialize (Hp f Hf). destruct f as [|m r']; [done|]. simpl in *. case_decide; [|done].
  destruct Hp as [x Hx]; [done|]. by rewrite Hx, (Hd _ _ _ Hx).
Qed.

Lemma procOk_mono w w' q p :
  (phase w ≠ "Map" → phase w' ≠ "Map") → (phase w = "Exit" → phase w' = "Exit") →
  jobs (sys w') !! q = jobs (sys w) !! q →
  (∀ i r, is_Some (disk w !! Tmp q i r) → is_Some (disk w' !! Tmp q i r)) →
  (∀ m r x, disk w !! Inter m r = Some x → disk w' !! Inter m r = Some x) →
  (∀ r, is_Some (outs w !! r) → is_Some (outs w' !! r)) →
  procOk w q p → procOk w' q p.
Proof.
  intros Hm He Hj Ht Hi Ho. destruct p; simpl; rewrite Hj; try done.
  - intros (t & i & arg & ? & ? & [?|(? & ? & ?)]); exists t, i, arg;
      (do 2 (split; [done|])); [by left|right]. do 2 (split; [done|]). by apply Hm.
  - intros (m & path & text & ? & ? & ? & ? & ? & Hr). exists m, path, text.
    do 5 (split; [done|]). intros r Hlt. by apply Ht, Hr.
  - intros (arg & ? & ? & ? & Hf & Hp). exists arg. do 2 (split; [done|]). split; [by apply Hm|]. split.
    + intros f Hin Hr. destruct (Hf f Hin Hr) as [x Hx]. destruct f; [done|]. exists x. by apply Hi.
    + by rewrite (readInter_stable _ _ (disk w) (disk w') Hi Hf).
  - intros (arg & ? & ? & ? & ? & ? & ?). exists arg.
    do 2 (split; [done|]). split; [by apply Hm|]. split; [by apply Ho|done].
  - intros [? ?]. auto.
Qed.

Lemma linesOf_nil : linesOf reducef [] = [].
Proof. done. Qed.

(** A writer that is through covers nothing. *)
Lemma written_all w pid r off : procOk w pid (W_Write r off []) → off = length (target r).
Proof.
  intros (arg & _ & _ & _ & _ & Ht & Hle). rewrite linesOf_nil, app_nil_r in Ht.
  apply (f_equal length) in Ht. rewrite length_take in Ht. lia.
Qed.

(** A worker that is not declared dead and has a job has this work. *)
Lemma live_holds w pid t i arg : sysInv (phase w) (sys w) → jobs (sys w) !! pid = Some (t, i, arg) →
  ¬ dead (coord (sys w)) pid →
  (t = "Map" ∨ t = "Reduce") ∧ phase w = t ∧ 0 < pid ∧ 0 ≤ i ∧ holds (coord (sys w)) (Z.to_nat i) pid.
Proof.
  intros [_ [(Ht & Hi & _)|(_ & _ & _ & Hd)]] Hj Hl; [|by destruct Hl; apply (Hd _ _ Hj)].
  destruct (jobs_holds _ (type_noSpace _ Ht) _ _ pid t i arg Hi Hj Hl) as (? & -> & ? & ?). naive_solver.
Qed.

Lemma holds_det c k v v' : holds c k v → holds c k v' → v = v'.
Proof. intros (a & Ha & <-) (b & Hb & <-). congruence. Qed.

(** ** A worker moves on without touching the directory *)

(** The conditions on the new state [s'] of the coordinator and the new point
    [p'] of worker [pid]. *)
Record moves (w : world) (pid : Z) (wt : WorkerType) (p : wpc) (s' : system) (wt' : WorkerType) (p' : wpc) : Prop := {
  mv_sys : sysInv (phase w) s';
  mv_ready : readyOk files (phase w) (coord s');
  mv_known q : is_Some (workerMap (coord s') !! q) →
    is_Some (workerMap (coord (sys w)) !! q) ∨ q = pid ∧ registered p';
  mv_registered : registered p → registered p';
  mv_type : ∃ k, wt' = mkWorkerType mapf reducef k pid ∧ (learned p' → k = N);
  mv_jobs q : q ≠ pid → jobs s' !! q = jobs (sys w) !! q;
  mv_proc : procOk (set_proc (set_sys w s') pid (wt', p')) pid p';
  mv_dead q : dead (coord (sys w)) q → dead (coord s') q;
  mv_mapped k : phase w = "Map" → holds (coord s') k (-1) → holds (coord (sys w)) k (-1) ∨
    ∀ r, 0 ≤ r < N → is_Some (disk w !! Tmp pid (Z.of_nat k) r) ∧ willRename p' (Tmp pid (Z.of_nat k) r);
  mv_rename f : is_Some (disk w !! f) → willRename p f → willRename p' f;
  mv_done r : redDone (set_proc (set_sys w s') pid (wt', p')) r → needed w r;
  mv_write r off kva : p' ≠ W_Write r off kva;
  mv_written r off kva : p = W_Write r off kva →
    kva = [] ∨ ¬ needed (set_proc (set_sys w s') pid (wt', p')) r;
}.

Section move.
  Context (w : world) (pid : Z) (wt : WorkerType) (p : wpc) (s' : system) (wt' : WorkerType) (p' : wpc).
  Context (Hw : winv w) (Hat : procs w !! pid = Some (wt, p)) (Hmv : moves w pid wt p s' wt' p').

Let w' : world := set_proc (set_sys w s') pid (wt', p').

Lemma at_move q p1 : at_ w' q p1 ↔ (q = pid ∧ p1 = p') ∨ (q ≠ pid ∧ at_ w q p1).
Proof using. unfold w'. by rewrite at_set. Qed.

Lemma at_pid : at_ w pid p.
Proof using Hat. by exists wt. Qed.

Lemma move_proc q p1 : at_ w' q p1 → procOk w' q p1.
Proof using Hw Hmv.
  rewrite at_move. intros [[-> ->]|[Hne Hq]]; [apply (mv_proc _ _ _ _ _ _ _ Hmv)|].
  apply (procOk_mono w); try done; [by apply (mv_jobs _ _ _ _ _ _ _ Hmv)|by apply (wi_proc _ Hw)].
Qed.

Lemma move_needed r : needed w' r → needed w r.
Proof using Hmv.
  intros [Hd|(q & off & kva & Hq & Hl)]; [by apply (mv_done _ _ _ _ _ _ _ Hmv)|].
  apply at_move in Hq as [[-> Hp]|[Hne Hq]]; [by destruct (mv_write _ _ _ _ _ _ _ Hmv r off kva)|].
  right. exists q, off, kva. split; [done|]. intros Hd. by apply Hl, (mv_dead _ _ _ _ _ _ _ Hmv).
Qed.

Lemma move_bytes r : needed w' r →
  is_Some (outs w' !! r) ∧ ∀ i, (i < length (target r))%nat → byteOk w' r i.
Proof using Hw Hat Hmv.
  intros Hn. destruct (wi_bytes _ Hw r (move_needed r Hn)) as [Ho Hb]. split; [done|].
  intros i Hi. destruct (Hb i Hi) as [?|(q & off & kva & Hq & Hle)]; [by left|right].
  exists q, off, kva. split; [|done]. apply at_move. right. split; [|done]. intros ->.
  pose proof (at_det _ _ _ _ Hq at_pid) as <-.
  destruct (mv_written _ _ _ _ _ _ _ Hmv r off kva eq_refl) as [->|?]; [|done].
  apply (wi_proc _ Hw), written_all in Hq. lia.
Qed.

Lemma move_mapped k r : mapDone w' k → 0 ≤ r < N → is_Some (disk w' !! Inter (Z.of_nat k) r) ∨
  ∃ q p1, at_ w' q p1 ∧ is_Some (disk w' !! Tmp q (Z.of_nat k) r) ∧ willRename p1 (Tmp q (Z.of_nat k) r).
Proof using Hw Hat Hmv.
  intros [Hk Hd] Hr. assert (mapDone w k ∨ is_Some (disk w !! Tmp pid (Z.of_nat k) r) ∧
    willRename p' (Tmp pid (Z.of_nat k) r)) as [Hm|Hm].
  { destruct (decide (phase w = "Map")) as [Hp|Hp]; [|by left].
    destruct (mv_mapped _ _ _ _ _ _ _ Hmv k Hp (Hd Hp)) as [?|Hn]; [by left|right; by apply Hn]. }
  - destruct (wi_mapped _ Hw k r Hm Hr) as [?|(q & p1 & Hq & Hs & Hren)]; [by left|right].
    destruct (decide (q = pid)) as [->|Hne].
    + pose proof (at_det _ _ _ _ Hq at_pid) as ->. exists pid, p'. rewrite at_move. split; [by left|].
      split; [done|]. by apply (mv_rename _ _ _ _ _ _ _ Hmv).
    + exists q, p1. rewrite at_move. split; [by right|done].
  - right. exists pid, p'. rewrite at_move. split; [by left|done].
Qed.

Lemma winv_move : winv w'.
Proof using Hw Hat Hmv.
  split.
  - apply (mv_sys _ _ _ _ _ _ _ Hmv).
  - apply (mv_ready _ _ _ _ _ _ _ Hmv).
  - intros q [Hq|[-> Hq]]%(mv_known _ _ _ _ _ _ _ Hmv).
    + destruct (wi_known _ Hw q Hq) as (p1 & H1 & Hr). destruct (decide (q = pid)) as [->|Hne].
      * exists p'. rewrite at_move. split; [by left|]. pose proof (at_det _ _ _ _ H1 at_pid) as ->.
        by apply (mv_registered _ _ _ _ _ _ _ Hmv).
      * exists p1. rewrite at_move. split; [by right|done].
    + exists p'. rewrite at_move. split; [by left|done].
  - intros q wt1 p1. simpl. intros [[<- [= <- <-]]|[_ Hq]]%lookup_insert_Some; [|by apply (wi_type _ Hw)].
    split; [by destruct (wi_type _ Hw _ _ _ Hat)|apply (mv_type _ _ _ _ _ _ _ Hmv)].
  - apply move_proc.
  - intros q Hq. destruct (decide (q = pid)) as [->|Hne]; [exists p'; apply at_move; by left|].
    simpl in Hq. rewrite (mv_jobs _ _ _ _ _ _ _ Hmv q Hne) in Hq. destruct (wi_jobs _ Hw q Hq) as [p1 H1].
    exists p1. apply at_move. by right.
  - apply (wi_inter _ Hw).
  - apply (wi_tmp _ Hw).
  - apply move_mapped.
  - apply (wi_out _ Hw).
  - apply move_bytes.
Qed.
End move.

(** ** The moves of a worker, one by one *)

Lemma sysInv_abandon ph s pid : sysInv ph s → sysInv ph (set_jobs s (delete pid (jobs s))).
Proof.
  destruct s as [c pc0 js]. intros [Hn [(Ht & Hi & Hc)|(He & Hc & Hx & Hj)]]; split; [done| |done|].
  - left. split; [done|]. split; [by apply inv_abandon|done].
  - right. split; [done|]. split; [done|]. split; [done|]. intros q j Hq. simpl in Hq.
    apply lookup_delete_Some in Hq as [_ Hq]. by apply (Hj q j).
Qed.

(** The coordinator does not change. *)
Lemma moves_same w pid wt p s' wt' p' : winv w → procs w !! pid = Some (wt, p) →
  coord s' = coord (sys w) → sysInv (phase w) s' → (∀ q, q ≠ pid → jobs s' !! q = jobs (sys w) !! q) →
  (registered p → registered p') → (∃ k, wt' = mkWorkerType mapf reducef k pid ∧ (learned p' → k = N)) →
  procOk (set_proc (set_sys w s') pid (wt', p')) pid p' →
  (∀ f, is_Some (disk w !! f) → willRename p f → willRename p' f) →
  (∀ r off kva, p' ≠ W_Write r off kva) →
  (∀ r off kva, p = W_Write r off kva → kva = [] ∨ ¬ needed (set_proc (set_sys w s') pid (wt', p')) r) →
  moves w pid wt p s' wt' p'.
Proof.
  intros Hw Hat Hc Hs Hj Hreg Ht Hp Hren Hwr Hwn. split; try done.
  - rewrite Hc. apply (wi_ready _ Hw).
  - rewrite Hc. by left.
  - by rewrite Hc.
  - rewrite Hc. by left.
  - intros r. unfold redDone. simpl. rewrite Hc. by left.
Qed.

Lemma type_same w pid wt p : winv w → procs w !! pid = Some (wt, p) → learned p →
  wt = mkWorkerType mapf reducef N pid.
Proof. intros Hw Hat Hp. destruct (wi_type _ Hw _ _ _ Hat) as (_ & k & -> & Hk). by rewrite Hk. Qed.

(** The worker drops its job and goes to a point without one. *)
Lemma moves_abandon w pid wt p p' : winv w → procs w !! pid = Some (wt, p) → (learned p' → learned p) →
  p' = W_Loop ∨ p' = W_Gone ∨ p' = W_List →
  (∀ f, is_Some (disk w !! f) → willRename p f → willRename p' f) →
  (∀ r off kva, p = W_Write r off kva →
     kva = [] ∨ ¬ needed (set_proc (set_sys w (set_jobs (sys w) (delete pid (jobs (sys w))))) pid (wt, p')) r) →
  moves w pid wt p (set_jobs (sys w) (delete pid (jobs (sys w)))) wt p'.
Proof.
  intros Hw Hat Hl Hp' Hren Hwn. apply moves_same; try done.
  - apply sysInv_abandon, (wi_sys _ Hw).
  - intros q Hne. simpl. by rewrite lookup_delete_ne.
  - by destruct Hp' as [->|[->| ->]].
  - destruct (wi_type _ Hw _ _ _ Hat) as (_ & k & -> & Hk). exists k. split; [done|]. intros ?. by apply Hk, Hl.
  - destruct Hp' as [->|[->| ->]]; simpl; apply lookup_delete_eq.
  - by destruct Hp' as [->|[->| ->]].
Qed.

(** Nobody needs the output of a worker that crashes while it writes. *)
Lemma crashed_not_needed w pid wt r off kva p' : winv w → procs w !! pid = Some (wt, W_Write r off kva) →
  ¬ dead (coord (sys w)) pid → (∀ r off kva, p' ≠ W_Write r off kva) →
  ¬ needed (set_proc (set_sys w (set_jobs (sys w) (delete pid (jobs (sys w))))) pid (wt, p')) r.
Proof.
  intros Hw Hat Hl Hp'. destruct (wi_proc _ Hw pid (W_Write r off kva)) as (arg & Hj & Hr & _); [by exists wt|].
  destruct (live_holds _ _ _ _ _ (wi_sys _ Hw) Hj Hl) as (_ & Hph & Hpos & _ & Hh).
  intros [[_ [[_ Hd]|He]]|(q & off' & kva' & Hq & Hlq)]; simpl in *.
  - pose proof (holds_det _ _ _ _ Hh Hd). lia.
  - congruence.
  - apply at_set in Hq as [[_ Hq]|[Hne Hq]]; [by destruct (Hp' r off' kva')|].
    destruct (wi_proc _ Hw _ _ Hq) as (arg' & Hj' & _).
    destruct (live_holds _ _ _ _ _ (wi_sys _ Hw) Hj' Hlq) as (_ & _ & _ & _ & Hh').
    by pose proof (holds_det _ _ _ _ Hh Hh').
Qed.

Lemma move_nreduce w pid wt : winv w → procs w !! pid = Some (wt, W_Start) →
  moves w pid wt W_Start (sys w) (set_w_nReduce wt (GetNReduce (coord (sys w)))) W_Register.
Proof.
  intros Hw Hat. apply moves_same; try done.
  - apply (wi_sys _ Hw).
  - destruct (wi_type _ Hw _ _ _ Hat) as (_ & k & -> & _). unfold GetNReduce.
    destruct (wi_sys _ Hw) as [-> _]. by exists N.
  - by apply (wi_proc _ Hw pid W_Start); exists wt.
Qed.

Lemma sysInv_register ph s pid : sysInv ph s → 0 < pid → workerMap (coord s) !! pid = None →
  sysInv ph (set_coord s (RegisterWorker pid (coord s)).1).
Proof.
  destruct s as [c pc0 js]. intros [Hn [(Ht & Hi & Hc)|(He & Hc & Hx & Hj)]] Hpid Hnew; simpl in *.
  - split; [unfold RegisterWorker; by case_decide|]. left. split; [done|]. split; [by apply inv_register|].
    unfold RegisterWorker. by case_decide.
  - unfold RegisterWorker. rewrite decide_True by done. split; [done|by right].
Qed.

Lemma RegisterWorker_map pid c :
  workerMap (RegisterWorker pid c).1 = workerMap c ∨
  workerMap (RegisterWorker pid c).1 = <[pid := mkWorker WS_Free "No job"]> (workerMap c).
Proof. unfold RegisterWorker. case_decide; [by left|by right]. Qed.

Lemma RegisterWorker_works pid c : works (RegisterWorker pid c).1 = works c.
Proof. unfold RegisterWorker. by case_decide. Qed.

Lemma move_register w pid wt p' : winv w → procs w !! pid = Some (wt, W_Register) →
  p' = W_Loop ∨ p' = W_Gone →
  moves w pid wt W_Register (set_coord (sys w) (RegisterWorker pid (coord (sys w))).1) wt p'.
Proof.
  intros Hw Hat Hp'. assert (workerMap (coord (sys w)) !! pid = None) as Hnew.
  { destruct (workerMap _ !! pid) eqn:Hx; [|done]. destruct (wi_known _ Hw pid) as (p & Hp & Hr); [by eexists|].
    assert (at_ w pid W_Register) as H1 by by exists wt. by pose proof (at_det _ _ _ _ Hp H1) as ->. }
  destruct (wi_type _ Hw _ _ _ Hat) as (Hpos & k & Hwt & Hk).
  assert (∀ q, holds (RegisterWorker pid (coord (sys w))).1 q (-1) → holds (coord (sys w)) q (-1)) as Hh.
  { intros q. unfold holds. by rewrite RegisterWorker_works. }
  pose proof (RegisterWorker_map pid (coord (sys w))) as Hm.
  split; try done.
  - apply sysInv_register; [apply (wi_sys _ Hw)|done|done].
  - intros q job Hq. simpl in Hq. destruct Hm as [Hm|Hm]; rewrite Hm in Hq; [by apply (wi_ready _ Hw q)|].
    apply lookup_insert_Some in Hq as [[_ ?]|[_ Hq]]; [done|by apply (wi_ready _ Hw q)].
  - intros q Hq. simpl in Hq. destruct Hm as [Hm|Hm]; rewrite Hm in Hq; [by left|].
    apply lookup_insert_is_Some in Hq as [<-|[_ Hq]]; [right; split; [done|]|by left].
    by destruct Hp' as [->| ->].
  - exists k. split; [done|]. intros _. by apply Hk.
  - destruct Hp' as [->| ->]; by apply (wi_proc _ Hw pid W_Register); exists wt.
  - intros q (job & Hq & _). exists job. simpl. split; [|done]. destruct Hm as [-> | ->]; [done|].
    rewrite lookup_insert_ne; [done|]. congruence.
  - intros q _ Hq. left. by apply Hh.
  - intros r [Hr [[? Hd]|?]]; left; split; [done|left|done|by right]. split; [done|by apply Hh].
  - by destruct Hp' as [->| ->].
Qed.

(** What a worker reads as its job. *)
Lemma ready_job ph s pid job : sysInv ph s → readyOk files ph (coord s) →
  workerMap (coord s) !! pid = Some (mkWorker WS_Ready job) →
  (ph = "Map" ∨ ph = "Reduce") ∧ inv ph (worksOf files nReduce ph) s ∧
  ∃ t i arg, parseJob job = Ret (t, i, arg) ∧
    (t = "Map" ∧ (∃ k, i = Z.of_nat k ∧ files !! k = Some arg) ∨ t = "Reduce" ∧ 0 ≤ i < N ∧ ph ≠ "Map").
Proof using files_noSpace.
  intros [_ [(Ht & Hi & _)|(_ & _ & Hx & _)]] Hr Hm; [|by destruct (Hx _ _ Hm)].
  split; [done|]. split; [done|].
  destruct (in_workers _ _ _ Hi _ _ Hm) as (_ & [|[|(_ & k & (arg & Hk) & Hh)]]); [done|done|]. simpl in Hk.
  destruct (decide (ph = "Map")) as [Hph|Hph].
  - destruct (Hr _ _ Hm Hph) as (k' & f & Hf & ->). rewrite parseJob_jobOf by (done || lia).
    eexists _, _, _. split; [reflexivity|]. left. split; [done|]. exists k'. split; [done|].
    rewrite Forall_forall in files_noSpace. rewrite splitSpace_word; [done|].
    by apply files_noSpace, (list_elem_of_lookup_2 _ k').
  - destruct Ht as [?|Hred]; [done|]. subst ph. rewrite Hk, parseJob_jobOf by (done || lia).
    eexists _, _, _. split; [reflexivity|]. right. split; [done|]. split; [|done].
    destruct Hh as (wi & Hwi%lookup_lt_Some & _). rewrite (in_len _ _ _ Hi) in Hwi.
    unfold worksOf in Hwi. rewrite decide_False in Hwi by done. lia.
Qed.

Lemma set_jobs_id s : set_jobs s (jobs s) = s.
Proof. by destruct s. Qed.

Lemma GetWorkerInfo_state pid c x : GetWorkerInfo pid c = x → w_state x ≠ WS_Free →
  workerMap c !! pid = Some x.
Proof. unfold GetWorkerInfo, map_get. destruct (workerMap c !! pid); simpl; naive_solver. Qed.

Lemma move_idle w pid wt p p' : winv w → procs w !! pid = Some (wt, p) → p = W_Loop ∨ p = W_Rename [] →
  p' = W_Loop ∨ (p' = W_Exiting ∧ phase w = "Exit") → moves w pid wt p (sys w) wt p'.
Proof.
  intros Hw Hat Hp Hp'. assert (jobs (sys w) !! pid = None) as Hj.
  { by destruct Hp as [->| ->]; [apply (wi_proc _ Hw pid W_Loop)|apply (wi_proc _ Hw pid (W_Rename []))]; exists wt. }
  apply moves_same; try done.
  - apply (wi_sys _ Hw).
  - by destruct Hp' as [->|[-> _]].
  - exists N. split; [|done]. apply (type_same w pid wt p Hw Hat). by destruct Hp as [->| ->].
  - destruct Hp' as [->|[-> He]]; [done|by split].
  - intros f _. destruct Hp as [->| ->]; [done|]. simpl. by intros ?%elem_of_nil.
  - by destruct Hp' as [->|[-> _]].
  - by destruct Hp as [->| ->].
Qed.

Lemma move_job w pid wt job t i arg : winv w → procs w !! pid = Some (wt, W_Loop) →
  workerMap (coord (sys w)) !! pid = Some (mkWorker WS_Ready job) → parseJob job = Ret (t, i, arg) →
  moves w pid wt W_Loop (set_jobs (sys w) (<[pid := (t, i, arg)]> (jobs (sys w)))) wt (W_Job job).
Proof using files_noSpace.
  intros Hw Hat Hm Hp. destruct (ready_job _ _ _ _ (wi_sys _ Hw) (wi_ready _ Hw) Hm)
    as (Ht & Hi & t' & i' & arg' & Hp' & Hcase).
  rewrite Hp in Hp'. simplify_eq. apply moves_same; try done.
  - destruct (wi_sys _ Hw) as [Hn [(_ & _ & Hc)|(He & _)]]; [|by rewrite He in Ht; destruct Ht].
    split; [done|]. left. split; [done|]. split; [|done].
    assert (at_ w pid W_Loop) as Hl by by exists wt. apply (wi_proc _ Hw) in Hl. simpl in Hl.
    destruct (sys w) as [c pc0 js]. simpl in *.
    apply (inv_poll _ (type_noSpace _ Ht) _ pid job); [done| |done|done].
    unfold GetWorkerInfo, map_get. simpl. by rewrite Hm.
  - intros q Hne. simpl. by rewrite lookup_insert_ne.
  - exists N. split; [|done]. by apply (type_same w pid wt W_Loop Hw Hat).
  - exists t', i', arg'. split; [done|]. split; [apply lookup_insert_eq|done].
Qed.

Lemma move_poll w pid wt f s' x : winv w → procs w !! pid = Some (wt, W_Loop) →
  execQuiet sort content pid (P_Poll f) wt W_Loop w = Some (s', x) → moves w pid wt W_Loop s' x.1 x.2.
Proof using files_noSpace.
  intros Hw Hat He. unfold execQuiet in He. injection He as <- <-. simpl.
  assert (moves w pid wt W_Loop (set_jobs (sys w) (jobs (sys w))) wt W_Loop) as Hstay.
  { rewrite set_jobs_id. apply move_idle; auto. }
  destruct f; simpl; [|exact Hstay|exact Hstay].
  destruct (GetWorkerInfo pid (coord (sys w))) as [st job] eqn:Hg. destruct st; simpl; try exact Hstay.
  - apply GetWorkerInfo_state in Hg; [|done].
    destruct (ready_job _ _ _ _ (wi_sys _ Hw) (wi_ready _ Hw) Hg) as (_ & _ & t & i & arg & Hp & _).
    rewrite Hp. by apply move_job.
  - apply GetWorkerInfo_state in Hg; [|done]. rewrite set_jobs_id. apply move_idle; [done|done|auto|].
    right. split; [done|]. destruct (wi_sys _ Hw) as [_ [(Ht & Hi & _)|(He & _)]]; [|done].
    destruct (in_workers _ _ _ Hi _ _ Hg) as (_ & [?|[?|[? _]]]); done.
Qed.

(** Every intermediate file is in its place when the map phase is over and nobody
    renames files. *)
Lemma interDone_disk w : winv w → phase w ≠ "Map" → (∀ q, ¬ renaming w q) →
  interDone sort mapf inputs N (disk w).
Proof.
  intros Hw Hph Hren m r Hr.
  destruct (disk w !! Inter m r) as [data|] eqn:Hd.
  - destruct (wi_inter _ Hw _ _ _ Hd) as (k & input & -> & Hk & _ & ->).
    by rewrite decide_True, Nat2Z.id, Hk by lia.
  - case_decide as H0; [|done]. destruct (inputs !! Z.to_nat m) as [input|] eqn:Hk; [|done]. exfalso.
    assert (mapDone w (Z.to_nat m)) as Hdone.
    { split; [|done]. apply lookup_lt_Some in Hk. unfold inputs in Hk. by rewrite length_fmap in Hk. }
    destruct (wi_mapped _ Hw _ r Hdone Hr) as [[x Hx]|(q & p & Hq & _ & Hwr)].
    + rewrite Z2Nat.id in Hx by done. congruence.
    + apply (Hren q). destruct p; try done; [by left|]. right. by eexists.
Qed.

Lemma isListing_listing d dir : isListing d dir → listing d dir.
Proof.
  intros Hl. split; [rewrite Hl; apply NoDup_elements|]. intros f. by rewrite Hl, elem_of_elements, elem_of_dom.
Qed.

Lemma inputs_lookup k f text : files !! k = Some f → content f = Some text → inputs !! k = Some (f, text).
Proof. intros Hk Hc. unfold inputs. rewrite list_lookup_fmap, Hk. simpl. by rewrite Hc. Qed.

Lemma move_doit w pid wt dir work s' x : winv w → procs w !! pid = Some (wt, W_Job work) →
  calm w (Proc pid (P_DoIt dir)) →
  execQuiet sort content pid (P_DoIt dir) wt (W_Job work) w = Some (s', x) → moves w pid wt (W_Job work) s' x.1 x.2.
Proof using ByKeySort0.
  intros Hw Hat Hcalm He. assert (at_ w pid (W_Job work)) as Hjob by by exists wt.
  destruct (wi_proc _ Hw _ _ Hjob) as (t & i & arg & Hp & Hj & Hcase).
  assert (wt = mkWorkerType mapf reducef N pid) as Hwt by by apply (type_same w pid wt (W_Job work)).
  unfold execQuiet in He. case_decide as Hdir; [|done]. unfold do_it in He. rewrite Hp in He. simpl in He.
  destruct Hcase as [(-> & k & -> & Hk)|(-> & Hi & Hph)]; simpl in He.
  - destruct (content arg) as [text|] eqn:Hc; simplify_eq/=.
    + apply moves_same; try done; [apply (wi_sys _ Hw)|by exists N|].
      exists k, arg, text. split; [done|]. split; [by apply inputs_lookup|]. split; [done|].
      split; [done|]. split; [lia|]. intros; lia.
    + by apply moves_abandon; auto.
  - simplify_eq/=. apply moves_same; try done; [apply (wi_sys _ Hw)|by exists N|].
    assert (interDone sort mapf inputs N (disk w)) as Hdone.
    { apply interDone_disk; [done|done|]. intros q. apply (Hcalm work q Hjob). by exists "Reduce", i, arg. }
    apply isListing_listing in Hdir. exists arg. split; [done|]. split; [done|]. split; [done|]. split.
    + intros f Hf _. by apply Hdir.
    + simpl. by apply (readInter_perm sort mapf inputs N).
Qed.

(** What the coordinator answers to a report. *)
Lemma finish_cases ph s pid t i arg : sysInv ph s → jobs s !! pid = Some (t, i, arg) →
  (t = "Map" ∨ t = "Reduce") →
  WorkFinish pid i t (coord s) = Ret (coord s, mkErrReply true "this worker has marked Death") ∨
  ¬ dead (coord s) pid ∧ ph = t ∧ 0 ≤ i ∧ holds (coord s) (Z.to_nat i) pid ∧
    ∃ ts, WorkFinish pid i t (coord s) =
      Ret (set_works (set_workerMap (coord s) (<[pid := mkWorker WS_Free ""]> (workerMap (coord s))))
             (<[Z.to_nat i := mkWorkInfo (-1) ts]> (works (coord s))), mkErrReply false "").
Proof.
  intros [_ [(Ht & Hi & _)|(_ & _ & _ & Hd)]] Hj Htype.
  - assert (reportType t = t) as Hrt by by destruct Htype as [-> | ->].
    destruct s as [c pc0 js]. simpl in *.
    destruct (WorkFinish_spec ph (type_noSpace _ Ht) _ pid t i arg c pc0 js Ht Hi Hj)
      as [[_ Hf]|(Hl & _ & -> & H0 & Hh & Hf)]; rewrite Hrt in Hf; [by left|by right].
  - left. destruct (Hd _ _ Hj) as (job & Hm & _). unfold WorkFinish, map_get. by rewrite Hm.
Qed.

(** An accepted report. *)
Lemma move_accepted w pid wt p p' t i arg ts c' : winv w → procs w !! pid = Some (wt, p) → learned p →
  jobs (sys w) !! pid = Some (t, i, arg) → ¬ dead (coord (sys w)) pid → phase w = t →
  0 ≤ i → holds (coord (sys w)) (Z.to_nat i) pid →
  c' = set_works (set_workerMap (coord (sys w)) (<[pid := mkWorker WS_Free ""]> (workerMap (coord (sys w)))))
         (<[Z.to_nat i := mkWorkInfo (-1) ts]> (works (coord (sys w)))) →
  WorkFinish pid i t (coord (sys w)) = Ret (c', mkErrReply false "") →
  (t = "Map" ∧ p' = W_List ∧ (∀ r, 0 ≤ r < N → is_Some (disk w !! Tmp pid i r)) ∧ (∀ r off kva, p ≠ W_Write r off kva) ∨
   t = "Reduce" ∧ p' = W_Loop ∧ ∃ off, p = W_Write i off []) →
  (∀ f, ¬ willRename p f) →
  moves w pid wt p (mkSystem c' (pc (sys w)) (delete pid (jobs (sys w)))) wt p'.
Proof.
  intros Hw Hat Hlearn Hj Hl Hph H0 Hh Hc' Hf Hcase Hnr.
  assert (t = "Map" ∨ t = "Reduce") as Ht by (destruct Hcase as [[? _]|[? _]]; auto).
  assert (p' = W_List ∨ p' = W_Loop) as Hp' by (destruct Hcase as [(_ & ? & _)|(_ & ? & _)]; auto).
  assert (∀ k v, holds c' k v ↔ if decide (k = Z.to_nat i) then v = -1 else holds (coord (sys w)) k v) as Hholds.
  { intros k v. rewrite Hc'. apply (holds_insert (coord (sys w)) (Z.to_nat i) (mkWorkInfo (-1) ts)).
    by destruct Hh as (? & ?%lookup_lt_Some & _). }
  assert (workerMap c' = <[pid := mkWorker WS_Free ""]> (workerMap (coord (sys w)))) as Hm by by rewrite Hc'.
  split; try done.
  - destruct (wi_sys _ Hw) as [Hn [(Hty & Hi & Hst)|(He & _)]]; [|rewrite He in Hph; subst t; by destruct Ht].
    split; [by rewrite Hc'|]. left. split; [done|]. split; [|by rewrite Hc'].
    destruct (sys w) as [c pc0 js]. simpl in *.
    apply (inv_finish _ (type_noSpace _ Hty) _ pid t i arg c c' (mkErrReply false "")); try done.
    by replace (reportType t) with t by by destruct Ht as [-> | ->].
  - intros q job Hq. simpl in Hq. rewrite Hm in Hq.
    apply lookup_insert_Some in Hq as [[_ ?]|[_ Hq]]; [done|by apply (wi_ready _ Hw q)].
  - intros q Hq. simpl in Hq. rewrite Hm in Hq. apply lookup_insert_is_Some in Hq as [<-|[_ Hq]]; [|by left].
    right. by destruct Hp' as [-> | ->].
  - by destruct Hp' as [-> | ->].
  - exists N. split; [|done]. by apply (type_same w pid wt p).
  - intros q Hne. simpl. by rewrite lookup_delete_ne.
  - destruct Hp' as [-> | ->]; simpl; apply lookup_delete_eq.
  - intros q (job & Hq & Hx). exists job. simpl. rewrite Hm. split; [|done]. rewrite lookup_insert_ne; [done|].
    intros <-. apply Hl. by exists job.
  - intros k Hmap Hk. apply Hholds in Hk. case_decide as Hki; [|by left]. right. intros r Hr.
    destruct Hcase as [(_ & -> & Hr' & _)|(? & _)]; [|congruence].
    split; [|done]. rewrite Hki, Z2Nat.id by done. by apply Hr'.
  - intros f _ Hf'. by destruct (Hnr f).
  - intros r [Hr [[Hred Hk]|He]]; simpl in *; [|rewrite He in Hph; subst t; by destruct Ht].
    apply Hholds in Hk. case_decide as Hki; [|left; split; [done|left; by split]]. right.
    destruct Hcase as [(? & _)|(_ & _ & off & ->)]; [congruence|]. assert (r = i) as -> by lia.
    exists pid, off, []. split; [by exists wt|done].
  - by destruct Hp' as [-> | ->].
  - intros r off kva ->. destruct Hcase as [(_ & _ & _ & Hno)|(_ & _ & off' & [= _ _ ->])]; [by destruct (Hno r off kva)|by left].
Qed.

Lemma move_report w pid wt p t i arg f next s' p' : winv w → procs w !! pid = Some (wt, p) → learned p →
  jobs (sys w) !! pid = Some (t, i, arg) → (t = "Map" ∨ t = "Reduce") → (∀ x, ¬ willRename p x) →
  (t = "Map" ∧ next = (λ reply : ErrReply, if IsErr reply then W_Loop else W_List) ∧
     (∀ r, 0 ≤ r < N → is_Some (disk w !! Tmp pid i r)) ∧ (∀ r off kva, p ≠ W_Write r off kva) ∨
   t = "Reduce" ∧ next = (λ _ : ErrReply, W_Loop) ∧ ∃ off, p = W_Write i off []) →
  report pid i t f next w = Some (s', p') → moves w pid wt p s' wt p'.
Proof.
  intros Hw Hat Hlearn Hj Ht Hnr Hcase Hrep.
  assert (∀ reply, next reply = W_Loop ∨ next reply = W_List) as Hnext.
  { intros [[] ?]; destruct Hcase as [(_ & -> & _)|(_ & -> & _)]; auto. }
  assert (∀ reply, moves w pid wt p (set_jobs (sys w) (delete pid (jobs (sys w)))) wt (next reply)) as Hsame.
  { intros reply. apply moves_abandon; try done.
    - destruct (Hnext reply) as [-> | ->]; auto.
    - intros x _ Hx. by destruct (Hnr x).
    - intros r off kva ->. left. destruct Hcase as [(_ & _ & _ & Hno)|(_ & _ & off' & [= _ _ ->])]; [|done].
      by destruct (Hno r off kva). }
  unfold report in Hrep. destruct (executed f) eqn:Hex; [|simplify_eq; apply Hsame].
  destruct (finish_cases _ _ _ _ _ _ (wi_sys _ Hw) Hj Ht) as [Hf|(Hl & Hph & H0 & Hh & ts & Hf)].
  { rewrite Hf in Hrep. simplify_eq. apply Hsame. }
  rewrite Hf in Hrep. simplify_eq.
  apply (move_accepted w pid wt p _ (phase w) i arg ts _ Hw Hat Hlearn Hj Hl); try done.
  destruct Hcase as [(Hm & -> & Hr & Hno)|(Hr & -> & Hoff)]; [left|right]; (split; [done|]);
    (split; [|done]); by destruct f.
Qed.

Lemma move_list w pid wt dir : winv w → procs w !! pid = Some (wt, W_List) → isListing (disk w) dir →
  moves w pid wt W_List (sys w) wt (W_Rename dir).
Proof.
  intros Hw Hat Hdir. apply moves_same; try done.
  - apply (wi_sys _ Hw).
  - exists N. split; [|done]. by apply (type_same w pid wt W_List).
  - by apply (wi_proc _ Hw pid W_List); exists wt.
  - intros x Hx _. by apply (isListing_listing _ _ Hdir).
Qed.

Lemma move_death w pid wt : winv w → procs w !! pid = Some (wt, W_Exiting) →
  moves w pid wt W_Exiting (set_coord (sys w) (WorkerDeath pid (coord (sys w)))) wt W_Gone.
Proof.
  intros Hw Hat. assert (at_ w pid W_Exiting) as [Hj He]%(wi_proc _ Hw) by by exists wt.
  split; try done.
  - destruct (wi_sys _ Hw) as [Hn [(Hty & _)|(_ & Hst & Hx & Hd)]]; [rewrite He in Hty; by destruct Hty|].
    split; [done|]. right. split; [done|]. split; [done|]. simpl. split.
    + intros q x [[_ <-]|[_ Hq]]%lookup_insert_Some; [by left|by apply (Hx q)].
    + intros q j Hq. destruct (Hd q j Hq) as (job & Hm & _). unfold dead, inState. simpl.
      destruct (decide (pid = q)) as [->|Hne]; [congruence|]. rewrite lookup_insert_ne by done. by exists job.
  - intros q job Hq Hmap. by rewrite He in Hmap.
  - intros q Hq. simpl in Hq. apply lookup_insert_is_Some in Hq as [<-|[_ Hq]]; [by right|by left].
  - exists N. split; [|done]. by apply (type_same w pid wt W_Exiting).
  - intros q (job & Hm & _). unfold dead, inState. simpl.
    destruct (decide (pid = q)) as [->|Hne]; [rewrite lookup_insert_eq|rewrite lookup_insert_ne by done]; by eexists.
  - intros k Hmap. by rewrite He in Hmap.
  - intros r [Hr [[Hred _]|_]]; simpl in *; [by rewrite He in Hred|]. left. split; [done|by right].
Qed.

Lemma winv_quiet w pid wt p a s' wt' p' : winv w → procs w !! pid = Some (wt, p) → calm w (Proc pid a) →
  execQuiet sort content pid a wt p w = Some (s', (wt', p')) → winv (set_proc (set_sys w s') pid (wt', p')).
Proof using ByKeySort0 files_noSpace.
  intros Hw Hat Hcalm He. apply (winv_move w pid wt p s' wt' p' Hw Hat).
  destruct a as [f|f|f|dir| |f|dir| | | |f| |]; simpl in Hcalm.
  - destruct p; simplify_eq/=. by apply move_nreduce.
  - destruct p; simplify_eq/=. destruct (executed f) eqn:Hex.
    + destruct (RegisterWorker pid (coord (sys w))) as [c' reply] eqn:Hr. simplify_eq.
      replace c' with (RegisterWorker pid (coord (sys w))).1 by by rewrite Hr.
      apply move_register; [done|done|]. destruct (CallRegisterWorker _ _); auto.
    + simplify_eq. destruct f; try done. simpl. replace (set_coord (sys w) (coord (sys w))) with (sys w)
        by by destruct (sys w).
      apply moves_same; try done; [apply (wi_sys _ Hw)| |].
      * destruct (wi_type _ Hw _ _ _ Hat) as (_ & k & -> & _). by exists k.
      * by apply (wi_proc _ Hw pid W_Register); eexists.
  - destruct p; try done. by apply (move_poll w pid wt f s' (wt', p')).
  - destruct p as [| | |work| | | | | | |]; try done. by apply (move_doit w pid wt dir work s' (wt', p')).
  - by destruct p.
  - assert (at_ w pid p) as Hp%(wi_proc _ Hw) by by exists wt.
    destruct p as [| | | |i mrKVs k| | | |i off kva| |]; try done; simpl in He.
    + assert (wt = mkWorkerType mapf reducef N pid) as -> by by apply (type_same w pid wt (W_Map i mrKVs k)).
      case_decide as Hlt; [done|]. apply bind_Some in He as ([s1 p1] & Hrep & [= <- <- <-]).
      destruct Hp as (m & path & text & _ & _ & _ & Hj & Hk & Hr).
      eapply (move_report w pid _ _ "Map" i path f _ s1 p1 Hw Hat); try done; [by left|by intros ? []|].
      left. split; [done|]. split; [done|]. split; [|done]. intros r Hrr. apply Hr. simpl in Hlt. lia.
    + destruct kva; [|done]. apply bind_Some in He as ([s1 p1] & Hrep & [= <- <- <-]).
      destruct Hp as (arg & Hj & _).
      eapply (move_report w pid _ _ "Reduce" i arg f _ s1 p1 Hw Hat); try done; [by right|by intros ? []|].
      right. split; [done|]. split; [done|]. by exists off.
  - destruct p; try done. simpl in He. case_decide; simplify_eq. by apply move_list.
  - destruct p as [| | | | | |[|]| | | |]; simplify_eq/=. apply move_idle; auto.
  - by destruct p.
  - by destruct p.
  - destruct p; simplify_eq/=. unfold CallWorkerDeath. destruct (executed f) eqn:Hex; [by apply move_death|].
    replace (set_coord (sys w) (coord (sys w))) with (sys w) by by destruct (sys w).
    apply moves_same; try done; [apply (wi_sys _ Hw)| |].
    + exists N. split; [|done]. by apply (type_same w pid wt' W_Exiting).
    + by apply (wi_proc _ Hw pid W_Exiting); exists wt'.
  - destruct Hcalm as [Hren _].
    destruct p; simplify_eq/=; try (apply moves_abandon; auto; done).
    exfalso. apply Hren. left. by eexists.
  - destruct Hcalm as [Hren Hwr]. simpl in He. simplify_eq. apply moves_abandon; try done; [auto| |].
    + intros x _ Hx. exfalso. apply Hren. destruct p; try done; [left; by eexists|]. right. eexists. by eexists.
    + intros r off kva ->. right. apply crashed_not_needed with off kva; [done|done| |done].
      apply Hwr. exists r, off, kva. by exists wt'.
Qed.

(** ** A worker writes, renames or reads intermediate files *)

Lemma rightFile_det m r x y : rightFile m r x → rightFile m r y → x = y.
Proof. intros (k & a & -> & Ha & _ & ->) (k' & b & Hk & Hb & _ & ->). naive_solver lia. Qed.

Section directory.
  Context (w : world) (pid : Z) (wt : WorkerType) (p p' : wpc) (d' : fileMap).
Let w' : world := set_proc (set_disk w d') pid (wt, p').
  Context (Hw : winv w) (Hat : procs w !! pid = Some (wt, p)).
  Context (Hlearn : learned p) (Hreg : registered p').
  Context (Hnw : ∀ r off kva, p ≠ W_Write r off kva) (Hnw' : ∀ r off kva, p' ≠ W_Write r off kva).
  Context (Hp' : procOk w' pid p').
  Context (Htmp : ∀ q m r, q ≠ pid → d' !! Tmp q m r = disk w !! Tmp q m r).
  Context (Hinter : ∀ m r x, disk w !! Inter m r = Some x → d' !! Inter m r = Some x).
  Context (Hright : ∀ m r x, d' !! Inter m r = Some x → rightFile m r x).
  Context (Hright' : ∀ m r x, d' !! Tmp pid m r = Some x → rightFile m r x).
  Context (Hmoved : ∀ m r, is_Some (disk w !! Tmp pid m r) → willRename p (Tmp pid m r) →
    is_Some (d' !! Inter m r) ∨ is_Some (d' !! Tmp pid m r) ∧ willRename p' (Tmp pid m r)).

Lemma at_dir q p1 : at_ w' q p1 ↔ (q = pid ∧ p1 = p') ∨ (q ≠ pid ∧ at_ w q p1).
Proof using. unfold w'. by rewrite at_set. Qed.

Lemma dir_mapped k r : mapDone w' k → 0 ≤ r < N → is_Some (d' !! Inter (Z.of_nat k) r) ∨
  ∃ q p1, at_ w' q p1 ∧ is_Some (d' !! Tmp q (Z.of_nat k) r) ∧ willRename p1 (Tmp q (Z.of_nat k) r).
Proof using Hw Hat Htmp Hinter Hmoved.
  intros Hk Hr. destruct (wi_mapped _ Hw k r Hk Hr) as [[x Hx]|(q & p1 & Hq & Hs & Hren)].
  { left. exists x. by apply Hinter. }
  destruct (decide (q = pid)) as [->|Hne].
  - assert (at_ w pid p) as Hp by by exists wt. pose proof (at_det _ _ _ _ Hq Hp) as ->.
    destruct (Hmoved _ _ Hs Hren) as [?|Hm]; [by left|right]. exists pid, p'. rewrite at_dir. split; [by left|done].
  - right. exists q, p1. rewrite at_dir, Htmp by done. split; [by right|done].
Qed.

Lemma dir_needed r : needed w' r → needed w r.
Proof using Hnw'.
  intros [Hd|(q & off & kva & Hq & Hl)]; [by left|right]. exists q, off, kva.
  apply at_dir in Hq as [[_ Hq]|[_ Hq]]; [by destruct (Hnw' r off kva)|done].
Qed.

Lemma winv_dir : winv w'.
Proof using Hw Hat Hlearn Hreg Hnw Hnw' Hp' Htmp Hinter Hright Hright' Hmoved.
  assert (at_ w pid p) as Hp by by exists wt.
  split.
  - apply (wi_sys _ Hw).
  - apply (wi_ready _ Hw).
  - intros q Hq. destruct (wi_known _ Hw q Hq) as (p1 & H1 & Hr). destruct (decide (q = pid)) as [->|Hne].
    + exists p'. rewrite at_dir. split; [by left|done].
    + exists p1. rewrite at_dir. split; [by right|done].
  - intros q wt1 p1. simpl. intros [[<- [= <- <-]]|[_ Hq]]%lookup_insert_Some; [|by apply (wi_type _ Hw)].
    split; [by destruct (wi_type _ Hw _ _ _ Hat)|]. exists N. split; [|done]. by apply (type_same w pid wt p).
  - intros q p1 [[-> ->]|[Hne Hq]]%at_dir; [done|].
    apply (procOk_mono w); try done; [|by apply (wi_proc _ Hw)]. intros i r. simpl. by rewrite Htmp.
  - intros q Hq. destruct (decide (q = pid)) as [->|Hne]; [exists p'; apply at_dir; by left|].
    destruct (wi_jobs _ Hw q Hq) as [p1 H1]. exists p1. apply at_dir. by right.
  - apply Hright.
  - intros q m r x Hx. simpl in Hx. destruct (decide (q = pid)) as [->|Hne]; [by apply Hright'|].
    rewrite Htmp in Hx by done. by apply (wi_tmp _ Hw q).
  - apply dir_mapped.
  - apply (wi_out _ Hw).
  - intros r Hn%dir_needed. destruct (wi_bytes _ Hw r Hn) as [Ho Hb]. split; [done|]. intros i Hi.
    destruct (Hb i Hi) as [?|(q & off & kva & Hq & Hle)]; [by left|right]. exists q, off, kva.
    split; [|done]. apply at_dir. right. split; [|done]. intros ->.
    by pose proof (at_det _ _ _ _ Hp Hq); destruct (Hnw r off kva).
Qed.
End directory.

Lemma winv_writeTmp w pid wt i mrKVs k : winv w → procs w !! pid = Some (wt, W_Map i mrKVs k) → k < N →
  winv (set_proc (set_disk w (writeTmp N pid i mrKVs (disk w) k)) pid (wt, W_Map i mrKVs (k + 1))).
Proof.
  intros Hw Hat Hk. assert (at_ w pid (W_Map i mrKVs k)) as Hp%(wi_proc _ Hw) by by exists wt.
  destruct Hp as (m & path & text & -> & Hin & -> & Hj & Hk0 & Hr).
  apply (winv_dir w pid wt (W_Map (Z.of_nat m) (sort (mapf path text)) k)); try done; unfold writeTmp.
  - exists m, path, text. do 4 (split; [done|]). split; [lia|]. intros r Hrr. simpl.
    destruct (decide (r = k)) as [->|Hne]; [rewrite lookup_insert_eq; by eexists|].
    rewrite lookup_insert_ne by congruence. apply Hr. lia.
  - intros q m' r Hne. by rewrite lookup_insert_ne by congruence.
  - intros m' r x Hx. by rewrite lookup_insert_ne.
  - intros m' r x Hx. rewrite lookup_insert_ne in Hx by done. by apply (wi_inter _ Hw).
  - intros m' r x [[[= <- <-] <-]|[_ Hx]]%lookup_insert_Some; [|by apply (wi_tmp _ Hw pid)].
    exists m, (path, text). split; [done|]. split; [done|]. split; [lia|done].
Qed.

Lemma winv_rename w pid wt name rest : winv w → procs w !! pid = Some (wt, W_Rename (name :: rest)) →
  winv (set_proc (set_disk w (renameOne pid (disk w) name)) pid (wt, W_Rename rest)).
Proof.
  intros Hw Hat. assert (at_ w pid (W_Rename (name :: rest))) as Hp%(wi_proc _ Hw) by by exists wt.
  assert (∀ m r x, renameOne pid (disk w) name !! Inter m r = Some x → rightFile m r x) as Hright.
  { intros m r x. rewrite renameOne_lookup. case_decide; [|apply (wi_inter _ Hw)].
    destruct (disk w !! Tmp pid m r) eqn:Ht.
    - destruct (disk w !! Inter m r); intros [= <-]; by apply (wi_tmp _ Hw pid).
    - intros Hx. apply (wi_inter _ Hw). destruct (disk w !! Inter m r); exact Hx. }
  apply (winv_dir w pid wt (W_Rename (name :: rest))); try done.
  - intros q m r Hne. rewrite renameOne_lookup. by rewrite decide_False by naive_solver.
  - intros m r x Hx. rewrite renameOne_lookup. case_decide as Hc; [|done]. rewrite Hx.
    destruct (disk w !! Tmp pid m r) as [y|] eqn:Ht; [|done].
    rewrite (rightFile_det m r x y); [done|by apply (wi_inter _ Hw)|by apply (wi_tmp _ Hw pid)].
  - intros m r x. rewrite renameOne_lookup. case_decide; [done|]. apply (wi_tmp _ Hw).
  - intros m r [x Hx] Hin. rewrite !renameOne_lookup. simpl in Hin.
    destruct (decide (Tmp pid m r = name)) as [Heq|Hne].
    + left. rewrite Hx. by destruct (disk w !! Inter m r); eexists.
    + right. rewrite decide_False by naive_solver. split; [by eexists|]. simpl. set_solver.
Qed.

Lemma winv_read w pid wt r name rest kva : winv w → procs w !! pid = Some (wt, W_Read r (name :: rest) kva) →
  winv (set_proc w pid (wt, W_Read r rest (kva ++ readOne r (disk w) name))).
Proof.
  intros Hw Hat. assert (at_ w pid (W_Read r (name :: rest) kva)) as Hp%(wi_proc _ Hw) by by exists wt.
  destruct Hp as (arg & Hj & Hr & Hph & Hf & Hperm).
  apply (winv_dir w pid wt (W_Read r (name :: rest) kva) _ (disk w)); try done.
  - exists arg. do 3 (split; [done|]). split; [intros f Hin; apply Hf; by right|]. by rewrite <- app_assoc.
  - apply (wi_inter _ Hw).
  - apply (wi_tmp _ Hw).
Qed.

(** ** A worker writes its output file *)

Section output.
  Context (w : world) (pid : Z) (wt : WorkerType) (p : wpc) (r : Z) (off : nat) (kva : list KeyValue) (data : byteSeq).
Let w' : world := set_proc (set_outs w (<[r := data]> (outs w))) pid (wt, W_Write r off kva).
  Context (Hw : winv w) (Hat : procs w !! pid = Some (wt, p)).
  Context (Hlearn : learned p) (Hnr : ∀ f, ¬ willRename p f).
  Context (Hwr : ∀ r' off kva, p = W_Write r' off kva → r' = r).
  Context (Hr : 0 ≤ r < N) (Hlen : (length data ≤ length (target r))%nat).
  Context (Hp' : procOk w' pid (W_Write r off kva)).
  Context (Hbytes : needed w' r → ∀ i, (i < length (target r))%nat → byteOk w' r i).

Lemma at_out q p1 : at_ w' q p1 ↔ (q = pid ∧ p1 = W_Write r off kva) ∨ (q ≠ pid ∧ at_ w q p1).
Proof using. unfold w'. by rewrite at_set. Qed.

Lemma out_other r' : r' ≠ r → needed w' r' →
  is_Some (outs w' !! r') ∧ ∀ i, (i < length (target r'))%nat → byteOk w' r' i.
Proof using Hw Hat Hwr.
  intros Hne Hn. assert (at_ w pid p) as Hp by by exists wt. assert (needed w r') as Hn'.
  { destruct Hn as [Hd|(q & o & l & Hq & Hl)]; [by left|right]. exists q, o, l. split; [|done].
    apply at_out in Hq as [[_ [= ? _ _]]|[_ Hq]]; done. }
  destruct (wi_bytes _ Hw r' Hn') as [Ho Hb]. simpl. rewrite lookup_insert_ne by done. split; [done|].
  intros i Hi. unfold byteOk. simpl. rewrite lookup_insert_ne by done.
  destruct (Hb i Hi) as [?|(q & o & l & Hq & Hle)]; [by left|right]. exists q, o, l. split; [|done].
  apply at_out. right. split; [|done]. intros ->. by pose proof (at_det _ _ _ _ Hp Hq) as ->%Hwr.
Qed.

Lemma winv_out : winv w'.
Proof using Hw Hat Hlearn Hnr Hwr Hr Hlen Hp' Hbytes.
  assert (at_ w pid p) as Hp by by exists wt.
  split.
  - apply (wi_sys _ Hw).
  - apply (wi_ready _ Hw).
  - intros q Hq. destruct (wi_known _ Hw q Hq) as (p1 & H1 & Hr1). destruct (decide (q = pid)) as [->|Hne].
    + eexists. rewrite at_out. split; [by left|done].
    + exists p1. rewrite at_out. split; [by right|done].
  - intros q wt1 p1. simpl. intros [[<- [= <- <-]]|[_ Hq]]%lookup_insert_Some; [|by apply (wi_type _ Hw)].
    split; [by destruct (wi_type _ Hw _ _ _ Hat)|]. exists N. split; [|done]. by apply (type_same w pid wt p).
  - intros q p1 [[-> ->]|[Hne Hq]]%at_out; [done|].
    apply (procOk_mono w); try done; [|by apply (wi_proc _ Hw)]. intros r' Ho. simpl.
    apply lookup_insert_is_Some. destruct (decide (r = r')); auto.
  - intros q Hq. destruct (decide (q = pid)) as [->|Hne]; [eexists; apply at_out; by left|].
    destruct (wi_jobs _ Hw q Hq) as [p1 H1]. exists p1. apply at_out. by right.
  - apply (wi_inter _ Hw).
  - apply (wi_tmp _ Hw).
  - intros k r' Hk Hr'. destruct (wi_mapped _ Hw k r' Hk Hr') as [?|(q & p1 & Hq & Hs & Hren)]; [by left|right].
    exists q, p1. rewrite at_out. split; [|done]. right. split; [|done]. intros ->.
    pose proof (at_det _ _ _ _ Hp Hq) as ->. by destruct (Hnr (Tmp pid (Z.of_nat k) r')).
  - intros r' x. simpl. intros [[<- <-]|[_ Hx]]%lookup_insert_Some; [done|by apply (wi_out _ Hw)].
  - intros r' Hn. destruct (decide (r' = r)) as [->|Hne]; [|by apply out_other].
    split; [|by apply Hbytes]. simpl. rewrite lookup_insert_eq. by eexists.
Qed.
End output.

Lemma winv_create w pid wt r kva : winv w → procs w !! pid = Some (wt, W_Read r [] kva) →
  winv (set_proc (set_outs w (<[r := []]> (outs w))) pid (wt, W_Write r 0 (sort kva))).
Proof using ByKeySort0 reducef_perm.
  intros Hw Hat. assert (at_ w pid (W_Read r [] kva)) as Hp%(wi_proc _ Hw) by by exists wt.
  destruct Hp as (arg & Hj & Hr & Hph & _ & Hperm). rewrite app_nil_r in Hperm.
  apply (winv_out w pid wt (W_Read r [] kva)); try done; [intros f []|simpl; lia| |].
  - exists arg. do 3 (split; [done|]). split; [simpl; rewrite lookup_insert_eq; by eexists|]. split; [|lia].
    simpl. unfold target, linesFor. rewrite <- (reduceAll_perm sort reducef reducef_perm _ _ Hperm).
    unfold reduceAll. by rewrite reduceLoop_linesOf by lia.
  - intros _ i Hi. right. exists pid, 0%nat, (sort kva). split; [|lia]. apply at_out. by left.
Qed.

(** The next line of the target. *)
Lemma target_line r off line rest : target r = take off (target r) ++ line ++ rest →
  (off ≤ length (target r))%nat →
  (off + length line ≤ length (target r))%nat ∧
  target r = take (off + length line) (target r) ++ rest ∧
  ∀ i, (off ≤ i < off + length line)%nat → target r !! i = line !! (i - off)%nat.
Proof.
  generalize (target r). intros l Hl Hoff. assert (length (take off l) = off) as Ht by (rewrite length_take; lia).
  assert (length l = off + length line + length rest)%nat as Hlen.
  { rewrite Hl at 1. rewrite !length_app, Ht. lia. }
  split; [lia|]. split.
  - rewrite Hl at 1. rewrite app_assoc. f_equal. rewrite Hl at 2. rewrite app_assoc, take_app_length'; [done|].
    rewrite length_app, Ht. lia.
  - intros i Hi. rewrite Hl, lookup_app_r by lia. rewrite lookup_app_l by lia. f_equal. lia.
Qed.

Lemma winv_line w pid wt r off kv rest values others line : winv w →
  procs w !! pid = Some (wt, W_Write r off (kv :: rest)) → sameKey (Key kv) rest = (values, others) →
  line = String.list_ascii_of_string (outputLine (Key kv) (reducef (Key kv) (Value kv :: values))) →
  winv (set_proc (set_outs w (<[r := writeAt off line (default [] (outs w !! r))]> (outs w)))
          pid (wt, W_Write r (off + length line) others)).
Proof.
  intros Hw Hat Hs Hline. set (w' := set_proc _ _ _).
  assert (at_ w pid (W_Write r off (kv :: rest))) as Hpid by by exists wt.
  destruct (wi_proc _ Hw _ _ Hpid) as (arg & Hj & Hr & Hph & [f Hf] & Ht & Hoff).
  rewrite (linesOf_cons _ _ _ _ _ Hs), bytesOf_cons, <- Hline in Ht.
  destruct (target_line r off line _ Ht Hoff) as (Hoff' & Ht' & Hnew). destruct (wi_out _ Hw _ _ Hf) as [_ Hflen].
  assert (∀ q p1, at_ w' q p1 ↔ (q = pid ∧ p1 = W_Write r (off + length line) others) ∨ (q ≠ pid ∧ at_ w q p1)) as Hat'.
  { intros q p1. unfold w'. by rewrite at_set. }
  apply (winv_out w pid wt (W_Write r off (kv :: rest))); try done.
  - intros x [].
  - by intros r' o l [= -> _ _].
  - rewrite Hf. simpl. rewrite writeAt_length. lia.
  - exists arg. do 3 (split; [done|]). split; [simpl; rewrite lookup_insert_eq; by eexists|done].
  - intros Hn i Hi. fold w'. assert (needed w r) as Hn'.
    { destruct Hn as [Hd|(q & o & l & Hq & Hl)]; [by left|right]. apply Hat' in Hq as [[-> _]|[_ Hq]]; eauto. }
    destruct (decide (off + length line ≤ i)%nat) as [Hge|Hlt].
    { right. exists pid, (off + length line)%nat, others. rewrite Hat'. split; [by left|lia]. }
    unfold byteOk. simpl. rewrite lookup_insert_eq, Hf. simpl.
    destruct (decide (off ≤ i)%nat) as [Hge|Hlt']; [left; rewrite writeAt_new, Hnew by lia; done|].
    destruct (proj2 (wi_bytes _ Hw r Hn') i Hi) as [Hb|(q & o & l & Hq & Hle)].
    + left. rewrite Hf in Hb. simpl in Hb. rewrite writeAt_lookup; [done|lia|].
      apply lookup_lt_is_Some. rewrite Hb. by apply lookup_lt_is_Some.
    + right. exists q, o, l. rewrite Hat'. split; [|done]. right. split; [|done]. intros ->.
      pose proof (at_det _ _ _ _ Hq Hpid) as [= -> ->]. lia.
Qed.

(** ** The coordinator moves on *)

Lemma winv_settled w s' : winv w → sysInv (phase w) s' → readyOk files (phase w) (coord s') →
  jobs s' = jobs (sys w) → settled (coord (sys w)) (coord s') → winv (set_sys w s').
Proof.
  intros Hw Hs Hr Hj Hset. split; try done.
  - intros q Hq. apply (wi_known _ Hw), (st_known _ _ Hset q Hq).
  - apply (wi_type _ Hw).
  - intros q p Hq. apply (procOk_mono w); try done; [simpl; by rewrite Hj|by apply (wi_proc _ Hw)].
  - simpl. rewrite Hj. apply (wi_jobs _ Hw).
  - apply (wi_inter _ Hw).
  - apply (wi_tmp _ Hw).
  - intros k r [Hk Hd]. apply (wi_mapped _ Hw). split; [done|]. intros Hm. by apply (st_done _ _ Hset), Hd.
  - apply (wi_out _ Hw).
  - intros r Hn. apply (wi_bytes _ Hw r). destruct Hn as [[Hr' [[Hp Hd]|He]]|(q & off & kva & Hq & Hl)].
    + left. split; [done|]. left. split; [done|]. by apply (st_done _ _ Hset).
    + left. split; [done|by right].
    + right. exists q, off, kva. split; [done|]. intros Hd. by apply Hl, (st_dead _ _ Hset).
Qed.

Lemma winv_alloc w a s' : winv w → phase w ≠ "Exit" → execAlloc (phase w) files a (sys w) = Some s' →
  winv (set_sys w s').
Proof.
  intros Hw Hph He. destruct (wi_sys _ Hw) as [Hn [(Ht & Hi & Hc)|(? & _)]]; [|done].
  destruct (execAlloc_settled files (phase w) Ht _ a _ _ Hi He) as (Hi' & Hj & [Hc' Hn'] & Hset & Hr).
  apply winv_settled; try done; [|apply Hr, (wi_ready _ Hw)].
  split; [congruence|]. left. split; [done|]. split; [done|congruence].
Qed.

Lemma winv_finish w : winv w → phase w = "Exit" →
  winv (set_sys w (set_coord (sys w) (set_c_state (coord (sys w)) "Death"))).
Proof.
  intros Hw Hph. apply winv_settled; try done; [|intros q job _ Hm; by rewrite Hph in Hm].
  destruct (wi_sys _ Hw) as [Hn [(Ht & _)|(He & _ & Hx)]]; [rewrite Hph in Ht; by destruct Ht|].
  split; [done|]. right. by split.
Qed.

Lemma winv_spawn w pid : winv w → 0 < pid → procs w !! pid = None →
  winv (set_proc w pid (mkWorkerType mapf reducef 0 pid, W_Start)).
Proof.
  intros Hw Hpid Hnew. set (w' := set_proc _ _ _).
  assert (∀ p, ¬ at_ w pid p) as Hno by (intros p [wt Hp]; congruence).
  assert (∀ q p, at_ w' q p ↔ (q = pid ∧ p = W_Start) ∨ (q ≠ pid ∧ at_ w q p)) as Hat by (intros q p; apply at_set).
  assert (∀ q p, at_ w q p → at_ w' q p) as Hup.
  { intros q p Hq. apply Hat. right. split; [|done]. intros ->. by apply (Hno p). }
  split.
  - apply (wi_sys _ Hw).
  - apply (wi_ready _ Hw).
  - intros q Hq. destruct (wi_known _ Hw q Hq) as (p & Hp & ?). exists p. auto.
  - intros q wt p. simpl. intros [[<- [= <- <-]]|[_ Hq]]%lookup_insert_Some; [|by apply (wi_type _ Hw)].
    split; [done|]. by exists 0.
  - intros q p [[-> ->]|[Hne Hq]]%Hat; [|by apply (wi_proc _ Hw)]. simpl.
    destruct (jobs (sys w) !! pid) eqn:Hj; [|done]. destruct (wi_jobs _ Hw pid) as [p1 Hp1]; [by eexists|].
    by destruct (Hno p1).
  - intros q Hq. destruct (wi_jobs _ Hw q Hq) as [p Hp]. exists p. auto.
  - apply (wi_inter _ Hw).
  - apply (wi_tmp _ Hw).
  - intros k r Hk Hr. destruct (wi_mapped _ Hw k r Hk Hr) as [?|(q & p & ? & ?)]; [by left|right]. exists q, p. auto.
  - apply (wi_out _ Hw).
  - intros r Hn. assert (needed w r) as Hn'.
    { destruct Hn as [Hd|(q & off & kva & [[_ ?]|[_ Hq]]%Hat & Hl)]; [by left|done|right; eauto]. }
    destruct (wi_bytes _ Hw r Hn') as [Ho Hb]. split; [done|]. intros i Hi.
    destruct (Hb i Hi) as [?|(q & off & kva & ? & ?)]; [by left|right]. exists q, off, kva. auto.
Qed.

(** ** The next phase *)

(** When every work is done, a worker that has a job was declared dead. *)
Lemma phase_over ph s : (ph = "Map" ∨ ph = "Reduce") → inv ph (worksOf files nReduce ph) s →
  findReady (works (coord s)) 0 false = (-1, false) →
  (∀ k, (k < worksOf files nReduce ph)%nat → holds (coord s) k (-1)) ∧
  (∀ q x, workerMap (coord s) !! q = Some x → 0 < q ∧ (w_state x = WS_Free ∨ w_state x = WS_Death)) ∧
  (∀ q j, jobs s !! q = Some j → dead (coord s) q).
Proof.
  intros Ht Hi Hf. destruct (proj2 (findReady_none _ _ _ _ (Z.le_refl 0) Hf)) as [Hd _].
  destruct (Hd eq_refl) as [_ Hdone]. rewrite Forall_lookup in Hdone.
  assert (∀ k v, holds (coord s) k v → v = -1) as Hh by (intros k v (wi & Hk & <-); by apply (Hdone k)).
  split_and!.
  - intros k Hk. rewrite <- (in_len _ _ _ Hi) in Hk. apply lookup_lt_is_Some in Hk as [wi Hwi].
    exists wi. split; [done|by apply (Hdone k)].
  - intros q x Hx. destruct (in_workers _ _ _ Hi _ _ Hx) as (Hp & [?|[?|(_ & k & _ & Hk)]]); [auto|auto|].
    apply Hh in Hk. lia.
  - intros q [[t i] arg] Hj. destruct (in_jobs _ _ _ Hi _ _ _ _ Hj) as [?|(job & Hm & _)]; [done|].
    destruct (in_workers _ _ _ Hi _ _ Hm) as (Hp & [|[|(_ & k & _ & Hk)]]); [done|done|].
    apply Hh in Hk. lia.
Qed.

(** A new phase, in which nothing but the coordinator has changed. *)
Lemma winv_phase w ph s' : winv w → sysInv ph s' → ph ≠ "Map" → phase w ≠ "Exit" →
  jobs s' = jobs (sys w) →
  (∀ q, is_Some (workerMap (coord s') !! q) → is_Some (workerMap (coord (sys w)) !! q)) →
  (∀ k, (k < length files)%nat → mapDone w k) →
  (∀ r, needed (mkWorld ph s' (disk w) (outs w) (procs w)) r → needed w r) →
  winv (mkWorld ph s' (disk w) (outs w) (procs w)).
Proof.
  intros Hw Hs Hph Hex Hj Hk Hm Hn. split; try done.
  - by intros q job _ Hmap.
  - intros q Hq. by apply (wi_known _ Hw), Hk.
  - apply (wi_type _ Hw).
  - intros q p Hq. apply (procOk_mono w); try done; [simpl; by rewrite Hj|by apply (wi_proc _ Hw)].
  - simpl. rewrite Hj. apply (wi_jobs _ Hw).
  - apply (wi_inter _ Hw).
  - apply (wi_tmp _ Hw).
  - intros k r [Hlt _]. by apply (wi_mapped _ Hw), Hm.
  - apply (wi_out _ Hw).
  - intros r Hr. by apply (wi_bytes _ Hw r), Hn.
Qed.

Lemma dead_exit c q : dead c q → dead (exitWorkers c) q.
Proof. intros (job & Hm & _). exists job. simpl. by rewrite lookup_fmap, Hm. Qed.

Lemma winv_next w w' : winv w → nextPhase nReduce w = Some w' → winv w'.
Proof.
  intros Hw He. unfold nextPhase in He. destruct (pc (sys w)) eqn:Hpc; try done.
  destruct (findReady (works (coord (sys w))) 0 false) as [i b] eqn:Hf.
  destruct i as [|i|[i|i|]]; try done. destruct b; [done|].
  destruct (wi_sys _ Hw) as [HN [(Ht & Hi & Hc)|(Hph & _)]]; [|by rewrite Hph in He].
  destruct (phase_over _ _ Ht Hi Hf) as (Hdone & Hst & Hdead).
  assert (∀ k, (k < length files)%nat → mapDone w k) as Hmap.
  { intros k Hk. split; [done|]. intros Hm. apply Hdone. unfold worksOf. by rewrite decide_True. }
  case_decide as Hm; [|case_decide as Hr; [|done]]; simplify_eq.
  - apply winv_phase; try done; [|by rewrite Hm|].
    + split; [done|]. left. split; [by right|]. split; [|done].
      unfold worksOf. rewrite decide_False by done. destruct (sys w) as [c p js]. simpl in *. subst p.
      by apply inv_start.
    + intros r [[Hr [[_ (wi & [-> _]%lookup_replicate & Hwi)]|?]]|(q & off & kva & Hq & _)]; [done|done|].
      destruct (wi_proc _ Hw q (W_Write r off kva)) as (_ & _ & _ & ? & _); done.
  - apply winv_phase; try done; [|by rewrite Hr| |].
    + split; [done|]. right. split; [done|]. split; [done|]. simpl. split.
      * intros q x. rewrite lookup_fmap. destruct (workerMap _ !! q) as [y|]; [|done]. intros [= <-].
        case_decide; auto.
      * intros q j Hj. by eapply dead_exit, Hdead.
    + intros q. simpl. by rewrite lookup_fmap, fmap_is_Some.
    + intros r [[Hrr _]|(q & off & kva & Hq & Hl)].
      * left. split; [done|]. left. split; [done|]. apply Hdone. unfold worksOf. rewrite decide_False by done. lia.
      * right. exists q, off, kva. split; [done|]. intros Hd. apply Hl. by apply dead_exit.
Qed.

Lemma winv_exec a w w' : winv w → calm w a → exec sort mapf reducef content files nReduce a w = Some w' → winv w'.
Proof using ByKeySort0 reducef_perm files_noSpace.
  intros Hw Hcalm He. destruct a as [a| | |pid|pid a]; simpl in He.
  - case_decide; [done|]. apply fmap_Some in He as (s' & Hs & ->). by eapply winv_alloc.
  - by eapply winv_next.
  - case_decide; [|done]. destruct (isAllDeath _); simplify_eq. by apply winv_finish.
  - case_decide as Hp; simplify_eq. destruct Hp. by apply winv_spawn.
  - unfold execProc in He. apply bind_Some in He as ([wt p] & Hat & He).
    destruct (execQuiet sort content pid a wt p w) as [[s' [wt' p']]|] eqn:Hq.
    { simplify_eq. by eapply winv_quiet. }
    assert (learned p → wt = mkWorkerType mapf reducef N pid) as Hwt by by apply (type_same w pid wt p).
    destruct a, p as [| | | |i mrKVs k| |[|name rest]|r [|name rest] kva|r off [|kv rest]| |]; try done;
      simpl in He; rewrite (Hwt I) in *; simpl in *.
    + case_decide; simplify_eq. by apply winv_writeTmp.
    + simplify_eq. by apply winv_rename.
    + simplify_eq. by apply winv_create.
    + simplify_eq. by apply winv_read.
    + destruct (sameKey (Key kv) rest) as [values others] eqn:Hs. simplify_eq. by eapply winv_line.
Qed.

Lemma winv_start : winv (world0 files nReduce).
Proof.
  split; try done.
  - split; [done|]. left. split; [by left|]. split; [|done]. by apply inv_start.
  - by intros pid [x Hx].
  - by intros pid p [wt Hp].
  - by intros pid [x Hx].
  - intros k r [_ Hd]. destruct (Hd eq_refl) as (wi & [-> _]%lookup_replicate & ?). done.
  - intros r [[_ [[? _]|?]]|(q & off & kva & [wt Hq] & _)]; done.
Qed.

Lemma reached_winv w : reached sort mapf reducef content files nReduce w → winv w.
Proof using ByKeySort0 reducef_perm files_noSpace.
  induction 1 as [|w a w' _ IH Hc He]; [apply winv_start|by eapply winv_exec].
Qed.

(** C13: a MapReduce job that is done has computed what the sequential program
    computes. In every run of the coordinator and any number of workers, in which
    calls get lost, workers are slow, are declared dead, repeat work or crash, and
    write the same output file at the same time: when [Done] answers true and no
    straggler is still writing, file [mr-out-r] holds the lines of its part, and
    the parts together are the lines of [main/mrsequential.go]. The runs are those
    that [calm] describes: the call [GetNReduce] is answered ([lost_nReduce]); no
    worker is in the middle of its renames when another starts a reduce job, or
    when it stops ([reduce_before_rename]); a worker that was declared dead does
    not stop while it writes an output file ([straggler_truncates]). There is at
    least one reduce task, names of input files have no space, and the result of
    the reduce function does not depend on the order of the values. *)
Theorem mapreduce_correct w : (0 < nReduce)%nat → reached sort mapf reducef content files nReduce w →
  Done (coord (sys w)) = true → (∀ pid, ¬ writing w pid) →
  ∃ parts lines, mrsequential sort mapf reducef inputs = Ret lines ∧
    (∀ r, 0 ≤ r < N → outs w !! r = Some (bytesOf (parts r))) ∧
    concat (map parts (seqZ 0 N)) ≡ₚ lines.
Proof using ByKeySort0 reducef_perm files_noSpace.
  intros Hpos Hr Hdone Hwr. apply reached_winv in Hr as Hw.
  destruct (reduceAll_buckets sort mapf reducef reducef_perm inputs N ltac:(lia) (λ r, bucket N r allPairs))
    as (parts & lines & Hseq & Hparts & Hperm); [done|].
  exists parts, lines. split; [done|]. split; [|done]. intros r Hrr.
  assert (target r = bytesOf (parts r)) as <- by (unfold target, linesFor; by rewrite Hparts).
  assert (phase w = "Exit") as Hph.
  { apply bool_decide_eq_true in Hdone. destruct (wi_sys _ Hw) as [_ [(_ & _ & Hc)|[? _]]]; [congruence|done]. }
  destruct (wi_bytes _ Hw r) as [[data Hd] Hb]; [left; split; [done|by right]|].
  rewrite Hd. f_equal. destruct (wi_out _ Hw _ _ Hd) as [_ Hlen]. apply list_eq. intros i.
  destruct (decide (i < length (target r))%nat) as [Hi|Hi].
  - destruct (Hb i Hi) as [Hx|(q & off & kva & Hq & _)]; [by rewrite Hd in Hx|].
    destruct (Hwr q). by exists r, off, kva.
  - rewrite !lookup_ge_None_2 by lia. done.
Qed.
End proof.

(** ** Runs of the model *)

Definition isRenaming (p : wpc) : bool := match p with W_List | W_Rename _ => true | _ => false end.
Definition isWriting (p : wpc) : bool := match p with W_Write _ _ _ => true | _ => false end.

Definition pointOf (w : world) (pid : Z) : wpc := match procs w !! pid with Some (_, p) => p | None => W_Gone end.

Definition isDead (c : Coordinator) (pid : Z) : bool :=
  match workerMap c !! pid with Some x => bool_decide (w_state x = WS_Death) | None => false end.

Definition nobody (f : wpc → bool) (w : world) : bool :=
  forallb (λ x, negb (f x.2.2)) (map_to_list (procs w)).

Definition isReduce (work : string) : bool :=
  match parseJob work with Ret (t, _, _) => bool_decide (t ≠ "Map") | _ => false end.

Definition calmb (w : world) (a : action) : bool :=
  match a with
  | Proc _ (P_NReduce f) => call f
  | Proc pid (P_DoIt _) =>
      match pointOf w pid with W_Job work => negb (isReduce work) || nobody isRenaming w | _ => true end
  | Proc pid (P_Fail | P_Crash) =>
      negb (isRenaming (pointOf w pid)) && (negb (isWriting (pointOf w pid)) || negb (isDead (coord (sys w)) pid))
  | _ => true
  end.

Lemma at_pointOf w pid p : at_ w pid p → pointOf w pid = p.
Proof. intros [wt Hp]. unfold pointOf. by rewrite Hp. Qed.

Lemma renaming_pointOf w pid : renaming w pid → isRenaming (pointOf w pid) = true.
Proof. intros [Hp|[dir Hp]]; by rewrite (at_pointOf _ _ _ Hp). Qed.

Lemma nobody_spec f w pid p : nobody f w = true → at_ w pid p → f p = false.
Proof.
  unfold nobody. rewrite forallb_forall. intros Hf [wt Hp]. apply elem_of_map_to_list, list_elem_of_In in Hp.
  apply Hf in Hp. by apply negb_true_iff in Hp.
Qed.

Lemma calmb_calm w a : calmb w a = true → calm w a.
Proof.
  destruct a as [a| | |pid|pid a]; try done. destruct a; simpl; try done.
  - by destruct f.
  - intros Hc work pid' Hp (t & i & arg & Hj & Ht). rewrite (at_pointOf _ _ _ Hp) in Hc. unfold isReduce in Hc.
    rewrite Hj, bool_decide_eq_true_2 in Hc by done. simpl in Hc.
    intros [Hr|[dir Hr]]; by apply (nobody_spec _ _ _ _ Hc) in Hr.
  - intros [Hr Hw]%andb_true_iff. apply negb_true_iff in Hr. split.
    + intros Hren%renaming_pointOf. congruence.
    + intros (r & off & kva & Hp) (job & Hm & _). rewrite (at_pointOf _ _ _ Hp) in Hw. unfold isDead in Hw.
      by rewrite Hm in Hw.
  - intros [Hr Hw]%andb_true_iff. apply negb_true_iff in Hr. split.
    + intros Hren%renaming_pointOf. congruence.
    + intros (r & off & kva & Hp) (job & Hm & _). rewrite (at_pointOf _ _ _ Hp) in Hw. unfold isDead in Hw.
      by rewrite Hm in Hw.
Qed.

Section run.
  Context (sort : list KeyValue → list KeyValue).
  Context (mapf : string → string → list KeyValue) (reducef : string → list string → string).
  Context (content : string → option string) (files : list string) (nReduce : nat).

(** A schedule; with [safe] only calm actions. *)
Fixpoint runWorld (safe : bool) (acts : list (world → action)) (w : world) : option world :=
  match acts with
  | [] => Some w
  | a :: acts =>
      if negb safe || calmb w (a w)
      then w' ← exec sort mapf reducef content files nReduce (a w) w; runWorld safe acts w'
      else None
  end.

Lemma runWorld_reached acts w w' : reached sort mapf reducef content files nReduce w →
  runWorld true acts w = Some w' → reached sort mapf reducef content files nReduce w'.
Proof.
  revert w. induction acts as [|a acts IH]; intros w Hw Hr; simpl in Hr; [by simplify_eq|].
  destruct (calmb w (a w)) eqn:Hc; [|done]. apply bind_Some in Hr as (w1 & H1 & Hr).
  apply (IH w1); [|done]. eapply reached_step; [done|by apply calmb_calm|done].
Qed.
End run.

(** ** A run with a straggler

    One input file and two reduce tasks.  Worker 7 takes the map task and is
    declared dead, worker 8 does it again; worker 8 is late with reduce task 0,
    which worker 9 takes over while 8 is still writing. *)

Definition demoContent (f : string) : option string := if decide (f = "f0") then Some "abab" else None.

Definition act (a : action) (_ : world) : action := a.
Definition doIt (pid : Z) (w : world) : action := Proc pid (P_DoIt (elements (dom (disk w)))).
Definition listDir (pid : Z) (w : world) : action := Proc pid (P_List (elements (dom (disk w)))).
Definition assign (now : Z) : list (world → action) :=
  [act (Alloc Scan); λ w, Alloc (Pick (map_to_list (workerMap (coord (sys w))))); act (Alloc (Mark now)); act (Alloc Give)].
Definition enter (pid : Z) : list (world → action) :=
  [act (Spawn pid); act (Proc pid (P_NReduce Answered)); act (Proc pid (P_Register Answered))].
Definition poll (pid : Z) : list (world → action) := [act (Proc pid (P_Poll Answered)); doIt pid].
Definition mapFiles (pid : Z) : list (world → action) := [act (Proc pid P_WriteTmp); act (Proc pid P_WriteTmp)].
Definition renameAll (pid : Z) (n : nat) : list (world → action) := listDir pid :: replicate (S n) (act (Proc pid P_RenameNext)).
Definition readAll (pid : Z) (n : nat) : list (world → action) := replicate (S n) (act (Proc pid P_ReadNext)).
Definition finish (pid : Z) : list (world → action) := [act (Proc pid (P_Report Answered))].
Definition late : Z := 20000000000.

Definition demoMap : list (world → action) :=
  enter 7 ++ assign 5 ++ poll 7 ++ mapFiles 7 ++ enter 8 ++ [act (Alloc (Recover late))] ++
  assign late ++ poll 8 ++ mapFiles 8 ++ finish 8 ++ finish 7 ++ renameAll 8 4 ++ [act NextPhase].

Definition demoReduce : list (world → action) :=
  assign late ++ poll 8 ++ readAll 8 4 ++ enter 9 ++ [act (Alloc (Recover (3 * late)))] ++
  assign (3 * late) ++ poll 9 ++ readAll 9 4 ++
  [act (Proc 8 P_WriteNext); act (Proc 9 P_WriteNext)] ++ finish 9 ++ finish 8 ++
  assign (3 * late) ++ poll 9 ++ readAll 9 4 ++ [act (Proc 9 P_WriteNext)] ++ finish 9 ++
  [act NextPhase; act (Proc 9 (P_Poll Answered)); act (Proc 9 (P_Death Answered)); act Finish].

Definition demoRun : option world :=
  runWorld (merge_sort leKey) wcMap wcReduce demoContent ["f0"] 2 true (demoMap ++ demoReduce) (world0 ["f0"] 2).

Definition demoWorld : world := default (world0 ["f0"] 2) demoRun.

Lemma demoRun_ends : demoRun = Some demoWorld.
Proof.
  assert ((λ _, tt) <$> demoRun = Some tt) as Hr by (vm_compute; reflexivity).
  unfold demoWorld. by destruct demoRun.
Qed.

Lemma mapreduce_correct_witness : ∃ parts lines,
  mrsequential (merge_sort leKey) wcMap wcReduce [("f0", "abab")] = Ret lines ∧
  outs demoWorld !! 0 = Some (bytesOf (parts 0)) ∧ parts 0 ++ parts 1 ≡ₚ lines ∧ outputLine "a" "2" ∈ lines.
Proof.
  destruct (mapreduce_correct (merge_sort leKey) wcMap wcReduce) with
    (content := demoContent) (files := ["f0"]) (nReduce := 2%nat) (w := demoWorld)
    as (parts & lines & Hseq & Hout & Hp).
  - intros k vs vs' Hvs. unfold wcReduce. by rewrite Hvs.
  - repeat constructor.
  - lia.
  - eapply runWorld_reached; [apply reached_start|exact demoRun_ends].
  - vm_compute. reflexivity.
  - intros pid (r & off & kva & Hw). apply (nobody_spec isWriting demoWorld) in Hw; [done|].
    vm_compute. reflexivity.
  - change (inputs demoContent ["f0"]) with [("f0", "abab")] in Hseq.
    exists parts, lines. split; [exact Hseq|]. split; [exact (Hout 0 (conj (Z.le_refl 0) eq_refl))|]. split.
    + etransitivity; [|exact Hp]. change (seqZ 0 (Z.of_nat 2)) with [0; 1]. cbn [map concat]. by rewrite app_nil_r.
    + assert (mrsequential (merge_sort leKey) wcMap wcReduce [("f0", "abab")] =
        Ret [outputLine "a" "2"; outputLine "b" "2"]) as Hl by (vm_compute; reflexivity).
      rewrite Hl in Hseq. injection Hseq as <-. left.
Defined.

(** ** The coordinator waits for every worker

    [Exit] waits until every worker has reported its death.  Nobody reports the
    death of a worker that has crashed meanwhile, and there is no time limit. *)
Section waiting.
  Context (sort : list KeyValue → list KeyValue).
  Context (mapf : string → string → list KeyValue) (reducef : string → list string → string).
  Context (content : string → option string) (files : list string) (nReduce : nat).

Definition waitsFor (w : world) (pid : Z) : Prop :=
  phase w = "Exit" ∧ c_state (coord (sys w)) = "Exiting" ∧ at_ w pid W_Gone ∧
  inState (coord (sys w)) pid WS_Exiting (λ _, True).

Lemma inState_other c q x pid P : q ≠ pid → inState c pid WS_Exiting P →
  inState (set_workerMap c (<[q := x]> (workerMap c))) pid WS_Exiting P.
Proof. intros Hne. by apply inState_insert_ne. Qed.

Lemma report_waits q i t f next w s' p' pid : q ≠ pid → report q i t f next w = Some (s', p') →
  inState (coord (sys w)) pid WS_Exiting (λ _, True) →
  c_state (coord s') = c_state (coord (sys w)) ∧ inState (coord s') pid WS_Exiting (λ _, True).
Proof.
  intros Hne Hr Hx. unfold report in Hr. destruct (executed f); [|by simplify_eq].
  destruct (WorkFinish q i t (coord (sys w))) as [[c r]| | |] eqn:Hf; simplify_eq. simpl.
  unfold WorkFinish in Hf. repeat case_decide; [by injection Hf as <- _| |by injection Hf as <- _].
  apply bind_Ret_inv in Hf as (wi & _ & Hf). apply bind_Ret_inv in Hf as (l & _ & [= <- _]).
  split; [done|]. by apply (inState_other (coord (sys w)) q).
Qed.

Lemma quiet_waits q a wt p w s' x pid : q ≠ pid → execQuiet sort content q a wt p w = Some (s', x) →
  c_state (coord (sys w)) = "Exiting" → inState (coord (sys w)) pid WS_Exiting (λ _, True) →
  c_state (coord s') = "Exiting" ∧ inState (coord s') pid WS_Exiting (λ _, True).
Proof.
  intros Hne He Hc Hx. destruct a; simpl in He; destruct p; try done; simplify_eq/=; try done.
  - destruct (executed f); simplify_eq; [|done]. unfold RegisterWorker in He. rewrite decide_True in He by congruence.
    by simplify_eq.
  - case_decide; [|done]. destruct (do_it _ _ _ _ _); by simplify_eq.
  - case_decide; [done|]. apply bind_Some in He as ([s1 p1] & Hr & [= <- _]).
    rewrite <- Hc. by eapply report_waits.
  - destruct kva; [|done]. apply bind_Some in He as ([s1 p1] & Hr & [= <- _]).
    rewrite <- Hc. by eapply report_waits.
  - case_decide; by simplify_eq.
  - destruct files0; by simplify_eq.
  - unfold CallWorkerDeath. destruct (executed f); [|done]. split; [done|]. by apply inState_other.
Qed.

Lemma waits_step a w w' pid : waitsFor w pid →
  exec sort mapf reducef content files nReduce a w = Some w' → waitsFor w' pid.
Proof.
  intros (Hph & Hc & [wt Hat] & Hx) He. destruct a as [a| | |q|q a]; simpl in He.
  - by rewrite decide_True in He.
  - unfold nextPhase in He. rewrite Hph in He. destruct (pc (sys w)); try done.
    destruct (findReady _ _ _) as [[|?|[?|?|]] []]; done.
  - rewrite decide_True in He by done. destruct (isAllDeath (coord (sys w))) eqn:Hd; [|done].
    apply bool_decide_eq_true in Hd. destruct Hx as (job & Hm & _). by specialize (Hd _ _ Hm).
  - case_decide as Hq; simplify_eq. destruct Hq as [_ Hq]. split; [done|]. split; [done|]. split; [|done].
    apply at_set. right. split; [congruence|]. by exists wt.
  - unfold execProc in He. apply bind_Some in He as ([wtq p] & Hq & He). destruct (decide (q = pid)) as [->|Hne].
    { rewrite Hat in Hq. injection Hq as <- <-. destruct a; simplify_eq/=. split; [done|]. split; [done|].
      split; [apply at_set; by left|done]. }
    assert (∀ w1 y, procs w1 = procs w → at_ (set_proc w1 q y) pid W_Gone) as Hgone.
    { intros w1 [y1 y2] Hp. apply at_set. right. split; [done|]. exists wt. by rewrite Hp. }
    destruct (execQuiet sort content q a wtq p w) as [[s' x]|] eqn:Hqu; simplify_eq.
    { destruct (quiet_waits _ _ _ _ _ _ _ pid Hne Hqu Hc Hx) as [? ?]. split; [done|]. split; [done|].
      split; [by apply Hgone|done]. }
    destruct a, p as [| | | |i mrKVs k| |[|name rest]|r [|name rest] kva|r off [|kv rest]| |]; try done; simpl in He.
    + case_decide; simplify_eq. split; [done|]. split; [done|]. split; [by apply Hgone|done].
    + simplify_eq. split; [done|]. split; [done|]. split; [by apply Hgone|done].
    + simplify_eq. split; [done|]. split; [done|]. split; [by apply Hgone|done].
    + simplify_eq. split; [done|]. split; [done|]. split; [by apply Hgone|done].
    + destruct (sameKey _ _). simplify_eq. split; [done|]. split; [done|]. split; [by apply Hgone|done].
Qed.

(** Whatever happens, calm or not: the coordinator never ends. *)
Theorem crashed_worker_blocks_exit safe acts w w' pid : waitsFor w pid →
  runWorld sort mapf reducef content files nReduce safe acts w = Some w' → Done (coord (sys w')) = false.
Proof.
  revert w. induction acts as [|a acts IH]; intros w Hw Hr; simpl in Hr.
  - simplify_eq. destruct Hw as (_ & Hc & _). unfold Done. by rewrite Hc.
  - destruct (negb safe || calmb w (a w)); [|done]. apply bind_Some in Hr as (w1 & H1 & Hr).
    eapply IH; [by eapply waits_step|done].
Qed.
End waiting.

(** ** Runs that are not calm *)

(** What the world shows: whether [Done] answers true, whether everybody is
    through, and the two output files. *)
Definition shown (w : world) : bool * bool * option byteSeq * option byteSeq :=
  (Done (coord (sys w)), nobody isWriting w, outs w !! 0, outs w !! 1).

Definition wildRun (acts : list (world → action)) : option world :=
  runWorld (merge_sort leKey) wcMap wcReduce demoContent ["f0"] 2 false acts (world0 ["f0"] 2).

(** The reduce tasks that worker [pid] does alone, with [n] files in the
    directory, until the coordinator is done. *)
Definition reduceTwice (pid : Z) (n : nat) (lines : list (world → action)) : list (world → action) :=
  (assign late ++ poll pid ++ readAll pid n ++ lines ++ finish pid) ++
  (assign late ++ poll pid ++ readAll pid n ++ lines ++ finish pid) ++
  [act NextPhase; act (Proc pid (P_Poll Answered)); act (Proc pid (P_Death Answered))].

Definition oneLine (pid : Z) : list (world → action) := [act (Proc pid P_WriteNext)].

(** Worker 8 crashes while it is free; all works are done, and the coordinator
    waits for it ([crashed_worker_blocks_exit]). *)
Example waits_for_crashed :
  (λ w, (phase w, c_state (coord (sys w)), isWriting (pointOf w 8), workerMap (coord (sys w)) !! 8)) <$>
    wildRun (enter 7 ++ assign 5 ++ poll 7 ++ mapFiles 7 ++ finish 7 ++ renameAll 7 2 ++ [act NextPhase] ++
      take 17 (reduceTwice 7 2 (oneLine 7)) ++ enter 8 ++ [act (Proc 8 P_Crash)] ++ drop 17 (reduceTwice 7 2 (oneLine 7)))
  = Some ("Exit", "Exiting", false, Some (mkWorker WS_Exiting "Exit")).
Proof. vm_compute. reflexivity. Qed.

(** A worker reports a map task when its temporary files are written, and gives
    them their final names only after the coordinator has answered.  With the
    last report the map phase is over: a reduce task that runs before the
    renaming finds no intermediate file, and the job ends with empty output. *)
Lemma reduce_before_rename :
  shown <$> wildRun (enter 7 ++ assign 5 ++ poll 7 ++ mapFiles 7 ++ finish 7 ++ [act NextPhase] ++ enter 8 ++
    [act (Alloc Scan); act (Alloc (Pick [(8, mkWorker WS_Free "No job"); (7, mkWorker WS_Free "")]));
     act (Alloc (Mark 9)); act (Alloc Give)] ++
    poll 8 ++ readAll 8 2 ++ finish 8 ++
    [act (Alloc Scan); act (Alloc (Pick [(8, mkWorker WS_Free ""); (7, mkWorker WS_Free "")]));
     act (Alloc (Mark 9)); act (Alloc Give)] ++
    poll 8 ++ readAll 8 2 ++ finish 8 ++ [act NextPhase] ++ renameAll 7 2 ++
    [act (Proc 7 (P_Poll Answered)); act (Proc 7 (P_Death Answered));
     act (Proc 8 (P_Poll Answered)); act (Proc 8 (P_Death Answered)); act Finish])
  = Some (true, true, Some [], Some []).
Proof. vm_compute. reflexivity. Qed.

(** A worker that does not get the answer to its first call goes on with 0
    reduce tasks: its map task is done and leaves nothing. *)
Lemma lost_nReduce :
  shown <$> wildRun ([act (Spawn 7); act (Proc 7 (P_NReduce ReplyLost)); act (Proc 7 (P_Register Answered))] ++
    assign 5 ++ poll 7 ++ finish 7 ++ renameAll 7 0 ++ [act NextPhase] ++ reduceTwice 7 0 [] ++ [act Finish])
  = Some (true, true, Some [], Some []).
Proof. vm_compute. reflexivity. Qed.

(** An output file is truncated and then written in place: a worker that was
    declared dead, and crashes after it has opened the file of a task which
    another worker has reported, leaves it empty. *)
Lemma straggler_truncates :
  shown <$> wildRun (enter 7 ++ assign 5 ++ poll 7 ++ mapFiles 7 ++ finish 7 ++ renameAll 7 2 ++ [act NextPhase] ++
    assign 5 ++ poll 7 ++ enter 8 ++ [act (Alloc (Recover late))] ++
    assign late ++ poll 8 ++ readAll 8 2 ++ oneLine 8 ++ finish 8 ++
    readAll 7 2 ++ [act (Proc 7 P_Crash)] ++
    assign late ++ poll 8 ++ readAll 8 2 ++ oneLine 8 ++ finish 8 ++
    [act NextPhase; act (Proc 8 (P_Poll Answered)); act (Proc 8 (P_Death Answered)); act Finish])
  = Some (true, true, Some [], Some (bytesOf [outputLine "b" "2"])).
Proof. vm_compute. reflexivity. Qed.
